(* ===== verification/_CoqProject ===== *)
-Q . S2P
Prelude.v
Go.v
Crc32c.v
Attributes.v
Reader.v
Record.v
Index.v
Cache.v
Strconv.v
Legacy.v
FileSystem.v
Log.v
LogSpec.v
Scan.v
Opening.v
Store.v
StoreSpec.v
Compact.v
CompactSpec.v
Lock.v
Windows.v
Lifecycle.v
LifecycleSpec.v
Contract.v
Durability.v
Runs.v
Demo.v
Migration.v
Downgrade.v
DowngradeSpec.v
Sizes.v
Background.v
StoreTheorems.v
VersionTheorems.v
UpkeepTheorems.v
LogTheorems.v
FormatTheorems.v
Limits.v
