(* ===== verification/Prelude.v ===== *)
(** * appendstore: a verified model of an append-only key-value store

    This library models the Go package appendstore (src/) and proves what makes
    it correct: that the store behaves as a finite map, and that the map
    survives crashes, failures of the system and compaction.

    ** The program and its parts

    - The log (src/log.go, type appendLog): one file, a 16-byte header and then
      records that are only appended.  A record has a length, flags, key,
      attributes, value, extension area and a CRC-32C checksum; formats 1 to 3
      are older layouts without a checksum.  [Append] writes, point reads go
      through a memory map or the file, [Iterate] scans the file at start-up
      and cuts off a torn tail.
    - The index (src/index.go): in memory, from key to the place of its record,
      with secondary indexes over chosen attributes.
    - The cache (src/cache.go): an LRU cache of values.
    - The store (src/store.go): ties the three together under a mutex.  [Put]
      and [Delete] append a record and update index and cache; [Get] reads
      through the cache; [Compact] rewrites the live records into a new log and
      replaces the old one by renaming three files; [Open] takes the lock,
      finishes an interrupted compaction, opens and scans the log and migrates
      old formats; [Close] gives everything back.
    - The background tasks (src/store.go): goroutines that call [Sync] and, when
      enough of the log is dead, [Compact].
    - The lock (src/lock.go): one store per database.
    - The downgrade (src/downgrade.go): writes the live records of a log to a
      new one in format 3 or 4; the program in src/cmd/appendstore-downgrade
      calls it.
    - The platform files (src/*_unix.go, src/*_other.go, src/*_windows.go):
      locking, memory mapping and directory sync.

    ** Which file models what

    - Prelude.v, Go.v: notations, machine integers, little-endian fields,
      slices; Go's errors and [errors.Is], results with panics and crashes, the
      state monad [M] with weakest preconditions [wp], and the iteration order
      of Go maps as the class [MapRange], so that every theorem holds for every
      order.
    - Crc32c.v: [checksumTable] and hash/crc32.  Attributes.v:
      [encodeAttributes], [decodeAttributes].  Reader.v: bufio and io as the
      scanner uses them.  Record.v: the record of formats 4 and 5
      ([readRecordFrom], [validateStoredRecord], [validateExtensions], the
      encoder inside [Append]).  Strconv.v, Legacy.v: formats 1 to 3
      ([readLegacyRecordFrom]) and [encodeV3Record].
    - Index.v: src/index.go.  Cache.v: src/cache.go.
    - FileSystem.v: the system calls, with a schedule of failures.  Every call
      may succeed, return an error, or never return because the process dies; a
      write may leave any prefix of its data.
    - Log.v: the rest of src/log.go, on a record [appendLog] with the struct's
      fields.  LogSpec.v, Scan.v, Opening.v: its rules.  Scan.v proves the scan
      for any record format that satisfies the class [LogFormat], with formats
      4 and 5 and the legacy formats as instances.
    - Store.v, Compact.v, Lock.v, Lifecycle.v: src/store.go and src/lock*.go.
      StoreSpec.v, CompactSpec.v, LifecycleSpec.v: their rules.  CompactSpec.v
      proves compaction against the class [Rewritable], what a log must offer
      for its live records to be copied, with the current format and
      (Migration.v) formats 1 to 3 as instances.
    - Windows.v: the Windows files, over the class [Kernel32], whose state is the
      table of locked byte ranges.
    - Contract.v: the abstract specification, a relation [spec_step] on a finite
      map, and the abstraction from records to that map.  Durability.v: what a
      process finds that opens a database another one left ([reopens]).
      Runs.v: sequences of calls follow the contract.
    - Migration.v: the rules for [migrate] and [copyLogFile], and for [Open] of
      a log of any format ([log_file]).
    - Downgrade.v: src/downgrade.go with bufio.Writer, and the command-line
      program.  DowngradeSpec.v: its rules, with [expressible] and [downgraded]
      as the specification of what fits and what comes back.
    - Sizes.v: bounds of index entries, and the compaction ratio.
    - Background.v: the background tasks and the goroutines of the application
      as a step relation, with the phases of [Compact]; the abstract machine
      [spec_event] its executions follow.
    - Demo.v: concrete databases for instances.  StoreTheorems.v,
      VersionTheorems.v, UpkeepTheorems.v, LogTheorems.v, FormatTheorems.v: the
      theorems.  Limits.v: what happens outside their conditions.

    ** The theorems

    - Durability (C1 to C8): crash consistency of any sequence of calls with a
      crash at any system call, also of the recovery itself; refinement of the
      finite map; [Open], [Close], new databases; a compaction keeps every
      value, attribute and extension, and an error or a crash in it is safe;
      concurrent callers and the background tasks, with [Compact] refused
      exactly while another one is on its way.
    - Older formats (C9 to C11, C22): [Open] migrates formats 1 to 4 without
      changing the map, whatever fails; [Downgrade] on every outcome, that its
      output opens as the same map, and what it refuses.
    - Operations (C12 to C18): every public operation on every outcome,
      refusals included; the queries; the disk order of [ForEach]; the lock.
    - Upkeep (C19 to C21): index entries stay in bounds, a compaction leaves
      nothing to compact, and the background tasks report every error once and
      compact only when it is due.
    - The log (C23 to C28): append, point reads, the scans, termination of the
      scan on arbitrary bytes, recovery of interrupted compactions, the header.
    - Encodings and data structures (C29 to C37): round trips, exactness of
      every decoder, detection of damage and of torn records, canonical
      attribute encoding, version 3 records; cache and index against their
      specifications.
    - Platforms (C38): locking in a Windows build simulates the Unix build.
    - Limits (C39, C40): damage that is taken for a torn tail, and a failed
      write that makes the next acknowledged one unreadable.  Limits.v also has
      single executions, evaluated, behind some of the findings.

    ** Modelling decisions

    - A method of a component is an [M] on the component's state and the world;
      state changes are kept on every way out, so a rule can speak about the
      state after an error or a crash.
    - A crash is the death of the process.  Completed writes survive it;
      losing writes that were not synced (a power failure) is not modelled, so
      [Sync] matters only for its errors.
    - [faults w] counts the failures still scheduled in [w].  The rules for
      single operations and for [Downgrade] hold for every schedule.  Those for
      [Compact], and with it C1 and migration, allow one failure per run;
      Limits.v shows a second one can lose data.
    - Every store operation runs under the store's mutex and is one atomic
      step; [ForEach] releases it between keys, and the model lets its callback
      see and change the store there.  [Compact] is one step in a sequence of
      calls, and three in a concurrent execution (Background.v): the
      compare-and-swap on [compacting] before the mutex, the body, the reset of
      the flag behind it.  A tick of a background task may come at any time,
      and its report to [OnError], any function on the application's state, is
      a step of its own.  Concurrent executions leave out [Close], which waits
      for the tasks, and [ForEach].
    - [OnMigrate] is a function of its argument: I/O of its own is not modelled.
    - Integers have their Go width where it matters (lengths and checksums of
      32 bits, counters and sums of 64 bits); file positions are unbounded.
      Memory sizes are those of a 64-bit build.
    - A handle is named by its path, which is sound because the program closes
      a file before it renames it.  (The one exception, a source of [Downgrade]
      with the name of the temporary output, is excluded by [clear_of].)
      Opening, syncing and closing the parent directory is one call.
      Permissions, timestamps and munmap are left out.
    - Buffers that are reused (the append buffer, the pooled and the scratch
      buffers) are modelled with their stale contents.
    - Loops that are not structural have fuel: the scan one pass per byte of
      the file, the extension walk one per byte, evictions one per element.
      Running out of fuel is a panic or [None], and the theorems show that it
      does not happen.

    ** Not modelled

    Data races; ticker periods; loss of writes that were not synced; the text
    of messages and of the usage line; tests and benchmarks.

    ** Plan

    Next: a disk that loses what was not synced, with the durability of
    acknowledged writes when [SyncInterval] is zero; the interleavings
    [ForEach] allows. *)

From stdpp Require Export prelude gmap strings list sorting.
From coqutil Require Export Byte Word.LittleEndianList.

#[global] Open Scope Z_scope.
#[global] Set Default Proof Using "Type".

(** ** Byte strings

    A Go [string] and a Go [[]byte] are both a [list byte]; [[]byte(key)] and
    [string(buf)] are therefore the identity.  [len] is Go's [len], in [Z]. *)

Declare Scope go_scope.
Delimit Scope go_scope with go.

Abbreviation bytes := (list byte).
Abbreviation len l := (Z.of_nat (length l)).

Definition str (s : String.string) : bytes := String.list_byte_of_string s.

#[global] Instance byte_eq_decision : EqDecision byte := Byte.byte_eq_dec.
#[global] Instance byte_countable : Countable byte :=
  inj_countable Byte.to_N Byte.of_N Byte.of_to_N.
#[global] Instance byte_inhabited : Inhabited byte := populate Byte.x00.

(** ** Machine integers *)

Definition uint16 (z : Z) : Z := z mod 2 ^ 16.
Definition uint32 (z : Z) : Z := z mod 2 ^ 32.
Definition int32 (z : Z) : Z := (z + 2 ^ 31) mod 2 ^ 32 - 2 ^ 31.
Definition int64 (z : Z) : Z := (z + 2 ^ 63) mod 2 ^ 64 - 2 ^ 63.
Definition maxInt : Z := 2 ^ 63 - 1.

Lemma uint16_small z : 0 ≤ z < 2 ^ 16 → uint16 z = z.
Proof. apply Z.mod_small. Qed.
Lemma uint32_small z : 0 ≤ z < 2 ^ 32 → uint32 z = z.
Proof. apply Z.mod_small. Qed.
Lemma int32_small z : - 2 ^ 31 ≤ z < 2 ^ 31 → int32 z = z.
Proof. intros. unfold int32. rewrite Z.mod_small; lia. Qed.
Lemma int64_small z : - 2 ^ 63 ≤ z < 2 ^ 63 → int64 z = z.
Proof. intros. unfold int64. rewrite Z.mod_small; lia. Qed.

(** ** Little-endian integers (encoding/binary) *)

Definition put16 (z : Z) : bytes := le_split 2 z.
Definition put32 (z : Z) : bytes := le_split 4 z.
Definition put64 (z : Z) : bytes := le_split 8 z.

Lemma length_put16 z : length (put16 z) = 2%nat.
Proof. apply length_le_split. Qed.
Lemma length_put32 z : length (put32 z) = 4%nat.
Proof. apply length_le_split. Qed.
Lemma length_put64 z : length (put64 z) = 8%nat.
Proof. apply length_le_split. Qed.

Lemma get_put16 z : 0 ≤ z < 2 ^ 16 → le_combine (put16 z) = z.
Proof. intros. unfold put16. rewrite le_combine_split. by apply Z.mod_small. Qed.
Lemma get_put32 z : 0 ≤ z < 2 ^ 32 → le_combine (put32 z) = z.
Proof. intros. unfold put32. rewrite le_combine_split. by apply Z.mod_small. Qed.
Lemma get_put64 z : le_combine (put64 z) = z mod 2 ^ 64.
Proof. unfold put64. by rewrite le_combine_split. Qed.

Lemma put16_get b : length b = 2%nat → put16 (le_combine b) = b.
Proof. intros. by apply split_le_combine'. Qed.
Lemma put32_get b : length b = 4%nat → put32 (le_combine b) = b.
Proof. intros. by apply split_le_combine'. Qed.

Lemma put64_get b : length b = 8%nat → put64 (int64 (le_combine b)) = b.
Proof.
  intros Hb. unfold put64. rewrite le_split_mod.
  rewrite <- (split_le_combine' b 8) at 2 by done.
  rewrite (le_split_mod (le_combine b)). f_equal. change (2 ^ (Z.of_nat 8 * 8)) with (2 ^ 64).
  unfold int64. rewrite Zminus_mod, Z.mod_mod, <- Zminus_mod by lia. f_equal. lia.
Qed.

Lemma int64_get_put64 z : - 2 ^ 63 ≤ z < 2 ^ 63 → int64 (le_combine (put64 z)) = z.
Proof.
  intros. unfold put64. rewrite le_combine_split.
  change (2 ^ (Z.of_nat 8 * 8)) with (2 ^ 64). unfold int64.
  rewrite <- Zplus_mod_idemp_l, Z.mod_mod, Zplus_mod_idemp_l by lia.
  rewrite Z.mod_small; lia.
Qed.

Lemma int64_range z : - 2 ^ 63 ≤ int64 z < 2 ^ 63.
Proof. unfold int64. pose proof (Z.mod_pos_bound (z + 2 ^ 63) (2 ^ 64)). lia. Qed.

Lemma le_combine_range b : 0 ≤ le_combine b < 2 ^ (8 * len b).
Proof. apply le_combine_bound. Qed.

#[global] Opaque put16 put32 put64.

(** ** Length arithmetic

    [len_lia] pushes [length] through the list operations the format code
    uses (rewrite database [len]) and closes the goal with [lia].  Constants
    of the program are unfolded through the database [consts]. *)

Create Rewrite HintDb len.
#[export] Hint Rewrite @length_app @length_take @length_drop @length_cons
  @length_nil @length_replicate length_put16 length_put32 length_put64 : len.

Create HintDb consts.
Ltac zlia := autounfold with consts in *; lia.

Ltac simp_len := autorewrite with len in *.
Ltac len_lia := simp_len; solve [lia | zlia].

(** ** Boolean comparisons

    [zcase] decides every integer comparison of the goal, discharging the
    impossible outcomes by [lia]. *)

Ltac zcase_one :=
  match goal with
  | |- context [?a >? ?b] => destruct (Z.gtb_spec a b)
  | |- context [?a <? ?b] => destruct (Z.ltb_spec a b)
  | |- context [?a <=? ?b] => destruct (Z.leb_spec a b)
  | |- context [?a =? ?b] => destruct (Z.eqb_spec a b)
  end.
Ltac zcase := repeat (zcase_one; try (exfalso; solve [zlia | len_lia])); simpl.

(** ** Slices

    [slice lo hi l] is the Go expression [l[lo:hi]] on in-range bounds. *)

Definition slice {A} (lo hi : Z) (l : list A) : list A :=
  take (Z.to_nat (hi - lo)) (drop (Z.to_nat lo) l).

Section slices.
Context {A : Type}.
Implicit Types (l a b c : list A) (lo hi : Z).

Lemma length_slice lo hi l :
  0 ≤ lo → lo ≤ hi ≤ len l → length (slice lo hi l) = Z.to_nat (hi - lo).
Proof. intros. unfold slice. len_lia. Qed.

Lemma slice_app_r lo hi a l :
  len a ≤ lo → slice lo hi (a ++ l) = slice (lo - len a) (hi - len a) l.
Proof.
  intros. unfold slice. rewrite drop_app_ge by lia.
  f_equal; [lia | f_equal; lia].
Qed.

Lemma slice_app_l lo hi a l :
  0 ≤ lo → hi ≤ len a → slice lo hi (a ++ l) = slice lo hi a.
Proof.
  intros. unfold slice. destruct (decide (lo ≤ len a)).
  - rewrite drop_app_le by lia. rewrite take_app_le; [done | len_lia].
  - replace (Z.to_nat (hi - lo)) with 0%nat by lia. by rewrite !take_0.
Qed.

Lemma slice_all lo hi l : lo = 0 → len l ≤ hi → slice lo hi l = l.
Proof. intros -> ?. unfold slice. rewrite drop_0, take_ge; [done | lia]. Qed.

Lemma slice_nil lo hi l : hi ≤ lo → slice lo hi l = [].
Proof.
  intros. unfold slice. by replace (Z.to_nat (hi - lo)) with 0%nat by lia.
Qed.

Lemma slice_mid lo hi a b c :
  lo = len a → hi = len a + len b → slice lo hi (a ++ b ++ c) = b.
Proof.
  intros -> ->. rewrite slice_app_r, slice_app_l by lia.
  apply slice_all; lia.
Qed.

Lemma slice_split lo mid hi l :
  0 ≤ lo → lo ≤ mid ≤ hi →
  slice lo hi l = slice lo mid l ++ slice mid hi l.
Proof.
  intros. unfold slice.
  replace (Z.to_nat (hi - lo)) with
    (Z.to_nat (mid - lo) + Z.to_nat (hi - mid))%nat by lia.
  replace (Z.to_nat mid) with
    (Z.to_nat lo + Z.to_nat (mid - lo))%nat by lia.
  by rewrite <- drop_drop, take_take_drop.
Qed.

Lemma slice_slice lo hi lo' hi' l :
  0 ≤ lo → 0 ≤ lo' → hi' ≤ hi - lo →
  slice lo' hi' (slice lo hi l) = slice (lo + lo') (lo + hi') l.
Proof.
  intros. unfold slice. rewrite skipn_firstn_comm, take_take, drop_drop.
  f_equal; [lia | f_equal; lia].
Qed.

Lemma take_slice n l : take n l = slice 0 (Z.of_nat n) l.
Proof. unfold slice. rewrite drop_0. f_equal. lia. Qed.
End slices.

#[export] Hint Rewrite @length_slice using len_lia : len.

(** ** Filters *)

Lemma fmap_filter_iff {A B} (f : A → B) (P : A → Prop) (Q : B → Prop)
    `{∀ x, Decision (P x)} `{∀ x, Decision (Q x)} (l : list A) :
  (∀ x, x ∈ l → P x ↔ Q (f x)) → f <$> filter P l = filter Q (f <$> l).
Proof.
  induction l as [|x l IH]; intros Hiff; [done|]. rewrite filter_cons. csimpl.
  rewrite filter_cons. rewrite <- IH by (intros; apply Hiff; set_solver).
  repeat case_decide; csimpl; try done; exfalso; pose proof (Hiff x); set_solver.
Qed.

Lemma filter_id {A} (P : A → Prop) `{∀ x, Decision (P x)} (l : list A) :
  (∀ x, x ∈ l → P x) → filter P l = l.
Proof.
  induction l as [|x l IH]; intros HP; [done|].
  rewrite filter_cons_True by (apply HP; set_solver). rewrite IH; set_solver.
Qed.
