(* ===== verification/Go.v ===== *)
(** * The parts of Go the program is written in

    Error values and [errors.Is]; results of a call (a value, an error, a
    run-time panic, or the death of the process in the middle of it); the
    state monad in which methods that mutate their receiver are written; byte
    slicing with Go's bounds checks; the order [sort.Strings] sorts by; and
    the unspecified iteration order of a Go map, as a type class. *)

From S2P Require Import Prelude.

(** ** Errors *)

(** The sentinel errors of store.go, and those of the standard library that
    the program tests for or passes on. [ErrOS n] is any other operating-system
    error. *)
Inductive sentinel :=
| ErrStoreClosed | ErrStoreLocked | ErrCorruptedData | ErrUnsupportedVersion
| ErrUnsupportedFeature | ErrReadOnly | ErrCompactionInProgress
| ErrKeyNotFound | ErrInvalidKey | ErrInvalidAttribute | ErrValueTooLarge
| ErrAttributesTooLarge
| EOF | ErrUnexpectedEOF | ErrNotExist | ErrClosed | ErrSyntax | ErrRange
| ErrUnsupported | ErrContended | ErrOS (code : nat).

#[global] Instance sentinel_eq_decision : EqDecision sentinel.
Proof. solve_decision. Defined.

(** [Errorf f ws] is [fmt.Errorf] with format [f] (operands of verbs other
    than [%w] are not kept) wrapping [ws]; [errors.New] wraps nothing. *)
Inductive error :=
| Sentinel (s : sentinel)
| Errorf (format : String.string) (wrapped : list error).

Fixpoint errors_Is (e : error) (target : sentinel) : bool :=
  match e with
  | Sentinel s => bool_decide (s = target)
  | Errorf _ ws => existsb (λ w, errors_Is w target) ws
  end.

(** [errors.Join] drops nil errors and is nil when nothing is left. *)
Definition errors_Join (es : list (option error)) : option error :=
  match omap id es with
  | [] => None
  | ws => Some (Errorf "join" ws)
  end.

(** ** Results *)

Inductive res (A : Type) :=
| Ok (a : A)
| Err (e : error)
| Panic
| Crash.
Arguments Ok {A} _.
Arguments Err {A} _.
Arguments Panic {A}.
Arguments Crash {A}.

#[global] Instance res_ret : MRet res := @Ok.
#[global] Instance res_bind : MBind res := λ A B f r,
  match r with
  | Ok a => f a
  | Err e => Err e
  | Panic => Panic
  | Crash => Crash
  end.
#[global] Instance res_fmap : FMap res := λ A B f r,
  match r with
  | Ok a => Ok (f a)
  | Err e => Err e
  | Panic => Panic
  | Crash => Crash
  end.

(** A result of a call that came back, with a value or an error. *)
Definition returns {A} (r : res A) : Prop :=
  match r with Ok _ | Err _ => True | Panic | Crash => False end.

(** A call that did not succeed. *)
Definition broken {A} (r : res A) : Prop :=
  match r with Err _ | Crash => True | Ok _ | Panic => False end.

Lemma returns_bind {A B} (f : A → res B) r :
  returns r → (∀ a, r = Ok a → returns (f a)) → returns (r ≫= f).
Proof. destruct r; naive_solver. Qed.

Lemma bind_Ok {A B} (f : A → res B) r b :
  r ≫= f = Ok b ↔ ∃ a, r = Ok a ∧ f a = Ok b.
Proof. destruct r; naive_solver. Qed.

Create HintDb go discriminated.
#[export] Hint Resolve returns_bind : go.

(** ** Stateful code: a state and result monad

    A method [func (x *T) m(...) (A, error)] is an [M T A]: the receiver is
    the state, and it keeps what the method did to it on every way out. *)

Definition M (S A : Type) : Type := S → res A * S.

#[global] Instance M_ret S : MRet (M S) := λ A a s, (Ok a, s).
#[global] Instance M_bind S : MBind (M S) := λ A B f m s,
  match m s with
  | (Ok a, s') => f a s'
  | (Err e, s') => (Err e, s')
  | (Panic, s') => (Panic, s')
  | (Crash, s') => (Crash, s')
  end.

Section monad.
Context {S : Type}.

Definition get : M S S := λ s, (Ok s, s).
Definition put (s : S) : M S unit := λ _, (Ok tt, s).
Definition modify (f : S → S) : M S unit := λ s, (Ok tt, f s).
Definition throw {A} (e : error) : M S A := λ s, (Err e, s).
Definition lift {A} (r : res A) : M S A := λ s, (r, s).

(** [x, err := m()] with [err] inspected by the caller. *)
Definition attempt {A} (m : M S A) : M S (error + A) := λ s,
  match m s with
  | (Ok a, s') => (Ok (inr a), s')
  | (Err e, s') => (Ok (inl e), s')
  | (Panic, s') => (Panic, s')
  | (Crash, s') => (Crash, s')
  end.

(** [_ = m()]. *)
Definition ignore {A} (m : M S A) : M S unit := attempt m ;; mret tt.

(** [err := m(); if err != nil { return fmt.Errorf(format, err) }]. *)
Definition wrap {A} (format : String.string) (m : M S A) : M S A := λ s,
  match m s with
  | (Err e, s') => (Err (Errorf format [e]), s')
  | rs => rs
  end.

(** Run a method of a component held in the state. *)
Definition zoom {T A} (proj : S → T) (upd : T → S → S) (m : M T A) : M S A :=
  λ s, let '(r, t) := m (proj s) in (r, upd t s).
End monad.

(** Weakest preconditions: [wp m Q s] when running [m] from [s] ends in a
    result and a state that satisfy [Q]. *)
Definition wp {S A} (m : M S A) (Q : res A → S → Prop) (s : S) : Prop :=
  Q (m s).1 (m s).2.

Section wp.
Context {S : Type}.

Lemma wp_bind {A B} (m : M S A) (f : A → M S B) Q s :
  wp m (λ r s', match r with
                | Ok a => wp (f a) Q s'
                | Err e => Q (Err e) s'
                | Panic => Q Panic s'
                | Crash => Q Crash s'
                end) s →
  wp (m ≫= f) Q s.
Proof.
  unfold wp, mbind, M_bind. by destruct (m s) as [[] ?].
Qed.

Lemma wp_attempt {A} (m : M S A) Q s :
  wp m (λ r s', match r with
                | Ok a => Q (Ok (inr a)) s'
                | Err e => Q (Ok (inl e)) s'
                | Panic => Q Panic s'
                | Crash => Q Crash s'
                end) s →
  wp (attempt m) Q s.
Proof. unfold wp, attempt. by destruct (m s) as [[] ?]. Qed.

Lemma wp_wrap {A} fmt (m : M S A) Q s :
  wp m (λ r s', match r with
                | Err e => Q (Err (Errorf fmt [e])) s'
                | r => Q r s'
                end) s →
  wp (wrap fmt m) Q s.
Proof. unfold wp, wrap. by destruct (m s) as [[] ?]. Qed.

Lemma wp_ignore {A} (m : M S A) Q s :
  wp m (λ r s', match r with
                | Ok _ | Err _ => Q (Ok tt) s'
                | Panic => Q Panic s'
                | Crash => Q Crash s'
                end) s →
  wp (ignore m) Q s.
Proof.
  unfold ignore. intros H. apply wp_bind, wp_attempt.
  unfold wp in *. by destruct (m s) as [[] ?].
Qed.

Lemma wp_ret {A} (a : A) (Q : res A → S → Prop) s : Q (Ok a) s → wp (mret a) Q s.
Proof. done. Qed.

Lemma wp_throw {A} e (Q : res A → S → Prop) s : Q (Err e) s → wp (throw e) Q s.
Proof. done. Qed.

Lemma wp_lift {A} (r : res A) (Q : res A → S → Prop) s : Q r s → wp (lift r) Q s.
Proof. done. Qed.

Lemma wp_lift_bind {A B} (r : res A) (f : A → M S B) Q s :
  match r with
  | Ok a => wp (f a) Q s
  | Err e => Q (Err e) s
  | Panic => Q Panic s
  | Crash => Q Crash s
  end → wp (lift r ≫= f) Q s.
Proof. unfold wp, mbind, M_bind, lift. by destruct r. Qed.

Lemma wp_mono {A} (m : M S A) (Q Q' : res A → S → Prop) s :
  wp m Q s → (∀ r s', Q r s' → Q' r s') → wp m Q' s.
Proof. unfold wp. auto. Qed.

(** Two runs that coincide. *)
Lemma wp_run {A} (m m' : M S A) Q s s' : m s = m' s' → wp m' Q s' → wp m Q s.
Proof. unfold wp. by intros ->. Qed.

Lemma wp_zoom {T A} (proj : S → T) upd (m : M T A) Q s :
  wp m (λ r t, Q r (upd t s)) (proj s) → wp (zoom proj upd m) Q s.
Proof. unfold wp, zoom. by destruct (m (proj s)). Qed.
End wp.

(** Running one step of a [bind] whose first part is known. *)
Lemma M_bind_run {S A B} (m : M S A) (f : A → M S B) s a s' :
  m s = (Ok a, s') → (m ≫= f) s = f a s'.
Proof. intros H. unfold mbind, M_bind. by rewrite H. Qed.

Lemma M_bind_fail {S A B} (m : M S A) (f : A → M S B) s e s' :
  m s = (Err e, s') → (m ≫= f) s = (Err e, s').
Proof. intros H. unfold mbind, M_bind. by rewrite H. Qed.

Lemma M_bind_inv {S A B} (m : M S A) (f : A → M S B) s b s' :
  (m ≫= f) s = (Ok b, s') → ∃ a s1, m s = (Ok a, s1) ∧ f a s1 = (Ok b, s').
Proof. unfold mbind, M_bind. destruct (m s) as [[] ?]; naive_solver. Qed.

Lemma lift_bind_inv {S A B} (r : res A) (f : A → M S B) s b s' :
  (lift r ≫= f) s = (Ok b, s') → ∃ a, r = Ok a ∧ f a s = (Ok b, s').
Proof. unfold mbind, M_bind, lift. destruct r; naive_solver. Qed.

Lemma M_bind_lift {S A B} (r : res A) (f : A → M S B) s a :
  r = Ok a → (lift r ≫= f) s = f a s.
Proof. by intros ->. Qed.

Lemma M_bind_lift_ok {S A B} (a : A) (f : A → M S B) s : (lift (Ok a) ≫= f) s = f a s.
Proof. done. Qed.

Lemma M_bind_wrap_lift {S A B} fmt (r : res A) (f : A → M S B) s a :
  r = Ok a → (wrap fmt (lift r) ≫= f) s = f a s.
Proof. by intros ->. Qed.

Ltac run_ok H := rewrite (M_bind_run _ _ _ _ _ H).
Ltac run_lift H := rewrite (M_bind_lift _ _ _ _ H).

(** ** Bounds-checked slicing and integer reads *)

Definition go_slice (lo hi : Z) (b : bytes) : res bytes :=
  if (0 <=? lo) && (lo <=? hi) && (hi <=? len b) then Ok (slice lo hi b)
  else Panic.

(** [b[lo:]]. *)
Definition go_from (lo : Z) (b : bytes) : res bytes := go_slice lo (len b) b.

(** [binary.LittleEndian.Uint16] and [Uint32] read the first bytes of a slice
    and panic on a shorter one. *)
Definition Uint16 (b : bytes) : res Z :=
  if 2 <=? len b then Ok (le_combine (slice 0 2 b)) else Panic.
Definition Uint32 (b : bytes) : res Z :=
  if 4 <=? len b then Ok (le_combine (slice 0 4 b)) else Panic.

Lemma go_slice_ok lo hi b :
  0 ≤ lo → lo ≤ hi ≤ len b → go_slice lo hi b = Ok (slice lo hi b).
Proof.
  intros. unfold go_slice.
  by rewrite (proj2 (Z.leb_le 0 lo)), (proj2 (Z.leb_le lo hi)),
    (proj2 (Z.leb_le hi (len b))) by lia.
Qed.

Lemma go_from_app pos p r : pos = len p → go_from pos (p ++ r) = Ok r.
Proof.
  intros ->. unfold go_from. rewrite go_slice_ok by len_lia.
  rewrite slice_app_r, slice_all by len_lia. done.
Qed.

Lemma go_slice_app lo hi p r :
  len p ≤ lo → lo ≤ hi ≤ len p + len r →
  go_slice lo hi (p ++ r) = Ok (slice (lo - len p) (hi - len p) r).
Proof. intros. rewrite go_slice_ok by len_lia. by rewrite slice_app_r by lia. Qed.

Lemma go_from_app_ge pos p r :
  len p ≤ pos ≤ len p + len r →
  go_from pos (p ++ r) = Ok (slice (pos - len p) (len r) r).
Proof.
  intros. unfold go_from. rewrite go_slice_app by len_lia.
  f_equal. f_equal. len_lia.
Qed.

Lemma Uint16_ok b : 2 ≤ len b → Uint16 b = Ok (le_combine (slice 0 2 b)).
Proof. intros. unfold Uint16. by rewrite (proj2 (Z.leb_le _ _)). Qed.
Lemma Uint32_ok b : 4 ≤ len b → Uint32 b = Ok (le_combine (slice 0 4 b)).
Proof. intros. unfold Uint32. by rewrite (proj2 (Z.leb_le _ _)). Qed.

Lemma Uint16_put z r : 0 ≤ z < 2 ^ 16 → Uint16 (put16 z ++ r) = Ok z.
Proof.
  intros. rewrite Uint16_ok by len_lia.
  by rewrite slice_app_l, slice_all, get_put16 by len_lia.
Qed.

Lemma Uint32_put z r : 0 ≤ z < 2 ^ 32 → Uint32 (put32 z ++ r) = Ok z.
Proof.
  intros. rewrite Uint32_ok by len_lia.
  by rewrite slice_app_l, slice_all, get_put32 by len_lia.
Qed.

(** Reading a part of a buffer whose layout is known. *)
Lemma go_from_at pos buf p r : buf = p ++ r → pos = len p → go_from pos buf = Ok r.
Proof. intros ->. apply go_from_app. Qed.

Lemma le_combine_slice_range lo hi b :
  0 ≤ lo → lo ≤ hi ≤ len b →
  0 ≤ le_combine (slice lo hi b) < 2 ^ (8 * (hi - lo)).
Proof.
  intros. pose proof (le_combine_range (slice lo hi b)) as H1.
  rewrite length_slice, Z2Nat.id in H1 by lia. done.
Qed.

Lemma Uint32_inv b z : Uint32 b = Ok z → 4 ≤ len b ∧ z = le_combine (slice 0 4 b).
Proof. unfold Uint32. zcase_one; naive_solver. Qed.

Lemma go_slice_inv lo hi b c :
  go_slice lo hi b = Ok c → 0 ≤ lo ∧ lo ≤ hi ≤ len b ∧ c = slice lo hi b.
Proof. unfold go_slice. repeat case_match; naive_solver lia. Qed.

(** A 32-bit field of a longer slice. *)
Lemma slice_Uint32_inv lo hi b z :
  hi = lo + 4 → (go_slice lo hi b ≫= Uint32) = Ok z →
  0 ≤ lo ∧ hi ≤ len b ∧ 0 ≤ z < 2 ^ 32 ∧ slice lo hi b = put32 z.
Proof.
  intros -> (c & (? & ? & ->)%go_slice_inv & [_ ->]%Uint32_inv)%bind_Ok.
  rewrite slice_slice, Z.add_0_r by lia.
  pose proof (le_combine_slice_range lo (lo + 4) b ltac:(lia) ltac:(lia)) as Hr.
  replace (8 * (lo + 4 - lo)) with 32 in Hr by lia.
  split_and!; try lia. symmetry. apply put32_get. rewrite length_slice; lia.
Qed.

Lemma go_slice_at lo hi buf a b c :
  buf = a ++ b ++ c → lo = len a → hi = len a + len b → go_slice lo hi buf = Ok b.
Proof.
  intros -> -> ->. rewrite go_slice_ok by len_lia.
  by rewrite slice_mid by lia.
Qed.


(** ** Writing into a buffer

    [copy(buf[pos:], src)] and [binary.LittleEndian.PutUintN(buf[pos:], v)],
    whose encoded value is [src]: the first truncates, the second panics when
    the buffer is too short. *)

Definition go_copy (pos : Z) (src buf : bytes) : res bytes :=
  if (0 <=? pos) && (pos <=? len buf) then
    Ok (take (Z.to_nat pos) buf ++ take (length buf - Z.to_nat pos) src ++
        drop (Z.to_nat pos + length src) buf)
  else Panic.

Definition go_put (pos : Z) (src buf : bytes) : res bytes :=
  if (0 <=? pos) && (pos + len src <=? len buf) then
    Ok (take (Z.to_nat pos) buf ++ src ++ drop (Z.to_nat pos + length src) buf)
  else Panic.

(** A buffer filled from the front: [p] is written, [r] is still stale. *)
Lemma go_copy_fill pos p src r :
  pos = len p → len src ≤ len r →
  go_copy pos src (p ++ r) = Ok ((p ++ src) ++ drop (length src) r).
Proof.
  intros -> Hle. unfold go_copy.
  rewrite (proj2 (Z.leb_le 0 _)), (proj2 (Z.leb_le (len p) _)) by len_lia.
  simpl. rewrite Nat2Z.id, take_app_length, length_app.
  rewrite (take_ge src) by lia. rewrite drop_app_add. by rewrite app_assoc.
Qed.

Lemma go_put_fill pos p src r :
  pos = len p → len src ≤ len r →
  go_put pos src (p ++ r) = Ok ((p ++ src) ++ drop (length src) r).
Proof.
  intros -> Hle. unfold go_put.
  rewrite (proj2 (Z.leb_le 0 _)), (proj2 (Z.leb_le (len p + _) _)) by len_lia.
  simpl. rewrite Nat2Z.id, take_app_length, drop_app_add. by rewrite app_assoc.
Qed.

(** ** sort.Strings: byte-wise lexicographic order *)

Fixpoint str_leb (a b : bytes) : bool :=
  match a, b with
  | [], _ => true
  | _ :: _, [] => false
  | x :: a, y :: b =>
      if byte.unsigned x <? byte.unsigned y then true
      else if byte.unsigned y <? byte.unsigned x then false
      else str_leb a b
  end.

Definition str_le (a b : bytes) : Prop := str_leb a b = true.

#[global] Instance str_le_dec a b : Decision (str_le a b).
Proof. unfold str_le. apply _. Defined.

#[global] Instance str_le_total : Total str_le.
Proof.
  intros a. unfold str_le. induction a as [|x a IH]; intros [|y b]; simpl; auto.
  destruct (Z.ltb_spec (byte.unsigned x) (byte.unsigned y)); auto.
  destruct (Z.ltb_spec (byte.unsigned y) (byte.unsigned x)); auto.
Qed.

#[global] Instance str_le_antisymm : AntiSymm (=) str_le.
Proof.
  intros a. unfold str_le. induction a as [|x a IH]; intros [|y b]; simpl; auto; try done.
  destruct (Z.ltb_spec (byte.unsigned x) (byte.unsigned y));
    destruct (Z.ltb_spec (byte.unsigned y) (byte.unsigned x)); try done; try lia.
  intros. f_equal; [apply byte.unsigned_inj; lia | auto].
Qed.

#[global] Instance str_le_trans : Transitive str_le.
Proof.
  intros a. unfold str_le. induction a as [|x a IH]; intros [|y b] [|z c]; simpl; auto; try done.
  destruct (Z.ltb_spec (byte.unsigned x) (byte.unsigned y));
  destruct (Z.ltb_spec (byte.unsigned y) (byte.unsigned x));
  destruct (Z.ltb_spec (byte.unsigned y) (byte.unsigned z));
  destruct (Z.ltb_spec (byte.unsigned z) (byte.unsigned y));
  destruct (Z.ltb_spec (byte.unsigned x) (byte.unsigned z));
  destruct (Z.ltb_spec (byte.unsigned z) (byte.unsigned x));
    try done; try lia; eauto.
Qed.

Definition sort_Strings (l : list bytes) : list bytes := merge_sort str_le l.

Lemma sort_Strings_perm l : sort_Strings l ≡ₚ l.
Proof. apply merge_sort_Permutation. Qed.

Lemma sort_Strings_sorted l : StronglySorted str_le (sort_Strings l).
Proof. apply StronglySorted_merge_sort; apply _. Qed.

(** The sorted list depends on the elements only, not on their order. *)
Lemma sort_Strings_proper l l' : l ≡ₚ l' → sort_Strings l = sort_Strings l'.
Proof.
  intros H. apply (StronglySorted_unique str_le); try apply sort_Strings_sorted.
  by rewrite !sort_Strings_perm.
Qed.

(** ** Map iteration

    [for k, v := range m] visits every entry once in an order Go does not
    specify. Everything that ranges over a map takes the order from this
    class, so what is proved holds for every order. *)

Class MapRange := {
  range : ∀ {V : Type}, gmap bytes V → list (bytes * V);
  range_perm : ∀ {V : Type} (m : gmap bytes V), range m ≡ₚ map_to_list m
}.

(** An order to evaluate with. *)
Definition canonical_range : MapRange :=
  {| range V m := map_to_list m; range_perm V m := Permutation_refl _ |}.

Section range.
Context `{!MapRange} {V : Type}.
Implicit Types m : gmap bytes V.

Lemma elem_of_range m k v : (k, v) ∈ range m ↔ m !! k = Some v.
Proof. by rewrite range_perm, elem_of_map_to_list. Qed.

Lemma length_range m : length (range m) = size m.
Proof. by rewrite range_perm, length_map_to_list. Qed.

Lemma NoDup_range_keys m : NoDup (range m).*1.
Proof. rewrite range_perm. apply NoDup_fst_map_to_list. Qed.

Lemma NoDup_range m : NoDup (range m).
Proof. rewrite range_perm. apply NoDup_map_to_list. Qed.

Lemma list_to_map_range m : list_to_map (range m) = m.
Proof.
  rewrite <- (list_to_map_to_list m) at 2.
  apply list_to_map_proper; [apply NoDup_range_keys | apply range_perm].
Qed.
End range.
