(* ===== verification/Crc32c.v ===== *)
(** * CRC-32C as hash/crc32 computes it

    The record checksum of log.go: [checksumTable], the incremental
    [hash.Write] the scanner uses and the one-shot [crc32.Checksum] the
    writer and the record reader use.  The file shows that the two agree, that
    a checksum always fits the 32-bit field that stores it, and that changing
    one byte of a message always changes its checksum. *)

From S2P Require Import Prelude Go.

(** ** Definitions *)

(** crc32.Castagnoli, in reversed bit order. *)
Definition Castagnoli : Z := 0x82f63b78.

Definition table_shift (crc : Z) : Z :=
  if Z.odd crc then Z.lxor (Z.shiftr crc 1) Castagnoli else Z.shiftr crc 1.

Definition table_entry (i : nat) : Z := Nat.iter 8 table_shift (Z.of_nat i).

Definition checksumTable : list Z := Eval vm_compute in table_entry <$> seq 0 256.

Definition table_get (i : Z) : Z := nth (Z.to_nat i) checksumTable 0.

(** [tab[byte(crc)^v] ^ (crc >> 8)] *)
Definition crc_step (crc : Z) (v : byte) : Z :=
  Z.lxor (table_get (Z.lxor (crc mod 256) (byte.unsigned v))) (Z.shiftr crc 8).

Definition mask32 : Z := 0xffffffff.

(** [crc32.Update]; [hash.Write] is [Update] on the running sum. *)
Definition Update (crc : Z) (p : bytes) : Z :=
  Z.lxor mask32 (foldl crc_step (Z.lxor mask32 crc) p).

Definition Checksum (p : bytes) : Z := Update 0 p.

(** ** Splitting a message *)

Lemma Update_app crc p q : Update crc (p ++ q) = Update (Update crc p) q.
Proof.
  unfold Update. rewrite foldl_app.
  by rewrite <- Z.lxor_assoc, Z.lxor_nilpotent, Z.lxor_0_l.
Qed.

Lemma Update_nil crc : Update crc [] = crc.
Proof. unfold Update. simpl. by rewrite <- Z.lxor_assoc, Z.lxor_nilpotent, Z.lxor_0_l. Qed.

Lemma Checksum_Update p : Checksum p = Update 0 p.
Proof. done. Qed.

(** ** Range *)

Definition in32 (z : Z) : Prop := 0 ≤ z < 2 ^ 32.

Lemma lxor_range a b n :
  0 ≤ n → 0 ≤ a < 2 ^ n → 0 ≤ b < 2 ^ n → 0 ≤ Z.lxor a b < 2 ^ n.
Proof.
  intros Hn Ha Hb.
  assert (Z.lxor a b = Z.lxor a b mod 2 ^ n) as ->; [|apply Z.mod_pos_bound; lia].
  rewrite <- (Z.mod_small a (2 ^ n)), <- (Z.mod_small b (2 ^ n)) by done.
  rewrite <- !Z.land_ones by done. apply Z.bits_inj'. intros i Hi.
  rewrite !Z.land_spec, !Z.lxor_spec, !Z.land_spec.
  destruct (Z.testbit (Z.ones n) i), (Z.testbit a i), (Z.testbit b i); done.
Qed.

Lemma shiftr8 c : Z.shiftr c 8 = c / 256.
Proof. by rewrite Z.shiftr_div_pow2. Qed.

Lemma byte_range (v : byte) : 0 ≤ byte.unsigned v < 256.
Proof. apply byte.unsigned_range. Qed.

Lemma table_index crc v :
  0 ≤ Z.lxor (crc mod 256) (byte.unsigned v) < 256.
Proof.
  apply (lxor_range _ _ 8); [lia | | apply byte_range].
  apply Z.mod_pos_bound. lia.
Qed.

Lemma table_forall (P : Z → Prop) i :
  0 ≤ i < 256 → Forall P checksumTable → P (table_get i).
Proof.
  intros Hi. rewrite Forall_nth. intros HF. apply HF.
  change (length checksumTable) with (Z.to_nat 256). lia.
Qed.

Lemma table_range i : 0 ≤ i < 256 → in32 (table_get i).
Proof.
  intros Hi. apply table_forall; [done|]. unfold in32.
  apply Forall_forall. intros x Hx.
  enough (forallb (λ x, (0 <=? x) && (x <? 2 ^ 32)) checksumTable = true) as HF.
  { rewrite forallb_forall in HF. apply list_elem_of_In, HF in Hx. lia. }
  by vm_compute.
Qed.

Lemma crc_step_range c v : in32 c → in32 (crc_step c v).
Proof.
  intros Hc. apply lxor_range; [lia | apply table_range, table_index |].
  unfold in32 in Hc. rewrite shiftr8. split; [apply Z.div_pos; lia|].
  apply Z.div_lt_upper_bound; lia.
Qed.

Lemma foldl_crc_range p c : in32 c → in32 (foldl crc_step c p).
Proof. revert c. induction p; simpl; auto using crc_step_range. Qed.

Lemma mask_range c : in32 c → in32 (Z.lxor mask32 c).
Proof. intros. apply lxor_range; unfold mask32, in32 in *; lia. Qed.

Lemma Checksum_range p : 0 ≤ Checksum p < 2 ^ 32.
Proof. apply mask_range, foldl_crc_range, mask_range. unfold in32. lia. Qed.

(** ** Sensitivity to one byte

    The top bytes of the 256 table entries are pairwise different, so a step
    can be undone from its result: it is injective in the running sum and in
    the byte. *)

Lemma table_top_inj i j :
  0 ≤ i < 256 → 0 ≤ j < 256 →
  table_get i / 2 ^ 24 = table_get j / 2 ^ 24 → i = j.
Proof.
  intros Hi Hj. unfold table_get.
  assert (NoDup ((λ x, x / 2 ^ 24) <$> checksumTable)) as HND.
  { apply (bool_decide_eq_true_1 _). by vm_compute. }
  intros Heq. rewrite NoDup_alt in HND.
  enough (Z.to_nat i = Z.to_nat j) by lia.
  assert (length checksumTable = Z.to_nat 256) as Hlen by done.
  assert (∀ k, 0 ≤ k < 256 →
    ((λ x, x / 2 ^ 24) <$> checksumTable) !! Z.to_nat k =
    Some (nth (Z.to_nat k) checksumTable 0 / 2 ^ 24)) as Hget.
  { intros k Hk. rewrite list_lookup_fmap.
    destruct (nth_lookup_or_length checksumTable (Z.to_nat k) 0) as [->|]; [done|lia]. }
  apply (HND _ _ (nth (Z.to_nat i) checksumTable 0 / 2 ^ 24));
    rewrite Hget; congruence.
Qed.

Lemma crc_step_top c v :
  in32 c →
  crc_step c v / 2 ^ 24 =
  table_get (Z.lxor (c mod 256) (byte.unsigned v)) / 2 ^ 24.
Proof.
  intros Hc. unfold crc_step. rewrite <- !Z.shiftr_div_pow2 by lia.
  rewrite Z.shiftr_lxor, Z.shiftr_shiftr by lia.
  assert (Z.shiftr c (8 + 24) = 0) as ->; [|apply Z.lxor_0_r].
  rewrite Z.shiftr_div_pow2 by lia. apply Z.div_small. unfold in32 in Hc. lia.
Qed.

Lemma lxor_cancel_l a b c : Z.lxor a b = Z.lxor a c → b = c.
Proof.
  intros H. rewrite <- (Z.lxor_0_l b), <- (Z.lxor_0_l c), <- (Z.lxor_nilpotent a).
  by rewrite !Z.lxor_assoc, H.
Qed.

Lemma crc_step_inj c1 c2 v1 v2 :
  in32 c1 → in32 c2 → crc_step c1 v1 = crc_step c2 v2 →
  c1 / 256 = c2 / 256 ∧
  Z.lxor (c1 mod 256) (byte.unsigned v1) = Z.lxor (c2 mod 256) (byte.unsigned v2).
Proof.
  intros H1 H2 Heq.
  assert (Z.lxor (c1 mod 256) (byte.unsigned v1) =
          Z.lxor (c2 mod 256) (byte.unsigned v2)) as Hi.
  { apply table_top_inj; try apply table_index.
    by rewrite <- !crc_step_top, Heq. }
  split; [|done]. unfold crc_step in Heq. rewrite Hi in Heq.
  apply lxor_cancel_l in Heq. by rewrite !shiftr8 in Heq.
Qed.

Lemma crc_step_inj_crc c1 c2 v :
  in32 c1 → in32 c2 → crc_step c1 v = crc_step c2 v → c1 = c2.
Proof.
  intros H1 H2 [Hd Hm]%crc_step_inj; [|done..].
  rewrite !(Z.lxor_comm _ (byte.unsigned v)) in Hm. apply lxor_cancel_l in Hm.
  rewrite (Z.div_mod c1 256), (Z.div_mod c2 256) by lia. congruence.
Qed.

Lemma crc_step_inj_byte c v1 v2 :
  in32 c → crc_step c v1 = crc_step c v2 → v1 = v2.
Proof.
  intros H [_ Hm]%crc_step_inj; [|done..].
  apply byte.unsigned_inj. by apply lxor_cancel_l in Hm.
Qed.

Lemma foldl_crc_inj p c1 c2 :
  in32 c1 → in32 c2 → foldl crc_step c1 p = foldl crc_step c2 p → c1 = c2.
Proof.
  revert c1 c2. induction p as [|v p IH]; simpl; [done|].
  intros c1 c2 H1 H2 Heq%IH; auto using crc_step_range.
  by eapply crc_step_inj_crc.
Qed.

(** Two messages that differ in one byte have different checksums. *)
Lemma Checksum_one_byte p x y q :
  Checksum (p ++ x :: q) = Checksum (p ++ y :: q) → x = y.
Proof.
  unfold Checksum, Update. intros Heq%lxor_cancel_l.
  rewrite !foldl_app in Heq. simpl in Heq.
  assert (in32 (foldl crc_step (Z.lxor mask32 0) p)) as Hc.
  { apply foldl_crc_range, mask_range. unfold in32. lia. }
  apply foldl_crc_inj in Heq; auto using crc_step_range.
  by apply crc_step_inj_byte in Heq.
Qed.

(** The check value of CRC-32C: the checksum of the digits 1 to 9. *)
Example Checksum_check : Checksum (str "123456789") = 0xe3069283.
Proof. by vm_compute. Qed.

#[global] Opaque Checksum.
