(* ===== verification/Attributes.v ===== *)
(** * The attribute block of a record

    log.go: [encodeAttributes] and [decodeAttributes].  A Go
    [map[string]string] is a [gmap bytes bytes]; nil and the empty map are
    not told apart by any code that reads one. *)

From S2P Require Import Prelude Go.

Definition maxAttributesSize : Z := Eval cbv in Z.shiftl 16 20.
Definition maxAttributeCount : Z := 4096.
#[export] Hint Unfold maxAttributesSize maxAttributeCount : consts.

Abbreviation attrs := (gmap bytes bytes).

(** ** Encoding *)

Definition emptyAttributes : bytes := replicate 4 Byte.x00.

(** The checking loop: the running [total] and the keys seen. *)
Fixpoint encodeAttributes_scan (kvs : list (bytes * bytes)) (total : Z)
    (keys : list bytes) : res (Z * list bytes) :=
  match kvs with
  | [] => Ok (total, keys)
  | (key, value) :: kvs =>
      if bool_decide (key = []) then Err (Sentinel ErrInvalidAttribute)
      else if len key >? 2 ^ 16 - 1 then
        Err (Errorf "attribute name is too long" [Sentinel ErrAttributesTooLarge])
      else if len value >? 2 ^ 32 - 1 then
        Err (Errorf "attribute value is too large" [Sentinel ErrAttributesTooLarge])
      else
        let total := total + (2 + 4 + len key + len value) in
        if total >? maxAttributesSize then
          Err (Errorf "encoded attributes exceed" [Sentinel ErrAttributesTooLarge])
        else encodeAttributes_scan kvs total (keys ++ [key])
  end.

(** The writing loop over the sorted keys. *)
Fixpoint encodeAttributes_fill (attributes : attrs) (keys : list bytes)
    (pos : Z) (buf : bytes) : res bytes :=
  match keys with
  | [] => Ok buf
  | key :: keys =>
      let value := default [] (attributes !! key) in
      buf ← go_put pos (put16 (uint16 (len key))) buf;
      let pos := pos + 2 in
      buf ← go_put pos (put32 (uint32 (len value))) buf;
      let pos := pos + 4 in
      buf ← go_copy pos key buf;
      let pos := pos + len key in
      buf ← go_copy pos value buf;
      let pos := pos + len value in
      encodeAttributes_fill attributes keys pos buf
  end.

Definition encodeAttributes `{!MapRange} (attributes : attrs) : res bytes :=
  if bool_decide (size attributes = 0%nat) then Ok emptyAttributes
  else if Z.of_nat (size attributes) >? maxAttributeCount then
    Err (Errorf "too many attributes" [Sentinel ErrAttributesTooLarge])
  else
    '(total, keys) ← encodeAttributes_scan (range attributes) 4 [];
    let keys := sort_Strings keys in
    let buf := replicate (Z.to_nat total) Byte.x00 in
    buf ← go_put 0 (put32 (uint32 (len keys))) buf;
    encodeAttributes_fill attributes keys 4 buf.

(** ** Decoding *)

Fixpoint decodeAttributes_loop (count : nat) (buf : bytes) (pos : Z)
    (attributes : attrs) : res (attrs * Z) :=
  match count with
  | O => Ok (attributes, pos)
  | S count =>
      if len buf - pos <? 6 then Err (Sentinel ErrUnexpectedEOF)
      else
        b ← go_from pos buf;
        keyLen ← Uint16 b;
        let pos := pos + 2 in
        b ← go_from pos buf;
        valueLen ← Uint32 b;
        let pos := pos + 4 in
        if (keyLen =? 0) || (keyLen >? len buf - pos) then
          Err (Errorf "invalid attribute name length" [])
        else
          key ← go_slice pos (pos + keyLen) buf;
          let pos := pos + keyLen in
          if valueLen >? len buf - pos then Err (Sentinel ErrUnexpectedEOF)
          else if bool_decide (is_Some (attributes !! key)) then
            Err (Errorf "duplicate attribute" [])
          else
            value ← go_slice pos (pos + valueLen) buf;
            decodeAttributes_loop count buf (pos + valueLen)
              (<[key := value]> attributes)
  end.

Definition decodeAttributes (buf : bytes) : res attrs :=
  if len buf <? 4 then Err (Errorf "attribute block is too short" [])
  else
    b ← go_slice 0 4 buf;
    count ← Uint32 b;
    if count >? maxAttributeCount then
      Err (Errorf "attribute count exceeds maximum" [])
    else
      '(attributes, pos) ← decodeAttributes_loop (Z.to_nat count) buf 4 ∅;
      if negb (pos =? len buf) then
        Err (Errorf "attribute block has trailing bytes" [])
      else Ok attributes.

(** ** The block as a specification: a count, then framed entries *)

Definition attr_entry (kv : bytes * bytes) : bytes :=
  put16 (len kv.1) ++ put32 (len kv.2) ++ kv.1 ++ kv.2.

Definition attr_block (kvs : list (bytes * bytes)) : bytes :=
  put32 (len kvs) ++ concat (attr_entry <$> kvs).

Definition attr_entries_size (kvs : list (bytes * bytes)) : Z :=
  foldr (λ kv n, 6 + len kv.1 + len kv.2 + n) 0 kvs.

(** What [encodeAttributes] accepts. *)
Definition attr_ok (kv : bytes * bytes) : Prop :=
  kv.1 ≠ [] ∧ len kv.1 ≤ 65535 ∧ len kv.2 ≤ 2 ^ 32 - 1.

Definition attrs_ok (m : attrs) : Prop :=
  Z.of_nat (size m) ≤ maxAttributeCount ∧
  (∀ k v, m !! k = Some v → attr_ok (k, v)) ∧
  4 + attr_entries_size (map_to_list m) ≤ maxAttributesSize.

(** The entries in the order they are written. *)
Definition sorted_entries (m : attrs) : list (bytes * bytes) :=
  (λ k, (k, default [] (m !! k))) <$> sort_Strings (map_to_list m).*1.

Definition encode_spec (m : attrs) : bytes := attr_block (sorted_entries m).

Lemma length_attr_entry kv : len (attr_entry kv) = 6 + len kv.1 + len kv.2.
Proof. unfold attr_entry. len_lia. Qed.

Lemma attr_entries_size_concat kvs :
  len (concat (attr_entry <$> kvs)) = attr_entries_size kvs.
Proof.
  induction kvs as [|kv kvs IH]; [done|]. csimpl.
  rewrite length_app. pose proof (length_attr_entry kv). lia.
Qed.

Lemma attr_entries_size_perm kvs kvs' :
  kvs ≡ₚ kvs' → attr_entries_size kvs = attr_entries_size kvs'.
Proof. induction 1; simpl; lia. Qed.

Lemma attr_entries_size_nonneg kvs : 0 ≤ attr_entries_size kvs.
Proof. induction kvs; simpl; lia. Qed.

Lemma sorted_entries_perm m : sorted_entries m ≡ₚ map_to_list m.
Proof.
  unfold sorted_entries. rewrite sort_Strings_perm, <- list_fmap_compose.
  apply reflexive_eq. rewrite <- (list_fmap_id (map_to_list m)) at 2.
  apply list_fmap_ext. intros i [k v] Hi%list_elem_of_lookup_2%elem_of_map_to_list.
  simpl. by rewrite Hi.
Qed.

Lemma sorted_entries_keys m : (sorted_entries m).*1 = sort_Strings (map_to_list m).*1.
Proof.
  unfold sorted_entries. rewrite <- list_fmap_compose. apply list_fmap_id.
Qed.

Lemma length_encode_spec m :
  len (encode_spec m) = 4 + attr_entries_size (map_to_list m).
Proof.
  unfold encode_spec, attr_block. rewrite length_app, length_put32.
  rewrite Nat2Z.inj_add, attr_entries_size_concat.
  by rewrite (attr_entries_size_perm _ _ (sorted_entries_perm m)).
Qed.

(** ** The encoder computes the specified block *)

Lemma scan_ok kvs total keys :
  Forall attr_ok kvs → total + attr_entries_size kvs ≤ maxAttributesSize →
  encodeAttributes_scan kvs total keys =
  Ok (total + attr_entries_size kvs, keys ++ kvs.*1).
Proof.
  revert total keys. induction kvs as [|[k v] kvs IH]; intros total keys Hok Hsz; simpl.
  { by rewrite Z.add_0_r, app_nil_r. }
  inversion Hok as [|?? (Hk & Hlk & Hlv) Hok']; simplify_eq/=.
  pose proof (attr_entries_size_nonneg kvs).
  rewrite bool_decide_eq_false_2 by done.
  zcase.
  rewrite IH by (done || lia). rewrite <- app_assoc. f_equal; f_equal. lia.
Qed.

Lemma scan_inv kvs total keys t ks :
  encodeAttributes_scan kvs total keys = Ok (t, ks) →
  Forall attr_ok kvs ∧ (kvs = [] ∨ total + attr_entries_size kvs ≤ maxAttributesSize).
Proof.
  revert total keys. induction kvs as [|[k v] kvs IH]; intros total keys; simpl; [auto|].
  case_bool_decide; [done|].
  do 3 (zcase_one; [done|]).
  intros [Hok Hsz]%IH. split.
  - constructor; [|done]. split; [done|]. simpl in *. lia.
  - right. destruct Hsz as [->|]; simpl; lia.
Qed.

Lemma scan_returns kvs total keys : returns (encodeAttributes_scan kvs total keys).
Proof.
  revert total keys. induction kvs as [|[k v] kvs IH]; intros; simpl; [done|].
  repeat case_match; simpl; auto.
Qed.

Lemma fill_ok m keys p r :
  Forall (λ k, attr_ok (k, default [] (m !! k))) keys →
  len r = attr_entries_size ((λ k, (k, default [] (m !! k))) <$> keys) →
  encodeAttributes_fill m keys (len p) (p ++ r) =
  Ok (p ++ concat (attr_entry <$> ((λ k, (k, default [] (m !! k))) <$> keys))).
Proof.
  revert p r. induction keys as [|k keys IH]; intros p r Hok Hr; csimpl in *.
  { destruct r; [by rewrite !app_nil_r | simpl in Hr; lia]. }
  inversion Hok as [|?? Hk Hok']; subst. clear Hok. destruct Hk as (_ & Hlk & Hlv).
  set (v := default [] (m !! k)) in *. simpl in *.
  pose proof (attr_entries_size_nonneg ((λ k, (k, default [] (m !! k))) <$> keys)).
  rewrite uint16_small, uint32_small by lia.
  unfold mbind at 1. rewrite go_put_fill by len_lia. simpl.
  rewrite go_put_fill by len_lia. simpl.
  rewrite go_copy_fill by len_lia. simpl.
  rewrite go_copy_fill by len_lia. simpl.
  match goal with |- encodeAttributes_fill _ _ ?n (?q ++ _) = _ =>
    replace n with (len q) by len_lia end.
  rewrite IH by (done || len_lia). f_equal.
  unfold attr_entry. csimpl. by rewrite <- !app_assoc.
Qed.

Lemma encodeAttributes_ok `{!MapRange} m :
  attrs_ok m → encodeAttributes m = Ok (encode_spec m).
Proof.
  intros (Hn & Hok & Hsz). unfold encodeAttributes.
  case_bool_decide as Hz.
  { apply map_size_empty_inv in Hz as ->. unfold encode_spec, sorted_entries.
    by rewrite map_to_list_empty. }
  zcase.
  rewrite (attr_entries_size_perm _ (range m)) in Hsz by (by rewrite range_perm).
  assert (Forall attr_ok (range m)) as Hall.
  { apply Forall_forall. intros [k v] Hkv%elem_of_range. auto. }
  rewrite scan_ok by done. simpl.
  rewrite (sort_Strings_proper _ (map_to_list m).*1) by (by rewrite range_perm).
  assert (attr_entries_size (range m) = attr_entries_size (sorted_entries m)) as Hse.
  { apply attr_entries_size_perm. by rewrite range_perm, sorted_entries_perm. }
  pose proof (attr_entries_size_nonneg (range m)).
  pose proof (go_put_fill 0 [] (put32 (uint32 (len (sort_Strings (map_to_list m).*1))))
    (replicate (Z.to_nat (4 + attr_entries_size (range m))) Byte.x00)) as Hput.
  rewrite !app_nil_l in Hput. rewrite Hput by len_lia. clear Hput. simpl.
  replace 4 with (len (put32 (uint32 (len (sort_Strings (map_to_list m).*1)))))
    at 1 by len_lia.
  rewrite fill_ok.
  - unfold encode_spec, attr_block, sorted_entries. rewrite length_fmap.
    rewrite uint32_small; [done|].
    rewrite sort_Strings_perm, length_fmap, length_map_to_list.
    unfold maxAttributeCount in *. lia.
  - apply Forall_forall. intros k Hk. rewrite sort_Strings_perm in Hk.
    apply list_elem_of_fmap in Hk as ([k' v] & -> & Hk%elem_of_map_to_list).
    simpl. rewrite Hk. auto.
  - unfold sorted_entries in Hse. rewrite <- Hse. len_lia.
Qed.

Lemma scan_attrs_ok `{!MapRange} m tks :
  size m ≠ 0%nat → Z.of_nat (size m) ≤ maxAttributeCount →
  encodeAttributes_scan (range m) 4 [] = Ok tks → attrs_ok m.
Proof.
  destruct tks as [t ks]. intros Hz Hn [Hall Hsz]%scan_inv.
  split; [lia|]. split.
  - intros k v Hkv. rewrite Forall_forall in Hall. by apply Hall, elem_of_range.
  - destruct Hsz as [Hnil|Hsz].
    + apply (f_equal length) in Hnil. by rewrite length_range in Hnil.
    + by rewrite (attr_entries_size_perm _ _ (range_perm m)) in Hsz.
Qed.

Lemma encodeAttributes_cases `{!MapRange} m :
  (attrs_ok m ∧ encodeAttributes m = Ok (encode_spec m)) ∨
  (∃ e, encodeAttributes m = Err e).
Proof.
  assert (attrs_ok m ∨ ∃ e, encodeAttributes m = Err e) as [|]; eauto using encodeAttributes_ok.
  unfold encodeAttributes. case_bool_decide as Hz.
  { left. apply map_size_empty_inv in Hz as ->. split; [by vm_compute|].
    split; [|by vm_compute]. intros ?? Hl. by rewrite lookup_empty in Hl. }
  zcase_one; [eauto|].
  pose proof (scan_returns (range m) 4 []) as Hret.
  destruct (encodeAttributes_scan (range m) 4 []) eqn:Hscan; try done; [|eauto].
  left. by eapply scan_attrs_ok.
Qed.

Lemma encodeAttributes_inv `{!MapRange} m b :
  encodeAttributes m = Ok b → attrs_ok m ∧ b = encode_spec m.
Proof.
  intros Henc. destruct (encodeAttributes_cases m) as [[? E]|[? E]]; rewrite E in Henc;
    by simplify_eq.
Qed.

(** The errors that refuse an argument wrap one of four sentinels. *)
Definition input_error (e : error) : Prop := ∀ t, errors_Is e t = true →
  t ∈ [ErrInvalidKey; ErrInvalidAttribute; ErrValueTooLarge; ErrAttributesTooLarge].

Lemma input_error_sentinel fmt t :
  t ∈ [ErrInvalidKey; ErrInvalidAttribute; ErrValueTooLarge; ErrAttributesTooLarge] →
  input_error (Errorf fmt [Sentinel t]).
Proof.
  intros Ht u. simpl. rewrite orb_false_r. by intros ->%bool_decide_eq_true_1.
Qed.

Ltac solve_input := by apply (bool_decide_unpack _).

Lemma scan_err kvs total keys e :
  encodeAttributes_scan kvs total keys = Err e → input_error e.
Proof.
  revert total keys. induction kvs as [|[k v] kvs IH]; intros total keys; simpl; [done|].
  case_bool_decide.
  { intros [= <-] t. simpl. intros <-%bool_decide_eq_true_1. solve_input. }
  repeat (case_match; [intros [= <-]; apply input_error_sentinel; solve_input|]). apply IH.
Qed.

Lemma encodeAttributes_err `{!MapRange} m e : encodeAttributes m = Err e → input_error e.
Proof.
  destruct (encodeAttributes_cases m) as [[_ ->]|_]; [done|].
  intros He. destruct (decide (Z.of_nat (size m) > maxAttributeCount)) as [Hbig|Hsmall].
  - unfold encodeAttributes in He. case_bool_decide as Hz; [zlia|].
    rewrite (proj2 (Z.gtb_lt _ _)) in He by lia. injection He as <-.
    apply input_error_sentinel. solve_input.
  - destruct (encodeAttributes_scan (range m) 4 []) as [tks|e'| |] eqn:Hscan.
    + destruct (decide (size m = 0%nat)) as [Hz|Hz].
      { unfold encodeAttributes in He. by rewrite bool_decide_true in He. }
      apply scan_attrs_ok, encodeAttributes_ok in Hscan; [congruence|done|lia].
    + unfold encodeAttributes in He. case_bool_decide; [done|].
      destruct (Z.gtb_spec (Z.of_nat (size m)) maxAttributeCount); [lia|].
      rewrite Hscan in He. injection He as <-. by eapply scan_err.
    + pose proof (scan_returns (range m) 4 []) as Hr. by rewrite Hscan in Hr.
    + pose proof (scan_returns (range m) 4 []) as Hr. by rewrite Hscan in Hr.
Qed.

(** ** The decoder accepts exactly the framed blocks *)

(** The loop consumes one framed entry. *)
Lemma decode_loop_step n p k v r acc :
  attr_ok (k, v) → acc !! k = None →
  decodeAttributes_loop (S n) (p ++ attr_entry (k, v) ++ r) (len p) acc =
  decodeAttributes_loop n ((p ++ attr_entry (k, v)) ++ r)
    (len (p ++ attr_entry (k, v))) (<[k := v]> acc).
Proof.
  intros (Hk & Hlk & Hlv) Hacc. simpl in *.
  assert (0 < len k) by (destruct k; [congruence | simpl; lia]).
  remember (p ++ attr_entry (k, v) ++ r) as buf eqn:Hbuf.
  assert (buf = p ++ put16 (len k) ++ put32 (len v) ++ k ++ v ++ r) as Hlay.
  { rewrite Hbuf. unfold attr_entry. simpl. by rewrite <- !app_assoc. }
  assert (len buf = len p + 6 + len k + len v + len r) as Hlen.
  { rewrite Hlay. len_lia. }
  zcase_one; [exfalso; lia|].
  rewrite (go_from_at (len p) _ p _ Hlay) by done. simpl.
  rewrite Uint16_put by lia. simpl.
  rewrite (go_from_at (len p + 2) _ (p ++ put16 (len k)) (put32 (len v) ++ k ++ v ++ r))
    by (rewrite ?Hlay, <- ?app_assoc; done || len_lia). simpl.
  rewrite Uint32_put by lia. simpl.
  zcase.
  rewrite (go_slice_at (len p + 2 + 4) _ _ (p ++ put16 (len k) ++ put32 (len v)) k (v ++ r))
    by (rewrite ?Hlay, <- ?app_assoc; done || len_lia). simpl.
  rewrite bool_decide_eq_false_2 by (rewrite Hacc; apply is_Some_None).
  rewrite (go_slice_at _ _ _ (p ++ put16 (len k) ++ put32 (len v) ++ k) v r)
    by (rewrite ?Hlay, <- ?app_assoc; done || len_lia). simpl.
  f_equal; [rewrite Hbuf; by rewrite <- !app_assoc|].
  rewrite length_app. pose proof (length_attr_entry (k, v)). simpl in *. lia.
Qed.

Lemma decode_loop_ok kvs p q acc :
  Forall attr_ok kvs → NoDup kvs.*1 → (∀ k, k ∈ kvs.*1 → acc !! k = None) →
  decodeAttributes_loop (length kvs) (p ++ concat (attr_entry <$> kvs) ++ q)
    (len p) acc =
  Ok (list_to_map kvs ∪ acc, len p + attr_entries_size kvs).
Proof.
  revert p acc. induction kvs as [|[k v] kvs IH]; intros p acc Hok HND Hacc.
  { simpl. rewrite (left_id_L ∅ (∪)). f_equal; f_equal. lia. }
  apply Forall_cons in Hok as [Hkv Hok]. rewrite !fmap_cons in *. cbn [length concat fst] in *.
  apply NoDup_cons in HND as [Hk HND]. rewrite <- app_assoc.
  rewrite decode_loop_step by (done || apply Hacc; set_solver).
  rewrite IH; [|done..|].
  - f_equal; f_equal.
    + rewrite <- insert_union_r; [by rewrite insert_union_l|].
      by apply not_elem_of_list_to_map.
    + pose proof (length_attr_entry (k, v)). simpl in *. len_lia.
  - intros k' Hk'. rewrite lookup_insert_ne by set_solver. apply Hacc. set_solver.
Qed.

(** What a successful pass of the loop has read. *)
Lemma decode_loop_step_inv n p r acc m pos' :
  decodeAttributes_loop (S n) (p ++ r) (len p) acc = Ok (m, pos') →
  ∃ k v r', r = attr_entry (k, v) ++ r' ∧ attr_ok (k, v) ∧ acc !! k = None.
Proof.
  simpl. zcase_one; [done|].
  rewrite (go_from_app (len p)) by done. simpl. rewrite length_app in *.
  rewrite Uint16_ok by lia. simpl.
  rewrite (go_from_app_ge (len p + 2)) by lia. simpl.
  rewrite Uint32_ok by (rewrite length_slice; lia). simpl.
  rewrite slice_slice by lia.
  replace (len p + 2 - len p + 0) with 2 by lia.
  replace (len p + 2 - len p + 4) with 6 by lia.
  pose proof (le_combine_slice_range 0 2 r) as Hk.
  pose proof (le_combine_slice_range 2 6 r) as Hv.
  remember (le_combine (slice 0 2 r)) as kl eqn:Ekl.
  remember (le_combine (slice 2 6 r)) as vl eqn:Evl.
  zcase_one; [destruct (kl =? 0); done|].
  destruct (Z.eqb_spec kl 0); [done|]. simpl.
  rewrite (go_slice_app (len p + 2 + 4)) by lia. simpl.
  zcase_one; [done|]. case_bool_decide as Hacc; [done|].
  intros _. exists (slice 6 (6 + kl) r), (slice (6 + kl) (6 + kl + vl) r),
    (slice (6 + kl + vl) (len r) r).
  split; [|split].
  - unfold attr_entry. simpl. rewrite !length_slice by lia.
    rewrite <- (slice_all 0 (len r) r) at 1 by lia.
    rewrite (slice_split 0 2) by lia. rewrite (slice_split 2 6) by lia.
    rewrite (slice_split 6 (6 + kl)) by lia.
    rewrite (slice_split (6 + kl) (6 + kl + vl)) by lia.
    rewrite <- !app_assoc. f_equal; [|f_equal].
    + rewrite <- (put16_get (slice 0 2 r)) at 1 by (rewrite length_slice; lia).
      f_equal. lia.
    + rewrite <- (put32_get (slice 2 6 r)) at 1 by (rewrite length_slice; lia).
      f_equal. lia.
  - unfold attr_ok. simpl. rewrite !length_slice by lia.
    split; [|lia]. intros Hnil%(f_equal length).
    rewrite length_slice in Hnil by lia. simpl in Hnil. lia.
  - replace (len p + 2 + 4 - len p) with 6 in Hacc by lia.
    replace (len p + 2 + 4 + kl - len p) with (6 + kl) in Hacc by lia.
    by rewrite <- eq_None_not_Some in Hacc.
Qed.

Lemma decode_loop_inv n p r acc m pos' :
  decodeAttributes_loop n (p ++ r) (len p) acc = Ok (m, pos') →
  ∃ kvs q, r = concat (attr_entry <$> kvs) ++ q ∧ length kvs = n ∧
    Forall attr_ok kvs ∧ NoDup kvs.*1 ∧ (∀ k, k ∈ kvs.*1 → acc !! k = None) ∧
    m = list_to_map kvs ∪ acc ∧ pos' = len p + attr_entries_size kvs.
Proof.
  revert p r acc. induction n as [|n IH]; intros p r acc Hrun.
  { simpl in Hrun. injection Hrun as <- <-. exists [], r. simpl.
    rewrite (left_id_L ∅ (∪)).
    repeat split; try constructor; try lia. intros k Hk. by apply not_elem_of_nil in Hk. }
  pose proof (decode_loop_step_inv _ _ _ _ _ _ Hrun) as (k & v & r' & -> & Hok & Hacc).
  rewrite decode_loop_step in Hrun by done.
  apply IH in Hrun as (kvs & q & -> & <- & Hoks & HND & Hfresh & -> & ->).
  assert (k ∉ kvs.*1) as Hk.
  { intros Hk%Hfresh. by rewrite lookup_insert_eq in Hk. }
  exists ((k, v) :: kvs), q. rewrite !fmap_cons. cbn [concat length list_to_map foldr].
  split; [by rewrite <- app_assoc|]. split; [done|]. split; [by constructor|].
  split; [by apply NoDup_cons|]. split; [|split].
  - intros k' [->|Hk']%elem_of_cons; [done|].
    pose proof (Hfresh _ Hk') as Hf. by apply lookup_insert_None in Hf as [? _].
  - rewrite <- insert_union_r; [by rewrite insert_union_l|].
    by apply not_elem_of_list_to_map.
  - rewrite length_app, Nat2Z.inj_add, length_attr_entry. simpl. lia.
Qed.

Lemma decode_block kvs :
  Forall attr_ok kvs → NoDup kvs.*1 → len kvs ≤ maxAttributeCount →
  decodeAttributes (attr_block kvs) = Ok (list_to_map kvs).
Proof.
  intros Hok HND Hn. unfold decodeAttributes, attr_block.
  set (body := concat (attr_entry <$> kvs)).
  assert (len body = attr_entries_size kvs) by apply attr_entries_size_concat.
  zcase_one; [exfalso; len_lia|].
  rewrite (go_slice_at 0 4 _ [] (put32 (len kvs)) body) by len_lia || done. simpl.
  rewrite <- (app_nil_r (put32 _)) at 1. rewrite Uint32_put by zlia. simpl.
  zcase_one; [lia|]. rewrite Nat2Z.id.
  pose proof (decode_loop_ok kvs (put32 (len kvs)) [] ∅ Hok HND) as Hloop.
  rewrite length_put32, app_nil_r in Hloop. change (Z.of_nat 4) with 4 in Hloop.
  fold body in Hloop. rewrite Hloop by (intros; apply lookup_empty). simpl.
  rewrite (right_id_L ∅ (∪)). zcase_one; [done|exfalso; len_lia].
Qed.

(** Decoding accepts exactly the blocks of framed, distinct, well-formed
    entries, and returns the map they list. *)
Lemma decodeAttributes_spec b m :
  decodeAttributes b = Ok m ↔
  ∃ kvs, b = attr_block kvs ∧ Forall attr_ok kvs ∧ NoDup kvs.*1 ∧
    len kvs ≤ maxAttributeCount ∧ m = list_to_map kvs.
Proof.
  split; [|intros (kvs & -> & ? & ? & ? & ->); by apply decode_block].
  unfold decodeAttributes. zcase_one; [done|].
  rewrite go_slice_ok by lia. simpl.
  rewrite Uint32_ok by (rewrite length_slice; lia). simpl.
  rewrite slice_slice, !Z.add_0_l by lia. simpl.
  pose proof (le_combine_slice_range 0 4 b ltac:(lia) ltac:(lia)) as Hc.
  remember (le_combine (slice 0 4 b)) as c eqn:Ec.
  zcase_one; [done|]. intros ([m' pos] & Hloop & Hrest)%bind_Ok.
  assert (b = put32 c ++ slice 4 (len b) b) as Hb.
  { rewrite <- (slice_all 0 (len b) b) at 1 by lia. rewrite (slice_split 0 4) by lia.
    f_equal. rewrite <- (put32_get (slice 0 4 b)) by (rewrite length_slice; lia). congruence. }
  rewrite Hb in Hloop. replace 4 with (len (put32 c)) in Hloop at 2 by len_lia.
  apply decode_loop_inv in Hloop as (kvs & q & Hr & Hn & Hok & HND & _ & -> & ->).
  simpl in Hrest. destruct (Z.eqb_spec (len (put32 c) + attr_entries_size kvs) (len b))
    as [Hpos|]; [|done].
  simpl in Hrest. injection Hrest as <-. exists kvs.
  assert (len kvs = c) as Hc' by lia.
  assert (q = []) as ->.
  { rewrite Hb, length_app, Hr, length_app in Hpos.
    pose proof (attr_entries_size_concat kvs). destruct q; [done|simpl in Hpos; lia]. }
  rewrite app_nil_r in Hr. rewrite (right_id_L ∅ (∪)).
  split; [|split_and!; auto; lia]. unfold attr_block. by rewrite Hc', <- Hr.
Qed.

(** ** Consequences used by the log and by compaction *)

Lemma sorted_entries_ok m : attrs_ok m →
  Forall attr_ok (sorted_entries m) ∧ NoDup (sorted_entries m).*1 ∧
  len (sorted_entries m) ≤ maxAttributeCount ∧ list_to_map (sorted_entries m) = m.
Proof.
  intros (Hn & Hok & _). split; [|split; [|split]].
  - apply Forall_forall. intros [k v] Hkv.
    rewrite sorted_entries_perm in Hkv. apply elem_of_map_to_list in Hkv. auto.
  - rewrite sorted_entries_perm. apply NoDup_fst_map_to_list.
  - by rewrite sorted_entries_perm, length_map_to_list.
  - rewrite <- (list_to_map_to_list m) at 2.
    apply list_to_map_proper; [|apply sorted_entries_perm].
    rewrite sorted_entries_perm. apply NoDup_fst_map_to_list.
Qed.

Lemma decode_encode_spec m : attrs_ok m → decodeAttributes (encode_spec m) = Ok m.
Proof.
  intros Hok. apply decodeAttributes_spec. exists (sorted_entries m).
  pose proof (sorted_entries_ok m Hok). naive_solver.
Qed.

(** A block that decodes can be encoded again, in the same number of bytes. *)
Lemma decodeAttributes_reencode b m :
  decodeAttributes b = Ok m → len b ≤ maxAttributesSize →
  attrs_ok m ∧ len (encode_spec m) = len b.
Proof.
  intros (kvs & -> & Hok & HND & Hn & ->)%decodeAttributes_spec Hb.
  assert (map_to_list (list_to_map kvs : attrs) ≡ₚ kvs) as Hperm
    by (by apply map_to_list_to_map).
  assert (len (attr_block kvs) = 4 + attr_entries_size kvs) as Hlen.
  { unfold attr_block. rewrite length_app, length_put32, Nat2Z.inj_add.
    by rewrite attr_entries_size_concat. }
  rewrite length_encode_spec, (attr_entries_size_perm _ _ Hperm).
  split; [|lia]. split; [|split].
  - rewrite <- length_map_to_list, Hperm. done.
  - intros k v Hkv%elem_of_list_to_map_2. rewrite Forall_forall in Hok. auto.
  - rewrite (attr_entries_size_perm _ _ Hperm). lia.
Qed.

Lemma attrs_ok_empty : attrs_ok ∅.
Proof.
  split; [by vm_compute|]. split; [|by vm_compute].
  intros ?? H. by rewrite lookup_empty in H.
Qed.

Lemma encode_spec_empty : encode_spec ∅ = emptyAttributes.
Proof. by vm_compute. Qed.

(** Neither direction can panic: the bounds checks cover every slice. *)
Lemma decode_loop_returns n buf pos acc :
  0 ≤ pos ≤ len buf → returns (decodeAttributes_loop n buf pos acc).
Proof.
  revert pos acc. induction n as [|n IH]; intros pos acc Hpos; simpl; [done|].
  zcase_one; [done|]. unfold go_from.
  rewrite (go_slice_ok pos) by lia. simpl. rewrite Uint16_ok by (rewrite length_slice; lia). simpl.
  rewrite (go_slice_ok (pos + 2)) by lia. simpl. rewrite Uint32_ok by (rewrite length_slice; lia). simpl.
  rewrite !slice_slice by lia.
  pose proof (le_combine_slice_range (pos + 0) (pos + 2) buf ltac:(lia) ltac:(lia)).
  pose proof (le_combine_slice_range (pos + 2 + 0) (pos + 2 + 4) buf ltac:(lia) ltac:(lia)).
  zcase_one; [by destruct (_ =? _)|].
  destruct (_ =? 0); [done|]. simpl. rewrite (go_slice_ok (pos + 2 + 4)) by lia. simpl.
  zcase_one; [done|]. case_bool_decide; [done|].
  rewrite go_slice_ok by lia. simpl. apply IH. lia.
Qed.

Lemma decodeAttributes_returns b : returns (decodeAttributes b).
Proof.
  unfold decodeAttributes. zcase_one; [done|]. rewrite go_slice_ok by lia. simpl.
  rewrite Uint32_ok by (rewrite length_slice; lia). simpl. zcase_one; [done|].
  apply returns_bind; [apply decode_loop_returns; lia|].
  intros [m pos] _. by case_match.
Qed.

Lemma encodeAttributes_returns `{!MapRange} m : returns (encodeAttributes m).
Proof. by destruct (encodeAttributes_cases m) as [[_ ->]|[? ->]]. Qed.

(** ** Sets of attributes within a budget *)

(** At most [n] entries of at most [b] encoded bytes together. *)
Definition attrs_within (n b : Z) (m : attrs) : Prop :=
  Z.of_nat (size m) ≤ n ∧ (∀ k v, m !! k = Some v → attr_ok (k, v)) ∧
  attr_entries_size (map_to_list m) ≤ b.

Lemma attrs_within_empty : attrs_within 0 0 ∅.
Proof. split; [done|]. split; [by intros|]. by rewrite map_to_list_empty. Qed.

Lemma attr_entries_size_delete (m : attrs) k :
  attr_entries_size (map_to_list (delete k m)) ≤ attr_entries_size (map_to_list m).
Proof.
  destruct (m !! k) as [v|] eqn:Hk; [|by rewrite delete_id].
  rewrite <- (attr_entries_size_perm _ _ (map_to_list_delete _ _ _ Hk)). simpl. lia.
Qed.

Lemma attrs_within_insert n b m k v :
  attrs_within n b m → attr_ok (k, v) →
  attrs_within (n + 1) (b + (6 + len k + len v)) (<[k := v]> m).
Proof.
  intros (Hn & Hok & Hb) Hkv. split; [|split].
  - rewrite map_size_insert. case_match; unfold id; lia.
  - intros k' v'. rewrite lookup_insert_Some. naive_solver.
  - rewrite <- insert_delete_eq.
    rewrite (attr_entries_size_perm _ _ (map_to_list_insert _ _ _ (lookup_delete_eq m k))).
    pose proof (attr_entries_size_delete m k). simpl. lia.
Qed.

Lemma attrs_within_ok n b m :
  attrs_within n b m → n ≤ maxAttributeCount → 4 + b ≤ maxAttributesSize → attrs_ok m.
Proof. intros (? & ? & ?) ? ?. split; [lia|]. split; [done|lia]. Qed.
