(* ===== verification/Reader.v ===== *)
(** * The buffered reader a log is scanned through

    [bufio.Reader] with [io.ReadFull], [io.CopyBuffer] over an
    [io.LimitReader], and [Discard].  A reader holds the bytes that are left
    and the error that follows them: [EOF] at the end of a file, or another
    error where a read failed.  [streaming] is the property that lets the scan
    tell a torn record from a damaged one, and it composes over [bind]. *)

From S2P Require Import Prelude Go.

Record reader := Reader { rdata : bytes; rtail : error }.

Definition eof_reader (d : bytes) : reader := Reader d (Sentinel EOF).

(** [errors.Is(err, io.EOF) || errors.Is(err, io.ErrUnexpectedEOF)] *)
Definition is_eof (e : error) : bool :=
  errors_Is e EOF || errors_Is e ErrUnexpectedEOF.

(** ** Operations *)

(** [io.ReadFull]: [EOF] when nothing could be read, [ErrUnexpectedEOF] when
    the data ends inside the buffer. *)
Definition io_ReadFull (n : Z) : M reader bytes := λ r,
  if n <=? len (rdata r) then
    (Ok (take (Z.to_nat n) (rdata r)),
     Reader (drop (Z.to_nat n) (rdata r)) (rtail r))
  else
    let e := match rdata r, rtail r with
             | _ :: _, Sentinel EOF => Sentinel ErrUnexpectedEOF
             | _, e => e
             end in
    (Err e, Reader [] (rtail r)).

(** [io.CopyBuffer(w, io.LimitReader(r, n), ...)]: what was copied to [w];
    reaching [EOF] early is not an error. *)
Definition io_CopyN (n : Z) : M reader bytes := λ r,
  if n <=? len (rdata r) then
    (Ok (take (Z.to_nat n) (rdata r)),
     Reader (drop (Z.to_nat n) (rdata r)) (rtail r))
  else
    match rtail r with
    | Sentinel EOF => (Ok (rdata r), Reader [] (rtail r))
    | e => (Err e, Reader [] (rtail r))
    end.

(** [r.Discard(n)] *)
Definition io_Discard (n : Z) : M reader unit := λ r,
  if n <=? len (rdata r) then
    (Ok tt, Reader (drop (Z.to_nat n) (rdata r)) (rtail r))
  else (Err (rtail r), Reader [] (rtail r)).

(** ** Reading what was written *)

Lemma io_ReadFull_app n a d t :
  n = len a → io_ReadFull n (Reader (a ++ d) t) = (Ok a, Reader d t).
Proof.
  intros ->. unfold io_ReadFull. simpl. zcase.
  by rewrite Nat2Z.id, take_app_length, drop_app_length.
Qed.

Lemma io_CopyN_app n a d t :
  n = len a → io_CopyN n (Reader (a ++ d) t) = (Ok a, Reader d t).
Proof.
  intros ->. unfold io_CopyN. simpl. zcase.
  by rewrite Nat2Z.id, take_app_length, drop_app_length.
Qed.

Lemma io_Discard_app n a d t :
  n = len a → io_Discard n (Reader (a ++ d) t) = (Ok tt, Reader d t).
Proof.
  intros ->. unfold io_Discard. simpl. zcase.
  by rewrite Nat2Z.id, drop_app_length.
Qed.

(** A read past the end of the data ends with the reader's error. *)
Lemma io_ReadFull_short n d t :
  len d < n → ∃ e, io_ReadFull n (Reader d t) = (Err e, Reader [] t) ∧ is_eof e = is_eof t.
Proof.
  intros Hn. unfold io_ReadFull. simpl. zcase. destruct d as [|b d]; [by eexists|].
  destruct t as [[]|]; by eexists.
Qed.

(** A successful read, inverted. *)
Lemma io_ReadFull_inv n r a r' :
  0 ≤ n → io_ReadFull n r = (Ok a, r') →
  len a = n ∧ rdata r = a ++ rdata r' ∧ rtail r' = rtail r.
Proof.
  unfold io_ReadFull. intros Hn. zcase_one; [|done]. intros [= <- <-]. simpl.
  rewrite take_drop. split_and!; [len_lia|done|done].
Qed.

Lemma io_CopyN_inv n r a r' :
  0 ≤ n → io_CopyN n r = (Ok a, r') → len a = n →
  rdata r = a ++ rdata r' ∧ rtail r' = rtail r.
Proof.
  unfold io_CopyN. intros Hn. zcase_one.
  { intros [= <- <-]. simpl. by rewrite take_drop. }
  destruct (rtail r) as [[]|]; try done. intros [= <- <-]. simpl. lia.
Qed.

Lemma io_Discard_inv n r r' :
  0 ≤ n → io_Discard n r = (Ok tt, r') →
  ∃ a, len a = n ∧ rdata r = a ++ rdata r' ∧ rtail r' = rtail r.
Proof.
  unfold io_Discard. intros Hn. zcase_one; [|done]. intros [= <-].
  exists (take (Z.to_nat n) (rdata r)). simpl. rewrite take_drop.
  split_and!; [len_lia|done|done].
Qed.

(** Reads neither panic nor kill the process. *)
Lemma wp_ReadFull n (Q : res bytes → reader → Prop) r :
  0 ≤ n → (∀ a r', len a = n → Q (Ok a) r') → (∀ e r', Q (Err e) r') →
  wp (io_ReadFull n) Q r.
Proof.
  intros Hn HOk HErr. unfold wp, io_ReadFull. zcase_one; simpl; [|auto].
  apply HOk. len_lia.
Qed.

Lemma wp_CopyN n (Q : res bytes → reader → Prop) r :
  (∀ a r', Q (Ok a) r') → (∀ e r', Q (Err e) r') → wp (io_CopyN n) Q r.
Proof.
  intros HOk HErr. unfold wp, io_CopyN. zcase_one; simpl; [auto|].
  destruct (rtail r) as [[]|]; simpl; auto.
Qed.

Lemma wp_Discard n (Q : res unit → reader → Prop) r :
  Q (Ok tt) (Reader (drop (Z.to_nat n) (rdata r)) (rtail r)) →
  (∀ e r', Q (Err e) r') → wp (io_Discard n) Q r.
Proof. intros HOk HErr. unfold wp, io_Discard. zcase_one; simpl; auto. Qed.

(** ** Streaming parsers

    On a prefix [d] of its input a streaming parser either gives the result
    it gives on the whole input, or fails with the error the input ended with:
    an end of file is reported as one, and a read error is not. *)

Definition streaming {A} (m : M reader A) : Prop := ∀ d x t t',
  match m (Reader d t) with
  | (Ok a, r) => ∃ d', r = Reader d' t ∧
                   m (Reader (d ++ x) t') = (Ok a, Reader (d' ++ x) t')
  | (Err e, _) => is_eof e = is_eof t ∨ (m (Reader (d ++ x) t')).1 = Err e
  | (Panic, _) => (m (Reader (d ++ x) t')).1 = Panic
  | (Crash, _) => (m (Reader (d ++ x) t')).1 = Crash
  end.

Lemma streaming_bind {A B} (m : M reader A) (f : A → M reader B) :
  streaming m → (∀ a, streaming (f a)) → streaming (m ≫= f).
Proof.
  intros Hm Hf d x t t'. specialize (Hm d x t t'). unfold mbind, M_bind.
  destruct (m (Reader d t)) as [[a|e| |] r].
  - destruct Hm as (d' & -> & ->). exact (Hf a d' x t t').
  - destruct Hm as [|Hm]; [by left|]. right.
    by destruct (m (Reader (d ++ x) t')) as [[]]; simplify_eq/=.
  - by destruct (m (Reader (d ++ x) t')) as [[]]; simplify_eq/=.
  - by destruct (m (Reader (d ++ x) t')) as [[]]; simplify_eq/=.
Qed.

Lemma streaming_lift {A} (r : res A) : streaming (lift r).
Proof. intros d x t t'. destruct r; simpl; eauto. Qed.

Lemma streaming_ret {A} (a : A) : streaming (mret a).
Proof. intros d x t t'. simpl. eauto. Qed.

Lemma streaming_throw {A} e : streaming (throw (A:=A) e).
Proof. intros d x t t'. simpl. auto. Qed.

Lemma streaming_ReadFull n : 0 ≤ n → streaming (io_ReadFull n).
Proof.
  intros Hn d x t t'. unfold io_ReadFull at 1. simpl. zcase_one.
  - exists (drop (Z.to_nat n) d). split; [done|]. unfold io_ReadFull. simpl.
    zcase. by rewrite take_app_le, drop_app_le by lia.
  - left. by destruct d, t as [[]|].
Qed.

Lemma streaming_Discard n : 0 ≤ n → streaming (io_Discard n).
Proof.
  intros Hn d x t t'. unfold io_Discard at 1. simpl. zcase_one; [|by left].
  exists (drop (Z.to_nat n) d). split; [done|]. unfold io_Discard. simpl.
  zcase. by rewrite drop_app_le by lia.
Qed.

(** [io.CopyBuffer] with the length check that follows it. *)
Lemma streaming_CopyN {A} n (k : bytes → M reader A) :
  0 ≤ n → (∀ c, streaming (k c)) →
  streaming (c ← io_CopyN n;
             if negb (len c =? n) then throw (Sentinel ErrUnexpectedEOF) else k c).
Proof.
  intros Hn Hk d x t t'. unfold mbind, M_bind. unfold io_CopyN at 1. simpl. zcase_one.
  - zcase_one; [|exfalso; len_lia]. simpl.
    specialize (Hk (take (Z.to_nat n) d) (drop (Z.to_nat n) d) x t t').
    assert (io_CopyN n (Reader (d ++ x) t') =
      (Ok (take (Z.to_nat n) d), Reader (drop (Z.to_nat n) d ++ x) t')) as ->.
    { unfold io_CopyN. simpl. zcase. by rewrite take_app_le, drop_app_le by lia. }
    simpl. zcase_one; [|exfalso; len_lia]. simpl. exact Hk.
  - destruct t as [[]|]; try by left.
    simpl. zcase_one; [exfalso; lia|]. simpl. by left.
Qed.

(** A streaming parser that consumes a whole message stops, on every strict
    prefix of it, with the error the prefix ends with. *)
Lemma streaming_torn {A} (m : M reader A) a d x t t' :
  streaming m → m (Reader (d ++ x) t') = (Ok a, Reader [] t') → x ≠ [] →
  ∃ e r, m (Reader d t) = (Err e, r) ∧ is_eof e = is_eof t.
Proof.
  intros Hs Hrun Hx. specialize (Hs d x t t').
  destruct (m (Reader d t)) as [[b|e| |] r].
  - destruct Hs as (d' & _ & Hs). rewrite Hrun in Hs.
    injection Hs as _ Hnil. symmetry in Hnil. apply app_eq_nil in Hnil. tauto.
  - rewrite Hrun in Hs. destruct Hs as [|]; [eauto|done].
  - by rewrite Hrun in Hs.
  - by rewrite Hrun in Hs.
Qed.

Create HintDb streaming discriminated.
#[export] Hint Resolve streaming_bind streaming_lift streaming_ret streaming_throw
  streaming_ReadFull streaming_Discard streaming_CopyN : streaming.
