(* ===== verification/Record.v ===== *)
(** * The version 4 and 5 record format

    log.go: the record [Append] lays out in its buffer, the extension-area
    walk [validateExtensions], the scanner's [readRecordFrom] and the
    point-read validation [validateStoredRecord]. *)

From S2P Require Import Prelude Go Crc32c Attributes Reader.

(** ** Constants *)

Definition maxKeySize : Z := Eval cbv in Z.shiftl 1 20.
Definition maxValueSize : Z := Eval cbv in Z.shiftl 1 31 - 1.
Definition maxExtensionsSize : Z := Eval cbv in Z.shiftl 16 20.
Definition recordFixedBodySize : Z := 16.
Definition recordMinimumLength : Z := Eval cbv in recordFixedBodySize + 4.
Definition recordFieldsOffset : Z := Eval cbv in 4 + recordFixedBodySize.
Definition extensionHeaderSize : Z := 6.
#[export] Hint Unfold maxKeySize maxValueSize maxExtensionsSize recordFixedBodySize
  recordMinimumLength recordFieldsOffset extensionHeaderSize : consts.

(** ** Data *)

Record recordBounds := {
  valueStart : Z; valueLen : Z;
  extensionsStart : Z; extensionsLen : Z
}.

Record logRecord := {
  rKey : bytes;
  rOffset : Z;
  rSize : Z;
  rRecordOffset : Z;
  rStoredSize : Z;
  rDeleted : bool;
  rAttributes : attrs
}.

(** [b[i]] for a byte slice. *)
Definition go_index (i : Z) (b : bytes) : res byte :=
  if 0 <=? i then match b !! Z.to_nat i with Some x => Ok x | None => Panic end
  else Panic.

(** ** Extensions *)

(** The loop of [validateExtensions]. Each pass moves [pos] by at least the
    header size, so [len extensions] passes are enough; running out of them
    is a [Panic], which is proved not to happen. *)
Fixpoint validateExtensions_loop (fuel : nat) (extensions : bytes) (pos : Z) : res unit :=
  match fuel with
  | O => Panic
  | S fuel =>
      if negb (pos <? len extensions) then Ok tt
      else if len extensions - pos <? extensionHeaderSize then
        Err (Errorf "extension entry is truncated" [])
      else
        b ← go_from (pos + 2) extensions;
        length ← Uint32 b;
        let pos := pos + extensionHeaderSize in
        if length >? len extensions - pos then
          Err (Errorf "extension entry claims too many bytes" [])
        else validateExtensions_loop fuel extensions (pos + length)
  end.

Definition validateExtensions (extensions : bytes) : res unit :=
  validateExtensions_loop (S (length extensions)) extensions 0.

(** ** Writing *)

(** What [Append] puts into its reusable buffer [buf], whose old contents are
    arbitrary. *)
Definition encodeRecord (buf key value : bytes) (deleted : bool)
    (attributesBytes extensions : bytes) : res bytes :=
  let recordLength := recordMinimumLength +
    (len key + len attributesBytes + len value + len extensions) in
  buf ← go_put 0 (put32 (uint32 recordLength)) buf;
  buf ← go_put 4 [Byte.x00] buf;
  buf ← (if deleted then go_put 4 [Byte.x01] buf else Ok buf);
  buf ← go_put 5 [Byte.x00; Byte.x00; Byte.x00] buf;
  buf ← go_put 8 (put32 (uint32 (len key))) buf;
  buf ← go_put 12 (put32 (uint32 (len attributesBytes))) buf;
  buf ← go_put 16 (put32 (uint32 (len value))) buf;
  let pos := 20 in
  buf ← go_copy pos key buf;
  let pos := pos + len key in
  buf ← go_copy pos attributesBytes buf;
  let pos := pos + len attributesBytes in
  buf ← go_copy pos value buf;
  let pos := pos + len value in
  buf ← go_copy pos extensions buf;
  let pos := pos + len extensions in
  body ← go_slice 4 pos buf;
  go_put pos (put32 (Checksum body)) buf.

(** ** Scanning *)

Definition readRecordFrom (startPos : Z) : M reader (logRecord * Z) :=
  fixed ← io_ReadFull 4;
  let pos := startPos + 4 in
  recordLength ← lift (Uint32 fixed);
  if recordLength <? recordMinimumLength then
    throw (Errorf "invalid record length" [])
  else
  fixed ← io_ReadFull recordFixedBodySize;
  let pos := pos + recordFixedBodySize in
  let hash := Update 0 fixed in
  flags ← lift (go_index 0 fixed);
  keyLen ← lift (go_slice 4 8 fixed ≫= Uint32);
  attributesLen ← lift (go_slice 8 12 fixed ≫= Uint32);
  valueLen ← lift (go_slice 12 16 fixed ≫= Uint32);
  if (keyLen >? maxKeySize) || (attributesLen >? maxAttributesSize) ||
     (valueLen >? maxValueSize) then
    throw (Errorf "record field exceeds configured limit" [])
  else
  let knownLength := recordMinimumLength + keyLen + attributesLen + valueLen in
  if knownLength >? recordLength then
    throw (Errorf "record length is smaller than its fields" [])
  else
  let extensionsLen := recordLength - knownLength in
  if extensionsLen >? maxExtensionsSize then
    throw (Errorf "extension area is too large" [])
  else
  keyBytes ← io_ReadFull keyLen;
  let hash := Update hash keyBytes in
  let pos := pos + keyLen in
  attributesBytes ← io_ReadFull attributesLen;
  let hash := Update hash attributesBytes in
  let pos := pos + attributesLen in
  let valueOffset := pos in
  copied ← io_CopyN valueLen;
  if negb (len copied =? valueLen) then throw (Sentinel ErrUnexpectedEOF) else
  let hash := Update hash copied in
  let pos := pos + valueLen in
  extensionBytes ← io_ReadFull extensionsLen;
  let hash := Update hash extensionBytes in
  let pos := pos + extensionsLen in
  fixed ← io_ReadFull 4;
  let pos := pos + 4 in
  wantChecksum ← lift (Uint32 fixed);
  if negb (hash =? wantChecksum) then throw (Errorf "checksum mismatch" []) else
  lift (validateExtensions extensionBytes);;
  attributes ← wrap "decode attributes" (lift (decodeAttributes attributesBytes));
  mret ({| rKey := keyBytes;
           rOffset := valueOffset;
           rSize := int32 valueLen;
           rRecordOffset := startPos;
           rStoredSize := recordLength + 4;
           rDeleted := Z.testbit (byte.unsigned flags) 0;
           rAttributes := attributes |}, pos).

(** ** Point reads *)

Definition checkStoredSize (storedSize : Z) : res unit :=
  if (storedSize <? 4 + recordMinimumLength) || (storedSize >? maxInt) then
    Err (Errorf "invalid stored record size" [Sentinel ErrCorruptedData])
  else Ok tt.

Definition validateStoredRecord (record : bytes) : res recordBounds :=
  recordLength ← go_slice 0 4 record ≫= Uint32;
  if negb (recordLength + 4 =? len record) then
    Err (Errorf "record length mismatch" [Sentinel ErrCorruptedData])
  else
  wantChecksum ← go_from (len record - 4) record ≫= Uint32;
  body ← go_slice 4 (len record - 4) record;
  let gotChecksum := Checksum body in
  if negb (gotChecksum =? wantChecksum) then
    Err (Errorf "checksum mismatch" [Sentinel ErrCorruptedData])
  else
  keyLen ← go_slice 8 12 record ≫= Uint32;
  attributesLen ← go_slice 12 16 record ≫= Uint32;
  valueLen ← go_slice 16 20 record ≫= Uint32;
  let known := recordMinimumLength + keyLen + attributesLen + valueLen in
  if known >? recordLength then
    Err (Errorf "invalid record field lengths" [Sentinel ErrCorruptedData])
  else
  let start := recordFieldsOffset + keyLen + attributesLen in
  Ok {| valueStart := start; valueLen := valueLen;
        extensionsStart := start + valueLen;
        extensionsLen := recordLength - known |}.

(** ** Stored records as a specification

    Any stored record has the shape [raw_record]: the flag byte and the three
    reserved bytes are not constrained, and every length field is the length
    of its area. *)

Record raw := Raw {
  raw_flags : byte;
  raw_reserved : bytes;
  raw_key : bytes;
  raw_attributes : bytes;
  raw_value : bytes;
  raw_extensions : bytes
}.

Definition raw_size (r : raw) : Z :=
  24 + len (raw_key r) + len (raw_attributes r) + len (raw_value r) +
  len (raw_extensions r).

Definition raw_fixed (r : raw) : bytes :=
  (raw_flags r :: raw_reserved r) ++ put32 (len (raw_key r)) ++
  put32 (len (raw_attributes r)) ++ put32 (len (raw_value r)).

Definition raw_body (r : raw) : bytes :=
  raw_fixed r ++ raw_key r ++ raw_attributes r ++ raw_value r ++ raw_extensions r.

Definition raw_record (r : raw) : bytes :=
  put32 (raw_size r - 4) ++ raw_body r ++ put32 (Checksum (raw_body r)).

(** Lengths that fit their fields, and three reserved bytes. *)
Definition raw_fits (r : raw) : Prop :=
  length (raw_reserved r) = 3%nat ∧ raw_size r - 4 < 2 ^ 32.

(** The limits the scanner enforces. *)
Definition raw_limits (r : raw) : Prop :=
  len (raw_key r) ≤ maxKeySize ∧ len (raw_attributes r) ≤ maxAttributesSize ∧
  len (raw_value r) ≤ maxValueSize ∧ len (raw_extensions r) ≤ maxExtensionsSize.

Lemma raw_limits_fit r :
  length (raw_reserved r) = 3%nat → raw_limits r → raw_fits r.
Proof. unfold raw_limits, raw_fits, raw_size. intros. split; zlia. Qed.

Lemma length_raw_fixed r : length (raw_reserved r) = 3%nat → length (raw_fixed r) = 16%nat.
Proof. intros H. unfold raw_fixed. simp_len. rewrite H. done. Qed.

Lemma length_raw_body r :
  length (raw_reserved r) = 3%nat → len (raw_body r) = raw_size r - 8.
Proof.
  intros H%length_raw_fixed. unfold raw_body, raw_size. simp_len. lia.
Qed.

Lemma length_raw_record r :
  length (raw_reserved r) = 3%nat → len (raw_record r) = raw_size r.
Proof.
  intros H%length_raw_body. unfold raw_record. simp_len. lia.
Qed.

Lemma raw_size_bound r : 24 ≤ raw_size r.
Proof. unfold raw_size. lia. Qed.

(** ** The writer produces the specified bytes, whatever the buffer held *)

Definition flag_byte (deleted : bool) : byte := if deleted then Byte.x01 else Byte.x00.

Definition written (deleted : bool) (key attributesBytes value extensions : bytes) : raw :=
  Raw (flag_byte deleted) [Byte.x00; Byte.x00; Byte.x00]
    key attributesBytes value extensions.

Lemma go_put_flag (p : bytes) (deleted : bool) (r : bytes) :
  len p = 4 → r ≠ [] →
  (buf ← go_put 4 [Byte.x00] (p ++ r);
   if deleted then go_put 4 [Byte.x01] buf else Ok buf) =
  Ok ((p ++ [flag_byte deleted]) ++ drop 1 r).
Proof.
  intros Hp Hr. destruct r as [|x r]; [done|].
  rewrite go_put_fill by (simpl; lia). simpl.
  destruct deleted; [|done].
  rewrite <- app_assoc. simpl. by rewrite go_put_fill by (simpl; lia).
Qed.

Lemma encodeRecord_ok buf key value deleted ab ext :
  let r := written deleted key ab value ext in
  raw_fits r → len buf = raw_size r →
  encodeRecord buf key value deleted ab ext = Ok (raw_record r).
Proof.
  intros r [_ Hfit] Hbuf. unfold raw_size in *. simpl in *.
  unfold encodeRecord. rewrite !uint32_small by zlia.
  pose proof (go_put_fill 0 [] (put32 (recordMinimumLength +
    (len key + len ab + len value + len ext))) buf) as H0.
  rewrite !app_nil_l in H0. rewrite H0 by len_lia. clear H0. cbn [mbind res_bind].
  match goal with |- context [go_put 4 [Byte.x00] (?p ++ ?d)] =>
    pose proof (go_put_flag p deleted d) as Hf end.
  rewrite (go_put_fill 4) by len_lia. cbn [mbind res_bind].
  rewrite (go_put_fill 4) in Hf by len_lia. cbn [mbind res_bind] in Hf.
  rewrite Hf; [|len_lia|intros Hn%(f_equal length); len_lia]. clear Hf.
  cbn [mbind res_bind].
  rewrite (go_put_fill 5) by len_lia. cbn [mbind res_bind].
  rewrite (go_put_fill 8) by len_lia. cbn [mbind res_bind].
  rewrite (go_put_fill 12) by len_lia. cbn [mbind res_bind].
  rewrite (go_put_fill 16) by len_lia. cbn [mbind res_bind].
  rewrite (go_copy_fill 20) by len_lia. cbn [mbind res_bind].
  rewrite (go_copy_fill (20 + len key)) by len_lia. cbn [mbind res_bind].
  rewrite (go_copy_fill (20 + len key + len ab)) by len_lia. cbn [mbind res_bind].
  rewrite (go_copy_fill (20 + len key + len ab + len value)) by len_lia.
  cbn [mbind res_bind].
  match goal with |- context [go_slice 4 ?hi ?b] =>
    assert (go_slice 4 hi b = Ok (raw_body r)) as ->
  end.
  { eapply (go_slice_at _ _ _ (put32 (raw_size r - 4))).
    - unfold raw_body, raw_fixed, raw_size, recordMinimumLength. simpl.
      rewrite <- ?app_assoc. simpl.
      f_equal. f_equal. lia.
    - len_lia.
    - rewrite length_raw_body by done. unfold raw_size. simpl. len_lia. }
  cbn [mbind res_bind].
  rewrite go_put_fill by len_lia. f_equal.
  unfold raw_record, raw_body at 1, raw_fixed, raw_size. simpl.
  rewrite drop_ge by len_lia. rewrite app_nil_r, <- !app_assoc. simpl.
  f_equal. f_equal. unfold recordMinimumLength. lia.
Qed.

(** ** The scanner accepts exactly the well-formed stored records *)

(** The length fields of the fixed part. *)
Lemma fixed_fields fl rsv kl al vl :
  length rsv = 3%nat → 0 ≤ kl < 2 ^ 32 → 0 ≤ al < 2 ^ 32 → 0 ≤ vl < 2 ^ 32 →
  let f := (fl :: rsv) ++ put32 kl ++ put32 al ++ put32 vl in
  go_index 0 f = Ok fl ∧
  (go_slice 4 8 f ≫= Uint32) = Ok kl ∧
  (go_slice 8 12 f ≫= Uint32) = Ok al ∧
  (go_slice 12 16 f ≫= Uint32) = Ok vl.
Proof.
  intros Hr Hk Ha Hv f. split; [done|].
  rewrite (go_slice_at 4 8 f (fl :: rsv) (put32 kl) (put32 al ++ put32 vl))
    by (done || (simpl; len_lia)).
  rewrite (go_slice_at 8 12 f ((fl :: rsv) ++ put32 kl) (put32 al) (put32 vl))
    by ((unfold f; by rewrite <- app_assoc) || (simpl; len_lia)).
  rewrite (go_slice_at 12 16 f ((fl :: rsv) ++ put32 kl ++ put32 al) (put32 vl) [])
    by ((unfold f; by rewrite app_nil_r, <- !app_assoc) || (simpl; len_lia)).
  simpl. pose proof (Uint32_put kl [] Hk) as E1. pose proof (Uint32_put al [] Ha) as E2.
  pose proof (Uint32_put vl [] Hv) as E3. rewrite !app_nil_r in *. done.
Qed.

Lemma Uint32_put_only z : 0 ≤ z < 2 ^ 32 → Uint32 (put32 z) = Ok z.
Proof. intros. pose proof (Uint32_put z [] ltac:(done)) as E. by rewrite app_nil_r in E. Qed.

(** The record the scanner reports for a stored record at [pos]. *)
Definition scanned (pos : Z) (r : raw) (m : attrs) : logRecord :=
  {| rKey := raw_key r;
     rOffset := pos + 20 + len (raw_key r) + len (raw_attributes r);
     rSize := len (raw_value r);
     rRecordOffset := pos;
     rStoredSize := raw_size r;
     rDeleted := Z.testbit (byte.unsigned (raw_flags r)) 0;
     rAttributes := m |}.

Definition raw_valid (r : raw) (m : attrs) : Prop :=
  length (raw_reserved r) = 3%nat ∧ raw_limits r ∧
  validateExtensions (raw_extensions r) = Ok tt ∧
  decodeAttributes (raw_attributes r) = Ok m.


Lemma raw_hash r :
  Update (Update (Update (Update (Update 0 (raw_fixed r)) (raw_key r))
    (raw_attributes r)) (raw_value r)) (raw_extensions r) = Checksum (raw_body r).
Proof. rewrite (Checksum_Update (raw_body r)). unfold raw_body. by rewrite !Update_app. Qed.

(** The length a record has without extensions. *)
Definition raw_known (r : raw) : Z :=
  recordMinimumLength + len (raw_key r) + len (raw_attributes r) + len (raw_value r).

(** What is left to do behind the value, for a record length [L]. *)
Definition read_rest (startPos : Z) (r : raw) (L : Z) : M reader (logRecord * Z) :=
  extensionBytes ← io_ReadFull (L - raw_known r);
  fixed ← io_ReadFull 4;
  wantChecksum ← lift (Uint32 fixed);
  if negb (Update (Update (Update (Update (Update 0 (raw_fixed r)) (raw_key r))
       (raw_attributes r)) (raw_value r)) extensionBytes =? wantChecksum)
  then throw (Errorf "checksum mismatch" []) else
  lift (validateExtensions extensionBytes);;
  attributes ← wrap "decode attributes" (lift (decodeAttributes (raw_attributes r)));
  mret ({| rKey := raw_key r;
           rOffset := startPos + 4 + recordFixedBodySize + len (raw_key r) + len (raw_attributes r);
           rSize := int32 (len (raw_value r));
           rRecordOffset := startPos;
           rStoredSize := L + 4;
           rDeleted := Z.testbit (byte.unsigned (raw_flags r)) 0;
           rAttributes := attributes |},
        startPos + 4 + recordFixedBodySize + len (raw_key r) + len (raw_attributes r) +
        len (raw_value r) + (L - raw_known r) + 4).

(** The scanner up to the end of the value: the length field is taken at its
    word as long as it leaves room for the fields and not too much more. *)
Lemma readRecordFrom_fields pos r L rest t :
  length (raw_reserved r) = 3%nat → len (raw_key r) ≤ maxKeySize →
  len (raw_attributes r) ≤ maxAttributesSize → len (raw_value r) ≤ maxValueSize →
  raw_known r ≤ L ≤ raw_known r + maxExtensionsSize →
  readRecordFrom pos (Reader (put32 L ++ raw_fixed r ++ raw_key r ++ raw_attributes r ++
    raw_value r ++ rest) t) = read_rest pos r L (Reader rest t).
Proof.
  intros Hrsv Hk Ha Hv HL. unfold raw_known in HL. unfold readRecordFrom.
  rewrite (M_bind_run _ _ _ _ _ (io_ReadFull_app 4 (put32 L) _ _ ltac:(len_lia))).
  run_lift (Uint32_put_only L ltac:(zlia)).
  zcase_one; [exfalso; zlia|].
  pose proof (length_raw_fixed r Hrsv).
  rewrite (M_bind_run _ _ _ _ _ (io_ReadFull_app recordFixedBodySize (raw_fixed r) _ _ ltac:(zlia))).
  destruct (fixed_fields (raw_flags r) (raw_reserved r) (len (raw_key r))
    (len (raw_attributes r)) (len (raw_value r))) as (E1 & E2 & E3 & E4); [done|zlia..|].
  fold (raw_fixed r) in E1, E2, E3, E4.
  run_lift E1. run_lift E2. run_lift E3. run_lift E4. zcase.
  rewrite (M_bind_run _ _ _ _ _ (io_ReadFull_app _ (raw_key r) _ _ eq_refl)).
  rewrite (M_bind_run _ _ _ _ _ (io_ReadFull_app _ (raw_attributes r) _ _ eq_refl)).
  rewrite (M_bind_run _ _ _ _ _ (io_CopyN_app _ (raw_value r) _ _ eq_refl)).
  rewrite Z.eqb_refl. done.
Qed.

(** A whole record: everything but the attribute block checks out. *)
Lemma read_rest_record pos r d t :
  length (raw_reserved r) = 3%nat → raw_limits r → validateExtensions (raw_extensions r) = Ok tt →
  readRecordFrom pos (Reader (raw_record r ++ d) t) =
  (attributes ← wrap "decode attributes" (lift (decodeAttributes (raw_attributes r)));
   mret (scanned pos r attributes, pos + raw_size r)) (Reader d t).
Proof.
  intros Hrsv (Hk & Ha & Hv & He) Hext. unfold raw_record, raw_body at 1. rewrite <- !app_assoc.
  assert (raw_known r ≤ raw_size r - 4 ≤ raw_known r + maxExtensionsSize) as HL
    by (unfold raw_size, raw_known; zlia).
  rewrite (readRecordFrom_fields pos r (raw_size r - 4)) by assumption. unfold read_rest.
  assert (raw_size r - 4 - raw_known r = len (raw_extensions r)) as ->
    by (unfold raw_size, raw_known; zlia).
  rewrite (M_bind_run _ _ _ _ _ (io_ReadFull_app _ (raw_extensions r) _ _ eq_refl)).
  rewrite (M_bind_run _ _ _ _ _ (io_ReadFull_app 4 (put32 (Checksum _)) _ _ ltac:(len_lia))).
  rewrite raw_hash. run_lift (Uint32_put_only _ (Checksum_range (raw_body r))).
  rewrite Z.eqb_refl. cbn [negb]. run_lift Hext.
  unfold mbind, M_bind. destruct (wrap _ _ _) as [[m| | |] rd]; try done.
  unfold scanned, raw_size. rewrite int32_small by zlia.
  unfold mret, M_ret. match goal with |- (Ok (?a, ?p), _) = (Ok (?b, ?q), _) =>
    assert (a = b) as -> by (f_equal; zlia); by replace p with q by zlia end.
Qed.

Lemma readRecordFrom_ok pos r m d t :
  raw_valid r m →
  readRecordFrom pos (Reader (raw_record r ++ d) t) =
  (Ok (scanned pos r m, pos + raw_size r), Reader d t).
Proof.
  intros (Hrsv & Hlim & Hext & Hdec). rewrite read_rest_record by done.
  by rewrite (M_bind_wrap_lift _ _ _ _ _ Hdec).
Qed.

(** The checksum matches and the attribute block does not decode. *)
Lemma readRecordFrom_bad_block pos r e d t :
  length (raw_reserved r) = 3%nat → raw_limits r → validateExtensions (raw_extensions r) = Ok tt →
  decodeAttributes (raw_attributes r) = Err e →
  readRecordFrom pos (Reader (raw_record r ++ d) t) =
  (Err (Errorf "decode attributes" [e]), Reader d t).
Proof.
  intros Hrsv Hlim Hext Hdec. rewrite read_rest_record by done.
  unfold wrap, lift, mbind, M_bind. by rewrite Hdec.
Qed.

(** The length field promises more than the input has. *)
Lemma readRecordFrom_overrun pos r L rest t :
  length (raw_reserved r) = 3%nat → len (raw_key r) ≤ maxKeySize →
  len (raw_attributes r) ≤ maxAttributesSize → len (raw_value r) ≤ maxValueSize →
  raw_known r ≤ L ≤ raw_known r + maxExtensionsSize → len rest < L - raw_known r + 4 →
  ∃ e rd, readRecordFrom pos (Reader (put32 L ++ raw_fixed r ++ raw_key r ++ raw_attributes r ++
    raw_value r ++ rest) t) = (Err e, rd) ∧ is_eof e = is_eof t.
Proof.
  intros Hrsv Hk Ha Hv HL Hrest. rewrite readRecordFrom_fields by done. unfold read_rest.
  destruct (decide (L - raw_known r ≤ len rest)) as [Hle|Hgt].
  - assert (∃ ext z, rest = ext ++ z ∧ len ext = L - raw_known r) as (ext & z & -> & Hext).
    { exists (take (Z.to_nat (L - raw_known r)) rest), (drop (Z.to_nat (L - raw_known r)) rest).
      rewrite take_drop. split; [done|]. rewrite length_take. lia. }
    rewrite (M_bind_run _ _ _ _ _ (io_ReadFull_app _ ext _ _ (eq_sym Hext))).
    rewrite length_app in Hrest.
    destruct (io_ReadFull_short 4 z t) as (e & Hrun & He); [lia|].
    unfold mbind at 1, M_bind at 1. rewrite Hrun. eauto.
  - destruct (io_ReadFull_short (L - raw_known r) rest t) as (e & Hrun & He); [lia|].
    unfold mbind at 1, M_bind at 1. rewrite Hrun. eauto.
Qed.

(** A length field below the minimum. *)
Lemma readRecordFrom_short_length pos L d t :
  0 ≤ L < recordMinimumLength →
  readRecordFrom pos (Reader (put32 L ++ d) t) =
  (Err (Errorf "invalid record length" []), Reader d t).
Proof.
  intros HL. unfold readRecordFrom.
  rewrite (M_bind_run _ _ _ _ _ (io_ReadFull_app 4 (put32 L) _ _ ltac:(len_lia))).
  run_lift (Uint32_put_only L ltac:(zlia)). by zcase.
Qed.

(** The sixteen fixed bytes, from their fields. *)
Lemma fixed_layout f fl kl al vl :
  len f = 16 → go_index 0 f = Ok fl →
  (go_slice 4 8 f ≫= Uint32) = Ok kl →
  (go_slice 8 12 f ≫= Uint32) = Ok al →
  (go_slice 12 16 f ≫= Uint32) = Ok vl →
  f = (fl :: slice 1 4 f) ++ put32 kl ++ put32 al ++ put32 vl.
Proof.
  intros Hf H0 (_ & _ & _ & <-)%slice_Uint32_inv (_ & _ & _ & <-)%slice_Uint32_inv
    (_ & _ & _ & <-)%slice_Uint32_inv; try lia.
  destruct f as [|x f]; [done|]. unfold go_index in H0. simpl in H0. injection H0 as ->.
  rewrite <- (slice_all 0 16 (fl :: f)) at 1 by (simpl in *; lia).
  rewrite (slice_split 0 1), (slice_split 1 4), (slice_split 4 8), (slice_split 8 12) by lia.
  done.
Qed.

Lemma readRecordFrom_inv pos rd rec pos' rd' :
  readRecordFrom pos rd = (Ok (rec, pos'), rd') →
  ∃ r m d, rdata rd = raw_record r ++ d ∧ raw_valid r m.
Proof.
  unfold readRecordFrom. intros Hrun.
  apply M_bind_inv in Hrun as (lenb & rd1 & (Hl1 & Hd1 & _)%io_ReadFull_inv & Hrun); [|lia].
  apply lift_bind_inv in Hrun as (L & [_ HL]%Uint32_inv & Hrun).
  destruct (Z.ltb_spec L recordMinimumLength) as [|Hmin]; [done|].
  apply M_bind_inv in Hrun as (f & rd2 & (Hl2 & Hd2 & _)%io_ReadFull_inv & Hrun); [|zlia].
  apply lift_bind_inv in Hrun as (fl & Efl & Hrun).
  apply lift_bind_inv in Hrun as (kl & Ekl & Hrun).
  apply lift_bind_inv in Hrun as (al & Eal & Hrun).
  apply lift_bind_inv in Hrun as (vl & Evl & Hrun).
  pose proof (fixed_layout f fl kl al vl ltac:(zlia) Efl Ekl Eal Evl) as Hf.
  apply slice_Uint32_inv in Ekl as (_ & _ & Hkl & _); [|lia].
  apply slice_Uint32_inv in Eal as (_ & _ & Hal & _); [|lia].
  apply slice_Uint32_inv in Evl as (_ & _ & Hvl & _); [|lia].
  destruct (Z.gtb_spec kl maxKeySize) as [|Hlk]; [done|].
  destruct (Z.gtb_spec al maxAttributesSize) as [|Hla]; [done|].
  destruct (Z.gtb_spec vl maxValueSize) as [|Hlv]; [done|]. cbn [orb] in Hrun.
  destruct (Z.gtb_spec (recordMinimumLength + kl + al + vl) L) as [|Hknown]; [done|].
  set (xl := L - (recordMinimumLength + kl + al + vl)) in *.
  destruct (Z.gtb_spec xl maxExtensionsSize) as [|Hlx]; [done|].
  apply M_bind_inv in Hrun as (key & rd3 & (Hl3 & Hd3 & _)%io_ReadFull_inv & Hrun); [|lia].
  apply M_bind_inv in Hrun as (ab & rd4 & (Hl4 & Hd4 & _)%io_ReadFull_inv & Hrun); [|lia].
  apply M_bind_inv in Hrun as (v & rd5 & Hcopy & Hrun).
  destruct (Z.eqb_spec (len v) vl) as [Hl5|]; [|done]. cbn [negb] in Hrun.
  apply io_CopyN_inv in Hcopy as [Hd5 _]; [|lia..].
  apply M_bind_inv in Hrun as (ext & rd6 & (Hl6 & Hd6 & _)%io_ReadFull_inv & Hrun); [|lia].
  apply M_bind_inv in Hrun as (crcb & rd7 & (Hl7 & Hd7 & _)%io_ReadFull_inv & Hrun); [|lia].
  apply lift_bind_inv in Hrun as (crc & [_ Hcrc]%Uint32_inv & Hrun).
  rewrite slice_all in HL, Hcrc by lia.
  set (r := Raw fl (slice 1 4 f) key ab v ext).
  assert (f = raw_fixed r) as Hfr.
  { rewrite Hf at 1. unfold raw_fixed, r. simpl. by rewrite Hl3, Hl4, Hl5. }
  rewrite Hfr in Hrun. change key with (raw_key r) in Hrun.
  change ab with (raw_attributes r) in Hrun at 1. change v with (raw_value r) in Hrun.
  change ext with (raw_extensions r) in Hrun at 1. rewrite (raw_hash r) in Hrun.
  destruct (Z.eqb_spec (Checksum (raw_body r)) crc) as [Hck|]; [|done]. cbn [negb] in Hrun.
  apply lift_bind_inv in Hrun as ([] & Hext & Hrun).
  apply M_bind_inv in Hrun as (m & rd8 & Hdec & _).
  exists r, m, (rdata rd7).
  assert (raw_size r = L + 4) as HsL.
  { unfold raw_size, r. simpl. unfold xl in *. zlia. }
  split.
  - rewrite Hd1, Hd2, Hd3, Hd4, Hd5, Hd6, Hd7. unfold raw_record.
    rewrite HsL, Hck, Hcrc, (put32_get crcb) by lia.
    replace (L + 4 - 4) with L by lia. rewrite HL, (put32_get lenb) by lia.
    unfold raw_body. rewrite <- Hfr. simpl. by rewrite <- !app_assoc.
  - repeat split; simpl; try zlia.
    + rewrite length_slice by zlia. done.
    + done.
    + unfold wrap, lift in Hdec. simpl in Hdec.
      destruct (decodeAttributes ab); naive_solver.
Qed.

(** The scanner's contract: success is exactly a well-formed stored record at
    the front of the data, and the result is determined by it. *)
Lemma readRecordFrom_spec pos d t rec pos' rd' :
  readRecordFrom pos (Reader d t) = (Ok (rec, pos'), rd') ↔
  ∃ r m d', d = raw_record r ++ d' ∧ raw_valid r m ∧
    rec = scanned pos r m ∧ pos' = pos + raw_size r ∧ rd' = Reader d' t.
Proof.
  split.
  - intros Hrun. destruct (readRecordFrom_inv _ _ _ _ _ Hrun) as (r & m & d' & Hd & Hv).
    simpl in Hd. subst d. rewrite (readRecordFrom_ok _ _ m) in Hrun by done.
    simplify_eq. eauto 10.
  - intros (r & m & d' & -> & Hv & -> & -> & ->). by apply readRecordFrom_ok.
Qed.

(** ** Torn records *)

Lemma streaming_readRecordFrom pos : streaming (readRecordFrom pos).
Proof.
  unfold readRecordFrom.
  apply streaming_bind; [apply streaming_ReadFull; lia|]. intros f.
  apply streaming_bind; [apply streaming_lift|]. intros L.
  case_match; [apply streaming_throw|].
  apply streaming_bind; [apply streaming_ReadFull; zlia|]. intros f2.
  apply streaming_bind; [apply streaming_lift|]. intros fl.
  intros d x. unfold mbind at 1 2 3, M_bind, lift.
  destruct (go_slice 4 8 f2 ≫= Uint32) as [kl| | |] eqn:Ek; [|simpl; auto..].
  destruct (go_slice 8 12 f2 ≫= Uint32) as [al| | |] eqn:Ea; [|simpl; auto..].
  destruct (go_slice 12 16 f2 ≫= Uint32) as [vl| | |] eqn:Ev; [|simpl; auto..].
  apply slice_Uint32_inv in Ek as (_ & _ & ? & _), Ea as (_ & _ & ? & _),
    Ev as (_ & _ & ? & _); [|lia..].
  revert d x.
  enough (streaming (if (kl >? maxKeySize) || (al >? maxAttributesSize) || (vl >? maxValueSize)
    then throw (Errorf "record field exceeds configured limit" []) else _)) as Hs by exact Hs.
  case_match; [apply streaming_throw|].
  zcase_one; [apply streaming_throw|]. case_match; [apply streaming_throw|].
  apply streaming_bind; [apply streaming_ReadFull; lia|]. intros key.
  apply streaming_bind; [apply streaming_ReadFull; lia|]. intros ab.
  apply streaming_CopyN; [lia|]. intros v.
  apply streaming_bind; [apply streaming_ReadFull; lia|]. intros ext.
  apply streaming_bind; [apply streaming_ReadFull; lia|]. intros crc.
  apply streaming_bind; [apply streaming_lift|]. intros want.
  case_match; [apply streaming_throw|].
  apply streaming_bind; [apply streaming_lift|]. intros [].
  apply streaming_bind; [|intros; apply streaming_ret].
  unfold wrap, lift. intros d x. destruct (decodeAttributes ab); simpl; eauto.
Qed.

(** A record of which only a strict prefix reached the file. *)
Lemma readRecordFrom_torn pos r m d x t :
  raw_valid r m → raw_record r = d ++ x → x ≠ [] →
  ∃ e rd, readRecordFrom pos (Reader d t) = (Err e, rd) ∧ is_eof e = is_eof t.
Proof.
  intros Hv Hd. apply (streaming_torn _ (scanned pos r m, pos + raw_size r) d x t t).
  - apply streaming_readRecordFrom.
  - rewrite <- Hd, <- (app_nil_r (raw_record r)). by apply readRecordFrom_ok.
Qed.

(** ** Point reads accept what the scanner accepted *)

Lemma validateStoredRecord_ok r :
  raw_fits r →
  validateStoredRecord (raw_record r) =
  Ok {| valueStart := 20 + len (raw_key r) + len (raw_attributes r);
        valueLen := len (raw_value r);
        extensionsStart := 20 + len (raw_key r) + len (raw_attributes r) + len (raw_value r);
        extensionsLen := len (raw_extensions r) |}.
Proof.
  intros [Hrsv Hfit]. pose proof (length_raw_record r Hrsv) as Hlen.
  pose proof (length_raw_body r Hrsv) as Hbody.
  pose proof (raw_size_bound r). unfold validateStoredRecord.
  rewrite (go_slice_at 0 4 _ [] (put32 (raw_size r - 4)) (raw_body r ++ put32 (Checksum (raw_body r))))
    by (done || len_lia).
  cbn [mbind res_bind]. rewrite Uint32_put_only by lia. cbn [mbind res_bind].
  rewrite Hlen. zcase_one; [|exfalso; lia]. cbn [negb].
  rewrite (go_from_at (raw_size r - 4) _ (put32 (raw_size r - 4) ++ raw_body r)
    (put32 (Checksum (raw_body r)))) by ((unfold raw_record; by rewrite <- app_assoc) || len_lia).
  cbn [mbind res_bind]. rewrite Uint32_put_only by apply Checksum_range. cbn [mbind res_bind].
  rewrite (go_slice_at 4 (raw_size r - 4) _ (put32 (raw_size r - 4)) (raw_body r)
    (put32 (Checksum (raw_body r)))) by (done || len_lia).
  cbn [mbind res_bind]. rewrite Z.eqb_refl. cbn [negb].
  set (tl := raw_key r ++ raw_attributes r ++ raw_value r ++ raw_extensions r ++
    put32 (Checksum (raw_body r))).
  set (pre := put32 (raw_size r - 4) ++ raw_flags r :: raw_reserved r).
  assert (raw_record r = pre ++ put32 (len (raw_key r)) ++ put32 (len (raw_attributes r)) ++
    put32 (len (raw_value r)) ++ tl) as Hlay.
  { unfold raw_record, raw_body at 1, raw_fixed, tl, pre. simpl. by rewrite <- !app_assoc. }
  assert (len pre = 8) as Hpre by (unfold pre; simp_len; simpl; lia).
  clearbody pre tl. unfold raw_size in *.
  rewrite (go_slice_at 8 12 _ _ _ _ Hlay) by len_lia.
  rewrite (go_slice_at 12 16 _ (pre ++ put32 (len (raw_key r))) (put32 (len (raw_attributes r)))
    (put32 (len (raw_value r)) ++ tl))
    by ((rewrite Hlay; by rewrite <- !app_assoc) || len_lia).
  rewrite (go_slice_at 16 20 _ (pre ++ put32 (len (raw_key r)) ++ put32 (len (raw_attributes r)))
    (put32 (len (raw_value r))) tl)
    by ((rewrite Hlay; by rewrite <- !app_assoc) || len_lia).
  cbn [mbind res_bind]. rewrite !Uint32_put_only by lia. cbn [mbind res_bind].
  zcase_one; [exfalso; zlia|]. f_equal. f_equal; zlia.
Qed.

(** The areas a point read cuts out of a stored record. *)
Lemma raw_value_at r :
  length (raw_reserved r) = 3%nat →
  slice (20 + len (raw_key r) + len (raw_attributes r))
    (20 + len (raw_key r) + len (raw_attributes r) + len (raw_value r)) (raw_record r) =
  raw_value r.
Proof.
  intros Hrsv%length_raw_fixed. unfold raw_record, raw_body at 1.
  rewrite <- !app_assoc, (app_assoc (raw_key r)), (app_assoc (raw_fixed r)), (app_assoc (put32 _)).
  apply slice_mid; len_lia.
Qed.

Lemma raw_extensions_at r :
  length (raw_reserved r) = 3%nat →
  slice (20 + len (raw_key r) + len (raw_attributes r) + len (raw_value r))
    (20 + len (raw_key r) + len (raw_attributes r) + len (raw_value r) +
     len (raw_extensions r)) (raw_record r) =
  raw_extensions r.
Proof.
  intros Hrsv%length_raw_fixed. unfold raw_record, raw_body at 1.
  rewrite <- !app_assoc, (app_assoc (raw_attributes r)), (app_assoc (raw_key r)),
    (app_assoc (raw_fixed r)), (app_assoc (put32 _)).
  apply slice_mid; len_lia.
Qed.

(** A stored record that validates has the specified shape. *)
Lemma validateStoredRecord_inv b bounds :
  24 ≤ len b → validateStoredRecord b = Ok bounds → ∃ r, raw_fits r ∧ b = raw_record r.
Proof.
  intros Hb Hrun. unfold validateStoredRecord in Hrun.
  apply bind_Ok in Hrun as (L & (_ & _ & HL & EL)%slice_Uint32_inv & Hrun); [|lia].
  destruct (Z.eqb_spec (L + 4) (len b)) as [HLb|]; [|done]. cbn [negb] in Hrun.
  apply bind_Ok in Hrun as (want & (_ & _ & Hw & Ew)%slice_Uint32_inv & Hrun); [|lia].
  apply bind_Ok in Hrun as (body & (_ & _ & ->)%go_slice_inv & Hrun).
  destruct (Z.eqb_spec (Checksum (slice 4 (len b - 4) b)) want) as [Hck|]; [|done].
  cbn [negb] in Hrun.
  apply bind_Ok in Hrun as (kl & (_ & _ & Hk & Ek)%slice_Uint32_inv & Hrun); [|lia].
  apply bind_Ok in Hrun as (al & (_ & _ & Ha & Ea)%slice_Uint32_inv & Hrun); [|lia].
  apply bind_Ok in Hrun as (vl & (_ & _ & Hv & Ev)%slice_Uint32_inv & Hrun); [|lia].
  destruct (Z.gtb_spec (recordMinimumLength + kl + al + vl) L) as [|Hknown]; [done|].
  clear Hrun. unfold recordMinimumLength in Hknown.
  destruct b as [|b0 b1] eqn:Eb; [simpl in Hb; lia|]. rewrite <- Eb in *.
  set (e1 := 20 + kl). set (e2 := e1 + al). set (e3 := e2 + vl). set (e4 := len b - 4).
  exists (Raw (default Byte.x00 (b !! 4%nat)) (slice 5 8 b) (slice 20 e1 b) (slice e1 e2 b)
    (slice e2 e3 b) (slice e3 e4 b)).
  set (r := Raw _ _ _ _ _ _).
  assert (length (raw_reserved r) = 3%nat) as Hrsv by (simpl; rewrite length_slice; lia).
  assert (raw_size r = len b) as Hsize.
  { unfold raw_size. simpl. rewrite !length_slice by lia. lia. }
  split; [split; [done|lia]|].
  assert (raw_body r = slice 4 e4 b) as Hbody.
  { unfold raw_body, raw_fixed. simpl. rewrite !length_slice by lia.
    replace (Z.of_nat (Z.to_nat (e1 - 20))) with kl by lia.
    replace (Z.of_nat (Z.to_nat (e2 - e1))) with al by lia.
    replace (Z.of_nat (Z.to_nat (e3 - e2))) with vl by lia.
    rewrite <- Ek, <- Ea, <- Ev.
    rewrite (slice_split 4 5 e4), (slice_split 5 8 e4), (slice_split 8 12 e4),
      (slice_split 12 16 e4), (slice_split 16 20 e4), (slice_split 20 e1 e4),
      (slice_split e1 e2 e4), (slice_split e2 e3 e4) by lia.
    assert (slice 4 5 b = [default Byte.x00 (b !! 4%nat)]) as ->.
    { unfold slice. change (Z.to_nat (5 - 4)) with 1%nat. change (Z.to_nat 4) with 4%nat.
      destruct (lookup_lt_is_Some_2 b 4) as [x Hx]; [lia|].
      rewrite Hx. rewrite (drop_S _ _ _ Hx). done. }
    simpl. by rewrite <- !app_assoc. }
  fold e4 in Hck, Ew. unfold raw_record. rewrite Hbody, Hck, Hsize, <- Ew.
  replace (len b - 4) with L by lia. rewrite <- EL.
  rewrite <- (slice_all 0 (len b) b) at 1 by lia.
  by rewrite (slice_split 0 4), (slice_split 4 e4 (len b)) by lia.
Qed.

(** ** The extension area: a sequence of tagged, length-prefixed entries *)

Inductive ext_framed : bytes → Prop :=
| ext_none : ext_framed []
| ext_entry tag payload rest :
    length tag = 2%nat → len payload < 2 ^ 32 → ext_framed rest →
    ext_framed (tag ++ put32 (len payload) ++ payload ++ rest).

Lemma ext_framed_rest tag payload rest :
  length tag = 2%nat → len payload < 2 ^ 32 →
  ext_framed (tag ++ put32 (len payload) ++ payload ++ rest) → ext_framed rest.
Proof.
  intros Ht Hp Hfr. inversion Hfr as [Hnil|tag' payload' rest' Ht' Hp' Hfr' Heq].
  { apply (f_equal length) in Hnil. len_lia. }
  apply app_inj_1 in Heq as [-> Heq]; [|congruence].
  apply app_inj_1 in Heq as [Hpl Heq]; [|len_lia].
  apply (f_equal le_combine) in Hpl. rewrite !get_put32 in Hpl by lia.
  apply app_inj_1 in Heq as [-> ->]; [done|lia].
Qed.

Lemma ext_loop_step fuel p tag payload rest :
  length tag = 2%nat → len payload < 2 ^ 32 →
  validateExtensions_loop (S fuel)
    (p ++ tag ++ put32 (len payload) ++ payload ++ rest) (len p) =
  validateExtensions_loop fuel
    ((p ++ tag ++ put32 (len payload) ++ payload) ++ rest)
    (len (p ++ tag ++ put32 (len payload) ++ payload)).
Proof.
  intros Ht Hp. cbn [validateExtensions_loop].
  zcase_one; [|exfalso; len_lia]. zcase_one; [exfalso; len_lia|]. cbn [negb].
  rewrite (go_from_at _ _ (p ++ tag) (put32 (len payload) ++ payload ++ rest))
    by ((by rewrite <- app_assoc) || len_lia). cbn [mbind res_bind].
  rewrite Uint32_put by lia. cbn [mbind res_bind]. zcase_one; [exfalso; len_lia|].
  f_equal; [by rewrite <- !app_assoc | len_lia].
Qed.

Lemma ext_loop_spec fuel p r :
  (length r < fuel)%nat →
  returns (validateExtensions_loop fuel (p ++ r) (len p)) ∧
  (validateExtensions_loop fuel (p ++ r) (len p) = Ok tt ↔ ext_framed r).
Proof.
  revert p r. induction fuel as [|fuel IH]; intros p r Hfuel; [lia|].
  destruct (decide (r = [])) as [->|Hr].
  { simpl. zcase_one; [exfalso; len_lia|]. split; [done|]. split; [constructor|done]. }
  assert (0 < len r) by (destruct r; [done|simpl; lia]).
  destruct (decide (len r < 6)) as [Hshort|Hlong].
  { simpl. zcase_one; [|exfalso; len_lia]. zcase_one; [|exfalso; len_lia]. simpl.
    split; [done|]. split; [done|]. intros Hfr. inversion Hfr; subst; len_lia. }
  set (l := le_combine (slice 2 6 r)).
  pose proof (le_combine_slice_range 2 6 r ltac:(lia) ltac:(lia)) as Hl. fold l in Hl.
  assert (r = slice 0 2 r ++ put32 l ++ slice 6 (len r) r) as Hr'.
  { unfold l. rewrite put32_get by (rewrite length_slice; lia).
    rewrite <- (slice_split 2 6 (len r)), <- slice_split, slice_all by lia. done. }
  destruct (decide (l ≤ len r - 6)) as [Hfit|Hbig].
  - assert (r = slice 0 2 r ++ put32 (len (slice 6 (6 + l) r)) ++ slice 6 (6 + l) r ++
      slice (6 + l) (len r) r) as Hr2.
    { rewrite <- (slice_split 6 (6 + l) (len r)) by lia. rewrite length_slice by lia.
      rewrite Hr' at 1. do 3 f_equal. lia. }
    assert (length (slice 0 2 r) = 2%nat) by (rewrite length_slice; lia).
    assert (len (slice 6 (6 + l) r) = l) as Hll by (rewrite length_slice; lia).
    assert (len (slice (6 + l) (len r) r) = len r - 6 - l) as Hrest
      by (rewrite length_slice; lia).
    remember (slice 0 2 r) as tag. remember (slice 6 (6 + l) r) as payload.
    remember (slice (6 + l) (len r) r) as rest. rewrite Hr2.
    rewrite ext_loop_step by lia.
    destruct (IH (p ++ tag ++ put32 (len payload) ++ payload) rest ltac:(lia)) as [Hret Hiff].
    split; [done|]. rewrite Hiff. split; [intros; constructor; (done || lia)|].
    apply ext_framed_rest; lia.
  - cbn [validateExtensions_loop]. zcase_one; [|exfalso; len_lia].
    zcase_one; [exfalso; len_lia|]. cbn [negb].
    rewrite (go_from_at _ _ (p ++ slice 0 2 r) (put32 l ++ slice 6 (len r) r))
      by ((rewrite <- app_assoc; by rewrite <- Hr') || (rewrite length_app, length_slice; lia)).
    cbn [mbind res_bind]. rewrite Uint32_put by lia. cbn [mbind res_bind].
    zcase_one; [|exfalso; len_lia]. split; [done|]. split; [done|].
    intros Hfr. inversion Hfr as [Hnil|tag' payload' rest' Ht' Hp' Hfr' Heq].
    { subst. done. }
    assert (l = len payload') as Hl'.
    { unfold l. rewrite <- Heq, slice_app_r by lia.
      rewrite slice_app_l, slice_all by len_lia. apply get_put32. lia. }
    apply (f_equal length) in Heq. len_lia.
Qed.

Lemma validateExtensions_spec e : validateExtensions e = Ok tt ↔ ext_framed e.
Proof. apply (ext_loop_spec _ [] e). lia. Qed.

Lemma ext_loop_err fuel e pos err :
  validateExtensions_loop fuel e pos = Err err → input_error err.
Proof.
  revert pos. induction fuel as [|fuel IH]; intros pos; simpl; [done|].
  repeat (case_match; [done || by intros [= <-]|]).
  unfold go_from, go_slice, Uint32. case_match; [|done]. simpl. case_match; [|done]. simpl.
  case_match; [by intros [= <-]|]. apply IH.
Qed.

Lemma validateExtensions_returns e : returns (validateExtensions e).
Proof. apply (ext_loop_spec _ [] e). lia. Qed.

(** ** Scanning never panics *)

Lemma slice_Uint32_ok lo hi b :
  0 ≤ lo → hi = lo + 4 → hi ≤ len b →
  ∃ z, (go_slice lo hi b ≫= Uint32) = Ok z ∧ 0 ≤ z < 2 ^ 32.
Proof.
  intros ? -> ?. rewrite go_slice_ok by lia. cbn [mbind res_bind].
  rewrite Uint32_ok by (rewrite length_slice; lia).
  eexists. split; [done|]. apply le_combine_slice_range; [lia|].
  rewrite length_slice; lia.
Qed.

Lemma readRecordFrom_returns pos rd : returns (readRecordFrom pos rd).1.
Proof.
  change (wp (readRecordFrom pos) (λ r _, returns r) rd). unfold readRecordFrom.
  apply wp_bind, wp_ReadFull; [lia| |done]. intros f rd1 Hf.
  rewrite Uint32_ok by lia. apply wp_bind. unfold wp at 1. cbn [lift fst snd].
  case_match; [done|].
  apply wp_bind, wp_ReadFull; [zlia| |done]. intros g rd2 Hg. unfold recordFixedBodySize in Hg.
  destruct g as [|fl g]; [simpl in Hg; lia|].
  apply wp_bind. unfold wp at 1. cbn [lift fst snd go_index].
  destruct (slice_Uint32_ok 4 8 (fl :: g)) as (kl & -> & ?); [lia..|].
  destruct (slice_Uint32_ok 8 12 (fl :: g)) as (al & -> & ?); [lia..|].
  destruct (slice_Uint32_ok 12 16 (fl :: g)) as (vl & -> & ?); [lia..|].
  do 3 (apply wp_bind; unfold wp at 1; cbn [lift fst snd]).
  case_match; [done|]. zcase_one; [done|]. case_match; [done|].
  apply wp_bind, wp_ReadFull; [lia| |done]. intros key rd3 Hkey.
  apply wp_bind, wp_ReadFull; [lia| |done]. intros ab rd4 Hab.
  apply wp_bind, wp_CopyN; [|done]. intros v rd5. case_match; [done|].
  apply wp_bind, wp_ReadFull; [lia| |done]. intros ext rd6 Hext.
  apply wp_bind, wp_ReadFull; [lia| |done]. intros crc rd7 Hcrc.
  rewrite Uint32_ok by lia. apply wp_bind. unfold wp at 1. cbn [lift fst snd].
  case_match; [done|]. apply wp_bind. unfold wp at 1. cbn [lift fst snd].
  pose proof (validateExtensions_returns ext) as Hx.
  destruct (validateExtensions ext) as [[]| | |]; try done.
  apply wp_bind, wp_wrap. unfold wp at 1. cbn [lift fst snd].
  pose proof (decodeAttributes_returns ab) as Hd.
  by destruct (decodeAttributes ab).
Qed.

(** A stored record of checked size never panics on validation. *)
Lemma validateStoredRecord_returns b : 24 ≤ len b → returns (validateStoredRecord b).
Proof.
  intros Hb. unfold validateStoredRecord.
  destruct (slice_Uint32_ok 0 4 b) as (L & -> & ?); [lia..|]. cbn [mbind res_bind].
  case_match; [done|]. unfold go_from.
  destruct (slice_Uint32_ok (len b - 4) (len b) b) as (w & -> & ?); [lia..|]. cbn [mbind res_bind].
  rewrite (go_slice_ok 4) by lia. cbn [mbind res_bind]. case_match; [done|].
  destruct (slice_Uint32_ok 8 12 b) as (kl & -> & ?); [lia..|]. cbn [mbind res_bind].
  destruct (slice_Uint32_ok 12 16 b) as (al & -> & ?); [lia..|]. cbn [mbind res_bind].
  destruct (slice_Uint32_ok 16 20 b) as (vl & -> & ?); [lia..|]. cbn [mbind res_bind].
  by case_match.
Qed.

(** ** Damage

    Changing one byte of the checksummed part of a record is always noticed. *)
Lemma raw_record_one_byte r p x y q :
  raw_fits r → raw_body r = p ++ x :: q → x ≠ y →
  validateStoredRecord (put32 (raw_size r - 4) ++ (p ++ y :: q) ++
    put32 (Checksum (raw_body r))) =
  Err (Errorf "checksum mismatch" [Sentinel ErrCorruptedData]).
Proof.
  intros [Hrsv Hfit] Hbody Hxy. pose proof (length_raw_body r Hrsv) as Hlen.
  pose proof (raw_size_bound r).
  assert (len (p ++ y :: q) = raw_size r - 8) as Hlen2.
  { rewrite <- Hlen, Hbody. len_lia. }
  remember (p ++ y :: q) as body. remember (Checksum (raw_body r)) as ck.
  unfold validateStoredRecord.
  rewrite (go_slice_at 0 4 _ [] (put32 (raw_size r - 4)) (body ++ put32 ck))
    by (done || len_lia).
  cbn [mbind res_bind]. rewrite Uint32_put_only by lia. cbn [mbind res_bind].
  zcase_one; [|exfalso; len_lia]. cbn [negb].
  rewrite (go_from_at _ _ (put32 (raw_size r - 4) ++ body) (put32 ck))
    by ((by rewrite <- app_assoc) || len_lia).
  cbn [mbind res_bind]. rewrite Uint32_put_only by (subst ck; apply Checksum_range).
  cbn [mbind res_bind].
  rewrite (go_slice_at 4 _ _ (put32 (raw_size r - 4)) body (put32 ck)) by (done || len_lia).
  cbn [mbind res_bind].
  destruct (Z.eqb_spec (Checksum body) ck) as [Heq|]; [|done]. exfalso.
  subst. rewrite Hbody in Heq.
  by apply Checksum_one_byte in Heq.
Qed.
