(* ===== verification/Index.v ===== *)
(** * The in-memory index

    index.go: the primary map from key to entry, the secondary indexes over
    the attributes named at [Open], and the cached list of keys in disk order.
    The invariant [idx_inv] ties the secondary indexes and the cached order to
    the primary map; every operation keeps it. *)

From S2P Require Import Prelude Go Attributes.

(** ** Data *)

Record indexEntry := {
  Offset : Z;
  Size : Z;
  RecordOffset : Z;
  StoredSize : Z;
  Attributes : attrs
}.

Record index := {
  entries : gmap bytes indexEntry;
  indexedFields : gset bytes;
  byAttribute : gmap bytes (gmap bytes (gset bytes));
  sortedKeys : list bytes;
  sortedDirty : bool
}.

Definition set_entries e idx :=
  {| entries := e; indexedFields := indexedFields idx; byAttribute := byAttribute idx;
     sortedKeys := sortedKeys idx; sortedDirty := sortedDirty idx |}.
Definition set_byAttribute b idx :=
  {| entries := entries idx; indexedFields := indexedFields idx; byAttribute := b;
     sortedKeys := sortedKeys idx; sortedDirty := sortedDirty idx |}.
Definition set_sorted ks d idx :=
  {| entries := entries idx; indexedFields := indexedFields idx;
     byAttribute := byAttribute idx; sortedKeys := ks; sortedDirty := d |}.

Section index.
Context `{!MapRange}.

(** [for k := range s] over a [map[string]struct{}]. *)
Definition range_set (s : gset bytes) : list bytes := (range (gset_to_gmap tt s)).*1.

Definition cloneAttributes (attributes : attrs) : attrs :=
  if bool_decide (size attributes = 0%nat) then ∅
  else foldl (λ copy kv, <[kv.1 := kv.2]> copy) ∅ (range attributes).

Definition newIndex (fields : list bytes) : index :=
  let '(fs, secondary) :=
    foldl (λ acc field,
      if bool_decide (field = []) then acc
      else ({[field]} ∪ acc.1, <[field := ∅]> acc.2))
      (∅, ∅) fields in
  {| entries := ∅; indexedFields := fs; byAttribute := secondary;
     sortedKeys := []; sortedDirty := false |}.

(** One pass of the loop of [addToSecondary]: the entry of [values] for
    [value] gains [key].  [newIndex] made [values] for every indexed field. *)
Definition add_value (key value : bytes) (values : gmap bytes (gset bytes)) :=
  <[value := {[key]} ∪ default ∅ (values !! value)]> values.

Definition addToSecondary (key : bytes) (entry : indexEntry) (idx : index) : index :=
  set_byAttribute
    (foldl (λ by_attr field,
       match Attributes entry !! field with
       | None => by_attr
       | Some value => alter (add_value key value) field by_attr
       end) (byAttribute idx) (range_set (indexedFields idx))) idx.

Definition remove_value (key value : bytes) (values : gmap bytes (gset bytes)) :=
  match values !! value with
  | None => values
  | Some keySet =>
      let keySet := keySet ∖ {[key]} in
      if bool_decide (size keySet = 0%nat) then delete value values
      else <[value := keySet]> values
  end.

Definition removeFromSecondary (key : bytes) (entry : indexEntry) (idx : index) : index :=
  set_byAttribute
    (foldl (λ by_attr field,
       match Attributes entry !! field with
       | None => by_attr
       | Some value => alter (remove_value key value) field by_attr
       end) (byAttribute idx) (range_set (indexedFields idx))) idx.

(** ** Operations *)

Definition idx_Put (key : bytes) (entry : indexEntry) (idx : index) : index :=
  let idx := match entries idx !! key with
             | Some existing => removeFromSecondary key existing idx
             | None => idx
             end in
  let entry := {| Offset := Offset entry; Size := Size entry;
                  RecordOffset := RecordOffset entry; StoredSize := StoredSize entry;
                  Attributes := cloneAttributes (Attributes entry) |} in
  let idx := set_entries (<[key := entry]> (entries idx)) idx in
  let idx := addToSecondary key entry idx in
  set_sorted (sortedKeys idx) true idx.

Definition idx_Get (key : bytes) (idx : index) : option indexEntry := entries idx !! key.

Definition idx_Delete (key : bytes) (idx : index) : index :=
  match entries idx !! key with
  | None => idx
  | Some entry =>
      let idx := removeFromSecondary key entry idx in
      let idx := set_sorted (sortedKeys idx) true idx in
      set_entries (delete key (entries idx)) idx
  end.

Definition idx_Len (idx : index) : Z := Z.of_nat (size (entries idx)).

Definition idx_Keys (idx : index) : list bytes := (range (entries idx)).*1.

Definition offset_le (a b : bytes * Z) : Prop := a.2 ≤ b.2.

#[export] Instance offset_le_dec a b : Decision (offset_le a b).
Proof. unfold offset_le. apply _. Defined.

(** [sort.Slice] by record offset; the offsets of a log are distinct. *)
Definition sort_by_offset (pairs : list (bytes * Z)) : list (bytes * Z) :=
  merge_sort offset_le pairs.

Definition KeysSortedByOffset (idx : index) : list bytes * index :=
  if negb (sortedDirty idx) && (len (sortedKeys idx) =? Z.of_nat (size (entries idx)))
  then (sortedKeys idx, idx)
  else
    let pairs := (λ ke, (ke.1, RecordOffset ke.2)) <$> range (entries idx) in
    let ks := (sort_by_offset pairs).*1 in
    (ks, set_sorted ks false idx).

(** [ForEach]: copies first, then the callback until it fails. *)
Fixpoint forEach_pairs {S A} (fn : bytes → A → M S unit) (pairs : list (bytes * A)) : M S unit :=
  match pairs with
  | [] => mret tt
  | (k, a) :: pairs => fn k a;; forEach_pairs fn pairs
  end.

Definition idx_ForEach {S} (idx : index) (fn : bytes → indexEntry → M S unit) : M S unit :=
  let copy_entry e :=
    {| Offset := Offset e; Size := Size e; RecordOffset := RecordOffset e;
       StoredSize := StoredSize e; Attributes := cloneAttributes (Attributes e) |} in
  forEach_pairs fn (prod_map id copy_entry <$> range (entries idx)).

Definition idx_KeysBy (field value : bytes) (idx : index) : list bytes :=
  match byAttribute idx !! field with
  | None => []
  | Some values => range_set (default ∅ (values !! value))
  end.

Definition idx_AttributeValues (field : bytes) (idx : index) : list bytes :=
  sort_Strings (range (default ∅ (byAttribute idx !! field))).*1.

Definition idx_TotalSize (idx : index) : Z :=
  foldl (λ total ke, int64 (total + StoredSize ke.2)) 0 (range (entries idx)).

Definition idx_MemoryUsage (idx : index) : Z :=
  let total := foldl (λ total ke,
      let total := int64 (total + (len ke.1 + 96)) in
      foldl (λ total kv, int64 (total + (len kv.1 + len kv.2 + 32))) total
        (range (Attributes ke.2))) 0 (range (entries idx)) in
  foldl (λ total fv,
      foldl (λ total vk, int64 (total + (len vk.1 + Z.of_nat (size vk.2) * 50))) total
        (range fv.2)) total (range (byAttribute idx)).
End index.

(** ** The invariant *)

(** The keys whose entry has [value] for attribute [field]. *)
Definition has_attr (es : gmap bytes indexEntry) (field value key : bytes) : Prop :=
  ∃ e, es !! key = Some e ∧ Attributes e !! field = Some value.

(** One secondary index: no empty key set is kept, and the key set of a value
    is exactly the keys that have it. *)
Definition values_inv (es : gmap bytes indexEntry) (field : bytes)
    (values : gmap bytes (gset bytes)) : Prop :=
  (∀ v ks, values !! v = Some ks → ks ≠ ∅) ∧
  (∀ v k, k ∈ (default ∅ (values !! v) : gset bytes) ↔ has_attr es field v k).

(** [ks] lists the keys of [es] by increasing record offset. *)
Definition in_disk_order (es : gmap bytes indexEntry) (ks : list bytes) : Prop :=
  ks ≡ₚ (map_to_list es).*1 ∧
  StronglySorted (λ k k', ∀ e e', es !! k = Some e → es !! k' = Some e' →
    RecordOffset e ≤ RecordOffset e') ks.

Record idx_inv (idx : index) : Prop := {
  inv_fields : dom (byAttribute idx) = indexedFields idx;
  inv_values : ∀ f values, byAttribute idx !! f = Some values →
    values_inv (entries idx) f values;
  inv_sorted : sortedDirty idx = false → in_disk_order (entries idx) (sortedKeys idx)
}.

(** ** Lemmas *)

Section lemmas.
Context `{!MapRange}.

Lemma elem_of_range_set s k : k ∈ range_set s ↔ k ∈ s.
Proof.
  unfold range_set. rewrite list_elem_of_fmap. split.
  - intros ([k' []] & -> & [??]%elem_of_range%lookup_gset_to_gmap_Some). done.
  - intros Hk. exists (k, tt). split; [done|].
    by apply elem_of_range, lookup_gset_to_gmap_Some.
Qed.

Lemma NoDup_range_set s : NoDup (range_set s).
Proof. apply NoDup_range_keys. Qed.

Lemma length_range_set s : length (range_set s) = size s.
Proof.
  unfold range_set. rewrite length_fmap, length_range.
  by rewrite <- size_dom, dom_gset_to_gmap.
Qed.

Lemma foldl_insert_map {V} (l : list (bytes * V)) (acc : gmap bytes V) :
  NoDup l.*1 → foldl (λ m kv, <[kv.1 := kv.2]> m) acc l = list_to_map l ∪ acc.
Proof.
  revert acc. induction l as [|[k v] l IH]; intros acc HND; csimpl in *.
  { by rewrite (left_id_L ∅ (∪)). }
  apply NoDup_cons in HND as [Hk HND]. rewrite IH by done.
  rewrite <- insert_union_r; [by rewrite insert_union_l|].
  by apply not_elem_of_list_to_map.
Qed.

Lemma cloneAttributes_id m : cloneAttributes m = m.
Proof.
  unfold cloneAttributes. case_bool_decide as Hz.
  { by apply map_size_empty_inv in Hz as ->. }
  rewrite foldl_insert_map by apply NoDup_range_keys.
  by rewrite list_to_map_range, (right_id_L ∅ (∪)).
Qed.

(** A loop over the indexed fields that updates the map of each field on
    its own. *)
Lemma foldl_alter_lookup {A V} (g : bytes → option A) (h : A → V → V) (fs : list bytes)
    (m : gmap bytes V) (k : bytes) :
  NoDup fs →
  foldl (λ m f, match g f with None => m | Some a => alter (h a) f m end) m fs !! k =
  if decide (k ∈ fs) then match g k with None => m !! k | Some a => h a <$> m !! k end
  else m !! k.
Proof.
  revert m. induction fs as [|f fs IH]; intros m HND; simpl; [done|].
  apply NoDup_cons in HND as [Hf HND]. rewrite IH by done.
  destruct (decide (k = f)) as [->|Hne].
  - rewrite decide_False by done. rewrite decide_True by set_solver.
    destruct (g f); [by rewrite lookup_alter_eq|done].
  - destruct (g f); [rewrite lookup_alter_ne by done|];
      repeat case_decide; set_solver.
Qed.

Lemma addToSecondary_lookup key e idx f :
  dom (byAttribute idx) = indexedFields idx →
  byAttribute (addToSecondary key e idx) !! f =
  match Attributes e !! f with
  | None => byAttribute idx !! f
  | Some v => add_value key v <$> byAttribute idx !! f
  end.
Proof.
  intros Hdom. unfold addToSecondary. simpl.
  rewrite (foldl_alter_lookup (λ f, Attributes e !! f)) by apply NoDup_range_set.
  case_decide as Hf; destruct (Attributes e !! f); simpl; try done.
  rewrite elem_of_range_set, <- Hdom, not_elem_of_dom in Hf. by rewrite Hf.
Qed.

Lemma removeFromSecondary_lookup key e idx f :
  dom (byAttribute idx) = indexedFields idx →
  byAttribute (removeFromSecondary key e idx) !! f =
  match Attributes e !! f with
  | None => byAttribute idx !! f
  | Some v => remove_value key v <$> byAttribute idx !! f
  end.
Proof.
  intros Hdom. unfold removeFromSecondary. simpl.
  rewrite (foldl_alter_lookup (λ f, Attributes e !! f)) by apply NoDup_range_set.
  case_decide as Hf; destruct (Attributes e !! f); simpl; try done.
  rewrite elem_of_range_set, <- Hdom, not_elem_of_dom in Hf. by rewrite Hf.
Qed.

Lemma alter_loop_dom {A V} (g : bytes → option A) (h : A → V → V) (fs : list bytes)
    (m : gmap bytes V) :
  dom (foldl (λ m f, match g f with None => m | Some a => alter (h a) f m end) m fs) = dom m.
Proof.
  revert m. induction fs as [|f fs IH]; intros m; simpl; [done|].
  rewrite IH. destruct (g f); [apply dom_alter_L|done].
Qed.
End lemmas.

Section invariant.
Context `{!MapRange}.

Lemma has_attr_delete es f v k k' :
  has_attr (delete k es) f v k' ↔ k' ≠ k ∧ has_attr es f v k'.
Proof.
  unfold has_attr. setoid_rewrite lookup_delete_Some. naive_solver.
Qed.

Lemma has_attr_insert es f v k e k' :
  has_attr (<[k := e]> es) f v k' ↔
  (k' = k ∧ Attributes e !! f = Some v) ∨ (k' ≠ k ∧ has_attr es f v k').
Proof.
  unfold has_attr. setoid_rewrite lookup_insert_Some. naive_solver.
Qed.

Lemma values_inv_remove es f values k e v :
  values_inv es f values → es !! k = Some e → Attributes e !! f = Some v →
  values_inv (delete k es) f (remove_value k v values).
Proof.
  intros [Hne Hiff] Hk Hv. unfold remove_value.
  assert (k ∈ (default ∅ (values !! v) : gset bytes)) as Hin by (apply Hiff; by exists e).
  destruct (values !! v) as [ks|] eqn:Hks; [|set_solver]. simpl in Hin.
  assert (∀ v' k', v' ≠ v → has_attr es f v' k' → k' ≠ k) as Hother.
  { intros v' k' Hvv (e' & He' & Hv') ->. congruence. }
  case_bool_decide as Hz; [apply size_empty_inv in Hz|]; split.
  - intros v' ks' [_ ?]%lookup_delete_Some. eauto.
  - intros v' k'. rewrite has_attr_delete. destruct (decide (v' = v)) as [->|Hvv].
    + rewrite lookup_delete_eq. simpl. rewrite <- Hiff, Hks. simpl. set_solver.
    + rewrite lookup_delete_ne by done. rewrite Hiff. naive_solver.
  - intros v' ks' [[_ <-]|[_ ?]]%lookup_insert_Some; [|eauto].
    intros Hks'. rewrite Hks', size_empty in Hz. done.
  - intros v' k'. rewrite has_attr_delete. destruct (decide (v' = v)) as [->|Hvv].
    + rewrite lookup_insert_eq. simpl. rewrite <- Hiff, Hks. simpl. set_solver.
    + rewrite lookup_insert_ne by done. rewrite Hiff. naive_solver.
Qed.

Lemma values_inv_skip es f values k e :
  values_inv es f values → es !! k = Some e → Attributes e !! f = None →
  values_inv (delete k es) f values.
Proof.
  intros [Hne Hiff] Hk Hv. split; [done|]. intros v k'.
  rewrite has_attr_delete, Hiff. split; [|naive_solver].
  intros (e' & ? & ?). split; [|by exists e']. intros ->. congruence.
Qed.

Lemma values_inv_add es f values k e v :
  values_inv (delete k es) f values → Attributes e !! f = Some v →
  values_inv (<[k := e]> es) f (add_value k v values).
Proof.
  intros [Hne Hiff] Hv. unfold add_value. split.
  - intros v' ks' [[_ <-]|[_ ?]]%lookup_insert_Some; [set_solver|eauto].
  - intros v' k'. rewrite has_attr_insert. pose proof (Hiff v' k') as Hk'.
    rewrite has_attr_delete in Hk'. destruct (decide (v' = v)) as [->|Hvv].
    + rewrite lookup_insert_eq. simpl. rewrite elem_of_union, elem_of_singleton, Hk'.
      naive_solver.
    + rewrite lookup_insert_ne, Hk' by done. naive_solver.
Qed.

Lemma values_inv_add_skip es f values k e :
  values_inv (delete k es) f values → Attributes e !! f = None →
  values_inv (<[k := e]> es) f values.
Proof.
  intros [Hne Hiff] Hv. split; [done|]. intros v k'.
  rewrite has_attr_insert, Hiff, has_attr_delete. naive_solver.
Qed.

(** After the first half of [Put] and [Delete] the secondary indexes no
    longer mention [key]. *)
Definition forget (key : bytes) (idx : index) : index :=
  match entries idx !! key with
  | Some existing => removeFromSecondary key existing idx
  | None => idx
  end.

Lemma forget_dom key idx :
  dom (byAttribute (forget key idx)) = dom (byAttribute idx).
Proof.
  unfold forget. destruct (entries idx !! key) as [e|]; [|done].
  apply (alter_loop_dom (λ f, Attributes e !! f)).
Qed.

Lemma forget_same key idx :
  entries (forget key idx) = entries idx ∧
  indexedFields (forget key idx) = indexedFields idx.
Proof. unfold forget. by destruct (entries idx !! key). Qed.

Lemma forget_values key idx f values :
  idx_inv idx → byAttribute (forget key idx) !! f = Some values →
  values_inv (delete key (entries idx)) f values.
Proof.
  intros [Hdom Hvals _]. unfold forget.
  destruct (entries idx !! key) as [e|] eqn:He.
  - rewrite removeFromSecondary_lookup by done.
    destruct (Attributes e !! f) as [v|] eqn:Hv.
    + intros (vs & Hvs & ->)%fmap_Some. eapply values_inv_remove; eauto.
    + intros. eapply values_inv_skip; eauto.
  - rewrite delete_id by done. eauto.
Qed.

Lemma idx_Put_entries key e idx :
  entries (idx_Put key e idx) =
  <[key := {| Offset := Offset e; Size := Size e; RecordOffset := RecordOffset e;
              StoredSize := StoredSize e; Attributes := Attributes e |}]> (entries idx).
Proof.
  unfold idx_Put. fold (forget key idx). simpl.
  by rewrite cloneAttributes_id, (proj1 (forget_same key idx)).
Qed.

Lemma idx_Put_fields key e idx : indexedFields (idx_Put key e idx) = indexedFields idx.
Proof.
  unfold idx_Put. fold (forget key idx). simpl. apply (proj2 (forget_same key idx)).
Qed.

Lemma idx_Put_inv key e idx : idx_inv idx → idx_inv (idx_Put key e idx).
Proof.
  intros Hinv. pose proof (inv_fields _ Hinv) as Hdom.
  pose proof (forget_same key idx) as [He Hf]. pose proof (forget_dom key idx) as Hfd.
  unfold idx_Put. fold (forget key idx). rewrite cloneAttributes_id.
  set (e' := {| Offset := _ |}). set (idx' := set_entries _ _).
  assert (dom (byAttribute idx') = indexedFields idx') as Hdom'.
  { simpl. congruence. }
  split.
  - simpl. rewrite (alter_loop_dom (λ f, Attributes e !! f)). simpl. congruence.
  - intros f values Hvals. change (byAttribute (addToSecondary key e' idx') !! f = Some values) in Hvals.
    change (values_inv (<[key := e']> (entries (forget key idx))) f values). rewrite He.
    rewrite addToSecondary_lookup in Hvals by done.
    destruct (Attributes e' !! f) as [v|] eqn:Hv.
    + apply fmap_Some in Hvals as (vs & Hvs & ->). apply values_inv_add; [|done].
      by apply forget_values.
    + apply values_inv_add_skip; [|done]. by apply forget_values.
  - done.
Qed.

Lemma idx_Delete_entries key idx : entries (idx_Delete key idx) = delete key (entries idx).
Proof.
  unfold idx_Delete. destruct (entries idx !! key) eqn:He; simpl; [done|].
  by rewrite delete_id.
Qed.

Lemma idx_Delete_fields key idx : indexedFields (idx_Delete key idx) = indexedFields idx.
Proof. unfold idx_Delete. by destruct (entries idx !! key). Qed.

Lemma idx_Delete_inv key idx : idx_inv idx → idx_inv (idx_Delete key idx).
Proof.
  intros Hinv. pose proof (inv_fields _ Hinv) as Hdom. split.
  - rewrite idx_Delete_fields. unfold idx_Delete.
    pose proof (forget_dom key idx) as Hfd. unfold forget in Hfd.
    destruct (entries idx !! key); simpl in *; congruence.
  - rewrite idx_Delete_entries. intros f values Hvals.
    apply forget_values; [done|]. unfold forget. unfold idx_Delete in Hvals.
    by destruct (entries idx !! key).
  - rewrite idx_Delete_entries. unfold idx_Delete.
    destruct (entries idx !! key) eqn:He; simpl; [done|].
    rewrite delete_id by done. apply Hinv.
Qed.
End invariant.

Section queries.
Context `{!MapRange}.

Lemma newIndex_spec fields :
  entries (newIndex fields) = ∅ ∧ sortedKeys (newIndex fields) = [] ∧
  sortedDirty (newIndex fields) = false ∧
  (∀ f, f ∈ indexedFields (newIndex fields) ↔ f ∈ fields ∧ f ≠ []) ∧
  byAttribute (newIndex fields) = gset_to_gmap ∅ (indexedFields (newIndex fields)).
Proof.
  unfold newIndex.
  set (step := λ (acc : gset bytes * gmap bytes (gmap bytes (gset bytes))) field,
    if bool_decide (field = []) then acc
    else ({[field]} ∪ acc.1, <[field := ∅]> acc.2)).
  assert (∀ (s : gset bytes), let r := foldl step (s, gset_to_gmap ∅ s) fields in
    (∀ f, f ∈ r.1 ↔ f ∈ s ∨ (f ∈ fields ∧ f ≠ [])) ∧ r.2 = gset_to_gmap ∅ r.1) as Hfold.
  { induction fields as [|g fields IH]; intros s; simpl; [set_solver|].
    unfold step at 2 4 6. case_bool_decide as Hg; simpl.
    - destruct (IH s) as [Hf ->]. split; [|done]. intros f. rewrite Hf. set_solver.
    - rewrite <- gset_to_gmap_union_singleton.
      destruct (IH ({[g]} ∪ s)) as [Hf ->]. split; [|done].
      intros f. rewrite Hf. set_solver. }
  specialize (Hfold ∅). rewrite gset_to_gmap_empty in Hfold.
  destruct (foldl step (∅, ∅) fields) as [fs secondary]. simpl in *.
  destruct Hfold as [Hf ->]. split_and!; try done. intros f. rewrite Hf. set_solver.
Qed.

Lemma newIndex_inv fields : idx_inv (newIndex fields).
Proof.
  destruct (newIndex_spec fields) as (He & Hk & Hd & _ & Hby). split.
  - rewrite Hby. apply dom_gset_to_gmap.
  - rewrite He, Hby. intros f vs [_ <-]%lookup_gset_to_gmap_Some. split.
    + intros ??. by rewrite lookup_empty.
    + intros v k. rewrite lookup_empty. simpl. unfold has_attr.
      setoid_rewrite lookup_empty. set_solver.
  - intros _. rewrite He, Hk. split; [by rewrite map_to_list_empty|constructor].
Qed.

#[export] Instance offset_le_total : Total offset_le.
Proof. intros a b. unfold offset_le. lia. Qed.
#[export] Instance offset_le_trans : Transitive offset_le.
Proof. intros a b c. unfold offset_le. lia. Qed.

(** The freshly computed order. *)
Definition disk_order (es : gmap bytes indexEntry) : list bytes :=
  (sort_by_offset ((λ ke, (ke.1, RecordOffset ke.2)) <$> range es)).*1.

Lemma disk_order_ok es : in_disk_order es (disk_order es).
Proof.
  unfold disk_order. set (pairs := (λ ke, (ke.1, RecordOffset ke.2)) <$> range es).
  assert (∀ k o, (k, o) ∈ sort_by_offset pairs →
    ∃ e, es !! k = Some e ∧ RecordOffset e = o) as Hin.
  { intros k o. unfold sort_by_offset. rewrite merge_sort_Permutation. unfold pairs.
    intros ([k' e] & ? & He%elem_of_range)%list_elem_of_fmap. simplify_eq/=. eauto. }
  split.
  - unfold sort_by_offset. rewrite merge_sort_Permutation. unfold pairs.
    rewrite <- list_fmap_compose. unfold compose. simpl. by rewrite range_perm.
  - pose proof (StronglySorted_merge_sort offset_le pairs) as Hs.
    change (merge_sort offset_le pairs) with (sort_by_offset pairs) in Hs.
    induction Hs as [|[k o] l Hs IH Hall]; csimpl; constructor.
    + apply IH. intros. apply Hin. set_solver.
    + rewrite Forall_fmap. apply Forall_forall. intros [k' o'] Hk' e e' He He'.
      rewrite Forall_forall in Hall. pose proof (Hall _ Hk') as Hle.
      destruct (Hin k o) as (e1 & ? & ?); [set_solver|].
      destruct (Hin k' o') as (e2 & ? & ?); [set_solver|].
      simpl in *. unfold offset_le in Hle. simpl in Hle. by simplify_eq.
Qed.

Lemma KeysSortedByOffset_ok idx :
  idx_inv idx →
  in_disk_order (entries idx) (KeysSortedByOffset idx).1 ∧
  idx_inv (KeysSortedByOffset idx).2 ∧
  entries (KeysSortedByOffset idx).2 = entries idx ∧
  indexedFields (KeysSortedByOffset idx).2 = indexedFields idx.
Proof.
  intros Hinv. unfold KeysSortedByOffset. destruct (sortedDirty idx) eqn:Hd; simpl.
  - fold (disk_order (entries idx)). split_and!; auto using disk_order_ok.
    destruct Hinv. split; simpl; auto using disk_order_ok.
  - zcase_one; simpl.
    + split_and!; auto. by apply Hinv.
    + fold (disk_order (entries idx)). split_and!; auto using disk_order_ok.
      destruct Hinv. split; simpl; auto using disk_order_ok.
Qed.

(** Two disk orders of the same entries agree when offsets are distinct. *)
Lemma in_disk_order_unique es ks ks' :
  (∀ k k' e e', es !! k = Some e → es !! k' = Some e' →
     RecordOffset e = RecordOffset e' → k = k') →
  in_disk_order es ks → in_disk_order es ks' → ks = ks'.
Proof.
  intros Hinj [Hp Hs] [Hp' Hs'].
  eapply StronglySorted_unique_strong; [|exact Hs|exact Hs'|by rewrite Hp, Hp'].
  assert (∀ k, k ∈ (map_to_list es).*1 → ∃ e, es !! k = Some e) as Hkeys.
  { intros k ([k0 e] & -> & He%elem_of_map_to_list)%list_elem_of_fmap. eauto. }
  intros k k' Hk Hk' Hle Hle'. rewrite Hp in Hk. rewrite Hp' in Hk'.
  destruct (Hkeys _ Hk) as [e He]. destruct (Hkeys _ Hk') as [e' He'].
  eapply Hinj; eauto. specialize (Hle _ _ He He'). specialize (Hle' _ _ He' He). lia.
Qed.

Lemma idx_KeysBy_spec idx f v k :
  idx_inv idx → f ∈ indexedFields idx →
  k ∈ idx_KeysBy f v idx ↔ has_attr (entries idx) f v k.
Proof.
  intros [Hdom Hvals _]. rewrite <- Hdom, elem_of_dom. intros [vs Hvs].
  unfold idx_KeysBy. rewrite Hvs, elem_of_range_set. by apply Hvals.
Qed.

Lemma idx_KeysBy_NoDup idx f v : NoDup (idx_KeysBy f v idx).
Proof.
  unfold idx_KeysBy. destruct (byAttribute idx !! f); [apply NoDup_range_set|constructor].
Qed.

Lemma idx_KeysBy_unindexed idx f v :
  idx_inv idx → f ∉ indexedFields idx → idx_KeysBy f v idx = [].
Proof.
  intros [Hdom _ _]. rewrite <- Hdom, not_elem_of_dom. unfold idx_KeysBy. by intros ->.
Qed.

Lemma idx_AttributeValues_spec idx f v :
  idx_inv idx → f ∈ indexedFields idx →
  v ∈ idx_AttributeValues f idx ↔ ∃ k, has_attr (entries idx) f v k.
Proof.
  intros [Hdom Hvals _]. rewrite <- Hdom, elem_of_dom. intros [vs Hvs].
  unfold idx_AttributeValues. rewrite sort_Strings_perm, Hvs. simpl.
  destruct (Hvals _ _ Hvs) as [Hne Hiff]. rewrite list_elem_of_fmap. split.
  - intros ([v' ks] & -> & Hks%elem_of_range). simpl.
    destruct (set_choose_L ks) as [k Hk]; [by eapply Hne|].
    exists k. rewrite <- Hiff, Hks. done.
  - intros [k Hk%Hiff]. destruct (vs !! v) as [ks|] eqn:Hks; [|set_solver].
    exists (v, ks). split; [done|]. by apply elem_of_range.
Qed.

Lemma idx_AttributeValues_NoDup idx f : NoDup (idx_AttributeValues f idx).
Proof. unfold idx_AttributeValues. rewrite sort_Strings_perm. apply NoDup_range_keys. Qed.
End queries.
