(* ===== verification/Cache.v ===== *)
(** * The LRU value cache

    cache.go: a map from key to list element and a [container/list] of items,
    most recently used first.  Elements are pointers in Go; here each has an
    identity, so the map and the list share elements as they do in the code.
    The operations refine a plain recency list ([lru_get], [lru_put], ...). *)

From S2P Require Import Prelude Go.

(** ** Data *)

Record cacheItem := { ci_key : bytes; ci_value : bytes }.

Record lruCache := {
  capacity : Z;
  items : gmap bytes nat;           (** [map[string]*list.Element] *)
  order : list (nat * cacheItem);   (** the list, front first, with element identities *)
  fresh : nat                       (** the next element identity *)
}.

Definition set_order (its : gmap bytes nat) (o : list (nat * cacheItem)) (c : lruCache) : lruCache :=
  {| capacity := capacity c; items := its; order := o; fresh := fresh c |}.

(** ** container/list *)

Definition list_remove (elem : nat) (o : list (nat * cacheItem)) : list (nat * cacheItem) :=
  filter (λ p, p.1 ≠ elem) o.

Fixpoint elem_value (elem : nat) (o : list (nat * cacheItem)) : option cacheItem :=
  match o with
  | [] => None
  | (i, it) :: o => if decide (i = elem) then Some it else elem_value elem o
  end.

Definition list_MoveToFront (elem : nat) (o : list (nat * cacheItem)) : list (nat * cacheItem) :=
  match elem_value elem o with
  | Some it => (elem, it) :: list_remove elem o
  | None => o
  end.

(** ** Operations *)

Definition newLRUCache (cap : Z) : lruCache :=
  {| capacity := cap; items := ∅; order := []; fresh := 0 |}.

Definition cache_Get (key : bytes) (c : lruCache) : option bytes * lruCache :=
  match items c !! key with
  | None => (None, c)
  | Some elem =>
      let o := list_MoveToFront elem (order c) in
      (ci_value <$> elem_value elem o, set_order (items c) o c)
  end.

Definition evictOldest (c : lruCache) : lruCache :=
  match last (order c) with
  | None => c
  | Some (oldest, item) =>
      set_order (delete (ci_key item) (items c)) (list_remove oldest (order c)) c
  end.

(** [for c.order.Len() >= c.capacity && c.order.Len() > 0]: every pass removes
    an element, so as many passes as there are elements are enough. *)
Fixpoint evict_full (fuel : nat) (c : lruCache) : lruCache :=
  match fuel with
  | O => c
  | S fuel =>
      if (capacity c <=? len (order c)) && (0 <? len (order c))
      then evict_full fuel (evictOldest c) else c
  end.

Definition cache_Put (key value : bytes) (c : lruCache) : lruCache :=
  match items c !! key with
  | Some elem =>
      let o := list_MoveToFront elem (order c) in
      set_order (items c)
        ((λ p, if decide (p.1 = elem)
               then (p.1, {| ci_key := ci_key p.2; ci_value := value |}) else p) <$> o) c
  | None =>
      let c := evict_full (length (order c)) c in
      {| capacity := capacity c;
         items := <[key := fresh c]> (items c);
         order := (fresh c, {| ci_key := key; ci_value := value |}) :: order c;
         fresh := S (fresh c) |}
  end.

Definition cache_Remove (key : bytes) (c : lruCache) : lruCache :=
  match items c !! key with
  | None => c
  | Some elem => set_order (delete key (items c)) (list_remove elem (order c)) c
  end.

Definition cache_Clear (c : lruCache) : lruCache := set_order ∅ [] c.

Definition cache_Len (c : lruCache) : Z := len (order c).

(** The loop of [SetCapacity], cut off after [fuel] passes ([None]). *)
Fixpoint evict_over (fuel : nat) (c : lruCache) : option lruCache :=
  match fuel with
  | O => None
  | S fuel =>
      if capacity c <? len (order c) then evict_over fuel (evictOldest c) else Some c
  end.

Definition cache_SetCapacity (fuel : nat) (cap : Z) (c : lruCache) : option lruCache :=
  evict_over fuel
    {| capacity := cap; items := items c; order := order c; fresh := fresh c |}.

Definition cache_MemoryUsage (c : lruCache) : Z :=
  foldl (λ total p, int64 (total + (len (ci_key p.2) + len (ci_value p.2) + 64))) 0 (order c).

Definition cache_Keys (c : lruCache) : list bytes := (λ p, ci_key p.2) <$> order c.

(** ** Specification: a recency list *)

Abbreviation recency := (list (bytes * bytes)).

Definition lru_drop (key : bytes) (l : recency) : recency := filter (λ kv, kv.1 ≠ key) l.

Definition lru_lookup (key : bytes) (l : recency) : option bytes :=
  (list_to_map l : gmap bytes bytes) !! key.

Definition lru_get (key : bytes) (l : recency) : option bytes * recency :=
  match lru_lookup key l with
  | None => (None, l)
  | Some v => (Some v, (key, v) :: lru_drop key l)
  end.

(** A new key keeps the [cap - 1] most recently used entries. *)
Definition lru_put (cap : Z) (key value : bytes) (l : recency) : recency :=
  match lru_lookup key l with
  | Some _ => (key, value) :: lru_drop key l
  | None => (key, value) :: take (Z.to_nat (cap - 1)) l
  end.

Definition cache_list (c : lruCache) : recency :=
  (λ p, (ci_key p.2, ci_value p.2)) <$> order c.

(** ** Invariant *)

Record cache_inv (c : lruCache) : Prop := {
  cinv_ids : NoDup (order c).*1;
  cinv_fresh : ∀ p, p ∈ order c → (p.1 < fresh c)%nat;
  cinv_items : ∀ k elem, items c !! k = Some elem ↔
    ∃ it, (elem, it) ∈ order c ∧ ci_key it = k
}.

(** ** Lemmas *)

Lemma elem_value_Some elem it o :
  NoDup o.*1 → (elem, it) ∈ o → elem_value elem o = Some it.
Proof.
  induction o as [|[i it'] o IH]; csimpl; [set_solver|].
  intros [Hi HND]%NoDup_cons [[= -> ->]|Hin]%elem_of_cons; [by rewrite decide_True|].
  rewrite decide_False; [auto|]. intros ->. apply Hi, list_elem_of_fmap.
  by exists (elem, it).
Qed.

Lemma cinv_key_inj c i it j it' :
  cache_inv c → (i, it) ∈ order c → (j, it') ∈ order c → ci_key it = ci_key it' → i = j.
Proof.
  intros Hc Hi Hj Hk.
  assert (items c !! ci_key it = Some i) as E1 by (apply Hc; eauto).
  assert (items c !! ci_key it = Some j) as E2 by (apply Hc; eauto). congruence.
Qed.

Lemma cinv_item_inj c i it it' :
  cache_inv c → (i, it) ∈ order c → (i, it') ∈ order c → it = it'.
Proof.
  intros Hc Hi Hj. pose proof (elem_value_Some _ _ _ (cinv_ids _ Hc) Hi) as E1.
  pose proof (elem_value_Some _ _ _ (cinv_ids _ Hc) Hj) as E2. congruence.
Qed.

(** The list of pairs, and the two views of removal. *)
Lemma cache_list_remove c k elem :
  cache_inv c → items c !! k = Some elem →
  (λ p, (ci_key p.2, ci_value p.2)) <$> list_remove elem (order c) =
  lru_drop k (cache_list c).
Proof.
  intros Hc (it & Hit & <-)%(cinv_items _ Hc).
  unfold list_remove, lru_drop, cache_list. apply fmap_filter_iff.
  intros [j it'] Hj. simpl. split; intros Hne Heq; apply Hne.
  - by eapply cinv_key_inj.
  - subst j. by rewrite (cinv_item_inj _ _ _ _ Hc Hit Hj).
Qed.

Lemma cache_keys_NoDup c : cache_inv c → NoDup (cache_list c).*1.
Proof.
  intros Hc. unfold cache_list. rewrite <- list_fmap_compose.
  apply NoDup_fmap_2_strong; [|apply NoDup_fmap_1 with fst, Hc].
  intros [i it] [j it'] Hi Hj Hk. simpl in Hk.
  assert (i = j) as -> by (eapply cinv_key_inj; eauto; congruence).
  by rewrite (cinv_item_inj _ _ _ _ Hc Hi Hj).
Qed.

Lemma lru_lookup_items c k :
  cache_inv c →
  lru_lookup k (cache_list c) =
  match items c !! k with None => None | Some e => ci_value <$> elem_value e (order c) end.
Proof.
  intros Hc. unfold lru_lookup. destruct (items c !! k) as [e|] eqn:He.
  - apply (cinv_items _ Hc) in He as (it & Hit & <-).
    rewrite (elem_value_Some _ it) by (done || apply Hc). simpl.
    apply elem_of_list_to_map_1; [by apply cache_keys_NoDup|].
    apply list_elem_of_fmap. by exists (e, it).
  - apply not_elem_of_list_to_map_1. unfold cache_list. rewrite <- list_fmap_compose.
    intros ([i it] & -> & Hi)%list_elem_of_fmap.
    assert (items c !! ci_key it = Some i) as E by (apply Hc; eauto).
    simpl in He. congruence.
Qed.

(** Reordering the elements, or changing a value, keeps the invariant. *)
Lemma cache_inv_reorder c o :
  cache_inv c → NoDup o.*1 →
  (∀ i k, (∃ it, (i, it) ∈ o ∧ ci_key it = k) ↔ (∃ it, (i, it) ∈ order c ∧ ci_key it = k)) →
  cache_inv (set_order (items c) o c).
Proof.
  intros Hc HND Hiff. split; simpl; [done| |].
  - intros [i it] Hi. destruct (proj1 (Hiff i (ci_key it))) as (it' & Hi' & _); [eauto|].
    by apply (cinv_fresh _ Hc) in Hi'.
  - intros k e. rewrite (cinv_items _ Hc). by rewrite Hiff.
Qed.

Lemma list_remove_NoDup e (o : list (nat * cacheItem)) :
  NoDup o.*1 → NoDup (list_remove e o).*1.
Proof. intros HND. eapply sublist_NoDup; [done|]. apply fmap_sublist, sublist_filter. Qed.

Lemma elem_of_list_remove e (o : list (nat * cacheItem)) p :
  p ∈ list_remove e o ↔ p.1 ≠ e ∧ p ∈ o.
Proof. unfold list_remove. by rewrite list_elem_of_filter. Qed.

Lemma cache_inv_drop c k e :
  cache_inv c → items c !! k = Some e →
  cache_inv (set_order (delete k (items c)) (list_remove e (order c)) c).
Proof.
  intros Hc He. pose proof (proj1 (cinv_items _ Hc k e) He) as (it & Hit & Hk).
  split; simpl.
  - apply list_remove_NoDup, Hc.
  - intros p [_ Hp]%elem_of_list_remove. by apply Hc.
  - intros k' e'. rewrite lookup_delete_Some, (cinv_items _ Hc).
    setoid_rewrite elem_of_list_remove. simpl. split.
    + intros (Hne & it' & Hit' & <-). exists it'. split_and!; [|done|done].
      intros ->. apply Hne. subst k.
      by rewrite (cinv_item_inj _ _ _ _ Hc Hit Hit').
    + intros (it' & (Hne & Hit') & <-). split; [|by eauto].
      intros Hkk. apply Hne. symmetry. eapply cinv_key_inj; eauto. congruence.
Qed.

Lemma MoveToFront_eq c k e :
  cache_inv c → items c !! k = Some e →
  ∃ it, ci_key it = k ∧ elem_value e (order c) = Some it ∧
    list_MoveToFront e (order c) = (e, it) :: list_remove e (order c).
Proof.
  intros Hc (it & Hit & Hk)%(cinv_items _ Hc). exists it.
  pose proof (elem_value_Some _ _ _ (cinv_ids _ Hc) Hit) as Hv.
  split_and!; [done..|]. unfold list_MoveToFront. by rewrite Hv.
Qed.

Lemma front_inv c e it it' :
  cache_inv c → (e, it) ∈ order c → ci_key it' = ci_key it →
  cache_inv (set_order (items c) ((e, it') :: list_remove e (order c)) c).
Proof.
  intros Hc Hit Hk. apply cache_inv_reorder; [done| |].
  - csimpl. constructor; [|apply list_remove_NoDup, Hc].
    intros ([i x] & ? & [??]%elem_of_list_remove)%list_elem_of_fmap. by simplify_eq/=.
  - intros i k. setoid_rewrite elem_of_cons. setoid_rewrite elem_of_list_remove. simpl. split.
    + intros (x & [[= -> ->]|(? & ?)] & <-); eauto.
    + intros (x & Hx & <-). destruct (decide (i = e)) as [->|]; [|by eauto].
      exists it'. split; [by left|]. by rewrite (cinv_item_inj _ _ _ _ Hc Hx Hit).
Qed.

Lemma cache_Get_refines key c :
  cache_inv c →
  cache_inv (cache_Get key c).2 ∧
  (cache_Get key c).1 = (lru_get key (cache_list c)).1 ∧
  cache_list (cache_Get key c).2 = (lru_get key (cache_list c)).2.
Proof.
  intros Hc. unfold cache_Get, lru_get. rewrite (lru_lookup_items _ _ Hc).
  destruct (items c !! key) as [e|] eqn:He; [|done].
  destruct (MoveToFront_eq _ _ _ Hc He) as (it & <- & Hv & Hm). rewrite Hm, Hv. simpl.
  rewrite decide_True by done. split_and!; [|done|].
  - apply front_inv with it; [done| |done].
    apply (cinv_items _ Hc) in He as (it' & Hit' & _).
    pose proof (elem_value_Some _ _ _ (cinv_ids _ Hc) Hit'). congruence.
  - unfold cache_list at 1. simpl. f_equal. by apply cache_list_remove.
Qed.

Lemma cache_Remove_refines key c :
  cache_inv c →
  cache_inv (cache_Remove key c) ∧
  cache_list (cache_Remove key c) = lru_drop key (cache_list c).
Proof.
  intros Hc. unfold cache_Remove. destruct (items c !! key) as [e|] eqn:He.
  - split; [by apply cache_inv_drop|]. by apply cache_list_remove.
  - split; [done|]. unfold lru_drop. symmetry. apply filter_id.
    intros [k v] Hkv. simpl. intros ->.
    pose proof (lru_lookup_items _ key Hc) as Hl. rewrite He in Hl. unfold lru_lookup in Hl.
    apply not_elem_of_list_to_map_2 in Hl. apply Hl, list_elem_of_fmap. by exists (key, v).
Qed.

Lemma evictOldest_spec c :
  cache_inv c →
  cache_inv (evictOldest c) ∧
  cache_list (evictOldest c) = take (length (order c) - 1) (cache_list c) ∧
  length (order (evictOldest c)) = (length (order c) - 1)%nat ∧
  capacity (evictOldest c) = capacity c ∧
  items (evictOldest c) ⊆ items c.
Proof.
  intros Hc. unfold evictOldest. destruct (last (order c)) as [[e it]|] eqn:Hl.
  - apply last_Some in Hl as [o Ho].
    assert (items c !! ci_key it = Some e) as He.
    { apply Hc. exists it. split; [|done]. rewrite Ho. set_solver. }
    assert (list_remove e (order c) = o) as Hr.
    { unfold list_remove. pose proof (cinv_ids _ Hc) as HND. rewrite Ho in *.
      rewrite fmap_app in HND. apply NoDup_app in HND as (_ & Hdis & _).
      rewrite filter_app, filter_cons_False, app_nil_r by naive_solver.
      apply filter_id. intros [i x] Hi. simpl. intros ->.
      apply (Hdis e); [|set_solver]. apply list_elem_of_fmap. by exists (e, x). }
    split_and!; simpl.
    + by apply cache_inv_drop.
    + rewrite Hr. unfold cache_list. simpl. rewrite Ho, fmap_app, length_app. simpl.
      rewrite Nat.add_sub, <- (length_fmap (λ p, (ci_key p.2, ci_value p.2)) o).
      by rewrite take_app_length.
    + rewrite Hr, Ho, length_app. simpl. lia.
    + done.
    + apply delete_subseteq.
  - apply last_None in Hl. unfold cache_list. by rewrite Hl.
Qed.

Lemma evict_full_spec n c :
  cache_inv c → (length (order c) ≤ n)%nat →
  cache_inv (evict_full n c) ∧
  cache_list (evict_full n c) = take (Z.to_nat (capacity c - 1)) (cache_list c) ∧
  capacity (evict_full n c) = capacity c ∧ items (evict_full n c) ⊆ items c.
Proof.
  revert c. induction n as [|n IH]; intros c Hc Hn; simpl.
  { assert (order c = []) as Ho by (destruct (order c); [done|simpl in Hn; lia]).
    split_and!; [done| |done|done].
    unfold cache_list. rewrite Ho. by destruct (Z.to_nat _). }
  destruct (Z.leb_spec (capacity c) (len (order c))) as [Hcap|Hcap].
  - destruct (Z.ltb_spec 0 (len (order c))) as [Hpos|Hz]; simpl.
    + destruct (evictOldest_spec c Hc) as (Hc' & Hl & Hlen & Hcap' & Hsub).
      destruct (IH (evictOldest c) Hc') as (Hi & Hlist & Hcc & Hs); [lia|].
      rewrite Hlist, Hcap', Hl, take_take, Hcc. split_and!; [done| |done|by etrans].
      f_equal. lia.
    + assert (order c = []) as Ho by (destruct (order c); [done|simpl in Hz; lia]).
      split_and!; [done| |done|done].
    unfold cache_list. rewrite Ho. by destruct (Z.to_nat _).
  - simpl. split_and!; [done| |done|done]. rewrite take_ge; [done|].
    unfold cache_list. rewrite length_fmap. lia.
Qed.

Lemma cache_Put_refines key value c :
  cache_inv c →
  cache_inv (cache_Put key value c) ∧
  cache_list (cache_Put key value c) = lru_put (capacity c) key value (cache_list c) ∧
  capacity (cache_Put key value c) = capacity c.
Proof.
  intros Hc. unfold cache_Put, lru_put. rewrite (lru_lookup_items _ _ Hc).
  destruct (items c !! key) as [e|] eqn:He.
  - destruct (MoveToFront_eq _ _ _ Hc He) as (it & <- & Hv & Hm). rewrite Hm, Hv. csimpl.
    rewrite decide_True by done.
    assert ((λ p, if decide (p.1 = e)
      then (p.1, {| ci_key := ci_key p.2; ci_value := value |}) else p) <$>
      list_remove e (order c) = list_remove e (order c)) as Hid.
    { rewrite <- (list_fmap_id (list_remove e (order c))) at 2.
      apply list_fmap_ext. intros ? p Hp%list_elem_of_lookup_2.
      apply elem_of_list_remove in Hp as [Hp _]. by rewrite decide_False. }
    rewrite Hid. split_and!; [| |done].
    + apply front_inv with it; [done| |done].
      apply (cinv_items _ Hc) in He as (it' & Hit' & _).
      pose proof (elem_value_Some _ _ _ (cinv_ids _ Hc) Hit'). congruence.
    + unfold cache_list at 1. csimpl. f_equal. by apply cache_list_remove.
  - destruct (evict_full_spec (length (order c)) c Hc) as (Hc' & Hl & Hcap & Hsub); [lia|].
    set (c' := evict_full (length (order c)) c) in *.
    assert (items c' !! key = None) as Hnone.
    { destruct (items c' !! key) as [x|] eqn:Hx; [|done].
      pose proof (lookup_weaken _ _ _ _ Hx Hsub). congruence. }
    split_and!; [split; simpl| |done].
    + constructor; [|apply Hc']. intros ([i x] & Hi & Hx)%list_elem_of_fmap.
      apply (cinv_fresh _ Hc') in Hx. simpl in *. lia.
    + intros p [->|Hp]%elem_of_cons; simpl; [lia|]. apply (cinv_fresh _ Hc') in Hp. lia.
    + intros k i. setoid_rewrite elem_of_cons. destruct (decide (k = key)) as [->|Hne].
      * rewrite lookup_insert_eq. split.
        -- intros [= <-]. eexists. split; [by left|done].
        -- intros (x & [[= -> ->]|Hx] & Hk); [done|].
           assert (items c' !! key = Some i) by (apply Hc'; eauto). congruence.
      * rewrite lookup_insert_ne, (cinv_items _ Hc') by done. split; [by naive_solver|].
        intros (x & [[= -> ->]|Hx] & Hk); [done|]. eauto.
    + unfold cache_list at 1. csimpl. f_equal. exact Hl.
Qed.

Lemma newLRUCache_inv cap : cache_inv (newLRUCache cap).
Proof.
  split; simpl; [constructor|set_solver|]. intros k e. rewrite lookup_empty. set_solver.
Qed.

Lemma cache_Clear_inv c : cache_inv (cache_Clear c).
Proof.
  split; simpl; [constructor|set_solver|]. intros k e. rewrite lookup_empty. set_solver.
Qed.

(** A cached value is the last one put for its key: what a bounded recency
    list may hold after each operation. *)
Lemma lru_lookup_drop k k' l :
  lru_lookup k' (lru_drop k l) = if decide (k' = k) then None else lru_lookup k' l.
Proof.
  unfold lru_lookup, lru_drop. induction l as [|[k0 v0] l IH]; [by case_decide|].
  destruct (decide (k0 = k)) as [->|Hne].
  - rewrite filter_cons_False by (simpl; tauto). rewrite IH. csimpl.
    case_decide; [done|]. by rewrite lookup_insert_ne by done.
  - rewrite filter_cons_True by done. csimpl.
    destruct (decide (k' = k0)) as [->|].
    + rewrite !lookup_insert_eq. by rewrite decide_False.
    + by rewrite !lookup_insert_ne, IH by done.
Qed.

Lemma lru_lookup_take n k l v : lru_lookup k (take n l) = Some v → lru_lookup k l = Some v.
Proof.
  unfold lru_lookup. revert n. induction l as [|[k0 v0] l IH]; intros n; [by rewrite take_nil|].
  destruct n; [done|]. csimpl. destruct (decide (k = k0)) as [->|].
  - by rewrite !lookup_insert_eq.
  - rewrite !lookup_insert_ne by done. apply IH.
Qed.

Lemma lru_get_lookup key l k v :
  lru_lookup k (lru_get key l).2 = Some v → lru_lookup k l = Some v.
Proof.
  unfold lru_get. destruct (lru_lookup key l) as [w|] eqn:Hw; simpl; [|done].
  unfold lru_lookup at 1. csimpl. destruct (decide (k = key)) as [->|].
  - rewrite lookup_insert_eq. by intros [= <-].
  - rewrite lookup_insert_ne by done. fold (lru_lookup k (lru_drop key l)).
    rewrite lru_lookup_drop, decide_False by done. done.
Qed.

Lemma lru_put_lookup cap key value l k v :
  lru_lookup k (lru_put cap key value l) = Some v →
  (k = key ∧ v = value) ∨ (k ≠ key ∧ lru_lookup k l = Some v).
Proof.
  intros Hl. assert (∃ l', lru_put cap key value l = (key, value) :: l' ∧
    (k ≠ key → lru_lookup k l' = Some v → lru_lookup k l = Some v)) as (l' & Heq & Hl').
  { unfold lru_put. destruct (lru_lookup key l); eexists; (split; [done|]); intros Hne.
    - rewrite lru_lookup_drop, decide_False by done. done.
    - apply lru_lookup_take. }
  rewrite Heq in Hl. unfold lru_lookup at 1 in Hl. csimpl in Hl.
  destruct (decide (k = key)) as [->|Hne].
  - rewrite lookup_insert_eq in Hl. left. by simplify_eq.
  - rewrite lookup_insert_ne in Hl by done. right. auto.
Qed.

Lemma length_lru_drop key l v :
  lru_lookup key l = Some v → (length (lru_drop key l) < length l)%nat.
Proof.
  unfold lru_lookup, lru_drop. intros Hl%elem_of_list_to_map_2.
  apply list_elem_of_split in Hl as (l1 & l2 & ->).
  rewrite filter_app, filter_cons_False by (simpl; tauto). rewrite !length_app. simpl.
  pose proof (length_filter (λ kv : bytes * bytes, kv.1 ≠ key) l1).
  pose proof (length_filter (λ kv : bytes * bytes, kv.1 ≠ key) l2). lia.
Qed.

Lemma length_lru_put cap key value l :
  1 ≤ cap → len l ≤ cap → len (lru_put cap key value l) ≤ cap.
Proof.
  intros Hcap Hlen. unfold lru_put. destruct (lru_lookup key l) as [v|] eqn:Hv; simpl.
  - apply length_lru_drop in Hv. lia.
  - rewrite length_take. lia.
Qed.

(** [SetCapacity] ends for a capacity that is not negative... *)
Lemma evict_over_ends c fuel :
  cache_inv c → 0 ≤ capacity c → (length (order c) < fuel)%nat →
  ∃ c', evict_over fuel c = Some c' ∧ cache_inv c' ∧
    cache_list c' = take (Z.to_nat (capacity c)) (cache_list c).
Proof.
  revert c. induction fuel as [|fuel IH]; intros c Hc Hcap Hf; [lia|]. simpl.
  destruct (Z.ltb_spec (capacity c) (len (order c))) as [Hlt|Hge].
  - destruct (evictOldest_spec c Hc) as (Hc' & Hl & Hlen & Hcap' & _).
    destruct (IH (evictOldest c)) as (c' & -> & Hi & Hcl); [done|lia|lia|].
    exists c'. split_and!; [done..|]. rewrite Hcl, Hcap', Hl, take_take. f_equal. lia.
  - exists c. split_and!; [done..|]. rewrite take_ge; [done|].
    unfold cache_list. rewrite length_fmap. lia.
Qed.

(** ... and never ends for a negative one. *)
Lemma evict_over_negative c fuel : cache_inv c → capacity c < 0 → evict_over fuel c = None.
Proof.
  revert c. induction fuel as [|fuel IH]; intros c Hc Hcap; [done|]. simpl.
  destruct (Z.ltb_spec (capacity c) (len (order c))) as [Hlt|Hge]; [|lia].
  destruct (evictOldest_spec c Hc) as (Hc' & _ & _ & Hcap' & _).
  apply IH; [done|lia].
Qed.

(** ** Runs of the cache against runs of the recency list *)

Inductive cache_op :=
| CGet (key : bytes)
| CPut (key value : bytes)
| CRemove (key : bytes)
| CClear
| CSetCapacity (cap : Z).

(** [None] when the loop of [SetCapacity] does not end within one pass per
    element. *)
Definition cache_step (o : cache_op) (c : lruCache) : option (option bytes * lruCache) :=
  match o with
  | CGet key => Some (cache_Get key c)
  | CPut key value => Some (None, cache_Put key value c)
  | CRemove key => Some (None, cache_Remove key c)
  | CClear => Some (None, cache_Clear c)
  | CSetCapacity cap => pair None <$> cache_SetCapacity (S (length (order c))) cap c
  end.

Definition lru_step (o : cache_op) (cl : Z * recency) : option bytes * (Z * recency) :=
  match o with
  | CGet key => let '(v, l) := lru_get key cl.2 in (v, (cl.1, l))
  | CPut key value => (None, (cl.1, lru_put cl.1 key value cl.2))
  | CRemove key => (None, (cl.1, lru_drop key cl.2))
  | CClear => (None, (cl.1, []))
  | CSetCapacity cap => (None, (cap, take (Z.to_nat cap) cl.2))
  end.

Fixpoint cache_run (os : list cache_op) (c : lruCache) : option (list (option bytes) * lruCache) :=
  match os with
  | [] => Some ([], c)
  | o :: os =>
      '(v, c) ← cache_step o c;
      '(vs, c) ← cache_run os c;
      Some (v :: vs, c)
  end.

Fixpoint lru_run (os : list cache_op) (cl : Z * recency) : list (option bytes) * (Z * recency) :=
  match os with
  | [] => ([], cl)
  | o :: os =>
      let '(v, cl) := lru_step o cl in
      let '(vs, cl) := lru_run os cl in
      (v :: vs, cl)
  end.

(** Capacities the loop of [SetCapacity] ends for. *)
Definition cache_op_ok (o : cache_op) : Prop :=
  match o with CSetCapacity cap => 1 ≤ cap | _ => True end.

Definition cache_view (c : lruCache) : Z * recency := (capacity c, cache_list c).

Definition within_capacity (cl : Z * recency) : Prop := 1 ≤ cl.1 ∧ len cl.2 ≤ cl.1.

Lemma cache_step_refines o c :
  cache_inv c → cache_op_ok o →
  ∃ c', cache_step o c = Some ((lru_step o (cache_view c)).1, c') ∧ cache_inv c' ∧
        cache_view c' = (lru_step o (cache_view c)).2.
Proof.
  intros Hc Ho. unfold cache_view.
  destruct o as [key|key value|key| |cap]; cbn [cache_step lru_step cache_op_ok fst snd] in *.
  - destruct (cache_Get_refines key c Hc) as (Hc' & Hv & Hl).
    exists (cache_Get key c).2. destruct (lru_get key (cache_list c)) as [v l]. simpl in *.
    rewrite <- Hv, <- Hl. split; [by destruct (cache_Get key c)|]. split; [done|].
    f_equal. unfold cache_Get. by destruct (items c !! key).
  - destruct (cache_Put_refines key value c Hc) as (Hc' & Hl & Hcap).
    eexists. split; [done|]. by rewrite Hl, Hcap.
  - destruct (cache_Remove_refines key c Hc) as (Hc' & Hl).
    eexists. split; [done|]. rewrite Hl. split; [done|]. f_equal.
    unfold cache_Remove. by destruct (items c !! key).
  - eexists. split; [done|]. split; [apply cache_Clear_inv|done].
  - unfold cache_SetCapacity.
    destruct (evict_over_ends {| capacity := cap; items := items c; order := order c;
      fresh := fresh c |} (S (length (order c)))) as (c' & Hrun & Hc' & Hl);
      [by destruct Hc|simpl; lia|simpl; lia|].
    exists c'. rewrite Hrun. split; [done|]. split; [done|]. rewrite Hl.
    f_equal. clear -Hrun. revert Hrun. generalize (S (length (order c))) as n. intros n.
    assert (∀ d, capacity d = cap → evict_over n d = Some c' → capacity c' = cap) as Hcap.
    { induction n as [|n IH]; [done|]. intros d Hd. simpl. case_match; [|by intros [= <-]].
      apply IH. unfold evictOldest. destruct (last (order d)) as [[]|]; done. }
    by apply Hcap.
Qed.

Lemma lru_step_within o cl :
  within_capacity cl → cache_op_ok o → within_capacity (lru_step o cl).2.
Proof.
  intros [H1 H2] Ho. unfold within_capacity.
  destruct o as [key|key value|key| |cap]; simpl in *.
  - unfold lru_get. destruct (lru_lookup key cl.2) eqn:Hl; simpl; [|done].
    apply length_lru_drop in Hl. split; [done|]. lia.
  - split; [done|]. by apply length_lru_put.
  - split; [done|]. unfold lru_drop. pose proof (length_filter (λ kv : bytes * bytes, kv.1 ≠ key) cl.2). lia.
  - split; [done|]. lia.
  - split; [done|]. rewrite length_take. lia.
Qed.

Lemma cache_run_refines os c :
  cache_inv c → within_capacity (cache_view c) → Forall cache_op_ok os →
  ∃ c', cache_run os c = Some ((lru_run os (cache_view c)).1, c') ∧ cache_inv c' ∧
        cache_view c' = (lru_run os (cache_view c)).2 ∧ within_capacity (cache_view c').
Proof.
  revert c. induction os as [|o os IH]; intros c Hc Hw Hos; simpl.
  { exists c. by split_and!. }
  apply Forall_cons in Hos as [Ho Hos].
  destruct (cache_step_refines o c Hc Ho) as (c1 & -> & Hc1 & Hv1). simpl.
  pose proof (lru_step_within o _ Hw Ho) as Hw1.
  destruct (lru_step o (cache_view c)) as [v cl]. simpl in *. rewrite <- Hv1 in Hw1. subst cl.
  destruct (IH c1 Hc1 Hw1 Hos) as (c2 & -> & Hc2 & Hv2 & Hw2). simpl.
  destruct (lru_run os (cache_view c1)) as [vs cl]. simpl in *. by exists c2.
Qed.
