(* ===== verification/Strconv.v ===== *)
(** * strconv, as the legacy formats use it

    [FormatInt] and [FormatBool] turn the fixed fields of a version 1 to 3
    record into attributes; [ParseInt] and [ParseBool] turn them back when a
    log is downgraded. Base 10, 64 bits. *)

From S2P Require Import Prelude Go.

(** ** Formatting *)

Definition digit (d : Z) : byte := byte.of_Z (48 + d).

(** The digits of [n] in front of [acc]; 20 digits cover 64 bits. *)
Fixpoint format_digits (fuel : nat) (n : Z) (acc : bytes) : bytes :=
  match fuel with
  | O => acc
  | S fuel =>
      let acc := digit (n mod 10) :: acc in
      if n <? 10 then acc else format_digits fuel (n / 10) acc
  end.

Definition FormatInt (i : Z) : bytes :=
  if i <? 0 then Byte.x2d :: format_digits 20 (- i) [] else format_digits 20 i [].

Definition FormatBool (b : bool) : bytes := if b then str "true" else str "false".

(** ** Parsing *)

Definition maxUint64 : Z := 2 ^ 64 - 1.

(** The loop of [ParseUint]: [n] has been read so far. *)
Fixpoint parse_digits (s : bytes) (n : Z) : res Z :=
  match s with
  | [] => Ok n
  | c :: s =>
      let c := byte.unsigned c in
      if negb ((48 <=? c) && (c <=? 57)) then Err (Sentinel ErrSyntax)
      else if maxUint64 / 10 + 1 <=? n then Err (Sentinel ErrRange)
      else
        let n1 := n * 10 + (c - 48) in
        if maxUint64 <? n1 then Err (Sentinel ErrRange) else parse_digits s n1
  end.

Definition ParseUint (s : bytes) : res Z :=
  if bool_decide (s = []) then Err (Sentinel ErrSyntax) else parse_digits s 0.

Definition ParseInt (s : bytes) : res Z :=
  match s with
  | [] => Err (Sentinel ErrSyntax)
  | c :: s' =>
      let '(neg, s) :=
        if bool_decide (c = Byte.x2b) then (false, s')
        else if bool_decide (c = Byte.x2d) then (true, s') else (false, s) in
      un ← ParseUint s;
      if negb neg && (2 ^ 63 <=? un) then Err (Sentinel ErrRange)
      else if neg && (2 ^ 63 <? un) then Err (Sentinel ErrRange)
      else Ok (if (neg : bool) then - un else un)
  end.

Definition ParseBool (s : bytes) : res bool :=
  if bool_decide (s ∈ str <$> ["1"; "t"; "T"; "true"; "TRUE"; "True"]%string) then Ok true
  else if bool_decide (s ∈ str <$> ["0"; "f"; "F"; "false"; "FALSE"; "False"]%string) then Ok false
  else Err (Sentinel ErrSyntax).

(** ** Round trips *)

Lemma unsigned_digit d : 0 ≤ d < 10 → byte.unsigned (digit d) = 48 + d.
Proof. intros. unfold digit. rewrite byte.unsigned_of_Z. apply Z.mod_small. lia. Qed.

Lemma parse_digit d s n :
  0 ≤ d < 10 → 0 ≤ n → n * 10 + d < 2 ^ 64 →
  parse_digits (digit d :: s) n = parse_digits s (n * 10 + d).
Proof.
  intros Hd Hn Hb. simpl. rewrite unsigned_digit by done.
  destruct (Z.leb_spec 48 (48 + d)); [|lia]. destruct (Z.leb_spec (48 + d) 57); [|lia]. simpl.
  destruct (Z.leb_spec (maxUint64 / 10 + 1) n) as [Hc|_].
  { exfalso. change (maxUint64 / 10 + 1) with 1844674407370955162 in Hc. lia. }
  replace (48 + d - 48) with d by lia.
  destruct (Z.ltb_spec maxUint64 (n * 10 + d)) as [Hc|_]; [unfold maxUint64 in Hc; lia|done].
Qed.

Lemma parse_format fuel n acc :
  0 ≤ n < 10 ^ Z.of_nat fuel → n < 2 ^ 64 → fuel ≠ 0%nat →
  parse_digits (format_digits fuel n acc) 0 = parse_digits acc n.
Proof.
  revert n acc. induction fuel as [|fuel IH]; intros n acc Hn Hb Hf; [done|].
  cbn [format_digits]. pose proof (Z.mod_pos_bound n 10 ltac:(lia)).
  destruct (Z.ltb_spec n 10).
  - rewrite parse_digit by lia. f_equal. rewrite Z.mod_small; lia.
  - assert (0 ≤ n / 10) by (apply Z.div_pos; lia).
    assert (n / 10 < n) by (apply Z.div_lt; lia).
    assert (n / 10 < 10 ^ Z.of_nat fuel).
    { apply Z.div_lt_upper_bound; [lia|]. rewrite <- Z.pow_succ_r by lia.
      replace (Z.succ (Z.of_nat fuel)) with (Z.of_nat (S fuel)) by lia. lia. }
    rewrite IH; [|lia|lia|].
    + rewrite parse_digit; [|lia|lia|].
      * f_equal. rewrite Z.mul_comm. symmetry. apply Z.div_mod. lia.
      * rewrite Z.mul_comm, <- Z.div_mod; lia.
    + intros ->. simpl in *. lia.
Qed.

Lemma format_digits_head fuel n acc :
  fuel ≠ 0%nat → ∃ d s, format_digits fuel n acc = digit d :: s ∧ 0 ≤ d < 10.
Proof.
  revert n acc. induction fuel as [|fuel IH]; intros n acc Hf; [done|]. cbn [format_digits].
  pose proof (Z.mod_pos_bound n 10 ltac:(lia)).
  destruct (n <? 10); [eauto|]. destruct fuel; [simpl; eauto|]. apply IH. done.
Qed.

(** A formatted integer parses back to itself. *)
Lemma ParseInt_FormatInt i : - 2 ^ 63 ≤ i < 2 ^ 63 → ParseInt (FormatInt i) = Ok i.
Proof.
  intros Hi. unfold FormatInt. destruct (Z.ltb_spec i 0) as [Hneg|Hpos].
  - unfold ParseInt. rewrite bool_decide_eq_false_2 by done.
    rewrite bool_decide_eq_true_2 by done.
    destruct (format_digits_head 20 (- i) []) as (d & s & Hd & _); [done|].
    unfold ParseUint. rewrite bool_decide_eq_false_2 by (by rewrite Hd).
    rewrite parse_format; [|change (10 ^ Z.of_nat 20) with 100000000000000000000; lia|lia|done].
    cbn [parse_digits mbind res_bind negb andb].
    destruct (Z.ltb_spec (2 ^ 63) (- i)); [lia|]. f_equal. lia.
  - destruct (format_digits_head 20 i []) as (d & s & Hd & Hdr); [done|].
    assert (ParseUint (format_digits 20 i []) = Ok i) as Hpu.
    { unfold ParseUint. rewrite bool_decide_eq_false_2 by (by rewrite Hd).
      rewrite parse_format; [done| |lia|done].
      change (10 ^ Z.of_nat 20) with 100000000000000000000. lia. }
    rewrite Hd in *. unfold ParseInt.
    assert (∀ c, byte.unsigned c < 48 → digit d ≠ c) as Hne.
    { intros c Hc Heq. apply (f_equal byte.unsigned) in Heq.
      rewrite unsigned_digit in Heq by done. lia. }
    rewrite !bool_decide_eq_false_2 by (by apply Hne). rewrite Hpu.
    cbn [mbind res_bind negb andb]. destruct (Z.leb_spec (2 ^ 63) i); [lia|done].
Qed.

Lemma ParseBool_FormatBool b : ParseBool (FormatBool b) = Ok b.
Proof. by destruct b; vm_compute. Qed.

Lemma FormatInt_nonempty z : FormatInt z ≠ [].
Proof.
  unfold FormatInt. destruct (z <? 0); [done|].
  destruct (format_digits_head 20 z []) as (d & s & -> & _); done.
Qed.

Lemma FormatBool_nonempty b : FormatBool b ≠ [].
Proof. by destruct b. Qed.

Lemma length_format_digits fuel n acc :
  (length (format_digits fuel n acc) ≤ fuel + length acc)%nat.
Proof.
  revert n acc. induction fuel as [|fuel IH]; intros n acc; cbn [format_digits]; [done|].
  case_match; [simpl; lia|]. etrans; [apply IH|]. simpl. lia.
Qed.

Lemma length_FormatInt z : len (FormatInt z) ≤ 21.
Proof.
  pose proof (length_format_digits 20 z []) as Hp.
  pose proof (length_format_digits 20 (- z) []) as Hn.
  unfold FormatInt. destruct (z <? 0); cbn [length] in *; lia.
Qed.
