(* ===== verification/Legacy.v ===== *)
(** * The version 1 to 3 record format

    log.go: [readLegacyRecordFrom], which migration scans old logs with;
    downgrade.go: [encodeV3Record], which writes that format again.  The two
    are inverse up to the defaults a version 3 record fills in. *)

From S2P Require Import Prelude Go Attributes Reader Record Strconv.

Definition legacyCategoryAttribute := str "category".
Definition legacyProviderAttribute := str "provider".
Definition legacyStatusAttribute := str "status".
Definition legacyNameAttribute := str "name".
Definition legacyTotalSizeAttribute := str "total_size".
Definition legacyProtocolAttribute := str "protocol".
Definition legacyBadAttribute := str "bad".
Definition legacyAddedOnAttribute := str "added_on".

(** ** Reading *)

(** The closures of [readLegacyRecordFrom]; each returns the advanced [pos]. *)
Definition readU32 (pos : Z) : M reader (Z * Z) :=
  fixed ← io_ReadFull 4; v ← lift (Uint32 fixed); mret (v, pos + 4).
Definition readU16 (pos : Z) : M reader (Z * Z) :=
  fixed ← io_ReadFull 2; v ← lift (Uint16 fixed); mret (v, pos + 2).
Definition readU64 (pos : Z) : M reader (Z * Z) :=
  fixed ← io_ReadFull 8; mret (int64 (le_combine fixed), pos + 8).
Definition readString (length : Z) (pos : Z) : M reader (bytes * Z) :=
  buf ← io_ReadFull length; mret (buf, pos + length).
Definition readField (pos : Z) : M reader (bytes * Z) :=
  '(length, pos) ← readU16 pos; readString length pos.

Definition readLegacyRecordFrom (startPos version : Z) : M reader (logRecord * Z) :=
  let pos := startPos in
  '(keyLen, pos) ← readU32 pos;
  if keyLen >? maxKeySize then throw (Errorf "invalid key length" []) else
  '(key, pos) ← readString keyLen pos;
  '(valueLen, pos) ← readU32 pos;
  if valueLen >? maxValueSize then throw (Errorf "invalid value length" []) else
  let valueOffset := pos in
  io_Discard valueLen;;
  let pos := pos + valueLen in
  fixed ← io_ReadFull 1;
  let pos := pos + 1 in
  flags ← lift (go_index 0 fixed);
  '(category, pos) ← readField pos;
  '(provider, pos) ← readField pos;
  '(status, pos) ← readField pos;
  '(name, pos) ← readField pos;
  '(totalSize, pos) ← readU64 pos;
  let attributes : attrs :=
    <[legacyCategoryAttribute := category]>
    (<[legacyProviderAttribute := provider]>
    (<[legacyStatusAttribute := status]>
    (<[legacyNameAttribute := name]>
    (<[legacyTotalSizeAttribute := FormatInt totalSize]> ∅)))) in
  '(attributes, pos) ←
    (if 3 <=? version then
       '(protocol, pos) ← readField pos;
       '(addedOn, pos) ← readU64 pos;
       mret (<[legacyAddedOnAttribute := FormatInt addedOn]>
         (<[legacyBadAttribute := FormatBool (Z.testbit (byte.unsigned flags) 1)]>
         (<[legacyProtocolAttribute := protocol]> attributes)), pos)
     else mret (attributes, pos));
  mret ({| rKey := key;
           rOffset := valueOffset;
           rSize := int32 valueLen;
           rRecordOffset := startPos;
           rStoredSize := pos - startPos;
           rDeleted := Z.testbit (byte.unsigned flags) 0;
           rAttributes := attributes |}, pos).

(** ** Writing *)

Definition v3Fields : list bytes :=
  [legacyCategoryAttribute; legacyProviderAttribute; legacyStatusAttribute;
   legacyNameAttribute; legacyTotalSizeAttribute; legacyProtocolAttribute;
   legacyBadAttribute; legacyAddedOnAttribute].

Definition v3StringFields : list bytes :=
  [legacyCategoryAttribute; legacyProviderAttribute; legacyStatusAttribute;
   legacyNameAttribute; legacyProtocolAttribute].

(** [attributes[name]]: the zero value for a missing key. *)
Definition attribute (attributes : attrs) (name : bytes) : bytes :=
  default [] (attributes !! name).

Definition v3Number (attributes : attrs) (name : bytes) : res Z :=
  let raw := attribute attributes name in
  if bool_decide (raw = []) then Ok 0
  else match ParseInt raw with
       | Err e => Err (Errorf "attribute is not a version 3 number" [e])
       | r => r
       end.

Definition appendField (buf text : bytes) : bytes :=
  buf ++ put16 (uint16 (len text)) ++ text.

Definition encodeV3Record `{!MapRange} (key value extensions : bytes)
    (attributes : attrs) : res bytes :=
  if 0 <? len extensions then
    Err (Errorf "key carries an extension that version 3 cannot express" [])
  else if existsb (λ kv, bool_decide (kv.1 ∉ v3Fields)) (range attributes) then
    Err (Errorf "key has an attribute version 3 has no field for" [])
  else if existsb (λ name, len (attribute attributes name) >? 2 ^ 16 - 1) v3StringFields then
    Err (Errorf "attribute is more than a version 3 field holds" [])
  else
  totalSize ← v3Number attributes legacyTotalSizeAttribute;
  addedOn ← v3Number attributes legacyAddedOnAttribute;
  flags ←
    (let raw := attribute attributes legacyBadAttribute in
     if bool_decide (raw = []) then Ok 0
     else match ParseBool raw with
          | Ok bad => Ok (if (bad : bool) then 2 else 0)
          | Err e => Err (Errorf "attribute is not a version 3 flag" [e])
          | Panic => Panic
          | Crash => Crash
          end);
  let buf := put32 (uint32 (len key)) in
  let buf := buf ++ key in
  let buf := buf ++ put32 (uint32 (len value)) in
  let buf := buf ++ value in
  let buf := buf ++ [byte.of_Z flags] in
  let buf := appendField buf (attribute attributes legacyCategoryAttribute) in
  let buf := appendField buf (attribute attributes legacyProviderAttribute) in
  let buf := appendField buf (attribute attributes legacyStatusAttribute) in
  let buf := appendField buf (attribute attributes legacyNameAttribute) in
  let buf := buf ++ put64 totalSize in
  let buf := appendField buf (attribute attributes legacyProtocolAttribute) in
  let buf := buf ++ put64 addedOn in
  Ok buf.

(** ** The stored form as a specification *)

Record legacy := Legacy {
  lg_key : bytes; lg_value : bytes; lg_flags : byte;
  lg_category : bytes; lg_provider : bytes; lg_status : bytes; lg_name : bytes;
  lg_total : Z; lg_protocol : bytes; lg_added : Z
}.

Definition lg_field (text : bytes) : bytes := put16 (len text) ++ text.

(** Versions 1 and 2 end after the total size. *)
Definition lg_tail (version : Z) (g : legacy) : bytes :=
  if 3 <=? version then lg_field (lg_protocol g) ++ put64 (lg_added g) else [].

Definition lg_record (version : Z) (g : legacy) : bytes :=
  put32 (len (lg_key g)) ++ lg_key g ++ put32 (len (lg_value g)) ++ lg_value g ++
  [lg_flags g] ++ lg_field (lg_category g) ++ lg_field (lg_provider g) ++
  lg_field (lg_status g) ++ lg_field (lg_name g) ++ put64 (lg_total g) ++
  lg_tail version g.

Definition lg_ok (g : legacy) : Prop :=
  len (lg_key g) ≤ maxKeySize ∧ len (lg_value g) ≤ maxValueSize ∧
  Forall (λ t, len t ≤ 65535)
    [lg_category g; lg_provider g; lg_status g; lg_name g; lg_protocol g] ∧
  - 2 ^ 63 ≤ lg_total g < 2 ^ 63 ∧ - 2 ^ 63 ≤ lg_added g < 2 ^ 63.

Definition lg_attributes (version : Z) (g : legacy) : attrs :=
  let attributes :=
    <[legacyCategoryAttribute := lg_category g]>
    (<[legacyProviderAttribute := lg_provider g]>
    (<[legacyStatusAttribute := lg_status g]>
    (<[legacyNameAttribute := lg_name g]>
    (<[legacyTotalSizeAttribute := FormatInt (lg_total g)]> ∅)))) in
  if 3 <=? version then
    <[legacyAddedOnAttribute := FormatInt (lg_added g)]>
    (<[legacyBadAttribute := FormatBool (Z.testbit (byte.unsigned (lg_flags g)) 1)]>
    (<[legacyProtocolAttribute := lg_protocol g]> attributes))
  else attributes.

Definition lg_scanned (pos version : Z) (g : legacy) : logRecord :=
  {| rKey := lg_key g;
     rOffset := pos + 8 + len (lg_key g);
     rSize := len (lg_value g);
     rRecordOffset := pos;
     rStoredSize := len (lg_record version g);
     rDeleted := Z.testbit (byte.unsigned (lg_flags g)) 0;
     rAttributes := lg_attributes version g |}.

(** ** Lemmas *)

Lemma readU32_ok z d t pos :
  0 ≤ z < 2 ^ 32 → readU32 pos (Reader (put32 z ++ d) t) = (Ok (z, pos + 4), Reader d t).
Proof.
  intros Hz. unfold readU32.
  rewrite (M_bind_run _ _ _ _ _ (io_ReadFull_app 4 (put32 z) _ _ ltac:(len_lia))).
  by rewrite (M_bind_lift _ _ _ _ (Uint32_put_only z Hz)).
Qed.

Lemma readU64_ok z d t pos :
  - 2 ^ 63 ≤ z < 2 ^ 63 →
  readU64 pos (Reader (put64 z ++ d) t) = (Ok (z, pos + 8), Reader d t).
Proof.
  intros Hz. unfold readU64.
  rewrite (M_bind_run _ _ _ _ _ (io_ReadFull_app 8 (put64 z) _ _ ltac:(len_lia))).
  unfold mret, M_ret. by rewrite int64_get_put64.
Qed.

Lemma readString_ok s d t pos n :
  n = len s → readString n pos (Reader (s ++ d) t) = (Ok (s, pos + len s), Reader d t).
Proof.
  intros ->. unfold readString.
  by rewrite (M_bind_run _ _ _ _ _ (io_ReadFull_app _ s _ _ eq_refl)).
Qed.

Lemma readField_ok s d t pos :
  len s ≤ 65535 →
  readField pos (Reader (lg_field s ++ d) t) = (Ok (s, pos + 2 + len s), Reader d t).
Proof.
  intros Hs. unfold readField, readU16, lg_field. rewrite <- app_assoc.
  assert (io_ReadFull 2 (Reader (put16 (len s) ++ s ++ d) t) =
    (Ok (put16 (len s)), Reader (s ++ d) t)) as E by (apply io_ReadFull_app; len_lia).
  pose proof (Uint16_put (len s) [] ltac:(lia)) as E2. rewrite app_nil_r in E2.
  unfold mbind, M_bind. rewrite E. unfold lift. rewrite E2. cbn. by apply readString_ok.
Qed.

Lemma length_lg_field s : len (lg_field s) = 2 + len s.
Proof. unfold lg_field. len_lia. Qed.

Lemma length_lg_record version g :
  len (lg_record version g) =
  4 + len (lg_key g) + 4 + len (lg_value g) + 1 + (2 + len (lg_category g)) +
  (2 + len (lg_provider g)) + (2 + len (lg_status g)) + (2 + len (lg_name g)) + 8 +
  (if 3 <=? version then 2 + len (lg_protocol g) + 8 else 0).
Proof.
  unfold lg_record, lg_tail, lg_field. destruct (3 <=? version); simp_len; simpl; lia.
Qed.

Lemma readLegacyRecordFrom_ok pos version g d t :
  lg_ok g →
  readLegacyRecordFrom pos version (Reader (lg_record version g ++ d) t) =
  (Ok (lg_scanned pos version g, pos + len (lg_record version g)), Reader d t).
Proof.
  intros (Hk & Hv & Hf & Ht & Ha). rewrite !Forall_cons in Hf.
  destruct Hf as (Hf1 & Hf2 & Hf3 & Hf4 & Hf5 & _).
  pose proof (length_lg_record version g) as Hlen.
  unfold readLegacyRecordFrom. unfold lg_record at 1. rewrite <- !app_assoc.
  rewrite (M_bind_run _ _ _ _ _ (readU32_ok (len (lg_key g)) _ _ _ ltac:(zlia))).
  zcase_one; [exfalso; zlia|].
  rewrite (M_bind_run _ _ _ _ _ (readString_ok (lg_key g) _ _ _ _ eq_refl)).
  rewrite (M_bind_run _ _ _ _ _ (readU32_ok (len (lg_value g)) _ _ _ ltac:(zlia))).
  zcase_one; [exfalso; zlia|].
  rewrite (M_bind_run _ _ _ _ _ (io_Discard_app _ (lg_value g) _ _ eq_refl)).
  rewrite (M_bind_run _ _ _ _ _ (io_ReadFull_app 1 [lg_flags g] _ _ eq_refl)).
  rewrite (M_bind_lift _ _ _ (lg_flags g) eq_refl).
  rewrite (M_bind_run _ _ _ _ _ (readField_ok (lg_category g) _ _ _ Hf1)).
  rewrite (M_bind_run _ _ _ _ _ (readField_ok (lg_provider g) _ _ _ Hf2)).
  rewrite (M_bind_run _ _ _ _ _ (readField_ok (lg_status g) _ _ _ Hf3)).
  rewrite (M_bind_run _ _ _ _ _ (readField_ok (lg_name g) _ _ _ Hf4)).
  rewrite (M_bind_run _ _ _ _ _ (readU64_ok (lg_total g) _ _ _ Ht)).
  unfold lg_scanned, lg_attributes, lg_tail. destruct (3 <=? version) eqn:Hver.
  - rewrite <- app_assoc. unfold mbind at 1, M_bind.
    rewrite (M_bind_run _ _ _ _ _ (readField_ok (lg_protocol g) _ _ _ Hf5)).
    rewrite (M_bind_run _ _ _ _ _ (readU64_ok (lg_added g) _ _ _ Ha)).
    unfold mret, M_ret. rewrite int32_small by zlia.
    match goal with |- (Ok (?a, ?p), _) = (Ok (?b, ?q), _) =>
      assert (a = b) as -> by (f_equal; lia); by replace p with q by lia end.
  - rewrite app_nil_l. unfold mbind at 1, M_bind, mret, M_ret. rewrite int32_small by zlia.
    match goal with |- (Ok (?a, ?p), _) = (Ok (?b, ?q), _) =>
      assert (a = b) as -> by (f_equal; lia); by replace p with q by lia end.
Qed.

(** ** Downgrading *)

(** What a successful encoding has written. *)
Lemma ParseInt_range s z : ParseInt s = Ok z → - 2 ^ 63 ≤ z < 2 ^ 63.
Proof.
  assert (∀ s n z, parse_digits s n = Ok z → 0 ≤ n → 0 ≤ z) as Hpos.
  { clear. induction s as [|c s IH]; intros n z; simpl; [by intros [= ->]|].
    destruct (Z.leb_spec 48 (byte.unsigned c)); [|done].
    destruct (byte.unsigned c <=? 57); [|done]. simpl.
    destruct (_ <=? n); [done|]. destruct (_ <? _); [done|]. intros H0 Hn. apply IH in H0; lia. }
  destruct s as [|c s]; [done|]. unfold ParseInt.
  destruct (if bool_decide (c = Byte.x2b) then _ else _) as [neg s'].
  intros (un & Hun & Hr)%bind_Ok. unfold ParseUint in Hun.
  case_bool_decide; [done|]. apply Hpos in Hun; [|lia].
  destruct neg; cbn [negb andb] in Hr;
    [destruct (Z.ltb_spec (2 ^ 63) un)|destruct (Z.leb_spec (2 ^ 63) un)]; try done;
    injection Hr as <-; lia.
Qed.

Lemma v3Number_range m name z : v3Number m name = Ok z → - 2 ^ 63 ≤ z < 2 ^ 63.
Proof.
  unfold v3Number. case_bool_decide; [intros [= <-]; lia|].
  destruct (ParseInt (attribute m name)) eqn:E; try done.
  intros [= <-]. by eapply ParseInt_range.
Qed.

Definition v3Flag (m : attrs) : res bool :=
  let raw := attribute m legacyBadAttribute in
  if bool_decide (raw = []) then Ok false else ParseBool raw.

(** What a version 3 record has room for. *)
Definition fits_v3 (ext : bytes) (m : attrs) : Prop :=
  ext = [] ∧ (∀ k v, m !! k = Some v → k ∈ v3Fields) ∧
  Forall (λ name, len (attribute m name) ≤ 65535) v3StringFields ∧
  Forall (λ name, attribute m name = [] ∨ ∃ z, ParseInt (attribute m name) = Ok z)
    [legacyTotalSizeAttribute; legacyAddedOnAttribute] ∧
  (attribute m legacyBadAttribute = [] ∨
   ∃ b, ParseBool (attribute m legacyBadAttribute) = Ok b).

Lemma v3Number_accepts m name :
  (∃ z, v3Number m name = Ok z) ↔
  attribute m name = [] ∨ ∃ z, ParseInt (attribute m name) = Ok z.
Proof.
  unfold v3Number. case_bool_decide as Hr; [naive_solver|].
  destruct (ParseInt (attribute m name)); naive_solver.
Qed.

(** [encodeV3Record] accepts exactly the records a version 3 log has room for. *)
Lemma encodeV3Record_accepts `{!MapRange} key value ext m :
  (∃ b, encodeV3Record key value ext m = Ok b) ↔ fits_v3 ext m.
Proof.
  unfold encodeV3Record, fits_v3. split.
  - intros [b Henc]. destruct (Z.ltb_spec 0 (len ext)) as [|Hext]; [done|].
    destruct (existsb _ (range m)) eqn:Hfields; [done|].
    destruct (existsb _ v3StringFields) eqn:Hstr; [done|].
    apply bind_Ok in Henc as (total & Ht & Henc). apply bind_Ok in Henc as (added & Ha & Henc).
    apply bind_Ok in Henc as (flags & Hfl & _).
    rewrite <- not_true_iff_false, existsb_exists in Hfields, Hstr.
    split_and!; [by destruct ext; [|simpl in Hext; lia]| | | |].
    + intros k v Hkv. destruct (decide (k ∈ v3Fields)); [done|]. exfalso. apply Hfields.
      exists (k, v). split; [by apply list_elem_of_In, elem_of_range|].
      by apply bool_decide_eq_true_2.
    + apply Forall_forall. intros name Hname.
      destruct (Z.le_gt_cases (len (attribute m name)) 65535); [done|]. exfalso. apply Hstr.
      exists name. split; [by apply list_elem_of_In|]. zcase; done.
    + apply Forall_cons. split; [|apply Forall_singleton]; apply v3Number_accepts; eauto.
    + case_bool_decide; [by left|]. right. destruct (ParseBool _); naive_solver.
  - intros (-> & Hfields & Hstr & Hnum & Hbad). change (0 <? len []) with false. cbv iota.
    rewrite !Forall_cons in Hnum. destruct Hnum as (Ht & Ha & _).
    apply v3Number_accepts in Ht as [total ->], Ha as [added ->].
    destruct (existsb _ (range m)) eqn:Hf.
    { apply existsb_exists in Hf as ([k v] & Hin%list_elem_of_In%elem_of_range & Hb).
      apply bool_decide_eq_true_1 in Hb. by destruct (Hb (Hfields k v Hin)). }
    destruct (existsb _ v3StringFields) eqn:Hs.
    { apply existsb_exists in Hs as (name & Hin%list_elem_of_In & Hb).
      rewrite Forall_forall in Hstr. specialize (Hstr name Hin). revert Hb. zcase; try done; lia. }
    cbn [mbind res_bind]. case_bool_decide; [by eexists|].
    destruct Hbad as [|[b ->]]; [done|]. by eexists.
Qed.

Lemma encodeV3Record_inv `{!MapRange} key value ext m b :
  encodeV3Record key value ext m = Ok b → len key ≤ maxKeySize → len value ≤ maxValueSize →
  ∃ total added bad,
    v3Number m legacyTotalSizeAttribute = Ok total ∧
    v3Number m legacyAddedOnAttribute = Ok added ∧
    v3Flag m = Ok bad ∧ ext = [] ∧ (∀ k v, m !! k = Some v → k ∈ v3Fields) ∧
    let g := Legacy key value (if bad then Byte.x02 else Byte.x00)
      (attribute m legacyCategoryAttribute) (attribute m legacyProviderAttribute)
      (attribute m legacyStatusAttribute) (attribute m legacyNameAttribute)
      total (attribute m legacyProtocolAttribute) added in
    lg_ok g ∧ b = lg_record 3 g.
Proof.
  intros Henc Hk Hv.
  destruct (proj1 (encodeV3Record_accepts key value ext m)) as (Hext & Hfields & Hall & _);
    [by exists b|]. unfold encodeV3Record in Henc. do 3 (case_match; [done|]).
  apply bind_Ok in Henc as (total & Ht & Henc). apply bind_Ok in Henc as (added & Ha & Henc).
  apply bind_Ok in Henc as (flags & Hflags & Henc). injection Henc as <-.
  assert (∃ bad, v3Flag m = Ok bad ∧ byte.of_Z flags = if bad then Byte.x02 else Byte.x00)
    as (bad & Hbad & Hfl).
  { unfold v3Flag. case_bool_decide; [injection Hflags as <-; by exists false|].
    destruct (ParseBool (attribute m legacyBadAttribute)) as [[]| | |]; try done;
      injection Hflags as <-; [by exists true|by exists false]. }
  exists total, added, bad.
  unfold v3StringFields in Hall. rewrite !Forall_cons in Hall.
  destruct Hall as (? & ? & ? & ? & ? & _).
  split_and!; [done..|].
  cbv zeta. split.
  - split_and!; simpl; try done; [by repeat constructor|by eapply v3Number_range..].
  - unfold lg_record, lg_tail, lg_field, appendField. simpl.
    rewrite Hfl, !uint32_small, !uint16_small by zlia. by rewrite <- !app_assoc.
Qed.

(** The attributes a version 3 log comes back with. *)
Lemma lg_attribute_lookup g name :
  lg_attributes 3 g !! name =
  if decide (name = legacyAddedOnAttribute) then Some (FormatInt (lg_added g))
  else if decide (name = legacyBadAttribute)
    then Some (FormatBool (Z.testbit (byte.unsigned (lg_flags g)) 1))
  else if decide (name = legacyProtocolAttribute) then Some (lg_protocol g)
  else if decide (name = legacyCategoryAttribute) then Some (lg_category g)
  else if decide (name = legacyProviderAttribute) then Some (lg_provider g)
  else if decide (name = legacyStatusAttribute) then Some (lg_status g)
  else if decide (name = legacyNameAttribute) then Some (lg_name g)
  else if decide (name = legacyTotalSizeAttribute) then Some (FormatInt (lg_total g))
  else None.
Proof.
  unfold lg_attributes. simpl. rewrite !lookup_insert, lookup_empty.
  repeat (match goal with |- context [decide (?a = ?b)] => destruct (decide (a = b)) end;
    subst; try congruence; try done).
Qed.

Ltac lg_lookup :=
  unfold attribute; rewrite lg_attribute_lookup;
  repeat first [rewrite decide_True by done | rewrite decide_False by done];
  reflexivity.

(** Downgrading what migration read from a version 3 record gives the record
    back, byte for byte. *)
Lemma encodeV3Record_legacy `{!MapRange} g :
  lg_ok g → lg_flags g = Byte.x00 ∨ lg_flags g = Byte.x02 →
  encodeV3Record (lg_key g) (lg_value g) [] (lg_attributes 3 g) = Ok (lg_record 3 g).
Proof.
  intros (Hk & Hv & Hf & Ht & Ha) Hfl. rewrite !Forall_cons in Hf.
  destruct Hf as (Hf1 & Hf2 & Hf3 & Hf4 & Hf5 & _).
  assert (attribute (lg_attributes 3 g) legacyCategoryAttribute = lg_category g) as E1 by lg_lookup.
  assert (attribute (lg_attributes 3 g) legacyProviderAttribute = lg_provider g) as E2 by lg_lookup.
  assert (attribute (lg_attributes 3 g) legacyStatusAttribute = lg_status g) as E3 by lg_lookup.
  assert (attribute (lg_attributes 3 g) legacyNameAttribute = lg_name g) as E4 by lg_lookup.
  assert (attribute (lg_attributes 3 g) legacyProtocolAttribute = lg_protocol g) as E5 by lg_lookup.
  assert (attribute (lg_attributes 3 g) legacyTotalSizeAttribute = FormatInt (lg_total g))
    as E6 by lg_lookup.
  assert (attribute (lg_attributes 3 g) legacyAddedOnAttribute = FormatInt (lg_added g))
    as E7 by lg_lookup.
  assert (attribute (lg_attributes 3 g) legacyBadAttribute =
    FormatBool (Z.testbit (byte.unsigned (lg_flags g)) 1)) as E8 by lg_lookup.
  unfold encodeV3Record. zcase_one; [simpl in *; lia|].
  destruct (existsb _ (range _)) eqn:Hfields.
  { exfalso. apply existsb_exists in Hfields as ([k v] & Hin & Hk').
    apply list_elem_of_In, elem_of_range in Hin. apply bool_decide_eq_true_1 in Hk'.
    rewrite lg_attribute_lookup in Hin. apply Hk'. unfold v3Fields. simpl fst.
    rewrite !elem_of_cons. repeat (case_decide; [tauto|]). done. }
  unfold v3StringFields. cbn [existsb]. rewrite E1, E2, E3, E4, E5. zcase.
  unfold v3Number. rewrite E6, E7, E8.
  rewrite !bool_decide_eq_false_2 by (apply FormatInt_nonempty || apply FormatBool_nonempty).
  rewrite !ParseInt_FormatInt, ParseBool_FormatBool by done. cbn [mbind res_bind].
  f_equal. unfold lg_record, lg_tail, lg_field, appendField.
  rewrite !uint32_small, !uint16_small by zlia. cbn [Z.leb Z.compare Pos.compare Pos.compare_cont].
  assert (byte.of_Z (if Z.testbit (byte.unsigned (lg_flags g)) 1 then 2 else 0) = lg_flags g)
    as -> by (by destruct Hfl as [-> | ->]).
  by rewrite <- !app_assoc.
Qed.

(** ** Torn legacy records *)

Lemma streaming_pair_bind {A B C} (m : M reader (A * B)) (f : A → B → M reader C) :
  streaming m → (∀ a b, streaming (f a b)) → streaming (m ≫= λ '(a, b), f a b).
Proof. intros. apply streaming_bind; [done|]. intros [a b]. auto. Qed.

(** A parser whose numeric result is never negative. *)
Definition nonneg_result {B} (m : M reader (Z * B)) : Prop :=
  ∀ r z b r', m r = (Ok (z, b), r') → 0 ≤ z.

Lemma streaming_nonneg_bind {B C} (m : M reader (Z * B)) (f : Z → B → M reader C) :
  streaming m → nonneg_result m → (∀ z b, 0 ≤ z → streaming (f z b)) →
  streaming (m ≫= λ '(z, b), f z b).
Proof.
  intros Hm Hnn Hf d x t t'. specialize (Hm d x t t'). unfold mbind, M_bind.
  destruct (m (Reader d t)) as [[[z b]|e| |] r] eqn:Hrun.
  - destruct Hm as (d' & -> & ->). apply Hf. by eapply Hnn.
  - destruct Hm as [|Hm]; [by left|]. right.
    by destruct (m (Reader (d ++ x) t')) as [[]]; simplify_eq/=.
  - by destruct (m (Reader (d ++ x) t')) as [[]]; simplify_eq/=.
  - by destruct (m (Reader (d ++ x) t')) as [[]]; simplify_eq/=.
Qed.

Lemma readU32_nonneg pos : nonneg_result (readU32 pos).
Proof.
  intros r z b r' (f & r1 & _ & H)%M_bind_inv.
  apply lift_bind_inv in H as (v & [_ ->]%Uint32_inv & [= <- _ _]). apply le_combine_range.
Qed.

Lemma readU16_nonneg pos : nonneg_result (readU16 pos).
Proof.
  intros r z b r' (f & r1 & _ & H)%M_bind_inv.
  apply lift_bind_inv in H as (v & Hv & [= <- _ _]).
  unfold Uint16 in Hv. case_match; simplify_eq. apply le_combine_range.
Qed.

Lemma streaming_readU32 pos : streaming (readU32 pos).
Proof. unfold readU32. eauto 10 with streaming lia. Qed.
Lemma streaming_readU16 pos : streaming (readU16 pos).
Proof. unfold readU16. eauto 10 with streaming lia. Qed.
Lemma streaming_readU64 pos : streaming (readU64 pos).
Proof. unfold readU64. eauto 10 with streaming lia. Qed.
Lemma streaming_readString n pos : 0 ≤ n → streaming (readString n pos).
Proof. unfold readString. eauto 10 with streaming. Qed.
Lemma streaming_readField pos : streaming (readField pos).
Proof.
  apply streaming_nonneg_bind; [apply streaming_readU16|apply readU16_nonneg|].
  intros. by apply streaming_readString.
Qed.
#[export] Hint Resolve streaming_readU32 streaming_readU16 streaming_readU64
  streaming_readString streaming_readField : streaming.

Lemma streaming_readLegacyRecordFrom pos version : streaming (readLegacyRecordFrom pos version).
Proof.
  unfold readLegacyRecordFrom.
  apply streaming_nonneg_bind; [auto with streaming|apply readU32_nonneg|]. intros kl p1 Hkl.
  case_match; [apply streaming_throw|].
  apply streaming_pair_bind; [auto with streaming|]. intros key p2.
  apply streaming_nonneg_bind; [auto with streaming|apply readU32_nonneg|]. intros vl p3 Hvl.
  case_match; [apply streaming_throw|].
  apply streaming_bind; [auto with streaming|]. intros [].
  apply streaming_bind; [apply streaming_ReadFull; lia|]. intros f.
  apply streaming_bind; [apply streaming_lift|]. intros fl.
  do 4 (apply streaming_pair_bind; [auto with streaming|]; intros ??).
  apply streaming_pair_bind; [auto with streaming|]. intros total p8.
  apply streaming_pair_bind; [|intros; apply streaming_ret].
  case_match; [|apply streaming_ret].
  do 2 (apply streaming_pair_bind; [auto with streaming|]; intros ??). apply streaming_ret.
Qed.

(** ** Scanning never panics, and always makes progress *)

(** Runs without a panic, and on success moves the position forward by what
    [n] says. *)
Definition steps_from {A} (pos n : Z) (m : M reader (A * Z)) : Prop :=
  ∀ rd, match m rd with
        | (Ok (_, pos'), _) => pos + n ≤ pos'
        | (Err _, _) => True
        | _ => False
        end.

Lemma steps_bind {A B} pos n n' (m : M reader (A * Z)) (f : A → Z → M reader (B * Z)) :
  steps_from pos n m → (∀ a pos', pos + n ≤ pos' → steps_from pos' n' (f a pos')) →
  steps_from pos (n + n') (m ≫= λ '(a, pos), f a pos).
Proof.
  intros Hm Hf rd. specialize (Hm rd). unfold mbind, M_bind.
  destruct (m rd) as [[[a pos']| | |] rd1]; try done.
  specialize (Hf a pos' Hm rd1). destruct (f a pos' rd1) as [[[b q]| | |] rd2]; try done. lia.
Qed.

Lemma steps_throw {A} pos n e : steps_from (A:=A) pos n (throw e).
Proof. by intros rd. Qed.

Lemma steps_ReadFull {B} pos n (f : bytes → M reader (B * Z)) k :
  0 ≤ n → (∀ b, len b = n → steps_from pos k (f b)) → steps_from pos k (io_ReadFull n ≫= f).
Proof.
  intros Hn Hf rd. unfold mbind, M_bind. destruct (io_ReadFull n rd) as [[b|e| |] rd'] eqn:E.
  - apply io_ReadFull_inv in E as (Hl & _); [|done]. by apply Hf.
  - done.
  - unfold io_ReadFull in E. by case_match.
  - unfold io_ReadFull in E. by case_match.
Qed.

Lemma steps_mono {A} pos n pos' n' (m : M reader (A * Z)) :
  steps_from pos n m → pos' + n' ≤ pos + n → steps_from pos' n' m.
Proof.
  intros Hm Hle rd. specialize (Hm rd). destruct (m rd) as [[[a q]| | |] rd']; try done. lia.
Qed.

Lemma steps_ret {A} pos n (a : A) pos' : pos + n ≤ pos' → steps_from pos n (mret (a, pos')).
Proof. by intros Hle rd. Qed.

Lemma steps_readU32 pos : steps_from pos 4 (readU32 pos).
Proof.
  apply steps_ReadFull; [lia|]. intros b Hb. rewrite Uint32_ok by lia.
  by apply steps_ret.
Qed.

Lemma steps_readU16 pos : steps_from pos 2 (readU16 pos).
Proof.
  apply steps_ReadFull; [lia|]. intros b Hb. rewrite Uint16_ok by lia.
  by apply steps_ret.
Qed.

Lemma steps_nonneg_bind {B} pos n n' (m : M reader (Z * Z)) (f : Z → Z → M reader (B * Z)) :
  steps_from pos n m → nonneg_result m →
  (∀ z pos', 0 ≤ z → pos + n ≤ pos' → steps_from pos' n' (f z pos')) →
  steps_from pos (n + n') (m ≫= λ '(z, pos), f z pos).
Proof.
  intros Hm Hnn Hf rd. specialize (Hm rd). unfold mbind, M_bind.
  destruct (m rd) as [[[a pos']| | |] rd1] eqn:E; try done.
  specialize (Hf a pos' (Hnn _ _ _ _ E) Hm rd1).
  destruct (f a pos' rd1) as [[[b q]| | |] rd2]; try done. lia.
Qed.

Lemma steps_readU64 pos : steps_from pos 0 (readU64 pos).
Proof. apply steps_ReadFull; [lia|]. intros. apply steps_ret. lia. Qed.

Lemma steps_readString n pos : 0 ≤ n → steps_from pos 0 (readString n pos).
Proof. intros. apply steps_ReadFull; [lia|]. intros. apply steps_ret. lia. Qed.

Lemma steps_readField pos : steps_from pos 0 (readField pos).
Proof.
  apply (steps_mono pos (2 + 0)); [|lia].
  apply steps_nonneg_bind; [apply steps_readU16|apply readU16_nonneg|].
  intros. by apply steps_readString.
Qed.

Lemma steps_Discard {B} pos n k (f : M reader (B * Z)) :
  steps_from pos k f → steps_from pos k (io_Discard n;; f).
Proof.
  intros Hf rd. unfold mbind, M_bind, io_Discard. zcase_one; [|done].
  apply Hf.
Qed.

Lemma steps_bind0 {A B} pos (m : M reader (A * Z)) (f : A → Z → M reader (B * Z)) :
  steps_from pos 0 m → (∀ a pos', steps_from pos' 0 (f a pos')) →
  steps_from pos 0 (m ≫= λ '(a, pos), f a pos).
Proof. intros. apply (steps_bind pos 0 0); auto. Qed.

Lemma steps_lift {A B} pos k (a : A) (f : A → M reader (B * Z)) :
  steps_from pos k (f a) → steps_from pos k (lift (Ok a) ≫= f).
Proof. done. Qed.

(** A legacy record takes at least the four bytes of its key length. *)
Lemma readLegacyRecordFrom_steps pos version :
  steps_from pos 4 (readLegacyRecordFrom pos version).
Proof.
  unfold readLegacyRecordFrom. change 4 with (4 + 0).
  apply steps_nonneg_bind; [apply steps_readU32|apply readU32_nonneg|]. intros kl p1 Hk _.
  case_match; [apply steps_throw|].
  apply steps_bind0; [by apply steps_readString|]. intros key p2.
  apply (steps_mono p2 (4 + 0)); [|lia].
  apply steps_nonneg_bind; [apply steps_readU32|apply readU32_nonneg|]. intros vl p3 Hv _.
  case_match; [apply steps_throw|]. apply steps_Discard, steps_ReadFull; [lia|].
  intros [|fl f] Hf; [done|].
  change (go_index 0 (fl :: f)) with (@Ok byte fl). apply steps_lift.
  apply (steps_mono (p3 + vl + 1) 0); [|lia].
  do 4 (apply steps_bind0; [apply steps_readField|]; intros).
  apply steps_bind0; [apply steps_readU64|]. intros total p8.
  apply steps_bind0; [|intros; apply steps_ret; lia].
  case_match; [|apply steps_ret; lia].
  apply steps_bind0; [apply steps_readField|]. intros proto p9.
  apply steps_bind0; [apply steps_readU64|]. intros added p10. apply steps_ret. lia.
Qed.
