(* ===== verification/FileSystem.v ===== *)
(** * The file system, with failures

    The system calls the program makes through package os, on a map from path
    to contents.  Every call first consults a fault schedule: it may succeed,
    return an operating-system error, or never return because the process
    dies; a write may have stored a prefix of its data in the last two cases.
    The empty schedule is a run without failures, and quantifying over the
    schedule covers every failure and every crash point.

    Handles are named by path: the program never renames or removes a file it
    holds open.  Permissions and timestamps are not modelled. *)

From S2P Require Import Prelude Go Reader.

(** ** The world *)

Inductive fault :=
| Pass
| FailIO (written : nat)   (** an error, after [written] bytes of a write *)
| DieIO (written : nat).   (** the process dies, after [written] bytes of a write *)

Record world := World { files : gmap bytes bytes; sched : list fault }.

Definition EIO : error := Sentinel (ErrOS 5).

Definition set_file (p c : bytes) (w : world) : world :=
  World (<[p := c]> (files w)) (sched w).

(** A system call: [partial n] is what a failed or interrupted call leaves
    behind, [call] is the call itself. *)
Definition sys {A} (partial : nat → world → world) (call : M world A) : M world A := λ w,
  match sched w with
  | [] => call w
  | Pass :: s => call (World (files w) s)
  | FailIO n :: s => (Err EIO, partial n (World (files w) s))
  | DieIO n :: s => (Crash, partial n (World (files w) s))
  end.

Definition sys_atomic {A} (call : M world A) : M world A := sys (λ _ w, w) call.

(** ** Paths *)

(** [os.Stat], for its error and the file size. *)
Definition os_Stat (p : bytes) : M world Z :=
  sys_atomic (λ w, match files w !! p with
                   | Some c => (Ok (len c), w)
                   | None => (Err (Sentinel ErrNotExist), w)
                   end).

Definition os_Remove (p : bytes) : M world unit :=
  sys_atomic (λ w, match files w !! p with
                   | Some _ => (Ok tt, World (delete p (files w)) (sched w))
                   | None => (Err (Sentinel ErrNotExist), w)
                   end).

Definition os_Rename (p q : bytes) : M world unit :=
  sys_atomic (λ w, match files w !! p with
                   | Some c => (Ok tt, World (<[q := c]> (delete p (files w))) (sched w))
                   | None => (Err (Sentinel ErrNotExist), w)
                   end).

(** [os.OpenFile(p, os.O_RDWR|os.O_CREATE, ...)] *)
Definition os_OpenCreate (p : bytes) : M world unit :=
  sys_atomic (λ w, match files w !! p with
                   | Some _ => (Ok tt, w)
                   | None => (Ok tt, set_file p [] w)
                   end).

(** [os.OpenFile(p, ...|os.O_CREATE|os.O_TRUNC, ...)] *)
Definition os_OpenTrunc (p : bytes) : M world unit :=
  sys_atomic (λ w, (Ok tt, set_file p [] w)).

(** [os.Open(p)] *)
Definition os_Open (p : bytes) : M world unit :=
  sys_atomic (λ w, match files w !! p with
                   | Some _ => (Ok tt, w)
                   | None => (Err (Sentinel ErrNotExist), w)
                   end).

(** Opening, syncing and closing the parent directory. *)
Definition dir_Sync (p : bytes) : M world unit := sys_atomic (λ w, (Ok tt, w)).

(** ** Open files *)

Definition content (p : bytes) (w : world) : bytes := default [] (files w !! p).

(** Overwrite from [off]; a hole before [off] reads as zeros. *)
Definition write_bytes (off : Z) (b c : bytes) : bytes :=
  take (Z.to_nat off) (c ++ replicate (Z.to_nat off - length c) Byte.x00) ++ b ++
  drop (Z.to_nat off + length b) c.

Definition f_WriteAt (p : bytes) (off : Z) (b : bytes) : M world unit :=
  sys (λ n w, set_file p (write_bytes off (take n b) (content p w)) w)
      (λ w, (Ok tt, set_file p (write_bytes off b (content p w)) w)).

(** [file.ReadAt]: all of the buffer or an error. *)
Definition f_ReadAt (p : bytes) (off n : Z) : M world bytes :=
  sys_atomic (λ w,
    if off <? 0 then (Err (Errorf "negative offset" []), w)
    else if (n =? 0) || (off + n <=? len (content p w)) then
      (Ok (slice off (off + n) (content p w)), w)
    else (Err (Sentinel EOF), w)).

Definition f_Stat (p : bytes) : M world Z := sys_atomic (λ w, (Ok (len (content p w)), w)).

Definition f_Truncate (p : bytes) (n : Z) : M world unit :=
  sys_atomic (λ w,
    (Ok tt, set_file p (take (Z.to_nat n)
       (content p w ++ replicate (Z.to_nat n - length (content p w)) Byte.x00)) w)).

Definition f_Seek (p : bytes) (off : Z) : M world unit := sys_atomic (λ w, (Ok tt, w)).
Definition f_Sync (p : bytes) : M world unit := sys_atomic (λ w, (Ok tt, w)).
Definition f_Close (p : bytes) : M world unit := sys_atomic (λ w, (Ok tt, w)).
Definition f_Mmap (p : bytes) (n : Z) : M world unit := sys_atomic (λ w, (Ok tt, w)).

(** Buffered reading from [off] on. A read error truncates the stream. *)
Definition f_Stream (p : bytes) (off : Z) : M world reader := λ w,
  let d := drop (Z.to_nat off) (content p w) in
  match sched w with
  | [] => (Ok (Reader d (Sentinel EOF)), w)
  | Pass :: s => (Ok (Reader d (Sentinel EOF)), World (files w) s)
  | FailIO n :: s => (Ok (Reader (take n d) EIO), World (files w) s)
  | DieIO _ :: s => (Crash, World (files w) s)
  end.

(** [io.Copy(out, in)] between two open files. *)
Definition io_Copy (out inp : bytes) : M world unit :=
  sys (λ n w, set_file out (take n (content inp w)) w)
      (λ w, (Ok tt, set_file out (content inp w) w)).

(** ** log.go: existence tests and removal *)

Definition fileExists (path : bytes) : M world bool :=
  r ← attempt (os_Stat path);
  match r with
  | inr _ => mret true
  | inl e => if errors_Is e ErrNotExist then mret false else throw (Errorf "stat" [e])
  end.

Definition removeIfExists (path : bytes) : M world unit :=
  r ← attempt (os_Remove path);
  match r with
  | inr _ => mret tt
  | inl e => if errors_Is e ErrNotExist then mret tt else throw (Errorf "remove" [e])
  end.

(** dirsync_other.go *)
Definition syncParentDirectory (path : bytes) : M world unit := dir_Sync path.

(** [m] with [cleanup] before an error is passed on. *)
Definition on_err {S A B} (m : M S A) (cleanup : M S B) : M S A :=
  r ← attempt m;
  match r with
  | inr a => mret a
  | inl e => cleanup;; throw e
  end.

(** ** Rules for the system calls

    [faults w] counts the failures still to come.  No call adds one, and a
    call that fails or kills the process has used one up; the rules carry both
    facts, so that one proof covers the run without failures, the run with a
    single failure, and every other run. *)

Definition is_fault (f : fault) : bool := match f with Pass => false | _ => true end.

Definition faults (w : world) : nat := length (filter (λ f, is_fault f = true) (sched w)).

Lemma faults_cons f fs fs' s :
  faults (World fs (f :: s)) = ((if is_fault f then 1 else 0) + faults (World fs' s))%nat.
Proof. unfold faults. simpl. by destruct f. Qed.

(** No failure is scheduled. *)
Definition clean (w : world) : Prop := faults w = 0%nat.

(** [w'] is later than [w] in the same run; something failed in between. *)
Abbreviation later w w' := (faults w' ≤ faults w)%nat.
Abbreviation failed w w' := (faults w' < faults w)%nat.

(** [w'] is later than [w], with the files [fs]; or [w] failed on the way. *)
Definition becomes (w : world) (fs : gmap bytes bytes) (w' : world) : Prop :=
  files w' = fs ∧ later w w'.
Definition fails (w : world) (fs : gmap bytes bytes) (w' : world) : Prop :=
  files w' = fs ∧ failed w w'.

Lemma becomes_refl w : becomes w (files w) w.
Proof. done. Qed.

Lemma fails_becomes w fs w' : fails w fs w' → becomes w fs w'.
Proof. intros [Hf Hl]. split; [done|lia]. Qed.

Lemma becomes_then w fs w1 w2 :
  becomes w fs w1 → becomes w1 (files w1) w2 → becomes w fs w2.
Proof. intros [Hf ?] [? ?]. split; [congruence|lia]. Qed.

Lemma becomes_fails w fs w1 w2 :
  becomes w fs w1 → fails w1 (files w1) w2 → fails w fs w2.
Proof. intros [Hf ?] [? ?]. split; [congruence|lia]. Qed.

Lemma fails_then w fs w1 w2 :
  fails w fs w1 → becomes w1 (files w1) w2 → fails w fs w2.
Proof. intros [Hf ?] [? ?]. split; [congruence|lia]. Qed.

#[export] Hint Resolve becomes_refl : core.
Create HintDb world discriminated.
#[export] Hint Resolve becomes_refl becomes_then becomes_fails fails_then fails_becomes : world.

Lemma wp_sys {A} partial (call : M world A) Q w :
  (∀ w', becomes w (files w) w' → wp call Q w') →
  (∀ n w', fails w (files w) w' → Q (Err EIO) (partial n w') ∧ Q Crash (partial n w')) →
  wp (sys partial call) Q w.
Proof.
  intros Hcall Hfail. unfold wp, sys, becomes, fails in *.
  destruct w as [fs [|[|n|n] s]]; cbn [sched files] in *.
  - by apply Hcall.
  - by apply Hcall.
  - apply (Hfail n (World fs s)). split; [done|]. rewrite (faults_cons _ _ fs). simpl. lia.
  - apply (Hfail n (World fs s)). split; [done|]. rewrite (faults_cons _ _ fs). simpl. lia.
Qed.

Lemma wp_sys_atomic {A} (call : M world A) Q w :
  (∀ w', becomes w (files w) w' → wp call Q w') →
  (∀ w', fails w (files w) w' → Q (Err EIO) w' ∧ Q Crash w') →
  wp (sys_atomic call) Q w.
Proof. intros Hcall Hfail. apply wp_sys; auto. Qed.

Lemma content_files p w w' : files w' = files w → content p w' = content p w.
Proof. unfold content. by intros ->. Qed.

(** Calls that change nothing. *)
Lemma wp_sys_const {A} (a : A) Q w :
  (∀ w', becomes w (files w) w' → Q (Ok a) w') →
  (∀ w', fails w (files w) w' → Q (Err EIO) w' ∧ Q Crash w') →
  wp (sys_atomic (λ w, (Ok a, w))) Q w.
Proof. intros HOk HFail. apply wp_sys_atomic; [|done]. intros w' Hw. by apply HOk. Qed.

Section rules.
Context (p : bytes) (w : world).

Lemma wp_WriteAt off b Q :
  (∀ w', becomes w (<[p := write_bytes off b (content p w)]> (files w)) w' → Q (Ok tt) w') →
  (∀ n w', fails w (<[p := write_bytes off (take n b) (content p w)]> (files w)) w' →
    Q (Err EIO) w' ∧ Q Crash w') →
  wp (f_WriteAt p off b) Q w.
Proof.
  intros HOk HFail. apply wp_sys.
  - intros w' [Hf Hc]. unfold wp. simpl. apply HOk.
    split; [|done]. simpl. by rewrite (content_files _ _ _ Hf), Hf.
  - intros n w' [Hf Hc]. apply (HFail n).
    split; [|done]. simpl. by rewrite (content_files _ _ _ Hf), Hf.
Qed.

Lemma wp_Truncate n Q :
  0 ≤ n ≤ len (content p w) →
  (∀ w', becomes w (<[p := take (Z.to_nat n) (content p w)]> (files w)) w' → Q (Ok tt) w') →
  (∀ w', fails w (files w) w' → Q (Err EIO) w' ∧ Q Crash w') →
  wp (f_Truncate p n) Q w.
Proof.
  intros Hn HOk HFail. apply wp_sys_atomic; [|done].
  intros w' [Hf Hc]. unfold wp. simpl. apply HOk. split; [|done]. simpl.
  rewrite (content_files _ _ _ Hf), Hf. f_equal.
  by rewrite take_app_le by lia.
Qed.

Lemma wp_ReadAt off n Q :
  0 ≤ off → 0 ≤ n → off + n ≤ len (content p w) →
  (∀ w', becomes w (files w) w' → Q (Ok (slice off (off + n) (content p w))) w') →
  (∀ w', fails w (files w) w' → Q (Err EIO) w' ∧ Q Crash w') →
  wp (f_ReadAt p off n) Q w.
Proof.
  intros Hoff Hn Hend HOk HFail. apply wp_sys_atomic; [|done].
  intros w' [Hf Hc]. unfold wp. rewrite (content_files _ _ _ Hf).
  zcase_one; [lia|]. rewrite (proj2 (Z.leb_le (off + n) _)), orb_true_r by lia.
  by apply HOk.
Qed.

Lemma wp_Stat Q :
  (∀ w', becomes w (files w) w' → Q (Ok (len (content p w))) w') →
  (∀ w', fails w (files w) w' → Q (Err EIO) w' ∧ Q Crash w') →
  wp (f_Stat p) Q w.
Proof.
  intros HOk HFail. apply wp_sys_atomic; [|done].
  intros w' [Hf Hc]. unfold wp. rewrite (content_files _ _ _ Hf). by apply HOk.
Qed.

Lemma wp_Stream off Q :
  (∀ w', becomes w (files w) w' →
    Q (Ok (Reader (drop (Z.to_nat off) (content p w)) (Sentinel EOF))) w') →
  (∀ n w', fails w (files w) w' →
    Q (Ok (Reader (take n (drop (Z.to_nat off) (content p w))) EIO)) w' ∧ Q Crash w') →
  wp (f_Stream p off) Q w.
Proof.
  intros HOk HFail. unfold wp, f_Stream, becomes, fails in *.
  destruct w as [fs [|[|n|n] s]]; cbn [sched files] in *.
  - by apply HOk.
  - by apply HOk.
  - apply (HFail n (World fs s)). split; [done|]. rewrite (faults_cons _ _ fs). simpl. lia.
  - apply (HFail n (World fs s)). split; [done|]. rewrite (faults_cons _ _ fs). simpl. lia.
Qed.
End rules.

(** Writing at the end of a known prefix. *)
Lemma write_bytes_end off b pre junk :
  off = len pre → write_bytes off b (pre ++ junk) = pre ++ b ++ drop (length b) junk.
Proof.
  intros ->. unfold write_bytes. rewrite Nat2Z.id. f_equal; [|f_equal].
  - rewrite length_app. replace (_ - _)%nat with 0%nat by lia. simpl.
    by rewrite app_nil_r, take_app_length.
  - rewrite <- drop_drop. by rewrite drop_app_length.
Qed.

(** ** Rules for paths *)

Section paths.
Context (p : bytes) (w : world).

Lemma wp_os_Stat (Q : res Z → world → Prop) :
  (∀ w', becomes w (files w) w' →
    Q (match files w !! p with
       | Some c => Ok (len c)
       | None => Err (Sentinel ErrNotExist)
       end) w') →
  (∀ w', fails w (files w) w' → Q (Err EIO) w' ∧ Q Crash w') →
  wp (os_Stat p) Q w.
Proof.
  intros HOk HFail. apply wp_sys_atomic; [|done]. intros w' Hw. unfold wp.
  specialize (HOk w' Hw). rewrite (proj1 Hw). by destruct (files w !! p).
Qed.

Lemma wp_fileExists (Q : res bool → world → Prop) :
  (∀ w', becomes w (files w) w' → Q (Ok (bool_decide (is_Some (files w !! p)))) w') →
  (∀ w' e, fails w (files w) w' → Q (Err e) w' ∧ Q Crash w') →
  wp (fileExists p) Q w.
Proof.
  intros HOk HFail. apply wp_bind, wp_attempt, wp_os_Stat.
  - intros w' Hw. specialize (HOk w' Hw).
    destruct (files w !! p); [by rewrite bool_decide_true in HOk|].
    by rewrite bool_decide_false in HOk by (intros []; done).
  - intros w' Hw. split; [by apply HFail|by apply (HFail w' EIO)].
Qed.

Lemma wp_os_Remove (Q : res unit → world → Prop) :
  (∀ w', is_Some (files w !! p) → becomes w (delete p (files w)) w' → Q (Ok tt) w') →
  (∀ w', files w !! p = None → becomes w (files w) w' → Q (Err (Sentinel ErrNotExist)) w') →
  (∀ w', fails w (files w) w' → Q (Err EIO) w' ∧ Q Crash w') →
  wp (os_Remove p) Q w.
Proof.
  intros HOk HNone HFail. apply wp_sys_atomic; [|done]. intros w' Hw. unfold wp.
  rewrite (proj1 Hw). destruct (files w !! p) eqn:Hp; [|by apply HNone].
  apply HOk; [done|]. split; [done|apply Hw].
Qed.

Lemma wp_removeIfExists (Q : res unit → world → Prop) :
  (∀ w', becomes w (delete p (files w)) w' → Q (Ok tt) w') →
  (∀ w' e, fails w (files w) w' → Q (Err e) w' ∧ Q Crash w') →
  wp (removeIfExists p) Q w.
Proof.
  intros HOk HFail. apply wp_bind, wp_attempt, wp_os_Remove.
  - intros w' _ Hw. by apply HOk.
  - intros w' Hp Hw. apply HOk. by rewrite delete_id.
  - intros w' Hw. split; [by apply HFail|by apply (HFail w' EIO)].
Qed.

Lemma wp_os_Rename q c (Q : res unit → world → Prop) :
  files w !! p = Some c →
  (∀ w', becomes w (<[q := c]> (delete p (files w))) w' → Q (Ok tt) w') →
  (∀ w', fails w (files w) w' → Q (Err EIO) w' ∧ Q Crash w') →
  wp (os_Rename p q) Q w.
Proof.
  intros Hp HOk HFail. apply wp_sys_atomic; [|done]. intros w' Hw. unfold wp.
  rewrite (proj1 Hw), Hp. apply HOk. split; [done|apply Hw].
Qed.
End paths.
