(* ===== verification/Log.v ===== *)
(** * The append log

    log.go: [appendLog] with its header, [Append], the memory map, point
    reads, the recovery scan [Iterate], and the recovery of an interrupted
    compaction.  A method is an [M (appendLog * world)]. *)

From S2P Require Import Prelude Go Crc32c Attributes Reader Record Legacy FileSystem.
From stdpp Require Import pretty.
#[local] Open Scope Z_scope.

(** ** Constants *)

Definition logMagic : bytes := str "HYBR".
Definition logVersion : Z := 5.
Definition logHeaderSize : Z := 16.
Definition knownIncompatibleFeatures : Z := 0.
Definition knownReadOnlyFeatures : Z := 0.
Definition maxRetainedScratch : Z := Eval cbv in Z.shiftl 1 20.
Definition defaultMapSlack : Z := Eval cbv in Z.shiftl 64 20.
#[export] Hint Unfold logVersion logHeaderSize knownIncompatibleFeatures
  knownReadOnlyFeatures maxRetainedScratch : consts.

Definition compactionTempSuffix : bytes := str ".compact.tmp".
Definition compactionReadySuffix : bytes := str ".compact.ready".
Definition compactionBackupSuffix : bytes := str ".compact.backup".
Definition legacyCompactionSuffix : bytes := str ".compact".

(** ** State *)

Record appendLog := {
  path : bytes;
  file_open : bool;
  writePos : Z;
  version : Z;
  incompatibleFeatures : Z;
  readOnlyFeatures : Z;
  appendBuf : bytes;          (** the whole capacity of the reusable buffer *)
  mapped : option Z;          (** length of the mapping, [None] for nil *)
  mapDisabled : bool;
  mapSlack : Z
}.

Definition new_log (p : bytes) : appendLog :=
  {| path := p; file_open := true; writePos := 0; version := logVersion;
     incompatibleFeatures := 0; readOnlyFeatures := 0; appendBuf := [];
     mapped := None; mapDisabled := false; mapSlack := defaultMapSlack |}.

Definition set_open b l :=
  {| path := path l; file_open := b; writePos := writePos l; version := version l;
     incompatibleFeatures := incompatibleFeatures l; readOnlyFeatures := readOnlyFeatures l;
     appendBuf := appendBuf l; mapped := mapped l; mapDisabled := mapDisabled l;
     mapSlack := mapSlack l |}.
Definition set_writePos n l :=
  {| path := path l; file_open := file_open l; writePos := n; version := version l;
     incompatibleFeatures := incompatibleFeatures l; readOnlyFeatures := readOnlyFeatures l;
     appendBuf := appendBuf l; mapped := mapped l; mapDisabled := mapDisabled l;
     mapSlack := mapSlack l |}.
Definition set_version v l :=
  {| path := path l; file_open := file_open l; writePos := writePos l; version := v;
     incompatibleFeatures := incompatibleFeatures l; readOnlyFeatures := readOnlyFeatures l;
     appendBuf := appendBuf l; mapped := mapped l; mapDisabled := mapDisabled l;
     mapSlack := mapSlack l |}.
Definition set_features i r l :=
  {| path := path l; file_open := file_open l; writePos := writePos l; version := version l;
     incompatibleFeatures := i; readOnlyFeatures := r;
     appendBuf := appendBuf l; mapped := mapped l; mapDisabled := mapDisabled l;
     mapSlack := mapSlack l |}.
Definition set_appendBuf b l :=
  {| path := path l; file_open := file_open l; writePos := writePos l; version := version l;
     incompatibleFeatures := incompatibleFeatures l; readOnlyFeatures := readOnlyFeatures l;
     appendBuf := b; mapped := mapped l; mapDisabled := mapDisabled l;
     mapSlack := mapSlack l |}.
Definition set_mapped m d l :=
  {| path := path l; file_open := file_open l; writePos := writePos l; version := version l;
     incompatibleFeatures := incompatibleFeatures l; readOnlyFeatures := readOnlyFeatures l;
     appendBuf := appendBuf l; mapped := m; mapDisabled := d;
     mapSlack := mapSlack l |}.

Abbreviation LS := (appendLog * world)%type.

Definition the_log : M LS appendLog := λ s, (Ok s.1, s).
Definition modify_log (f : appendLog → appendLog) : M LS unit := λ s, (Ok tt, (f s.1, s.2)).

(** A call on the open file; a closed [os.File] refuses. *)
Definition on_file {A} (op : bytes → M world A) : M LS A := λ s,
  if file_open s.1 then
    let '(r, w) := op (path s.1) s.2 in (r, (s.1, w))
  else (Err (Sentinel ErrClosed), s).

(** Run a method of the log [l] from code that holds [l] in a variable. *)
Definition with_log {A} (l : appendLog) (m : M LS A) : M world (A * appendLog) := λ w,
  match m (l, w) with
  | (Ok a, (l', w')) => (Ok (a, l'), w')
  | (Err e, (_, w')) => (Err e, w')
  | (Panic, (_, w')) => (Panic, w')
  | (Crash, (_, w')) => (Crash, w')
  end.

(** ** Header *)

Definition header_bytes (v i r : Z) : bytes := logMagic ++ put32 v ++ put32 i ++ put32 r.

Definition writeHeader : M LS unit :=
  l ← the_log;
  on_file (λ p, f_WriteAt p 0
    (header_bytes (version l) (incompatibleFeatures l) (readOnlyFeatures l))).

Definition unknown_bits (unknown : Z) : list nat :=
  filter (λ bit, Z.testbit unknown (Z.of_nat bit) = true) (seq 0 32).

Definition unknownFeatureError (mask : String.string) (unknown : Z) : error :=
  Errorf (mask ++ " mask sets bit " ++ String.concat ", " (pretty <$> unknown_bits unknown))%string
    [Sentinel ErrUnsupportedFeature].

Definition unknownReadOnly (l : appendLog) : Z :=
  Z.ldiff (readOnlyFeatures l) knownReadOnlyFeatures.

Definition readHeader : M LS unit :=
  r ← attempt (on_file (λ p, f_ReadAt p 0 logHeaderSize));
  match r with
  | inl _ => throw (Errorf "read header" [Sentinel ErrCorruptedData])
  | inr header =>
      magic ← lift (go_slice 0 4 header);
      if negb (bool_decide (magic = logMagic)) then
        throw (Errorf "invalid magic" [Sentinel ErrCorruptedData])
      else
      v ← lift (go_slice 4 8 header ≫= Uint32);
      if v =? 0 then throw (Errorf "invalid log version 0" [Sentinel ErrCorruptedData])
      else if v >? logVersion then
        throw (Errorf "version is too new" [Sentinel ErrUnsupportedVersion])
      else
      modify_log (set_version v);;
      (if 5 <=? v then
         i ← lift (go_slice 8 12 header ≫= Uint32);
         ro ← lift (go_slice 12 16 header ≫= Uint32);
         modify_log (set_features i ro)
       else mret tt);;
      l ← the_log;
      let unknown := Z.ldiff (incompatibleFeatures l) knownIncompatibleFeatures in
      if negb (unknown =? 0) then throw (unknownFeatureError "incompatible" unknown)
      else mret tt
  end.

Definition setVersion (v : Z) : M LS unit :=
  l ← the_log;
  modify_log (set_version v);;
  r ← attempt writeHeader;
  match r with
  | inl e => modify_log (set_version (version l));; throw e
  | inr _ => on_file f_Sync
  end.

(** ** Memory map *)

(** mmap_unix.go *)
Definition mmapFile (p : bytes) (length : Z) : M world unit := f_Mmap p length.

(** [remap], over the [mmapFile] of the platform. *)
Definition remap_with (mmapFile : bytes → Z → M world unit) : M LS unit :=
  l ← the_log;
  if mapDisabled l then mret tt else
  modify_log (set_mapped None false);;
  let length := int64 (writePos l + mapSlack l) in
  if (length <=? 0) || (length >? maxInt) then modify_log (set_mapped None true)
  else
    r ← attempt (on_file (λ p, mmapFile p length));
    match r with
    | inl _ => modify_log (set_mapped None true)
    | inr _ => modify_log (set_mapped (Some length) false)
    end.

Definition remap : M LS unit := remap_with mmapFile.

(** [mappedRecord]: the mapping shows the current contents of the file; an
    access past the end of the file kills the process (SIGBUS). *)
Definition mappedRecord (recordOffset storedSize : Z) : M LS (option bytes) := λ s,
  let l := s.1 in
  let end_ := recordOffset + storedSize in
  match mapped l with
  | None => (Ok None, s)
  | Some maplen =>
      if (recordOffset <? logHeaderSize) || (end_ >? writePos l) || (end_ >? maplen)
      then (Ok None, s)
      else if end_ <=? len (content (path l) s.2)
      then (Ok (Some (slice recordOffset end_ (content (path l) s.2))), s)
      else (Crash, s)
  end.

(** ** Opening *)

Definition openAppendLogFile (p : bytes) : M world appendLog :=
  os_OpenCreate p;;
  size ← on_err (f_Stat p) (ignore (f_Close p));
  let log := new_log p in
  '(_, log) ←
    (if size =? 0 then
       '(_, log) ← on_err (with_log log writeHeader) (ignore (f_Close p));
       mret (tt, set_writePos logHeaderSize log)
     else
       '(_, log) ← on_err (with_log log readHeader) (ignore (f_Close p));
       mret (tt, set_writePos size log));
  '(_, log) ← with_log log remap;
  mret log.

Definition createAppendLogMode (p : bytes) : M world appendLog :=
  os_OpenTrunc p;;
  '(_, log) ← on_err (with_log (new_log p) writeHeader) (ignore (f_Close p));
  '(_, log) ← with_log (set_writePos logHeaderSize log) remap;
  mret log.

Definition createAppendLog (p : bytes) : M world appendLog := createAppendLogMode p.

(** ** Appending *)

(** Offset of the value, its size, offset and size of the record. *)
Record appended := {
  ap_offset : Z; ap_size : Z; ap_recordOffset : Z; ap_storedSize : Z
}.

(** The encode buffer: a stale prefix of the retained one, or a new one. *)
Definition take_buffer (totalSize : Z) (appendBuf : bytes) : bytes :=
  if len appendBuf <? totalSize then replicate (Z.to_nat totalSize) Byte.x00
  else take (Z.to_nat totalSize) appendBuf.

(** What the retained buffer holds once [buf] has been filled. *)
Definition retain_buffer (totalSize : Z) (buf appendBuf : bytes) : bytes :=
  if len appendBuf <? totalSize then
    (if totalSize <=? maxRetainedScratch then buf else appendBuf)
  else buf ++ drop (Z.to_nat totalSize) appendBuf.

Definition Append `{!MapRange} (key value : bytes) (deleted : bool)
    (attributes : attrs) (extensions : bytes) : M LS appended :=
  l ← the_log;
  if negb (version l =? logVersion) then
    throw (Errorf "cannot append a record to a log of another version" [])
  else if negb (unknownReadOnly l =? 0) then
    throw (unknownFeatureError "read-only" (unknownReadOnly l))
  else if len key >? maxKeySize then
    throw (Errorf "key is too long" [Sentinel ErrInvalidKey])
  else if len value >? maxValueSize then
    throw (Errorf "value is too long" [Sentinel ErrValueTooLarge])
  else if len extensions >? maxExtensionsSize then
    throw (Errorf "extensions are too long" [Sentinel ErrValueTooLarge])
  else
  lift (validateExtensions extensions);;
  attributesBytes ← lift (encodeAttributes attributes);
  let recordLength := recordMinimumLength +
    (len key + len attributesBytes + len value + len extensions) in
  if recordLength >? 2 ^ 32 - 1 then
    throw (Errorf "encoded record is too long" [Sentinel ErrValueTooLarge])
  else
  let totalSize := 4 + recordLength in
  buf ← lift (encodeRecord (take_buffer totalSize (appendBuf l))
                key value deleted attributesBytes extensions);
  modify_log (set_appendBuf (retain_buffer totalSize buf (appendBuf l)));;
  let valueOffset := writePos l + (20 + len key + len attributesBytes) in
  let recordStart := writePos l in
  on_file (λ p, f_WriteAt p recordStart buf);;
  modify_log (set_writePos (writePos l + totalSize));;
  (if writePos l + totalSize >? default 0 (mapped l) then remap else mret tt);;
  mret {| ap_offset := valueOffset; ap_size := int32 (len value);
          ap_recordOffset := recordStart; ap_storedSize := totalSize |}.

(** ** Point reads *)

(** [ReadAt], for the values of legacy records: [make([]byte, size)] panics on
    a negative size. *)
Definition log_ReadAt (offset size : Z) : M LS bytes :=
  if size <? 0 then lift Panic else on_file (λ p, f_ReadAt p offset size).

(** [readRecordFromFile]: the value or the error, and the scratch buffer as
    the call leaves it ([scratch] is its whole capacity). *)
Definition readRecordFromFile (recordOffset storedSize : Z) (scratch : bytes)
    : M LS ((error + bytes) * bytes) :=
  let scratch := if len scratch <? storedSize
                 then replicate (Z.to_nat storedSize) Byte.x00 else scratch in
  r ← attempt (on_file (λ p, f_ReadAt p recordOffset storedSize));
  match r with
  | inl e => mret (inl e, scratch)
  | inr record =>
      let scratch := record ++ drop (Z.to_nat storedSize) scratch in
      v ← attempt (lift (
        bounds ← validateStoredRecord record;
        go_slice (valueStart bounds) (valueStart bounds + valueLen bounds) record));
      mret (v, scratch)
  end.

(** The value of a record read from the map. *)
Definition mapped_value (record : bytes) : res bytes :=
  bounds ← validateStoredRecord record;
  go_slice (valueStart bounds) (valueStart bounds + valueLen bounds) record.

(** [ReadRecordAt] with [pooled] the buffer it takes from [recordScratchPool]. *)
Definition ReadRecordAt (pooled : bytes) (recordOffset storedSize : Z) : M LS bytes :=
  lift (checkStoredSize storedSize);;
  m ← mappedRecord recordOffset storedSize;
  match m with
  | Some record => lift (mapped_value record)
  | None =>
      '(value, _) ← readRecordFromFile recordOffset storedSize pooled;
      match value with
      | inl e => throw e
      | inr v => mret v
      end
  end.

Definition ReadRecordAtInto (recordOffset storedSize : Z) (scratch : bytes)
    : M LS ((error + bytes) * bytes) :=
  c ← attempt (lift (checkStoredSize storedSize));
  match c with
  | inl e => mret (inl e, scratch)
  | inr _ =>
      m ← mappedRecord recordOffset storedSize;
      match m with
      | Some record =>
          v ← attempt (lift (mapped_value record));
          match v with
          | inl e => mret (inl e, scratch)
          | inr v =>
              mret (inr v, if len v <=? len scratch
                           then v ++ drop (length v) scratch else v)
          end
      | None => readRecordFromFile recordOffset storedSize scratch
      end
  end.

Definition ReadRecordAndExtensionsAt (recordOffset storedSize : Z) : M LS (bytes * bytes) :=
  lift (checkStoredSize storedSize);;
  m ← mappedRecord recordOffset storedSize;
  record ← match m with
           | Some record => mret record
           | None => on_file (λ p, f_ReadAt p recordOffset storedSize)
           end;
  bounds ← lift (validateStoredRecord record);
  value ← lift (go_slice (valueStart bounds) (valueStart bounds + valueLen bounds) record);
  extensions ← lift (go_slice (extensionsStart bounds)
                      (extensionsStart bounds + extensionsLen bounds) record);
  mret (value, extensions).

(** ** The recovery scan

    The callback works on a state [T] of its own (the scan holds the log's
    mutex while it runs); each record takes at least one byte, so the fuel
    [fileSize - logHeaderSize + 1] is never used up. *)

Definition read_next (version pos : Z) : M reader (logRecord * Z) :=
  if 4 <=? version then readRecordFrom pos else readLegacyRecordFrom pos version.

Definition on_fst {S T A} (m : M S A) : M (S * T) A := zoom fst (λ s p, (s, p.2)) m.
Definition on_snd {S T A} (m : M T A) : M (S * T) A := zoom snd (λ t p, (p.1, t)) m.

(** What the scan does with a record that could not be read. *)
Definition torn_record (pos : Z) (err : error) : M LS unit :=
  l ← the_log;
  if is_eof err then
    (if unknownReadOnly l =? 0 then
       r ← attempt (on_file (λ p, f_Truncate p pos));
       match r with
       | inl truncateErr =>
           throw (Errorf "join" [err; Errorf "truncate incomplete record" [truncateErr]])
       | inr _ => mret tt
       end
     else mret tt);;
    modify_log (set_writePos pos)
  else throw (Errorf "at offset" [Sentinel ErrCorruptedData]).

Fixpoint Iterate_loop {T} (fuel : nat) (fn : logRecord → M T unit) (fileSize pos : Z)
    (r : reader) : M (T * LS) unit :=
  match fuel with
  | O => lift Panic
  | S fuel =>
      if pos <? fileSize then
        l ← on_snd the_log;
        match read_next (version l) pos r with
        | (Ok (record, nextPos), r) =>
            if nextPos >? fileSize then
              throw (Errorf "record exceeds file size" [Sentinel ErrCorruptedData])
            else
              on_fst (fn record);;
              Iterate_loop fuel fn fileSize nextPos r
        | (Err e, _) => on_snd (torn_record pos e)
        | (Panic, _) => lift Panic
        | (Crash, _) => lift Crash
        end
      else mret tt
  end.

Definition Iterate {T} (fn : logRecord → M T unit) : M (T * LS) unit :=
  on_snd (on_file (λ p, f_Seek p logHeaderSize));;
  r ← on_snd (on_file (λ p, f_Stream p logHeaderSize));
  l ← on_snd the_log;
  Iterate_loop (S (Z.to_nat (writePos l - logHeaderSize))) fn (writePos l) logHeaderSize r.

(** ** Sync, Close, Size *)

Definition log_Sync : M LS unit := on_file f_Sync.

(** [os.File.Close] gives the descriptor up even when it reports an error. *)
Definition log_Close : M LS unit :=
  l ← the_log;
  modify_log (set_mapped None (mapDisabled l));;
  r ← attempt (on_file f_Close);
  modify_log (set_open false);;
  match r with
  | inl e => throw e
  | inr _ => mret tt
  end.

Definition log_Size (l : appendLog) : Z := writePos l.

(** ** Recovery of an interrupted compaction *)

Definition artifacts (p : bytes) : list bytes :=
  [p ++ compactionTempSuffix; p ++ compactionReadySuffix;
   p ++ compactionBackupSuffix; p ++ legacyCompactionSuffix].

Fixpoint removeAll (paths : list bytes) : M world unit :=
  match paths with
  | [] => mret tt
  | p :: paths => removeIfExists p;; removeAll paths
  end.

Definition recoverCompactionArtifacts (p : bytes) : M world unit :=
  let tempPath := p ++ compactionTempSuffix in
  let readyPath := p ++ compactionReadySuffix in
  let backupPath := p ++ compactionBackupSuffix in
  let legacyPath := p ++ legacyCompactionSuffix in
  mainExists ← fileExists p;
  readyExists ← fileExists readyPath;
  backupExists ← fileExists backupPath;
  tempExists ← fileExists tempPath;
  legacyExists ← fileExists legacyPath;
  (if (mainExists : bool) then
     removeIfExists readyPath;; removeIfExists backupPath;; removeIfExists legacyPath
   else if (readyExists : bool) then
     wrap "complete interrupted compaction" (os_Rename readyPath p);;
     removeIfExists backupPath
   else if (backupExists : bool) then
     wrap "restore interrupted compaction" (os_Rename backupPath p)
   else if (legacyExists : bool) then
     wrap "restore legacy interrupted compaction" (os_Rename legacyPath p)
   else mret tt);;
  removeAll (artifacts p);;
  if readyExists || backupExists || tempExists || legacyExists then
    wrap "sync directory after compaction recovery" (syncParentDirectory p)
  else mret tt.

Definition openAppendLog (p : bytes) : M world appendLog :=
  recoverCompactionArtifacts p;;
  openAppendLogFile p.
