(* ===== verification/LogSpec.v ===== *)
(** * What the log operations do, on every outcome

    One rule per operation of Log.v.  A rule describes the result and the
    disk after a success, an error, and the death of the process at any point
    of the operation; it also says that without scheduled failures only the
    success (or the refusal of bad arguments) remains. *)

From S2P Require Import Prelude Go Crc32c Attributes Reader Record Legacy FileSystem Log.

(** ** Rules for the log's own combinators *)

Lemma wp_the_log {A} (f : appendLog → M LS A) Q s :
  wp (f s.1) Q s → wp (the_log ≫= f) Q s.
Proof. done. Qed.

Lemma wp_modify_log {A} g (f : M LS A) Q s :
  wp f Q (g s.1, s.2) → wp (modify_log g;; f) Q s.
Proof. done. Qed.

Lemma wp_on_file {A} (op : bytes → M world A) Q l w :
  file_open l = true → wp (op (path l)) (λ r w', Q r (l, w')) w → wp (on_file op) Q (l, w).
Proof.
  intros Ho. unfold wp, on_file. simpl. rewrite Ho. by destruct (op (path l) w).
Qed.

(** ** A log file in use *)

(** The log [l] has the file [p] open; [pre] is what it has written or
    scanned, [junk] what an interrupted write left behind it. *)
Record log_ok (p pre junk : bytes) (l : appendLog) (w : world) : Prop := {
  lo_path : path l = p;
  lo_open : file_open l = true;
  lo_pos : writePos l = len pre;
  lo_file : files w !! p = Some (pre ++ junk)
}.

(** The fields an operation on records never touches. *)
Definition same_format (l l' : appendLog) : Prop :=
  version l' = version l ∧ incompatibleFeatures l' = incompatibleFeatures l ∧
  readOnlyFeatures l' = readOnlyFeatures l ∧ mapSlack l' = mapSlack l.

Lemma same_format_refl l : same_format l l.
Proof. done. Qed.
Lemma same_format_trans l1 l2 l3 : same_format l1 l2 → same_format l2 l3 → same_format l1 l3.
Proof. unfold same_format. intuition congruence. Qed.
#[export] Hint Resolve same_format_refl : core.

Lemma log_ok_content p pre junk l w : log_ok p pre junk l w → content (path l) w = pre ++ junk.
Proof. intros [-> _ _ Hf]. unfold content. by rewrite Hf. Qed.

Lemma log_ok_world p pre junk l w w' :
  log_ok p pre junk l w → files w' !! p = Some (pre ++ junk) → log_ok p pre junk l w'.
Proof. intros [] ?. by split. Qed.

(** ** Point reads *)

(** The outcome of a read that finds what it looks for. *)
Definition reads {A} (l : appendLog) (w : world) (a : A) (r : res A) (s' : LS) : Prop :=
  s'.1 = l ∧ becomes w (files w) s'.2 ∧
  match r with
  | Ok b => b = a
  | Err e => e = EIO ∧ failed w s'.2
  | Crash => failed w s'.2
  | Panic => False
  end.

Lemma reads_fail {A} l w (a : A) w' :
  fails w (files w) w' → reads l w a (Err EIO) (l, w') ∧ reads l w a Crash (l, w').
Proof. intros [Hf Hl]. unfold reads, becomes. simpl. split_and!; auto; lia. Qed.

Section reads.
#[local] Set Default Proof Using "All".
Context (p pre junk a c : bytes) (r : raw) (l : appendLog) (w : world).
Context (Hlog : log_ok p pre junk l w) (Hpre : pre = a ++ raw_record r ++ c).
Context (Hfits : raw_fits r).

Let off := len a.
Let size := raw_size r.

Lemma stored_size_ok : checkStoredSize size = Ok tt.
Proof.
  unfold checkStoredSize. pose proof (raw_size_bound r). destruct Hfits.
  unfold size, maxInt. by zcase.
Qed.

Lemma stored_in_file : off + size ≤ len pre.
Proof. pose proof (length_raw_record r (proj1 Hfits)). rewrite Hpre. unfold off, size. len_lia. Qed.

Lemma stored_slice : slice off (off + size) (content (path l) w) = raw_record r.
Proof.
  rewrite (log_ok_content _ _ _ _ _ Hlog), Hpre, <- !app_assoc.
  apply slice_mid; [done|]. by rewrite length_raw_record by apply Hfits.
Qed.

(** The mapping, where it covers the record, shows the file's bytes. *)
Lemma mappedRecord_ok :
  mappedRecord off size (l, w) = (Ok None, (l, w)) ∨
  mappedRecord off size (l, w) = (Ok (Some (raw_record r)), (l, w)).
Proof.
  unfold mappedRecord. simpl. destruct (mapped l); [|by left].
  case_match; [by left|]. right. rewrite stored_slice.
  rewrite (log_ok_content _ _ _ _ _ Hlog). pose proof stored_in_file.
  rewrite (proj2 (Z.leb_le _ _)); [done|]. simp_len. lia.
Qed.

Lemma wp_read_stored Q :
  (∀ w', becomes w (files w) w' → Q (Ok (raw_record r)) (l, w')) →
  (∀ w', fails w (files w) w' → Q (Err EIO) (l, w') ∧ Q Crash (l, w')) →
  wp (on_file (λ p, f_ReadAt p off size)) Q (l, w).
Proof.
  intros HOk HFail. apply wp_on_file; [apply Hlog|].
  pose proof stored_in_file. pose proof (raw_size_bound r).
  apply wp_ReadAt; [unfold off; lia|unfold size; lia| |..].
  - rewrite (log_ok_content _ _ _ _ _ Hlog). simp_len. lia.
  - rewrite stored_slice. auto.
  - auto.
Qed.

Lemma mapped_value_ok : mapped_value (raw_record r) = Ok (raw_value r).
Proof.
  unfold mapped_value. rewrite validateStoredRecord_ok by done.
  cbn [mbind res_bind valueStart valueLen].
  rewrite go_slice_ok; [by rewrite raw_value_at by apply Hfits|lia|].
  rewrite length_raw_record by apply Hfits. unfold raw_size. lia.
Qed.

Lemma wp_readRecordFromFile scratch (Q : res ((error + bytes) * bytes) → LS → Prop) :
  (∀ w' scratch', becomes w (files w) w' → Q (Ok (inr (raw_value r), scratch')) (l, w')) →
  (∀ w' scratch', fails w (files w) w' →
    Q (Ok (inl EIO, scratch')) (l, w') ∧ Q Crash (l, w')) →
  wp (readRecordFromFile off size scratch) Q (l, w).
Proof.
  intros HOk HFail. unfold readRecordFromFile.
  apply wp_bind, wp_attempt, wp_read_stored.
  - intros w' Hw. apply wp_bind. fold (mapped_value (raw_record r)).
    rewrite mapped_value_ok. by apply HOk.
  - intros w' Hw. split; [by apply HFail|].
    by apply (HFail w' []).
Qed.

(** Every way of reading a stored record returns its value, from the map or
    from the file, whatever the reused buffers held. *)
Lemma wp_ReadRecordAt pooled :
  wp (ReadRecordAt pooled off size) (reads l w (raw_value r)) (l, w).
Proof.
  unfold ReadRecordAt. apply wp_lift_bind. rewrite stored_size_ok.
  apply wp_bind. unfold wp at 1.
  destruct mappedRecord_ok as [-> | ->]; simpl.
  - apply wp_bind, wp_readRecordFromFile.
    + intros w' sc Hw. by split.
    + intros w' sc Hw. by apply reads_fail.
  - rewrite mapped_value_ok. by split.
Qed.

Lemma wp_ReadRecordAtInto scratch (Q : res ((error + bytes) * bytes) → LS → Prop) :
  (∀ w' scratch', becomes w (files w) w' → Q (Ok (inr (raw_value r), scratch')) (l, w')) →
  (∀ w' scratch', fails w (files w) w' →
    Q (Ok (inl EIO, scratch')) (l, w') ∧ Q Crash (l, w')) →
  wp (ReadRecordAtInto off size scratch) Q (l, w).
Proof.
  intros HOk HFail. unfold ReadRecordAtInto. rewrite stored_size_ok.
  apply wp_bind, wp_attempt, wp_lift. simpl.
  apply wp_bind. unfold wp at 1.
  destruct mappedRecord_ok as [-> | ->]; simpl.
  - by apply wp_readRecordFromFile.
  - rewrite mapped_value_ok. by apply HOk.
Qed.

Lemma wp_ReadRecordAndExtensionsAt :
  wp (ReadRecordAndExtensionsAt off size)
    (reads l w (raw_value r, raw_extensions r)) (l, w).
Proof.
  assert (∀ s : LS, (bounds ← lift (validateStoredRecord (raw_record r));
    value ← lift (go_slice (valueStart bounds) (valueStart bounds + valueLen bounds) (raw_record r));
    extensions ← lift (go_slice (extensionsStart bounds)
                       (extensionsStart bounds + extensionsLen bounds) (raw_record r));
    mret (value, extensions)) s = (Ok (raw_value r, raw_extensions r), s)) as Hparts.
  { intros s. run_lift (validateStoredRecord_ok r Hfits). simpl.
    destruct Hfits as [Hrsv _].
    rewrite !go_slice_ok by (rewrite ?length_raw_record by done; unfold raw_size; lia).
    by rewrite raw_value_at, raw_extensions_at by done. }
  unfold ReadRecordAndExtensionsAt. apply wp_lift_bind. rewrite stored_size_ok.
  apply wp_bind. unfold wp at 1.
  destruct mappedRecord_ok as [-> | ->]; simpl.
  - apply wp_bind, wp_read_stored.
    + intros w' Hw. unfold wp. rewrite Hparts. by split.
    + intros w' Hw. by apply reads_fail.
  - apply wp_bind, wp_ret. unfold wp. rewrite Hparts. by split.
Qed.
End reads.

(** ** Append *)

(** What [Append] accepts. *)
Definition append_ok (key value : bytes) (attributes : attrs) (extensions : bytes) : Prop :=
  len key ≤ maxKeySize ∧ len value ≤ maxValueSize ∧
  len extensions ≤ maxExtensionsSize ∧ ext_framed extensions ∧ attrs_ok attributes.

(** The record it writes. *)
Definition entry (deleted : bool) (key value : bytes) (attributes : attrs)
    (extensions : bytes) : raw :=
  written deleted key (encode_spec attributes) value extensions.

Lemma entry_valid deleted key value m ext :
  append_ok key value m ext → raw_valid (entry deleted key value m ext) m.
Proof.
  intros (Hk & Hv & He & Hx & Hm). pose proof Hm as (_ & _ & Hsize).
  split_and!; [done| |by apply validateExtensions_spec|by apply decode_encode_spec].
  unfold raw_limits. simpl. by rewrite length_encode_spec.
Qed.

Lemma entry_fits deleted key value m ext :
  append_ok key value m ext → raw_fits (entry deleted key value m ext).
Proof. intros (? & ? & _)%(entry_valid deleted). by apply raw_limits_fit. Qed.

Lemma length_take_buffer n b : 0 ≤ n → len (take_buffer n b) = n.
Proof. intros. unfold take_buffer. zcase_one; len_lia. Qed.

(** The part of [Append] after the record has been encoded. *)
Definition append_encoded (rec : raw) (l : appendLog) : M LS appended :=
  let totalSize := raw_size rec in
  modify_log (set_appendBuf (retain_buffer totalSize (raw_record rec) (appendBuf l)));;
  on_file (λ p, f_WriteAt p (writePos l) (raw_record rec));;
  modify_log (set_writePos (writePos l + totalSize));;
  (if writePos l + totalSize >? default 0 (mapped l) then remap else mret tt);;
  mret {| ap_offset := writePos l + (20 + len (raw_key rec) + len (raw_attributes rec));
          ap_size := len (raw_value rec);
          ap_recordOffset := writePos l; ap_storedSize := totalSize |}.

(** [Append] refuses bad arguments before it touches anything, and encodes
    good ones to the record of the specification. *)
Lemma Append_cases `{!MapRange} key value deleted m ext l w :
  version l = logVersion → unknownReadOnly l = 0 →
  (append_ok key value m ext ∧
   Append key value deleted m ext (l, w) =
   append_encoded (entry deleted key value m ext) l (l, w)) ∨
  (¬ append_ok key value m ext ∧
   ∃ e, input_error e ∧ Append key value deleted m ext (l, w) = (Err e, (l, w))).
Proof.
  intros Hv Hro. unfold Append. rewrite (M_bind_run _ _ _ l (l, w)) by done.
  rewrite Hv, Hro, !Z.eqb_refl. cbn [negb].
  do 3 (zcase_one; [right; split; [unfold append_ok; lia|];
    eexists; split; [|done]; apply input_error_sentinel; solve_input|]).
  pose proof (validateExtensions_returns ext) as Hret.
  destruct (validateExtensions ext) as [[]|e| |] eqn:Hext; try done; cycle 1.
  { right. split; [intros (_ & _ & _ & Hx%validateExtensions_spec & _); congruence|].
    exists e. split; [by eapply ext_loop_err|done]. }
  apply validateExtensions_spec in Hext. rewrite M_bind_lift_ok.
  destruct (encodeAttributes_cases m) as [[Hm Henc]|[e Henc]]; cycle 1.
  { right. rewrite Henc. split; [intros (_ & _ & _ & _ & Hm%encodeAttributes_ok); congruence|].
    exists e. split; [by eapply encodeAttributes_err|done]. }
  left. rewrite Henc, M_bind_lift_ok. assert (append_ok key value m ext) as Hok by done.
  split; [done|]. pose proof (entry_fits deleted _ _ _ _ Hok) as Hfits.
  pose proof Hfits as [_ Hsz]. unfold raw_size in Hsz. simpl in Hsz.
  pose proof (raw_size_bound (entry deleted key value m ext)) as Hmin.
  assert (4 + (recordMinimumLength + (len key + len (encode_spec m) + len value + len ext))
    = raw_size (entry deleted key value m ext)) as Htot by (unfold raw_size; simpl; zlia).
  zcase_one; [exfalso; zlia|]. rewrite Htot.
  rewrite (encodeRecord_ok _ key value deleted (encode_spec m) ext);
    [|done|by rewrite length_take_buffer by lia]. rewrite M_bind_lift_ok.
  unfold append_encoded. fold (entry deleted key value m ext). simpl.
  rewrite int32_small by zlia. done.
Qed.

(** Remapping cannot fail: without a map the log is read from the file. *)
Lemma wp_remap (Q : res unit → LS → Prop) l w :
  file_open l = true →
  (∀ m d w', becomes w (files w) w' → Q (Ok tt) (set_mapped m d l, w')) →
  (∀ l' w', fails w (files w) w' → Q Crash (l', w')) →
  wp remap Q (l, w).
Proof.
  intros Ho HOk HFail. unfold remap, remap_with, mmapFile. apply wp_the_log. simpl.
  destruct (mapDisabled l) eqn:Hd.
  { apply wp_ret. replace l with (set_mapped (mapped l) true l); [auto|].
    destruct l; simpl in *; by subst. }
  apply wp_modify_log. simpl.
  case_match; [by apply (HOk None true w)|].
  apply wp_bind, wp_attempt, wp_on_file; [done|]. unfold f_Mmap.
  apply wp_sys_const; simpl.
  - intros w' Hw. by apply (HOk (Some _) false w').
  - intros w' Hw. split; [by apply (HOk None true w'), fails_becomes|by apply HFail].
Qed.

(** What an interrupted write of [b] leaves of the bytes behind it. *)
Definition half_written (n : nat) (b junk : bytes) : bytes :=
  take n b ++ drop (length (take n b)) junk.

Lemma half_written_all b junk :
  half_written (length b) b junk = b ++ drop (length b) junk.
Proof. unfold half_written. by rewrite firstn_all. Qed.

(** The result of appending [rec] to a log that holds [pre]. *)
Definition appends (rec : raw) (p pre junk : bytes) (l : appendLog) (w : world)
    (r : res appended) (s' : LS) : Prop :=
  (∀ q, q ≠ p → files s'.2 !! q = files w !! q) ∧ later w s'.2 ∧
  match r with
  | Ok a =>
      a = {| ap_offset := len pre + (20 + len (raw_key rec) + len (raw_attributes rec));
             ap_size := len (raw_value rec);
             ap_recordOffset := len pre; ap_storedSize := raw_size rec |} ∧
      same_format l s'.1 ∧
      log_ok p (pre ++ raw_record rec) (drop (length (raw_record rec)) junk) s'.1 s'.2
  | Err e =>
      e = EIO ∧ failed w s'.2 ∧ same_format l s'.1 ∧
      ∃ n, log_ok p pre (half_written n (raw_record rec) junk) s'.1 s'.2
  | Crash =>
      failed w s'.2 ∧
      ∃ n, files s'.2 !! p = Some (pre ++ half_written n (raw_record rec) junk)
  | Panic => False
  end.

Lemma wp_append_encoded rec p pre junk l w :
  raw_fits rec → log_ok p pre junk l w →
  wp (append_encoded rec l) (appends rec p pre junk l w) (l, w).
Proof.
  intros Hfits Hlog. pose proof Hlog as [Hp Ho Hpos Hf].
  pose proof (length_raw_record rec (proj1 Hfits)) as Hlen.
  unfold append_encoded. apply wp_modify_log. cbn [fst snd].
  apply wp_bind, wp_on_file; [done|].
  assert (∀ n w', files w' = <[p := write_bytes (writePos l) (take n (raw_record rec))
      (content p w)]> (files w) →
    files w' !! p = Some (pre ++ half_written n (raw_record rec) junk) ∧
    (∀ q, q ≠ p → files w' !! q = files w !! q)) as Hwrite.
  { intros n w' Hfs. rewrite Hfs, lookup_insert_eq. unfold content. rewrite Hf. simpl.
    rewrite (write_bytes_end (writePos l)) by done. split; [done|].
    intros q Hq. by rewrite lookup_insert_ne. }
  simpl. rewrite Hp. apply wp_WriteAt.
  - intros w' [Hw Hc]. specialize (Hwrite (length (raw_record rec)) w').
    rewrite firstn_all in Hwrite. destruct (Hwrite Hw) as (Hf' & Hoth).
    rewrite half_written_all in Hf'.
    apply wp_modify_log. cbn [fst snd].
    set (l2 := set_writePos _ _).
    assert (∀ m d w2, becomes w' (files w') w2 →
      appends rec p pre junk l w
        (Ok {| ap_offset := writePos l + (20 + len (raw_key rec) + len (raw_attributes rec));
               ap_size := len (raw_value rec);
               ap_recordOffset := writePos l; ap_storedSize := raw_size rec |})
        (set_mapped m d l2, w2)) as Hend.
    { intros m d w2 [Hf2 Hc2]. unfold appends. simpl. rewrite Hf2, <- Hpos.
      split_and!; [done|lia|done|done|].
      split; simpl; [done|done| |].
      - rewrite length_app, Nat2Z.inj_add, Hlen. lia.
      - by rewrite Hf2, <- app_assoc. }
    apply wp_bind. case_match.
    + apply wp_remap; [done|..].
      * intros m d w2 Hw2. apply wp_ret. by apply Hend.
      * intros l' w2 [Hf2 Hc2]. unfold appends. simpl. rewrite Hf2.
        split_and!; [done|lia|lia|]. exists (length (raw_record rec)).
        by rewrite half_written_all.
    + apply wp_ret. apply wp_ret. replace l2 with (set_mapped (mapped l2) (mapDisabled l2) l2)
        by (by destruct l). by apply Hend.
  - intros n w' [Hw Hd]. destruct (Hwrite n w' Hw) as (Hf' & Hoth). unfold appends. simpl.
    split; (split_and!; [done|lia|..]); [done|done|done| |done|by eauto].
    exists n. by split.
Qed.

Lemma wp_Append `{!MapRange} key value deleted m ext p pre junk l w :
  version l = logVersion → unknownReadOnly l = 0 → log_ok p pre junk l w →
  append_ok key value m ext →
  wp (Append key value deleted m ext)
    (appends (entry deleted key value m ext) p pre junk l w) (l, w).
Proof.
  intros Hv Hro Hlog Hok.
  destruct (Append_cases key value deleted m ext l w Hv Hro) as [[_ E]|[]]; [|done].
  unfold wp. rewrite E. apply wp_append_encoded; [by apply entry_fits|done].
Qed.

Lemma Append_refused `{!MapRange} key value deleted m ext l w :
  version l = logVersion → unknownReadOnly l = 0 → ¬ append_ok key value m ext →
  ∃ e, input_error e ∧ Append key value deleted m ext (l, w) = (Err e, (l, w)).
Proof.
  intros Hv Hro Hno.
  by destruct (Append_cases key value deleted m ext l w Hv Hro) as [[]|[_ ?]].
Qed.
