(* ===== verification/Scan.v ===== *)
(** * The recovery scan

    [Iterate] (log.go) against a specification of what a log file holds.  The
    scan is proved once for any record format that meets [LogFormat]; formats
    4 and 5 and the legacy formats 1 to 3 are its instances. *)

From S2P Require Import Prelude Go Crc32c Attributes Reader Record Legacy FileSystem Log LogSpec.

(** ** The interface of a record format *)

Class LogFormat (version : Z) (R : Type) := {
  fmt_bytes : R → bytes;               (** a record on disk *)
  fmt_ok : R → Prop;                   (** the records the format can hold *)
  fmt_scanned : Z → R → logRecord;     (** what the scan reports, by position *)
  fmt_nonempty r : fmt_ok r → 0 < len (fmt_bytes r);
  fmt_read pos r d t : fmt_ok r →
    read_next version pos (Reader (fmt_bytes r ++ d) t) =
    (Ok (fmt_scanned pos r, pos + len (fmt_bytes r)), Reader d t);
  fmt_streaming pos : streaming (read_next version pos)
}.

Definition raw_attrs (r : raw) : attrs :=
  match decodeAttributes (raw_attributes r) with Ok m => m | _ => ∅ end.

(** A record the scan accepts. *)
Definition stored (r : raw) : Prop := raw_valid r (raw_attrs r).

Lemma stored_valid r m : raw_valid r m → stored r ∧ raw_attrs r = m.
Proof.
  intros (? & ? & ? & Hd). unfold stored, raw_valid, raw_attrs. rewrite Hd. done.
Qed.

Lemma stored_fits r : stored r → raw_fits r.
Proof. intros (? & ? & _). by apply raw_limits_fit. Qed.

#[export] Program Instance format_v5 (version : Z) (Hv : 4 ≤ version) : LogFormat version raw := {
  fmt_bytes := raw_record;
  fmt_ok := stored;
  fmt_scanned pos r := scanned pos r (raw_attrs r)
}.
Next Obligation.
  intros version Hv r Hr. rewrite length_raw_record by apply Hr.
  pose proof (raw_size_bound r). lia.
Qed.
Next Obligation.
  intros version Hv pos r d t Hr. unfold read_next.
  rewrite (proj2 (Z.leb_le 4 version)), (readRecordFrom_ok pos r _ d t Hr) by lia.
  by rewrite length_raw_record by apply Hr.
Qed.
Next Obligation.
  intros version Hv pos. unfold read_next.
  rewrite (proj2 (Z.leb_le 4 version)) by lia. apply streaming_readRecordFrom.
Qed.

#[export] Program Instance format_legacy (version : Z) (Hv : version < 4) :
    LogFormat version legacy := {
  fmt_bytes := lg_record version;
  fmt_ok := lg_ok;
  fmt_scanned pos g := lg_scanned pos version g
}.
Next Obligation.
  intros version Hv g Hg. unfold lg_record. len_lia.
Qed.
Next Obligation.
  intros version Hv pos g d t Hg. unfold read_next.
  rewrite (proj2 (Z.leb_gt 4 version)) by lia. by apply readLegacyRecordFrom_ok.
Qed.
Next Obligation.
  intros version Hv pos. unfold read_next.
  rewrite (proj2 (Z.leb_gt 4 version)) by lia. apply streaming_readLegacyRecordFrom.
Qed.

(** ** The contents of a log *)

(** Call [fn] on each record in turn. *)
Fixpoint for_each {T} (fn : logRecord → M T unit) (recs : list logRecord) : M T unit :=
  match recs with
  | [] => mret tt
  | rec :: recs => fn rec;; for_each fn recs
  end.

Section scan.
Context {version : Z} {R : Type} {F : LogFormat version R}.

Definition records (rs : list R) : bytes := concat (fmt_bytes <$> rs).

Fixpoint scan_from (pos : Z) (rs : list R) : list logRecord :=
  match rs with
  | [] => []
  | r :: rs => fmt_scanned pos r :: scan_from (pos + len (fmt_bytes r)) rs
  end.

(** The scan cannot get past [d]: it reports the error [d] ends with. *)
Definition stops (d : bytes) : Prop := ∀ pos t, ∃ e rd,
  read_next version pos (Reader d t) = (Err e, rd) ∧ is_eof e = is_eof t.

(** What an interrupted append can leave at the end of a log. *)
Definition torn (d : bytes) : Prop := d = [] ∨ stops d.

(** The scan of a file that ends with [d] takes [d] for a torn record. *)
Definition cut_off (d : bytes) : Prop := ∀ pos, ∃ e rd,
  read_next version pos (Reader d (Sentinel EOF)) = (Err e, rd) ∧ is_eof e = true.

(** What the scan drops in the world [w]: a torn record, or, on a system that
    does not fail, anything it takes for one. *)
Definition dropped (w : world) (d : bytes) : Prop := torn d ∨ clean w ∧ cut_off d.

(** The scan refuses a file that ends with [d]. *)
Definition unreadable (d : bytes) : Prop := ∀ pos, ∃ e rd,
  read_next version pos (Reader d (Sentinel EOF)) = (Err e, rd) ∧ is_eof e = false.

Lemma dropped_cut_off w d : dropped w d → d = [] ∨ cut_off d.
Proof using Type.
  intros [[|Hst]|[_ Hc]]; [by left|right; intros pos|by right].
  destruct (Hst pos (Sentinel EOF)) as (e & rd & Hrun & He). by exists e, rd.
Qed.

Lemma stops_strict_prefix r d x : fmt_ok r → fmt_bytes r = d ++ x → x ≠ [] → stops d.
Proof.
  intros Hr Hd Hx pos t.
  apply (streaming_torn _ (fmt_scanned pos r, pos + len (fmt_bytes r)) d x t t);
    [apply fmt_streaming| |done].
  rewrite <- Hd, <- (app_nil_r (fmt_bytes r)) at 1. by apply fmt_read.
Qed.

Lemma stops_prefix d x : stops (d ++ x) → stops d.
Proof using F.
  intros Hs pos t. destruct (Hs pos t) as (e & rd & Hrun & He).
  pose proof (fmt_streaming pos d x t t) as Hst. rewrite Hrun in Hst.
  destruct (read_next version pos (Reader d t)) as [[a|e'| |] rd'].
  - by destruct Hst as (d' & _ & [=]).
  - exists e', rd'. split; [done|]. destruct Hst as [|[= ->]]; done.
  - done.
  - done.
Qed.

Lemma records_app rs rs' : records (rs ++ rs') = records rs ++ records rs'.
Proof. unfold records. by rewrite fmap_app, concat_app. Qed.

Lemma records_snoc rs r : records (rs ++ [r]) = records rs ++ fmt_bytes r.
Proof. rewrite records_app. unfold records at 2. simpl. by rewrite app_nil_r. Qed.

Lemma length_records rs : Forall fmt_ok rs → len rs ≤ len (records rs).
Proof.
  induction 1 as [|r rs Hr _ IH]; [done|]. unfold records in *. csimpl.
  pose proof (fmt_nonempty r Hr). len_lia.
Qed.

Lemma scan_from_app pos rs rs' :
  scan_from pos (rs ++ rs') = scan_from pos rs ++ scan_from (pos + len (records rs)) rs'.
Proof.
  revert pos. induction rs as [|r rs IH]; intros pos; simpl.
  { by rewrite Z.add_0_r. }
  rewrite IH. unfold records. csimpl. do 3 f_equal. len_lia.
Qed.

(** The loop hands every record to the callback, in order. *)
Lemma Iterate_records {T} (fn : logRecord → M T unit) rs fuel fileSize pos d t st l w :
  Log.version l = version → Forall fmt_ok rs → pos + len (records rs) ≤ fileSize →
  Iterate_loop (length rs + fuel) fn fileSize pos (Reader (records rs ++ d) t) (st, (l, w)) =
  (on_fst (for_each fn (scan_from pos rs));;
   Iterate_loop fuel fn fileSize (pos + len (records rs)) (Reader d t)) (st, (l, w)).
Proof.
  intros Hv Hok. revert pos st.
  induction Hok as [|r rs Hr _ IH]; intros pos st Hsize.
  { simpl. by rewrite Z.add_0_r. }
  unfold records in *. csimpl in *. pose proof (fmt_nonempty r Hr).
  rewrite length_app in Hsize. rewrite (proj2 (Z.ltb_lt pos fileSize)) by lia.
  rewrite (M_bind_run (on_snd the_log) _ _ l (st, (l, w))) by done. rewrite Hv.
  rewrite <- app_assoc, fmt_read by done.
  destruct (Z.gtb_spec (pos + len (fmt_bytes r)) fileSize); [lia|].
  unfold on_fst, zoom, mbind, M_bind. simpl.
  destruct (fn (fmt_scanned pos r) st) as [[[]| | |] st']; try done.
  rewrite IH by lia. unfold on_fst, zoom, mbind, M_bind. simpl.
  destruct (for_each fn _ st') as [[[]| | |] st'']; try done.
  f_equal. rewrite length_app. lia.
Qed.

(** A prefix of a log: whole records, then part of one. *)
Lemma split_prefix n rs tl :
  Forall fmt_ok rs → torn tl → ∃ rs1 d,
    take n (records rs ++ tl) = records rs1 ++ d ∧ Forall fmt_ok rs1 ∧
    ((rs1 = rs ∧ d = tl) ∨
     (stops d ∧ len (records rs1) < len (records rs ++ tl))).
Proof.
  intros Hok Htl. revert n. induction Hok as [|r rs Hr Hok IH]; intros n.
  { exists [], (take n tl). split; [done|]. split; [done|]. change (records []) with (@nil byte).
    destruct (decide (length tl ≤ n)%nat); [left; by rewrite take_ge|]. right.
    destruct Htl as [->|Htl]; [simpl in *; lia|]. split; [|simpl; lia].
    apply (stops_prefix _ (drop n tl)). by rewrite take_drop. }
  pose proof (fmt_nonempty r Hr).
  assert (records (r :: rs) = fmt_bytes r ++ records rs) as -> by done.
  destruct (decide (length (fmt_bytes r) ≤ n)%nat) as [Hn|Hn].
  - destruct (IH (n - length (fmt_bytes r))%nat) as (rs1 & d & Htake & Hok1 & Hcase).
    exists (r :: rs1), d. assert (records (r :: rs1) = fmt_bytes r ++ records rs1) as -> by done.
    rewrite <- !app_assoc, take_app_ge, Htake by lia. split; [done|].
    split; [by constructor|]. destruct Hcase as [[-> ->]|[Hst Hlt]]; [by left|right].
    split; [done|]. simp_len. lia.
  - exists [], (take n (fmt_bytes r)).
    rewrite <- app_assoc, take_app_le by lia. split; [done|]. split; [done|].
    right. split; [|simpl; len_lia].
    apply (stops_strict_prefix r _ (drop n (fmt_bytes r))); [done|by rewrite take_drop|].
    intros Hnil%(f_equal length). simp_len. simpl in *. lia.
Qed.

Lemma Iterate_error {T} (fn : logRecord → M T unit) fuel fileSize pos rd rd' e st l w :
  Log.version l = version → read_next version pos rd = (Err e, rd') → pos < fileSize →
  Iterate_loop (S fuel) fn fileSize pos rd (st, (l, w)) =
  on_snd (torn_record pos e) (st, (l, w)).
Proof using Type.
  intros Hv Hrun Hpos. simpl. rewrite (proj2 (Z.ltb_lt pos fileSize)) by lia.
  rewrite (M_bind_run (on_snd the_log) _ _ l (st, (l, w))) by done. by rewrite Hv, Hrun.
Qed.

Lemma Iterate_stops {T} (fn : logRecord → M T unit) fuel fileSize pos d t st l w :
  Log.version l = version → stops d → pos < fileSize →
  ∃ e, is_eof e = is_eof t ∧
    Iterate_loop (S fuel) fn fileSize pos (Reader d t) (st, (l, w)) =
    on_snd (torn_record pos e) (st, (l, w)).
Proof using Type.
  intros Hv Hst Hpos. destruct (Hst pos t) as (e & rd & Hrun & He). exists e. split; [done|].
  by eapply Iterate_error.
Qed.

Lemma Iterate_done {T} (fn : logRecord → M T unit) fuel fileSize pos rd s :
  fileSize ≤ pos → Iterate_loop (S fuel) fn fileSize pos rd s = (Ok tt, s).
Proof using Type. intros. simpl. by rewrite (proj2 (Z.ltb_ge pos fileSize)) by lia. Qed.
End scan.

(** ** The scan as a whole *)

(** The state after the callback [g] has seen [recs]. *)
Definition replay {T} (g : logRecord → T → T) (recs : list logRecord) (st : T) : T :=
  foldl (λ st rec, g rec st) st recs.

Lemma for_each_modify {T} (g : logRecord → T → T) recs st :
  for_each (λ rec, modify (g rec)) recs st = (Ok tt, replay g recs st).
Proof. revert st. induction recs as [|rec recs IH]; intros st; [done|]. apply IH. Qed.

(** [torn_record] keeps [pre] and drops the torn tail, unless the log is
    read-only for this build: then the file is left as it is. *)
Lemma wp_torn_record (Q : res unit → LS → Prop) p pre tl l w e :
  log_ok p (pre ++ tl) [] l w → is_eof e = true →
  (∀ w', becomes w (if unknownReadOnly l =? 0 then <[p := pre]> (files w) else files w) w' →
    Q (Ok tt) (set_writePos (len pre) l, w')) →
  (∀ w' e', fails w (files w) w' → Q (Err e') (l, w') ∧ Q Crash (l, w')) →
  wp (torn_record (len pre) e) Q (l, w).
Proof.
  intros Hlog He HOk HFail. unfold torn_record. apply wp_the_log. simpl. rewrite He.
  pose proof (log_ok_content _ _ _ _ _ Hlog) as Hcont. rewrite app_nil_r in Hcont.
  destruct (unknownReadOnly l =? 0); [|by apply HOk].
  apply wp_bind, wp_bind, wp_attempt, wp_on_file; [apply Hlog|].
  apply wp_Truncate.
  - rewrite Hcont. len_lia.
  - intros w' Hw. rewrite Hcont, Nat2Z.id, take_app_length, (lo_path _ _ _ _ _ Hlog) in Hw.
    by apply HOk.
  - intros w' Hw. split; [|by apply (HFail w' e)]. apply wp_throw. by apply HFail.
Qed.

(** A torn tail behind a read error is reported, not dropped. *)
Lemma torn_record_kept pos e l w :
  is_eof e = false →
  torn_record pos e (l, w) = (Err (Errorf "at offset" [Sentinel ErrCorruptedData]), (l, w)).
Proof. intros He. unfold torn_record, the_log, mbind, M_bind. by rewrite He. Qed.

Lemma wp_snd_the_log {T A} (f : appendLog → M (T * LS) A) Q st l w :
  wp (f l) Q (st, (l, w)) → wp (on_snd the_log ≫= f) Q (st, (l, w)).
Proof. done. Qed.

Section iterate.
Context {version : Z} {R : Type} {F : LogFormat version R}.

(** The outcome of scanning [hdr ++ records rs ++ tl]. *)
Definition scans {T} (g : logRecord → T → T) (p hdr : bytes) (rs : list R) (tl : bytes)
    (st : T) (l : appendLog) (w : world) (r : res unit) (s' : T * LS) : Prop :=
  match r with
  | Ok _ =>
      s'.1 = replay g (scan_from logHeaderSize rs) st ∧ same_format l s'.2.1 ∧
      becomes w (if unknownReadOnly l =? 0 then <[p := hdr ++ records rs]> (files w)
                 else files w) s'.2.2 ∧
      log_ok p (hdr ++ records rs) (if unknownReadOnly l =? 0 then [] else tl) s'.2.1 s'.2.2
  | Err _ => fails w (files w) s'.2.2 ∧ s'.2.1 = l
  | Crash => fails w (files w) s'.2.2
  | Panic => False
  end.

Lemma scans_later {T} (g : logRecord → T → T) p hdr rs tl st l w w1 r s' :
  becomes w (files w) w1 → scans g p hdr rs tl st l w1 r s' → scans g p hdr rs tl st l w r s'.
Proof.
  intros [Hf Hc]. unfold scans, becomes, fails. rewrite Hf.
  destruct r; intuition lia.
Qed.

(** The loop from the first record on, for a reader that ends with [t]. *)
Lemma Iterate_loop_run {T} (g : logRecord → T → T) p hdr rs rs1 tl d t st l w :
  Log.version l = version → len hdr = logHeaderSize → Forall fmt_ok rs1 →
  log_ok p (hdr ++ records rs ++ tl) [] l w →
  len (records rs1) ≤ len (records rs ++ tl) →
  Iterate_loop (S (Z.to_nat (writePos l - logHeaderSize))) (λ rec, modify (g rec))
    (writePos l) logHeaderSize (Reader (records rs1 ++ d) t) (st, (l, w)) =
  Iterate_loop (S (Z.to_nat (writePos l - logHeaderSize) - length rs1)) (λ rec, modify (g rec))
    (writePos l) (logHeaderSize + len (records rs1)) (Reader d t)
    (replay g (scan_from logHeaderSize rs1) st, (l, w)).
Proof.
  intros Hv Hhdr Hok Hlog Hle. pose proof (length_records rs1 Hok).
  pose proof (lo_pos _ _ _ _ _ Hlog) as Hpos. rewrite length_app in Hpos.
  replace (S (Z.to_nat (writePos l - logHeaderSize))) with
    (length rs1 + S (Z.to_nat (writePos l - logHeaderSize) - length rs1))%nat by lia.
  rewrite Iterate_records by (done || lia). unfold on_fst, zoom, mbind, M_bind.
  simpl. by rewrite for_each_modify.
Qed.

Lemma wp_Iterate_loop {T} (g : logRecord → T → T) p hdr rs tl st l w0 w :
  becomes w0 (files w0) w →
  Log.version l = version → len hdr = logHeaderSize → Forall fmt_ok rs →
  tl = [] ∨ cut_off (version:=version) tl → log_ok p (hdr ++ records rs ++ tl) [] l w →
  wp (Iterate_loop (S (Z.to_nat (writePos l - logHeaderSize))) (λ rec, modify (g rec))
        (writePos l) logHeaderSize (Reader (records rs ++ tl) (Sentinel EOF)))
    (scans g p hdr rs tl st l w0) (st, (l, w)).
Proof.
  intros Hw0 Hv Hhdr Hok Htl Hlog. pose proof Hlog as [Hp Ho Hpos Hf].
  eapply wp_run; [by apply (Iterate_loop_run g p hdr rs rs tl); try done; len_lia|].
  assert (logHeaderSize + len (records rs) = len (hdr ++ records rs)) as Hend by len_lia.
  destruct (decide (tl = [])) as [->|Hne].
  { unfold wp. rewrite Iterate_done by len_lia. apply (scans_later _ _ _ _ _ _ _ _ w); [done|].
    simpl. rewrite !app_nil_r in *. split; [done|]. split; [done|].
    destruct (unknownReadOnly l =? 0); split; try done; by rewrite insert_id. }
  destruct Htl as [|Hst]; [done|].
  destruct (Hst (logHeaderSize + len (records rs))) as (e & rd & Hrun & He).
  eapply wp_run; [eapply Iterate_error; [done|exact Hrun|destruct tl; [done|len_lia]]|].
  rewrite Hend.
  rewrite app_assoc in Hlog. apply wp_zoom, (wp_torn_record _ p _ tl); [done|done|..].
  - intros w' Hw. apply (scans_later _ _ _ _ _ _ _ _ w); [done|].
    split; [done|]. split; [done|]. split; [done|]. destruct Hw as [Hw _].
    split; simpl; [done|done|done|]. rewrite Hw.
    destruct (unknownReadOnly l =? 0);
      [by rewrite lookup_insert_eq, app_nil_r|by rewrite Hf, app_nil_r, <- app_assoc].
  - intros w' e' Hw. by split; (apply (scans_later _ _ _ _ _ _ _ _ w); [done|]).
Qed.

(** A read error in the middle of the scan: nothing is dropped. *)
Lemma wp_Iterate_loop_cut {T} (g : logRecord → T → T) p hdr rs rs1 tl d st l w0 w :
  fails w0 (files w0) w →
  Log.version l = version → len hdr = logHeaderSize → Forall fmt_ok rs1 →
  log_ok p (hdr ++ records rs ++ tl) [] l w →
  stops (version:=version) d → len (records rs1) < len (records rs ++ tl) →
  wp (Iterate_loop (S (Z.to_nat (writePos l - logHeaderSize))) (λ rec, modify (g rec))
        (writePos l) logHeaderSize (Reader (records rs1 ++ d) EIO))
    (scans g p hdr rs tl st l w0) (st, (l, w)).
Proof.
  intros Hw0 Hv Hhdr Hok Hlog Hst Hlt. pose proof (lo_pos _ _ _ _ _ Hlog) as Hpos.
  unfold wp. rewrite (Iterate_loop_run g p hdr rs rs1 tl) by (done || lia).
  destruct (Iterate_stops (version:=version) (λ rec, modify (g rec))
    (Z.to_nat (writePos l - logHeaderSize) - length rs1) (writePos l)
    (logHeaderSize + len (records rs1)) d EIO
    (replay g (scan_from logHeaderSize rs1) st) l w) as (e & He & ->); [done|done|len_lia|].
  unfold on_snd, zoom. simpl. rewrite torn_record_kept by done. by split.
Qed.

Lemma wp_Iterate_dropped {T} (g : logRecord → T → T) p hdr rs tl st l w :
  Log.version l = version → len hdr = logHeaderSize → Forall fmt_ok rs →
  dropped (version:=version) w tl → log_ok p (hdr ++ records rs ++ tl) [] l w →
  wp (Iterate (λ rec, modify (g rec))) (scans g p hdr rs tl st l w) (st, (l, w)).
Proof.
  intros Hv Hhdr Hok Hdrop Hlog. pose proof (dropped_cut_off w tl Hdrop) as Hcut.
  pose proof (log_ok_content _ _ _ _ _ Hlog) as Hcont. rewrite app_nil_r in Hcont.
  unfold Iterate. apply wp_bind, wp_zoom, wp_on_file; [apply Hlog|]. unfold f_Seek.
  apply wp_sys_const; cbn [fst snd]; [|intros w' Hw; by split].
  intros w1 Hw1. apply wp_bind, wp_zoom, wp_on_file; [apply Hlog|].
  assert (drop (Z.to_nat logHeaderSize) (content (path l) w1) = records rs ++ tl) as Hdata.
  { rewrite (content_files _ _ _ (proj1 Hw1)), Hcont.
    replace (Z.to_nat logHeaderSize) with (length hdr) by lia. apply drop_app_length. }
  assert (∀ w2, files w2 = files w → log_ok p (hdr ++ records rs ++ tl) [] l w2) as Hlog2.
  { intros w2 Hw. eapply log_ok_world; [done|]. rewrite Hw. apply Hlog. }
  apply wp_Stream; rewrite Hdata; cbn [fst snd].
  - intros w2 Hw2. pose proof (becomes_then _ _ _ _ Hw1 Hw2) as Hw.
    apply wp_snd_the_log, wp_Iterate_loop; try done. apply Hlog2, Hw.
  - intros n w2 Hw2. pose proof (becomes_fails _ _ _ _ Hw1 Hw2) as Hw.
    split; [|exact Hw]. specialize (Hlog2 w2 (proj1 Hw)).
    destruct Hdrop as [Htl|[Hc _]]; [|destruct Hw; unfold clean in Hc; lia].
    apply wp_snd_the_log.
    destruct (split_prefix n rs tl Hok Htl) as (rs1 & d & -> & Hok1 & [[-> ->]|[Hst Hlt]]);
      [|by apply wp_Iterate_loop_cut].
    destruct (decide (tl = [])) as [->|Hne].
    + pose proof (lo_pos _ _ _ _ _ Hlog) as Hpos.
      apply (wp_run _ (Iterate_loop (S (Z.to_nat (writePos l - logHeaderSize)))
        (λ rec, modify (g rec)) (writePos l) logHeaderSize
        (Reader (records rs ++ []) (Sentinel EOF))) _ _ (st, (l, w2)));
        [|by apply wp_Iterate_loop; try done; apply fails_becomes].
      rewrite (Iterate_loop_run g p hdr rs rs [] [] EIO) by (done || len_lia).
      rewrite (Iterate_loop_run g p hdr rs rs [] [] (Sentinel EOF)) by (done || len_lia).
      by rewrite !Iterate_done by len_lia.
    + destruct Htl as [|Hst]; [done|].
      apply wp_Iterate_loop_cut; try done. destruct tl; [done|]. len_lia.
Qed.

Lemma wp_Iterate {T} (g : logRecord → T → T) p hdr rs tl st l w :
  Log.version l = version → len hdr = logHeaderSize → Forall fmt_ok rs →
  torn (version:=version) tl → log_ok p (hdr ++ records rs ++ tl) [] l w →
  wp (Iterate (λ rec, modify (g rec))) (scans g p hdr rs tl st l w) (st, (l, w)).
Proof. intros. apply wp_Iterate_dropped; try done. by left. Qed.

(** A tail that is no beginning of a record: the scan reports it. *)
Lemma Iterate_unreadable {T} (g : logRecord → T → T) p hdr rs tl st l w :
  Log.version l = version → len hdr = logHeaderSize → Forall fmt_ok rs → tl ≠ [] →
  unreadable (version:=version) tl → log_ok p (hdr ++ records rs ++ tl) [] l w → clean w →
  wp (Iterate (λ rec, modify (g rec)))
    (λ r st', r = Err (Errorf "at offset" [Sentinel ErrCorruptedData]) ∧ st'.2.1 = l ∧
       becomes w (files w) st'.2.2) (st, (l, w)).
Proof.
  intros Hv Hhdr Hok Hne Hbad Hlog Hc. unfold clean in Hc.
  pose proof (log_ok_content _ _ _ _ _ Hlog) as Hcont. rewrite app_nil_r in Hcont.
  unfold Iterate. apply wp_bind, wp_zoom, wp_on_file; [apply Hlog|]. unfold f_Seek.
  apply wp_sys_const; cbn [fst snd]; [|intros w' [_ Hl]; lia].
  intros w1 Hw1. apply wp_bind, wp_zoom, wp_on_file; [apply Hlog|].
  assert (drop (Z.to_nat logHeaderSize) (content (path l) w1) = records rs ++ tl) as Hdata.
  { rewrite (content_files _ _ _ (proj1 Hw1)), Hcont.
    replace (Z.to_nat logHeaderSize) with (length hdr) by lia. apply drop_app_length. }
  apply wp_Stream; rewrite Hdata; cbn [fst snd]; [|intros n w2 [_ Hl]; destruct Hw1; lia].
  intros w2 Hw2. pose proof (becomes_then _ _ _ _ Hw1 Hw2) as Hw.
  assert (log_ok p (hdr ++ records rs ++ tl) [] l w2) as Hlog2.
  { eapply log_ok_world; [done|]. rewrite (proj1 Hw). apply Hlog. }
  pose proof (lo_pos _ _ _ _ _ Hlog) as Hpos. apply wp_snd_the_log.
  eapply wp_run; [apply (Iterate_loop_run g p hdr rs rs tl); try done; len_lia|].
  destruct (Hbad (logHeaderSize + len (records rs))) as (e & rd & Hrun & He).
  eapply wp_run; [eapply Iterate_error; [done|exact Hrun|destruct tl; [done|len_lia]]|].
  apply wp_zoom. unfold wp. cbn [fst snd]. rewrite torn_record_kept by done. by split_and!.
Qed.
End iterate.

(** ** Termination

    On any file whatever, the scan ends without exhausting its fuel: every
    record it accepts moves it forward. *)

Lemma read_next_steps version pos : steps_from pos 4 (read_next version pos).
Proof.
  unfold read_next. case_match; [|apply readLegacyRecordFrom_steps].
  intros [d t]. pose proof (readRecordFrom_returns pos (Reader d t)) as Hret.
  destruct (readRecordFrom pos (Reader d t)) as [[[rec pos']| | |] rd'] eqn:E; try done.
  apply readRecordFrom_spec in E as (r & m & d' & _ & _ & _ & -> & _).
  pose proof (raw_size_bound r). lia.
Qed.

Lemma torn_record_total pos e s : wp (torn_record pos e) (λ r _, r ≠ Panic) s.
Proof.
  destruct s as [l w]. unfold torn_record. apply wp_the_log. simpl.
  destruct (is_eof e); [|done]. apply wp_bind. case_match; [|done].
  apply wp_bind, wp_attempt. unfold on_file, wp. simpl.
  destruct (file_open l); [|done]. unfold f_Truncate, sys_atomic, sys.
  by destruct (sched w) as [|[| |]].
Qed.

Lemma Iterate_loop_total {T} (fn : logRecord → M T unit) fuel fileSize pos r s :
  (∀ rec st, (fn rec st).1 ≠ Panic) → fileSize - pos ≤ Z.of_nat fuel →
  (Iterate_loop (S fuel) fn fileSize pos r s).1 ≠ Panic.
Proof.
  intros Hfn. revert pos r s. induction fuel as [|fuel IH]; intros pos r [st [l w]] Hfuel.
  { by rewrite Iterate_done by lia. }
  remember (S fuel) as n. simpl. zcase_one; [|done]. subst n.
  rewrite (M_bind_run (on_snd the_log) _ _ l (st, (l, w))) by done.
  pose proof (read_next_steps (version l) pos r) as Hstep.
  destruct (read_next (version l) pos r) as [[[rec pos']|e| |] rd']; try done.
  - zcase_one; [done|]. unfold on_fst, zoom. unfold mbind, M_bind. cbn [fst snd].
    pose proof (Hfn rec st). destruct (fn rec st) as [[[]| | |] st']; try done.
    apply IH. lia.
  - unfold on_snd, zoom. pose proof (torn_record_total pos e (l, w)) as Ht. unfold wp in Ht. simpl.
    by destruct (torn_record pos e (l, w)).
Qed.

Lemma Iterate_total {T} (fn : logRecord → M T unit) s :
  (∀ rec st, (fn rec st).1 ≠ Panic) → wp (Iterate fn) (λ r _, r ≠ Panic) s.
Proof.
  intros Hfn. destruct s as [st [l w]]. unfold Iterate.
  apply wp_bind, wp_zoom. unfold wp at 1, on_file, f_Seek, sys_atomic, sys. simpl.
  destruct (file_open l) eqn:Ho; [|done].
  assert (∀ w', wp (r ← on_snd (on_file (λ p, f_Stream p logHeaderSize));
    l ← on_snd the_log;
    Iterate_loop (S (Z.to_nat (writePos l - logHeaderSize))) fn (writePos l) logHeaderSize r)
    (λ r _, r ≠ Panic) (st, (l, w'))) as Hrest.
  { intros w'. apply wp_bind, wp_zoom, wp_on_file; [done|].
    apply wp_Stream; simpl; [|by split; [apply wp_snd_the_log, Iterate_loop_total; [|lia]|]].
    intros w2 _. apply wp_snd_the_log, Iterate_loop_total; [done|lia]. }
  destruct (sched w) as [|[| |]]; simpl; try done; apply Hrest.
Qed.
