(* ===== verification/Opening.v ===== *)
(** * Opening a log

    The header (magic, version, feature masks), [openAppendLogFile], and the
    recovery of an interrupted compaction that precedes it (log.go). *)

From S2P Require Import Prelude Go Crc32c Attributes Reader Record Legacy FileSystem Log LogSpec.
#[local] Open Scope Z_scope.

(** ** The header *)

Lemma length_logMagic : length logMagic = 4%nat.
Proof. done. Qed.
#[export] Hint Rewrite length_logMagic : len.

Lemma length_header v i ro : len (header_bytes v i ro) = logHeaderSize.
Proof. unfold header_bytes. len_lia. Qed.

(** Fields that fit the header. *)
Definition header_ok (v i ro : Z) : Prop :=
  1 ≤ v ≤ logVersion ∧ 0 ≤ i < 2 ^ 32 ∧ 0 ≤ ro < 2 ^ 32.

(** The masks a reader takes from the header: version 5 introduced them. *)
Definition header_masks (v i ro : Z) : Z * Z := if 5 <=? v then (i, ro) else (0, 0).

(** The log after its header has been read. *)
Definition with_header (v i ro : Z) (l : appendLog) : appendLog :=
  if 5 <=? v then set_features i ro (set_version v l) else set_version v l.

Lemma header_fields v i ro :
  header_ok v i ro →
  go_slice 0 4 (header_bytes v i ro) = Ok logMagic ∧
  (go_slice 4 8 (header_bytes v i ro) ≫= Uint32) = Ok v ∧
  (go_slice 8 12 (header_bytes v i ro) ≫= Uint32) = Ok i ∧
  (go_slice 12 16 (header_bytes v i ro) ≫= Uint32) = Ok ro.
Proof.
  intros (Hv & Hi & Hr). unfold header_bytes.
  rewrite (go_slice_at 0 4 _ [] logMagic (put32 v ++ put32 i ++ put32 ro))
    by (done || len_lia).
  rewrite (go_slice_at 4 8 _ logMagic (put32 v) (put32 i ++ put32 ro)) by (done || len_lia).
  rewrite (go_slice_at 8 12 _ (logMagic ++ put32 v) (put32 i) (put32 ro))
    by (by rewrite <- app_assoc || len_lia).
  rewrite (go_slice_at 12 16 _ (logMagic ++ put32 v ++ put32 i) (put32 ro) [])
    by (by rewrite app_nil_r, <- !app_assoc || len_lia).
  simpl. rewrite !Uint32_put_only by zlia. done.
Qed.

(** Reading back a header: the masks count from version 5 on, and an unknown
    incompatible bit refuses the log. *)
Lemma wp_readHeader (Q : res unit → LS → Prop) v i ro body l w :
  header_ok v i ro → file_open l = true → content (path l) w = header_bytes v i ro ++ body →
  incompatibleFeatures l = 0 →
  (∀ w', becomes w (files w) w' →
    Q (if Z.eqb (header_masks v i ro).1 0 then Ok tt
       else Err (unknownFeatureError "incompatible" (header_masks v i ro).1))
      (with_header v i ro l, w')) →
  (∀ w', fails w (files w) w' →
    Q (Err (Errorf "read header" [Sentinel ErrCorruptedData])) (l, w') ∧ Q Crash (l, w')) →
  wp readHeader Q (l, w).
Proof.
  intros Hh Ho Hc Hi0 HOk HFail. unfold readHeader.
  apply wp_bind, wp_attempt, wp_on_file; [done|].
  apply wp_ReadAt; [lia|done|rewrite Hc; pose proof (length_header v i ro); len_lia|..];
    [|intros w' Hw; by apply HFail].
  intros w' Hw. rewrite Hc, slice_app_l, slice_all
    by (try done; by rewrite length_header).
  destruct (header_fields v i ro Hh) as (E0 & E1 & E2 & E3). destruct Hh as (Hv & Hi & Hr).
  apply wp_lift_bind. rewrite E0. rewrite bool_decide_true by done. cbn [negb].
  apply wp_lift_bind. rewrite E1.
  rewrite (proj2 (Z.eqb_neq v 0)) by lia. destruct (Z.gtb_spec v logVersion); [lia|].
  apply wp_modify_log. cbn [fst snd]. specialize (HOk w' Hw).
  unfold with_header, header_masks in HOk. apply wp_bind.
  destruct (5 <=? v) eqn:H5.
  - apply wp_lift_bind. rewrite E2. apply wp_lift_bind. rewrite E3.
    unfold wp at 1. simpl. apply wp_the_log. simpl. rewrite Z.ldiff_0_r. simpl in HOk. by destruct (i =? 0).
  - apply wp_ret, wp_the_log. simpl. by rewrite Hi0.
Qed.

(** ** Opening a file *)

Lemma wp_with_log {A} l (m : M LS A) (Q : res (A * appendLog) → world → Prop) w :
  wp m (λ r s', match r with
                | Ok a => Q (Ok (a, s'.1)) s'.2
                | Err e => Q (Err e) s'.2
                | Panic => Q Panic s'.2
                | Crash => Q Crash s'.2
                end) (l, w) →
  wp (with_log l m) Q w.
Proof. unfold wp, with_log. by destruct (m (l, w)) as [[] []]. Qed.

(** [if err != nil { _ = file.Close(); return err }] *)
Lemma wp_on_err_close {A} (m : M world A) p (Q : res A → world → Prop) w :
  wp m (λ r w', match r with
                | Err e => (∀ w'', becomes w' (files w') w'' → Q (Err e) w'') ∧
                           (∀ w'', fails w' (files w') w'' → Q Crash w'')
                | r => Q r w'
                end) w →
  wp (on_err m (ignore (f_Close p))) Q w.
Proof.
  intros Hm. apply wp_bind, wp_attempt. eapply wp_mono; [exact Hm|].
  intros [a|e| |] w' HQ; try done.
  apply wp_bind, wp_ignore, wp_sys_const.
  - intros w'' Hw. by apply HQ.
  - intros w'' Hw. split; [by apply HQ, fails_becomes|by apply HQ].
Qed.

(** Opening an existing log never changes it. *)
Definition opens (p : bytes) (v i ro : Z) (c : bytes) (w : world)
    (r : res appendLog) (w' : world) : Prop :=
  becomes w (files w) w' ∧
  match r with
  | Ok l => log_ok p c [] l w' ∧ version l = v ∧
            (incompatibleFeatures l, readOnlyFeatures l) = header_masks v i ro ∧
            (header_masks v i ro).1 = 0
  | Err e => failed w w' ∨
             (header_masks v i ro).1 ≠ 0 ∧ errors_Is e ErrUnsupportedFeature = true
  | Crash => failed w w'
  | Panic => False
  end.

Lemma opens_later p v i ro c w w1 r w' :
  becomes w (files w) w1 → opens p v i ro c w1 r w' → opens p v i ro c w r w'.
Proof.
  intros [Hf Hc] [[Hf' Hl] Hr]. split; [split; [congruence|lia]|].
  destruct r; intuition lia.
Qed.

Lemma opens_err p v i ro c w w' e : fails w (files w) w' → opens p v i ro c w (Err e) w'.
Proof. intros [Hf Hl]. split; [split; [done|lia]|auto]. Qed.

Lemma opens_crash p v i ro c w w' : fails w (files w) w' → opens p v i ro c w Crash w'.
Proof. intros [Hf Hl]. split; [split; [done|lia]|auto]. Qed.
#[local] Hint Resolve opens_err opens_crash : world.

Lemma wp_openAppendLogFile p v i ro body w :
  header_ok v i ro → files w !! p = Some (header_bytes v i ro ++ body) →
  wp (openAppendLogFile p) (opens p v i ro (header_bytes v i ro ++ body) w) w.
Proof.
  intros Hh Hf. pose proof (length_header v i ro) as Hlen.
  unfold openAppendLogFile. apply wp_bind, wp_sys_atomic; [|by auto with world].
  intros w1 Hw1. unfold wp at 1. rewrite (proj1 Hw1), Hf. cbn [fst snd].
  eapply wp_mono; [|intros r w'; apply opens_later, Hw1].
  rewrite <- (proj1 Hw1) in Hf. clear Hw1 w. rename w1 into w.
  assert (content p w = header_bytes v i ro ++ body) as Hc by (unfold content; by rewrite Hf).
  apply wp_bind, wp_on_err_close, wp_Stat; rewrite ?Hc.
  2:{ intros w' Hw. split; [|by auto with world]. split; eauto with world. }
  intros w1 Hw1. rewrite (proj2 (Z.eqb_neq _ 0)) by len_lia.
  apply wp_bind, wp_bind, wp_on_err_close, wp_with_log, (wp_readHeader _ v i ro body); try done.
  { by rewrite (content_files _ _ _ (proj1 Hw1)). }
  2:{ intros w' Hw. simpl. split; [|by eauto with world]. split; eauto with world. }
  intros w2 Hw2. destruct (Z.eqb_spec (header_masks v i ro).1 0) as [Hm|Hm]; simpl.
  - set (l := set_writePos _ (with_header v i ro (new_log p))).
    apply wp_ret, wp_bind, wp_with_log, wp_remap; [by unfold l, with_header; case_match|..]; simpl.
    + intros m d w3 Hw3. apply wp_ret.
      assert (becomes w (files w) w3) as Hw by eauto with world.
      split; [done|]. split_and!; [|by unfold l, with_header; case_match|
        by unfold l, with_header, header_masks; case_match|done].
      split; [by unfold l, with_header; case_match..|]. by rewrite (proj1 Hw), app_nil_r.
    + intros l' w3 Hw3. apply opens_crash; eauto with world.
  - split; [|intros w3 Hw3; apply opens_crash; eauto with world].
    intros w3 Hw3. split; [eauto with world|by right].
Qed.

(** ** Interrupted compactions

    Which file holds the database is decided by which of the four names
    exist; [survivor] is that file's contents. *)

Definition survivor (p : bytes) (fs : gmap bytes bytes) : option bytes :=
  match fs !! p with
  | Some c => Some c
  | None =>
      match fs !! (p ++ compactionReadySuffix) with
      | Some c => Some c
      | None =>
          match fs !! (p ++ compactionBackupSuffix) with
          | Some c => Some c
          | None => fs !! (p ++ legacyCompactionSuffix)
          end
      end
  end.

(** A step that loses nothing: the same database survives, and no file but
    the log and its artifacts is touched. *)
Record keeps (p : bytes) (w w' : world) : Prop := {
  keeps_survivor : survivor p (files w') = survivor p (files w);
  keeps_others q : q ∉ p :: artifacts p → files w' !! q = files w !! q;
  keeps_later : later w w'
}.

Lemma keeps_refl p w : keeps p w w.
Proof. by split. Qed.
Lemma keeps_trans p w1 w2 w3 : keeps p w1 w2 → keeps p w2 w3 → keeps p w1 w3.
Proof.
  intros [H1 H2 H3] [H4 H5 H6]. split; [congruence| |lia].
  intros q Hq. by rewrite H5, H2.
Qed.
Lemma keeps_becomes p w w' : becomes w (files w) w' → keeps p w w'.
Proof. intros [Hf Hc]. by split; rewrite ?Hf. Qed.

Lemma suffix_ne (p s s' : bytes) : s ≠ s' → p ++ s ≠ p ++ s'.
Proof. intros Hs Heq. by apply (inj (app p)) in Heq. Qed.
Lemma suffix_ne_nil (p s : bytes) : s ≠ [] → p ++ s ≠ p.
Proof. intros Hs Heq. rewrite <- (app_nil_r p) in Heq at 2. by apply (inj (app p)) in Heq. Qed.

Lemma artifact_ne p q : q ∈ artifacts p → q ≠ p.
Proof.
  unfold artifacts. intros Hq ->. rewrite !elem_of_cons in Hq.
  destruct Hq as [Heq|[Heq|[Heq|[Heq|Hq]]]]; try (symmetry in Heq; by apply suffix_ne_nil in Heq).
  by apply elem_of_nil in Hq.
Qed.

(** With the log in place, or with no other copy of it, the artifacts can go. *)
Definition settled (p : bytes) (fs : gmap bytes bytes) : Prop :=
  is_Some (fs !! p) ∨ survivor p fs = None.

Lemma survivor_None p fs :
  survivor p fs = None ↔
  fs !! p = None ∧ fs !! (p ++ compactionReadySuffix) = None ∧
  fs !! (p ++ compactionBackupSuffix) = None ∧ fs !! (p ++ legacyCompactionSuffix) = None.
Proof. unfold survivor. repeat case_match; naive_solver. Qed.

Lemma settled_survivor p fs : settled p fs → survivor p fs = fs !! p.
Proof.
  intros [[c Hc]|Hn]; [unfold survivor; by rewrite Hc|].
  rewrite Hn. symmetry. by apply survivor_None in Hn as [? _].
Qed.

Lemma settled_delete p q fs :
  settled p fs → q ∈ artifacts p →
  settled p (delete q fs) ∧ survivor p (delete q fs) = survivor p fs.
Proof.
  intros Hs Hq%artifact_ne. destruct Hs as [[c Hc]|Hn].
  - assert (delete q fs !! p = Some c) as Hd by (by rewrite lookup_delete_ne).
    split; [by left|]. unfold survivor. by rewrite Hd, Hc.
  - assert (survivor p (delete q fs) = None) as Hd; [|split; [by right|congruence]].
    rewrite survivor_None in *. destruct Hn as (? & ? & ? & ?).
    split_and!; by apply lookup_delete_None; right.
Qed.

Lemma keeps_delete p q w w' :
  settled p (files w) → q ∈ artifacts p → becomes w (delete q (files w)) w' →
  keeps p w w' ∧ settled p (files w').
Proof.
  intros Hs Hq [Hf Hc]. destruct (settled_delete p q _ Hs Hq) as [Hs' Hsv].
  rewrite Hf. split; [|done]. split; rewrite ?Hf; [done| |done].
  intros r Hr. rewrite lookup_delete_ne; [done|]. intros ->. set_solver.
Qed.

Lemma wp_remove_artifact p q w (Q : res unit → world → Prop) :
  settled p (files w) → q ∈ artifacts p →
  (∀ w', keeps p w w' → settled p (files w') → becomes w (delete q (files w)) w' → Q (Ok tt) w') →
  (∀ w' e, keeps p w w' → failed w w' → Q (Err e) w' ∧ Q Crash w') →
  wp (removeIfExists q) Q w.
Proof.
  intros Hs Hq HOk HFail. apply wp_removeIfExists.
  - intros w' Hw. destruct (keeps_delete p q w w') as [? ?]; auto.
  - intros w' e Hw. apply HFail; [by apply keeps_becomes, fails_becomes|apply Hw].
Qed.

Lemma wp_removeAll p qs w (Q : res unit → world → Prop) :
  settled p (files w) → (∀ q, q ∈ qs → q ∈ artifacts p) →
  (∀ w', keeps p w w' → settled p (files w') →
    files w' = foldl (λ fs q, delete q fs) (files w) qs → Q (Ok tt) w') →
  (∀ w' e, keeps p w w' → failed w w' → Q (Err e) w' ∧ Q Crash w') →
  wp (removeAll qs) Q w.
Proof.
  revert w. induction qs as [|q qs IH]; intros w Hs Hq HOk HFail; simpl.
  { apply wp_ret, HOk; [apply keeps_refl|done|done]. }
  apply wp_bind, (wp_remove_artifact p); [done|apply Hq; set_solver|..].
  - intros w1 Hk Hs1 [Hf Hc]. apply IH; [done|set_solver|..].
    + intros w2 Hk2 Hs2 Hf2. apply HOk; [by eapply keeps_trans|done|]. by rewrite Hf2, Hf.
    + intros w2 e Hk2 Hd. apply HFail; [by eapply keeps_trans|]. destruct Hk. lia.
  - intros w1 e Hk Hd. by apply HFail.
Qed.

Lemma foldl_delete_None (q : bytes) (qs : list bytes) (fs : gmap bytes bytes) :
  q ∈ qs ∨ fs !! q = None → foldl (λ fs q, delete q fs) fs qs !! q = None.
Proof.
  revert fs. induction qs as [|q' qs IH]; intros fs Hq; simpl.
  { destruct Hq as [Hq|]; [by apply elem_of_nil in Hq|done]. }
  apply IH. rewrite elem_of_cons in Hq. destruct Hq as [[->|]|]; auto.
  - right. apply lookup_delete_eq.
  - right. apply lookup_delete_None. auto.
Qed.

(** The outcome of the recovery: whenever it stops, the same database
    survives; when it succeeds, the log is in place and no artifact is left. *)
Definition recovers (p : bytes) (w : world) (r : res unit) (w' : world) : Prop :=
  keeps p w w' ∧
  match r with
  | Ok _ => files w' !! p = survivor p (files w) ∧
            (∀ q, q ∈ artifacts p → files w' !! q = None)
  | Err _ | Crash => failed w w'
  | Panic => False
  end.

Lemma recovers_later p w w1 r w' :
  keeps p w w1 → recovers p w1 r w' → recovers p w r w'.
Proof.
  intros Hk [Hk' Hr]. split; [by eapply keeps_trans|]. destruct Hk as [Hs _ Hc].
  rewrite <- Hs. destruct r; intuition lia.
Qed.

(** The last part: remove every artifact and sync the directory. *)
Lemma wp_recover_finish p (b : bool) w :
  settled p (files w) →
  wp (removeAll (artifacts p);;
      if b then wrap "sync directory after compaction recovery" (syncParentDirectory p)
      else mret tt) (recovers p w) w.
Proof.
  intros Hs. apply wp_bind, (wp_removeAll p); [done|done|..].
  - intros w1 Hk Hs1 Hf1.
    assert (∀ w', becomes w1 (files w1) w' → recovers p w (Ok tt) w') as Hend.
    { intros w' Hw. split; [eapply keeps_trans; [done|by apply keeps_becomes]|].
      rewrite (proj1 Hw). split.
      - by rewrite <- (keeps_survivor _ _ _ Hk), settled_survivor.
      - intros q Hq. rewrite Hf1. apply foldl_delete_None. by left. }
    destruct b; [|by apply Hend].
    apply wp_wrap, wp_sys_const; [done|]. intros w' Hw.
    assert (keeps p w w') by (eapply keeps_trans; [done|by apply keeps_becomes, fails_becomes]).
    destruct Hk as [_ _ Hl], Hw as [_ Hl']. split; (split; [done|lia]).
  - intros w1 e Hk Hd. by split.
Qed.

(** Putting an artifact in the place of a missing log. *)
Lemma keeps_install p q c w w' :
  files w !! p = None → q ∈ artifacts p → survivor p (files w) = Some c →
  becomes w (<[p := c]> (delete q (files w))) w' → keeps p w w' ∧ settled p (files w').
Proof.
  intros Hp Hq Hsv [Hf Hc].
  assert (files w' !! p = Some c) as Hp' by (by rewrite Hf, lookup_insert_eq).
  split; [|by left; rewrite Hp']. split; [|intros r Hr|done].
  - unfold survivor at 1. by rewrite Hp', Hsv.
  - rewrite Hf, lookup_insert_ne, lookup_delete_ne; set_solver.
Qed.

Lemma wp_install p q c w (Q : res unit → world → Prop) fmt :
  files w !! p = None → q ∈ artifacts p → files w !! q = Some c →
  survivor p (files w) = Some c →
  (∀ w', keeps p w w' → settled p (files w') → Q (Ok tt) w') →
  (∀ w' e, keeps p w w' → failed w w' → Q (Err e) w' ∧ Q Crash w') →
  wp (wrap fmt (os_Rename q p)) Q w.
Proof.
  intros Hp Hq Hc Hsv HOk HFail. apply wp_wrap, (wp_os_Rename _ _ _ c); [done|..].
  - intros w' Hw. destruct (keeps_install p q c w w'); auto.
  - intros w' Hw. pose proof (keeps_becomes p w w' (fails_becomes _ _ _ Hw)).
    destruct Hw as [_ Hl]. split; [by apply HFail|by apply (HFail w' EIO)].
Qed.

Lemma artifacts_elem p :
  p ++ compactionTempSuffix ∈ artifacts p ∧ p ++ compactionReadySuffix ∈ artifacts p ∧
  p ++ compactionBackupSuffix ∈ artifacts p ∧ p ++ legacyCompactionSuffix ∈ artifacts p.
Proof. unfold artifacts. set_solver. Qed.

(** The four-way choice: afterwards the log is in place, if there is one. *)
Lemma wp_recover_switch p w :
  wp (if bool_decide (is_Some (files w !! p)) then
        removeIfExists (p ++ compactionReadySuffix);;
        removeIfExists (p ++ compactionBackupSuffix);;
        removeIfExists (p ++ legacyCompactionSuffix)
      else if bool_decide (is_Some (files w !! (p ++ compactionReadySuffix))) then
        wrap "complete interrupted compaction" (os_Rename (p ++ compactionReadySuffix) p);;
        removeIfExists (p ++ compactionBackupSuffix)
      else if bool_decide (is_Some (files w !! (p ++ compactionBackupSuffix))) then
        wrap "restore interrupted compaction" (os_Rename (p ++ compactionBackupSuffix) p)
      else if bool_decide (is_Some (files w !! (p ++ legacyCompactionSuffix))) then
        wrap "restore legacy interrupted compaction" (os_Rename (p ++ legacyCompactionSuffix) p)
      else mret tt)
    (λ r w', keeps p w w' ∧
       match r with
       | Ok _ => settled p (files w')
       | Err _ | Crash => failed w w'
       | Panic => False
       end) w.
Proof.
  destruct (artifacts_elem p) as (_ & Hr & Hb & Hl).
  destruct (files w !! p) as [c|] eqn:Hp.
  { assert (settled p (files w)) as Hs by (by left; rewrite Hp).
    apply wp_bind, (wp_remove_artifact p); [done|done|intros w1 Hk1 Hs1 _|done].
    apply wp_bind, (wp_remove_artifact p); [done|done|intros w2 Hk2 Hs2 _|].
    2:{ intros w2 e Hk2 Hd. pose proof (keeps_later _ _ _ Hk1).
        split; (split; [by eapply keeps_trans|lia]). }
    pose proof (keeps_trans _ _ _ _ Hk1 Hk2) as Hk.
    apply (wp_remove_artifact p); [done|done|intros w3 Hk3 Hs3 _|].
    - split; [by eapply keeps_trans|done].
    - intros w3 e Hk3 Hd. pose proof (keeps_later _ _ _ Hk).
      split; (split; [by eapply keeps_trans|lia]). }
  rewrite bool_decide_false by (intros []; done).
  destruct (files w !! (p ++ compactionReadySuffix)) as [c|] eqn:Hrd.
  { rewrite bool_decide_true by done.
    apply wp_bind, (wp_install p _ c); [done|done|done| |intros w1 Hk1 Hs1|done].
    { unfold survivor. by rewrite Hp, Hrd. }
    apply (wp_remove_artifact p); [done|done|intros w2 Hk2 Hs2 _|].
    - split; [by eapply keeps_trans|done].
    - intros w2 e Hk2 Hd. pose proof (keeps_later _ _ _ Hk1).
      split; (split; [by eapply keeps_trans|lia]). }
  rewrite bool_decide_false by (intros []; done).
  destruct (files w !! (p ++ compactionBackupSuffix)) as [c|] eqn:Hbk.
  { rewrite bool_decide_true by done.
    apply (wp_install p _ c); [done|done|done| |done|done].
    unfold survivor. by rewrite Hp, Hrd, Hbk. }
  rewrite bool_decide_false by (intros []; done).
  destruct (files w !! (p ++ legacyCompactionSuffix)) as [c|] eqn:Hlg.
  { rewrite bool_decide_true by done.
    apply (wp_install p _ c); [done|done|done| |done|done].
    unfold survivor. by rewrite Hp, Hrd, Hbk, Hlg. }
  rewrite bool_decide_false by (intros []; done).
  apply wp_ret. split; [apply keeps_refl|]. right. by apply survivor_None.
Qed.

(** [recoverCompactionArtifacts] loses nothing, wherever it is stopped. *)
Lemma wp_recoverCompactionArtifacts p w :
  wp (recoverCompactionArtifacts p) (recovers p w) w.
Proof.
  destruct (artifacts_elem p) as (Ht & Hr & Hb & Hl).
  unfold recoverCompactionArtifacts.
  assert (∀ w', fails w (files w) w' →
    (∀ e, recovers p w (Err e) w') ∧ recovers p w Crash w') as Hfail.
  { intros w' Hw. pose proof (keeps_becomes p w w' (fails_becomes _ _ _ Hw)).
    split; [intros e|]; (split; [done|apply Hw]). }
  apply wp_bind, wp_fileExists; [|intros; by split; apply Hfail].
  intros w1 Hw1. rewrite <- (proj1 Hw1).
  apply wp_bind, wp_fileExists; [|intros; by split; apply Hfail; eauto with world].
  intros w2 Hw2. apply (becomes_then _ _ _ _ Hw1) in Hw2. rewrite (proj1 Hw1), <- (proj1 Hw2).
  apply wp_bind, wp_fileExists; [|intros; by split; apply Hfail; eauto with world].
  intros w3 Hw3. apply (becomes_then _ _ _ _ Hw2) in Hw3. rewrite (proj1 Hw2), <- (proj1 Hw3).
  apply wp_bind, wp_fileExists; [|intros; by split; apply Hfail; eauto with world].
  intros w4 Hw4. apply (becomes_then _ _ _ _ Hw3) in Hw4. rewrite (proj1 Hw3), <- (proj1 Hw4).
  apply wp_bind, wp_fileExists; [|intros; by split; apply Hfail; eauto with world].
  intros w5 Hw. apply (becomes_then _ _ _ _ Hw4) in Hw. rewrite (proj1 Hw4), <- (proj1 Hw).
  clear Hfail Hw1 Hw2 Hw3 Hw4.
  eapply wp_mono; [|intros r w'; apply recovers_later, keeps_becomes, Hw].
  apply wp_bind. eapply wp_mono; [apply wp_recover_switch|].
  intros [[]|e| |] w6 [Hk Hcase]; try done.
  eapply wp_mono; [by apply wp_recover_finish|intros r w'; by apply recovers_later].
Qed.

(** ** Creating a log *)

Definition fresh_header : bytes := header_bytes logVersion 0 0.

Definition creates (p : bytes) (w : world) (r : res appendLog) (w' : world) : Prop :=
  (∀ q, q ≠ p → files w' !! q = files w !! q) ∧ later w w' ∧
  match r with
  | Ok l => log_ok p fresh_header [] l w' ∧ version l = logVersion ∧
            incompatibleFeatures l = 0 ∧ readOnlyFeatures l = 0
  | Err _ | Crash =>
      failed w w' ∧
      (files w' !! p = files w !! p ∨ ∃ n, files w' !! p = Some (take n fresh_header))
  | Panic => False
  end.

Lemma wp_new_header p w (Q : res (unit * appendLog) → world → Prop) :
  content p w = [] →
  (∀ w', becomes w (<[p := fresh_header]> (files w)) w' → Q (Ok (tt, new_log p)) w') →
  (∀ n w', fails w (<[p := take n fresh_header]> (files w)) w' →
    Q (Err EIO) w' ∧ Q Crash w') →
  wp (on_err (with_log (new_log p) writeHeader) (ignore (f_Close p))) Q w.
Proof.
  intros Hc HOk HFail. apply wp_on_err_close, wp_with_log. unfold writeHeader.
  assert (∀ b : bytes, write_bytes 0 b [] = b) as Hwb.
  { intros b. pose proof (write_bytes_end 0 b [] [] eq_refl) as Hb. simpl in Hb.
    by rewrite drop_nil, app_nil_r in Hb. }
  apply wp_the_log, wp_on_file; [done|]. apply wp_WriteAt; simpl; rewrite Hc.
  - intros w' Hw. rewrite Hwb in Hw. by apply HOk.
  - intros n w' Hw. rewrite Hwb in Hw. split; [|by apply (HFail n w')].
    split; intros w'' Hw'; apply (HFail n w''); [|apply fails_becomes in Hw'];
      by eapply fails_then.
Qed.

(** What a step that writes only [p] leaves of the other files. *)
Lemma insert_others w p c w' q :
  files w' = <[p := c]> (files w) → q ≠ p → files w' !! q = files w !! q.
Proof. intros Hf Hq. by rewrite Hf, lookup_insert_ne. Qed.

(** The end of both ways of creating a log. *)
Lemma wp_create_finish p w0 w :
  files w !! p = Some fresh_header → (∀ q, q ≠ p → files w !! q = files w0 !! q) → later w0 w →
  wp ('(_, log) ← with_log (set_writePos logHeaderSize (new_log p)) remap; mret log)
    (creates p w0) w.
Proof.
  intros Hp Ho Hl. apply wp_bind, wp_with_log, wp_remap; [done|..]; simpl.
  - intros m d w' [Hf Hl']. unfold wp, creates. simpl. rewrite Hf.
    split_and!; [done|lia| |done..].
    split; [done|done|done|]. by rewrite Hf, app_nil_r.
  - intros l' w' [Hf Hl']. unfold creates. rewrite Hf. split_and!; [done|lia|lia|].
    right. exists (length fresh_header). by rewrite firstn_all.
Qed.

Lemma creates_fail p w w' e :
  (∀ q, q ≠ p → files w' !! q = files w !! q) → failed w w' →
  (files w' !! p = files w !! p ∨ ∃ n, files w' !! p = Some (take n fresh_header)) →
  creates p w (Err e) w' ∧ creates p w Crash w'.
Proof. intros Ho Hl Hp. unfold creates. split_and!; auto; lia. Qed.

(** Writing the header of a new file, from the moment it exists. *)
Lemma wp_create_header {B} p w0 w (k : unit * appendLog → M world B) Q :
  files w !! p = Some [] → (∀ q, q ≠ p → files w !! q = files w0 !! q) → later w0 w →
  (∀ w', files w' !! p = Some fresh_header → (∀ q, q ≠ p → files w' !! q = files w0 !! q) →
    later w0 w' → wp (k (tt, new_log p)) Q w') →
  (∀ e w', creates p w0 (Err e) w' ∧ creates p w0 Crash w' → Q (Err e) w' ∧ Q Crash w') →
  wp (on_err (with_log (new_log p) writeHeader) (ignore (f_Close p)) ≫= k) Q w.
Proof.
  intros Hp Ho Hl HOk HFail. apply wp_bind, wp_new_header.
  - unfold content. by rewrite Hp.
  - intros w' [Hf Hl']. apply HOk; [by rewrite Hf, lookup_insert_eq| |lia].
    intros q Hq. rewrite (insert_others _ _ _ _ _ Hf Hq). auto.
  - intros n w' [Hf Hl']. apply HFail, creates_fail; [|lia|].
    + intros q Hq. rewrite (insert_others _ _ _ _ _ Hf Hq). auto.
    + right. exists n. by rewrite Hf, lookup_insert_eq.
Qed.

Lemma wp_createAppendLogMode p w : wp (createAppendLogMode p) (creates p w) w.
Proof.
  unfold createAppendLogMode. apply wp_bind, wp_sys_atomic.
  2:{ intros w' [Hf Hl]. apply creates_fail; [by rewrite Hf|done|by left; rewrite Hf]. }
  intros w1 [Hf1 Hl1]. unfold wp at 1. simpl.
  apply (wp_create_header p w); simpl.
  - by rewrite lookup_insert_eq.
  - intros q Hq. by rewrite lookup_insert_ne, Hf1.
  - done.
  - intros w' Hp Ho Hl. by apply wp_create_finish.
  - done.
Qed.

(** [openAppendLogFile] of a path with no log, or an empty one, creates it. *)
Lemma wp_openAppendLogFile_new p w :
  files w !! p = None ∨ files w !! p = Some [] →
  wp (openAppendLogFile p) (creates p w) w.
Proof.
  intros Hnew. unfold openAppendLogFile. apply wp_bind, wp_sys_atomic.
  2:{ intros w' [Hf Hl]. apply creates_fail; [by rewrite Hf|done|by left; rewrite Hf]. }
  intros w1 [Hf1 Hl1]. unfold wp at 1.
  set (w2 := if decide (files w !! p = None) then set_file p [] w1 else w1).
  assert (files w2 !! p = Some [] ∧ (∀ q, q ≠ p → files w2 !! q = files w !! q) ∧
    later w w2) as (Hp2 & Ho2 & Hl2).
  { unfold w2. case_decide as Hn; simpl; rewrite Hf1; [|naive_solver].
    split_and!; [by rewrite lookup_insert_eq|by intros; rewrite lookup_insert_ne|done]. }
  assert (match files w1 !! p with Some _ => (Ok tt, w1) | None => (Ok tt, set_file p [] w1) end
    = (Ok tt, w2)) as ->.
  { unfold w2. rewrite Hf1. destruct (files w !! p); by case_decide. }
  cbn [fst snd].
  assert (content p w2 = []) as Hcont by (unfold content; by rewrite Hp2).
  assert (∀ e w', fails w2 (files w2) w' →
    creates p w (Err e) w' ∧ creates p w Crash w') as Hfail.
  { intros e w' [Hf Hl]. apply creates_fail; [by rewrite Hf|lia|].
    right. exists 0%nat. by rewrite Hf. }
  apply wp_bind, wp_on_err_close, wp_Stat; rewrite ?Hcont.
  2:{ intros w' Hw. split; [|by apply (Hfail EIO)]. split; intros w'' Hw''.
      - apply (Hfail EIO w''). by eapply fails_then.
      - apply (Hfail EIO w''). eapply fails_then; [done|by apply fails_becomes]. }
  intros w3 [Hf3 Hl3]. simpl.
  apply wp_bind, (wp_create_header p w).
  - by rewrite Hf3.
  - by rewrite Hf3.
  - lia.
  - intros w' Hp Ho Hl. apply wp_ret. by apply wp_create_finish.
  - done.
Qed.

(** ** Recovery and opening together *)

(** Opening the surviving log: it is in place and unchanged, with no artifact
    left; whatever fails, the same database survives. *)
Definition opens_log (p : bytes) (v i ro : Z) (c : bytes) (w : world)
    (r : res appendLog) (w' : world) : Prop :=
  keeps p w w' ∧
  match r with
  | Ok l => log_ok p c [] l w' ∧ version l = v ∧
            (incompatibleFeatures l, readOnlyFeatures l) = header_masks v i ro ∧
            (header_masks v i ro).1 = 0 ∧ (∀ q, q ∈ artifacts p → files w' !! q = None)
  | Err e => failed w w' ∨
             (header_masks v i ro).1 ≠ 0 ∧ errors_Is e ErrUnsupportedFeature = true
  | Crash => failed w w'
  | Panic => False
  end.

Lemma wp_openAppendLog p v i ro body w :
  header_ok v i ro → survivor p (files w) = Some (header_bytes v i ro ++ body) →
  wp (openAppendLog p) (opens_log p v i ro (header_bytes v i ro ++ body) w) w.
Proof.
  intros Hh Hdisk. unfold openAppendLog. apply wp_bind.
  eapply wp_mono; [apply wp_recoverCompactionArtifacts|].
  intros [[]|e| |] w1 [Hk Hr]; try done; [|by split; [|left]].
  destruct Hr as [Hmain Hart]. rewrite Hdisk in Hmain.
  eapply wp_mono; [by apply (wp_openAppendLogFile p v i ro body)|].
  intros r w2 [Hw2 Hr2]. pose proof (keeps_later _ _ _ Hk) as Hl1.
  split; [eapply keeps_trans; [done|by apply keeps_becomes]|].
  destruct r as [log|e| |]; try done; [|destruct Hr2 as [Hl|Hm]; [left; lia|by right]|lia].
  destruct Hr2 as (Hlog & Hv & Hm & Hm0). split_and!; try done.
  intros q Hq. rewrite (proj1 Hw2). auto.
Qed.
