(* ===== verification/Store.v ===== *)
(** * The store

    store.go: the [Store] that ties the log, the index and the cache
    together, and its operations.  Every operation runs under the store's
    mutex, so a method is one atomic [M (Store * world)]; [ForEach] is the
    exception, and releases the mutex between keys.  Compaction is in
    Compact.v, [Open] and [Close] in Lifecycle.v. *)

From S2P Require Import Prelude Go Attributes Reader Record Index Cache FileSystem Log.
From Stdlib Require Import Floats.SpecFloat.
#[local] Open Scope Z_scope.

(** ** float64, for the compaction ratio *)

Definition float64 := spec_float.
Definition float64_of_int (z : Z) : float64 := binary_normalize 53 1024 z 0 false.
Definition float64_div : float64 → float64 → float64 := SFdiv 53 1024.
Definition float64_sub : float64 → float64 → float64 := SFsub 53 1024.
Definition float64_lt : float64 → float64 → bool := SFltb.

(** ** Data *)

Record MigrationInfo := {
  mi_Path : bytes;
  FromVersion : Z;
  ToVersion : Z;
  Backup : bytes
}.

(** [OnError] concerns the background tasks only: it is a parameter of
    Background.v. *)
Record Options := {
  CacheSize : Z;
  SyncInterval : Z;
  CompactionThreshold : float64;
  AutoCompact : bool;
  IndexedFields : list bytes;
  OnMigrate : option (MigrationInfo → option error);
  NoMigrationBackup : bool
}.

Record Stats := {
  Writes : Z; Reads : Z; CacheHits : Z; CacheMisses : Z; Deletes : Z; Compactions : Z
}.

Record Store := {
  s_log : appendLog;
  s_index : index;
  s_cache : lruCache;
  options : Options;
  closed : bool;
  compacting : bool;
  readOnlyReason : option error;
  stats : Stats
}.

Definition no_stats : Stats :=
  {| Writes := 0; Reads := 0; CacheHits := 0; CacheMisses := 0; Deletes := 0; Compactions := 0 |}.

Definition set_log l s :=
  {| s_log := l; s_index := s_index s; s_cache := s_cache s; options := options s;
     closed := closed s; compacting := compacting s; readOnlyReason := readOnlyReason s;
     stats := stats s |}.
Definition set_index i s :=
  {| s_log := s_log s; s_index := i; s_cache := s_cache s; options := options s;
     closed := closed s; compacting := compacting s; readOnlyReason := readOnlyReason s;
     stats := stats s |}.
Definition set_cache c s :=
  {| s_log := s_log s; s_index := s_index s; s_cache := c; options := options s;
     closed := closed s; compacting := compacting s; readOnlyReason := readOnlyReason s;
     stats := stats s |}.
Definition set_closed b s :=
  {| s_log := s_log s; s_index := s_index s; s_cache := s_cache s; options := options s;
     closed := b; compacting := compacting s; readOnlyReason := readOnlyReason s;
     stats := stats s |}.
Definition set_compacting b s :=
  {| s_log := s_log s; s_index := s_index s; s_cache := s_cache s; options := options s;
     closed := closed s; compacting := b; readOnlyReason := readOnlyReason s;
     stats := stats s |}.
Definition set_stats t s :=
  {| s_log := s_log s; s_index := s_index s; s_cache := s_cache s; options := options s;
     closed := closed s; compacting := compacting s; readOnlyReason := readOnlyReason s;
     stats := t |}.

(** The atomic counters. *)
Definition add_Writes t := {| Writes := int64 (Writes t + 1); Reads := Reads t;
  CacheHits := CacheHits t; CacheMisses := CacheMisses t; Deletes := Deletes t;
  Compactions := Compactions t |}.
Definition add_Reads t := {| Writes := Writes t; Reads := int64 (Reads t + 1);
  CacheHits := CacheHits t; CacheMisses := CacheMisses t; Deletes := Deletes t;
  Compactions := Compactions t |}.
Definition add_CacheHits t := {| Writes := Writes t; Reads := Reads t;
  CacheHits := int64 (CacheHits t + 1); CacheMisses := CacheMisses t; Deletes := Deletes t;
  Compactions := Compactions t |}.
Definition add_CacheMisses t := {| Writes := Writes t; Reads := Reads t;
  CacheHits := CacheHits t; CacheMisses := int64 (CacheMisses t + 1); Deletes := Deletes t;
  Compactions := Compactions t |}.
Definition add_Deletes t := {| Writes := Writes t; Reads := Reads t;
  CacheHits := CacheHits t; CacheMisses := CacheMisses t; Deletes := int64 (Deletes t + 1);
  Compactions := Compactions t |}.
Definition add_Compactions t := {| Writes := Writes t; Reads := Reads t;
  CacheHits := CacheHits t; CacheMisses := CacheMisses t; Deletes := Deletes t;
  Compactions := int64 (Compactions t + 1) |}.

Abbreviation SS := (Store * world)%type.

Definition the_store : M SS Store := λ s, (Ok s.1, s).
Definition modify_store (f : Store → Store) : M SS unit := λ s, (Ok tt, (f s.1, s.2)).
Definition count (f : Stats → Stats) : M SS unit :=
  modify_store (λ s, set_stats (f (stats s)) s).

(** A call of a method of [s.log]. *)
Definition on_log {A} (m : M LS A) : M SS A := λ s,
  let '(r, (l, w)) := m (s_log s.1, s.2) in (r, (set_log l s.1, w)).

Definition ReadOnly (s : Store) : bool := bool_decide (is_Some (readOnlyReason s)).

(** The guards most methods start with. *)
Definition check_open : M SS unit :=
  s ← the_store; if closed s then throw (Sentinel ErrStoreClosed) else mret tt.
Definition check_writable : M SS unit :=
  s ← the_store;
  match readOnlyReason s with
  | Some e => throw e
  | None => mret tt
  end.

Section store.
Context `{!MapRange}.

(** ** Recovery *)

Definition record_entry (record : logRecord) : indexEntry :=
  {| Offset := rOffset record; Size := rSize record;
     RecordOffset := rRecordOffset record; StoredSize := rStoredSize record;
     Attributes := rAttributes record |}.

(** The callback of [recover]. *)
Definition recover_record (record : logRecord) (ic : index * lruCache) : index * lruCache :=
  if rDeleted record then (idx_Delete (rKey record) ic.1, cache_Remove (rKey record) ic.2)
  else (idx_Put (rKey record) (record_entry record) ic.1, ic.2).

Definition recover : M SS unit := λ s,
  let '(r, (ic, (l, w))) :=
    Iterate (λ record, modify (recover_record record))
      ((s_index s.1, s_cache s.1), (s_log s.1, s.2)) in
  (r, (set_cache ic.2 (set_index ic.1 (set_log l s.1)), w)).

(** ** Writing *)

Definition appended_entry (a : appended) (attributes : attrs) : indexEntry :=
  {| Offset := ap_offset a; Size := ap_size a; RecordOffset := ap_recordOffset a;
     StoredSize := ap_storedSize a; Attributes := attributes |}.

Definition sync_if_asked (msg : String.string) : M SS unit :=
  s ← the_store;
  if SyncInterval (options s) =? 0 then wrap msg (on_log log_Sync) else mret tt.

Definition Put (key value : bytes) (opts : option attrs) : M SS unit :=
  check_open;;
  check_writable;;
  let attributes := default ∅ opts in
  a ← wrap "failed to append to log" (on_log (Append key value false attributes []));
  modify_store (λ s, set_index (idx_Put key (appended_entry a attributes) (s_index s)) s);;
  modify_store (λ s, set_cache (cache_Remove key (s_cache s)) s);;
  count add_Writes;;
  sync_if_asked "sync appended value".

Definition Delete (key : bytes) : M SS unit :=
  check_open;;
  check_writable;;
  s ← the_store;
  match idx_Get key (s_index s) with
  | None => throw (Errorf "key" [Sentinel ErrKeyNotFound])
  | Some _ =>
      wrap "failed to write tombstone" (on_log (Append key [] true ∅ []));;
      modify_store (λ s, set_index (idx_Delete key (s_index s)) s);;
      modify_store (λ s, set_cache (cache_Remove key (s_cache s)) s);;
      count add_Deletes;;
      sync_if_asked "sync tombstone"
  end.

(** ** Reading *)

(** [Get], with [pooled] the scratch buffer of a file read. *)
Definition Get (pooled key : bytes) : M SS bytes :=
  check_open;;
  s ← the_store;
  let '(hit, cache) := cache_Get key (s_cache s) in
  modify_store (set_cache cache);;
  match hit with
  | Some value => count add_CacheHits;; count add_Reads;; mret value
  | None =>
      match idx_Get key (s_index s) with
      | None => throw (Errorf "key" [Sentinel ErrKeyNotFound])
      | Some entry =>
          value ← wrap "failed to read from log"
                    (on_log (ReadRecordAt pooled (RecordOffset entry) (StoredSize entry)));
          modify_store (λ s, set_cache (cache_Put key value (s_cache s)) s);;
          count add_CacheMisses;;
          count add_Reads;;
          mret value
      end
  end.

Definition GetMetadata (key : bytes) : M SS attrs :=
  check_open;;
  s ← the_store;
  match idx_Get key (s_index s) with
  | None => throw (Errorf "key" [Sentinel ErrKeyNotFound])
  | Some entry => mret (cloneAttributes (Attributes entry))
  end.

Definition Exists (s : Store) (key : bytes) : bool :=
  if closed s then false else bool_decide (is_Some (idx_Get key (s_index s))).

Definition Len (s : Store) : Z := idx_Len (s_index s).
Definition Keys (s : Store) : list bytes := idx_Keys (s_index s).
Definition KeysBy (s : Store) (field value : bytes) : list bytes :=
  idx_KeysBy field value (s_index s).
Definition CountBy (s : Store) (field value : bytes) : Z :=
  len (idx_KeysBy field value (s_index s)).
Definition AttributeValues (s : Store) (field : bytes) : list bytes :=
  idx_AttributeValues field (s_index s).

(** ** Iteration

    The callback has a state [U] of its own and sees the store too: between
    two keys the mutex is free, and anyone may have changed the store. *)

Fixpoint ForEach_loop {U} (fn : bytes → bytes → M (U * SS) unit) (keys : list bytes)
    (scratch : bytes) : M (U * SS) unit :=
  match keys with
  | [] => mret tt
  | key :: keys =>
      s ← on_snd the_store;
      match idx_Get key (s_index s) with
      | None => ForEach_loop fn keys scratch
      | Some entry =>
          '(value, nextScratch) ← on_snd (on_log
            (ReadRecordAtInto (RecordOffset entry) (StoredSize entry) scratch));
          match value with
          | inl e => throw (Errorf "failed to read from log" [e])
          | inr value =>
              on_snd (count add_Reads);;
              fn key value;;
              ForEach_loop fn keys nextScratch
          end
      end
  end.

Definition ForEach {U} (fn : bytes → bytes → M (U * SS) unit) : M (U * SS) unit :=
  on_snd check_open;;
  s ← on_snd the_store;
  let '(keys, idx) := KeysSortedByOffset (s_index s) in
  on_snd (modify_store (set_index idx));;
  ForEach_loop fn keys [].

(** The snapshot is taken with [index.ForEach], whose callback appends. *)
Definition metadata_pairs (idx : index) : list (bytes * attrs) :=
  (idx_ForEach idx (λ key entry, modify (λ pairs : list (bytes * attrs),
     pairs ++ [(key, cloneAttributes (Attributes entry))])) []).2.

Definition ForEachMetadata {U} (fn : bytes → attrs → M (U * SS) unit) : M (U * SS) unit :=
  on_snd check_open;;
  s ← on_snd the_store;
  forEach_pairs fn (metadata_pairs (s_index s)).

(** ** Housekeeping *)

Definition NeedsCompaction (s : Store) : bool :=
  let liveSize := idx_TotalSize (s_index s) in
  let dataSize := int64 (log_Size (s_log s) - logHeaderSize) in
  if dataSize <=? 0 then false else
  let deadRatio := float64_sub (float64_of_int 1)
    (float64_div (float64_of_int liveSize) (float64_of_int dataSize)) in
  float64_lt (CompactionThreshold (options s)) deadRatio.

Definition store_Sync : M SS unit := check_open;; on_log log_Sync.
Definition store_Stats (s : Store) : Stats := stats s.
Definition DiskSize (s : Store) : Z := log_Size (s_log s).
Definition MemoryUsage (s : Store) : Z :=
  int64 (idx_MemoryUsage (s_index s) + cache_MemoryUsage (s_cache s)).
End store.
