(* ===== verification/StoreSpec.v ===== *)
(** * The store as a map

    The abstract state of a store is a finite map from key to the record that
    holds its value.  [live] computes it from the records of the log, the
    invariant [store_ok] says that log, index and cache all agree with it, and
    each operation of Store.v is shown to do to the map what its name says,
    for every schedule of failures. *)

From S2P Require Import Prelude Go Crc32c Attributes Reader Record Index Cache Legacy FileSystem.
From S2P Require Import Log LogSpec Scan Opening Store.
#[local] Open Scope Z_scope.

(** ** The map a log describes *)

Definition raw_deleted (r : raw) : bool := Z.testbit (byte.unsigned (raw_flags r)) 0.

Abbreviation kv := (gmap bytes raw).

(** One record: a put or a tombstone. *)
Definition apply_record (r : raw) (m : kv) : kv :=
  if raw_deleted r then delete (raw_key r) m else <[raw_key r := r]> m.

Definition live (rs : list raw) : kv := foldl (λ m r, apply_record r m) ∅ rs.

Lemma live_snoc rs r : live (rs ++ [r]) = apply_record r (live rs).
Proof. unfold live. by rewrite foldl_app. Qed.

Lemma raw_deleted_entry deleted key value m ext :
  raw_deleted (entry deleted key value m ext) = deleted.
Proof. by destruct deleted. Qed.

(** ** Formats 4 and 5 *)

#[export] Instance fmt5 : LogFormat logVersion raw := format_v5 logVersion ltac:(done).

Definition log_records (rs : list raw) : bytes := concat (raw_record <$> rs).

(** ** Index and log agree *)

(** The entry for a record stored at [pos]. *)
Definition entry_at (pos : Z) (r : raw) : indexEntry :=
  record_entry (scanned pos r (raw_attrs r)).

(** [e] locates the record [r] of key [k] in the log's bytes [pre]. *)
Definition located (pre : bytes) (k : bytes) (e : indexEntry) (r : raw) : Prop :=
  raw_key r = k ∧ stored r ∧
  ∃ a c, pre = a ++ raw_record r ++ c ∧ e = entry_at (len a) r ∧ logHeaderSize ≤ len a.

(** The index holds exactly the live keys, each with an entry that [P] ties to
    its record. *)
Definition agrees (P : bytes → indexEntry → raw → Prop) (es : gmap bytes indexEntry) (m : kv)
    : Prop :=
  map_relation P (λ _ _, False) (λ _ _, False) es m.

Definition index_agrees (pre : bytes) (es : gmap bytes indexEntry) (m : kv) : Prop :=
  agrees (located pre) es m.

Section agrees.
Context (P : bytes → indexEntry → raw → Prop).
Implicit Types (es : gmap bytes indexEntry) (m : kv).

Lemma agrees_lookup es m k :
  agrees P es m →
  (es !! k = None ∧ m !! k = None) ∨
  (∃ e r, es !! k = Some e ∧ m !! k = Some r ∧ P k e r).
Proof.
  intros Ha. specialize (Ha k). destruct (es !! k), (m !! k); naive_solver.
Qed.

Lemma agrees_mono (P' : bytes → indexEntry → raw → Prop) es m :
  (∀ k e r, P k e r → P' k e r) → agrees P es m → agrees P' es m.
Proof.
  intros HP Ha k. specialize (Ha k). destruct (es !! k), (m !! k); try done. by apply HP.
Qed.

Lemma agrees_empty : agrees P ∅ ∅.
Proof. intros k. by rewrite !lookup_empty. Qed.

Lemma agrees_insert es m k e r :
  agrees P es m → P k e r → agrees P (<[k := e]> es) (<[k := r]> m).
Proof.
  intros Ha Hl k'. destruct (decide (k = k')) as [->|].
  - by rewrite !lookup_insert_eq.
  - rewrite !lookup_insert_ne by done. apply Ha.
Qed.

Lemma agrees_delete es m k : agrees P es m → agrees P (delete k es) (delete k m).
Proof.
  intros Ha k'. destruct (decide (k = k')) as [->|].
  - by rewrite !lookup_delete_eq.
  - rewrite !lookup_delete_ne by done. apply Ha.
Qed.

Lemma agrees_dom es m : agrees P es m → dom es = dom m.
Proof.
  intros Ha. apply set_eq. intros k. rewrite !elem_of_dom.
  destruct (agrees_lookup _ _ k Ha) as [[-> ->]|(e & r & -> & -> & _)]; [done|by split].
Qed.
End agrees.

(** The keys in disk order are the keys of the map, each once. *)
Lemma disk_order_keys (es : gmap bytes indexEntry) (m : kv) ks :
  in_disk_order es ks → dom es = dom m →
  NoDup ks ∧ (∀ k, k ∈ ks ↔ is_Some (m !! k)) ∧ length ks = size m.
Proof.
  intros [Hperm _] Hdom. split_and!.
  - rewrite Hperm. apply NoDup_fst_map_to_list.
  - intros k. rewrite Hperm, <- elem_of_dom, <- Hdom, elem_of_dom, list_elem_of_fmap. split.
    + intros ([k' e] & -> & Hin%elem_of_map_to_list). by exists e.
    + intros [e Hin%elem_of_map_to_list]. by exists (k, e).
  - rewrite (Permutation_length Hperm), length_fmap, length_map_to_list, <- !size_dom.
    by rewrite Hdom.
Qed.

Lemma index_agrees_lookup pre es m k :
  index_agrees pre es m →
  (es !! k = None ∧ m !! k = None) ∨
  (∃ e r, es !! k = Some e ∧ m !! k = Some r ∧ located pre k e r).
Proof. apply agrees_lookup. Qed.

Lemma located_app pre x k e r : located pre k e r → located (pre ++ x) k e r.
Proof.
  intros (Hk & Hs & a & c & -> & He). split; [done|]. split; [done|].
  exists a, (c ++ x). by rewrite <- !app_assoc.
Qed.

Lemma index_agrees_app pre x es m :
  index_agrees pre es m → index_agrees (pre ++ x) es m.
Proof. apply agrees_mono. intros k e r. apply located_app. Qed.

Lemma index_agrees_empty pre : index_agrees pre ∅ ∅.
Proof. apply agrees_empty. Qed.

Lemma index_agrees_insert pre es m k e r :
  index_agrees pre es m → located pre k e r → index_agrees pre (<[k := e]> es) (<[k := r]> m).
Proof. apply agrees_insert. Qed.

Lemma index_agrees_delete pre es m k :
  index_agrees pre es m → index_agrees pre (delete k es) (delete k m).
Proof. apply agrees_delete. Qed.

(** ** Cache and map agree *)

Definition cache_agrees (c : lruCache) (m : kv) : Prop :=
  ∀ k v, lru_lookup k (cache_list c) = Some v → ∃ r, m !! k = Some r ∧ v = raw_value r.

(** ** The invariant *)

(** The log of a store: a header of the current version, [rs] as its records,
    and possibly [junk] from an interrupted write behind them. *)
Record store_ok (p : bytes) (ro : Z) (rs : list raw) (junk : bytes) (s : Store) (w : world)
    : Prop := {
  so_log : log_ok p (header_bytes logVersion 0 ro ++ log_records rs) junk (s_log s) w;
  so_version : version (s_log s) = logVersion;
  so_features : incompatibleFeatures (s_log s) = 0 ∧ readOnlyFeatures (s_log s) = ro;
  so_stored : Forall stored rs;
  so_index : idx_inv (s_index s);
  so_agrees : index_agrees (header_bytes logVersion 0 ro ++ log_records rs)
                (entries (s_index s)) (live rs);
  so_cache : cache_inv (s_cache s);
  so_coherent : cache_agrees (s_cache s) (live rs);
  so_reason : match readOnlyReason s with
              | Some e => ro ≠ 0 ∧ errors_Is e ErrReadOnly = true
              | None => ro = 0
              end
}.

Lemma unknown_is_mask l : unknownReadOnly l = readOnlyFeatures l.
Proof. unfold unknownReadOnly. apply Z.ldiff_0_r. Qed.

(** ** Rules for the store's combinators *)

Lemma wp_the_store {A} (f : Store → M SS A) Q s : wp (f s.1) Q s → wp (the_store ≫= f) Q s.
Proof. done. Qed.

Lemma wp_modify_store {A} g (f : M SS A) Q s :
  wp f Q (g s.1, s.2) → wp (modify_store g;; f) Q s.
Proof. done. Qed.

Lemma wp_on_log {A} (m : M LS A) Q s w :
  wp m (λ r s', Q r (set_log s'.1 s, s'.2)) (s_log s, w) → wp (on_log m) Q (s, w).
Proof. unfold wp, on_log. simpl. by destruct (m (s_log s, w)) as [? []]. Qed.

Lemma wp_check_open {A} (f : M SS A) Q s w :
  closed s = false → wp f Q (s, w) → wp (check_open;; f) Q (s, w).
Proof. intros Hc Hf. unfold wp, check_open, mbind, M_bind. simpl. by rewrite Hc. Qed.

Lemma wp_check_writable {A} (f : M SS A) Q s w :
  readOnlyReason s = None → wp f Q (s, w) → wp (check_writable;; f) Q (s, w).
Proof. intros Hc Hf. unfold wp, check_writable, mbind, M_bind. simpl. by rewrite Hc. Qed.

Lemma so_writable p rs junk s w : store_ok p 0 rs junk s w → readOnlyReason s = None.
Proof.
  intros Hs. pose proof (so_reason _ _ _ _ _ _ Hs) as Hr.
  destruct (readOnlyReason s); [by destruct Hr|done].
Qed.

(** ** Writes *)

Section writes.
Context `{!MapRange}.

(** What a write of [rec] may leave, on every way out. *)
Definition writes (rec : raw) (p : bytes) (rs : list raw) (junk : bytes) (s : Store) (w : world)
    (r : res unit) (s' : SS) : Prop :=
  (∀ q, q ≠ p → files s'.2 !! q = files w !! q) ∧ later w s'.2 ∧
  match r with
  | Ok _ => store_ok p 0 (rs ++ [rec]) (drop (length (raw_record rec)) junk) s'.1 s'.2
  | Err _ =>
      failed w s'.2 ∧
      ((∃ n, store_ok p 0 rs (half_written n (raw_record rec) junk) s'.1 s'.2) ∨
       store_ok p 0 (rs ++ [rec]) (drop (length (raw_record rec)) junk) s'.1 s'.2)
  | Crash =>
      failed w s'.2 ∧
      ∃ n, files s'.2 !! p = Some ((header_bytes logVersion 0 0 ++ log_records rs) ++
                                    half_written n (raw_record rec) junk)
  | Panic => False
  end.

Lemma log_records_snoc rs r : log_records (rs ++ [r]) = log_records rs ++ raw_record r.
Proof. apply (records_snoc (F:=fmt5)). Qed.

(** Index and cache after the log has taken a record. *)
Lemma store_ok_appended p rs junk junk' s w rec l' idx' cache' w' t :
  store_ok p 0 rs junk s w → stored rec → same_format (s_log s) l' →
  log_ok p ((header_bytes logVersion 0 0 ++ log_records rs) ++ raw_record rec) junk' l' w' →
  idx_inv idx' → cache_inv cache' →
  index_agrees ((header_bytes logVersion 0 0 ++ log_records rs) ++ raw_record rec)
    (entries idx') (apply_record rec (live rs)) →
  cache_agrees cache' (apply_record rec (live rs)) →
  store_ok p 0 (rs ++ [rec]) junk'
    (set_stats t (set_cache cache' (set_index idx' (set_log l' s)))) w'.
Proof.
  intros Hs Hrec (Hv & Hi & Hr & _) Hlog Hidx Hc Ha Hca.
  rewrite <- app_assoc, <- log_records_snoc in *. rewrite <- live_snoc in *.
  destruct Hs as [? Hv0 [Hi0 Hr0] Hst ? ? ? ? Hreason]. split; simpl; try done.
  - congruence.
  - split; congruence.
  - apply Forall_app. by split; [|constructor].
Qed.

Lemma cache_agrees_remove c m key m' :
  cache_inv c → cache_agrees c m → (∀ k, k ≠ key → m' !! k = m !! k) →
  cache_inv (cache_Remove key c) ∧ cache_agrees (cache_Remove key c) m'.
Proof.
  intros Hc Ha Hm. destruct (cache_Remove_refines key c Hc) as [Hc' Hl].
  split; [done|]. intros k v. rewrite Hl, lru_lookup_drop. case_decide; [done|].
  intros (r & Hr & ->)%Ha. exists r. by rewrite Hm.
Qed.

(** The shared tail of [Put] and [Delete]. *)
Lemma wp_sync_if_asked msg rec p rs junk s w s' w' :
  (∀ q, q ≠ p → files w' !! q = files w !! q) → later w w' →
  store_ok p 0 (rs ++ [rec]) (drop (length (raw_record rec)) junk) s' w' →
  wp (sync_if_asked msg) (writes rec p rs junk s w) (s', w').
Proof.
  intros Hoth Hcl Hok. unfold sync_if_asked. apply wp_the_store. simpl.
  assert (∀ w2, becomes w' (files w') w2 → writes rec p rs junk s w (Ok tt)
    (set_log (s_log s') s', w2)) as Hend.
  { intros w2 [Hf Hc]. split_and!; simpl; [by intros; rewrite Hf; auto|lia|].
    destruct Hok as [Hlog]. split; simpl; try done. eapply log_ok_world; [done|].
    rewrite Hf. apply Hlog. }
  case_match; [|by specialize (Hend w' ltac:(done)); destruct s'].
  apply wp_wrap, wp_on_log, wp_on_file; [apply Hok|]. apply wp_sys_const; [done|].
  intros w2 Hw2. specialize (Hend w2 (fails_becomes _ _ _ Hw2)) as (Ho & Hc & Hok2).
  destruct Hw2 as [_ Hd]. simpl in *.
  split; split_and!; try done; try (simpl; lia); [by right|].
  exists (length (raw_record rec)). rewrite half_written_all.
  pose proof (lo_file _ _ _ _ _ (so_log _ _ _ _ _ _ Hok2)) as Hf.
  cbn [snd]. simpl in Hf. by rewrite Hf, log_records_snoc, <- !app_assoc.
Qed.

Lemma wp_Put p rs junk s w key value opts :
  store_ok p 0 rs junk s w → closed s = false → append_ok key value (default ∅ opts) [] →
  wp (Put key value opts)
    (writes (entry false key value (default ∅ opts) []) p rs junk s w) (s, w).
Proof.
  intros Hs Hcl Hok. set (rec := entry _ _ _ _ _). set (m := default ∅ opts) in *.
  apply wp_check_open; [done|]. apply wp_check_writable; [by eapply so_writable|].
  apply wp_bind, wp_wrap, wp_on_log.
  destruct (stored_valid _ _ (entry_valid false key value m [] Hok)) as [Hst Hattrs].
  fold rec in Hst, Hattrs.
  eapply wp_mono.
  { eapply (wp_Append key value false m [] p); [apply Hs| |apply Hs|done].
    rewrite unknown_is_mask. apply (so_features _ _ _ _ _ _ Hs). }
  fold rec. intros [a|e| |] [l' w'] (Hoth & Hcw & Hr); simpl in *; try done.
  - destruct Hr as (-> & Hfmt & Hlog).
    do 3 (apply wp_modify_store; cbn [fst snd]). apply wp_sync_if_asked; try done.
    destruct (cache_agrees_remove (s_cache s) (live rs) key (<[key := rec]> (live rs)))
      as [Hci Hca]; [apply Hs|apply Hs|by intros; rewrite lookup_insert_ne|].
    assert (apply_record rec (live rs) = <[key := rec]> (live rs)) as Happ by done.
    eapply store_ok_appended; try done.
    + apply idx_Put_inv, Hs.
    + rewrite Happ, idx_Put_entries. apply index_agrees_insert.
      { apply index_agrees_app, Hs. }
      split; [done|]. split; [done|]. eexists _, []. rewrite app_nil_r. split; [done|].
      split; [|rewrite length_app; pose proof (length_header logVersion 0 0); lia].
      unfold entry_at, record_entry, scanned. simpl. rewrite Hattrs. f_equal. lia.
  - destruct Hr as (-> & Hd & (Hv & Hi & Hro & _) & n & Hlog). split_and!; try done.
    left. exists n. destruct Hs as [? Hv0 [Hi0 Hr0]]. split; simpl; try done; [congruence|].
    split; congruence.
Qed.

Lemma live_key rs k r : live rs !! k = Some r → r ∈ rs ∧ raw_key r = k ∧ raw_deleted r = false.
Proof using Type.
  induction rs as [|r' rs IH] using rev_ind; [done|].
  rewrite live_snoc. unfold apply_record. destruct (raw_deleted r') eqn:Hd.
  - intros [_ Hl]%lookup_delete_Some. set_solver.
  - intros [[<- <-]|[_ Hl]]%lookup_insert_Some; set_solver.
Qed.

(** A tombstone for a stored key is always accepted. *)
Lemma tombstone_ok key r : stored r → raw_key r = key → append_ok key [] ∅ [].
Proof using Type.
  intros (_ & (Hk & _) & _) <-. unfold append_ok. pose proof attrs_ok_empty. pose proof ext_none. by split_and!.
Qed.

Lemma wp_Delete p rs junk s w key :
  store_ok p 0 rs junk s w → closed s = false → is_Some (live rs !! key) →
  wp (Delete key) (writes (entry true key [] ∅ []) p rs junk s w) (s, w).
Proof.
  intros Hs Hcl [r0 Hr0]. set (rec := entry _ _ _ _ _).
  destruct (live_key _ _ _ Hr0) as (Hin & Hk & _).
  assert (append_ok key [] ∅ []) as Hok.
  { apply (tombstone_ok _ r0); [|done]. eapply Forall_forall; [apply Hs|done]. }
  apply wp_check_open; [done|]. apply wp_check_writable; [by eapply so_writable|].
  apply wp_the_store. simpl. unfold idx_Get.
  destruct (index_agrees_lookup _ _ _ key (so_agrees _ _ _ _ _ _ Hs))
    as [[_ ?]|(e & r1 & -> & _)]; [congruence|].
  apply wp_bind, wp_wrap, wp_on_log.
  destruct (stored_valid _ _ (entry_valid true key [] ∅ [] Hok)) as [Hst _]. fold rec in Hst.
  eapply wp_mono.
  { eapply (wp_Append key [] true ∅ [] p); [apply Hs| |apply Hs|done].
    rewrite unknown_is_mask. apply (so_features _ _ _ _ _ _ Hs). }
  fold rec. intros [a|e'| |] [l' w'] (Hoth & Hcw & Hr); simpl in *; try done.
  - destruct Hr as (-> & Hfmt & Hlog).
    do 3 (apply wp_modify_store; cbn [fst snd]). apply wp_sync_if_asked; try done.
    assert (apply_record rec (live rs) = delete key (live rs)) as Happ by done.
    destruct (cache_agrees_remove (s_cache s) (live rs) key (delete key (live rs)))
      as [Hci Hca]; [apply Hs|apply Hs|by intros; rewrite lookup_delete_ne|].
    eapply store_ok_appended; try done.
    + apply idx_Delete_inv, Hs.
    + rewrite Happ, idx_Delete_entries. apply index_agrees_delete, index_agrees_app, Hs.
  - destruct Hr as (-> & Hd & (Hv & Hi & Hro & _) & n & Hlog). split_and!; try done.
    left. exists n. destruct Hs as [? Hv0 [Hi0 Hro0]]. split; simpl; try done; [congruence|].
    split; congruence.
Qed.

(** ** Refusals: nothing changes *)

Lemma Delete_missing p ro rs junk s w key :
  store_ok p ro rs junk s w → closed s = false → readOnlyReason s = None →
  live rs !! key = None →
  Delete key (s, w) = (Err (Errorf "key" [Sentinel ErrKeyNotFound]), (s, w)).
Proof.
  intros Hs Hcl Hro Hnone.
  destruct (index_agrees_lookup _ _ _ key (so_agrees _ _ _ _ _ _ Hs))
    as [[He _]|(? & ? & _ & ? & _)]; [|congruence].
  unfold Delete, check_open, check_writable, mbind, M_bind. simpl.
  rewrite Hcl. simpl. rewrite Hro. simpl. unfold idx_Get. by rewrite He.
Qed.

Lemma Put_refused p rs junk s w key value opts :
  store_ok p 0 rs junk s w → closed s = false → ¬ append_ok key value (default ∅ opts) [] →
  ∃ e, input_error e ∧ Put key value opts (s, w) = (Err e, (s, w)).
Proof.
  intros Hs Hcl Hno. pose proof (so_writable _ _ _ _ _ Hs) as Hro.
  destruct (Append_refused key value false (default ∅ opts) [] (s_log s) w) as (e & Hie & He);
    [apply Hs|rewrite unknown_is_mask; apply (so_features _ _ _ _ _ _ Hs)|done|].
  exists (Errorf "failed to append to log" [e]). split.
  { intros t. simpl. rewrite orb_false_r. apply Hie. }
  unfold Put, check_open, check_writable, mbind, M_bind. simpl.
  rewrite Hcl. simpl. rewrite Hro. simpl. unfold wrap, on_log. simpl. rewrite He.
  by destruct s.
Qed.

Lemma Put_accepts_or_not p rs junk s w key value opts :
  store_ok p 0 rs junk s w →
  append_ok key value (default ∅ opts) [] ∨ ¬ append_ok key value (default ∅ opts) [].
Proof using All.
  intros Hs.
  destruct (Append_cases key value false (default ∅ opts) [] (s_log s) w) as [[? _]|[? _]];
    [apply Hs|rewrite unknown_is_mask; apply (so_features _ _ _ _ _ _ Hs)|by left|by right].
Qed.

(** ** Reads *)

Lemma cache_agrees_get c m key :
  cache_inv c → cache_agrees c m →
  cache_inv (cache_Get key c).2 ∧ cache_agrees (cache_Get key c).2 m ∧
  (∀ v, (cache_Get key c).1 = Some v → ∃ r, m !! key = Some r ∧ v = raw_value r).
Proof using Type.
  intros Hc Ha. destruct (cache_Get_refines key c Hc) as (Hc' & Hv & Hl).
  split; [done|]. split.
  - intros k v. rewrite Hl. intros Hk%lru_get_lookup. auto.
  - intros v. rewrite Hv. unfold lru_get.
    destruct (lru_lookup key (cache_list c)) eqn:Hlk; simpl; [|done].
    intros [= <-]. auto.
Qed.

Lemma cache_agrees_put c m key r :
  cache_inv c → cache_agrees c m → m !! key = Some r →
  cache_inv (cache_Put key (raw_value r) c) ∧ cache_agrees (cache_Put key (raw_value r) c) m.
Proof using Type.
  intros Hc Ha Hm. destruct (cache_Put_refines key (raw_value r) c Hc) as (Hc' & Hl & _).
  split; [done|]. intros k v. rewrite Hl.
  intros [[-> ->]|[_ Hk]]%lru_put_lookup; [eauto|auto].
Qed.

(** The outcome of a read of a key whose record is [r]. *)
Definition gets (p : bytes) (ro : Z) (rs : list raw) (junk : bytes) (rec : raw) (w : world)
    (r : res bytes) (s' : SS) : Prop :=
  becomes w (files w) s'.2 ∧
  match r with
  | Ok v => v = raw_value rec ∧ store_ok p ro rs junk s'.1 s'.2
  | Err e => failed w s'.2 ∧ store_ok p ro rs junk s'.1 s'.2
  | Crash => failed w s'.2
  | Panic => False
  end.

Lemma store_ok_same p ro rs junk s w c' t w' :
  store_ok p ro rs junk s w → becomes w (files w) w' →
  cache_inv c' → cache_agrees c' (live rs) →
  store_ok p ro rs junk (set_stats t (set_cache c' s)) w'.
Proof using Type.
  intros [Hlog] [Hf _] Hc Ha. split; simpl; try done.
  eapply log_ok_world; [done|]. rewrite Hf. apply Hlog.
Qed.

Lemma wp_Get p ro rs junk s w pooled key rec :
  store_ok p ro rs junk s w → closed s = false → live rs !! key = Some rec →
  wp (Get pooled key) (gets p ro rs junk rec w) (s, w).
Proof.
  intros Hs Hcl Hrec. apply wp_check_open; [done|]. apply wp_the_store. simpl.
  destruct (cache_agrees_get (s_cache s) (live rs) key) as (Hc & Ha & Hhit);
    [apply Hs|apply Hs|].
  destruct (cache_Get key (s_cache s)) as [[v|] c]; simpl in *;
    apply wp_modify_store; cbn [fst snd].
  { do 2 (apply wp_modify_store; cbn [fst snd]). apply wp_ret. split; [done|].
    destruct (Hhit v eq_refl) as (r & Hr & ->). split; [congruence|].
    change (store_ok p ro rs junk (set_stats (add_Reads (add_CacheHits (stats s)))
      (set_cache c s)) w). by eapply store_ok_same. }
  destruct (index_agrees_lookup _ _ _ key (so_agrees _ _ _ _ _ _ Hs))
    as [[_ ?]|(e & r1 & He & Hr1 & (Hk & Hst & a & z & Hpre & -> & _))]; [congruence|].
  assert (r1 = rec) as -> by congruence. unfold idx_Get. rewrite He.
  apply wp_bind, wp_wrap, wp_on_log. simpl. eapply wp_mono.
  { eapply (wp_ReadRecordAt p _ junk a z rec); [apply Hs|done|by apply stored_fits]. }
  intros [v|e'| |] [l' w'] (-> & Hw & Hr); simpl in *; try done.
  - subst v. do 3 (apply wp_modify_store; cbn [fst snd]). apply wp_ret. split; [done|].
    split; [done|]. destruct (cache_agrees_put c (live rs) key rec) as [Hc' Ha']; try done.
    change (store_ok p ro rs junk (set_stats (add_Reads (add_CacheMisses (stats s)))
      (set_cache (cache_Put key (raw_value rec) c) (set_log (s_log s) s))) w').
    replace (set_log (s_log s) s) with s by (by destruct s). by eapply store_ok_same.
  - destruct Hr as [-> Hd]. split; [done|]. split; [done|].
    change (store_ok p ro rs junk (set_stats (stats s) (set_cache c (set_log (s_log s) s))) w').
    replace (set_log (s_log s) s) with s by (by destruct s). by eapply store_ok_same.
Qed.

Lemma Get_missing p ro rs junk s w pooled key :
  store_ok p ro rs junk s w → closed s = false → live rs !! key = None →
  ∃ c, Get pooled key (s, w) =
         (Err (Errorf "key" [Sentinel ErrKeyNotFound]), (set_cache c s, w)) ∧
       store_ok p ro rs junk (set_cache c s) w.
Proof.
  intros Hs Hcl Hnone.
  destruct (cache_agrees_get (s_cache s) (live rs) key) as (Hc & Ha & Hhit);
    [apply Hs|apply Hs|].
  destruct (index_agrees_lookup _ _ _ key (so_agrees _ _ _ _ _ _ Hs))
    as [[He _]|(? & ? & _ & ? & _)]; [|congruence].
  unfold Get, check_open, mbind, M_bind. simpl. rewrite Hcl. simpl.
  destruct (cache_Get key (s_cache s)) as [[v|] c]; simpl in *.
  { destruct (Hhit v eq_refl) as (? & ? & _). congruence. }
  unfold idx_Get. rewrite He. exists c. split; [done|].
  change (store_ok p ro rs junk (set_stats (stats s) (set_cache c s)) w).
  by eapply store_ok_same.
Qed.
End writes.

(** ** Queries *)

Lemma index_agrees_dom pre es m : index_agrees pre es m → dom es = dom m.
Proof. apply agrees_dom. Qed.

Section queries.
Context `{!MapRange}.
Context (p : bytes) (ro : Z) (rs : list raw) (junk : bytes) (s : Store) (w : world).
Context (Hs : store_ok p ro rs junk s w).
#[local] Set Default Proof Using "All".

Lemma Exists_spec key : closed s = false → Exists s key = bool_decide (is_Some (live rs !! key)).
Proof.
  intros Hcl. unfold Exists, idx_Get. rewrite Hcl.
  destruct (index_agrees_lookup _ _ _ key (so_agrees _ _ _ _ _ _ Hs))
    as [[-> ->]|(e & r & -> & -> & _)]; [done|].
  by rewrite !bool_decide_true by done.
Qed.

Lemma Len_spec : Len s = Z.of_nat (size (live rs)).
Proof.
  unfold Len, idx_Len. rewrite <- !size_dom.
  by rewrite (index_agrees_dom _ _ _ (so_agrees _ _ _ _ _ _ Hs)).
Qed.

Lemma Keys_spec : NoDup (Keys s) ∧ ∀ k, k ∈ Keys s ↔ is_Some (live rs !! k).
Proof.
  split; [apply NoDup_range_keys|]. intros k. unfold Keys, idx_Keys.
  rewrite list_elem_of_fmap.
  pose proof (index_agrees_dom _ _ _ (so_agrees _ _ _ _ _ _ Hs)) as Hdom.
  rewrite <- elem_of_dom, <- Hdom, elem_of_dom. split.
  - intros ([k' e] & -> & Hin%elem_of_range). by exists e.
  - intros [e He]. exists (k, e). split; [done|]. by apply elem_of_range.
Qed.

Lemma GetMetadata_spec key :
  closed s = false →
  GetMetadata key (s, w) =
  (match live rs !! key with
   | Some r => Ok (raw_attrs r)
   | None => Err (Errorf "key" [Sentinel ErrKeyNotFound])
   end, (s, w)).
Proof.
  intros Hcl. unfold GetMetadata, check_open, mbind, M_bind. simpl. rewrite Hcl. simpl.
  unfold idx_Get.
  destruct (index_agrees_lookup _ _ _ key (so_agrees _ _ _ _ _ _ Hs))
    as [[-> ->]|(e & r & -> & -> & _ & _ & a & c & _ & -> & _)]; [done|].
  simpl. by rewrite cloneAttributes_id.
Qed.

(** An attribute of the live record of a key. *)
Definition live_attr (m : kv) (field value key : bytes) : Prop :=
  ∃ r, m !! key = Some r ∧ raw_attrs r !! field = Some value.

Lemma has_attr_live field value key :
  has_attr (entries (s_index s)) field value key ↔ live_attr (live rs) field value key.
Proof.
  unfold has_attr, live_attr.
  destruct (index_agrees_lookup _ _ _ key (so_agrees _ _ _ _ _ _ Hs))
    as [[-> ->]|(e & r & -> & -> & _ & _ & a & c & _ & -> & _)]; [naive_solver|].
  unfold entry_at, record_entry, scanned. simpl. naive_solver.
Qed.

Lemma KeysBy_spec field value :
  field ∈ indexedFields (s_index s) →
  NoDup (KeysBy s field value) ∧
  CountBy s field value = len (KeysBy s field value) ∧
  ∀ k, k ∈ KeysBy s field value ↔ live_attr (live rs) field value k.
Proof.
  intros Hf. split; [apply idx_KeysBy_NoDup|]. split; [done|]. intros k.
  unfold KeysBy. rewrite idx_KeysBy_spec by (done || apply Hs). apply has_attr_live.
Qed.

Lemma AttributeValues_spec field :
  field ∈ indexedFields (s_index s) →
  NoDup (AttributeValues s field) ∧
  ∀ v, v ∈ AttributeValues s field ↔ ∃ k, live_attr (live rs) field v k.
Proof.
  intros Hf. split; [apply idx_AttributeValues_NoDup|]. intros v.
  unfold AttributeValues. rewrite idx_AttributeValues_spec by (done || apply Hs).
  by setoid_rewrite has_attr_live.
Qed.
End queries.

(** ** Rebuilding the index *)

(** The scan of a log in any format, whose records stand for the records
    [raw_of] of the current one. *)
Section replay.
Context `{!MapRange} {v : Z} {R : Type} {F : LogFormat v R} (raw_of : R → raw).
Context (P : bytes → bytes → indexEntry → raw → Prop).
Context (P_app : ∀ pre x k e r, P pre k e r → P (pre ++ x) k e r).
Context (P_new : ∀ pre r, fmt_ok r → logHeaderSize ≤ len pre →
  P (pre ++ fmt_bytes r) (raw_key (raw_of r)) (record_entry (fmt_scanned (len pre) r)) (raw_of r)).
Context (same_key : ∀ pos r, rKey (fmt_scanned pos r) = raw_key (raw_of r)).
Context (same_flag : ∀ pos r, rDeleted (fmt_scanned pos r) = raw_deleted (raw_of r)).
#[local] Set Default Proof Using "Type*".

Lemma replay_agrees_by (hdr : bytes) rs idx c :
  len hdr = logHeaderSize → Forall fmt_ok rs →
  idx_inv idx → cache_inv c → entries idx = ∅ → cache_list c = [] →
  let ic := replay recover_record (scan_from logHeaderSize rs) (idx, c) in
  idx_inv ic.1 ∧ cache_inv ic.2 ∧ cache_list ic.2 = [] ∧
  indexedFields ic.1 = indexedFields idx ∧
  agrees (P (hdr ++ records rs)) (entries ic.1) (live (raw_of <$> rs)).
Proof.
  intros Hhdr Hst Hi Hc He Hl. induction rs as [|r rs IH] using rev_ind; simpl.
  { rewrite He. split_and!; done. }
  apply Forall_app in Hst as [Hst [Hr _]%Forall_cons_1].
  destruct IH as (IHi & IHc & IHl & IHf & IHa); [done|].
  rewrite scan_from_app. unfold replay in *. rewrite foldl_app. cbn [scan_from foldl].
  set (ic := foldl _ _ _) in *. rewrite fmap_app. cbn [fmap list_fmap]. rewrite live_snoc.
  unfold recover_record, apply_record. rewrite same_flag, same_key.
  rewrite records_snoc, app_assoc. apply (agrees_mono _ (P ((hdr ++ records rs) ++ fmt_bytes r))) in IHa;
    [|intros; by apply P_app]. destruct (raw_deleted (raw_of r)); cbn [fst snd].
  - destruct (cache_Remove_refines (raw_key (raw_of r)) ic.2 IHc) as [Hc' Hl'].
    split_and!; [by apply idx_Delete_inv|done|by rewrite Hl', IHl|
      by rewrite idx_Delete_fields|].
    rewrite idx_Delete_entries. by apply agrees_delete.
  - split_and!; [by apply idx_Put_inv|done|done|by rewrite idx_Put_fields|].
    rewrite idx_Put_entries. apply agrees_insert; [done|].
    replace (logHeaderSize + len (records rs)) with (len (hdr ++ records rs)) by len_lia.
    apply P_new; [done|len_lia].
Qed.
End replay.

Section recover.
Context `{!MapRange} (v : Z) (Hv : 4 ≤ v).

Lemma replay_agrees (hdr : bytes) rs idx c :
  len hdr = logHeaderSize → Forall stored rs →
  idx_inv idx → cache_inv c → entries idx = ∅ → cache_list c = [] →
  let ic := replay recover_record (scan_from (F:=format_v5 v Hv) logHeaderSize rs) (idx, c) in
  idx_inv ic.1 ∧ cache_inv ic.2 ∧ cache_list ic.2 = [] ∧
  indexedFields ic.1 = indexedFields idx ∧
  index_agrees (hdr ++ log_records rs) (entries ic.1) (live rs).
Proof.
  intros Hhdr Hst Hi Hc He Hl.
  destruct (replay_agrees_by (F:=format_v5 v Hv) id located) with hdr rs idx c as (? & ? & ? & ? & Ha);
    try done; [intros; by apply located_app| |by rewrite list_fmap_id in Ha].
  intros pre r Hr Hlen. split; [done|]. split; [done|]. exists pre, []. by rewrite app_nil_r.
Qed.
End recover.

(** ** Iteration *)

Section foreach.
Context `{!MapRange}.

Definition live_value (m : kv) (k : bytes) : bytes :=
  match m !! k with Some r => raw_value r | None => [] end.

(** The outcome of visiting [ks], for a callback that leaves the store alone. *)
Definition visits {U} (visit : bytes → bytes → U → U) (p : bytes) (ro : Z) (rs : list raw)
    (junk : bytes) (ks : list bytes) (u : U) (w : world) (r : res unit) (s' : U * SS) : Prop :=
  becomes w (files w) s'.2.2 ∧
  match r with
  | Ok _ => s'.1 = foldl (λ u k, visit k (live_value (live rs) k) u) u ks ∧
            store_ok p ro rs junk s'.2.1 s'.2.2
  | Err _ => failed w s'.2.2 ∧ store_ok p ro rs junk s'.2.1 s'.2.2
  | Crash => failed w s'.2.2
  | Panic => False
  end.

Lemma wp_ForEach_loop {U} (visit : bytes → bytes → U → U) p ro rs junk ks scratch u s w :
  store_ok p ro rs junk s w → (∀ k, k ∈ ks → is_Some (live rs !! k)) →
  wp (ForEach_loop (λ k v, on_fst (modify (visit k v))) ks scratch)
    (visits visit p ro rs junk ks u w) (u, (s, w)).
Proof.
  revert scratch u s w. induction ks as [|k ks IH]; intros scratch u s w Hs Hks.
  { by split. }
  cbn [ForEach_loop].
  match goal with |- wp (on_snd the_store ≫= ?f) ?Q ?st => change (wp (f s) Q st) end.
  cbn beta. destruct (Hks k) as [rec Hrec]; [set_solver|].
  destruct (index_agrees_lookup _ _ _ k (so_agrees _ _ _ _ _ _ Hs))
    as [[_ ?]|(e & r1 & He & Hr1 & (Hk & Hst & a & z & Hpre & -> & _))]; [congruence|].
  assert (r1 = rec) as -> by congruence. unfold idx_Get. rewrite He.
  apply wp_bind, wp_zoom, wp_on_log.
  eapply (wp_ReadRecordAtInto p _ junk a z rec); [apply Hs|done|by apply stored_fits|..];
    cbn [fst snd].
  - intros w' sc Hw.
    match goal with |- wp (on_snd (count add_Reads);; ?f) ?Q _ =>
      change (wp f Q (u, (set_stats (add_Reads (stats s)) (set_log (s_log s) s), w'))) end.
    match goal with |- wp (on_fst (modify ?g);; ?f) ?Q (_, ?sw) =>
      change (wp f Q (g u, sw)) end.
    assert (store_ok p ro rs junk
      (set_stats (add_Reads (stats s)) (set_log (s_log s) s)) w') as Hs'.
    { destruct Hs as [Hlog]. split; simpl; try done. eapply log_ok_world; [done|].
      rewrite (proj1 Hw). apply Hlog. }
    eapply wp_mono; [apply IH; [done|set_solver]|].
    intros r [u' [s' w'']] [Hb Hr]. simpl in *. split; [by eapply becomes_then|].
    destruct Hw as [_ Hl]. unfold live_value at 1. simpl. rewrite Hrec.
    destruct r; simpl in *; intuition lia.
  - intros w' sc Hw. pose proof (fails_becomes _ _ _ Hw). destruct Hw as [Hf Hl].
    split; [|by split]. split; [done|]. split; [done|].
    destruct Hs as [Hlog]. split; simpl; try done. eapply log_ok_world; [done|].
    rewrite Hf. apply Hlog.
Qed.

Lemma wp_ForEach {U} (visit : bytes → bytes → U → U) p ro rs junk u s w :
  store_ok p ro rs junk s w → closed s = false →
  ∃ ks, in_disk_order (entries (s_index s)) ks ∧
    wp (ForEach (λ k v, on_fst (modify (visit k v))))
      (visits visit p ro rs junk ks u w) (u, (s, w)).
Proof.
  intros Hs Hcl.
  destruct (KeysSortedByOffset_ok (s_index s)) as (Hord & Hinv & He & Hf); [apply Hs|].
  exists (KeysSortedByOffset (s_index s)).1. split; [done|].
  unfold ForEach, check_open.
  match goal with |- wp (on_snd (the_store ≫= ?g);; ?f) ?Q ?st => 
    apply (wp_run _ f Q st st) end.
  { unfold on_snd, zoom, the_store, mbind, M_bind. simpl. by rewrite Hcl. }
  match goal with |- wp (on_snd the_store ≫= ?f) ?Q ?st => change (wp (f s) Q st) end.
  cbn beta. destruct (KeysSortedByOffset (s_index s)) as [ks idx]. cbn [fst snd] in *.
  match goal with |- wp (on_snd (modify_store ?g);; ?f) ?Q _ =>
    change (wp f Q (u, (set_index idx s, w))) end.
  apply wp_ForEach_loop.
  - destruct Hs. split; simpl; try done. by rewrite He.
  - intros k Hk. destruct Hord as [Hperm _]. rewrite Hperm in Hk.
    apply list_elem_of_fmap in Hk as ([k' e] & -> & Hin%elem_of_map_to_list). simpl.
    apply elem_of_dom. rewrite <- (index_agrees_dom _ _ _ (so_agrees _ _ _ _ _ _ Hs)).
    by apply elem_of_dom.
Qed.
End foreach.
