(* ===== verification/Compact.v ===== *)
(** * Compaction and migration

    store.go: [Compact] rewrites the live records to a new log and replaces
    the old one through a three-file transaction; [migrate] brings a log of an
    older format to the current one, after [copyLogFile] has kept a copy. *)

From S2P Require Import Prelude Go Attributes Reader Record Index Cache FileSystem Log Store.
From stdpp Require Import pretty.
#[local] Open Scope Z_scope.

Definition migrationBackupSuffix : bytes := str ".bak".
Definition migrationBackupTempSuffix : bytes := str ".tmp".

(** [defer cleanup()] around [body]. *)
Definition deferred {S A B} (body : M S A) (cleanup : M S B) : M S A := λ s,
  match body s with
  | (Panic, s) => (Panic, s)
  | (Crash, s) => (Crash, s)
  | (r, s) => match cleanup s with
              | (Crash, s) => (Crash, s)
              | (Panic, s) => (Panic, s)
              | (_, s) => (r, s)
              end
  end.

(** ** copyLogFile *)

(** [if err := m(); err != nil { _ = os.Remove(tmp); return err }] *)
Definition or_remove {A} (tmp : bytes) (m : M world A) : M world A :=
  on_err m (ignore (os_Remove tmp)).

Definition copyLogFile (src dst : bytes) : M world unit :=
  r ← attempt (os_Stat dst);
  match r with
  | inr _ => mret tt
  | inl err =>
      if negb (errors_Is err ErrNotExist) then throw err else
      os_Open src;;
      deferred (
        let tmp := dst ++ migrationBackupTempSuffix in
        os_OpenTrunc tmp;;
        or_remove tmp (on_err (io_Copy tmp src) (ignore (f_Close tmp)));;
        or_remove tmp (on_err (f_Sync tmp) (ignore (f_Close tmp)));;
        or_remove tmp (f_Close tmp);;
        or_remove tmp (os_Rename tmp dst);;
        syncParentDirectory dst)
      (ignore (f_Close src))
  end.

(** ** Compact *)

Section compact.
Context `{!MapRange}.

(** [_ = newLog.Close(); _ = os.Remove(newLogPath)] *)
Definition discard_log (newLog : appendLog) (newLogPath : bytes) : M SS unit :=
  on_snd (ignore (with_log newLog log_Close));;
  on_snd (ignore (os_Remove newLogPath)).

(** The value and the extension area of a live entry, in either format. *)
Definition read_entry (s : Store) (entry : indexEntry) : M SS (bytes * bytes) :=
  if 4 <=? version (s_log s) then
    on_log (ReadRecordAndExtensionsAt (RecordOffset entry) (StoredSize entry))
  else
    value ← on_log (log_ReadAt (Offset entry) (Index.Size entry));
    mret (value, []).

(** The loop over the live keys: the new log and its index grow together. *)
Fixpoint compact_entries (newLogPath : bytes) (keys : list bytes)
    (newLog : appendLog) (newIdx : index) : M SS (appendLog * index) :=
  match keys with
  | [] => mret (newLog, newIdx)
  | key :: keys =>
      s ← the_store;
      match idx_Get key (s_index s) with
      | None => compact_entries newLogPath keys newLog newIdx
      | Some entry =>
          r ← attempt (read_entry s entry);
          match r with
          | inl err =>
              discard_log newLog newLogPath;;
              throw (Errorf "failed to read during compaction" [err])
          | inr (value, extensions) =>
              r ← attempt (on_snd (with_log newLog
                    (Append key value false (Attributes entry) extensions)));
              match r with
              | inl err =>
                  discard_log newLog newLogPath;;
                  throw (Errorf "failed to write during compaction" [err])
              | inr (a, newLog) =>
                  compact_entries newLogPath keys newLog
                    (idx_Put key (appended_entry a (Attributes entry)) newIdx)
              end
          end
      end
  end.

(** [reopened, reopenErr := openAppendLogFile(oldPath);
    if reopenErr == nil { s.log = reopened }] *)
Definition reopen (oldPath : bytes) : M SS (option error) :=
  r ← attempt (on_snd (openAppendLogFile oldPath));
  match r with
  | inl e => mret (Some e)
  | inr l => modify_store (set_log l);; mret None
  end.

(** [err := m()] *)
Definition error_of {S} (m : M S unit) : M S (option error) :=
  r ← attempt m;
  match r with
  | inl e => mret (Some e)
  | inr _ => mret None
  end.

(** [errors.Join(first, others...)], where [first] is not nil. *)
Definition join_err (first : error) (others : list (option error)) : error :=
  Errorf "join" (first :: omap id others).

(** The compacted log, complete and synced, under its temporary name. *)
Definition write_compacted (oldPath newLogPath : bytes) : M SS (index * appendLog) :=
  on_snd (wrap "failed to stat log before compaction" (os_Stat oldPath));;
  newLog ← on_snd (wrap "failed to create compaction log" (createAppendLogMode newLogPath));
  s ← the_store;
  let '(keys, idx) := KeysSortedByOffset (s_index s) in
  modify_store (set_index idx);;
  '(newLog, newIdx) ←
    compact_entries newLogPath keys newLog (newIndex (IndexedFields (options s)));
  r ← error_of ('(_, _) ← on_snd (with_log newLog log_Sync); mret tt);
  match r with
  | Some err =>
      discard_log newLog newLogPath;; throw (Errorf "failed to sync compaction log" [err])
  | None =>
      r ← error_of ('(_, _) ← on_snd (with_log newLog log_Close); mret tt);
      match r with
      | Some err =>
          on_snd (ignore (os_Remove newLogPath));;
          throw (Errorf "failed to close compaction log" [err])
      | None => mret (newIdx, newLog)
      end
  end.

(** The new log is in place: from here on it is the store's log. *)
Definition reopen_compacted (oldPath backupPath : bytes) (newIdx : index) : M SS unit :=
  r ← reopen oldPath;
  match r with
  | Some err =>
      removeErr ← error_of (on_snd (os_Remove oldPath));
      restoreErr ← error_of (on_snd (os_Rename backupPath oldPath));
      reopenErr ← reopen oldPath;
      throw (join_err (Errorf "failed to reopen compacted log" [err])
               [removeErr; restoreErr; reopenErr])
  | None =>
      modify_store (set_index newIdx);;
      modify_store (λ s, set_cache (cache_Clear (s_cache s)) s);;
      on_snd (removeIfExists backupPath);;
      on_snd (wrap "failed to sync compacted log replacement" (syncParentDirectory oldPath));;
      count add_Compactions
  end.

(** The replacement of the old log by the new one. *)
Definition replace_log (oldPath readyPath backupPath : bytes) (newIdx : index) : M SS unit :=
  r ← error_of (on_log log_Close);
  match r with
  | Some err =>
      reopenErr ← reopen oldPath;
      on_snd (ignore (os_Remove readyPath));;
      throw (join_err (Errorf "failed to close old log during compaction" [err]) [reopenErr])
  | None =>
  r ← error_of (on_snd (os_Rename oldPath backupPath));
  match r with
  | Some err =>
      reopenErr ← reopen oldPath;
      on_snd (ignore (os_Remove readyPath));;
      throw (join_err (Errorf "failed to back up old log" [err]) [reopenErr])
  | None =>
  r ← error_of (on_snd (os_Rename readyPath oldPath));
  match r with
  | Some err =>
      restoreErr ← error_of (on_snd (os_Rename backupPath oldPath));
      reopenErr ← reopen oldPath;
      throw (join_err (Errorf "failed to install compacted log" [err]) [restoreErr; reopenErr])
  | None => reopen_compacted oldPath backupPath newIdx
  end end end.

Definition compact_body : M SS unit :=
  s ← the_store;
  let oldPath := path (s_log s) in
  let newLogPath := oldPath ++ compactionTempSuffix in
  let readyPath := oldPath ++ compactionReadySuffix in
  let backupPath := oldPath ++ compactionBackupSuffix in
  on_snd (removeIfExists newLogPath);;
  on_snd (removeIfExists readyPath);;
  on_snd (removeIfExists backupPath);;
  '(newIdx, _) ← write_compacted oldPath newLogPath;
  on_snd (wrap "failed to prepare compaction log"
    (or_remove newLogPath (os_Rename newLogPath readyPath)));;
  on_snd (wrap "failed to sync prepared compaction log"
    (or_remove readyPath (syncParentDirectory oldPath)));;
  replace_log oldPath readyPath backupPath newIdx.

(** Up to the mutex: the guards, and [compacting.CompareAndSwap(false, true)]. *)
Definition compact_enter : M SS unit :=
  check_open;;
  check_writable;;
  s ← the_store;
  if compacting s then throw (Sentinel ErrCompactionInProgress) else
  modify_store (set_compacting true).

(** [defer s.compacting.Store(false)], which runs after the mutex is free. *)
Definition compact_leave : M SS unit := modify_store (set_compacting false).

Definition Compact : M SS unit := compact_enter;; deferred compact_body compact_leave.

(** ** migrate *)

Definition backup_path (p : bytes) (from : Z) : bytes :=
  p ++ str (".v" ++ pretty from) ++ migrationBackupSuffix.

Definition migrate (p : bytes) : M SS unit :=
  s ← the_store;
  let from := version (s_log s) in
  backup ← (if NoMigrationBackup (options s) then mret []
            else on_snd (wrap "back up log before migrating" (copyLogFile p (backup_path p from)));;
                 mret (backup_path p from));
  let info := {| mi_Path := p; FromVersion := from; ToVersion := logVersion;
                 Backup := backup |} in
  match (OnMigrate (options s)) ≫= (λ f, f info) with
  | Some e => throw e
  | None =>
      if from =? 4 then wrap "migrate log from v4" (on_log (setVersion logVersion))
      else wrap "migrate log" Compact
  end.
End compact.
