(* ===== verification/CompactSpec.v ===== *)
(** * Compaction keeps the map and survives a failure

    [Compact] rewrites each live record with its value, attributes and
    extension area, so the map is the same afterwards.  With at most one
    failure, of any kind and at any point, an error leaves a store that still
    serves the old or the new log, and a crash leaves a disk from which
    recovery takes the old or the new log. *)

From S2P Require Import Prelude Go Crc32c Attributes Reader Record Index Cache Legacy FileSystem.
From S2P Require Import Log LogSpec Scan Opening Store StoreSpec Compact.
#[local] Open Scope Z_scope.

(** ** What is written *)

(** The record compaction writes for [r]. *)
Definition rewritten (r : raw) : raw :=
  entry false (raw_key r) (raw_value r) (raw_attrs r) (raw_extensions r).

Lemma stored_append_ok r :
  stored r → append_ok (raw_key r) (raw_value r) (raw_attrs r) (raw_extensions r).
Proof.
  intros (_ & (Hk & Ha & Hv & He) & Hext & Hdec).
  destruct (decodeAttributes_reencode _ _ Hdec Ha) as [Hok _].
  split_and!; try done; [by apply validateExtensions_spec|by destruct Hok as (? & ? & ?)..].
Qed.

Lemma rewritten_stored r : stored r → stored (rewritten r) ∧ raw_attrs (rewritten r) = raw_attrs r.
Proof. intros Hr. apply stored_valid, entry_valid, stored_append_ok, Hr. Qed.

(** The live records, rewritten in the order of [ks]. *)
Definition rewrite_keys (m : kv) (ks : list bytes) : list raw :=
  omap (λ k, rewritten <$> m !! k) ks.

Lemma rewrite_keys_snoc m ks k r :
  m !! k = Some r → rewrite_keys m (ks ++ [k]) = rewrite_keys m ks ++ [rewritten r].
Proof. intros Hr. unfold rewrite_keys. rewrite omap_app. simpl. by rewrite Hr. Qed.

Lemma length_rewrite_keys m ks :
  (∀ k, k ∈ ks → is_Some (m !! k)) → length (rewrite_keys m ks) = length ks.
Proof.
  intros Hks. unfold rewrite_keys. induction ks as [|k ks IH]; [done|]. simpl.
  destruct (Hks k) as [r Hr]; [set_solver|]. rewrite Hr. simpl.
  f_equal. apply IH. set_solver.
Qed.

(** The map a compacted log describes. *)
Lemma live_rewrite_keys m ks k :
  (∀ k r, m !! k = Some r → raw_key r = k) →
  live (rewrite_keys m ks) !! k = if decide (k ∈ ks) then rewritten <$> m !! k else None.
Proof.
  intros Hkey. induction ks as [|k' ks IH] using rev_ind; [done|].
  unfold rewrite_keys in *. rewrite omap_app. simpl.
  destruct (m !! k') as [r|] eqn:Hr; simpl; rewrite ?app_nil_r.
  - rewrite live_snoc. unfold apply_record. change (raw_deleted (rewritten r)) with false. simpl.
    rewrite (Hkey _ _ Hr). destruct (decide (k = k')) as [->|Hne].
    + rewrite lookup_insert_eq, Hr, decide_True by set_solver. done.
    + rewrite lookup_insert_ne, IH by done. repeat case_decide; set_solver.
  - rewrite IH. destruct (decide (k = k')) as [->|Hne].
    + rewrite Hr. by repeat case_decide.
    + repeat case_decide; set_solver.
Qed.

Lemma live_rewrite_all m ks :
  (∀ k r, m !! k = Some r → raw_key r = k) → (∀ k, k ∈ ks ↔ is_Some (m !! k)) →
  live (rewrite_keys m ks) = rewritten <$> m.
Proof.
  intros Hkey Hks. apply map_eq. intros k. rewrite live_rewrite_keys, lookup_fmap by done.
  case_decide as Hk; [done|]. destruct (m !! k) eqn:Hm; [|done].
  destruct Hk. apply Hks. by rewrite Hm.
Qed.

Lemma live_keys_ok rs k r : live rs !! k = Some r → raw_key r = k.
Proof. by intros (_ & ? & _)%live_key. Qed.

(** ** The loop over the live keys *)

(** All files but [p] are as before, later in the run. *)
Definition only (p : bytes) (w w' : world) : Prop :=
  (∀ q, q ≠ p → files w' !! q = files w !! q) ∧ later w w'.

Lemma only_refl p w : only p w w.
Proof. done. Qed.
Lemma only_trans p w1 w2 w3 : only p w1 w2 → only p w2 w3 → only p w1 w3.
Proof. intros [H1 ?] [H2 ?]. split; [|lia]. intros q Hq. by rewrite H2, H1. Qed.
Lemma only_becomes p w w' : becomes w (files w) w' → only p w w'.
Proof. intros [Hf Hl]. split; [by rewrite Hf|done]. Qed.
Lemma only_delete p w w' : becomes w (delete p (files w)) w' → only p w w'.
Proof. intros [Hf Hl]. split; [|done]. intros q Hq. by rewrite Hf, lookup_delete_ne. Qed.

Lemma store_ok_files p ro rs junk s w w' :
  store_ok p ro rs junk s w → files w' !! p = files w !! p → store_ok p ro rs junk s w'.
Proof.
  intros [Hlog] Hf. split; try done. eapply log_ok_world; [done|]. rewrite Hf. apply Hlog.
Qed.

Section compaction.
Context `{!MapRange}.

(** [l.Close()]: the descriptor is given up, whatever the result. *)
Lemma wp_log_Close l w (Q : res unit → LS → Prop) :
  file_open l = true →
  (∀ w', becomes w (files w) w' →
    Q (Ok tt) (set_open false (set_mapped None (mapDisabled l) l), w')) →
  (∀ w', fails w (files w) w' →
    Q (Err EIO) (set_open false (set_mapped None (mapDisabled l) l), w') ∧ ∀ l', Q Crash (l', w')) →
  wp log_Close Q (l, w).
Proof using Type.
  intros Ho HOk HFail. unfold log_Close. apply wp_the_log, wp_modify_log. cbn [fst snd].
  apply wp_bind, wp_attempt, wp_on_file; [done|].
  apply wp_sys_const; cbn [fst snd].
  - intros w' Hw. by apply wp_modify_log, HOk.
  - intros w' Hw. split; [|by apply HFail]. by apply wp_modify_log, HFail.
Qed.

Lemma wp_close_ignored l w (Q : res unit → world → Prop) :
  file_open l = true →
  (∀ w', becomes w (files w) w' → Q (Ok tt) w') →
  (∀ w', fails w (files w) w' → Q Crash w') →
  wp (ignore (with_log l log_Close)) Q w.
Proof using Type.
  intros Ho HOk HFail. apply wp_ignore, wp_with_log, wp_log_Close; [done|..].
  - intros w' Hw. by apply HOk.
  - intros w' Hw. split; [by apply HOk, fails_becomes|]. intros l'. by apply HFail.
Qed.

Lemma wp_remove_ignored p w (Q : res unit → world → Prop) :
  (∀ w', only p w w' → Q (Ok tt) w') →
  (∀ w', only p w w' → failed w w' → Q Crash w') →
  wp (ignore (os_Remove p)) Q w.
Proof using Type.
  intros HOk HFail. apply wp_ignore, wp_os_Remove.
  - intros w' _ Hw. by apply HOk, only_delete.
  - intros w' _ Hw. by apply HOk, only_becomes.
  - intros w' Hw. pose proof (only_becomes p _ _ (fails_becomes _ _ _ Hw)).
    split; [by apply HOk|]. apply HFail; [done|apply Hw].
Qed.

Lemma wp_discard_log newLog tp s w (Q : res unit → SS → Prop) :
  file_open newLog = true →
  (∀ w', only tp w w' → Q (Ok tt) (s, w')) →
  (∀ w', only tp w w' → failed w w' → Q Crash (s, w')) →
  wp (discard_log newLog tp) Q (s, w).
Proof using Type.
  intros Ho HOk HFail. apply wp_bind, wp_zoom, wp_close_ignored; [done|..]; cbn [fst snd].
  - intros w1 Hw1. pose proof (only_becomes tp _ _ Hw1) as Hon.
    apply wp_zoom, wp_remove_ignored; cbn [fst snd].
    + intros w2 Hw2. apply HOk. by eapply only_trans.
    + intros w2 Hw2 Hl. apply HFail; [by eapply only_trans|]. destruct Hw1. lia.
  - intros w1 Hw1. apply HFail; [by apply only_becomes, fails_becomes|apply Hw1].
Qed.

(** The new log and its index, while they are being written. *)
Record new_ok (tp : bytes) (done : list raw) (l : appendLog) (idx : index) (w : world) : Prop := {
  no_log : log_ok tp (fresh_header ++ log_records done) [] l w;
  no_version : version l = logVersion;
  no_features : incompatibleFeatures l = 0 ∧ readOnlyFeatures l = 0;
  no_stored : Forall stored done;
  no_index : idx_inv idx;
  no_agrees : index_agrees (fresh_header ++ log_records done) (entries idx) (live done)
}.

(** One more record in the new log. *)
Lemma new_ok_append tp done l idx w rec l' w' :
  new_ok tp done l idx w → stored rec → raw_deleted rec = false → same_format l l' →
  log_ok tp ((fresh_header ++ log_records done) ++ raw_record rec) [] l' w' →
  new_ok tp (done ++ [rec]) l'
    (idx_Put (raw_key rec) (entry_at (len (fresh_header ++ log_records done)) rec) idx) w'.
Proof.
  intros [? Hv [Hi Hr] Hst Hidx Ha] Hrec Hdel (Hv' & Hi' & Hr' & _) Hlog.
  rewrite <- app_assoc, <- log_records_snoc in Hlog.
  split; [done|congruence|split; congruence| |by apply idx_Put_inv|].
  - apply Forall_app. by split; [|constructor].
  - rewrite live_snoc, idx_Put_entries, log_records_snoc, app_assoc.
    unfold apply_record. rewrite Hdel.
    apply index_agrees_insert; [by apply index_agrees_app|].
    split; [done|]. split; [done|]. exists (fresh_header ++ log_records done), [].
    rewrite app_nil_r. split; [done|]. split; [done|].
    rewrite length_app. pose proof (length_header logVersion 0 0). unfold fresh_header. lia.
Qed.

Lemma wp_read_entry p ro rs junk s w a z rec (Q : res (bytes * bytes) → SS → Prop) :
  store_ok p ro rs junk s w → stored rec →
  header_bytes logVersion 0 ro ++ log_records rs = a ++ raw_record rec ++ z →
  (∀ w', becomes w (files w) w' → Q (Ok (raw_value rec, raw_extensions rec)) (s, w')) →
  (∀ w', fails w (files w) w' → Q (Err EIO) (s, w') ∧ Q Crash (s, w')) →
  wp (read_entry s (entry_at (len a) rec)) Q (s, w).
Proof using Type.
  intros Hs Hst Hpre HOk HFail. unfold read_entry.
  rewrite (so_version _ _ _ _ _ _ Hs). apply wp_on_log. eapply wp_mono.
  { eapply (wp_ReadRecordAndExtensionsAt p _ junk a z rec); [apply Hs|done|by apply stored_fits]. }
  intros [v|e| |] [l' w'] (-> & Hw & Hr); simpl in *; try done;
    replace (set_log (s_log s) s) with s by (by destruct s).
  - subst v. by apply HOk.
  - destruct Hr as [-> Hl]. apply HFail. by split; [apply Hw|].
  - apply HFail. by split; [apply Hw|].
Qed.

(** A complete compacted log of the map [m]: one record for each key. *)
Definition rewrites (m : kv) (rs' : list raw) : Prop :=
  Forall stored rs' ∧ live rs' = rewritten <$> m ∧ length rs' = size m.

(** ... and the index that goes with it. *)
Definition indexes (rs' : list raw) (idx : index) : Prop :=
  idx_inv idx ∧ index_agrees (fresh_header ++ log_records rs') (entries idx) (live rs').

Lemma store_ok_index p ro rs junk s w idx :
  store_ok p ro rs junk s w → idx_inv idx → entries idx = entries (s_index s) →
  store_ok p ro rs junk (set_index idx s) w.
Proof using Type. intros [] Hidx He. split; simpl; try done. by rewrite He. Qed.

Lemma store_ok_compacting p ro rs junk s w b :
  store_ok p ro rs junk s w → store_ok p ro rs junk (set_compacting b s) w.
Proof using Type. intros []. by split. Qed.

Lemma wp_error_of {S} (m : M S unit) (Q : res (option error) → S → Prop) s :
  wp m (λ r s', match r with
                | Ok _ => Q (Ok None) s'
                | Err e => Q (Ok (Some e)) s'
                | Panic => Q Panic s'
                | Crash => Q Crash s'
                end) s →
  wp (error_of m) Q s.
Proof using Type.
  intros Hm. apply wp_bind, wp_attempt. eapply wp_mono; [exact Hm|]. by intros [] ?.
Qed.

(** The log [l] of format [v] has been opened on the contents [c]. *)
Definition reopened (p : bytes) (v : Z) (c : bytes) (l : appendLog) (w : world) : Prop :=
  log_ok p c [] l w ∧ version l = v ∧
  incompatibleFeatures l = 0 ∧ readOnlyFeatures l = 0.

Lemma wp_reopen p v i ro s w body (Q : res (option error) → SS → Prop) :
  header_ok v i ro → header_masks v i ro = (0, 0) →
  files w !! p = Some (header_bytes v i ro ++ body) →
  (∀ l w', becomes w (files w) w' → reopened p v (header_bytes v i ro ++ body) l w' →
    Q (Ok None) (set_log l s, w')) →
  (∀ e w', fails w (files w) w' → Q (Ok (Some e)) (s, w') ∧ Q Crash (s, w')) →
  wp (reopen p) Q (s, w).
Proof using Type.
  intros Hh Hm0 Hf HOk HFail. apply wp_bind, wp_attempt, wp_zoom. eapply wp_mono.
  { apply (wp_openAppendLogFile p v i ro body); [done|done]. }
  intros [l|e| |] w' [Hw Hr]; cbn [fst snd] in *; try done.
  - destruct Hr as (Hlog & Hv & Hm & _). apply wp_modify_store, wp_ret, HOk; [done|].
    rewrite Hm0 in Hm. injection Hm as Hi Hro. by split_and!.
  - destruct Hr as [Hl|[Hm _]]; [|by rewrite Hm0 in Hm]. apply HFail. by split; [apply Hw|].
  - apply (HFail EIO). by split; [apply Hw|].
Qed.

(** Only the log and its artifacts may have changed. *)
Definition within (p : bytes) (w w' : world) : Prop :=
  (∀ q, q ∉ p :: artifacts p → files w' !! q = files w !! q) ∧ later w w'.

Lemma within_becomes p w w' fs w'' :
  within p w w' → becomes w' fs w'' →
  (∀ q, q ∉ p :: artifacts p → fs !! q = files w' !! q) → within p w w''.
Proof using Type.
  intros [Ho Hl] [Hf Hl'] Hfs. split; [|lia]. intros q Hq. by rewrite Hf, Hfs, Ho.
Qed.

Lemma survivor_main p fs c : fs !! p = Some c → survivor p fs = Some c.
Proof using Type. unfold survivor. by intros ->. Qed.

Lemma within_fails p w w' w'' :
  within p w w' → fails w' (files w') w'' → within p w w'' ∧ failed w w''.
Proof using Type.
  intros Hw Hf. split; [eapply within_becomes; [done|by apply fails_becomes|done]|].
  destruct Hw, Hf. lia.
Qed.

(** [or_remove]: the cleanup of an artifact after a failure. *)
Lemma wp_or_remove q (m : M world unit) fmt s w (Q : res unit → SS → Prop) :
  wp m (λ r w', match r with
                | Ok _ => Q (Ok tt) (s, w')
                | Err e => (∀ w'', only q w' w'' → Q (Err (Errorf fmt [e])) (s, w'')) ∧
                           (∀ w'', only q w' w'' → failed w' w'' → Q Crash (s, w''))
                | Panic => Q Panic (s, w')
                | Crash => Q Crash (s, w')
                end) w →
  wp (on_snd (wrap fmt (or_remove q m))) Q (s, w).
Proof using Type.
  intros Hm. apply wp_zoom, wp_wrap, wp_bind, wp_attempt. eapply wp_mono; [exact Hm|].
  intros [[]|e| |] w' HQ; try done. destruct HQ as [HE HC].
  apply wp_bind, wp_remove_ignored; cbn [fst snd].
  - intros w'' Hw. by apply HE.
  - intros w'' Hw Hl. by apply HC.
Qed.

End compaction.

(** ** The interface of a store that compaction rewrites
    [old] is its file, of format [v]; [m] maps each live key to a record that
    has its value, attributes and extension area; [ok] is the invariant.  After
    a failure the old file is opened again, and if it was [intact] the
    invariant is back. *)
Class Rewritable `{!MapRange} (p old : bytes) (v : Z) (m : kv) (intact : Prop)
    (ok : Store → world → Prop) := {
  rw_log s w : ok s w → path (s_log s) = p ∧ file_open (s_log s) = true;
  rw_file s w : ok s w → files w !! p = Some old;
  rw_files s w w' : ok s w → files w' !! p = files w !! p → ok s w';
  rw_index s w : ok s w → idx_inv (s_index s) ∧ dom (entries (s_index s)) = dom m;
  rw_set_index s w idx :
    ok s w → idx_inv idx → entries idx = entries (s_index s) → ok (set_index idx s) w;
  rw_set_compacting s w b : ok s w → ok (set_compacting b s) w;
  rw_writable s w : ok s w → readOnlyReason s = None;
  rw_record s w k rec : ok s w → m !! k = Some rec → raw_key rec = k ∧ stored rec;
  rw_attributes s w k e rec :
    ok s w → entries (s_index s) !! k = Some e → m !! k = Some rec → Attributes e = raw_attrs rec;
  rw_read s w k e rec (Q : res (bytes * bytes) → SS → Prop) :
    ok s w → entries (s_index s) !! k = Some e → m !! k = Some rec →
    (∀ w', becomes w (files w) w' → Q (Ok (raw_value rec, raw_extensions rec)) (s, w')) →
    (∀ w', fails w (files w) w' → Q (Err EIO) (s, w') ∧ Q Crash (s, w')) →
    wp (read_entry s e) Q (s, w);
  rw_header : ∃ i ro body, header_ok v i ro ∧ header_masks v i ro = (0, 0) ∧
    old = header_bytes v i ro ++ body;
  rw_reopen s w l w' :
    intact → ok s w → log_ok p old [] l w' → version l = v →
    incompatibleFeatures l = 0 → readOnlyFeatures l = 0 → ok (set_log l s) w'
}.


Section rewriting.
Context `{!MapRange} {p old : bytes} {v : Z} {m : kv} {intact : Prop}.
Context {ok : Store → world → Prop} `{!Rewritable p old v m intact ok}.
#[local] Set Default Proof Using "Type*".

Lemma rw_entry s w k rec :
  ok s w → m !! k = Some rec → ∃ e, entries (s_index s) !! k = Some e.
Proof.
  intros Hs Hr. destruct (rw_index _ _ Hs) as [_ Hd].
  assert (k ∈ dom (entries (s_index s))) as Hk by (rewrite Hd; apply elem_of_dom; eauto).
  by apply elem_of_dom in Hk.
Qed.

(** The outcome of the loop, run from [w]. *)
Definition loops (tp : bytes) (ks : list bytes) (s : Store) (w : world)
    (r : res (appendLog * index)) (s' : SS) : Prop :=
  only tp w s'.2 ∧ s'.1 = s ∧
  match r with
  | Ok (l, idx) => new_ok tp (rewrite_keys m ks) l idx s'.2
  | Err _ | Crash => failed w s'.2
  | Panic => False
  end.

(** An error after a failure: the unfinished log goes, the store stays. *)
Lemma wp_give_up tp ks l s w0 w e :
  file_open l = true → only tp w0 w → failed w0 w →
  wp (discard_log l tp;; throw e) (loops tp ks s w0) (s, w).
Proof.
  intros Ho Hon Hl. apply wp_bind, wp_discard_log; [done|..].
  - intros w' Hw. apply wp_throw. split; [by eapply only_trans|]. split; [done|].
    destruct Hw. simpl. lia.
  - intros w' Hw Hl'. split; [by eapply only_trans|]. split; [done|]. simpl. lia.
Qed.

Lemma wp_compact_entries tp s w0 w ks ks' l idx :
  p ≠ tp → ok s w → only tp w0 w →
  new_ok tp (rewrite_keys m ks) l idx w →
  (∀ k, k ∈ ks' → is_Some (m !! k)) →
  wp (compact_entries tp ks' l idx) (loops tp (ks ++ ks') s w0) (s, w).
Proof.
  intros Hne Hs Hon Hnew Hks. revert ks l idx w Hs Hon Hnew.
  induction ks' as [|k ks' IH]; intros ks l idx w Hs Hon Hnew; cbn [compact_entries].
  { rewrite app_nil_r. apply wp_ret. by split_and!. }
  apply wp_the_store. cbn [fst]. destruct (Hks k) as [rec Hrec]; [set_solver|].
  destruct (rw_record s w k rec Hs Hrec) as [<- Hst].
  destruct (rw_entry s w _ rec Hs Hrec) as [e He]. unfold idx_Get. rewrite He.
  pose proof (lo_open _ _ _ _ _ (no_log _ _ _ _ _ Hnew)) as Ho.
  apply wp_bind, wp_attempt, (rw_read s w _ e rec _ Hs He Hrec).
  2:{ intros w1 Hw1. pose proof (only_trans _ _ _ _ Hon (only_becomes tp _ _
        (fails_becomes _ _ _ Hw1))) as Hon1. destruct Hw1 as [_ Hl1], Hon as [_ Hl].
      split; [apply wp_give_up; [done|done|lia]|]. split_and!; [done|done|simpl; lia]. }
  intros w1 Hw1. pose proof (only_trans _ _ _ _ Hon (only_becomes tp _ _ Hw1)) as Hon1.
  assert (new_ok tp (rewrite_keys m ks) l idx w1) as Hnew1.
  { destruct Hnew. split; try done. eapply log_ok_world; [done|]. rewrite (proj1 Hw1).
    by eapply lo_file. }
  rewrite (rw_attributes s w _ e rec Hs He Hrec).
  apply wp_bind, wp_attempt, wp_zoom, wp_with_log. cbn [fst snd]. eapply wp_mono.
  { eapply (wp_Append (raw_key rec) (raw_value rec) false (raw_attrs rec)
      (raw_extensions rec) tp); [apply Hnew1| |apply Hnew1|by apply stored_append_ok].
    rewrite unknown_is_mask. apply (no_features _ _ _ _ _ Hnew1). }
  fold (rewritten rec). destruct (rewritten_stored rec Hst) as [Hst' Hat'].
  intros [ap|err| |] [l' w2] (Hoth & Hl2 & Hr); cbn [fst snd] in *; try done.
  - destruct Hr as (-> & Hfmt & Hlog). rewrite drop_nil in Hlog.
    pose proof (new_ok_append _ _ _ _ _ _ _ _ Hnew1 Hst' eq_refl Hfmt Hlog) as Hnew2.
    replace (ks ++ raw_key rec :: ks') with ((ks ++ [raw_key rec]) ++ ks')
      by (by rewrite <- app_assoc).
    rewrite <- (rewrite_keys_snoc _ _ (raw_key rec)) in Hnew2 by done.
    assert (only tp w1 w2) as Hon2 by (by split).
    apply IH; [set_solver| |by eapply only_trans|].
    + eapply rw_files; [done|]. by rewrite Hoth, (proj1 Hw1).
    + set (pos := len (fresh_header ++ _)) in *. unfold appended_entry. simpl.
      unfold entry_at, record_entry, scanned in Hnew2. simpl in Hnew2. rewrite Hat' in Hnew2.
      replace (pos + (20 + len (raw_key rec) + len (encode_spec (raw_attrs rec)))) with
        (pos + 20 + len (raw_key rec) + len (encode_spec (raw_attrs rec))) by lia. exact Hnew2.
  - destruct Hr as (-> & Hd & _). assert (only tp w1 w2) as Hon2 by (by split).
    apply wp_give_up; [done|by eapply only_trans|]. destruct Hon1. lia.
  - destruct Hr as (Hd & _). assert (only tp w1 w2) as Hon2 by (by split).
    split_and!; [by eapply only_trans|done|]. destruct Hon1. simpl. lia.
Qed.

Definition prepares (tp : bytes) (w : world)
    (r : res (index * appendLog)) (s' : SS) : Prop :=
  only tp w s'.2 ∧
  match r with
  | Ok (idx, _) =>
      ok s'.1 s'.2 ∧
      ∃ rs', rewrites m rs' ∧ indexes rs' idx ∧
             files s'.2 !! tp = Some (fresh_header ++ log_records rs')
  | Err _ => failed w s'.2 ∧ ok s'.1 s'.2
  | Crash => failed w s'.2
  | Panic => False
  end.

Lemma prepares_fail tp s w w' e :
  p ≠ tp → ok s w → only tp w w' → failed w w' →
  prepares tp w (Err e) (s, w') ∧ prepares tp w Crash (s, w').
Proof.
  intros Hne Hs [Ho Hl] Hd. split; (split; [by split|]); [|done].
  split; [done|]. eapply rw_files; [done|]. by apply Ho.
Qed.

(** Syncing and closing the finished log. *)
Lemma wp_finish_log tp s w0 w idx l rs' :
  p ≠ tp → ok s w0 → only tp w0 w → rewrites m rs' → indexes rs' idx →
  log_ok tp (fresh_header ++ log_records rs') [] l w →
  wp (r ← error_of ('(_, _) ← on_snd (with_log l log_Sync); mret tt);
      match r with
      | Some err =>
          discard_log l tp;; throw (Errorf "failed to sync compaction log" [err])
      | None =>
          r ← error_of ('(_, _) ← on_snd (with_log l log_Close); mret tt);
          match r with
          | Some err =>
              on_snd (ignore (os_Remove tp));;
              throw (Errorf "failed to close compaction log" [err])
          | None => mret (idx, l)
          end
      end) (prepares tp w0) (s, w).
Proof.
  intros Hne Hs Hon Hcomp Hidx Hlog. pose proof (lo_open _ _ _ _ _ Hlog) as Ho.
  assert (∀ w' e, only tp w0 w' → failed w0 w' →
    prepares tp w0 (Err e) (s, w') ∧ prepares tp w0 Crash (s, w')) as Hfail.
  { intros w' e. by apply prepares_fail. }
  apply wp_bind, wp_bind, wp_attempt, wp_bind, wp_zoom, wp_with_log, wp_on_file; [done|].
  apply wp_sys_const; cbn [fst snd].
  2:{ intros w1 Hw1. pose proof (only_trans _ _ _ _ Hon (only_becomes tp _ _
        (fails_becomes _ _ _ Hw1))) as Hon1. destruct Hw1 as [_ Hl1], Hon as [_ Hl0].
      split; [|by apply (Hfail w1 EIO); [|lia]].
      apply wp_ret, wp_bind, wp_discard_log; [done|..].
      - intros w2 Hw2. pose proof (only_trans _ _ _ _ Hon1 Hw2). destruct Hw2.
        apply wp_throw, Hfail; [done|lia].
      - intros w2 Hw2 Hl2. pose proof (only_trans _ _ _ _ Hon1 Hw2).
        apply (Hfail w2 EIO); [done|lia]. }
  intros w1 Hw1. pose proof (only_trans _ _ _ _ Hon (only_becomes tp _ _ Hw1)) as Hon1.
  apply wp_ret, wp_ret, wp_bind, wp_bind, wp_attempt, wp_bind, wp_zoom, wp_with_log, wp_log_Close;
    [done|..]; cbn [fst snd].
  2:{ intros w2 Hw2. pose proof (only_trans _ _ _ _ Hon1 (only_becomes tp _ _
        (fails_becomes _ _ _ Hw2))) as Hon2. destruct Hw2 as [_ Hl2], Hon1 as [_ Hl1].
      split; [|intros l'; by apply (Hfail w2 EIO); [|lia]].
      apply wp_ret, wp_bind, wp_zoom, wp_remove_ignored; cbn [fst snd].
      - intros w3 Hw3. pose proof (only_trans _ _ _ _ Hon2 Hw3). destruct Hw3.
        apply wp_throw, Hfail; [done|lia].
      - intros w3 Hw3 Hl3. pose proof (only_trans _ _ _ _ Hon2 Hw3).
        apply (Hfail w3 EIO); [done|lia]. }
  intros w2 Hw2. pose proof (only_trans _ _ _ _ Hon1 (only_becomes tp _ _ Hw2)) as Hon2.
  apply wp_ret, wp_ret, wp_ret. split; [done|]. cbn [fst snd]. split.
  - eapply rw_files; [done|]. by apply Hon2.
  - exists rs'. split; [done|]. split; [done|]. rewrite (proj1 Hw2), (proj1 Hw1).
    pose proof (lo_file _ _ _ _ _ Hlog) as Hf. by rewrite app_nil_r in Hf.
Qed.

Lemma wp_write_compacted s w tp :
  tp = p ++ compactionTempSuffix → ok s w →
  wp (write_compacted p tp) (prepares tp w) (s, w).
Proof.
  intros Htp Hs. assert (p ≠ tp) as Hne.
  { subst tp. intros Heq. symmetry in Heq. by apply suffix_ne_nil in Heq. }
  pose proof (rw_file _ _ Hs) as Hfile.
  unfold write_compacted. apply wp_bind, wp_zoom, wp_wrap, wp_os_Stat; cbn [fst snd].
  2:{ intros w1 Hw1. apply prepares_fail; [done|done|by apply only_becomes, fails_becomes|apply Hw1]. }
  intros w1 Hw1. rewrite Hfile. pose proof (only_becomes tp _ _ Hw1) as Hon1.
  apply wp_bind, wp_zoom, wp_wrap. eapply wp_mono; [apply wp_createAppendLogMode|].
  intros r w2 (Ho2 & Hl2 & Hr). cbn [fst snd] in Ho2, Hl2, Hr. assert (only tp w1 w2) as Hon2 by (by split).
  apply (only_trans _ _ _ _ Hon1) in Hon2. destruct Hon1 as [_ Hl1].
  destruct r as [l|e| |]; cbn [fst snd] in *; [|
    apply prepares_fail; [done|done|done|]; destruct Hr; lia|done|
    apply (prepares_fail _ _ _ _ EIO); [done|done|done|]; destruct Hr; lia].
  destruct Hr as (Hlog & Hv & Hi & Hro).
  assert (ok s w2) as Hs2.
  { eapply rw_files; [done|]. by apply Hon2. }
  apply wp_the_store. cbn [fst].
  destruct (KeysSortedByOffset_ok (s_index s)) as (Hord & Hinv & He & _);
    [by apply (rw_index s w)|].
  destruct (KeysSortedByOffset (s_index s)) as [ks idx]. cbn [fst snd] in *.
  apply wp_modify_store. cbn [fst snd].
  pose proof (rw_set_index _ _ idx Hs2 Hinv He) as Hs2'.
  pose proof (rw_set_index _ _ idx Hs Hinv He) as Hs'.
  destruct (disk_order_keys _ m ks Hord (proj2 (rw_index _ _ Hs))) as (_ & Hks & Hlen).
  apply wp_bind. eapply wp_mono.
  { apply (wp_compact_entries tp (set_index idx s) w w2 [] ks); [done|done|done| |by apply Hks].
    destruct (newIndex_spec (IndexedFields (options s))) as (Hne0 & _).
    split; [by rewrite app_nil_r|done|done|constructor|apply newIndex_inv|].
    rewrite Hne0. apply index_agrees_empty. }
  intros [[l' nidx]|e| |] [s3 w3] (Hon3 & Hs3 & Hr); cbn [fst snd] in *; subst s3; try done.
  - destruct Hr. apply (wp_finish_log tp _ w w3 nidx l' (rewrite_keys m ks));
      try done. split; [done|]. split; [apply live_rewrite_all; [by intros k r; apply (rw_record s w)|done]|].
    rewrite length_rewrite_keys by (intros; by apply Hks). done.
  - by apply prepares_fail.
Qed.

(** ** The three-file replacement *)

Lemma reopened_new rs' s w0 l w idx :
  ok s w0 → reopened p logVersion (fresh_header ++ log_records rs') l w →
  rewrites m rs' → indexes rs' idx →
  store_ok p 0 rs' [] (set_cache (cache_Clear (s_cache s)) (set_index idx (set_log l s))) w.
Proof.
  intros Hs (Hlog & Hv & Hi & Hr) [Hst _] [Hidx Ha]. split; simpl; try done.
  - apply cache_Clear_inv.
  - by rewrite (rw_writable _ _ Hs).
Qed.

(** The store works on the old log or on the compacted one. *)
Definition serving (s : Store) (w : world) : Prop :=
  ok s w ∨ ∃ rs', rewrites m rs' ∧ store_ok p 0 rs' [] s w.

(** Recovery would take the old log or the compacted one. *)
Definition surviving (w : world) : Prop :=
  survivor p (files w) = Some old ∨
  ∃ rs', rewrites m rs' ∧ survivor p (files w) = Some (fresh_header ++ log_records rs').

Definition outcome (w : world)
    (r : res unit) (s' : SS) : Prop :=
  within p w s'.2 ∧
  match r with
  | Ok _ => ∃ rs', rewrites m rs' ∧ store_ok p 0 rs' [] s'.1 s'.2
  | Err _ => failed w s'.2 ∧ (intact → serving s'.1 s'.2)
  | Crash => failed w s'.2 ∧ surviving s'.2
  | Panic => False
  end.

(** Restoring the old log after the one failure: nothing else can fail. *)
Lemma wp_back_to_old s w0 s1 w (k : option error → M SS unit) :
  ok s w0 → (∃ l, s1 = set_log l s) → clean w → within p w0 w →
  failed w0 w → files w !! p = Some old →
  (∀ s2 w2, within p w0 w2 → clean w2 → (intact → ok s2 w2) →
    wp (k None) (outcome w0) (s2, w2)) →
  wp (reopen p ≫= k) (outcome w0) (s1, w).
Proof.
  intros Hs [l0 ->] Hc Hw Hd Hf Hk. unfold clean in Hc.
  destruct rw_header as (i & ro & body & Hh & Hm & Hold). rewrite Hold in Hf.
  apply wp_bind, (wp_reopen p v i ro _ _ body); [done|done|done|..].
  - intros l w2 Hw2 Hre. apply Hk.
    + by eapply within_becomes.
    + destruct Hw2. unfold clean. lia.
    + intros Hin. rewrite <- Hold in Hre. destruct Hre as (Hlog & Hv & Hi & Hro).
      change (ok (set_log l s) w2). by eapply rw_reopen.
  - intros e w2 [_ Hl]. lia.
Qed.

Section replace.
Context (rs' : list raw) (nidx : index).
Context (s0 : Store) (w0 : world).
Context (Hs0 : ok s0 w0) (Hone : (faults w0 ≤ 1)%nat).
Context (Hcomp : rewrites m rs') (Hidx : indexes rs' nidx).

Let new := fresh_header ++ log_records rs'.
Let ready := p ++ compactionReadySuffix.
Let backup := p ++ compactionBackupSuffix.
#[local] Set Default Proof Using "All".

Lemma names_distinct :
  ready ≠ p ∧ backup ≠ p ∧ ready ≠ backup ∧ ready ∈ artifacts p ∧ backup ∈ artifacts p.
Proof.
  destruct (artifacts_elem p) as (_ & Hr & Hb & _).
  split_and!; [by apply suffix_ne_nil|by apply suffix_ne_nil|by apply suffix_ne|done|done].
Qed.

(** Throwing an error, on the old store. *)
Lemma throw_old s w e :
  within p w0 w → failed w0 w → (intact → ok s w) →
  wp (throw e) (outcome w0) (s, w).
Proof.
  intros Hw Hd Hs. apply wp_throw. split; [done|]. split; [done|]. intros Hj. left. auto.
Qed.

(** The last part, with the new log in place and open. *)
Lemma wp_replace_finish l s w :
  (∃ l0, s = set_log l0 s0) → within p w0 w → reopened p logVersion new l w → files w !! p = Some new →
  wp (modify_store (set_index nidx);;
      modify_store (λ s, set_cache (cache_Clear (s_cache s)) s);;
      on_snd (removeIfExists backup);;
      on_snd (wrap "failed to sync compacted log replacement" (syncParentDirectory p));;
      count add_Compactions) (outcome w0) (set_log l s, w).
Proof.
  intros [l0 ->] Hw Hre Hp. destruct names_distinct as (Hrp & Hbp & Hrb & Hra & Hba).
  do 2 (apply wp_modify_store; cbn [fst snd]).
  set (s1 := set_cache _ _).
  assert (∀ w' t, files w' !! p = Some new →
    store_ok p 0 rs' [] (set_stats t s1) w') as Hs1.
  { intros w' t Hf. assert (reopened p logVersion new l w') as Hre'.
    { destruct Hre as (Hlog & Hre). split; [|done]. eapply log_ok_world; [done|].
      by rewrite app_nil_r. }
    destruct (reopened_new _ _ _ _ _ _ Hs0 Hre' Hcomp Hidx). by split. }
  assert (∀ w' e, within p w0 w' → failed w0 w' → files w' !! p = Some new →
    outcome w0 (Err e) (s1, w') ∧ outcome w0 Crash (s1, w')) as Hfail.
  { intros w' e Hw' Hd Hf. split; (split; [done|]); (split; [done|]).
    - intros _. right. exists rs'. split; [done|]. by apply (Hs1 w' (stats s1)).
    - right. exists rs'. split; [done|]. by apply survivor_main. }
  apply wp_bind, wp_zoom, wp_removeIfExists; cbn [fst snd].
  2:{ intros w1 e Hw1. apply Hfail.
      - eapply within_becomes; [done|by apply fails_becomes|done].
      - destruct Hw, Hw1. lia.
      - by rewrite (proj1 Hw1). }
  intros w1 Hw1. assert (within p w0 w1) as Hw1'.
  { eapply within_becomes; [done|done|]. intros q Hq. rewrite lookup_delete_ne; set_solver. }
  assert (files w1 !! p = Some new) as Hp1 by (by rewrite (proj1 Hw1), lookup_delete_ne).
  apply wp_bind, wp_zoom, wp_wrap, wp_sys_const; cbn [fst snd].
  2:{ intros w2 Hw2. assert (within p w0 w2) as Hw2'.
      { eapply within_becomes; [done|by apply fails_becomes|done]. }
      destruct Hw1', Hw2 as [Hf2 Hl2].
      split; [apply Hfail|apply (Hfail w2 EIO)]; try done; try lia; by rewrite Hf2. }
  intros w2 Hw2. unfold wp, count, modify_store. simpl.
  split; [by eapply within_becomes|]. exists rs'. split; [done|].
  apply (Hs1 w2). by rewrite (proj1 Hw2).
Qed.

(** Giving up before the old log has moved: reopen it, drop the new one. *)
Lemma wp_abort_ready s w e :
  (∃ l0, s = set_log l0 s0) → within p w0 w → failed w0 w → files w !! p = Some old →
  wp (reopenErr ← reopen p;
      on_snd (ignore (os_Remove ready));;
      throw (join_err e [reopenErr])) (outcome w0) (s, w).
Proof.
  intros Hs Hw Hd Hp. destruct names_distinct as (Hrp & _ & _ & Hra & _).
  assert (clean w) by (unfold clean; lia).
  apply (wp_back_to_old s0); [done..|].
  intros s2 w2 Hw2 Hc2 Hok2. apply wp_bind, wp_zoom, wp_remove_ignored; cbn [fst snd].
  - intros w3 [Ho3 Hl3]. apply throw_old.
    + destruct Hw2 as [Ho2 Hl2]. split; [|lia]. intros q Hq. rewrite Ho3, Ho2; set_solver.
    + unfold clean in *. lia.
    + intros Hj. eapply rw_files; [by apply Hok2|]. by apply Ho3.
  - intros w3 _ Hl3. unfold clean in *. lia.
Qed.

(** The new log could not be installed or opened: put the old one back. *)
Lemma wp_restore s w e (others : option error → option error → list (option error)) :
  (∃ l0, s = set_log l0 s0) → within p w0 w → failed w0 w →
  files w !! backup = Some old →
  wp (restoreErr ← error_of (on_snd (os_Rename backup p));
      reopenErr ← reopen p;
      throw (join_err e (others restoreErr reopenErr))) (outcome w0) (s, w).
Proof.
  intros Hs Hw Hd Hb. destruct names_distinct as (Hrp & Hbp & Hrb & Hra & Hba).
  apply wp_bind, wp_error_of, wp_zoom, (wp_os_Rename _ _ _ old); [done|..]; cbn [fst snd].
  2:{ intros w1 [_ Hl]. lia. }
  intros w1 Hw1. apply (wp_back_to_old s0); [done|done|..].
  - destruct Hw1. unfold clean. lia.
  - eapply within_becomes; [done|done|]. intros q Hq.
    rewrite lookup_insert_ne, lookup_delete_ne; set_solver.
  - destruct Hw1. lia.
  - by rewrite (proj1 Hw1), lookup_insert_eq.
  - intros s2 w2 Hw2 Hc2 Hok2. apply throw_old; [done| |done]. unfold clean in *. lia.
Qed.

(** A crash with either log in place of the database. *)
Lemma crash_either s w :
  within p w0 w → failed w0 w →
  survivor p (files w) = Some old ∨ survivor p (files w) = Some new →
  outcome w0 Crash (s, w).
Proof.
  intros Hw Hd [Hsv|Hsv]; (split; [done|]); (split; [done|]); [by left|].
  right. by exists rs'.
Qed.

(** A failed step before the old log has moved. *)
Lemma wp_abort_step s w w' e :
  (∃ l0, s = set_log l0 s0) → within p w0 w → fails w (files w) w' → files w !! p = Some old →
  wp (reopenErr ← reopen p;
      on_snd (ignore (os_Remove ready));;
      throw (join_err e [reopenErr])) (outcome w0) (s, w') ∧
  ∀ s', outcome w0 Crash (s', w').
Proof.
  intros Hs Hw Hw' Hp. pose proof (within_fails _ _ _ _ Hw Hw') as [Hin Hd].
  destruct Hw' as [Hf _]. rewrite <- Hf in Hp. split; [by apply wp_abort_ready|].
  intros s'. apply crash_either; [done|done|]. left. by apply survivor_main.
Qed.

Lemma wp_reopen_compacted s w :
  (∃ l0, s = set_log l0 s0) → within p w0 w →
  files w !! p = Some new → files w !! backup = Some old →
  wp (reopen_compacted p backup nidx) (outcome w0) (s, w).
Proof.
  intros Hs Hw Hp Hback. destruct names_distinct as (Hrp & Hbp & Hrb & Hra & Hba).
  unfold reopen_compacted.
  apply wp_bind, (wp_reopen p logVersion 0 0 _ _ (log_records rs')); [done|done|done|..].
  - intros l w1 Hw1 Hre. apply wp_replace_finish; [done|by eapply within_becomes|done|].
    by rewrite (proj1 Hw1).
  - intros e w1 Hw1. pose proof (within_fails _ _ _ _ Hw Hw1) as [Hin Hd].
    destruct Hw1 as [Hf1 _]. rewrite <- Hf1 in *. split.
    + apply wp_bind, wp_error_of, wp_zoom, wp_os_Remove; cbn [fst snd].
      * intros w2 _ Hw2. apply (wp_restore _ _ _ (λ a b, [None; a; b])); [done|..].
        -- eapply within_becomes; [done|done|]. intros q Hq. rewrite lookup_delete_ne; set_solver.
        -- destruct Hw2. lia.
        -- by rewrite (proj1 Hw2), lookup_delete_ne.
      * intros w2 Hn _. congruence.
      * intros w2 [_ Hl2]. lia.
    + apply crash_either; [done|done|]. right. by apply survivor_main.
Qed.

Lemma wp_replace_log s w :
  (∃ l0, s = set_log l0 s0) → ok s w → within p w0 w →
  files w !! ready = Some new →
  wp (replace_log p ready backup nidx) (outcome w0) (s, w).
Proof.
  intros Hs Hok Hw Hready. destruct names_distinct as (Hrp & Hbp & Hrb & Hra & Hba).
  pose proof (rw_file _ _ Hok) as Hp.
  assert (∀ l, ∃ l0, set_log l s = set_log l0 s0) as Hs'.
  { intros l. destruct Hs as [l0 ->]. by exists l. }
  unfold replace_log. apply wp_bind, wp_error_of, wp_on_log, wp_log_Close; [by apply (rw_log s w)|..];
    cbn [fst snd].
  2:{ intros w1 Hw1. split; [by apply (wp_abort_step _ w)|intros l'; by apply (wp_abort_step s w w1 EIO)]. }
  intros w1 Hw1. assert (within p w0 w1) as Hw1' by (by eapply within_becomes).
  destruct Hw1 as [Hf1 _]. rewrite <- Hf1 in Hp, Hready.
  apply wp_bind, wp_error_of, wp_zoom, (wp_os_Rename _ _ _ old); [done|..]; cbn [fst snd].
  2:{ intros w2 Hw2. split; [by apply (wp_abort_step _ w1)|by apply (wp_abort_step s w1 w2 EIO)]. }
  intros w2 Hw2. assert (within p w0 w2) as Hw2'.
  { eapply within_becomes; [done|done|]. intros q Hq.
    rewrite lookup_insert_ne, lookup_delete_ne; set_solver. }
  destruct Hw2 as [Hf2 _].
  assert (files w2 !! ready = Some new) as Hready2
    by (by rewrite Hf2, lookup_insert_ne, lookup_delete_ne).
  assert (files w2 !! backup = Some old) as Hback2 by (by rewrite Hf2, lookup_insert_eq).
  apply wp_bind, wp_error_of, wp_zoom, (wp_os_Rename _ _ _ new); [done|..]; cbn [fst snd].
  - intros w3 Hw3. apply wp_reopen_compacted; [done|..].
    + eapply within_becomes; [done|done|]. intros q Hq.
      rewrite lookup_insert_ne, lookup_delete_ne; set_solver.
    + by rewrite (proj1 Hw3), lookup_insert_eq.
    + by rewrite (proj1 Hw3), lookup_insert_ne, lookup_delete_ne.
  - intros w3 Hw3. pose proof (within_fails _ _ _ _ Hw2' Hw3) as [Hin Hd].
    destruct Hw3 as [Hf3 _]. rewrite <- Hf3 in *. split.
    + by apply (wp_restore _ _ _ (λ a b, [a; b])).
    + apply crash_either; [done|done|]. right. unfold survivor.
      change (p ++ compactionReadySuffix) with ready.
      by rewrite Hf2, lookup_insert_ne, lookup_delete_eq, <- Hf2, Hready2.
Qed.
End replace.

(** ** The whole of [Compact] *)

Lemma outcome_fail s w0 w e :
  within p w0 w → failed w0 w → ok s w →
  outcome w0 (Err e) (s, w) ∧ outcome w0 Crash (s, w).
Proof.
  intros Hw Hd Hs. split; (split; [done|]); (split; [done|]).
  - intros _. by left.
  - left. apply survivor_main. by eapply rw_file.
Qed.

(** A step that touches one artifact only. *)
Lemma artifact_step q s w0 w w' :
  q ∈ artifacts p → ok s w → within p w0 w → only q w w' →
  within p w0 w' ∧ ok s w'.
Proof.
  intros Hq Hs [Ho Hl] [Ho' Hl']. pose proof (artifact_ne _ _ Hq). split.
  - split; [|lia]. intros r Hr. rewrite Ho', Ho; set_solver.
  - eapply rw_files; [done|]. by apply Ho'.
Qed.

Lemma wp_drop_artifact {A} q s w0 w (k : M SS A) (Q : res A → SS → Prop) :
  q ∈ artifacts p → ok s w → within p w0 w →
  (∀ w', within p w0 w' → ok s w' → wp k Q (s, w')) →
  (∀ w' e, within p w0 w' → failed w0 w' → ok s w' →
    Q (Err e) (s, w') ∧ Q Crash (s, w')) →
  wp (on_snd (removeIfExists q);; k) Q (s, w).
Proof.
  intros Hq Hs Hw HOk HFail. apply wp_bind, wp_zoom, wp_removeIfExists; cbn [fst snd].
  - intros w' Hw'. destruct (artifact_step q s w0 w w'); auto using only_delete.
  - intros w' e Hw'. destruct (artifact_step q s w0 w w') as [Hin Hs'];
      [done|done|done|by apply only_becomes, fails_becomes|].
    apply HFail; [done| |done]. destruct Hw, Hw'. lia.
Qed.

(** An artifact could not be put in place: it is removed, or left. *)
Lemma outcome_abandon q s w0 w w' e :
  q ∈ artifacts p → ok s w → within p w0 w → fails w (files w) w' →
  ((∀ w2, only q w' w2 → outcome w0 (Err e) (s, w2)) ∧
   (∀ w2, only q w' w2 → failed w' w2 → outcome w0 Crash (s, w2))) ∧
  outcome w0 Crash (s, w').
Proof.
  intros Hq Hs Hw Hw'. pose proof (within_fails _ _ _ _ Hw Hw') as [_ Hd].
  assert (∀ w2, only q w' w2 → outcome w0 (Err e) (s, w2) ∧ outcome w0 Crash (s, w2)) as Hall.
  { intros w2 Hon. destruct (artifact_step q s w0 w w2) as [Hw2 Hs2]; [done..| |].
    - eapply only_trans; [by apply only_becomes, fails_becomes|done].
    - apply outcome_fail; [done| |done]. destruct Hon. lia. }
  split; [split; intros w2 Hon; [|intros _]; by apply Hall|].
  apply Hall. by apply only_becomes.
Qed.

(** From the finished copy on. *)
Lemma wp_install_compacted rs' nidx s0 s w0 w :
  let tp := p ++ compactionTempSuffix in
  let ready := p ++ compactionReadySuffix in
  ok s0 w0 → (faults w0 ≤ 1)%nat → ok s w → within p w0 w →
  rewrites m rs' → indexes rs' nidx → files w !! tp = Some (fresh_header ++ log_records rs') →
  wp (on_snd (wrap "failed to prepare compaction log" (or_remove tp (os_Rename tp ready)));;
      on_snd (wrap "failed to sync prepared compaction log"
        (or_remove ready (syncParentDirectory p)));;
      replace_log p ready (p ++ compactionBackupSuffix) nidx) (outcome w0) (s, w).
Proof.
  intros tp ready Hs0 Hone Hs Hw Hcomp Hidx Htmp.
  destruct (artifacts_elem p) as (Hta & Hra & _).
  assert (tp ≠ p ∧ ready ≠ p) as [Htp Hrp] by (by split; apply artifact_ne).
  apply wp_bind, wp_or_remove, (wp_os_Rename _ _ _ (fresh_header ++ log_records rs'));
    [done|..]; cbn [fst snd].
  2:{ intros w1 Hw1. by apply (outcome_abandon tp s w0 w). }
  intros w1 Hw1. assert (within p w0 w1) as Hw1'.
  { eapply within_becomes; [done|done|]. intros q Hq.
    rewrite lookup_insert_ne, lookup_delete_ne; set_solver. }
  assert (ok s w1) as Hs1.
  { eapply rw_files; [done|]. by rewrite (proj1 Hw1), lookup_insert_ne, lookup_delete_ne. }
  apply wp_bind, wp_or_remove, wp_sys_const; cbn [fst snd].
  2:{ intros w2 Hw2. by apply (outcome_abandon ready s w0 w1). }
  intros w2 Hw2. apply (wp_replace_log rs' nidx s w0); try done.
  - eapply rw_files; [exact Hs1|]. by rewrite (rw_file _ _ Hs1), (rw_file _ _ Hs0).
  - exists (s_log s). by destruct s.
  - eapply rw_files; [exact Hs1|]. by rewrite (proj1 Hw2).
  - by eapply within_becomes.
  - by rewrite (proj1 Hw2), (proj1 Hw1), lookup_insert_eq.
Qed.

Lemma wp_compact_body s w :
  ok s w → (faults w ≤ 1)%nat →
  wp compact_body (outcome w) (s, w).
Proof.
  intros Hs Hone. destruct (artifacts_elem p) as (Hta & Hra & Hba & _).
  unfold compact_body. apply wp_the_store. cbn [fst].
  rewrite (proj1 (rw_log _ _ Hs)). set (tp := p ++ compactionTempSuffix) in *.
  apply (wp_drop_artifact _ s w); [done|done|done| |intros; by apply outcome_fail].
  intros w1 Hw1 Hs1.
  apply (wp_drop_artifact _ s w); [done|done|done| |intros; by apply outcome_fail].
  intros w2 Hw2 Hs2.
  apply (wp_drop_artifact _ s w); [done|done|done| |intros; by apply outcome_fail].
  intros w3 Hw3 Hs3.
  apply wp_bind. eapply wp_mono; [by apply (wp_write_compacted s w3 tp)|].
  intros [[nidx nl]|e| |] [s4 w4] [Hon4 Hr]; cbn [fst snd] in *; try done;
    destruct (artifact_step tp s w w3 w4) as [Hw4 Hs4']; try done.
  - destruct Hr as (Hs4 & rs' & Hcomp & Hidx & Htmp).
    by apply (wp_install_compacted rs' nidx s s4 w w4).
  - destruct Hr as [Hl Hs4]. apply outcome_fail; [done| |done]. destruct Hw3. lia.
  - split; [done|]. destruct Hw3. split; [simpl; lia|].
    left. apply survivor_main. by eapply rw_file.
Qed.

(** The guards and the compare-and-swap let an idle, writable store through. *)
Lemma compact_enter_ok s w :
  closed s = false → readOnlyReason s = None → compacting s = false →
  compact_enter (s, w) = (Ok tt, (set_compacting true s, w)).
Proof using Type.
  intros Hcl Hro Hco. unfold compact_enter, check_open, check_writable, mbind, M_bind. simpl.
  rewrite Hcl. simpl. rewrite Hro. simpl. by rewrite ?Hco.
Qed.

Lemma wp_entered s w {A} (f : M SS A) Q :
  closed s = false → readOnlyReason s = None → compacting s = false →
  wp (compact_enter;; f) Q (s, w) ↔ wp f Q (set_compacting true s, w).
Proof using Type.
  intros Hcl Hro Hco. unfold wp, mbind, M_bind. by rewrite compact_enter_ok.
Qed.

Lemma wp_Compact_rewrites s w :
  ok s w → closed s = false → compacting s = false → (faults w ≤ 1)%nat →
  wp Compact (outcome w) (s, w).
Proof.
  intros Hs Hcl Hco Hone. unfold Compact. rewrite wp_entered; [|done|by eapply rw_writable|done].
  pose proof (wp_compact_body (set_compacting true s) w
    (rw_set_compacting _ _ true Hs) Hone) as Hbody.
  unfold wp, deferred, compact_leave in *.
  destruct (compact_body (set_compacting true s, w)) as [[[]|e| |] [s' w']];
    destruct Hbody as [Hw Hr]; try done; cbn [fst snd modify_store] in *; (split; [done|]).
  - destruct Hr as (rs' & Hc & Hok). exists rs'. split; [done|]. by apply store_ok_compacting.
  - destruct Hr as [Hd Hok]. split; [done|]. intros Hj.
    destruct (Hok Hj) as [Hok'|(rs' & Hc & Hok')].
    + left. by apply rw_set_compacting.
    + right. exists rs'. split; [done|]. by apply store_ok_compacting.
Qed.
End rewriting.

(** ** Compacting a log of the current format *)

(** The records [rs'] are what compaction makes of [rs]. *)
Definition compacted (rs rs' : list raw) : Prop := rewrites (live rs) rs'.

(** The store works on the old log or on the compacted one. *)
Definition serves (p : bytes) (rs : list raw) (s : Store) (w : world) : Prop :=
  store_ok p 0 rs [] s w ∨ ∃ rs', compacted rs rs' ∧ store_ok p 0 rs' [] s w.

(** Recovery would take the old log or the compacted one. *)
Definition survives (p : bytes) (rs : list raw) (junk : bytes) (w : world) : Prop :=
  survivor p (files w) = Some ((fresh_header ++ log_records rs) ++ junk) ∨
  ∃ rs', compacted rs rs' ∧ survivor p (files w) = Some (fresh_header ++ log_records rs').

Definition compacts (p : bytes) (rs : list raw) (junk : bytes) (w : world)
    (r : res unit) (s' : SS) : Prop :=
  within p w s'.2 ∧
  match r with
  | Ok _ => ∃ rs', compacted rs rs' ∧ store_ok p 0 rs' [] s'.1 s'.2
  | Err _ => failed w s'.2 ∧ (junk = [] → serves p rs s'.1 s'.2)
  | Crash => failed w s'.2 ∧ survives p rs junk s'.2
  | Panic => False
  end.

Section current.
Context `{!MapRange}.

#[export] Instance rewritable_store p rs junk :
  Rewritable p ((fresh_header ++ log_records rs) ++ junk) logVersion (live rs) (junk = [])
    (store_ok p 0 rs junk).
Proof.
  split.
  - intros s w Hs. split; apply Hs.
  - intros s w Hs. apply (so_log _ _ _ _ _ _ Hs).
  - intros s w w' Hs. by apply store_ok_files.
  - intros s w Hs. split; [apply Hs|]. by eapply index_agrees_dom, Hs.
  - intros s w idx. apply store_ok_index.
  - intros s w b. apply store_ok_compacting.
  - intros s w. apply so_writable.
  - intros s w k rec Hs (Hin & Hk & _)%live_key. split; [done|].
    by eapply Forall_forall, Hin; apply Hs.
  - intros s w k e rec Hs He Hr.
    destruct (index_agrees_lookup _ _ _ k (so_agrees _ _ _ _ _ _ Hs))
      as [[? _]|(e' & r & He' & Hr' & (_ & _ & a & z & _ & -> & _))]; [congruence|].
    by assert (r = rec ∧ e = entry_at (len a) r) as [-> ->] by (split; congruence).
  - intros s w k e rec Q Hs He Hr.
    destruct (index_agrees_lookup _ _ _ k (so_agrees _ _ _ _ _ _ Hs))
      as [[? _]|(e' & r & He' & Hr' & (_ & Hst & a & z & Hpre & -> & _))]; [congruence|].
    assert (r = rec ∧ e = entry_at (len a) r) as [-> ->] by (split; congruence).
    by apply (wp_read_entry p 0 rs junk s w a z).
  - exists 0, 0, (log_records rs ++ junk). by rewrite app_assoc.
  - intros s w l w' -> [] Hlog Hv Hi Hr. rewrite app_nil_r in Hlog. by split.
Qed.

Lemma outcome_compacts p rs junk w r st :
  outcome (p:=p) (old:=(fresh_header ++ log_records rs) ++ junk) (m:=live rs) (intact:=(junk = []))
    (ok:=store_ok p 0 rs junk) w r st →
  compacts p rs junk w r st.
Proof.
  destruct r as [[]|e| |], st as [s' w']; intros [Hw Hr]; (split; [done|]);
    cbn [fst snd] in *; try done.
  destruct Hr as [Hl Hr]. split; [done|]. intros Hj. specialize (Hr Hj). by rewrite Hj in Hr.
Qed.

Lemma wp_Compact p rs junk s w :
  store_ok p 0 rs junk s w → closed s = false → compacting s = false → (faults w ≤ 1)%nat →
  wp Compact (compacts p rs junk w) (s, w).
Proof.
  intros Hs Hcl Hco Hone.
  eapply wp_mono; [by apply (wp_Compact_rewrites (ok:=store_ok p 0 rs junk))|].
  intros r st. apply outcome_compacts.
Qed.

(** The part of [Compact] under the mutex. *)
Lemma wp_compact_locked p rs junk s w :
  store_ok p 0 rs junk s w → (faults w ≤ 1)%nat →
  wp compact_body (compacts p rs junk w) (s, w).
Proof.
  intros Hs Hone.
  eapply wp_mono; [by apply (wp_compact_body (ok:=store_ok p 0 rs junk))|].
  intros r st. apply outcome_compacts.
Qed.
End current.
