(* ===== verification/Lock.v ===== *)
(** * The process lock

    lock.go and lock_unix.go: an advisory lock on [path + ".lock"], taken for
    the lifetime of a store.  The locks held by all processes are a set of
    paths; flock refuses a file another open file holds. *)

From S2P Require Import Prelude Go Reader FileSystem Log.
#[local] Open Scope Z_scope.

Definition lockFileSuffix : bytes := str ".lock".

(** The operating system as [Open], [Close] and [Downgrade] see it. *)
Abbreviation OS := (gset bytes * world)%type.

(** The lock file a [*fileLock] holds; [None] once it is released. *)
Definition fileLock : Type := option bytes.

Definition tryLockFile (file : bytes) : M OS unit := λ s,
  match sys_atomic (λ w, (Ok tt, w)) s.2 with
  | (Ok _, w) =>
      if bool_decide (file ∈ s.1) then (Err (Sentinel ErrContended), (s.1, w))
      else (Ok tt, ({[file]} ∪ s.1, w))
  | (r, w) => (r, (s.1, w))
  end.

Definition unlockFile (file : bytes) : M OS unit := λ s,
  match sys_atomic (λ w, (Ok tt, w)) s.2 with
  | (Ok _, w) => (Ok tt, (s.1 ∖ {[file]}, w))
  | (r, w) => (r, (s.1, w))
  end.

Definition isLockContended (err : error) : bool := errors_Is err ErrContended.

(** The rest of lock.go, over the primitives of the platform and its record of
    the locks that are held. *)
Definition acquire_with {T} (tryLockFile : bytes → M (T * world) unit)
    (isLockContended : error → bool) (p : bytes) : M (T * world) fileLock :=
  let lockPath := p ++ lockFileSuffix in
  wrap "open store lock" (on_snd (os_OpenCreate lockPath));;
  r ← attempt (tryLockFile lockPath);
  match r with
  | inl err =>
      on_snd (ignore (f_Close lockPath));;
      if isLockContended err then throw (Errorf "locked" [Sentinel ErrStoreLocked])
      else throw (Errorf "acquire store lock" [err])
  | inr _ => mret (Some lockPath)
  end.

Definition acquireFileLock : bytes → M OS fileLock := acquire_with tryLockFile isLockContended.

(** Closing the descriptor drops the lock too ([drop]), whatever [unlockFile]
    said. *)
Definition release_with {T} (unlockFile : bytes → M (T * world) unit) (drop : bytes → T → T)
    (l : fileLock) : M (T * world) unit :=
  match l with
  | None => mret tt
  | Some file =>
      e1 ← attempt (unlockFile file);
      e2 ← attempt (on_snd (f_Close file));
      modify (λ s : T * world, (drop file s.1, s.2));;
      match errors_Join [match e1 with inl e => Some e | inr _ => None end;
                         match e2 with inl e => Some e | inr _ => None end] with
      | Some e => throw e
      | None => mret tt
      end
  end.

Definition release : fileLock → M OS unit :=
  release_with unlockFile (λ file locks, locks ∖ {[file]}).
