(* ===== verification/Windows.v ===== *)
(** * The Windows variants

    lock_windows.go, mmap_windows.go and dirsync_windows.go: the files that
    replace lock_unix.go, mmap_unix.go and dirsync_other.go in a Windows build.
    Windows keeps the locked byte ranges of each file; the two functions of
    kernel32.dll that change them are an interface with the documented
    behaviour as its laws.  Locking the first byte exclusively simulates the
    flock of Unix; a log is never mapped, which is a run the file-system model
    has already; and the parent directory is not synced. *)

From S2P Require Import Prelude Go Reader FileSystem Log LogSpec Lock.
#[local] Open Scope Z_scope.

Definition lockfileFailImmediately : Z := 0x00000001.
Definition lockfileExclusiveLock : Z := 0x00000002.
Definition errorLockViolation : sentinel := ErrOS 33.

(** ** The interface of kernel32.dll *)

(** The byte ranges locked in each file: first byte and length. *)
Abbreviation range := (Z * Z)%type.
Abbreviation ranges := (gmap bytes (list range)).
Definition ranges_of (t : ranges) (file : bytes) : list range := default [] (t !! file).

Definition overlaps (a b : range) : bool := (a.1 <? b.1 + b.2) && (b.1 <? a.1 + a.2).
Definition conflicts (t : ranges) (file : bytes) (a : range) : bool :=
  existsb (overlaps a) (ranges_of t file).

Definition wide (low high : Z) : Z := high * 2 ^ 32 + low.
Definition errorNotLocked : sentinel := ErrOS 158.

(** [LockFileEx] and [UnlockFileEx] through [LazyProc.Call]: the file, the
    flags, the reserved word, the two halves of the length, and the two halves
    of the offset in the [Overlapped].  A call that fails returns zero and the
    error of the thread. *)
Class Kernel32 := {
  LockFileEx : bytes → Z → Z → Z → Z → Z * Z → M (ranges * world) (Z * error);
  UnlockFileEx : bytes → Z → Z → Z → Z * Z → M (ranges * world) (Z * error);
  (** An exclusive lock may not overlap a locked range; with
      [LOCKFILE_FAIL_IMMEDIATELY] the call does not wait. *)
  LockFileEx_conflict file flags low high off t w w' :
    sys_atomic (λ w, (Ok tt, w)) w = (Ok tt, w') →
    Z.testbit flags 0 = true → Z.testbit flags 1 = true →
    conflicts t file (wide off.1 off.2, wide low high) = true →
    LockFileEx file flags 0 low high off (t, w) = (Ok (0, Sentinel errorLockViolation), (t, w'));
  LockFileEx_grants file flags low high off t w w' :
    sys_atomic (λ w, (Ok tt, w)) w = (Ok tt, w') →
    Z.testbit flags 1 = true →
    conflicts t file (wide off.1 off.2, wide low high) = false →
    ∃ result err, result ≠ 0 ∧
      LockFileEx file flags 0 low high off (t, w) =
      (Ok (result, err),
       (<[file := (wide off.1 off.2, wide low high) :: ranges_of t file]> t, w'));
  (** The range to unlock must be one that was locked. *)
  UnlockFileEx_locked file low high off t w w' before after :
    sys_atomic (λ w, (Ok tt, w)) w = (Ok tt, w') →
    ranges_of t file = before ++ (wide off.1 off.2, wide low high) :: after →
    (wide off.1 off.2, wide low high) ∉ before →
    ∃ result err, result ≠ 0 ∧
      UnlockFileEx file 0 low high off (t, w) =
      (Ok (result, err), (<[file := before ++ after]> t, w'));
  UnlockFileEx_not_locked file low high off t w w' :
    sys_atomic (λ w, (Ok tt, w)) w = (Ok tt, w') →
    (wide off.1 off.2, wide low high) ∉ ranges_of t file →
    UnlockFileEx file 0 low high off (t, w) = (Ok (0, Sentinel errorNotLocked), (t, w'));
  (** The system fails the call, or the process dies in it. *)
  LockFileEx_fails file flags low high off t w e w' :
    sys_atomic (λ w, (Ok tt, w)) w = (Err e, w') →
    LockFileEx file flags 0 low high off (t, w) = (Ok (0, e), (t, w'));
  UnlockFileEx_fails file low high off t w e w' :
    sys_atomic (λ w, (Ok tt, w)) w = (Err e, w') →
    UnlockFileEx file 0 low high off (t, w) = (Ok (0, e), (t, w'));
  LockFileEx_dies file flags low high off t w w' :
    sys_atomic (λ w, (Ok tt, w)) w = (Crash, w') →
    LockFileEx file flags 0 low high off (t, w) = (Crash, (t, w'));
  UnlockFileEx_dies file low high off t w w' :
    sys_atomic (λ w, (Ok tt, w)) w = (Crash, w') →
    UnlockFileEx file 0 low high off (t, w) = (Crash, (t, w'));
}.

Section windows.
Context `{!Kernel32}.

(** ** lock_windows.go *)

Definition tryLockFile (file : bytes) : M (ranges * world) unit :=
  '(result, callErr) ← LockFileEx file
     (Z.lor lockfileExclusiveLock lockfileFailImmediately) 0 1 0 (0, 0);
  if result =? 0 then throw callErr else mret tt.

Definition unlockFile (file : bytes) : M (ranges * world) unit :=
  '(result, callErr) ← UnlockFileEx file 0 1 0 (0, 0);
  if result =? 0 then throw callErr else mret tt.

Definition isLockContended (err : error) : bool := errors_Is err errorLockViolation.

(** Closing the handle gives up its locks. *)
Definition acquireFileLock : bytes → M (ranges * world) fileLock :=
  acquire_with tryLockFile isLockContended.
Definition release : fileLock → M (ranges * world) unit :=
  release_with unlockFile (λ file (t : ranges), delete file t).

(** ** mmap_windows.go and dirsync_windows.go *)

Definition mmapFile (p : bytes) (length : Z) : M world unit := throw (Sentinel ErrUnsupported).
Definition remap : M LS unit := remap_with mmapFile.
Definition syncParentDirectory (path : bytes) : M world unit := mret tt.

(** ** The two builds compared *)

(** How [sys_atomic] can answer. *)
Lemma sys_cases (w : world) :
  ∃ w', sys_atomic (λ w, (Ok tt, w)) w = (Ok tt, w') ∨
        sys_atomic (λ w, (Ok tt, w)) w = (Err EIO, w') ∨
        sys_atomic (λ w, (Ok tt, w)) w = (Crash, w').
Proof. unfold sys_atomic, sys. destruct w as [fs [|[|n|n] s]]; simpl; eauto. Qed.

(** The first byte of a file is locked where flock holds the file, and nothing
    else is. *)
Definition same_locks (t : ranges) (locks : gset bytes) : Prop :=
  ∀ file, ranges_of t file = if decide (file ∈ locks) then [(0, 1)] else [].

Lemma same_none : same_locks ∅ ∅.
Proof. intros file. unfold ranges_of. by rewrite lookup_empty. Qed.

Lemma same_taken (t : ranges) (locks : gset bytes) (file : bytes) :
  same_locks t locks → file ∉ locks →
  same_locks (<[file := (0, 1) :: ranges_of t file]> t) ({[file]} ∪ locks).
Proof.
  intros Hsame Hfree f. pose proof (Hsame file) as Hf. rewrite decide_False in Hf by done.
  rewrite Hf. specialize (Hsame f). unfold ranges_of in *. destruct (decide (f = file)) as [->|Hne].
  - rewrite lookup_insert_eq. by rewrite decide_True by set_solver.
  - rewrite lookup_insert_ne by done. rewrite Hsame. by apply decide_ext; set_solver.
Qed.

Lemma same_given_back (t : ranges) (locks : gset bytes) (file : bytes) :
  same_locks t locks → same_locks (<[file := []]> t) (locks ∖ {[file]}).
Proof.
  intros Hsame f. specialize (Hsame f). unfold ranges_of in *. destruct (decide (f = file)) as [->|Hne].
  - rewrite lookup_insert_eq. by rewrite decide_False by set_solver.
  - rewrite lookup_insert_ne by done. rewrite Hsame. by apply decide_ext; set_solver.
Qed.

Lemma same_dropped (t : ranges) (locks : gset bytes) (file : bytes) :
  same_locks t locks → same_locks (delete file t) (locks ∖ {[file]}).
Proof.
  intros Hsame f. specialize (Hsame f). unfold ranges_of in *. destruct (decide (f = file)) as [->|Hne].
  - rewrite lookup_delete_eq. by rewrite decide_False by set_solver.
  - rewrite lookup_delete_ne by done. rewrite Hsame. by apply decide_ext; set_solver.
Qed.

(** The outcome of a call in both builds; [f] translates the result. *)
Definition simulates {A} (f : res A → res A) (x : res A * (ranges * world))
    (y : res A * OS) : Prop :=
  x.1 = f y.1 ∧ x.2.2 = y.2.2 ∧ same_locks x.2.1 y.2.1.

(** A refusal is [ErrStoreLocked] for both: only the error code differs. *)
Definition as_windows (r : res unit) : res unit :=
  match r with
  | Err (Sentinel ErrContended) => Err (Sentinel errorLockViolation)
  | _ => r
  end.

Lemma tryLockFile_flock file t locks w :
  same_locks t locks →
  simulates as_windows (tryLockFile file (t, w)) (Lock.tryLockFile file (locks, w)).
Proof using Type.
  intros Hsame. unfold tryLockFile, Lock.tryLockFile, mbind, M_bind. cbn [fst snd].
  destruct (sys_cases w) as [w' [Hw|[Hw|Hw]]]; rewrite Hw.
  - pose proof (Hsame file) as Hf. case_bool_decide as Hin.
    + rewrite decide_True in Hf by done. rewrite (LockFileEx_conflict _ _ _ _ _ _ _ _ Hw); [|done..|].
      { by split_and!. }
      unfold conflicts. by rewrite Hf.
    + rewrite decide_False in Hf by done.
      destruct (LockFileEx_grants file 3 1 0 (0, 0) t w w' Hw) as (result & err & Hr & Hrun);
        [done|unfold conflicts; by rewrite Hf|].
      change (Z.lor _ _) with 3. rewrite Hrun. cbn [fst snd]. rewrite (proj2 (Z.eqb_neq _ _) Hr).
      split_and!; [done|done|]. by apply same_taken.
  - by rewrite (LockFileEx_fails _ _ _ _ _ _ _ _ _ Hw).
  - by rewrite (LockFileEx_dies _ _ _ _ _ _ _ _ Hw).
Qed.

Lemma unlockFile_flock file t locks w :
  same_locks t locks → file ∈ locks →
  simulates id (unlockFile file (t, w)) (Lock.unlockFile file (locks, w)).
Proof using Type.
  intros Hsame Hin. unfold unlockFile, Lock.unlockFile, mbind, M_bind. cbn [fst snd].
  destruct (sys_cases w) as [w' [Hw|[Hw|Hw]]]; rewrite Hw.
  - pose proof (Hsame file) as Hf. rewrite decide_True in Hf by done.
    destruct (UnlockFileEx_locked file 1 0 (0, 0) t w w' [] [] Hw Hf) as (result & err & Hr & ->);
      [apply not_elem_of_nil|].
    cbn [fst snd]. rewrite (proj2 (Z.eqb_neq _ _) Hr). split_and!; [done|done|].
    by apply same_given_back.
  - by rewrite (UnlockFileEx_fails _ _ _ _ _ _ _ _ Hw).
  - by rewrite (UnlockFileEx_dies _ _ _ _ _ _ _ Hw).
Qed.

Lemma tryLockFile_errors file s e s' :
  Lock.tryLockFile file s = (Err e, s') → e = EIO ∨ e = Sentinel ErrContended.
Proof using Type.
  destruct s as [locks w]. unfold Lock.tryLockFile. cbn [fst snd].
  destruct (sys_cases w) as [w' [Hw|[Hw|Hw]]]; rewrite Hw; [case_bool_decide|..]; naive_solver.
Qed.

(** File operations do not look at the locks. *)
Lemma on_snd_run {T A} (m : M world A) (t : T) (w : world) :
  on_snd m (t, w) = ((m w).1, (t, (m w).2)).
Proof. unfold on_snd, zoom. simpl. by destruct (m w). Qed.

Lemma acquireFileLock_flock p t locks w :
  same_locks t locks →
  simulates id (acquireFileLock p (t, w)) (Lock.acquireFileLock p (locks, w)).
Proof using Type.
  intros Hsame. unfold acquireFileLock, Lock.acquireFileLock, acquire_with, mbind, M_bind, wrap.
  rewrite !on_snd_run. destruct (os_OpenCreate _ w) as [[[]|e| |] w1]; cbn [fst snd]; try done.
  pose proof (tryLockFile_flock (p ++ lockFileSuffix) t locks w1 Hsame) as (Hr & Hw & Hs).
  unfold attempt. destruct (tryLockFile _ (t, w1)) as [r2 [t2 w2]].
  destruct (Lock.tryLockFile _ (locks, w1)) as [r3 [locks3 w3]] eqn:Ht. cbn [fst snd] in *. subst r2 w2.
  destruct r3 as [[]|e| |]; [done| |done..].
  apply tryLockFile_errors in Ht as [-> | ->];
    [change (as_windows (Err EIO)) with (Err (A:=unit) EIO)|
     change (as_windows _) with (Err (A:=unit) (Sentinel errorLockViolation))];
    cbv beta iota; rewrite !on_snd_run; by destruct (ignore _ w3) as [[] w4].
Qed.

Lemma release_flock f t locks w :
  same_locks t locks → f ∈ locks →
  simulates id (release (Some f) (t, w)) (Lock.release (Some f) (locks, w)).
Proof using Type.
  intros Hsame Hin. unfold release, Lock.release, release_with, mbind, M_bind, attempt.
  pose proof (unlockFile_flock f t locks w Hsame Hin) as (Hr & Hw & Hs).
  destruct (unlockFile f (t, w)) as [r2 [t2 w2]].
  destruct (Lock.unlockFile f (locks, w)) as [r3 [locks3 w3]]. cbn [fst snd id] in *. subst r2 w2.
  destruct r3 as [[]|e| |]; try done; rewrite !on_snd_run;
    destruct (f_Close f w3) as [[[]|e'| |] w4]; cbn [fst snd modify]; try done;
    destruct (errors_Join _); cbn; split_and!; try done; by apply same_dropped.
Qed.

(** [remap] of a Windows build is [remap] in a run in which mapping fails. *)
Lemma remap_unmapped l w :
  ∃ w', files w' = files w ∧ (w' = w ∨ sched w' = FailIO 0 :: sched w) ∧
    remap (l, w) = Log.remap (l, w').
Proof using Type.
  unfold remap, Log.remap, remap_with, the_log, modify_log, attempt, on_file, mbind, M_bind.
  cbn [fst snd]. destruct (mapDisabled l); [by exists w; eauto|].
  case_match; [by exists w; eauto|]. cbn [fst snd].
  destruct (file_open _); [|by exists w; eauto].
  exists (World (files w) (FailIO 0 :: sched w)). split; [done|]. split; [by right|].
  by destruct w.
Qed.

(** A log that is not mapped stays so, and a point read goes to the file. *)
Lemma remap_never_maps l w r l' w' :
  mapped l = None → remap (l, w) = (r, (l', w')) → mapped l' = None ∧ w' = w.
Proof using Type.
  unfold remap, remap_with, the_log, modify_log, attempt, on_file, mbind, M_bind.
  cbn [fst snd]. intros Hm. destruct (mapDisabled l); [by intros [= <- <- <-]|].
  case_match; cbn [fst snd]; [by intros [= <- <- <-]|].
  by destruct (file_open _); intros [= <- <- <-].
Qed.

(** C38. A Windows build locks as a Unix build does, given the documented
    LockFileEx and UnlockFileEx on byte ranges.  From locks that agree (the
    first byte of a file is locked where flock holds the file, and nothing else
    is), [acquireFileLock], and [release] of a lock that is held, give the same
    results in the same runs, failures and crashes included, and leave locks
    that agree; a held lock is reported as [ErrStoreLocked] by both.  [remap]
    is [remap] in a run in which the mapping fails, and never maps a log that
    is not mapped, so that every point read goes to the file. *)
Theorem windows_build_agrees :
  same_locks ∅ ∅ ∧
  (∀ (p : bytes) (t : ranges) (locks : gset bytes) (w : world), same_locks t locks →
   let x := acquireFileLock p (t, w) in
   let y := Lock.acquireFileLock p (locks, w) in
   x.1 = y.1 ∧ x.2.2 = y.2.2 ∧ same_locks x.2.1 y.2.1) ∧
  (∀ (f : bytes) (t : ranges) (locks : gset bytes) (w : world), same_locks t locks → f ∈ locks →
   let x := release (Some f) (t, w) in
   let y := Lock.release (Some f) (locks, w) in
   x.1 = y.1 ∧ x.2.2 = y.2.2 ∧ same_locks x.2.1 y.2.1) ∧
  (∀ l w, ∃ w', files w' = files w ∧ (w' = w ∨ sched w' = FailIO 0 :: sched w) ∧
     remap (l, w) = Log.remap (l, w')) ∧
  (∀ l w off size, mapped l = None →
     mappedRecord off size (remap (l, w)).2 = (Ok None, (remap (l, w)).2)).
Proof using Type.
  split; [exact same_none|]. split; [exact acquireFileLock_flock|].
  split; [exact release_flock|]. split; [exact remap_unmapped|]. intros l w off size Hm.
  destruct (remap (l, w)) as [r [l' w']] eqn:Hr.
  apply remap_never_maps in Hr as [Hm' ->]; [|done]. unfold mappedRecord. simpl. by rewrite Hm'.
Qed.
End windows.

(** ** A kernel that behaves as documented *)

Definition kernel_call (ok : ranges → (Z * error) * ranges) : M (ranges * world) (Z * error) :=
  λ s,
  match sys_atomic (λ w, (Ok tt, w)) s.2 with
  | (Ok _, w) => (Ok (ok s.1).1, ((ok s.1).2, w))
  | (Err e, w) => (Ok (0, e), (s.1, w))
  | (Panic, w) => (Panic, (s.1, w))
  | (Crash, w) => (Crash, (s.1, w))
  end.

(** The list without the first occurrence of [a]. *)
Fixpoint remove_range (a : range) (l : list range) : list range :=
  match l with
  | [] => []
  | b :: l => if decide (a = b) then l else b :: remove_range a l
  end.

Lemma remove_range_first a before after :
  a ∉ before → remove_range a (before ++ a :: after) = before ++ after.
Proof.
  induction before as [|b before IH]; simpl; intros Ha; [by rewrite decide_True|].
  rewrite decide_False by set_solver. rewrite IH by set_solver. done.
Qed.

Definition no_error : error := Sentinel (ErrOS 0).

#[local] Program Instance kernel32 : Kernel32 := {|
  LockFileEx file _ _ low high off := kernel_call (λ t,
    let a := (wide off.1 off.2, wide low high) in
    if conflicts t file a then ((0, Sentinel errorLockViolation), t)
    else ((1, no_error), <[file := a :: ranges_of t file]> t));
  UnlockFileEx file _ low high off := kernel_call (λ t,
    let a := (wide off.1 off.2, wide low high) in
    if decide (a ∈ ranges_of t file)
    then ((1, no_error), <[file := remove_range a (ranges_of t file)]> t)
    else ((0, Sentinel errorNotLocked), t)) |}.
Next Obligation.
  intros file flags low high off t w w' Hw _ _ Hc. unfold kernel_call. simpl. by rewrite Hw, Hc.
Qed.
Next Obligation.
  intros file flags low high off t w w' Hw _ Hc. unfold kernel_call. simpl. rewrite Hw, Hc.
  by exists 1, no_error.
Qed.
Next Obligation.
  intros file low high off t w w' before after Hw Hl Hb. unfold kernel_call. simpl.
  rewrite Hw, Hl, remove_range_first by done. exists 1, no_error. split; [lia|].
  case_decide as Hin; [done|]. destruct Hin. set_solver.
Qed.
Next Obligation.
  intros file low high off t w w' Hw Hn. unfold kernel_call. simpl. by rewrite Hw, decide_False.
Qed.
Next Obligation. intros file flags low high off t w e w' Hw. unfold kernel_call. simpl. by rewrite Hw. Qed.
Next Obligation. intros file low high off t w e w' Hw. unfold kernel_call. simpl. by rewrite Hw. Qed.
Next Obligation. intros file flags low high off t w w' Hw. unfold kernel_call. simpl. by rewrite Hw. Qed.
Next Obligation. intros file low high off t w w' Hw. unfold kernel_call. simpl. by rewrite Hw. Qed.

(** A store takes the lock, a second one is refused, and the first gives it
    back. *)
Lemma windows_build_agrees_witness :
  let s1 := (acquireFileLock (str "db") (∅, World ∅ [])).2 in
  let s2 := (Lock.acquireFileLock (str "db") (∅, World ∅ [])).2 in
  (acquireFileLock (str "db") s1).1 = Err (Errorf "locked" [Sentinel ErrStoreLocked]) ∧
  (release (Some (str "db.lock")) s1).1 = Ok tt ∧
  same_locks (release (Some (str "db.lock")) s1).2.1 (Lock.release (Some (str "db.lock")) s2).2.1.
Proof.
  destruct windows_build_agrees as (Hnone & Hacq & Hrel & _). intros s1 s2.
  destruct (Hacq (str "db") ∅ ∅ (World ∅ []) Hnone) as (_ & Hw & Hsame).
  fold s1 s2 in Hw, Hsame.
  assert (s1 = (s1.1, s2.2)) as Hs1 by (rewrite <- Hw; by destruct s1).
  assert (s2 = (s2.1, s2.2)) as Hs2 by (by destruct s2).
  destruct (Hacq (str "db") s1.1 s2.1 s2.2 Hsame) as (Hr & _).
  destruct (Hrel (str "db.lock") s1.1 s2.1 s2.2 Hsame) as (Hr' & _ & Hsame');
    [by apply (bool_decide_unpack (str "db.lock" ∈ s2.1)); vm_compute|].
  rewrite <- Hs1, <- Hs2 in *. split; [rewrite Hr; vm_compute; reflexivity|].
  split; [rewrite Hr'; vm_compute; reflexivity|exact Hsame'].
Defined.
