(* ===== verification/Lifecycle.v ===== *)
(** * Opening and closing a store

    store.go: [Open] (lock, compaction recovery, log, index rebuild,
    migration) and [Close].  The background goroutines [Open] starts are
    in Background.v. *)

From S2P Require Import Prelude Go Attributes Reader Record Index Cache FileSystem Log Lock Store.
From S2P Require Import Compact.
From Stdlib Require Import Floats.SpecFloat.
#[local] Open Scope Z_scope.

(** The literals 0.2 and 1. *)
Definition float64_point2 : float64 := float64_div (float64_of_int 1) (float64_of_int 5).

(** [Open]'s defaults; [None] for a threshold above 1. *)
Definition apply_defaults (o : Options) : option Options :=
  let cacheSize := if CacheSize o <=? 0 then 1000 else CacheSize o in
  let threshold := if SFleb (CompactionThreshold o) (float64_of_int 0)
                   then float64_point2 else CompactionThreshold o in
  if float64_lt (float64_of_int 1) threshold then None
  else Some {| CacheSize := cacheSize; SyncInterval := SyncInterval o;
               CompactionThreshold := threshold; AutoCompact := AutoCompact o;
               IndexedFields := IndexedFields o; OnMigrate := OnMigrate o;
               NoMigrationBackup := NoMigrationBackup o |}.

Section lifecycle.
Context `{!MapRange}.

(** Run a method of the new store [s], which the caller goes on using. *)
Definition try_store {A} (s : Store) (m : M SS A) : M world ((error + A) * Store) := λ w,
  match attempt m (s, w) with
  | (Ok r, (s', w')) => (Ok (r, s'), w')
  | (Err e, (_, w')) => (Err e, w')
  | (Panic, (_, w')) => (Panic, w')
  | (Crash, (_, w')) => (Crash, w')
  end.

Definition initial_store (log : appendLog) (o : Options) : Store :=
  {| s_log := log;
     s_index := newIndex (IndexedFields o);
     s_cache := newLRUCache (CacheSize o);
     options := o;
     closed := false;
     compacting := false;
     readOnlyReason :=
       if unknownReadOnly log =? 0 then None
       else Some (Errorf "read-only" [Sentinel ErrReadOnly;
                    unknownFeatureError "read-only" (unknownReadOnly log)]);
     stats := no_stats |}.

(** [Open] once the lock is held: on an error [s.log] is closed. *)
Definition open_locked (p : bytes) (o : Options) : M world Store :=
  log ← wrap "failed to open append log" (openAppendLog p);
  let s := initial_store log o in
  '(r, s) ← try_store s recover;
  match r with
  | inl err =>
      ignore (with_log (s_log s) log_Close);;
      throw (Errorf "failed to recover from log" [err])
  | inr _ =>
      if version (s_log s) <? logVersion then
        '(r, s) ← try_store s (migrate p);
        match r with
        | inl err => ignore (with_log (s_log s) log_Close);; throw err
        | inr _ => mret s
        end
      else mret s
  end.

Definition Open (p : bytes) (o : Options) : M OS (Store * fileLock) :=
  if bool_decide (p = []) then throw (Errorf "path is required" []) else
  match apply_defaults o with
  | None => throw (Errorf "compaction threshold must be between 0 and 1" [])
  | Some o =>
      if existsb (λ field, bool_decide (field = [])) (IndexedFields o) then
        throw (Errorf "indexed field is empty" [Sentinel ErrInvalidAttribute])
      else
      lock ← acquireFileLock p;
      s ← on_err (on_snd (open_locked p o)) (ignore (release lock));
      mret (s, lock)
  end.

(** [Close], with the lock the store holds. *)
Definition Close (lock : fileLock) : M (Store * OS) unit := λ st,
  let '(s, (locks, w)) := st in
  if closed s then (Ok tt, st) else
  let s := set_closed true s in
  let '(r1, (s, w)) :=
    if 0 <=? SyncInterval (options s)
    then attempt (on_log log_Sync) (s, w) else (Ok (inr tt), (s, w)) in
  match r1 with
  | Ok syncErr =>
      match attempt (on_log log_Close) (s, w) with
      | (Ok closeErr, (s, w)) =>
          match attempt (release lock) (locks, w) with
          | (Ok lockErr, os) =>
              let err_of (e : error + unit) := match e with inl e => Some e | inr _ => None end in
              match errors_Join [err_of syncErr; err_of closeErr; err_of lockErr] with
              | Some e => (Err e, (s, os))
              | None => (Ok tt, (s, os))
              end
          | (r, os) => (r ≫= (λ _, Ok tt), (s, os))
          end
      | (r, (s, w)) => (r ≫= (λ _, Ok tt), (s, (locks, w)))
      end
  | r => (r ≫= (λ _, Ok tt), (s, (locks, w)))
  end.
End lifecycle.
