(* ===== verification/LifecycleSpec.v ===== *)
(** * Opening a store recovers the map

    [Open] on a disk left by a store that was closed, or that died at any
    point of an operation: the log is put in place, a torn record is dropped,
    and the index is rebuilt, so that the store holds the map its log
    describes.  Opening is itself safe: whatever fails, the records stay on
    disk and another [Open] finds them. *)

From S2P Require Import Prelude Go Crc32c Attributes Reader Record Index Cache Legacy FileSystem.
From S2P Require Import Log LogSpec Scan Opening Lock Store StoreSpec Compact CompactSpec.
From S2P Require Import Lifecycle.
#[local] Open Scope Z_scope.

(** ** What is on disk *)

(** The database at [p] holds the records [rs], and behind them a tail [tl]
    that an interrupted append left. *)
Definition on_disk (p : bytes) (ro : Z) (rs : list raw) (tl : bytes) (fs : gmap bytes bytes) : Prop :=
  survivor p fs = Some (header_bytes logVersion 0 ro ++ log_records rs ++ tl).

(** A tail that the scan takes for the beginning of a record. *)
Definition torn_tail (tl : bytes) : Prop := torn (version:=logVersion) tl.

Lemma torn_nil : torn_tail [].
Proof. by left. Qed.

Lemma torn_take r n : stored r → (n < length (raw_record r))%nat → torn_tail (take n (raw_record r)).
Proof.
  intros Hr Hn. right. apply (stops_strict_prefix (F:=fmt5) r _ (drop n (raw_record r))).
  - done.
  - by rewrite take_drop.
  - intros Hnil%(f_equal length). rewrite length_drop in Hnil. simpl in Hnil. lia.
Qed.

(** An append that was cut short: nothing of the record, part of it, or all. *)
Lemma half_written_cases rs r n :
  stored r →
  ∃ rs' tl, log_records rs ++ half_written n (raw_record r) [] = log_records rs' ++ tl ∧
    torn_tail tl ∧ (rs' = rs ∨ rs' = rs ++ [r]).
Proof.
  intros Hr. unfold half_written. rewrite drop_nil, app_nil_r.
  destruct (decide (n < length (raw_record r))%nat).
  - exists rs, (take n (raw_record r)). split; [done|]. split; [by apply torn_take|by left].
  - exists (rs ++ [r]), []. rewrite log_records_snoc, app_nil_r, take_ge by lia.
    split; [done|]. split; [apply torn_nil|by right].
Qed.

(** ** Rules *)

Section rules.
Context `{!MapRange}.

Lemma wp_try_store {A} s (m : M SS A) (Q : res ((error + A) * Store) → world → Prop) w :
  wp m (λ r s', match r with
                | Ok a => Q (Ok (inr a, s'.1)) s'.2
                | Err e => Q (Ok (inl e, s'.1)) s'.2
                | Panic => Q Panic s'.2
                | Crash => Q Crash s'.2
                end) (s, w) →
  wp (try_store s m) Q w.
Proof using Type. unfold wp, try_store, attempt. by destruct (m (s, w)) as [[] []]. Qed.

Lemma wp_recover (Q : res unit → SS → Prop) s w :
  wp (Iterate (λ record, modify (recover_record record)))
    (λ r st, Q r (set_cache st.1.2 (set_index st.1.1 (set_log st.2.1 s)), st.2.2))
    ((s_index s, s_cache s), (s_log s, w)) →
  wp recover Q (s, w).
Proof using Type.
  unfold wp, recover. simpl. by destruct (Iterate _ _) as [? [? []]].
Qed.

(** The state of a store whose log has just been scanned. *)
Lemma recovered_ok p ro rs junk o log l w :
  0 ≤ ro < 2 ^ 32 →
  Forall stored rs → version l = logVersion → incompatibleFeatures l = 0 →
  readOnlyFeatures l = ro → readOnlyFeatures log = ro →
  log_ok p (header_bytes logVersion 0 ro ++ log_records rs) junk l w →
  let ic := replay recover_record (scan_from (F:=fmt5) logHeaderSize rs)
              (newIndex (IndexedFields o), newLRUCache (CacheSize o)) in
  store_ok p ro rs junk (set_cache ic.2 (set_index ic.1 (set_log l (initial_store log o)))) w.
Proof.
  intros Hro Hst Hv Hi Hr Hrl Hlog.
  destruct (replay_agrees logVersion ltac:(done) (header_bytes logVersion 0 ro) rs
    (newIndex (IndexedFields o)) (newLRUCache (CacheSize o))) as (Hidx & Hc & Hl & _ & Ha);
    [apply length_header|done|apply newIndex_inv|apply newLRUCache_inv| |done|].
  { apply newIndex_spec. }
  cbn zeta. change (scan_from (F:=fmt5)) with (scan_from (F:=format_v5 logVersion ltac:(done))).
  set (ic := replay _ _ _) in *. split; simpl; try done.
  - intros k v Hk. rewrite Hl in Hk. done.
  - rewrite unknown_is_mask, Hrl. by destruct (Z.eqb_spec ro 0).
Qed.
End rules.

(** ** Open *)

Section open.
Context `{!MapRange}.

(** The outcome of opening a database that holds [rs] and a torn tail. *)
Definition opened (p : bytes) (ro : Z) (rs : list raw) (tl : bytes) (o : Options) (w : world)
    (r : res Store) (w' : world) : Prop :=
  within p w w' ∧
  match r with
  | Ok s => store_ok p ro rs (if ro =? 0 then [] else tl) s w' ∧
            options s = o ∧ closed s = false ∧ compacting s = false ∧
            (∀ q, q ∈ artifacts p → files w' !! q = None)
  | Err _ | Crash =>
      failed w w' ∧ (on_disk p ro rs tl (files w') ∨ on_disk p ro rs [] (files w'))
  | Panic => False
  end.

Lemma within_keeps p w w' : keeps p w w' → within p w w'.
Proof using Type. intros [? ? ?]. by split. Qed.

Lemma within_trans p w1 w2 w3 : within p w1 w2 → within p w2 w3 → within p w1 w3.
Proof using Type. intros [H1 ?] [H2 ?]. split; [|lia]. intros q Hq. by rewrite H2, H1. Qed.

Lemma opened_err p ro rs tl o w w' e :
  within p w w' → failed w w' → on_disk p ro rs tl (files w') →
  opened p ro rs tl o w (Err e) w'.
Proof using Type. intros. split; auto. Qed.
Lemma opened_crash p ro rs tl o w w' :
  within p w w' → failed w w' → on_disk p ro rs tl (files w') →
  opened p ro rs tl o w Crash w'.
Proof using Type. intros. split; auto. Qed.

(** From the scan on, with the log open and in place. *)
Lemma wp_open_scan p ro rs tl o w0 w log :
  0 ≤ ro < 2 ^ 32 → Forall stored rs → dropped (version:=logVersion) w tl → within p w0 w →
  (∀ q, q ∈ artifacts p → files w !! q = None) →
  log_ok p (header_bytes logVersion 0 ro ++ log_records rs ++ tl) [] log w →
  version log = logVersion → incompatibleFeatures log = 0 → readOnlyFeatures log = ro →
  wp ('(r, s) ← try_store (initial_store log o) recover;
      match r with
      | inl err =>
          ignore (with_log (s_log s) log_Close);;
          throw (Errorf "failed to recover from log" [err])
      | inr _ =>
          if version (s_log s) <? logVersion then
            '(r, s) ← try_store s (migrate p);
            match r with
            | inl err => ignore (with_log (s_log s) log_Close);; throw err
            | inr _ => mret s
            end
          else mret s
      end) (opened p ro rs tl o w0) w.
Proof.
  intros Hro Hst Htl Hw Hart Hlog Hv Hi Hr.
  pose proof (lo_file _ _ _ _ _ Hlog) as Hf. rewrite app_nil_r in Hf.
  apply wp_bind, wp_try_store, wp_recover. eapply wp_mono.
  { apply (wp_Iterate_dropped (F:=fmt5) recover_record p (header_bytes logVersion 0 ro) rs tl);
      [done|apply length_header|done|done|done]. }
  intros [[]|e| |] [ic [l w1]] Hsc; cbn [fst snd] in *; try done.
  - destruct Hsc as (Hic & (Hv' & Hi' & Hr' & _) & Hw1 & Hlog1).
    cbn [fst snd] in *. subst ic. cbn [s_log initial_store] in Hw1, Hlog1, Hv', Hi', Hr'.
    rewrite unknown_is_mask, Hr in Hw1, Hlog1.
    rewrite (proj2 (Z.ltb_ge (version (s_log _)) logVersion)) by (simpl; rewrite Hv', Hv; lia).
    apply wp_ret. split; [|split; [|split_and!; try done]].
    + eapply within_becomes; [done|done|]. intros q Hq. case_match; [|done].
      rewrite lookup_insert_ne; [done|]. set_solver.
    + apply recovered_ok; try done; congruence.
    + intros q Hq. rewrite (proj1 Hw1). case_match; [|by auto].
      rewrite lookup_insert_ne; [by auto|]. intros <-. by apply artifact_ne in Hq.
  - destruct Hsc as [Hw1 Hl1]. cbn [fst snd] in *. subst l. apply wp_bind, wp_close_ignored; [apply Hlog|..].
    + intros w2 Hw2. apply wp_throw.
      assert (becomes w (files w) w2) as Hw2' by (eapply fails_becomes, fails_then; done).
      apply opened_err; [by eapply within_becomes| |].
      * destruct Hw, Hw1, Hw2. lia.
      * unfold on_disk. apply survivor_main. by rewrite (proj1 Hw2').
    + intros w2 Hw2. assert (fails w (files w) w2) as Hw2'.
      { eapply fails_then; [done|by apply fails_becomes]. }
      apply opened_crash.
      * eapply within_becomes; [done|by apply fails_becomes|done].
      * destruct Hw, Hw2'. lia.
      * unfold on_disk. apply survivor_main. by rewrite (proj1 Hw2').
  - change (fails w (files w) w1) in Hsc. apply opened_crash.
    + eapply within_becomes; [done|by apply fails_becomes|done].
    + destruct Hw, Hsc. lia.
    + unfold on_disk. apply survivor_main. by rewrite (proj1 Hsc).
Qed.

Lemma dropped_later w w' tl :
  dropped (version:=logVersion) w tl → later w w' → dropped (version:=logVersion) w' tl.
Proof using Type.
  intros [Htl|[Hc Hcut]] Hl; [by left|right]. unfold clean in *. split; [lia|done].
Qed.

Lemma wp_open_locked p ro rs tl o w :
  0 ≤ ro < 2 ^ 32 → Forall stored rs → dropped (version:=logVersion) w tl →
  on_disk p ro rs tl (files w) →
  wp (open_locked p o) (opened p ro rs tl o w) w.
Proof.
  intros Hro Hst Htl Hdisk. unfold open_locked.
  apply wp_bind, wp_wrap. eapply wp_mono.
  { apply (wp_openAppendLog p logVersion 0 ro (log_records rs ++ tl)); [|done].
    split; [done|]. split; [lia|done]. }
  intros r w2 [Hk Hr2]. pose proof (within_keeps _ _ _ Hk) as Hin.
  assert (on_disk p ro rs tl (files w2)) as Hdisk2
    by (unfold on_disk; by rewrite (keeps_survivor _ _ _ Hk)).
  destruct r as [log|e| |]; try done.
  - destruct Hr2 as (Hlog & Hv & Hm & _ & Hart). unfold header_masks in Hm. simpl in Hm.
    injection Hm as Hi Hrl. apply wp_open_scan; try done. by eapply dropped_later, Hin.
  - destruct Hr2 as [Hl|[Hm _]]; [|done]. by apply opened_err.
  - by apply opened_crash.
Qed.

(** A database that does not exist yet: an empty one is created. *)
Definition opened_new (p : bytes) (o : Options) (w : world) (r : res Store) (w' : world) : Prop :=
  later w w' ∧
  match r with
  | Ok s => store_ok p 0 [] [] s w' ∧ options s = o ∧ closed s = false ∧ compacting s = false
  | Err _ | Crash => failed w w'
  | Panic => False
  end.

Lemma wp_open_locked_new p o w :
  survivor p (files w) = None → wp (open_locked p o) (opened_new p o w) w.
Proof.
  intros Hnone. unfold open_locked, openAppendLog.
  apply wp_bind, wp_wrap, wp_bind. eapply wp_mono; [apply wp_recoverCompactionArtifacts|].
  intros [[]|e| |] w1 [[_ _ Hl1] Hr]; try done.
  destruct Hr as [Hmain Hart]. rewrite Hnone in Hmain.
  eapply wp_mono; [apply wp_openAppendLogFile_new; by left|].
  intros [log|e| |] w2 (Ho2 & Hl2 & Hr2); try done; [|split; [|destruct Hr2]; lia..].
  destruct Hr2 as (Hlog & Hv & Hi & Hrl).
  assert (∀ q, q ∈ artifacts p → files w2 !! q = None) as Hart2.
  { intros q Hq. rewrite Ho2; [auto|by apply artifact_ne]. }
  eapply wp_mono; [apply (wp_open_scan p 0 [] [] o w2 w2)|]; try done.
  - left. apply torn_nil.
  - intros r w3 [[_ Hl3] Hr3]. split; [lia|]. destruct r; [|lia|done|lia]. naive_solver.
Qed.
End open.

(** ** The lock *)

Section lock.
Lemma wp_tryLockFile (f : bytes) (locks : gset bytes) (w : world) (Q : res unit → OS → Prop) :
  (∀ w', becomes w (files w) w' →
    if bool_decide (f ∈ locks) then Q (Err (Sentinel ErrContended)) (locks, w')
    else Q (Ok tt) ({[f]} ∪ locks, w')) →
  (∀ w', fails w (files w) w' → Q (Err EIO) (locks, w') ∧ Q Crash (locks, w')) →
  wp (tryLockFile f) Q (locks, w).
Proof.
  intros HOk HFail.
  assert (wp (sys_atomic (λ w, (Ok tt, w))) (λ r w', match r with
    | Ok _ => if bool_decide (f ∈ locks) then Q (Err (Sentinel ErrContended)) (locks, w')
              else Q (Ok tt) ({[f]} ∪ locks, w')
    | r => Q r (locks, w')
    end) w) as Hw by (by apply wp_sys_const).
  unfold wp, tryLockFile in *. simpl.
  destruct (sys_atomic _ w) as [[] w']; simpl in *; try done. by case_bool_decide.
Qed.

(** Everything but the lock file is as before. *)
Definition locking (p : bytes) (w w' : world) : Prop := only (p ++ lockFileSuffix) w w'.

(** At most one store holds the lock. *)
Lemma wp_acquireFileLock (p : bytes) (locks : gset bytes) (w : world) (Q : res fileLock → OS → Prop) :
  let f := p ++ lockFileSuffix in
  (f ∉ locks → ∀ w', locking p w w' → Q (Ok (Some f)) ({[f]} ∪ locks, w')) →
  (f ∈ locks → ∀ w', locking p w w' →
    Q (Err (Errorf "locked" [Sentinel ErrStoreLocked])) (locks, w')) →
  (∀ e w', locking p w w' → failed w w' → Q (Err e) (locks, w') ∧ Q Crash (locks, w')) →
  wp (acquireFileLock p) Q (locks, w).
Proof.
  intros f HOk HHeld HFail. unfold acquireFileLock, acquire_with. fold f.
  apply wp_bind, wp_wrap, wp_zoom, wp_sys_atomic; cbn [fst snd].
  2:{ intros w' Hw. pose proof (only_becomes f _ _ (fails_becomes _ _ _ Hw)) as Hon.
      destruct Hw as [_ Hl]. split; [by apply HFail|by apply (HFail EIO)]. }
  intros w1 [Hf1 Hl1]. unfold wp at 1.
  set (w2 := match files w1 !! f with Some _ => w1 | None => set_file f [] w1 end).
  assert (locking p w w2) as Hon2.
  { unfold w2. split; [|by case_match]. intros q Hq.
    destruct (files w1 !! f); simpl; rewrite ?Hf1; [done|]. by rewrite lookup_insert_ne. }
  replace (match files w1 !! f with Some _ => (Ok tt, w1) | None => (Ok tt, set_file f [] w1) end)
    with (@Ok unit tt, w2) by (unfold w2; by case_match).
  cbn [fst snd]. apply wp_bind, wp_attempt, wp_tryLockFile.
  2:{ intros w3 Hw3. pose proof (only_trans _ _ _ _ Hon2 (only_becomes f _ _
        (fails_becomes _ _ _ Hw3))) as Hon3. destruct Hw3 as [_ Hl3]. pose proof (proj2 Hon2) as Hl2.
      split; [|by apply (HFail EIO); [|lia]].
      apply wp_bind, wp_zoom, wp_ignore, wp_sys_const; cbn [fst snd].
      - intros w4 Hw4. apply wp_throw, HFail; [eapply only_trans; [done|by apply only_becomes]|].
        destruct Hw4. lia.
      - intros w4 Hw4. pose proof (only_trans _ _ _ _ Hon3 (only_becomes f _ _
          (fails_becomes _ _ _ Hw4))) as Hon4. destruct Hw4 as [_ Hl4].
        split; [apply wp_throw, HFail|apply (HFail EIO)]; try done; lia. }
  intros w3 Hw3. pose proof (only_trans _ _ _ _ Hon2 (only_becomes f _ _ Hw3)) as Hon3.
  case_bool_decide as Hin; [|by apply wp_ret, HOk].
  apply wp_bind, wp_zoom, wp_ignore, wp_sys_const; cbn [fst snd].
  - intros w4 Hw4. apply wp_throw, HHeld; [done|].
    eapply only_trans; [done|by apply only_becomes].
  - intros w4 Hw4. pose proof (only_trans _ _ _ _ Hon3 (only_becomes f _ _
      (fails_becomes _ _ _ Hw4))) as Hon4. destruct Hw4 as [_ Hl4]. pose proof (proj2 Hon3).
    split; [by apply wp_throw, HHeld|]. apply (HFail EIO); [done|lia].
Qed.
End lock.

(** The lock file is no part of the database. *)
Lemma lock_not_artifact p : p ++ lockFileSuffix ∉ p :: artifacts p.
Proof.
  unfold artifacts. rewrite !elem_of_cons, elem_of_nil.
  intros [Heq|[Heq|[Heq|[Heq|[Heq|[]]]]]].
  - by apply suffix_ne_nil in Heq.
  - by apply suffix_ne in Heq.
  - by apply suffix_ne in Heq.
  - by apply suffix_ne in Heq.
  - by apply suffix_ne in Heq.
Qed.

Lemma survivor_ext p fs fs' :
  (∀ q, q ∈ p :: artifacts p → fs' !! q = fs !! q) → survivor p fs' = survivor p fs.
Proof.
  intros Hq. unfold survivor. destruct (artifacts_elem p) as (_ & Hr & Hb & Hl).
  by rewrite !Hq by set_solver.
Qed.

Lemma locking_survivor p w w' : locking p w w' → survivor p (files w') = survivor p (files w).
Proof.
  intros [Ho _]. apply survivor_ext. intros q Hq. apply Ho.
  intros ->. by apply lock_not_artifact in Hq.
Qed.

Section open_close.
Context `{!MapRange}.

(** [release], with its error dropped: the lock is free. *)
Lemma wp_release_ignored (f : bytes) (locks : gset bytes) (w : world) (Q : res unit → OS → Prop) :
  (∀ w', becomes w (files w) w' → Q (Ok tt) (locks ∖ {[f]}, w')) →
  (∀ locks' w', fails w (files w) w' → Q Crash (locks', w')) →
  wp (ignore (release (Some f))) Q (locks, w).
Proof using Type.
  intros HOk HFail. apply wp_ignore. unfold release, release_with.
  assert (∀ (e1 : error + unit) (L : gset bytes) w1, becomes w (files w) w1 → L ∖ {[f]} = locks ∖ {[f]} →
    wp (e2 ← attempt (on_snd (f_Close f));
        modify (λ s : OS, (s.1 ∖ {[f]}, s.2));;
        match errors_Join [match e1 with inl e => Some e | inr _ => None end;
                           match e2 with inl e => Some e | inr _ => None end] with
        | Some e => throw e
        | None => mret tt
        end) (λ r s', match r with
              | Ok _ | Err _ => Q (Ok tt) s'
              | Panic => Q Panic s'
              | Crash => Q Crash s'
              end) (L, w1)) as Hrest.
  { intros e1 L w1 Hw1 HL. apply wp_bind, wp_attempt, wp_zoom, wp_sys_const; cbn [fst snd].
    - intros w2 Hw2. unfold wp, mbind, M_bind, modify. simpl. rewrite HL.
      destruct e1 as [e1|[]]; simpl; apply HOk; by eapply becomes_then.
    - intros w2 Hw2. split; [|by eapply HFail, becomes_fails].
      unfold wp, mbind, M_bind, modify. simpl. rewrite HL.
      destruct e1 as [e1|[]]; simpl; apply HOk; eapply becomes_then; try done;
        by apply fails_becomes. }
  apply wp_bind, wp_attempt. unfold wp, unlockFile. simpl.
  assert (wp (sys_atomic (λ w, (Ok tt, w))) (λ r w', match r with
    | Ok _ => becomes w (files w) w' | Err _ => fails w (files w) w'
    | Crash => fails w (files w) w' | Panic => False end) w) as Hw by (by apply wp_sys_const).
  unfold wp in Hw. destruct (sys_atomic _ w) as [[[]|e| |] w1]; simpl in *; try done.
  - apply (Hrest (inr tt) (locks ∖ {[f]}) w1); [done|set_solver].
  - apply (Hrest (inl e) locks w1); [by apply fails_becomes|done].
  - by eapply HFail.
Qed.

(** The checks on the arguments of [Open]. *)
Lemma Open_checked (p : bytes) (o o' : Options) :
  p ≠ [] → apply_defaults o = Some o' → [] ∉ IndexedFields o' →
  Open p o = (lock ← acquireFileLock p;
              s ← on_err (on_snd (open_locked p o')) (ignore (release lock));
              mret (s, lock)).
Proof using Type.
  intros Hp Ho Hfields. unfold Open. rewrite bool_decide_false, Ho by done.
  destruct (existsb _ (IndexedFields o')) eqn:Hex; [|done].
  apply existsb_exists in Hex as (f & Hin & Hf). apply bool_decide_eq_true_1 in Hf as ->.
  by apply list_elem_of_In in Hin.
Qed.

Definition opens_store (p : bytes) (ro : Z) (rs : list raw) (tl : bytes) (o : Options)
    (locks : gset bytes) (w : world) (r : res (Store * fileLock)) (s' : OS) : Prop :=
  later w s'.2 ∧
  match r with
  | Ok (s, lock) =>
      lock = Some (p ++ lockFileSuffix) ∧ s'.1 = {[p ++ lockFileSuffix]} ∪ locks ∧
      store_ok p ro rs (if ro =? 0 then [] else tl) s s'.2 ∧
      options s = o ∧ closed s = false ∧ compacting s = false
  | Err _ | Crash =>
      failed w s'.2 ∧ (on_disk p ro rs tl (files s'.2) ∨ on_disk p ro rs [] (files s'.2))
  | Panic => False
  end.

(** [Open] of a database that is not in use: the lock, then [open_locked]. *)
Lemma wp_Open_free (p : bytes) (o o' : Options) (locks : gset bytes) (w : world)
    (Q : res (Store * fileLock) → OS → Prop) :
  let f := p ++ lockFileSuffix in
  p ≠ [] → apply_defaults o = Some o' → [] ∉ IndexedFields o' → f ∉ locks →
  (∀ r w', broken r → locking p w w' → failed w w' → Q r (locks, w')) →
  (∀ w1, locking p w w1 →
    wp (open_locked p o') (λ r w2, match r with
      | Ok s => Q (Ok (s, Some f)) ({[f]} ∪ locks, w2)
      | Err e => (∀ (L : gset bytes) w3, becomes w2 (files w2) w3 → Q (Err e) (L, w3)) ∧
                 (∀ (L : gset bytes) w3, fails w2 (files w2) w3 → Q Crash (L, w3))
      | Crash => ∀ L : gset bytes, Q Crash (L, w2)
      | Panic => False
      end) w1) →
  wp (Open p o) Q (locks, w).
Proof.
  intros f Hp Ho Hfields Hfree HFail HOk. rewrite (Open_checked p o o') by done.
  apply wp_bind, wp_acquireFileLock; [|done|].
  2:{ intros e w1 Hlk Hl1. split; by apply HFail. }
  intros _ w1 Hlk. apply wp_bind, wp_bind, wp_attempt, wp_zoom. eapply wp_mono; [by apply HOk|].
  intros [s|e| |] w2 Hr; cbn [fst snd] in *; try done.
  destruct Hr as [HE HC]. apply wp_bind, wp_release_ignored.
  - intros w3 Hw3. by apply wp_throw, HE.
  - intros L w3 Hw3. by apply HC.
Qed.

Lemma wp_Open_dropped (p : bytes) (ro : Z) (rs : list raw) (tl : bytes) (o o' : Options) (locks : gset bytes) (w : world) :
  p ≠ [] → apply_defaults o = Some o' → [] ∉ IndexedFields o' →
  p ++ lockFileSuffix ∉ locks →
  0 ≤ ro < 2 ^ 32 → Forall stored rs → dropped (version:=logVersion) w tl → on_disk p ro rs tl (files w) →
  wp (Open p o) (opens_store p ro rs tl o' locks w) (locks, w).
Proof.
  intros Hp Ho Hfields Hfree Hro Hst Htl Hdisk. apply (wp_Open_free p o o'); try done.
  { intros r w1 Hr Hlk Hl1. split; [apply Hlk|]. destruct r; try done;
      (split; [done|]); left; unfold on_disk; simpl; by rewrite (locking_survivor _ _ _ Hlk). }
  intros w1 Hlk. pose proof (proj2 Hlk) as Hl1. eapply wp_mono.
  { apply (wp_open_locked p ro rs tl o' w1); [done|done|by eapply dropped_later|].
    unfold on_disk. by rewrite (locking_survivor _ _ _ Hlk). }
  intros [s|e| |] w2 [[_ Hl2] Hr]; try done.
  - destruct Hr as (Hok & Hopt & Hcl & Hco & _). split; [simpl; lia|]. by split_and!.
  - destruct Hr as [Hd Hdisk2]. split; intros L w3 [Hf3 Hl3];
      (split; [simpl; lia|]); (split; [simpl; lia|]); simpl; by rewrite Hf3.
  - destruct Hr as [Hd Hdisk2]. intros L. split; [simpl; lia|]. split; [simpl; lia|]. done.
Qed.

Lemma wp_Open (p : bytes) (ro : Z) (rs : list raw) (tl : bytes) (o o' : Options) (locks : gset bytes) (w : world) :
  p ≠ [] → apply_defaults o = Some o' → [] ∉ IndexedFields o' →
  p ++ lockFileSuffix ∉ locks →
  0 ≤ ro < 2 ^ 32 → Forall stored rs → torn_tail tl → on_disk p ro rs tl (files w) →
  wp (Open p o) (opens_store p ro rs tl o' locks w) (locks, w).
Proof. intros. eapply wp_Open_dropped; try done. by left. Qed.

Definition opens_new (p : bytes) (o : Options) (locks : gset bytes) (w : world)
    (r : res (Store * fileLock)) (s' : OS) : Prop :=
  later w s'.2 ∧
  match r with
  | Ok (s, lock) =>
      lock = Some (p ++ lockFileSuffix) ∧ s'.1 = {[p ++ lockFileSuffix]} ∪ locks ∧
      store_ok p 0 [] [] s s'.2 ∧ options s = o ∧ closed s = false ∧ compacting s = false
  | Err _ | Crash => failed w s'.2
  | Panic => False
  end.

Lemma wp_Open_new (p : bytes) (o o' : Options) (locks : gset bytes) (w : world) :
  p ≠ [] → apply_defaults o = Some o' → [] ∉ IndexedFields o' →
  p ++ lockFileSuffix ∉ locks → survivor p (files w) = None →
  wp (Open p o) (opens_new p o' locks w) (locks, w).
Proof.
  intros Hp Ho Hfields Hfree Hnone. apply (wp_Open_free p o o'); try done.
  { intros r w1 Hr Hlk Hl1. split; [apply Hlk|]. by destruct r. }
  intros w1 Hlk. pose proof (proj2 Hlk) as Hl1. eapply wp_mono.
  { apply (wp_open_locked_new p o' w1). by rewrite (locking_survivor _ _ _ Hlk). }
  intros [s|e| |] w2 [Hl2 Hr]; try done.
  - destruct Hr as (Hok & Hopt & Hcl & Hco). split; [simpl; lia|]. by split_and!.
  - split; intros L w3 [_ Hl3]; split; simpl; lia.
  - intros L. split; simpl; lia.
Qed.

(** [Open] of a database another store has open. *)
Lemma Open_held (p : bytes) (o o' : Options) (locks : gset bytes) (w : world) :
  p ≠ [] → apply_defaults o = Some o' → [] ∉ IndexedFields o' →
  p ++ lockFileSuffix ∈ locks →
  wp (Open p o) (λ r s', locking p w s'.2 ∧ s'.1 = locks ∧
    match r with
    | Ok _ | Panic => False
    | Err e => errors_Is e ErrStoreLocked = true ∨ failed w s'.2
    | Crash => failed w s'.2
    end) (locks, w).
Proof.
  intros Hp Ho Hfields Hheld. rewrite (Open_checked p o o') by done.
  apply wp_bind, wp_acquireFileLock; [done| |].
  - intros _ w1 Hlk. split; [done|]. split; [done|]. by left.
  - intros e w1 Hlk Hl. split; (split; [done|]); (split; [done|]); auto.
Qed.

Lemma wp_release (f : bytes) (locks : gset bytes) (w : world) :
  clean w →
  wp (release (Some f)) (λ r s', r = Ok tt ∧ s'.1 = locks ∖ {[f]} ∧ becomes w (files w) s'.2)
    (locks, w).
Proof using Type.
  intros Hc. unfold release, release_with.
  assert (∀ w, clean w → wp (sys_atomic (λ w, (Ok tt, w)))
    (λ r w', r = Ok tt ∧ becomes w (files w) w') w) as Hsys.
  { intros w1 Hc1. apply wp_sys_const; [done|]. intros w' [_ Hl]. unfold clean in Hc1. lia. }
  apply wp_bind, wp_attempt. unfold wp, unlockFile. simpl.
  pose proof (Hsys w Hc) as H1. unfold wp in H1.
  destruct (sys_atomic _ w) as [r1 w1]. destruct H1 as [E1 Hw1]. simpl in E1, Hw1. subst r1.
  assert (clean w1) as Hc1 by (destruct Hw1; unfold clean in *; lia).
  simpl. apply wp_bind, wp_attempt, wp_zoom. simpl.
  eapply wp_mono; [apply (Hsys w1 Hc1)|]. intros r2 w2 [-> Hw2].
  unfold wp, mbind, M_bind, modify. simpl. split; [done|]. split; [set_solver|].
  by eapply becomes_then.
Qed.

(** [Close] releases the lock and leaves the database as it is. *)
Lemma Close_clean (p : bytes) (ro : Z) (rs : list raw) (junk : bytes) (s : Store) (locks : gset bytes) (w : world) (f : bytes) :
  store_ok p ro rs junk s w → closed s = false → clean w →
  ∃ s' w', Close (Some f) (s, (locks, w)) = (Ok tt, (s', (locks ∖ {[f]}, w'))) ∧
    closed s' = true ∧ becomes w (files w) w'.
Proof using Type.
  intros Hs Hcl Hc. pose proof (lo_open _ _ _ _ _ (so_log _ _ _ _ _ _ Hs)) as Hopen.
  set (s1 := set_closed true s).
  assert (wp (if 0 <=? SyncInterval (options s1) then attempt (on_log log_Sync)
              else λ st, (Ok (inr tt), st))
    (λ r s', r = Ok (inr tt) ∧ s'.1 = s1 ∧ becomes w (files w) s'.2) (s1, w)) as H1.
  { case_match; [|by split]. apply wp_attempt, wp_on_log, wp_on_file; [done|].
    apply wp_sys_const; cbn [fst snd].
    - intros w' Hw. split; [done|]. split; [by destruct s|done].
    - intros w' [_ Hl]. unfold clean in Hc. lia. }
  unfold wp in H1. unfold Close. rewrite Hcl. fold s1.
  assert (∀ b : bool, (if b then attempt (on_log log_Sync) (s1, w) else (Ok (inr tt), (s1, w))) =
    (if b then attempt (on_log log_Sync) else λ st, (Ok (inr tt), st)) (s1, w)) as Hif
    by (by intros []).
  rewrite Hif. destruct (_ (s1, w)) as [r1 [s2 w1]].
  destruct H1 as (E1 & E2 & Hw1). simpl in E1, E2, Hw1. subst r1 s2.
  assert (clean w1) as Hc1 by (destruct Hw1; unfold clean in *; lia).
  assert (wp (attempt (on_log log_Close)) (λ r s', r = Ok (inr tt) ∧ closed s'.1 = true ∧
    becomes w1 (files w1) s'.2) (s1, w1)) as H2.
  { apply wp_attempt, wp_on_log, wp_log_Close; [done|..]; cbn [fst snd].
    - intros w' Hw. by split_and!.
    - intros w' [_ Hl]. unfold clean in Hc1. lia. }
  unfold wp in H2. destruct (attempt (on_log log_Close) (s1, w1)) as [r2 [s3 w2]].
  destruct H2 as (E3 & E4 & Hw2). simpl in E3, E4, Hw2. subst r2.
  assert (clean w2) as Hc2 by (destruct Hw2; unfold clean in *; lia).
  pose proof (wp_release f locks w2 Hc2) as H3. unfold wp in H3. unfold attempt.
  destruct (release (Some f) (locks, w2)) as [r3 [L w3]].
  destruct H3 as (E5 & E6 & Hw3). simpl in E5, E6, Hw3. subst r3 L.
  exists s3, w3. split; [done|]. split; [done|].
  eapply becomes_then; [|done]. by eapply becomes_then.
Qed.
End open_close.
