(* ===== verification/Contract.v ===== *)
(** * The contract of the store

    What the public interface promises, as a relation on a map from key to
    value and attributes; the calls of the implementation, observed as answers
    of that contract; and the abstraction from the records of a log to the
    map.  Runs.v proves that the implementation follows the contract. *)

From S2P Require Import Prelude Go Crc32c Attributes Reader Record Index Cache Legacy FileSystem.
From S2P Require Import Log LogSpec Scan Opening Lock Store StoreSpec Compact CompactSpec.
From S2P Require Import Lifecycle LifecycleSpec.
#[local] Open Scope Z_scope.

(** ** The contract *)

Definition view : Type := gmap bytes (bytes * attrs).

Inductive op :=
| OPut (key value : bytes) (opts : option attrs)
| ODelete (key : bytes)
| OGet (key : bytes)
| OGetMetadata (key : bytes)
| OCompact
| OSync.

Inductive answer :=
| Done
| Value (v : bytes)
| Attrs (m : attrs)
| NotFound
| Refused.

(** What each call may answer, and the map after it. *)
Inductive spec_step : view → op → answer → view → Prop :=
| spec_put m key value opts :
    append_ok key value (default ∅ opts) [] →
    spec_step m (OPut key value opts) Done (<[key := (value, default ∅ opts)]> m)
| spec_put_refused m key value opts :
    ¬ append_ok key value (default ∅ opts) [] →
    spec_step m (OPut key value opts) Refused m
| spec_delete m key :
    is_Some (m !! key) → spec_step m (ODelete key) Done (delete key m)
| spec_delete_missing m key :
    m !! key = None → spec_step m (ODelete key) NotFound m
| spec_get m key value attributes :
    m !! key = Some (value, attributes) → spec_step m (OGet key) (Value value) m
| spec_get_missing m key :
    m !! key = None → spec_step m (OGet key) NotFound m
| spec_meta m key value attributes :
    m !! key = Some (value, attributes) → spec_step m (OGetMetadata key) (Attrs attributes) m
| spec_meta_missing m key :
    m !! key = None → spec_step m (OGetMetadata key) NotFound m
| spec_compact m : spec_step m OCompact Done m
| spec_sync m : spec_step m OSync Done m.

Inductive spec_run : view → list op → list answer → view → Prop :=
| spec_nil m : spec_run m [] [] m
| spec_cons m o a m' os answers m'' :
    spec_step m o a m' → spec_run m' os answers m'' →
    spec_run m (o :: os) (a :: answers) m''.

(** ** The implementation, with results observed as answers *)

(** An error that wraps [ErrKeyNotFound], or any other. *)
Definition observe {A} (f : A → answer) (r : res A) : option answer :=
  match r with
  | Ok a => Some (f a)
  | Err e => Some (if errors_Is e ErrKeyNotFound then NotFound else Refused)
  | Panic | Crash => None
  end.

Section implementation.
Context `{!MapRange}.

Definition run_op (o : op) (st : SS) : option answer * SS :=
  match o with
  | OPut key value opts => let '(r, st') := Put key value opts st in (observe (λ _, Done) r, st')
  | ODelete key => let '(r, st') := Delete key st in (observe (λ _, Done) r, st')
  | OGet key => let '(r, st') := Get [] key st in (observe Value r, st')
  | OGetMetadata key => let '(r, st') := GetMetadata key st in (observe Attrs r, st')
  | OCompact => let '(r, st') := Compact st in (observe (λ _, Done) r, st')
  | OSync => let '(r, st') := store_Sync st in (observe (λ _, Done) r, st')
  end.

Fixpoint run_ops (os : list op) (st : SS) : option (list answer) * SS :=
  match os with
  | [] => (Some [], st)
  | o :: os =>
      match run_op o st with
      | (Some a, st') =>
          let '(answers, st'') := run_ops os st' in (cons a <$> answers, st'')
      | (None, st') => (None, st')
      end
  end.
End implementation.

(** ** The abstraction *)

Definition view_of (rs : list raw) : view := (λ r, (raw_value r, raw_attrs r)) <$> live rs.

Lemma view_put rs key value m :
  append_ok key value m [] →
  view_of (rs ++ [entry false key value m []]) = <[key := (value, m)]> (view_of rs).
Proof.
  intros Hok. unfold view_of. rewrite live_snoc. unfold apply_record.
  rewrite raw_deleted_entry, fmap_insert. simpl.
  by rewrite (proj2 (stored_valid _ _ (entry_valid false key value m [] Hok))).
Qed.

Lemma view_delete rs key : view_of (rs ++ [entry true key [] ∅ []]) = delete key (view_of rs).
Proof.
  unfold view_of. rewrite live_snoc. unfold apply_record.
  rewrite raw_deleted_entry. by rewrite fmap_delete.
Qed.

Lemma view_compacted rs rs' : Forall stored rs → compacted rs rs' → view_of rs' = view_of rs.
Proof.
  intros Hst (_ & Hl & _). unfold view_of. rewrite Hl, <- map_fmap_compose.
  apply map_fmap_ext. intros k r (Hin & _)%live_key. rewrite Forall_forall in Hst. simpl.
  by rewrite (proj2 (rewritten_stored r (Hst r Hin))).
Qed.

Lemma view_lookup rs key :
  view_of rs !! key = (λ r, (raw_value r, raw_attrs r)) <$> live rs !! key.
Proof. apply lookup_fmap. Qed.

(** ** Fields no operation on the map changes *)

Definition flags (s : Store) := (closed s, compacting s, options s, readOnlyReason s).

Definition keeps_flags {A} (m : M SS A) : Prop := ∀ st, flags (m st).2.1 = flags st.1.

Lemma flags_bind {A B} (m : M SS A) (f : A → M SS B) :
  keeps_flags m → (∀ a, keeps_flags (f a)) → keeps_flags (m ≫= f).
Proof.
  intros Hm Hf st. specialize (Hm st). unfold mbind, M_bind.
  destruct (m st) as [[a| | |] st']; simpl in *; try done. by rewrite Hf.
Qed.

Lemma flags_on_log {A} (m : M LS A) : keeps_flags (on_log m).
Proof. intros [s w]. unfold on_log. simpl. by destruct (m (s_log s, w)) as [? []]. Qed.

(** Whatever [Close] returns, the store is closed. *)
Lemma Close_closes lock st : closed (Close lock st).2.1 = true.
Proof.
  destruct st as [s [locks w]]. unfold Close. destruct (closed s) eqn:Hcl; [done|].
  assert (∀ (m : M LS unit) s w, closed (attempt (on_log m) (s, w)).2.1 = closed s) as Hkeep.
  { intros m s0 w0. pose proof (flags_on_log m (s0, w0)) as Hfl. unfold attempt.
    destruct (on_log m (s0, w0)) as [[] [s1 w1]]; simpl in *; by injection Hfl. }
  assert (∀ b : bool, closed (if b then attempt (on_log log_Sync) (set_closed true s, w)
    else (Ok (inr tt), (set_closed true s, w))).2.1 = true) as H1.
  { intros []; [by rewrite Hkeep|done]. }
  specialize (H1 (0 <=? SyncInterval (options (set_closed true s)))).
  match type of H1 with closed ?x.2.1 = _ => destruct x as [[syncErr| | |] [s1 w1]] end;
    simpl in H1; try done.
  pose proof (Hkeep log_Close s1 w1) as H2. rewrite H1 in H2.
  destruct (attempt (on_log log_Close) (s1, w1)) as [[closeErr| | |] [s2 w2]]; try done.
  destruct (attempt (release lock) (locks, w2)) as [[lockErr| | |] os]; try done.
  by destruct (errors_Join _).
Qed.

Lemma flags_wrap {A} fmt (m : M SS A) : keeps_flags m → keeps_flags (wrap fmt m).
Proof.
  intros Hm st. specialize (Hm st). unfold wrap. by destruct (m st) as [[] ?].
Qed.

Lemma flags_same {A} (r : res A) : keeps_flags (λ st, (r, st)).
Proof. by intros st. Qed.

Lemma flags_modify f : (∀ s, flags (f s) = flags s) → keeps_flags (modify_store f).
Proof. intros Hf st. simpl. apply Hf. Qed.

Lemma flags_store : keeps_flags the_store.
Proof. by intros st. Qed.

Create HintDb flags discriminated.
#[export] Hint Resolve flags_bind flags_on_log flags_wrap flags_same flags_modify flags_store : flags.

Lemma flags_on_snd {A} (m : M world A) : keeps_flags (on_snd m).
Proof. intros [s w]. unfold on_snd, zoom. simpl. by destruct (m w). Qed.

Lemma flags_attempt {A} (m : M SS A) : keeps_flags m → keeps_flags (attempt m).
Proof.
  intros Hm st. specialize (Hm st). unfold attempt. by destruct (m st) as [[] ?].
Qed.

Ltac flags := intros; repeat first
  [ done
  | apply flags_bind; intros
  | apply flags_wrap | apply flags_attempt | apply flags_on_log | apply flags_on_snd
  | apply flags_store | apply flags_same
  | apply flags_modify; intros; reflexivity
  | case_match ].

Section flags.
Context `{!MapRange}.

Lemma flags_check : keeps_flags check_open ∧ keeps_flags check_writable.
Proof using Type. split; [unfold check_open|unfold check_writable]; flags. Qed.

Lemma flags_Put key value opts : keeps_flags (Put key value opts).
Proof using Type. unfold Put, count, sync_if_asked, check_open, check_writable. flags. Qed.

Lemma flags_Delete key : keeps_flags (Delete key).
Proof using Type. unfold Delete, count, sync_if_asked, check_open, check_writable. flags. Qed.

Lemma flags_Get pooled key : keeps_flags (Get pooled key).
Proof using Type. unfold Get, count, check_open. flags. Qed.

Lemma flags_discard l tp : keeps_flags (discard_log l tp).
Proof using Type. unfold discard_log. flags. Qed.

Lemma flags_compact_entries tp ks l idx : keeps_flags (compact_entries tp ks l idx).
Proof using Type.
  revert l idx. induction ks as [|k ks IH]; intros l idx; cbn [compact_entries];
    unfold read_entry, discard_log; flags; try apply IH; apply flags_discard.
Qed.

Lemma flags_reopen p : keeps_flags (reopen p).
Proof using Type. unfold reopen. flags. Qed.

Lemma flags_error_of (m : M SS unit) : keeps_flags m → keeps_flags (error_of m).
Proof using Type. intros Hm. unfold error_of. flags. Qed.

Lemma flags_compact_body : keeps_flags compact_body.
Proof using Type.
  unfold compact_body, write_compacted, replace_log, count.
  repeat first [ progress flags | apply flags_compact_entries | apply flags_discard
               | apply flags_reopen | apply flags_error_of ].
Qed.

(** [Compact] puts the [compacting] flag back on every return. *)
Lemma flags_Compact s w :
  closed s = false → compacting s = false → returns (Compact (s, w)).1 →
  flags (Compact (s, w)).2.1 = flags s.
Proof.
  intros Hcl Hco. unfold Compact, mbind, M_bind. destruct (readOnlyReason s) as [e|] eqn:Hro.
  { unfold compact_enter, check_open, check_writable, mbind, M_bind. simpl.
    rewrite Hcl. simpl. by rewrite Hro. }
  rewrite compact_enter_ok by done. unfold deferred, compact_leave.
  pose proof (flags_compact_body (set_compacting true s, w)) as Hfl. unfold flags in *.
  cbn [modify_store fst snd] in *.
  destruct (compact_body (set_compacting true s, w)) as [[[]|e| |] [s' w']];
    simpl in *; intros Hret; try done; congruence.
Qed.
End flags.
