(* ===== verification/Durability.v ===== *)
(** * What survives

    What a process finds when it opens a database another one left behind:
    after a [Close], after a crash at any point of any operation, and after
    recoveries that failed themselves.  [reopens] states it through [Open];
    [holds] is the condition on the disk from which it follows. *)

From S2P Require Import Prelude Go Crc32c Attributes Reader Record Index Cache Legacy FileSystem.
From S2P Require Import Log LogSpec Scan Opening Lock Store StoreSpec Compact CompactSpec.
From S2P Require Import Lifecycle LifecycleSpec Contract.
#[local] Open Scope Z_scope.

(** ** The disk *)

(** The database holds a map that satisfies [V]. *)
Definition holds (p : bytes) (V : view → Prop) (fs : gmap bytes bytes) : Prop :=
  ∃ rs tl, on_disk p 0 rs tl fs ∧ Forall stored rs ∧ torn_tail tl ∧ V (view_of rs).

Lemma holds_mono p (V V' : view → Prop) fs :
  (∀ m, V m → V' m) → holds p V fs → holds p V' fs.
Proof. intros HV (rs & tl & ? & ? & ? & ?). exists rs, tl. split_and!; auto. Qed.

(** A log with a record half written holds the map before or after it. *)
Lemma holds_half_written p rs r n fs (V : view → Prop) :
  fs !! p = Some ((header_bytes logVersion 0 0 ++ log_records rs) ++
                  half_written n (raw_record r) []) →
  Forall stored rs → stored r → V (view_of rs) → V (view_of (rs ++ [r])) → holds p V fs.
Proof.
  intros Hf Hst Hr Hold Hnew.
  destruct (half_written_cases rs r n Hr) as (rs' & tl & Heq & Htl & Hcase).
  exists rs', tl. split_and!; [|destruct Hcase as [->| ->]; [done|]|done|].
  - unfold on_disk. apply survivor_main. by rewrite Hf, <- app_assoc, Heq.
  - apply Forall_app. by split; [|constructor].
  - by destruct Hcase as [->| ->].
Qed.

(** The disk of a store in use. *)
Lemma holds_store p rs s w (V : view → Prop) :
  store_ok p 0 rs [] s w → V (view_of rs) → holds p V (files w).
Proof.
  intros Hs HV. exists rs, []. split_and!; [|apply Hs|apply torn_nil|done].
  apply survivor_main. rewrite (lo_file _ _ _ _ _ (so_log _ _ _ _ _ _ Hs)).
  by rewrite !app_nil_r.
Qed.

Section durability.
Context `{!MapRange}.

(** ** Opening what is there *)

(** Any process that opens [p] finds a map that satisfies [V]; attempts that
    fail or die, up to [n] of them in a row, do not change that. *)
Fixpoint reopens (n : nat) (p : bytes) (V : view → Prop) (fs : gmap bytes bytes) : Prop :=
  ∀ o o' (locks : gset bytes) schedule,
    apply_defaults o = Some o' → [] ∉ IndexedFields o' → p ++ lockFileSuffix ∉ locks →
    wp (Open p o) (λ r st,
      match r with
      | Ok (s, _) => closed s = false ∧ compacting s = false ∧
                     ∃ rs, store_ok p 0 rs [] s st.2 ∧ V (view_of rs)
      | Err _ | Crash =>
          failed (World fs schedule) st.2 ∧
          match n with O => True | S n => reopens n p V (files st.2) end
      | Panic => False
      end) (locks, World fs schedule).

Lemma holds_reopens n p V fs : p ≠ [] → holds p V fs → reopens n p V fs.
Proof.
  intros Hp. revert fs. induction n as [|n IH];
    intros fs (rs & tl & Hdisk & Hst & Htl & HV); simpl;
    intros o o' locks schedule Ho Hfields Hfree;
    (eapply wp_mono; [apply (wp_Open p 0 rs tl o o' locks (World fs schedule)); done|]);
    intros [[s lock]|e| |] st [Hl Hr]; try done.
  1, 4: destruct Hr as (_ & _ & Hok & _ & Hcl & Hco); split; [done|]; split; [done|];
        by exists rs.
  1, 2: by destruct Hr.
  all: destruct Hr as [Hd Hdisk']; split; [done|]; apply IH;
       destruct Hdisk' as [Hdisk'|Hdisk']; [exists rs, tl|exists rs, []];
       split_and!; try done; apply torn_nil.
Qed.

(** ** Crashes of a single call *)

Lemma Put_crash_holds p rs s w key value opts s' w' (V : view → Prop) :
  store_ok p 0 rs [] s w → closed s = false → append_ok key value (default ∅ opts) [] →
  Put key value opts (s, w) = (Crash, (s', w')) →
  V (view_of rs) → V (<[key := (value, default ∅ opts)]> (view_of rs)) → holds p V (files w').
Proof.
  intros Hs Hcl Hok Hrun Hold Hnew.
  pose proof (wp_Put p rs [] s w key value opts Hs Hcl Hok) as (_ & _ & Hr).
  rewrite Hrun in Hr. destruct Hr as (_ & n & Hf). rewrite <- view_put in Hnew by done.
  eapply holds_half_written; [done|apply Hs| |done|done].
  by apply (stored_valid _ (default ∅ opts)), entry_valid.
Qed.

Lemma Delete_crash_holds p rs s w key s' w' (V : view → Prop) :
  store_ok p 0 rs [] s w → closed s = false → is_Some (live rs !! key) →
  Delete key (s, w) = (Crash, (s', w')) →
  V (view_of rs) → V (delete key (view_of rs)) → holds p V (files w').
Proof.
  intros Hs Hcl [r Hlive] Hrun Hold Hnew.
  pose proof (wp_Delete p rs [] s w key Hs Hcl ltac:(done)) as (_ & _ & Hr).
  rewrite Hrun in Hr. destruct Hr as (_ & n & Hf). rewrite <- view_delete in Hnew.
  eapply holds_half_written; [done|apply Hs| |done|done].
  destruct (live_key _ _ _ Hlive) as (Hin & Hk & _).
  apply (stored_valid _ ∅), entry_valid. eapply tombstone_ok; [|done].
  eapply Forall_forall; [apply Hs|done].
Qed.

Lemma survives_holds p rs w (V : view → Prop) :
  Forall stored rs → survives p rs [] w → V (view_of rs) → holds p V (files w).
Proof using Type.
  intros Hst [Hsv|(rs' & Hcomp & Hsv)] HV.
  - exists rs, []. split_and!; [|done|apply torn_nil|done].
    unfold on_disk. by rewrite Hsv, !app_nil_r.
  - exists rs', []. split_and!; [|apply Hcomp|apply torn_nil|].
    + unfold on_disk. by rewrite Hsv, app_nil_r.
    + by rewrite (view_compacted rs rs').
Qed.

Lemma Compact_crash_holds p rs s w s' w' (V : view → Prop) :
  store_ok p 0 rs [] s w → closed s = false → compacting s = false → (faults w ≤ 1)%nat →
  Compact (s, w) = (Crash, (s', w')) → V (view_of rs) → holds p V (files w').
Proof.
  intros Hs Hcl Hco Hone Hrun HV.
  pose proof (wp_Compact p rs [] s w Hs Hcl Hco Hone) as [_ Hr]. rewrite Hrun in Hr.
  destruct Hr as [_ Hsv]. eapply survives_holds; [apply Hs|done|done].
Qed.
End durability.
