(* ===== verification/Runs.v ===== *)
(** * Sequences of calls follow the contract

    One lemma per call describes its outcome with at most one failure ahead:
    the contract's answer, an error that leaves a usable store, or a crash
    that leaves a database to reopen.  The refinement theorem (no failures)
    and crash consistency (a crash at any point) both follow by induction on
    the sequence of calls. *)

From S2P Require Import Prelude Go Crc32c Attributes Reader Record Index Cache Legacy FileSystem.
From S2P Require Import Log LogSpec Scan Opening Lock Store StoreSpec Compact CompactSpec.
From S2P Require Import Lifecycle LifecycleSpec Contract Durability.
#[local] Open Scope Z_scope.

Section runs.
Context `{!MapRange}.

(** ** The outcome of a call *)

(** What [o] leads to from a store with the records [rs]; [junk] is what an
    earlier failure left behind the log. *)
Definition step_outcome (p : bytes) (rs : list raw) (junk : bytes) (o : op) (s : Store)
    (w : world) (r : option answer * SS) : Prop :=
  later w r.2.2 ∧
  match r.1 with
  | None => failed w r.2.2 ∧
      (junk = [] →
       holds p (λ m, m = view_of rs ∨ ∃ a, spec_step (view_of rs) o a m) (files r.2.2))
  | Some a =>
      closed r.2.1 = false ∧ compacting r.2.1 = compacting s ∧
      ((∃ rs' junk', spec_step (view_of rs) o a (view_of rs') ∧
          store_ok p 0 rs' junk' r.2.1 r.2.2 ∧ (junk = [] → junk' = [])) ∨
       (failed w r.2.2 ∧ (junk = [] → ∃ rs' junk', store_ok p 0 rs' junk' r.2.1 r.2.2)))
  end.

Lemma flags_after {A} (m : M SS A) s w :
  keeps_flags m → closed s = false →
  closed (m (s, w)).2.1 = false ∧ compacting (m (s, w)).2.1 = compacting s.
Proof using Type.
  intros Hfl Hcl. specialize (Hfl (s, w)). unfold flags in Hfl. simpl in Hfl.
  injection Hfl as E1 E2 _ _. split; congruence.
Qed.

Lemma idle_Compact s w :
  closed s = false → compacting s = false → returns (Compact (s, w)).1 →
  closed (Compact (s, w)).2.1 = false ∧ compacting (Compact (s, w)).2.1 = compacting s.
Proof using Type.
  intros Hcl Hco Hret. pose proof (flags_Compact s w Hcl Hco Hret) as Hfl. unfold flags in Hfl.
  split; congruence.
Qed.

Context (p : bytes) (rs : list raw) (junk : bytes) (s : Store) (w : world).
Context (Hs : store_ok p 0 rs junk s w) (Hcl : closed s = false).
Context (Hone : (faults w ≤ 1)%nat).
#[local] Set Default Proof Using "Type*".

(** A call that leaves the store's state alone. *)
Lemma outcome_same o a :
  spec_step (view_of rs) o a (view_of rs) → step_outcome p rs junk o s w (Some a, (s, w)).
Proof.
  intros Hstep. split; [done|]. split; [done|]. split; [done|]. left. by exists rs, junk.
Qed.

Lemma put_outcome key value opts :
  step_outcome p rs junk (OPut key value opts) s w (run_op (OPut key value opts) (s, w)).
Proof.
  unfold run_op.
  destruct (Put_accepts_or_not p rs junk s w key value opts Hs) as [Hok|Hno].
  - pose proof (wp_Put p rs junk s w key value opts Hs Hcl Hok) as (_ & Hl & Hr).
    pose proof (flags_after _ s w (flags_Put key value opts) Hcl) as [Hcl' Hco'].
    destruct (Put key value opts (s, w)) as [[[]|e| |] [s' w']] eqn:Hrun; cbn [fst snd] in *; try done.
    + split; [done|]. split; [done|]. split; [done|]. left. eexists _, _.
      split; [|split; [exact Hr|by intros ->; rewrite drop_nil]].
      rewrite view_put by done. by constructor.
    + split; [done|]. split; [done|]. split; [done|]. right. destruct Hr as [Hd Hr].
      split; [done|]. destruct Hr as [[n Hr]|Hr]; eauto.
    + destruct Hr as [Hd _]. split; [done|]. split; [done|]. intros ->.
      eapply (Put_crash_holds p rs s w); try done; [by left|]. right. exists Done. by constructor.
  - destruct (Put_refused p rs junk s w key value opts Hs Hcl Hno) as (e & Hie & ->).
    cbn [observe]. destruct (errors_Is e ErrKeyNotFound) eqn:He.
    { apply Hie in He. rewrite !elem_of_cons, elem_of_nil in He. by destruct He as [|[|[|[|]]]]. }
    apply outcome_same. by constructor.
Qed.

Lemma delete_outcome key :
  step_outcome p rs junk (ODelete key) s w (run_op (ODelete key) (s, w)).
Proof.
  unfold run_op. destruct (live rs !! key) as [r|] eqn:Hlive.
  - assert (is_Some (view_of rs !! key)) as Hview by (by rewrite view_lookup, Hlive).
    pose proof (wp_Delete p rs junk s w key Hs Hcl ltac:(by rewrite Hlive)) as (_ & Hl & Hr).
    pose proof (flags_after _ s w (flags_Delete key) Hcl) as [Hcl' Hco'].
    destruct (Delete key (s, w)) as [[[]|e| |] [s' w']] eqn:Hrun; cbn [fst snd] in *; try done.
    + split; [done|]. split; [done|]. split; [done|]. left. eexists _, _.
      split; [|split; [exact Hr|by intros ->; rewrite drop_nil]].
      rewrite view_delete. by constructor.
    + split; [done|]. split; [done|]. split; [done|]. right. destruct Hr as [Hd Hr].
      split; [done|]. destruct Hr as [[n Hr]|Hr]; eauto.
    + destruct Hr as [Hd _]. split; [done|]. split; [done|]. intros ->.
      eapply (Delete_crash_holds p rs s w); try done; [by left|]. right. exists Done. by constructor.
  - rewrite (Delete_missing p 0 rs junk s w key Hs Hcl (so_writable _ _ _ _ _ Hs) Hlive).
    apply outcome_same. constructor. by rewrite view_lookup, Hlive.
Qed.

(** A call that reads: the disk is as before, whatever happens. *)
Lemma outcome_read {A} (m : M SS A) (f : A → answer) o :
  keeps_flags m →
  wp m (λ r st, becomes w (files w) st.2 ∧
    match r with
    | Ok a => spec_step (view_of rs) o (f a) (view_of rs) ∧ store_ok p 0 rs junk st.1 st.2
    | Err e => (errors_Is e ErrKeyNotFound = true ∧
                spec_step (view_of rs) o NotFound (view_of rs) ∨ failed w st.2) ∧
               store_ok p 0 rs junk st.1 st.2
    | Crash => failed w st.2
    | Panic => False
    end) (s, w) →
  step_outcome p rs junk o s w (let '(r, st) := m (s, w) in (observe f r, st)).
Proof.
  intros Hfl [[Hf Hl] Hr]. pose proof (flags_after m s w Hfl Hcl) as [Hcl' Hco'].
  destruct (m (s, w)) as [[a|e| |] [s' w']]; cbn [fst snd observe] in *; try done.
  - destruct Hr as [Hstep Hok]. split; [done|]. split; [done|]. split; [done|]. left.
    by exists rs, junk.
  - destruct Hr as [[[-> Hstep]|Hd] Hok]; (split; [done|]); (split; [done|]);
      (split; [done|]); [left; by exists rs, junk|right].
    split; [done|]. by exists rs, junk.
  - split; [done|]. split; [done|]. intros Hj. simpl. rewrite Hf.
    apply (holds_store p rs s w); [by rewrite <- Hj|by left].
Qed.

Lemma get_outcome key : step_outcome p rs junk (OGet key) s w (run_op (OGet key) (s, w)).
Proof.
  apply outcome_read; [apply flags_Get|]. destruct (live rs !! key) as [r|] eqn:Hlive.
  - eapply wp_mono; [by apply (wp_Get p 0 rs junk s w [] key r)|].
    intros [v|e| |] st [Hb Hr]; try done.
    + destruct Hr as [-> Hok]. split; [done|]. split; [|done].
      eapply spec_get. by rewrite view_lookup, Hlive.
    + destruct Hr as [Hd Hok]. split; [done|]. split; [by right|done].
  - destruct (Get_missing p 0 rs junk s w [] key Hs Hcl Hlive) as (c & Hrun & Hok).
    unfold wp. rewrite Hrun. split; [done|]. split; [|done]. left. split; [done|].
    constructor. by rewrite view_lookup, Hlive.
Qed.

Lemma meta_outcome key :
  step_outcome p rs junk (OGetMetadata key) s w (run_op (OGetMetadata key) (s, w)).
Proof.
  unfold run_op. rewrite (GetMetadata_spec p 0 rs junk s w Hs key Hcl).
  destruct (live rs !! key) as [r|] eqn:Hlive; apply outcome_same.
  - eapply spec_meta. by rewrite view_lookup, Hlive.
  - constructor. by rewrite view_lookup, Hlive.
Qed.

Lemma sync_outcome : step_outcome p rs junk OSync s w (run_op OSync (s, w)).
Proof.
  apply outcome_read; [unfold store_Sync, check_open; flags|].
  apply wp_check_open; [done|]. apply wp_on_log, wp_on_file; [apply Hs|].
  assert (set_log (s_log s) s = s) as Heq by (by destruct s).
  assert (∀ w', files w' = files w → store_ok p 0 rs junk s w') as Hok.
  { intros w' Hf. eapply store_ok_files; [done|]. by rewrite Hf. }
  apply wp_sys_const; cbn [fst snd]; rewrite Heq.
  - intros w' Hw. split; [done|]. split; [constructor|]. apply Hok, Hw.
  - intros w' Hw. pose proof (fails_becomes _ _ _ Hw). destruct Hw as [Hf Hl].
    split; split; auto.
Qed.

Lemma compact_outcome :
  compacting s = false → step_outcome p rs junk OCompact s w (run_op OCompact (s, w)).
Proof.
  intros Hco. unfold run_op.
  pose proof (wp_Compact p rs junk s w Hs Hcl Hco Hone) as ([_ Hl] & Hr).
  pose proof (idle_Compact s w Hcl Hco) as Hfl.
  destruct (Compact (s, w)) as [[[]|e| |] [s' w']] eqn:Hrun; cbn [fst snd] in *; try done.
  - destruct Hr as (rs' & Hcomp & Hok). destruct (Hfl I) as [Hcl' Hco'].
    split; [done|]. split; [done|]. split; [done|]. left. exists rs', [].
    rewrite (view_compacted rs rs'); [|apply Hs|done]. split; [constructor|done].
  - destruct Hr as [Hd Hr]. destruct (Hfl I) as [Hcl' Hco'].
    split; [done|]. split; [done|]. split; [done|]. right. split; [done|].
    intros [Hok|(rs' & _ & Hok)]%Hr; eauto.
  - destruct Hr as [Hd _]. split; [done|]. split; [done|]. intros Hj. subst junk.
    eapply (Compact_crash_holds p rs s w); try done. by left.
Qed.

Lemma run_op_outcome o :
  (o = OCompact → compacting s = false) → step_outcome p rs junk o s w (run_op o (s, w)).
Proof.
  intros Hco. destruct o; [apply put_outcome|apply delete_outcome|apply get_outcome|
    apply meta_outcome|by apply compact_outcome, Hco|apply sync_outcome].
Qed.
End runs.

(** ** No failures: refinement *)

(** A store in use, with no failure ahead. *)
Record ready (p : bytes) (rs : list raw) (s : Store) (w : world) : Prop := {
  rd_ok : store_ok p 0 rs [] s w;
  rd_open : closed s = false;
  rd_idle : compacting s = false;
  rd_clean : clean w
}.

Section sequences.
Context `{!MapRange}.

Lemma run_ops_app os os' st answers st' :
  run_ops os st = (Some answers, st') →
  run_ops (os ++ os') st =
  (let '(answers', st'') := run_ops os' st' in (app answers <$> answers', st'')).
Proof using Type.
  revert st answers. induction os as [|o os IH]; intros st answers; simpl.
  { intros [= <- <-]. destruct (run_ops os' st) as [[]]; done. }
  destruct (run_op o st) as [[a|] st1]; [|done].
  destruct (run_ops os st1) as [[answers1|] st2] eqn:Hr; [|done].
  intros [= <- <-]. rewrite (IH st1 answers1 Hr). by destruct (run_ops os' st2) as [[]].
Qed.

Lemma run_op_refines p rs o s w :
  ready p rs s w →
  ∃ a rs', (run_op o (s, w)).1 = Some a ∧ spec_step (view_of rs) o a (view_of rs') ∧
    ready p rs' (run_op o (s, w)).2.1 (run_op o (s, w)).2.2.
Proof.
  intros [Hs Hcl Hco Hc]. unfold clean in Hc.
  pose proof (run_op_outcome p rs [] s w Hs Hcl ltac:(lia) o (λ _, Hco)) as [Hl Hr].
  destruct (run_op o (s, w)) as [[a|] [s' w']]; cbn [fst snd] in *; [|lia].
  destruct Hr as (Hcl' & Hco' & Hr); rewrite Hco in Hco'; destruct Hr as [(rs' & junk' & Hstep & Hok & Hj)|[Hd _]]; [|lia].
  rewrite (Hj eq_refl) in Hok. exists a, rs'. split; [done|]. split; [done|]. split; try done. unfold clean. lia.
Qed.

Lemma run_ops_refine p rs os s w :
  ready p rs s w →
  ∃ answers rs', (run_ops os (s, w)).1 = Some answers ∧
    spec_run (view_of rs) os answers (view_of rs') ∧
    ready p rs' (run_ops os (s, w)).2.1 (run_ops os (s, w)).2.2.
Proof.
  revert rs s w. induction os as [|o os IH]; intros rs s w Hr; simpl.
  { exists [], rs. split; [done|]. split; [constructor|done]. }
  destruct (run_op_refines p rs o s w Hr) as (a & rs1 & Ha & Hstep & Hr1).
  destruct (run_op o (s, w)) as [a' [s1 w1]]. cbn [fst snd] in *. subst a'.
  destruct (IH rs1 s1 w1 Hr1) as (answers & rs2 & Hans & Hrun & Hr2).
  destruct (run_ops os (s1, w1)) as [as' st']. cbn [fst snd] in *. subst as'.
  exists (a :: answers), rs2. split; [done|]. split; [by econstructor|done].
Qed.

(** ** One crash, at any point *)

(** Once the failure has happened no call can crash. *)
Lemma clean_no_crash p os rs junk s w :
  store_ok p 0 rs junk s w → closed s = false → compacting s = false → clean w →
  (run_ops os (s, w)).1 ≠ None.
Proof.
  revert rs junk s w. induction os as [|o os IH]; intros rs junk s w Hs Hcl Hco Hc; [done|].
  simpl. unfold clean in *.
  pose proof (run_op_outcome p rs junk s w Hs Hcl ltac:(lia) o (λ _, Hco)) as [Hl Hr].
  destruct (run_op o (s, w)) as [[a|] [s' w']]; cbn [fst snd] in *; [|lia].
  destruct Hr as (Hcl' & Hco' & Hr); rewrite Hco in Hco'; destruct Hr as [(rs' & junk' & _ & Hok & _)|[Hd _]]; [|lia].
  specialize (IH rs' junk' s' w' Hok Hcl' Hco' ltac:(lia)).
  destruct (run_ops os (s', w')) as [[answers|] st']; done.
Qed.

Lemma run_ops_crash p os rs s w st :
  store_ok p 0 rs [] s w → closed s = false → compacting s = false → (faults w ≤ 1)%nat →
  run_ops os (s, w) = (None, st) →
  ∃ done o rest answers st' m, os = done ++ o :: rest ∧
    run_ops done (s, w) = (Some answers, st') ∧ run_op o st' = (None, st) ∧
    spec_run (view_of rs) done answers m ∧
    holds p (λ m', m' = m ∨ ∃ a, spec_step m o a m') (files st.2).
Proof.
  revert rs s w. induction os as [|o os IH]; intros rs s w Hs Hcl Hco Hone Hrun; [done|].
  simpl in Hrun.
  pose proof (run_op_outcome p rs [] s w Hs Hcl Hone o (λ _, Hco)) as [Hl Hr].
  destruct (run_op o (s, w)) as [[a|] [s' w']] eqn:Hop; cbn [fst snd] in *.
  - destruct Hr as (Hcl' & Hco' & Hr); rewrite Hco in Hco'; destruct Hr as [(rs' & junk' & Hstep & Hok & Hj)|[Hd Hok]].
    + rewrite (Hj eq_refl) in Hok. destruct (run_ops os (s', w')) as [[answers|] st'] eqn:Hrest; [done|].
      injection Hrun as <-.
      destruct (IH rs' s' w' Hok Hcl' Hco' ltac:(lia) Hrest)
        as (done & o' & rest & answers & st1 & m & -> & Hdone & Hdie & Hspec & Hholds).
      exists (o :: done), o', rest, (a :: answers), st1, m. split; [done|].
      split; [simpl; by rewrite Hop, Hdone|]. split; [done|]. split; [by econstructor|done].
    + destruct Hok as (rs' & junk' & Hok); [done|].
      pose proof (clean_no_crash p os rs' junk' s' w' Hok Hcl' Hco' ltac:(unfold clean; lia)) as Hno.
      destruct (run_ops os (s', w')) as [[answers|] st']; [done|]. by destruct Hno.
  - injection Hrun as <-. exists [], o, os, [], (s, w), (view_of rs). split; [done|].
    split; [done|]. split; [done|]. split; [constructor|]. by apply Hr.
Qed.

(** The calls [os] came back; the one after them did not. *)
Lemma run_ops_crash_last p os o rs s w answers st' st :
  store_ok p 0 rs [] s w → closed s = false → compacting s = false → (faults w ≤ 1)%nat →
  run_ops os (s, w) = (Some answers, st') → run_op o st' = (None, st) →
  ∃ m, spec_run (view_of rs) os answers m ∧
    holds p (λ m', m' = m ∨ ∃ a, spec_step m o a m') (files st.2).
Proof.
  intros Hs Hcl Hco Hone Hos Ho.
  assert (run_ops (os ++ [o]) (s, w) = (None, st)) as Hall.
  { rewrite (run_ops_app _ _ _ _ _ Hos). simpl. by rewrite Ho. }
  destruct (run_ops_crash p _ rs s w st Hs Hcl Hco Hone Hall)
    as (done & o' & rest & answers' & st1 & m & Heq & Hdone & Hdie & Hspec & Hholds).
  destruct rest as [|o1 rest _] using rev_ind.
  - apply app_inj_tail in Heq as [<- <-]. rewrite Hos in Hdone. injection Hdone as <- <-.
    by exists m.
  - rewrite app_comm_cons, app_assoc in Heq. apply app_inj_tail in Heq as [-> _].
    rewrite (run_ops_app _ _ _ _ _ Hdone) in Hos. simpl in Hos. by rewrite Hdie in Hos.
Qed.
End sequences.
