(* ===== verification/Demo.v ===== *)
(** * Small databases

    A concrete database with one record, the store that has it open, and the
    facts about them that the theorems ask for; and a database of format 3.
    The theorem files instantiate their statements here. *)

From S2P Require Import Prelude Go Crc32c Attributes Reader Record Index Cache Legacy FileSystem.
From S2P Require Import Log LogSpec Scan Opening Lock Store StoreSpec Compact CompactSpec.
From S2P Require Import Lifecycle LifecycleSpec Contract Durability Runs.
From Stdlib Require Import Floats.SpecFloat.
#[local] Open Scope Z_scope.

#[local] Existing Instance canonical_range.

(** A run with a known result. *)
Lemma pair_run {A B} (x : A * B) a : x.1 = a → x = (a, x.2).
Proof. destruct x; simpl. by intros ->. Qed.

Definition demo_path : bytes := str "db".
Definition demo_key : bytes := str "k".
Definition demo_value : bytes := str "hello".
Definition demo_field : bytes := str "kind".
Definition demo_attrs : attrs := {[demo_field := str "note"]}.
(** One extension entry: tag 7, two bytes of payload. *)
Definition demo_extensions : bytes :=
  [Byte.x07; Byte.x00] ++ put32 2 ++ [Byte.x41; Byte.x42].

Definition demo_rec : raw := entry false demo_key demo_value demo_attrs demo_extensions.
Definition demo_rs : list raw := [demo_rec].

Definition demo_options : Options :=
  {| CacheSize := 2; SyncInterval := 0; CompactionThreshold := float64_point2;
     AutoCompact := false; IndexedFields := [demo_field]; OnMigrate := None;
     NoMigrationBackup := false |}.

(** The database with read-only features [ro] and a torn tail [tl]. *)
Definition demo_file (ro : Z) (tl : bytes) : bytes :=
  header_bytes logVersion 0 ro ++ log_records demo_rs ++ tl.

Definition demo_world (ro : Z) (tl : bytes) (schedule : list fault) : world :=
  World {[demo_path := demo_file ro tl]} schedule.

Definition demo_log (ro : Z) : appendLog :=
  {| path := demo_path; file_open := true; writePos := len (demo_file ro []);
     version := logVersion; incompatibleFeatures := 0; readOnlyFeatures := ro;
     appendBuf := []; mapped := Some (len (demo_file ro []) + defaultMapSlack);
     mapDisabled := false; mapSlack := defaultMapSlack |}.

Definition demo_store_with (o : Options) (ro : Z) : Store :=
  let ic := replay recover_record (scan_from (F:=fmt5) logHeaderSize demo_rs)
              (newIndex (IndexedFields o), newLRUCache (CacheSize o)) in
  set_cache ic.2 (set_index ic.1 (set_log (demo_log ro) (initial_store (demo_log ro) o))).

Definition demo_store (ro : Z) : Store := demo_store_with demo_options ro.

(** ** Facts *)

Lemma demo_attrs_ok : attrs_ok demo_attrs.
Proof.
  split; [by vm_compute|]. split.
  - unfold demo_attrs. intros k v [<- <-]%lookup_singleton_Some. split_and!; [done|by vm_compute|by vm_compute].
  - by vm_compute.
Qed.

Lemma demo_framed : ext_framed demo_extensions.
Proof.
  apply (ext_entry [Byte.x07; Byte.x00] [Byte.x41; Byte.x42] []); [done|done|constructor].
Qed.

Lemma demo_append_ok value ext :
  len value ≤ maxValueSize → ext = [] ∨ ext = demo_extensions → 
  append_ok demo_key value demo_attrs ext.
Proof.
  intros Hv He. split; [by vm_compute|]. split; [done|].
  split; [by destruct He as [->| ->]; vm_compute|].
  split; [destruct He as [->| ->]; [constructor|apply demo_framed]|apply demo_attrs_ok].
Qed.

Lemma demo_stored : stored demo_rec ∧ raw_attrs demo_rec = demo_attrs.
Proof. apply stored_valid, entry_valid, demo_append_ok; [by vm_compute|by right]. Qed.

Lemma demo_all_stored : Forall stored demo_rs.
Proof. constructor; [apply demo_stored|constructor]. Qed.

Lemma demo_live : live demo_rs !! demo_key = Some demo_rec.
Proof. reflexivity. Qed.

Lemma demo_log_ok ro tl schedule :
  log_ok demo_path (demo_file ro []) tl (demo_log ro) (demo_world ro tl schedule).
Proof.
  split; [done|done|done|]. simpl. rewrite lookup_singleton_eq. unfold demo_file.
  by rewrite app_nil_r, <- app_assoc.
Qed.

Lemma demo_store_with_ok o ro tl schedule :
  0 ≤ ro < 2 ^ 32 →
  store_ok demo_path ro demo_rs tl (demo_store_with o ro) (demo_world ro tl schedule).
Proof.
  intros Hro. apply recovered_ok; [done|apply demo_all_stored|done..|].
  rewrite <- (app_nil_r (log_records demo_rs)). apply demo_log_ok.
Qed.

Lemma demo_store_ok ro tl schedule :
  0 ≤ ro < 2 ^ 32 →
  store_ok demo_path ro demo_rs tl (demo_store ro) (demo_world ro tl schedule).
Proof. apply demo_store_with_ok. Qed.

Lemma demo_ok tl schedule :
  store_ok demo_path 0 demo_rs tl (demo_store 0) (demo_world 0 tl schedule).
Proof. by apply demo_store_ok. Qed.

Lemma demo_on_disk ro tl schedule :
  on_disk demo_path ro demo_rs tl (files (demo_world ro tl schedule)).
Proof. apply survivor_main. simpl. by rewrite lookup_singleton_eq. Qed.

(** Part of a record: what a crash in the middle of an append leaves. *)
Definition demo_torn : bytes := take 9 (raw_record demo_rec).

Lemma demo_torn_tail : torn_tail demo_torn.
Proof. apply torn_take; [apply demo_stored|]. vm_compute. lia. Qed.

Lemma demo_ready : ready demo_path demo_rs (demo_store 0) (demo_world 0 [] []).
Proof. split; [by apply demo_store_ok|done..]. Qed.

(** ** A database of format 3 *)

Definition demo_legacy : legacy :=
  Legacy demo_key demo_value Byte.x02 (str "tv") [] [] (str "name") 7 (str "nntp") (-1).

Lemma demo_legacy_ok : lg_ok demo_legacy.
Proof. unfold lg_ok. split_and!; try (by vm_compute). repeat constructor; by vm_compute. Qed.

Definition demo_legacy_file : bytes :=
  header_bytes 3 0 0 ++ lg_record 3 demo_legacy ++ [Byte.x01].

Lemma demo_legacy_torn : torn (version:=3) [Byte.x01].
Proof.
  right. apply (stops_strict_prefix (F:=format_legacy 3 ltac:(done))
    (Legacy [Byte.x00] [] Byte.x00 [] [] [] [] 0 [] 0) [Byte.x01]
    (drop 1 (lg_record 3 (Legacy [Byte.x00] [] Byte.x00 [] [] [] [] 0 [] 0)))); [|done|done].
  unfold fmt_ok. simpl. unfold lg_ok. split_and!; try (by vm_compute).
  repeat constructor; by vm_compute.
Qed.
