(* ===== verification/Migration.v ===== *)
(** * Opening a log of an older format

    [Open] brings a log of format 1 to 4 to the current format (store.go:
    [migrate]).  A log of format 4 gets a new header; one of format 1 to 3 is
    rewritten record by record, which is a compaction of a store that reads
    the old format.  Either way the map stays the same, a copy of the old log
    is kept, and whatever fails leaves a log that the next [Open] takes up. *)

From S2P Require Import Prelude Go Crc32c Attributes Reader Record Index Cache Strconv Legacy.
From S2P Require Import FileSystem Log LogSpec Scan Opening Lock Store StoreSpec Compact.
From S2P Require Import CompactSpec Lifecycle LifecycleSpec Contract Durability.
From stdpp Require Import pretty.
#[local] Open Scope Z_scope.

(** ** Legacy records as records of the current format *)

Definition lg_deleted (g : legacy) : bool := Z.testbit (byte.unsigned (lg_flags g)) 0.

(** The record that holds what [g] holds. *)
Definition lg_raw (v : Z) (g : legacy) : raw :=
  entry (lg_deleted g) (lg_key g) (lg_value g) (lg_attributes v g) [].

Definition lg_records (v : Z) (gs : list legacy) : bytes := concat (lg_record v <$> gs).

Lemma attr_ok_field k t : k ∈ v3Fields → len t ≤ 65535 → attr_ok (k, t).
Proof.
  intros Hk Ht. unfold attr_ok. cbn [fst snd].
  assert (k ≠ [] ∧ len k ≤ 65535) as [? ?]; [|split_and!; try done; lia].
  repeat (apply elem_of_cons in Hk as [->|Hk]; [by split|]). by apply elem_of_nil in Hk.
Qed.

(** The fixed fields always fit an attribute block. *)
Lemma lg_attributes_ok v g : lg_ok g → attrs_ok (lg_attributes v g).
Proof.
  intros (_ & _ & Hf & _ & _). repeat (apply Forall_cons_1 in Hf as [? Hf]).
  pose proof (length_FormatInt (lg_total g)). pose proof (length_FormatInt (lg_added g)).
  assert (∀ b, len (FormatBool b) ≤ 65535) by (by intros []).
  assert (∀ n b m k t, attrs_within n b m → k ∈ v3Fields → len k ≤ 20 → len t ≤ 65535 →
    ∀ n' b', n' = n + 1 → b' = b + 65561 → attrs_within n' b' (<[k := t]> m)) as Hadd.
  { intros n b m k t Hm Hk Hlk Ht ? ? -> ->. destruct (attrs_within_insert n b m k t Hm
      (attr_ok_field k t Hk Ht)) as (? & ? & ?). split; [done|]. split; [done|lia]. }
  assert (attrs_within 5 327805 (lg_attributes 1 g)) as Hfive.
  { unfold lg_attributes. change (3 <=? 1) with false. cbv iota zeta.
    eapply (Hadd 4 262244); [|set_solver|done|done|done|done].
    eapply (Hadd 3 196683); [|set_solver|done|done|done|done].
    eapply (Hadd 2 131122); [|set_solver|done|done|done|done].
    eapply (Hadd 1 65561); [|set_solver|done|done|done|done].
    eapply (Hadd 0 0); [apply attrs_within_empty|set_solver|done|lia|done|done]. }
  unfold lg_attributes in *. cbv zeta in *. destruct (3 <=? v).
  - apply (attrs_within_ok 8 524488); [|done|done].
    eapply (Hadd 7 458927); [|set_solver|done|lia|done|done].
    eapply (Hadd 6 393366); [|set_solver|done|done|done|done].
    eapply (Hadd 5 327805); [exact Hfive|set_solver|done|done|done|done].
  - by apply (attrs_within_ok 5 327805).
Qed.

Lemma lg_append_ok v g :
  lg_ok g → append_ok (lg_key g) (lg_value g) (lg_attributes v g) [].
Proof.
  intros Hg. pose proof (lg_attributes_ok v g Hg). destruct Hg as (? & ? & _).
  split_and!; try done. apply validateExtensions_spec. by vm_compute.
Qed.

Lemma lg_raw_stored v g :
  lg_ok g → stored (lg_raw v g) ∧ raw_attrs (lg_raw v g) = lg_attributes v g.
Proof. intros Hg. by apply stored_valid, entry_valid, lg_append_ok. Qed.

(** ** The index of a legacy log
    Values are read by their own offset; there is no record to check. *)

Definition located_value (pre k : bytes) (e : indexEntry) (r : raw) : Prop :=
  raw_key r = k ∧ stored r ∧ raw_extensions r = [] ∧ Attributes e = raw_attrs r ∧
  ∃ a c, pre = a ++ raw_value r ++ c ∧ Offset e = len a ∧ Index.Size e = len (raw_value r).

Lemma located_value_app pre x k e r : located_value pre k e r → located_value (pre ++ x) k e r.
Proof.
  intros (? & ? & ? & ? & a & c & -> & ? & ?). split_and!; try done.
  exists a, (c ++ x). by rewrite <- !app_assoc.
Qed.

Lemma located_value_new v pre g :
  lg_ok g →
  located_value (pre ++ lg_record v g) (lg_key g)
    (record_entry (lg_scanned (len pre) v g)) (lg_raw v g).
Proof.
  intros Hg. destruct (lg_raw_stored v g Hg) as [Hst Ha]. split_and!; try done.
  unfold lg_record. eexists (pre ++ put32 _ ++ lg_key g ++ put32 _), _.
  split; [by rewrite <- !app_assoc|]. split; [|done]. simpl. len_lia.
Qed.

(** ** A store on a legacy log *)

Section legacy_store.
Context `{!MapRange} (v : Z).

Record legacy_ok (p : bytes) (gs : list legacy) (s : Store) (w : world) : Prop := {
  lk_log : log_ok p (header_bytes v 0 0 ++ lg_records v gs) [] (s_log s) w;
  lk_version : version (s_log s) = v;
  lk_fits : Forall lg_ok gs;
  lk_index : idx_inv (s_index s);
  lk_agrees : agrees (located_value (header_bytes v 0 0 ++ lg_records v gs))
                (entries (s_index s)) (live (lg_raw v <$> gs));
  lk_writable : readOnlyReason s = None
}.

Lemma lg_all_stored gs : Forall lg_ok gs → Forall stored (lg_raw v <$> gs).
Proof. intros Hgs. apply Forall_fmap. eapply Forall_impl; [done|]. intros g. apply lg_raw_stored. Qed.

Context (Hv : 1 ≤ v < 4).

Lemma wp_legacy_read p gs s w e a z rec (Q : res (bytes * bytes) → SS → Prop) :
  legacy_ok p gs s w → raw_extensions rec = [] →
  header_bytes v 0 0 ++ lg_records v gs = a ++ raw_value rec ++ z →
  Offset e = len a → Index.Size e = len (raw_value rec) →
  (∀ w', becomes w (files w) w' → Q (Ok (raw_value rec, raw_extensions rec)) (s, w')) →
  (∀ w', fails w (files w) w' → Q (Err EIO) (s, w') ∧ Q Crash (s, w')) →
  wp (read_entry s e) Q (s, w).
Proof using Hv.
  intros Hs Hext Hpre Hoff Hsz HOk HFail. unfold read_entry.
  rewrite (lk_version _ _ _ _ Hs), (proj2 (Z.leb_gt 4 v)) by lia.
  pose proof (log_ok_content _ _ _ _ _ (lk_log _ _ _ _ Hs)) as Hc.
  rewrite app_nil_r, Hpre in Hc. unfold log_ReadAt. rewrite Hsz, Hoff.
  rewrite (proj2 (Z.ltb_ge _ 0)) by lia.
  apply wp_bind, wp_on_log, wp_on_file; [apply Hs|].
  apply wp_ReadAt; rewrite ?Hc; [lia|lia|len_lia|..]; cbn [fst snd];
    replace (set_log (s_log s) s) with s by (by destruct s); [|done].
  intros w' Hw. apply wp_ret. rewrite slice_mid by done. rewrite <- Hext. by apply HOk.
Qed.

#[export] Instance rewritable_legacy p gs :
  Rewritable p (header_bytes v 0 0 ++ lg_records v gs) v (live (lg_raw v <$> gs)) True
    (legacy_ok p gs).
Proof using Hv.
  assert (header_masks v 0 0 = (0, 0)) as Hm by (unfold header_masks; by case_match).
  assert (header_ok v 0 0) as Hh by (unfold header_ok, logVersion; lia).
  split.
  - intros s w Hs. split; apply Hs.
  - intros s w Hs. pose proof (lo_file _ _ _ _ _ (lk_log _ _ _ _ Hs)) as Hf. by rewrite app_nil_r in Hf.
  - intros s w w' [Hlog] Hf. split; try done. eapply log_ok_world; [done|]. rewrite Hf. apply Hlog.
  - intros s w Hs. split; [apply Hs|]. by eapply agrees_dom, Hs.
  - intros s w idx [] Hidx He. split; simpl; try done. by rewrite He.
  - intros s w b []. by split.
  - intros s w Hs. apply Hs.
  - intros s w k rec Hs (Hin & Hk & _)%live_key. split; [done|].
    by eapply Forall_forall, Hin; apply lg_all_stored, Hs.
  - intros s w k e rec Hs He Hr.
    destruct (agrees_lookup _ _ _ k (lk_agrees _ _ _ _ Hs))
      as [[? _]|(e' & r & He' & Hr' & (_ & _ & _ & Ha & _))]; congruence.
  - intros s w k e rec Q Hs He Hr.
    destruct (agrees_lookup _ _ _ k (lk_agrees _ _ _ _ Hs))
      as [[? _]|(e' & r & He' & Hr' & (_ & _ & Hx & _ & a & z & Hpre & Ho & Hz))]; [congruence|].
    assert (r = rec ∧ e = e') as [-> ->] by (split; congruence).
    by apply (wp_legacy_read p gs s w e' a z rec).
  - by exists 0, 0, (lg_records v gs).
  - intros s w l w' _ [] Hlog Hv' _ _. by split.
Qed.

(** The state of a store whose legacy log has just been scanned. *)
Lemma legacy_recovered p gs o log l w :
  Forall lg_ok gs → version l = v → readOnlyFeatures log = 0 →
  log_ok p (header_bytes v 0 0 ++ lg_records v gs) [] l w →
  let ic := replay recover_record
              (scan_from (F:=format_legacy v (proj2 Hv)) logHeaderSize gs)
              (newIndex (IndexedFields o), newLRUCache (CacheSize o)) in
  legacy_ok p gs (set_cache ic.2 (set_index ic.1 (set_log l (initial_store log o)))) w.
Proof.
  intros Hgs Hver Hrl Hlog.
  destruct (replay_agrees_by (F:=format_legacy v (proj2 Hv)) (lg_raw v) located_value)
    with (header_bytes v 0 0) gs (newIndex (IndexedFields o)) (newLRUCache (CacheSize o))
    as (Hidx & _ & _ & _ & Ha); try done.
  - intros. by apply located_value_app.
  - intros pre g Hg _. by apply located_value_new.
  - intros pos g. symmetry. apply raw_deleted_entry.
  - apply newIndex_inv.
  - apply newLRUCache_inv.
  - apply newIndex_spec.
  - split; simpl; try done. rewrite unknown_is_mask, Hrl. done.
Qed.
End legacy_store.

(** ** The header of a log of format 4 or 5
    The two headers differ in one byte, so a header that is written half way
    is one of the two. *)

Definition v45 (v : Z) : Prop := v = 4 ∨ v = 5.

Lemma header_patch v t n body :
  v45 v → v45 t →
  write_bytes 0 (take n (header_bytes t 0 0)) (header_bytes v 0 0 ++ body) =
  header_bytes (if (n <=? 4)%nat then v else t) 0 0 ++ body.
Proof.
  intros Hv Ht. destruct (decide (16 ≤ n)%nat) as [Hn|Hn].
  - rewrite take_ge by (pose proof (length_header t 0 0); unfold logHeaderSize in *; lia).
    replace (n <=? 4)%nat with false by (symmetry; apply Nat.leb_gt; lia).
    by destruct Hv as [-> | ->], Ht as [-> | ->].
  - destruct Hv as [-> | ->], Ht as [-> | ->]; do 16 (destruct n as [|n]; [reflexivity|]); lia.
Qed.

Lemma wp_setVersion p v t body l w (Q : res unit → LS → Prop) :
  v45 v → v45 t → log_ok p (header_bytes v 0 0 ++ body) [] l w →
  incompatibleFeatures l = 0 → readOnlyFeatures l = 0 →
  (∀ w', becomes w (<[p := header_bytes t 0 0 ++ body]> (files w)) w' →
    Q (Ok tt) (set_version t l, w')) →
  (∀ v' u w', v45 v' → fails w (<[p := header_bytes v' 0 0 ++ body]> (files w)) w' →
    Q (Err EIO) (set_version u l, w') ∧ Q Crash (set_version u l, w')) →
  wp (setVersion t) Q (l, w).
Proof.
  intros Hv Ht Hlog Hi Hr HOk HFail. unfold setVersion.
  pose proof (lo_path _ _ _ _ _ Hlog) as Hp. pose proof (lo_open _ _ _ _ _ Hlog) as Ho.
  pose proof (log_ok_content _ _ _ _ _ Hlog) as Hc. rewrite Hp, app_nil_r in Hc.
  apply wp_the_log, wp_modify_log, wp_bind, wp_attempt. cbn [fst snd].
  unfold writeHeader. apply wp_the_log. cbn [fst snd]. apply wp_on_file; [done|]. simpl.
  rewrite Hi, Hr, Hp. apply wp_WriteAt; rewrite Hc.
  - intros w1 Hw1. rewrite <- (firstn_all (header_bytes t 0 0)), header_patch in Hw1 by done.
    change (length (header_bytes t 0 0) <=? 4)%nat with false in Hw1. cbv iota in Hw1.
    apply wp_on_file; [done|]. apply wp_sys_const.
    + intros w2 Hw2. apply HOk. by eapply becomes_then.
    + intros w2 Hw2. apply (HFail t); [done|]. by eapply becomes_fails.
  - intros n w1 Hw1. rewrite header_patch in Hw1 by done. cbn [fst snd].
    assert (v45 (if (n <=? 4)%nat then v else t)) as Hv' by (by case_match).
    split; [|by apply (HFail _ t w1 Hv')].
    apply wp_modify_log, wp_throw. cbn [fst snd].
    change (Q (Err EIO) (set_version (version l) l, w1)). by apply (HFail _ _ w1 Hv').
Qed.

(** ** The copy kept before a migration *)

Section copying.

Lemma wp_or_remove_w {A} q (m : M world A) w (Q : res A → world → Prop) :
  wp m (λ r w', match r with
                | Err e => (∀ w'', only q w' w'' → Q (Err e) w'') ∧
                           (∀ w'', only q w' w'' → failed w' w'' → Q Crash w'')
                | r => Q r w'
                end) w →
  wp (or_remove q m) Q w.
Proof.
  intros Hm. apply wp_bind, wp_attempt. eapply wp_mono; [exact Hm|].
  intros [a|e| |] w' HQ; try done. destruct HQ as [HE HC].
  by apply wp_bind, wp_remove_ignored.
Qed.

Lemma wp_deferred {S A B} (body : M S A) (cleanup : M S B) Q s :
  wp body (λ r s', match r with
    | Ok _ | Err _ => wp (ignore cleanup) (λ c s'', match c with
                        | Ok _ | Err _ => Q r s''
                        | Panic => Q Panic s''
                        | Crash => Q Crash s''
                        end) s'
    | r => Q r s'
    end) s →
  wp (deferred body cleanup) Q s.
Proof.
  unfold wp, deferred, ignore, mbind, M_bind, attempt.
  destruct (body s) as [[a|e| |] s']; simpl; try done; by destruct (cleanup s') as [[] ?].
Qed.

Lemma wp_deferred_close {A} (m : M world A) p w (Q : res A → world → Prop) :
  wp m (λ r w', match r with
                | Ok _ | Err _ => (∀ w'', becomes w' (files w') w'' → Q r w'') ∧
                                  (∀ w'', fails w' (files w') w'' → Q Crash w'')
                | r => Q r w'
                end) w →
  wp (deferred m (ignore (f_Close p))) Q w.
Proof.
  intros Hm. apply wp_deferred. eapply wp_mono; [exact Hm|].
  intros [a|e| |] w' HQ; try done; destruct HQ as [HOk HC]; apply wp_ignore, wp_ignore, wp_sys_const;
    try done; (intros w'' Hw; split; [by apply HOk, fails_becomes|by apply HC]).
Qed.

(** What copying [c] to [dst] may leave: an existing [dst] is kept, a new one
    is complete. *)
Definition copies (dst c : bytes) (w : world) (r : res unit) (w' : world) : Prop :=
  (∀ q, q ≠ dst → q ≠ dst ++ migrationBackupTempSuffix → files w' !! q = files w !! q) ∧
  later w w' ∧
  match r with
  | Ok _ => files w' !! dst = Some (default c (files w !! dst))
  | Err _ | Crash =>
      failed w w' ∧
      (files w' !! dst = files w !! dst ∨ files w !! dst = None ∧ files w' !! dst = Some c)
  | Panic => False
  end.

Lemma copies_fail dst c w r w' :
  broken r → only (dst ++ migrationBackupTempSuffix) w w' → failed w w' → copies dst c w r w'.
Proof.
  intros Hr [Ho Hl] Hd. assert (files w' !! dst = files w !! dst) as Hdst.
  { apply Ho. intros Heq. symmetry in Heq. by apply suffix_ne_nil in Heq. }
  split; [by intros; apply Ho|]. split; [done|]. destruct r; try done; auto.
Qed.

(** Closing the copy after a failed step, then removing it. *)
Lemma wp_copy_step dst c w0 w (m : M world unit) (k : M world unit) Q :
  let tmp := dst ++ migrationBackupTempSuffix in
  only tmp w0 w → (∀ r w', broken r → copies dst c w0 r w' → Q r w') →
  wp m (λ r w', only tmp w w' ∧ match r with
                | Ok _ => wp k Q w'
                | Err _ | Crash => failed w w'
                | Panic => False
                end) w →
  wp (or_remove tmp (on_err m (ignore (f_Close tmp)));; k) Q w.
Proof.
  intros tmp Hon HQ Hm. apply wp_bind, wp_or_remove_w, wp_bind, wp_attempt.
  eapply wp_mono; [exact Hm|]. intros [[]|e| |] w1 [Ho1 Hr]; try done.
  - pose proof (only_trans _ _ _ _ Hon Ho1) as Hon1. destruct Hon as [_ Hl].
    assert (∀ w2, only tmp w1 w2 → (∀ w3, only tmp w2 w3 → Q (Err e) w3) ∧
      (∀ w3, only tmp w2 w3 → failed w2 w3 → Q Crash w3)) as Hend.
    { intros w2 Ho2. pose proof (only_trans _ _ _ _ Hon1 Ho2) as Hon2. destruct Ho2 as [_ Hl2].
      split; intros w3 Ho3; [|intros _]; pose proof (only_trans _ _ _ _ Hon2 Ho3) as Hon3;
        destruct Ho3 as [_ Hl3]; apply HQ, copies_fail; try done; lia. }
    apply wp_bind, wp_ignore, wp_sys_const.
    + intros w2 Hw2. by apply wp_throw, Hend, only_becomes.
    + intros w2 Hw2. pose proof (only_becomes tmp _ _ (fails_becomes _ _ _ Hw2)) as Ho2.
      split; [by apply wp_throw, Hend|]. destruct Hw2.
      apply HQ, copies_fail; [done|done|by eapply only_trans|lia].
  - apply HQ, copies_fail; [done|done|by eapply only_trans|]. destruct Hon. lia.
Qed.

Lemma copies_then dst c w r w1 w2 :
  copies dst c w r w1 → becomes w1 (files w1) w2 → copies dst c w r w2.
Proof.
  intros (Ho & Hl & Hr) [Hf Hl2]. unfold copies. rewrite Hf.
  split; [done|]. split; [lia|]. destruct r; try done; destruct Hr; split; try done; lia.
Qed.
Lemma copies_crash dst c w r w1 w2 :
  copies dst c w r w1 → returns r → fails w1 (files w1) w2 → copies dst c w Crash w2.
Proof.
  intros (Ho & Hl & Hr) Hret [Hf Hl2]. unfold copies. rewrite Hf.
  split; [done|]. split; [lia|]. split; [lia|]. destruct r; try done; [|by destruct Hr].
  rewrite Hr. destruct (files w !! dst); simpl; [by left|by right].
Qed.

Lemma wp_io_Copy out inp w (Q : res unit → world → Prop) :
  (∀ w', becomes w (<[out := content inp w]> (files w)) w' → Q (Ok tt) w') →
  (∀ c w', fails w (<[out := c]> (files w)) w' → Q (Err EIO) w' ∧ Q Crash w') →
  wp (io_Copy out inp) Q w.
Proof.
  intros HOk HFail. apply wp_sys.
  - intros w' [Hf Hl]. apply HOk. split; [|done]. simpl. unfold content. by rewrite Hf.
  - intros n w' [Hf Hl]. apply (HFail (take n (content inp w'))). split; [|done]. simpl. by rewrite Hf.
Qed.

Lemma only_insert p c w w' : becomes w (<[p := c]> (files w)) w' → only p w w'.
Proof. intros [Hf Hl]. split; [|done]. intros q Hq. by rewrite Hf, lookup_insert_ne. Qed.

(** Closing the copy and putting it in place. *)
Lemma wp_copy_finish dst c w0 w (Q : res unit → world → Prop) :
  let tmp := dst ++ migrationBackupTempSuffix in
  files w0 !! dst = None → only tmp w0 w → files w !! tmp = Some c →
  (∀ r w', copies dst c w0 r w' → Q r w') →
  wp (or_remove tmp (f_Close tmp);;
      or_remove tmp (os_Rename tmp dst);;
      syncParentDirectory dst) Q w.
Proof.
  intros tmp Hdst Hon Htmp HQ. assert (tmp ≠ dst) as Htd by (by apply suffix_ne_nil).
  assert (∀ w1, only tmp w0 w1 → failed w0 w1 → ∀ r, broken r →
    (∀ w2, only tmp w1 w2 → Q r w2)) as Hfail.
  { intros w1 Ho1 Hl1 r Hr w2 Ho2. apply HQ, copies_fail; [done|by eapply only_trans|].
    destruct Ho2. lia. }
  apply wp_bind, wp_or_remove_w, wp_sys_const.
  2:{ intros w1 Hw1. pose proof (only_trans _ _ _ _ Hon (only_becomes tmp _ _
        (fails_becomes _ _ _ Hw1))) as Ho1.
      assert (failed w0 w1) by (destruct Hon, Hw1; lia).
      split; [split; intros; by eapply Hfail|]. by apply (Hfail w1); [| | |apply only_refl]. }
  intros w1 Hw1. pose proof (only_trans _ _ _ _ Hon (only_becomes tmp _ _ Hw1)) as Hon1.
  rewrite <- (proj1 Hw1) in Htmp.
  apply wp_bind, wp_or_remove_w, (wp_os_Rename _ _ _ c); [done|..].
  2:{ intros w2 Hw2. pose proof (only_trans _ _ _ _ Hon1 (only_becomes tmp _ _
        (fails_becomes _ _ _ Hw2))) as Ho2.
      assert (failed w0 w2) by (destruct Hon1, Hw2; lia).
      split; [split; intros; by eapply Hfail|]. by apply (Hfail w2); [| | |apply only_refl]. }
  intros w2 [Hf2 Hl2]. assert (copies dst c w0 (Ok tt) w2) as Hc2.
  { split; [|split; [destruct Hon1; lia|by rewrite Hf2, Hdst, lookup_insert_eq]].
    intros q Hq Hqt. rewrite Hf2, lookup_insert_ne, lookup_delete_ne by done. by apply Hon1. }
  apply wp_sys_const.
  - intros w3 Hw3. by eapply HQ, copies_then.
  - intros w3 Hw3. assert (copies dst c w0 Crash w3) as Hc3 by (by eapply copies_crash).
    split; apply HQ; [|done]. destruct Hc3 as (? & ? & ?). done.
Qed.

(** The copy itself, with the source open. *)
Lemma wp_copy_body src dst c w0 w :
  let tmp := dst ++ migrationBackupTempSuffix in
  src ≠ tmp → files w0 !! src = Some c → files w0 !! dst = None → only tmp w0 w →
  wp (os_OpenTrunc tmp;;
      or_remove tmp (on_err (io_Copy tmp src) (ignore (f_Close tmp)));;
      or_remove tmp (on_err (f_Sync tmp) (ignore (f_Close tmp)));;
      or_remove tmp (f_Close tmp);;
      or_remove tmp (os_Rename tmp dst);;
      syncParentDirectory dst) (copies dst c w0) w.
Proof.
  intros tmp Hst Hsrc Hdst Hon. apply wp_bind, wp_sys_atomic.
  2:{ intros w1 Hw1. pose proof (only_trans _ _ _ _ Hon (only_becomes tmp _ _
        (fails_becomes _ _ _ Hw1))). destruct Hw1, Hon. split; by apply copies_fail; [| |lia]. }
  intros w1 Hw1. unfold wp at 1. cbn [fst snd]. set (w2 := set_file tmp [] w1).
  assert (only tmp w0 w2) as Hon2.
  { eapply only_trans; [exact Hon|]. eapply only_trans; [by apply (only_becomes tmp)|].
    split; [|done]. intros q Hq. simpl. by rewrite lookup_insert_ne. }
  apply (wp_copy_step dst c w0); [done|done|].
  apply wp_io_Copy; [|intros d w3 Hw3; pose proof (only_insert _ _ _ _ (fails_becomes _ _ _ Hw3));
    split; (split; [done|apply Hw3])].
  intros w3 Hw3. split; [by eapply only_insert|].
  assert (files w3 !! tmp = Some c) as Htmp3.
  { rewrite (proj1 Hw3), lookup_insert_eq. f_equal. change (default [] (files w2 !! src) = c).
    by rewrite (proj1 Hon2 src Hst), Hsrc. }
  pose proof (only_trans _ _ _ _ Hon2 (only_insert _ _ _ _ Hw3)) as Hon3.
  apply (wp_copy_step dst c w0); [done|done|].
  apply wp_sys_const; [|intros w4 Hw4; pose proof (only_becomes tmp _ _ (fails_becomes _ _ _ Hw4));
    split; (split; [done|apply Hw4])].
  intros w4 Hw4. split; [by apply only_becomes|].
  pose proof (only_trans _ _ _ _ Hon3 (only_becomes tmp _ _ Hw4)) as Hon4.
  rewrite <- (proj1 Hw4) in Htmp3. by apply (wp_copy_finish dst c w0).
Qed.

Lemma wp_copyLogFile src dst c w :
  src ≠ dst → src ≠ dst ++ migrationBackupTempSuffix → files w !! src = Some c →
  wp (copyLogFile src dst) (copies dst c w) w.
Proof.
  intros Hsd Hst Hsrc. set (tmp := dst ++ migrationBackupTempSuffix) in *.
  unfold copyLogFile. apply wp_bind, wp_attempt, wp_os_Stat.
  2:{ intros w1 Hw1. pose proof (only_becomes tmp _ _ (fails_becomes _ _ _ Hw1)) as Ho1.
      destruct Hw1. split; [apply wp_throw|]; by apply copies_fail. }
  intros w1 Hw1. destruct (files w !! dst) as [d|] eqn:Hdst; cbv beta.
  { apply wp_ret. destruct Hw1 as [Hf1 Hl1]. split; [by rewrite Hf1|]. split; [done|].
    by rewrite Hf1, Hdst. }
  pose proof (only_becomes tmp _ _ Hw1) as Hon1.
  change (negb (errors_Is (Sentinel ErrNotExist) ErrNotExist)) with false. cbv iota.
  apply wp_bind, wp_sys_atomic.
  2:{ intros w2 Hw2. pose proof (only_trans _ _ _ _ Hon1 (only_becomes tmp _ _
        (fails_becomes _ _ _ Hw2))). destruct Hw2, Hon1. split; by apply copies_fail; [| |lia]. }
  intros w2 Hw2. pose proof (only_trans _ _ _ _ Hon1 (only_becomes tmp _ _ Hw2)) as Hon2.
  unfold wp at 1. rewrite (proj1 Hon2 src Hst), Hsrc. cbn [fst snd].
  apply wp_deferred_close. eapply wp_mono; [by apply (wp_copy_body src dst c w)|].
  intros [] w' Hc; try done; (split; intros; [by eapply copies_then|by eapply copies_crash]).
Qed.
End copying.

(** ** Log files of every format *)

(** [log_file v rs c]: the file [c] is a log of format [v] that holds what the
    records [rs] hold, and behind them what an interrupted write left. *)
Inductive log_file : Z → list raw → bytes → Prop :=
| file_v45 v rs tl :
    v45 v → Forall stored rs → torn_tail tl →
    log_file v rs (header_bytes v 0 0 ++ log_records rs ++ tl)
| file_legacy v gs tl :
    1 ≤ v < 4 → Forall lg_ok gs → torn (version:=v) tl →
    log_file v (lg_raw v <$> gs) (header_bytes v 0 0 ++ lg_records v gs ++ tl).

(** The database holds, in some format, a map that satisfies [V]. *)
Definition holds_any (p : bytes) (V : view → Prop) (fs : gmap bytes bytes) : Prop :=
  ∃ v rs c, survivor p fs = Some c ∧ log_file v rs c ∧ V (view_of rs).

Lemma log_file_stored v rs c : log_file v rs c → Forall stored rs.
Proof. destruct 1; [done|by apply lg_all_stored]. Qed.

Lemma log_file_complete v rs :
  v45 v → Forall stored rs → log_file v rs (header_bytes v 0 0 ++ log_records rs).
Proof.
  intros. rewrite <- (app_nil_r (log_records rs)). apply file_v45; try done. apply torn_nil.
Qed.

Lemma holds_any_file p V v rs c fs :
  fs !! p = Some c → log_file v rs c → V (view_of rs) → holds_any p V fs.
Proof. intros Hf Hc HV. exists v, rs, c. split; [by apply survivor_main|done]. Qed.

(** The copy, its temporary name, and every other file. *)
Lemma backup_path_ne p v :
  1 ≤ v ≤ 4 →
  ∀ q, q ∈ [backup_path p v; backup_path p v ++ migrationBackupTempSuffix] →
    (q ∉ p :: artifacts p) ∧ q ≠ p ++ lockFileSuffix.
Proof.
  intros Hv q Hq. unfold backup_path in Hq. rewrite <- !app_assoc in Hq.
  assert (∃ b, q = p ++ Byte.x2e :: Byte.x76 :: b) as [b ->].
  { repeat (apply elem_of_cons in Hq as [->|Hq]; [eexists; reflexivity|]).
    by apply elem_of_nil in Hq. }
  assert (∀ s, s ≠ Byte.x2e :: Byte.x76 :: b → p ++ Byte.x2e :: Byte.x76 :: b ≠ p ++ s) as Hne.
  { intros s Hs Heq. apply Hs. by apply app_inv_head in Heq. }
  split; [|by apply Hne]. unfold artifacts. rewrite !not_elem_of_cons.
  split_and!; try (by apply Hne); [|by apply not_elem_of_nil].
  rewrite <- (app_nil_r p) at 2. by apply Hne.
Qed.

(** Files no migration of [p] from format [v] touches. *)
Definition spare (p : bytes) (v : Z) (q : bytes) : Prop :=
  (q ∉ p :: artifacts p) ∧
  (q ∉ [backup_path p v; backup_path p v ++ migrationBackupTempSuffix]).

(** The application refused the migration with the error [e]. *)
Definition refused (p : bytes) (v : Z) (o : Options) (e : error) : Prop :=
  ∃ f backup, OnMigrate o = Some f ∧
    f {| mi_Path := p; FromVersion := v; ToVersion := logVersion; Backup := backup |} = Some e.

Section migrating.
Context `{!MapRange}.

(** Only the copy has been touched so far. *)
Definition copied (p : bytes) (v : Z) (w w' : world) : Prop :=
  (∀ q, q ∉ [backup_path p v; backup_path p v ++ migrationBackupTempSuffix] →
    files w' !! q = files w !! q) ∧ later w w'.

(** The part of [migrate] before the log is touched. *)
Lemma wp_migrate_start p v c s w (Q : res unit → SS → Prop) :
  version (s_log s) = v → 1 ≤ v ≤ 4 → files w !! p = Some c →
  (∀ w', copied p v w w' →
    (NoMigrationBackup (options s) = false →
     files w' !! backup_path p v = Some (default c (files w !! backup_path p v))) →
    wp (if v =? 4 then wrap "migrate log from v4" (on_log (setVersion logVersion))
        else wrap "migrate log" Compact) Q (s, w')) →
  (∀ e w', copied p v w w' → refused p v (options s) e → Q (Err e) (s, w')) →
  (∀ r w', broken r → copied p v w w' → failed w w' → Q r (s, w')) →
  wp (migrate p) Q (s, w).
Proof.
  intros Hv Hr Hf HOk HNo HFail. unfold migrate. apply wp_the_store. cbn [fst]. rewrite Hv.
  assert (p ∉ [backup_path p v; backup_path p v ++ migrationBackupTempSuffix]) as Hpn.
  { intros Hin. destruct (backup_path_ne p v Hr p Hin). set_solver. }
  assert (∀ b w' k, copied p v w w' → wp k Q (s, w') → wp (
    match OnMigrate (options s) ≫= λ f, f {| mi_Path := p; FromVersion := v;
            ToVersion := logVersion; Backup := b |} with
    | Some e => throw e
    | None => k
    end) Q (s, w')) as Hask.
  { intros b w' k Hcp Hk. destruct (OnMigrate (options s)) as [f|] eqn:Hon; [|done]. simpl.
    destruct (f _) as [e|] eqn:Hf'; [|done]. apply wp_throw, HNo; [done|]. by exists f, b. }
  destruct (NoMigrationBackup (options s)) eqn:Hno.
  { apply wp_bind, wp_ret. cbv zeta. apply Hask; [by split|]. apply HOk; [by split|done]. }
  apply wp_bind, wp_bind, wp_zoom, wp_wrap. eapply wp_mono.
  { apply (wp_copyLogFile p (backup_path p v) c); set_solver. }
  intros r w1 (Ho & Hl & Hc). assert (copied p v w w1) as Hcp.
  { split; [|done]. intros q Hq. apply Ho; set_solver. }
  destruct r as [[]|e| |]; cbn [fst snd] in *; try done.
  - apply wp_ret. cbv zeta. apply Hask; [done|]. by apply HOk.
  - by apply HFail; [|done|apply Hc].
  - by apply HFail; [|done|apply Hc].
Qed.

(** The outcome of a migration of the file [c]. *)
Definition migrates (p : bytes) (v : Z) (rs : list raw) (c : bytes) (s : Store) (w : world)
    (r : res unit) (s' : SS) : Prop :=
  (∀ q, spare p v q → files s'.2 !! q = files w !! q) ∧ later w s'.2 ∧
  match r with
  | Ok _ =>
      (∃ rs', view_of rs' = view_of rs ∧ store_ok p 0 rs' [] s'.1 s'.2) ∧
      flags s'.1 = flags s ∧
      (NoMigrationBackup (options s) = false →
       files s'.2 !! backup_path p v = Some (default c (files w !! backup_path p v)))
  | Err e => (failed w s'.2 ∨ refused p v (options s) e) ∧
             holds_any p (λ m, m = view_of rs) (files s'.2)
  | Crash => failed w s'.2 ∧ holds_any p (λ m, m = view_of rs) (files s'.2)
  | Panic => False
  end.

(** A failure or a refusal before the log is touched. *)
Lemma migrates_broken p v rs c s w r w' s' :
  1 ≤ v ≤ 4 → log_file v rs c → files w !! p = Some c → copied p v w w' →
  broken r ∧ failed w w' ∨ (∃ e, r = Err e ∧ refused p v (options s) e) →
  migrates p v rs c s w r (s', w').
Proof using Type.
  intros Hv Hfile Hf [Ho Hl] Hr. split; [|split; [done|]].
  { intros q [_ Hq]. by apply Ho. }
  assert (files w' !! p = Some c).
  { rewrite Ho; [done|]. intros Hin. destruct (backup_path_ne p v Hv p Hin). set_solver. }
  assert (holds_any p (λ m, m = view_of rs) (files w')) by (by eapply holds_any_file).
  destruct Hr as [[Hr Hd]|(e & -> & He)]; [|by split; [right|]].
  destruct r; try done; (split; [|done]); by left || done.
Qed.

(** A store on a log of format 4: with the header of format 5 it is a store on
    a log of the current format. *)
Definition v4_ok (p : bytes) (rs : list raw) (s : Store) (w : world) : Prop :=
  reopened p 4 (header_bytes 4 0 0 ++ log_records rs) (s_log s) w ∧ Forall stored rs ∧
  ∀ l w', reopened p logVersion (fresh_header ++ log_records rs) l w' →
    store_ok p 0 rs [] (set_log l s) w'.

Lemma wp_migrate_v4 p rs s w :
  v4_ok p rs s w →
  wp (migrate p) (migrates p 4 rs (header_bytes 4 0 0 ++ log_records rs) s w) (s, w).
Proof using Type.
  intros ((Hlog & Hv & Hi & Hro) & Hst & Hup).
  pose proof (lo_file _ _ _ _ _ Hlog) as Hf. rewrite app_nil_r in Hf.
  assert (log_file 4 rs (header_bytes 4 0 0 ++ log_records rs)) as Hfile
    by (by apply log_file_complete; [left|]).
  eapply wp_migrate_start; [done|lia|done| | |].
  2:{ intros e w1 Hcp He. apply migrates_broken; try done. right. by exists e. }
  2:{ intros r w1 Hr Hcp Hd. apply migrates_broken; try done. by left. }
  intros w1 [Ho1 Hl1] Hbak. change (4 =? 4) with true. cbv iota.
  assert (p ∉ [backup_path p 4; backup_path p 4 ++ migrationBackupTempSuffix]) as Hpn.
  { intros Hin. destruct (backup_path_ne p 4 ltac:(lia) p Hin). set_solver. }
  assert (∀ t w2, files w2 = <[p := header_bytes t 0 0 ++ log_records rs]> (files w1) →
    ∀ q, q ≠ p → q ∉ [backup_path p 4; backup_path p 4 ++ migrationBackupTempSuffix] →
    files w2 !! q = files w !! q) as Hoth.
  { intros t w2 Hw2 q Hq Hqb. rewrite Hw2, lookup_insert_ne by done. by apply Ho1. }
  apply wp_wrap, wp_on_log, (wp_setVersion p 4 logVersion (log_records rs)); cbn [fst snd];
    [by left|by right| |done|done|..].
  { eapply log_ok_world; [done|]. by rewrite Ho1, app_nil_r. }
  - intros w2 [Hf2 Hl2]. split; [|split; [simpl; lia|]].
    { intros q [Hq Hqb]. eapply Hoth; [done| |done]. set_solver. }
    cbn [fst snd]. split; [exists rs; split; [done|]|split; [done|]].
    + apply Hup. split; [|done]. destruct Hlog as [Hp Hopen Hpos _].
      split; [done|done| |].
      * change (writePos (s_log s) = len (fresh_header ++ log_records rs)). rewrite Hpos.
        rewrite !length_app. pose proof (length_header 4 0 0). pose proof (length_header 5 0 0).
        unfold fresh_header, logVersion. lia.
      * rewrite Hf2, lookup_insert_eq. by rewrite app_nil_r.
    + intros Hno. rewrite Hf2, lookup_insert_ne by set_solver. by apply Hbak.
  - intros v' u w2 Hv' [Hf2 Hl2].
    assert (∀ s', migrates p 4 rs (header_bytes 4 0 0 ++ log_records rs) s w Crash (s', w2)) as Hc.
    { intros s'. split; [|split; [simpl; lia|split; [simpl; lia|]]].
      - intros q [Hq Hqb]. eapply Hoth; [done| |done]. set_solver.
      - eapply holds_any_file; [|by apply log_file_complete|done].
        cbn [snd]. by rewrite Hf2, lookup_insert_eq. }
    split; [|apply Hc]. destruct (Hc (set_log (set_version u (s_log s)) s)) as (? & ? & ? & ?).
    split; [done|]. split; [done|]. by split; [left|].
Qed.

(** A compaction that failed half way left the old log or the new one. *)
Lemma migrates_surviving v p gs s w w' r s' :
  let c := header_bytes v 0 0 ++ lg_records v gs in
  log_file v (lg_raw v <$> gs) c → broken r →
  (∀ q, spare p v q → files w' !! q = files w !! q) → failed w w' →
  surviving (old:=c) (p:=p) (m:=live (lg_raw v <$> gs)) w' →
  migrates p v (lg_raw v <$> gs) c s w r (s', w').
Proof using Type.
  intros c Hfile Hb Hoth Hd Hsv. pose proof (log_file_stored _ _ _ Hfile) as Hst.
  split; [done|]. split; [simpl; lia|].
  assert (holds_any p (λ m, m = view_of (lg_raw v <$> gs)) (files w')).
  { destruct Hsv as [Hsv|(rs' & Hre & Hsv)]; (eexists _, _, _; split; [exact Hsv|]).
    - by split.
    - split; [apply (log_file_complete 5); [by right|apply Hre]|]. by apply view_compacted. }
  destruct r; try done. split; [by left|done].
Qed.

Lemma wp_migrate_legacy v p gs s w :
  1 ≤ v < 4 → legacy_ok v p gs s w →
  closed s = false → compacting s = false → (faults w ≤ 1)%nat →
  wp (migrate p) (migrates p v (lg_raw v <$> gs) (header_bytes v 0 0 ++ lg_records v gs) s w)
    (s, w).
Proof.
  intros Hv Hs Hcl Hco Hone. pose proof (rewritable_legacy v Hv p gs) as RW.
  pose proof (rw_file (ok:=legacy_ok v p gs) _ _ Hs) as Hf.
  assert (log_file v (lg_raw v <$> gs) (header_bytes v 0 0 ++ lg_records v gs)) as Hfile.
  { rewrite <- (app_nil_r (lg_records v gs)). apply file_legacy; [done|apply Hs|by left]. }
  pose proof (log_file_stored _ _ _ Hfile) as Hst.
  eapply wp_migrate_start; [apply Hs|lia|done| | |].
  2:{ intros e w1 Hcp He. apply migrates_broken; try done; [lia|]. right. by exists e. }
  2:{ intros r w1 Hr Hcp Hd. apply migrates_broken; try done; [lia|]. by left. }
  intros w1 Hcp Hbak. rewrite (proj2 (Z.eqb_neq v 4)) by lia.
  assert (∀ q, q ∈ [backup_path p v; backup_path p v ++ migrationBackupTempSuffix] →
    q ∉ p :: artifacts p) as Hdis by (intros q Hq; apply (backup_path_ne p v); [lia|done]).
  assert (p ∉ [backup_path p v; backup_path p v ++ migrationBackupTempSuffix]) as Hpn.
  { intros Hin. specialize (Hdis _ Hin). set_solver. }
  assert (legacy_ok v p gs s w1) as Hs1.
  { eapply (rw_files (ok:=legacy_ok v p gs)); [done|]. by apply Hcp. }
  pose proof (flags_Compact s w1 Hcl Hco) as Hfl. destruct Hcp as [Ho1 Hl1].
  pose proof (wp_Compact_rewrites (ok:=legacy_ok v p gs) s w1 Hs1 Hcl Hco ltac:(lia)) as Hcompact.
  apply wp_wrap. unfold wp in *.
  destruct (Compact (s, w1)) as [r [s2 w2]]. cbn [fst snd] in *.
  destruct Hcompact as [[Ho2 Hl2] Hr]. cbn [fst snd] in *.
  assert (∀ q, spare p v q → files w2 !! q = files w !! q) as Hoth.
  { intros q [Hq Hqb]. by rewrite Ho2, Ho1. }
  assert (failed w1 w2 → failed w w2) as Hlt by lia.
  destruct r as [[]|e| |]; try done.
  - destruct Hr as (rs' & Hre & Hok). split; [done|]. split; [simpl; lia|]. cbn [fst snd].
    split; [exists rs'; split; [by apply view_compacted|done]|]. split; [by apply Hfl|].
    intros Hno. rewrite Ho2; [by apply Hbak|]. apply Hdis. set_solver.
  - destruct Hr as [Hd Hserve]. apply migrates_surviving; [done|done|done|by auto|].
    destruct (Hserve I) as [Hold|(rs' & Hre & Hok)].
    + left. apply survivor_main. by apply (rw_file (ok:=legacy_ok v p gs) s2).
    + right. exists rs'. split; [done|]. apply survivor_main.
      pose proof (lo_file _ _ _ _ _ (so_log _ _ _ _ _ _ Hok)) as Hf2. by rewrite app_nil_r in Hf2.
  - destruct Hr as [Hd Hsv]. apply migrates_surviving; auto; done.
Qed.
End migrating.

(** ** Open, on a log of an older format *)

Section open_old.
Context `{!MapRange}.

Definition opened_old (p : bytes) (v : Z) (rs : list raw) (o : Options) (w : world)
    (r : res Store) (w' : world) : Prop :=
  (∀ q, spare p v q → files w' !! q = files w !! q) ∧ later w w' ∧
  match r with
  | Ok s =>
      (∃ rs', view_of rs' = view_of rs ∧ store_ok p 0 rs' [] s w') ∧
      options s = o ∧ closed s = false ∧ compacting s = false ∧
      (NoMigrationBackup o = false → ∃ c, log_file v rs c ∧
       files w' !! backup_path p v = Some (default c (files w !! backup_path p v)))
  | Err e => (failed w w' ∨ refused p v o e) ∧ holds_any p (λ m, m = view_of rs) (files w')
  | Crash => failed w w' ∧ holds_any p (λ m, m = view_of rs) (files w')
  | Panic => False
  end.

Lemma opened_old_broken p v rs o w r w' :
  broken r → within p w w' → failed w w' →
  holds_any p (λ m, m = view_of rs) (files w') → opened_old p v rs o w r w'.
Proof using Type.
  intros Hr [Ho Hl] Hd Hh. split; [|split; [done|]].
  2:{ destruct r; try done; by split; [left|]. }
  intros q [Hq _]. by apply Ho.
Qed.

(** [l.Close()] with its error dropped, on any log. *)
Lemma wp_close_any l w (Q : res unit → world → Prop) :
  (∀ w', becomes w (files w) w' → Q (Ok tt) w') →
  (∀ w', fails w (files w) w' → Q Crash w') →
  wp (ignore (with_log l log_Close)) Q w.
Proof using Type.
  intros HOk HFail. destruct (file_open l) eqn:Ho; [by apply wp_close_ignored|].
  apply wp_ignore, wp_with_log. unfold log_Close. apply wp_the_log, wp_modify_log.
  unfold wp, mbind, M_bind, attempt, on_file. simpl. rewrite Ho. simpl. by apply HOk.
Qed.

(** The migration of a store that has been recovered. *)
Lemma wp_open_old_migrate p v rs c o w0 w s :
  1 ≤ v < logVersion → log_file v rs c → within p w0 w →
  flags s = (false, false, o, None) →
  wp (migrate p) (migrates p v rs c s w) (s, w) →
  wp ('(r, s) ← try_store s (migrate p);
      match r with
      | inl err => ignore (with_log (s_log s) log_Close);; throw err
      | inr _ => mret s
      end) (opened_old p v rs o w0) w.
Proof using Type.
  intros Hv Hfile Hin1 Hflags Hmig. injection Hflags as Hcl Hco Hopt Hreason.
  apply wp_bind, wp_try_store. eapply wp_mono; [exact Hmig|].
  intros r [s2 w2] (Ho2 & Hl2 & Hr2). cbn [fst snd] in *.
  assert (∀ q, spare p v q → files w2 !! q = files w0 !! q) as Hsp.
  { intros q Hq. rewrite Ho2 by done. apply Hin1, Hq. }
  destruct Hin1 as [Hoin Hl1]. rewrite Hopt in Hr2. destruct r as [[]|e| |]; try done.
  - destruct Hr2 as (Hex & Hfl & Hbak). apply wp_ret. split; [done|]. split; [lia|].
    split; [done|]. injection Hfl as Hcl' Hco' Hopt' _. split_and!; [congruence..|].
    intros Hno. exists c. split; [done|]. rewrite (Hbak Hno), Hoin; [done|].
    apply (backup_path_ne p v); [unfold logVersion in Hv; lia|set_solver].
  - destruct Hr2 as [Hd Hh]. apply wp_bind, wp_close_any.
    + intros w3 [Hf3 Hl3]. apply wp_throw. split; [by rewrite Hf3|]. split; [lia|].
      split; [|by rewrite Hf3]. destruct Hd; [left; lia|by right].
    + intros w3 [Hf3 Hl3]. split; [by rewrite Hf3|]. split; [lia|]. split; [lia|by rewrite Hf3].
  - destruct Hr2 as [Hd Hh]. split; [done|]. split; [lia|]. by split; [lia|].
Qed.

(** From the scan on: [rs] is what the records [rs0] of the old format hold. *)
Lemma wp_open_old_scan {v R} {F : LogFormat v R} p (rs0 : list R) rs tl o w0 w log :
  1 ≤ v < logVersion → Forall fmt_ok rs0 → torn (version:=v) tl →
  log_file v rs (header_bytes v 0 0 ++ records rs0) →
  log_file v rs (header_bytes v 0 0 ++ records rs0 ++ tl) →
  within p w0 w → (faults w0 ≤ 1)%nat →
  reopened p v (header_bytes v 0 0 ++ records rs0 ++ tl) log w →
  (∀ l w', reopened p v (header_bytes v 0 0 ++ records rs0) l w' → (faults w' ≤ 1)%nat →
    let ic := replay recover_record (scan_from logHeaderSize rs0)
                (newIndex (IndexedFields o), newLRUCache (CacheSize o)) in
    let s := set_cache ic.2 (set_index ic.1 (set_log l (initial_store log o))) in
    wp (migrate p) (migrates p v rs (header_bytes v 0 0 ++ records rs0) s w') (s, w')) →
  wp ('(r, s) ← try_store (initial_store log o) recover;
      match r with
      | inl err =>
          ignore (with_log (s_log s) log_Close);;
          throw (Errorf "failed to recover from log" [err])
      | inr _ =>
          if version (s_log s) <? logVersion then
            '(r, s) ← try_store s (migrate p);
            match r with
            | inl err => ignore (with_log (s_log s) log_Close);; throw err
            | inr _ => mret s
            end
          else mret s
      end) (opened_old p v rs o w0) w.
Proof.
  intros Hv Hok Htl Hfile Hfull Hw Hone (Hlog & Hver & Hi & Hro) Hmig.
  pose proof (lo_file _ _ _ _ _ Hlog) as Hf. rewrite app_nil_r in Hf.
  assert (∀ r w', broken r → within p w0 w' → failed w0 w' → files w' !! p = files w !! p →
    opened_old p v rs o w0 r w') as Hbad.
  { intros r w' Hr Hin Hd Hsame. apply opened_old_broken; try done.
    eapply holds_any_file; [by rewrite Hsame|done|done]. }
  apply wp_bind, wp_try_store, wp_recover. eapply wp_mono.
  { apply (wp_Iterate recover_record p (header_bytes v 0 0) rs0 tl);
      [done|apply length_header|done|done|done]. }
  intros [[]|e| |] [ic [l w1]] Hsc; cbn [fst snd] in *; try done.
  - destruct Hsc as (Hic & (Hv' & Hi' & Hr' & _) & Hw1 & Hlog1). cbn [fst snd] in *. subst ic.
    cbn [s_log initial_store] in Hw1, Hlog1, Hv', Hi', Hr'.
    rewrite unknown_is_mask, Hro in Hw1, Hlog1. change (0 =? 0) with true in *. cbv iota in *.
    assert (within p w0 w1) as Hin1.
    { eapply within_becomes; [done|done|]. intros q Hq. rewrite lookup_insert_ne; set_solver. }
    rewrite (proj2 (Z.ltb_lt (version (s_log _)) logVersion)) by (simpl; rewrite Hv', Hver; lia).
    assert (reopened p v (header_bytes v 0 0 ++ records rs0) l w1) as Hre.
    { split_and!; [done|congruence..]. }
    eapply wp_open_old_migrate; [done|exact Hfile|done| |apply (Hmig l w1 Hre); destruct Hin1; lia].
    unfold flags. simpl. unfold unknownReadOnly. by rewrite Hro.
  - destruct Hsc as [Hw1 Hl1]. cbn [fst snd] in *. subst l.
    assert (within p w0 w1) as Hin1.
    { eapply within_becomes; [done|by apply fails_becomes|done]. }
    assert (failed w0 w1) by (destruct Hw, Hw1; lia).
    apply wp_bind, wp_close_any.
    + intros w2 Hw2. apply wp_throw, Hbad; [done|by eapply within_becomes|destruct Hw2; lia|].
      by rewrite (proj1 Hw2), (proj1 Hw1).
    + intros w2 Hw2. apply Hbad; [done| |destruct Hw2; lia|by rewrite (proj1 Hw2), (proj1 Hw1)].
      eapply within_becomes; [done|by apply fails_becomes|done].
  - change (fails w (files w) w1) in Hsc. apply Hbad; [done| | |by rewrite (proj1 Hsc)].
    + eapply within_becomes; [done|by apply fails_becomes|done].
    + destruct Hw, Hsc. lia.
Qed.

(** The store a log of format 4 is opened as. *)
Lemma v4_recovered p rs o log l w :
  Forall stored rs → readOnlyFeatures log = 0 →
  reopened p 4 (header_bytes 4 0 0 ++ log_records rs) l w →
  let ic := replay recover_record (scan_from (F:=format_v5 4 (Z.le_refl 4)) logHeaderSize rs)
              (newIndex (IndexedFields o), newLRUCache (CacheSize o)) in
  v4_ok p rs (set_cache ic.2 (set_index ic.1 (set_log l (initial_store log o)))) w.
Proof.
  intros Hst Hrl Hre. split; [done|]. split; [done|]. intros l' w' (Hlog & Hv & Hi & Hro).
  by apply (recovered_ok p 0 rs [] o log l' w').
Qed.

Lemma wp_open_locked_old p v rs c o w :
  1 ≤ v < logVersion → log_file v rs c → survivor p (files w) = Some c →
  (faults w ≤ 1)%nat →
  wp (open_locked p o) (opened_old p v rs o w) w.
Proof.
  intros Hv Hfile Hdisk Hone.
  assert (∃ body, c = header_bytes v 0 0 ++ body) as [body Hc] by (destruct Hfile; eauto).
  assert (header_masks v 0 0 = (0, 0)) as Hm0 by (unfold header_masks; by case_match).
  unfold open_locked. apply wp_bind, wp_wrap. eapply wp_mono.
  { apply (wp_openAppendLog p v 0 0 body); [unfold header_ok; lia|by rewrite <- Hc]. }
  rewrite <- Hc. intros r w1 [Hk Hr]. pose proof (within_keeps _ _ _ Hk) as Hin.
  assert (∀ r, broken r → failed w w1 → opened_old p v rs o w r w1) as Hbad.
  { intros r' Hr' Hd. apply opened_old_broken; try done. exists v, rs, c.
    by rewrite (keeps_survivor _ _ _ Hk). }
  destruct r as [log|e| |]; try done.
  2:{ apply Hbad; [done|]. destruct Hr as [Hd|[Hm _]]; [done|by rewrite Hm0 in Hm]. }
  2:{ by apply Hbad. }
  destruct Hr as (Hlog & Hver & Hm & _ & _). rewrite Hm0 in Hm. injection Hm as Hi Hro.
  destruct Hfile as [v rs tl [-> | ->] Hst Htl|v gs tl Hv' Hgs Htl]; [|unfold logVersion in Hv; lia|].
  - apply (wp_open_old_scan (F:=format_v5 4 (Z.le_refl 4)) p rs rs tl); try done.
    + by apply log_file_complete; [left|].
    + by apply file_v45; [left| |].
    + intros l w' Hre Hone'. cbv zeta. apply wp_migrate_v4, v4_recovered; [done|done|exact Hre].
  - apply (wp_open_old_scan (F:=format_legacy v (proj2 Hv')) p gs (lg_raw v <$> gs) tl); try done.
    + change (records (F:=format_legacy v (proj2 Hv')) gs) with (lg_records v gs).
      rewrite <- (app_nil_r (lg_records v gs)). by apply file_legacy; [| |left].
    + by apply file_legacy.
    + intros l w' (Hlog' & Hver' & Hi' & Hro') Hone'. cbv zeta.
      by apply wp_migrate_legacy; try done; apply legacy_recovered.
Qed.
End open_old.

(** ** Open, on a log of any format *)

Section open_any.
Context `{!MapRange}.

(** The outcome of opening a log of format [v] that holds what [rs] hold. *)
Definition opens_any (p : bytes) (v : Z) (rs : list raw) (o : Options) (locks : gset bytes)
    (w : world) (r : res (Store * fileLock)) (s' : OS) : Prop :=
  later w s'.2 ∧
  match r with
  | Ok (s, lock) =>
      lock = Some (p ++ lockFileSuffix) ∧ s'.1 = {[p ++ lockFileSuffix]} ∪ locks ∧
      (∃ rs', view_of rs' = view_of rs ∧ store_ok p 0 rs' [] s s'.2) ∧
      options s = o ∧ closed s = false ∧ compacting s = false ∧
      (v < logVersion → NoMigrationBackup o = false → ∃ c, log_file v rs c ∧
       files s'.2 !! backup_path p v = Some (default c (files w !! backup_path p v)))
  | Err e => (failed w s'.2 ∨ refused p v o e) ∧
             holds_any p (λ m, m = view_of rs) (files s'.2)
  | Crash => failed w s'.2 ∧ holds_any p (λ m, m = view_of rs) (files s'.2)
  | Panic => False
  end.

Lemma holds_any_locking p V w w' :
  locking p w w' → holds_any p V (files w) → holds_any p V (files w').
Proof using Type.
  intros Hlk (v & rs & c & Hs & Hc). exists v, rs, c. by rewrite (locking_survivor _ _ _ Hlk).
Qed.

Lemma opened_holds_any p rs tl fs :
  Forall stored rs → torn_tail tl → on_disk p 0 rs tl fs ∨ on_disk p 0 rs [] fs →
  holds_any p (λ m, m = view_of rs) fs.
Proof using Type.
  intros Hst Htl [Hd|Hd]; (eexists 5, rs, _; split; [exact Hd|]); (split; [|done]);
    apply file_v45; try done; [by right..|apply torn_nil].
Qed.

Lemma wp_open_locked_any p v rs c o w :
  log_file v rs c → survivor p (files w) = Some c → (faults w ≤ 1)%nat →
  wp (open_locked p o) (λ r w', later w w' ∧
    match r with
    | Ok s =>
        (∃ rs', view_of rs' = view_of rs ∧ store_ok p 0 rs' [] s w') ∧
        options s = o ∧ closed s = false ∧ compacting s = false ∧
        (v < logVersion → NoMigrationBackup o = false → ∃ c, log_file v rs c ∧
         files w' !! backup_path p v = Some (default c (files w !! backup_path p v)))
    | Err e => (failed w w' ∨ refused p v o e) ∧ holds_any p (λ m, m = view_of rs) (files w')
    | Crash => failed w w' ∧ holds_any p (λ m, m = view_of rs) (files w')
    | Panic => False
    end) w.
Proof.
  intros Hfile Hdisk Hone.
  assert (1 ≤ v < logVersion ∨ v = 5) as [Hv| ->].
  { unfold logVersion. destruct Hfile as [? ? ? [-> | ->]|]; [left; lia|by right|left; lia]. }
  - eapply wp_mono; [by apply (wp_open_locked_old p v rs c)|].
    intros r w' (_ & Hl & Hr). split; [done|]. destruct r; try done. naive_solver.
  - assert (∃ tl, Forall stored rs ∧ torn_tail tl ∧
      c = header_bytes logVersion 0 0 ++ log_records rs ++ tl) as (tl & Hst & Htl & ->).
    { inversion Hfile; subst; [by exists tl|lia]. }
    eapply wp_mono; [apply (wp_open_locked p 0 rs tl); try done; by left|].
    intros r w' [[_ Hl] Hr]. split; [done|]. destruct r as [s|e| |]; try done.
    + destruct Hr as (Hok & Ho & Hcl & Hco & _). change (0 =? 0) with true in Hok. cbv iota in Hok.
      split; [by exists rs|]. split_and!; try done.
    + destruct Hr as [Hd Hh]. split; [by left|]. by apply (opened_holds_any p rs tl).
    + destruct Hr as [Hd Hh]. split; [done|]. by apply (opened_holds_any p rs tl).
Qed.

Lemma wp_Open_any (p : bytes) (v : Z) (rs : list raw) (c : bytes) (o o' : Options) (locks : gset bytes) (w : world) :
  p ≠ [] → apply_defaults o = Some o' → [] ∉ IndexedFields o' → p ++ lockFileSuffix ∉ locks →
  log_file v rs c → survivor p (files w) = Some c → (faults w ≤ 1)%nat →
  wp (Open p o) (opens_any p v rs o' locks w) (locks, w).
Proof.
  intros Hp Ho Hfields Hfree Hfile Hdisk Hone. apply (wp_Open_free p o o'); try done.
  { intros r w1 Hr Hlk Hl1.
    assert (holds_any p (λ m, m = view_of rs) (files w1)).
    { eapply holds_any_locking; [done|]. by exists v, rs, c. }
    split; [apply Hlk|]. destruct r; try done. by split; [left|]. }
  intros w1 Hlk. pose proof (proj2 Hlk) as Hl1. eapply wp_mono.
  { apply (wp_open_locked_any p v rs c o' w1); [done| |lia].
    by rewrite (locking_survivor _ _ _ Hlk). }
  intros [s|e| |] w2 [Hl2 Hr]; try done.
  - destruct Hr as (Hex & Hopt & Hcl & Hco & Hbak). split; [simpl; lia|]. split_and!; try done.
    intros Hv Hno. destruct (Hbak Hv Hno) as (c' & Hc' & Hf). exists c'. split; [done|].
    cbn [snd]. rewrite Hf. do 2 f_equal. apply Hlk.
    apply (backup_path_ne p v); [|set_solver]. unfold logVersion in Hv.
    inversion Hc' as [? ? ? [?|?]|]; subst; lia.
  - destruct Hr as [Hd Hh]. split; intros L w3 [Hf3 Hl3];
      (split; [simpl; lia|]); (split; [|simpl; by rewrite Hf3]); simpl; [|lia].
    destruct Hd; [left; lia|by right].
  - destruct Hr as [Hd Hh]. intros L. split; [simpl; lia|]. split; [simpl; lia|]. done.
Qed.
End open_any.

(** ** Opening again *)

Section reopening.
Context `{!MapRange}.

(** Any process that opens [p], in whatever format it is by then, finds a map
    that satisfies [V]; attempts that fail, die or are refused, up to [n] of
    them in a row, do not change that. *)
Fixpoint reopens_any (n : nat) (p : bytes) (V : view → Prop) (fs : gmap bytes bytes) : Prop :=
  ∀ o o' (locks : gset bytes) schedule,
    apply_defaults o = Some o' → [] ∉ IndexedFields o' → p ++ lockFileSuffix ∉ locks →
    (faults (World fs schedule) ≤ 1)%nat →
    wp (Open p o) (λ r st,
      let again := match n with O => True | S n => reopens_any n p V (files st.2) end in
      match r with
      | Ok (s, _) => closed s = false ∧ compacting s = false ∧
                     ∃ rs, store_ok p 0 rs [] s st.2 ∧ V (view_of rs)
      | Err e => (failed (World fs schedule) st.2 ∨ ∃ v, refused p v o' e) ∧ again
      | Crash => failed (World fs schedule) st.2 ∧ again
      | Panic => False
      end) (locks, World fs schedule).

Lemma holds_any_reopens n p V fs : p ≠ [] → holds_any p V fs → reopens_any n p V fs.
Proof.
  intros Hp. revert fs. induction n as [|n IH]; intros fs (v & rs & c & Hdisk & Hlog & HV);
    intros o o' locks schedule Ho Hf Hfree Hone;
    (eapply wp_mono; [by eapply (wp_Open_any p v rs c)|]);
    intros [[s l]|e| |] st [_ Hr]; try done; cbn [snd];
    try (destruct Hr as (_ & _ & (rs' & Hview & Hs) & _ & Hcl & Hco & _); split; [done|];
         split; [done|]; exists rs'; by rewrite Hview);
    destruct Hr as [Hd Hh]; (split; [naive_solver|]); try done;
    apply IH; destruct Hh as (v' & rs' & c' & ? & ? & Hv'); exists v', rs', c'; by rewrite Hv'.
Qed.
End reopening.
