(* ===== verification/Downgrade.v ===== *)
(** * Downgrading a log

    downgrade.go: [Downgrade] writes the live records of a log of format 4 or
    5 to a new file in format 3 or 4, under a temporary name, and renames it
    into place.  Also the command-line program around it
    (cmd/appendstore-downgrade/main.go). *)

From S2P Require Import Prelude Go Attributes Reader Record Index Legacy FileSystem Log.
From S2P Require Import Lock Store Compact.
#[local] Open Scope Z_scope.

Definition downgradeTempSuffix : bytes := str ".downgrade.tmp".

Record DowngradeOptions := { Version : Z; Overwrite : bool }.

(** ** bufio.Writer, on an open file
    Data waits in a buffer of [bufferSize] bytes; the first write error sticks,
    and nothing is written after it.  [bw_pos] is the file's position. *)

Record Writer := { bw_buf : bytes; bw_err : option error; bw_pos : Z }.

Definition bufferSize : Z := Eval cbv in Z.shiftl 1 20.
Definition NewWriter : Writer := {| bw_buf := []; bw_err := None; bw_pos := 0 |}.

(** [b.err] after [b.wr.Write(data)]; [kept] is what stays buffered. *)
Definition bw_out (file data kept : bytes) : M (Writer * world) unit := λ s,
  match f_WriteAt file (bw_pos s.1) data s.2 with
  | (Ok _, w) =>
      (Ok tt, ({| bw_buf := kept; bw_err := None; bw_pos := bw_pos s.1 + len data |}, w))
  | (Err e, w) =>
      (Err e, ({| bw_buf := bw_buf s.1; bw_err := Some e; bw_pos := bw_pos s.1 |}, w))
  | (Panic, w) => (Panic, (s.1, w))
  | (Crash, w) => (Crash, (s.1, w))
  end.

Definition bw_Flush (file : bytes) : M (Writer * world) unit := λ s,
  match bw_err s.1 with
  | Some e => (Err e, s)
  | None => if len (bw_buf s.1) =? 0 then (Ok tt, s) else bw_out file (bw_buf s.1) [] s
  end.

(** The loop of [Write] runs at most twice: a full buffer is flushed, and a
    remainder larger than the buffer is written directly. *)
Definition bw_Write (file data : bytes) : M (Writer * world) unit := λ s,
  match bw_err s.1 with
  | Some e => (Err e, s)
  | None =>
      let room := bufferSize - len (bw_buf s.1) in
      if len data <=? room then
        (Ok tt, ({| bw_buf := bw_buf s.1 ++ data; bw_err := None; bw_pos := bw_pos s.1 |}, s.2))
      else if len (bw_buf s.1) =? 0 then bw_out file data [] s
      else
        let rest := drop (Z.to_nat room) data in
        (bw_out file (bw_buf s.1 ++ take (Z.to_nat room) data) [];;
         if len rest <=? bufferSize then
           modify (λ s : Writer * world,
             ({| bw_buf := rest; bw_err := None; bw_pos := bw_pos s.1 |}, s.2))
         else bw_out file rest []) s
  end.

(** ** The output, next to the log that is read
    A callback of [forEachLiveRecord] works on an output [U] and shares the
    disk with the log. *)

Definition on_out {U A} (m : M (U * world) A) : M (U * LS) A := λ s,
  let '(u, (l, w)) := s in
  let '(r, (u', w')) := m (u, w) in (r, (u', (l, w'))).

(** Run a body that uses an output held in a local variable. *)
Definition with_out {U A} (u : U) (m : M (U * LS) A) : M LS (A * U) := λ s,
  match m (u, s) with
  | (Ok a, (u', s')) => (Ok (a, u'), s')
  | (Err e, (_, s')) => (Err e, s')
  | (Panic, (_, s')) => (Panic, s')
  | (Crash, (_, s')) => (Crash, s')
  end.

Section downgrade.
Context `{!MapRange}.

Fixpoint forEachLiveRecord_loop {U} (live : index)
    (fn : bytes → bytes → bytes → attrs → M (U * LS) unit) (keys : list bytes)
    : M (U * LS) unit :=
  match keys with
  | [] => mret tt
  | key :: keys =>
      match idx_Get key live with
      | None => forEachLiveRecord_loop live fn keys
      | Some entry =>
          '(value, extensions) ← wrap "read key"
            (on_snd (ReadRecordAndExtensionsAt (RecordOffset entry) (StoredSize entry)));
          fn key value extensions (Attributes entry);;
          forEachLiveRecord_loop live fn keys
      end
  end.
Definition forEachLiveRecord {U} (live : index)
    (fn : bytes → bytes → bytes → attrs → M (U * LS) unit) : M (U * LS) unit :=
  let '(keys, live) := KeysSortedByOffset live in
  forEachLiveRecord_loop live fn keys.

(** ** Version 4 *)

Definition v4_record (key value extensions : bytes) (attributes : attrs)
    : M (appendLog * LS) unit :=
  if 0 <? len extensions then
    throw (Errorf "key carries an extension that version 4 cannot express" [])
  else
    on_out (Append key value false attributes []);;
    mret tt.

Definition writeV4Log (live : index) (tmp : bytes) : M LS unit :=
  out ← on_snd (createAppendLogMode tmp);
  '(r, out) ← with_out out (attempt (
     forEachLiveRecord live v4_record;;
     on_out (setVersion 4)));
  match r with
  | inl err => on_snd (ignore (with_log out log_Close));; throw err
  | inr _ => '(_, _) ← on_snd (with_log out log_Close); mret tt
  end.

(** ** Version 3 *)

Definition v3_header : bytes := logMagic ++ put32 3 ++ replicate 8 Byte.x00.

Definition v3_record (tmp key value extensions : bytes) (attributes : attrs)
    : M (Writer * LS) unit :=
  record ← lift (encodeV3Record key value extensions attributes);
  ignore (on_out (bw_Write tmp record)).

Definition writeV3Log (live : index) (tmp : bytes) : M LS unit :=
  on_snd (os_OpenTrunc tmp);;
  '(r, _) ← with_out NewWriter (attempt (
     ignore (on_out (bw_Write tmp v3_header));;
     forEachLiveRecord live (v3_record tmp);;
     on_out (bw_Flush tmp);;
     on_snd (on_snd (f_Sync tmp))));
  match r with
  | inl err => on_snd (ignore (f_Close tmp));; throw err
  | inr _ => on_snd (f_Close tmp)
  end.

(** ** Downgrade *)

(** The callback of the scan: the index of the live records. *)
Definition downgrade_record (record : logRecord) (live : index) : index :=
  if rDeleted record then idx_Delete (rKey record) live
  else idx_Put (rKey record) (record_entry record) live.

(** From the moment the log is open. *)
Definition downgrade_log (dst : bytes) (target : Z) : M LS unit :=
  l ← the_log;
  if version l <? 4 then throw (Errorf "log is already of an older version" []) else
  if negb (Z.lor (incompatibleFeatures l) (readOnlyFeatures l) =? 0) then
    throw (Errorf "log sets feature bits that the version cannot express" [])
  else
  '(_, live) ← with_out (newIndex []) (Iterate (λ record, modify (downgrade_record record)));
  let tmp := dst ++ downgradeTempSuffix in
  on_snd (removeIfExists tmp);;
  on_err (if target =? 4 then writeV4Log live tmp else writeV3Log live tmp)
    (on_snd (ignore (os_Remove tmp)));;
  on_snd (or_remove tmp (os_Rename tmp dst));;
  on_snd (syncParentDirectory dst).

(** From the moment the lock is held. *)
Definition downgrade_locked (src dst : bytes) (target : Z) : M world unit :=
  log ← openAppendLog src;
  '(_, _) ← with_log log (deferred (downgrade_log dst target) log_Close);
  mret tt.

Definition Downgrade (src dst : bytes) (options : DowngradeOptions) : M OS unit :=
  let version := Version options in
  if negb (version =? 3) && negb (version =? 4) then
    throw (Errorf "unsupported downgrade target version" [])
  else if bool_decide (src = dst) then
    throw (Errorf "downgrade destination must differ from the source" [])
  else
  (if Overwrite options then mret tt else
   r ← attempt (on_snd (os_Stat dst));
   match r with
   | inr _ => throw (Errorf "downgrade destination already exists" [])
   | inl err => if negb (errors_Is err ErrNotExist) then throw err else mret tt
   end);;
  lock ← acquireFileLock src;
  deferred (on_snd (downgrade_locked src dst version)) (release lock).

(** ** The command-line program
    The flags as package flag has parsed them: [-to] (an unsigned 64-bit
    number), [-f] and the remaining arguments.  The result is the exit code. *)

Definition main (to : Z) (f : bool) (args : list bytes) : M OS Z :=
  match args with
  | [source; destination] =>
      r ← attempt (Downgrade source destination {| Version := uint32 to; Overwrite := f |});
      match r with
      | inl _ => mret 1
      | inr _ => mret 0
      end
  | _ => mret 2
  end.
End downgrade.
