(* ===== verification/DowngradeSpec.v ===== *)
(** * What Downgrade writes

    Whatever fails, the destination is either as it was or a complete log of
    the target format, and the source keeps its records.  A complete log holds
    the live map of the source: exactly, in format 4; with the attributes a
    version 3 record has fields for, in format 3. *)

From S2P Require Import Prelude Go Crc32c Attributes Reader Record Index Cache Strconv Legacy.
From S2P Require Import FileSystem Log LogSpec Scan Opening Lock Store StoreSpec Compact.
From S2P Require Import CompactSpec Lifecycle LifecycleSpec Contract Durability Migration.
From S2P Require Import Downgrade.
#[local] Open Scope Z_scope.

(** ** Rules for the output *)

Section rules.
Context {U : Type}.

Lemma wp_on_out {A} (m : M (U * world) A) (Q : res A → U * LS → Prop) u l w :
  wp m (λ r s', Q r (s'.1, (l, s'.2))) (u, w) → wp (on_out m) Q (u, (l, w)).
Proof. unfold wp, on_out. by destruct (m (u, w)) as [? []]. Qed.

Lemma wp_with_out {A} u (m : M (U * LS) A) (Q : res (A * U) → LS → Prop) s :
  wp m (λ r s', match r with
                | Ok a => Q (Ok (a, s'.1)) s'.2
                | Err e => Q (Err e) s'.2
                | Panic => Q Panic s'.2
                | Crash => Q Crash s'.2
                end) (u, s) →
  wp (with_out u m) Q s.
Proof. unfold wp, with_out. by destruct (m (u, s)) as [[] []]. Qed.
End rules.

(** ** The loop over the live records *)

Section each.
Context `{!MapRange} {U : Type} (fn : bytes → bytes → bytes → attrs → M (U * LS) unit).
Context (idx : index) (src pre : bytes) (m : kv) (l : appendLog).
Context (I : list bytes → U → world → Prop) (Q : res unit → U * LS → Prop).
Context (Hag : index_agrees pre (entries idx) m).
Context (I_log : ∀ ks u w, I ks u w → log_ok src pre [] l w).
Context (I_read : ∀ ks u w w', I ks u w → becomes w (files w) w' → I ks u w').
Context (Q_read : ∀ ks u w w' r, I ks u w → fails w (files w) w' → broken r → Q r (u, (l, w'))).
Context (fn_ok : ∀ ks k rec u w, m !! k = Some rec → stored rec → raw_key rec = k → I ks u w →
  wp (fn k (raw_value rec) (raw_extensions rec) (raw_attrs rec))
    (λ r s', match r with
             | Ok _ => s'.2.1 = l ∧ I (ks ++ [k]) s'.1 s'.2.2
             | r => Q r s'
             end) (u, (l, w))).
#[local] Set Default Proof Using "All".

Lemma wp_each_loop idx' ks ks' u w :
  entries idx' = entries idx → (∀ k, k ∈ ks' → is_Some (m !! k)) → I ks u w →
  (∀ u' w', I (ks ++ ks') u' w' → Q (Ok tt) (u', (l, w'))) →
  wp (forEachLiveRecord_loop idx' fn ks') Q (u, (l, w)).
Proof.
  intros Hidx. revert ks u w. induction ks' as [|k ks' IH]; intros ks u w Hks HI HQ;
    cbn [forEachLiveRecord_loop].
  { apply wp_ret, HQ. by rewrite app_nil_r. }
  destruct (Hks k) as [rec Hrec]; [set_solver|].
  destruct (index_agrees_lookup _ _ _ k Hag)
    as [[_ ?]|(e & r1 & He & Hr1 & (Hk & Hst & a & z & Hpre & -> & _))]; [congruence|].
  assert (r1 = rec) as -> by congruence. unfold idx_Get. rewrite Hidx, He.
  apply wp_bind, wp_wrap, wp_zoom. cbn [fst snd]. eapply wp_mono.
  { eapply (wp_ReadRecordAndExtensionsAt src pre [] a z rec);
      [by eapply I_log|done|by apply stored_fits]. }
  intros r [l' w1] (Hl' & Hw1 & Hr). cbn [fst snd] in *. subst l'.
  destruct r as [[v x]|err| |]; try done.
  - injection Hr as -> ->. apply wp_bind. cbn [Attributes entry_at record_entry rAttributes scanned].
    eapply wp_mono; [by apply (fn_ok ks k rec); eauto|].
    intros [[]|e2| |] [u2 [l2 w2]] Hr2; cbn [fst snd] in *; try done.
    destruct Hr2 as [-> HI2]. apply (IH (ks ++ [k])); [set_solver|done|].
    intros u' w' HI'. apply HQ. by rewrite <- app_assoc in HI'.
  - destruct Hr as [-> Hl]. eapply Q_read; [done| |done]. by split; [apply Hw1|].
  - eapply Q_read; [done| |done]. by split; [apply Hw1|].
Qed.

(** The keys are visited in disk order. *)
Lemma wp_each u w :
  idx_inv idx → I [] u w →
  (∀ ks u' w', NoDup ks → (∀ k, k ∈ ks ↔ is_Some (m !! k)) →
    length ks = size m → I ks u' w' → Q (Ok tt) (u', (l, w'))) →
  wp (forEachLiveRecord idx fn) Q (u, (l, w)).
Proof.
  intros Hinv HI HQ. unfold forEachLiveRecord.
  destruct (KeysSortedByOffset_ok idx Hinv) as (Hord & _ & He & _).
  destruct (KeysSortedByOffset idx) as [ks idx']. cbn [fst snd] in *.
  destruct (disk_order_keys _ m ks Hord (index_agrees_dom _ _ _ Hag)) as (Hnd & Hks & Hlen).
  apply (wp_each_loop idx' []); [done|by intros k; apply Hks|done|].
  intros u' w' HI'. by apply (HQ ks).
Qed.
End each.

(** ** Writing the output *)

(** The outcome of writing a file with contents in [C] under the name [tmp];
    [bad] says that some record cannot be written in the target format. *)
Definition output (tmp : bytes) (C : bytes → Prop) (bad : Prop) (l : appendLog) (w : world)
    (r : res unit) (s' : LS) : Prop :=
  s'.1 = l ∧ only tmp w s'.2 ∧
  match r with
  | Ok _ => ∃ c, C c ∧ files s'.2 !! tmp = Some c
  | Err _ => failed w s'.2 ∨ bad
  | Crash => failed w s'.2
  | Panic => False
  end.

Lemma output_broken tmp C bad l w r w' :
  broken r → only tmp w w' → failed w w' → output tmp C bad l w r (l, w').
Proof. intros Hr Ho Hd. split; [done|]. split; [done|]. destruct r; try done. by left. Qed.

Lemma reopened_files p v c l w w' :
  reopened p v c l w → files w' !! p = files w !! p → reopened p v c l w'.
Proof.
  intros [Hlog Hre] Hf. split; [|done]. eapply log_ok_world; [done|]. rewrite Hf. apply Hlog.
Qed.

Lemma reopened_file p v c l w : reopened p v c l w → files w !! p = Some c.
Proof. intros [Hlog _]. pose proof (lo_file _ _ _ _ _ Hlog) as Hf. by rewrite app_nil_r in Hf. Qed.

(** [out.Close()], and the result of the whole. *)
Lemma wp_close_output tmp C bad l out w0 w (r : error + unit) :
  only tmp w0 w → file_open out = true ∨ r ≠ inr tt →
  match r with
  | inr _ => ∃ c, C c ∧ files w !! tmp = Some c
  | inl _ => failed w0 w ∨ bad
  end →
  wp (match r with
      | inl err => on_snd (ignore (with_log out log_Close));; throw err
      | inr _ => '(_, _) ← on_snd (with_log out log_Close); mret tt
      end) (output tmp C bad l w0) (l, w).
Proof.
  intros Hon Ho Hr. destruct r as [err|[]].
  - apply wp_bind, wp_zoom, wp_close_any; cbn [fst snd].
    + intros w1 Hw1. apply wp_throw. pose proof (only_trans _ _ _ _ Hon (only_becomes tmp _ _ Hw1)).
      split; [done|]. split; [done|]. destruct Hw1, Hr; [left; simpl; lia|by right].
    + intros w1 Hw1. apply output_broken; [done| |destruct Hon, Hw1; lia].
      eapply only_trans; [done|]. by apply only_becomes, fails_becomes.
  - destruct Ho as [Ho|?]; [|done].
    apply wp_bind, wp_zoom, wp_with_log, wp_log_Close; [done|..]; cbn [fst snd].
    + intros w1 Hw1. apply wp_ret. pose proof (only_trans _ _ _ _ Hon (only_becomes tmp _ _ Hw1)).
      split; [done|]. split; [done|]. cbn [snd]. by rewrite (proj1 Hw1).
    + intros w1 Hw1. assert (only tmp w0 w1 ∧ failed w0 w1) as [? ?].
      { split; [|destruct Hon, Hw1; lia].
        eapply only_trans; [done|]. by apply only_becomes, fails_becomes. }
      split; [|intros _]; by apply output_broken.
Qed.

Section v4.
Context `{!MapRange} (src tmp pre : bytes) (m : kv) (idx : index) (l : appendLog) (w0 : world).
Context (Hag : index_agrees pre (entries idx) m) (Hinv : idx_inv idx).
Context (Hne : src ≠ tmp) (Hlog : log_ok src pre [] l w0).
#[local] Set Default Proof Using "All".

Definition v4_content (c : bytes) : Prop :=
  ∃ rs', rewrites m rs' ∧ c = header_bytes 4 0 0 ++ log_records rs' ∧
    ∀ k rec, m !! k = Some rec → raw_extensions rec = [].

Definition v4_bad : Prop := ∃ k rec, m !! k = Some rec ∧ raw_extensions rec ≠ [].

Definition v4_state (ks : list bytes) (out : appendLog) (w : world) : Prop :=
  only tmp w0 w ∧ reopened tmp logVersion (fresh_header ++ log_records (rewrite_keys m ks)) out w ∧
  Forall stored (rewrite_keys m ks) ∧
  ∀ k rec, k ∈ ks → m !! k = Some rec → raw_extensions rec = [].

(** What holds on the way out of the body. *)
Definition v4_post (r : res unit) (s' : appendLog * LS) : Prop :=
  s'.2.1 = l ∧ only tmp w0 s'.2.2 ∧
  match r with
  | Ok _ => file_open s'.1 = true ∧ ∃ c, v4_content c ∧ files s'.2.2 !! tmp = Some c
  | Err _ => failed w0 s'.2.2 ∨ v4_bad
  | Crash => failed w0 s'.2.2
  | Panic => False
  end.

Lemma v4_record_ok ks k rec out w :
  m !! k = Some rec → stored rec → raw_key rec = k → v4_state ks out w →
  wp (v4_record k (raw_value rec) (raw_extensions rec) (raw_attrs rec))
    (λ r s', match r with
             | Ok _ => s'.2.1 = l ∧ v4_state (ks ++ [k]) s'.1 s'.2.2
             | r => v4_post r s'
             end) (out, (l, w)).
Proof.
  intros Hrec Hst <- (Hon & (Hout & Hv & Hi & Hro) & Hall & Hext). unfold v4_record.
  destruct (Z.ltb_spec 0 (len (raw_extensions rec))) as [Hx|Hx].
  { apply wp_throw. split; [done|]. split; [done|]. right. eexists _, _. split; [done|].
    intros Hnil. rewrite Hnil in Hx. simpl in Hx. lia. }
  assert (raw_extensions rec = []) as Hnil by (destruct (raw_extensions rec); [done|simpl in Hx; lia]).
  pose proof (stored_append_ok rec Hst) as Hap. rewrite Hnil in Hap.
  apply wp_bind, wp_on_out. eapply wp_mono.
  { eapply (wp_Append (raw_key rec) (raw_value rec) false (raw_attrs rec) [] tmp);
      [done|by rewrite unknown_is_mask|done|done]. }
  assert (entry false (raw_key rec) (raw_value rec) (raw_attrs rec) [] = rewritten rec) as ->
    by (unfold rewritten; by rewrite Hnil).
  intros [ap|err| |] [out' w1] (Hoth & Hl1 & Hr); cbn [fst snd] in *; try done;
    assert (only tmp w w1) as Hon1 by (by split); pose proof (only_trans _ _ _ _ Hon Hon1) as Hon2.
  - destruct Hr as (_ & (Hv' & Hi' & Hro' & _) & Hlog'). apply wp_ret. cbn [fst snd].
    rewrite drop_nil in Hlog'. split; [done|]. split; [done|].
    rewrite rewrite_keys_snoc with (r:=rec) by done. split_and!.
    + unfold reopened. rewrite log_records_snoc, app_assoc. split_and!; [done|congruence..].
    + apply Forall_app. split; [done|]. constructor; [|done]. by apply rewritten_stored.
    + intros k' rec' Hk'. apply elem_of_app in Hk' as [Hk'|Hk']; [by apply Hext|].
      apply list_elem_of_singleton in Hk' as ->. congruence.
  - destruct Hr as (_ & Hd & _). split; [done|]. split; [done|]. left. destruct Hon. simpl. lia.
  - destruct Hr as (Hd & _). split; [done|]. split; [done|]. destruct Hon. simpl. lia.
Qed.

Lemma wp_v4_body out w :
  v4_state [] out w →
  wp (forEachLiveRecord idx v4_record;; on_out (setVersion 4)) v4_post (out, (l, w)).
Proof.
  intros Hst. apply wp_bind.
  apply (wp_each v4_record idx src pre m l v4_state); try done.
  - intros ks u w1 (Hon & _). eapply log_ok_world; [done|].
    rewrite (proj1 Hon src Hne). apply Hlog.
  - intros ks u w1 w2 (Hon & Hre & Hall) Hw. split; [|split; [|done]].
    + eapply only_trans; [done|]. by apply only_becomes.
    + eapply reopened_files; [done|]. by rewrite (proj1 Hw).
  - intros ks u w1 w2 r (Hon & _) Hw Hr.
    assert (only tmp w0 w2 ∧ failed w0 w2) as [? ?].
    { split; [|destruct Hon, Hw; lia].
      eapply only_trans; [done|]. by apply only_becomes, fails_becomes. }
    destruct r; try done. split; [done|]. split; [done|]. by left.
  - intros ks k rec u w1 Hrec Hsto Hk HI. eapply wp_mono; [by apply (v4_record_ok ks k rec)|].
    by intros [] ?.
  - intros ks out' w1 Hnd Hks Hlen (Hon & (Hout & Hv & Hi & Hro) & Hall & Hext).
    apply wp_on_out, (wp_setVersion tmp logVersion 4 (log_records (rewrite_keys m ks)));
      [by right|by left|done|done|done|..]; cbn [fst snd].
    + intros w2 Hw2. split; [done|]. split; [eapply only_trans; [done|by eapply only_insert]|].
      split; [apply Hout|]. eexists. split; [|cbn [fst snd]; by rewrite (proj1 Hw2), lookup_insert_eq].
      exists (rewrite_keys m ks). split; [|split; [done|]].
      * split; [done|]. split; [|by rewrite length_rewrite_keys; [|intros; by apply Hks]].
        apply live_rewrite_all; [|done]. intros k r Hr.
        destruct (index_agrees_lookup _ _ _ k Hag) as [[_ ?]|(e & r' & _ & Hr' & (Hk & _))]; congruence.
      * intros k rec Hk. apply (Hext k); [|done]. apply Hks. eauto.
    + intros v' u w2 _ Hw2. assert (only tmp w0 w2 ∧ failed w0 w2) as [? ?].
      { split; [|destruct Hon, Hw2; lia]. eapply only_trans; [done|].
        by eapply only_insert, fails_becomes. }
      split; (split; [done|]); (split; [done|]); [by left|done].
Qed.

Lemma wp_writeV4Log : wp (writeV4Log idx tmp) (output tmp v4_content v4_bad l w0) (l, w0).
Proof.
  unfold writeV4Log. apply wp_bind, wp_zoom. eapply wp_mono; [apply wp_createAppendLogMode|].
  intros r w1 (Ho1 & Hl1 & Hr). cbn [fst snd] in *. assert (only tmp w0 w1) as Hon1 by (by split).
  destruct r as [out|e| |]; try done; [|by apply output_broken; [| |apply Hr]..].
  destruct Hr as (Hout & Hv & Hi & Hro).
  assert (v4_state [] out w1) as Hst.
  { split; [done|]. split; [|split; [constructor|set_solver]].
    split_and!; [|done..]. change (log_records (rewrite_keys m [])) with (@nil byte).
    by rewrite app_nil_r. }
  apply wp_bind, wp_with_out, wp_attempt. eapply wp_mono; [by apply wp_v4_body|].
  intros r [out' [l' w2]] (Hl' & Hon2 & Hr); cbn [fst snd] in *. subst l'.
  destruct r as [[]|e| |]; try done; cbn [fst snd].
  - destruct Hr as [Ho Hc]. by apply (wp_close_output _ _ _ l out' w0 w2 (inr ())); [|left|].
  - by apply (wp_close_output _ _ _ l out' w0 w2 (inl e)); [|right|].
Qed.
End v4.

(** ** The buffered writer *)

Lemma wp_bw_out tmp x kept b w c (Q : res unit → Writer * world → Prop) :
  files w !! tmp = Some c → bw_pos b = len c →
  (∀ w', becomes w (<[tmp := c ++ x]> (files w)) w' →
    Q (Ok tt) ({| bw_buf := kept; bw_err := None; bw_pos := bw_pos b + len x |}, w')) →
  (∀ d w', fails w (<[tmp := d]> (files w)) w' →
    Q (Err EIO) ({| bw_buf := bw_buf b; bw_err := Some EIO; bw_pos := bw_pos b |}, w') ∧
    Q Crash (b, w')) →
  wp (bw_out tmp x kept) Q (b, w).
Proof.
  intros Hf Hpos HOk HFail.
  assert (∀ y, write_bytes (bw_pos b) y (content tmp w) = c ++ y) as Hwr.
  { intros y. unfold content. rewrite Hf. simpl. rewrite <- (app_nil_r c) at 1.
    rewrite write_bytes_end by done. by rewrite drop_nil, app_nil_r. }
  assert (wp (f_WriteAt tmp (bw_pos b) x) (λ r w', match r with
      | Ok _ => becomes w (<[tmp := c ++ x]> (files w)) w'
      | Err e => e = EIO ∧ ∃ d, fails w (<[tmp := d]> (files w)) w'
      | Crash => ∃ d, fails w (<[tmp := d]> (files w)) w'
      | Panic => False end) w) as Hrun.
  { apply wp_WriteAt; intros *; rewrite Hwr; [done|]. intros Hw. split; [split; [done|]|]; eauto. }
  unfold wp, bw_out in *. cbn [fst snd].
  destruct (f_WriteAt tmp (bw_pos b) x w) as [[[]|e| |] w']; cbn [fst snd] in *; try done.
  - by apply HOk.
  - destruct Hrun as [-> [d Hd]]. by apply (HFail d).
  - destruct Hrun as [d Hd]. by apply (HFail d).
Qed.

(** The writer has been given [data] since [w0]: it is in the file or in the
    buffer, unless a write failed. *)
Definition bw_holds (tmp data : bytes) (w0 : world) (b : Writer) (w : world) : Prop :=
  only tmp w0 w ∧
  match bw_err b with
  | None => ∃ c, files w !! tmp = Some c ∧ bw_pos b = len c ∧ data = c ++ bw_buf b ∧
                 len (bw_buf b) ≤ bufferSize
  | Some _ => failed w0 w
  end.

Definition bw_takes (tmp data : bytes) (w0 : world) (r : res unit) (s' : Writer * world) : Prop :=
  match r with
  | Ok _ | Err _ => bw_holds tmp data w0 s'.1 s'.2
  | Crash => only tmp w0 s'.2 ∧ failed w0 s'.2
  | Panic => False
  end.

Lemma only_failed_insert p d w0 w w' :
  only p w0 w → fails w (<[p := d]> (files w)) w' → only p w0 w' ∧ failed w0 w'.
Proof.
  intros Ho Hw. split; [|destruct Ho, Hw; lia].
  eapply only_trans; [done|]. by eapply only_insert, fails_becomes.
Qed.

Lemma wp_bw_Write tmp data w0 b w x :
  bw_holds tmp data w0 b w →
  wp (bw_Write tmp x) (bw_takes tmp (data ++ x) w0) (b, w).
Proof.
  intros [Ho Hb]. unfold bw_Write, wp at 1. cbn [fst snd].
  destruct (bw_err b) as [e|] eqn:He.
  { simpl. split; [done|]. by rewrite He. }
  destruct Hb as (c & Hf & Hpos & -> & Hlen).
  destruct (Z.leb_spec (len x) (bufferSize - len (bw_buf b))) as [Hfit|Hbig].
  { simpl. split; [done|]. simpl. exists c. rewrite app_assoc. split_and!; try done. len_lia. }
  assert (∀ y kept b1 w1 c1, only tmp w0 w1 → files w1 !! tmp = Some c1 → bw_pos b1 = len c1 →
    len kept ≤ bufferSize →
    wp (bw_out tmp y kept) (bw_takes tmp (c1 ++ y ++ kept) w0) (b1, w1)) as Hout.
  { intros y kept b1 w1 c1 Ho1 Hf1 Hp1 Hk. apply (wp_bw_out tmp y kept b1 w1 c1); try done.
    - intros w2 Hw2. split; [eapply only_trans; [done|by eapply only_insert]|]. simpl.
      exists (c1 ++ y). rewrite (proj1 Hw2), lookup_insert_eq, <- app_assoc.
      split_and!; try done. len_lia.
    - intros d w2 Hw2. destruct (only_failed_insert _ _ _ _ _ Ho1 Hw2). by split; [split|]. }
  destruct (Z.eqb_spec (len (bw_buf b)) 0) as [Hz|Hnz].
  { assert (bw_buf b = []) as -> by (destruct (bw_buf b); [done|simpl in Hz; lia]).
    rewrite app_nil_r. specialize (Hout x [] b w c Ho Hf Hpos ltac:(done)).
    by rewrite app_nil_r in Hout. }
  set (room := Z.to_nat (bufferSize - len (bw_buf b))).
  change (wp (bw_out tmp (bw_buf b ++ take room x) [];;
    if len (drop room x) <=? bufferSize then
      modify (λ s : Writer * world,
        ({| bw_buf := drop room x; bw_err := None; bw_pos := bw_pos s.1 |}, s.2))
    else bw_out tmp (drop room x) []) (bw_takes tmp ((c ++ bw_buf b) ++ x) w0) (b, w)).
  apply wp_bind, (wp_bw_out _ _ _ b w c); [done|done|..].
  2:{ intros d w1 Hw1. destruct (only_failed_insert _ _ _ _ _ Ho Hw1). by split; [split|]. }
  intros w1 Hw1. assert (only tmp w0 w1) as Ho1 by (eapply only_trans; [done|by eapply only_insert]).
  assert ((c ++ bw_buf b) ++ x = (c ++ bw_buf b ++ take room x) ++ drop room x) as Hsplit
    by (by rewrite <- !app_assoc, take_drop).
  assert (files w1 !! tmp = Some (c ++ bw_buf b ++ take room x)) as Hf1
    by (by rewrite (proj1 Hw1), lookup_insert_eq).
  assert (bw_pos b + len (bw_buf b ++ take room x) = len (c ++ bw_buf b ++ take room x)) as Hp1
    by (rewrite (length_app c); lia).
  rewrite Hsplit. destruct (Z.leb_spec (len (drop room x)) bufferSize) as [Hle|Hgt].
  - unfold wp, modify. simpl. split; [done|]. simpl. by eexists.
  - specialize (Hout (drop room x) [] {| bw_buf := []; bw_err := None; bw_pos := _ |} w1 _
      Ho1 Hf1 Hp1 ltac:(done)). by rewrite app_nil_r in Hout.
Qed.

Lemma wp_bw_Flush tmp data w0 b w :
  bw_holds tmp data w0 b w →
  wp (bw_Flush tmp) (λ r s', only tmp w0 s'.2 ∧
    match r with
    | Ok _ => files s'.2 !! tmp = Some data
    | Err _ | Crash => failed w0 s'.2
    | Panic => False
    end) (b, w).
Proof.
  intros [Ho Hb]. unfold bw_Flush, wp at 1. cbn [fst snd].
  destruct (bw_err b) as [e|] eqn:He; [done|]. destruct Hb as (c & Hf & Hpos & -> & Hlen).
  destruct (Z.eqb_spec (len (bw_buf b)) 0) as [Hz|Hnz].
  { assert (bw_buf b = []) as -> by (destruct (bw_buf b); [done|simpl in Hz; lia]).
    simpl. by rewrite app_nil_r. }
  apply (wp_bw_out tmp (bw_buf b) [] b w c); [done|done|..].
  - intros w1 Hw1. split; [eapply only_trans; [done|by eapply only_insert]|]. simpl.
    by rewrite (proj1 Hw1), lookup_insert_eq.
  - intros d w1 Hw1. by destruct (only_failed_insert _ _ _ _ _ Ho Hw1).
Qed.

(** ** Version 3 records *)

(** What a version 3 field holds of the attributes [m]. *)
Definition v3_value (m : attrs) (name : bytes) : bytes :=
  if decide (name = legacyTotalSizeAttribute ∨ name = legacyAddedOnAttribute) then
    match v3Number m name with Ok z => FormatInt z | _ => [] end
  else if decide (name = legacyBadAttribute) then
    match v3Flag m with Ok b => FormatBool b | _ => [] end
  else attribute m name.

(** The attributes a version 3 log comes back with: every field, the numbers
    and the flag in canonical form. *)
Definition v3_attrs (m : attrs) : attrs :=
  list_to_map ((λ name, (name, v3_value m name)) <$> v3Fields).

Lemma v3_attrs_lookup m name :
  v3_attrs m !! name = if decide (name ∈ v3Fields) then Some (v3_value m name) else None.
Proof.
  unfold v3_attrs.
  assert (((λ name, (name, v3_value m name)) <$> v3Fields).*1 = v3Fields) as Hkeys
    by (by rewrite <- list_fmap_compose, list_fmap_id).
  case_decide as Hin.
  - apply elem_of_list_to_map_1.
    + rewrite Hkeys. by apply (bool_decide_unpack _); vm_compute.
    + apply list_elem_of_fmap. eauto.
  - apply not_elem_of_list_to_map_1. by rewrite Hkeys.
Qed.

(** The version 3 record of [rec]. *)
Definition v3_of (rec : raw) (g : legacy) : Prop :=
  lg_ok g ∧ lg_key g = raw_key rec ∧ lg_value g = raw_value rec ∧ lg_deleted g = false ∧
  lg_attributes 3 g = v3_attrs (raw_attrs rec).

Section v3_records.
Context `{!MapRange}.

Lemma v3_number_returns m name : returns (v3Number m name).
Proof using Type.
  assert (∀ s n, returns (parse_digits s n)) as Hdig.
  { induction s as [|c s IH]; intros n; simpl; [done|]. repeat (case_match; try done). }
  assert (returns (ParseInt (attribute m name))) as Hr.
  { unfold ParseInt. destruct (attribute m name) as [|c s]; [done|].
    destruct (if bool_decide (c = Byte.x2b) then _ else _) as [neg s'].
    apply returns_bind; [unfold ParseUint; by case_bool_decide|].
    intros un _. by repeat case_match. }
  unfold v3Number. case_bool_decide; [done|]. by destruct (ParseInt (attribute m name)).
Qed.

Lemma encodeV3Record_returns key value ext m : returns (encodeV3Record key value ext m).
Proof.
  unfold encodeV3Record. do 3 (case_match; [done|]).
  apply returns_bind; [apply v3_number_returns|]. intros total _.
  apply returns_bind; [apply v3_number_returns|]. intros added _.
  apply returns_bind; [|done]. case_bool_decide; [done|]. unfold ParseBool. by repeat case_match.
Qed.

Lemma encodeV3Record_of rec b :
  stored rec →
  encodeV3Record (raw_key rec) (raw_value rec) (raw_extensions rec) (raw_attrs rec) = Ok b →
  ∃ g, b = lg_record 3 g ∧ v3_of rec g.
Proof.
  intros (_ & (Hk & _ & Hv & _) & _) Henc.
  destruct (encodeV3Record_inv _ _ _ _ _ Henc Hk Hv)
    as (total & added & bad & Ht & Ha & Hb & _ & _ & Hok & ->).
  eexists. split; [done|]. split_and!; try done; [by destruct bad|].
  apply map_eq. intros name. rewrite lg_attribute_lookup, v3_attrs_lookup. unfold v3_value.
  destruct (decide (name ∈ v3Fields)) as [Hin|Hnin].
  - cbn [lg_added lg_flags lg_protocol lg_category lg_provider lg_status lg_name lg_total].
    repeat (apply elem_of_cons in Hin as [->|Hin];
      [repeat (first [rewrite decide_True by first [done|by left|by right]
                     |rewrite decide_False by first [done|intros [?|?]; done]]);
       rewrite ?Ht, ?Ha, ?Hb; first [done|by destruct bad]|]).
    by apply elem_of_nil in Hin.
  - repeat (rewrite decide_False by (intros ->; apply Hnin; set_solver)). done.
Qed.

(** The map of a version 3 log whose records are those of [m]. *)
Lemma v3_log_view (m : kv) ks gs k :
  (∀ k rec, m !! k = Some rec → raw_key rec = k) →
  Forall2 (λ k g, ∃ rec, m !! k = Some rec ∧ v3_of rec g) ks gs →
  view_of (lg_raw 3 <$> gs) !! k =
  if decide (k ∈ ks) then (λ rec, (raw_value rec, v3_attrs (raw_attrs rec))) <$> m !! k else None.
Proof using Type.
  intros Hkey. revert gs. induction ks as [|k' ks IH] using rev_ind; intros gs Hall.
  { by apply Forall2_nil_inv_l in Hall as ->. }
  apply Forall2_app_inv_l in Hall as (gs1 & gs2 & Hall & Hlast & ->).
  apply Forall2_cons_inv_l in Hlast as (g & gs3 & (rec & Hrec & Hg) & Hnil & ->).
  apply Forall2_nil_inv_l in Hnil as ->. rewrite fmap_app, view_lookup. cbn [fmap list_fmap].
  destruct Hg as (Hok & Hk & Hv & Hd & Ha). rewrite live_snoc. unfold apply_record.
  destruct (lg_raw_stored 3 g Hok) as [_ Hat].
  assert (raw_deleted (lg_raw 3 g) = false) as -> by (unfold lg_raw; by rewrite raw_deleted_entry).
  assert (raw_key (lg_raw 3 g) = k') as Hk' by (transitivity (lg_key g); [done|]; rewrite Hk; by apply Hkey).
  rewrite Hk'. destruct (decide (k = k')) as [->|Hne].
  - rewrite lookup_insert_eq, Hrec, decide_True; [|apply elem_of_app; right; by left].
    change (Some (lg_value g, raw_attrs (lg_raw 3 g)) =
            Some (raw_value rec, v3_attrs (raw_attrs rec))). by rewrite Hat, Ha, Hv.
  - rewrite lookup_insert_ne by done. rewrite <- view_lookup, (IH gs1 Hall).
    assert (k ∈ ks ++ [k'] ↔ k ∈ ks) as Hiff.
    { rewrite elem_of_app, list_elem_of_singleton. clear -Hne. tauto. }
    by rewrite (decide_ext (k ∈ ks ++ [k']) (k ∈ ks)).
Qed.
End v3_records.

Lemma v3_header_bytes : v3_header = header_bytes 3 0 0.
Proof. reflexivity. Qed.

Section v3.
Context `{!MapRange} (src tmp pre : bytes) (m : kv) (idx : index) (l : appendLog) (w0 : world).
Context (Hag : index_agrees pre (entries idx) m) (Hinv : idx_inv idx).
Context (Hne : src ≠ tmp) (Hlog : log_ok src pre [] l w0).
#[local] Set Default Proof Using "All".

(** The version 3 record of the live record of [k]. *)
Definition v3_key (k : bytes) (g : legacy) : Prop :=
  ∃ rec, m !! k = Some rec ∧ v3_of rec g ∧
    encodeV3Record k (raw_value rec) (raw_extensions rec) (raw_attrs rec) = Ok (lg_record 3 g).

Definition v3_content (c : bytes) : Prop :=
  ∃ ks gs, (∀ k, k ∈ ks ↔ is_Some (m !! k)) ∧ Forall2 v3_key ks gs ∧
    c = header_bytes 3 0 0 ++ lg_records 3 gs.

Definition v3_bad : Prop := ∃ k rec, m !! k = Some rec ∧
  ∀ b, encodeV3Record k (raw_value rec) (raw_extensions rec) (raw_attrs rec) ≠ Ok b.

Definition v3_state (ks : list bytes) (b : Writer) (w : world) : Prop :=
  ∃ gs, Forall2 v3_key ks gs ∧
    bw_holds tmp (header_bytes 3 0 0 ++ lg_records 3 gs) w0 b w.

Definition v3_post (r : res unit) (s' : Writer * LS) : Prop :=
  s'.2.1 = l ∧ only tmp w0 s'.2.2 ∧
  match r with
  | Ok _ => ∃ c, v3_content c ∧ files s'.2.2 !! tmp = Some c
  | Err _ => failed w0 s'.2.2 ∨ v3_bad
  | Crash => failed w0 s'.2.2
  | Panic => False
  end.

Lemma v3_post_broken r b w : broken r → only tmp w0 w → failed w0 w → v3_post r (b, (l, w)).
Proof. intros Hr Ho Hd. split; [done|]. split; [done|]. destruct r; try done. by left. Qed.

Lemma v3_record_ok ks k rec b w :
  m !! k = Some rec → stored rec → raw_key rec = k → v3_state ks b w →
  wp (v3_record tmp k (raw_value rec) (raw_extensions rec) (raw_attrs rec))
    (λ r s', match r with
             | Ok _ => s'.2.1 = l ∧ v3_state (ks ++ [k]) s'.1 s'.2.2
             | r => v3_post r s'
             end) (b, (l, w)).
Proof.
  intros Hrec Hst Hk (gs & Hall & Hb). unfold v3_record. apply wp_lift_bind.
  pose proof (encodeV3Record_returns k (raw_value rec) (raw_extensions rec) (raw_attrs rec)) as Hret.
  destruct (encodeV3Record k _ _ _) as [x|e| |] eqn:Henc; try done.
  2:{ split; [done|]. split; [apply Hb|]. right. exists k, rec. split; [done|]. by rewrite Henc. }
  destruct (encodeV3Record_of rec x Hst) as (g & -> & Hg); [by rewrite Hk|].
  apply wp_ignore, wp_on_out. eapply wp_mono; [by apply wp_bw_Write|].
  assert ((header_bytes 3 0 0 ++ lg_records 3 gs) ++ lg_record 3 g =
    header_bytes 3 0 0 ++ lg_records 3 (gs ++ [g])) as ->.
  { unfold lg_records. rewrite fmap_app, concat_app. cbn [fmap list_fmap concat].
    by rewrite app_nil_r, app_assoc. }
  assert (Forall2 v3_key (ks ++ [k]) (gs ++ [g])) as Hall'.
  { apply Forall2_app; [done|]. constructor; [by exists rec|constructor]. }
  intros [[]|e| |] [b' w'] Hr; cbn [fst snd] in *; try done.
  - split; [done|]. by exists (gs ++ [g]).
  - split; [done|]. by exists (gs ++ [g]).
Qed.

(** The records, after the header has been given to the writer. *)
Lemma wp_v3_body b w :
  v3_state [] b w →
  wp (forEachLiveRecord idx (v3_record tmp);; on_out (bw_Flush tmp);; on_snd (on_snd (f_Sync tmp)))
    v3_post (b, (l, w)).
Proof.
  intros Hst. apply wp_bind.
  apply (wp_each (v3_record tmp) idx src pre m l v3_state); try done.
  - intros ks u w1 (gs & _ & Hon & _). eapply log_ok_world; [done|].
    rewrite (proj1 Hon src Hne). apply Hlog.
  - intros ks u w1 w2 (gs & Hall & Hon & Hb) Hw. exists gs. split; [done|].
    split; [eapply only_trans; [done|by apply only_becomes]|].
    destruct (bw_err u); [destruct Hw; lia|]. by rewrite (proj1 Hw).
  - intros ks u w1 w2 r (gs & _ & Hon & _) Hw Hr.
    assert (∀ r, broken r → v3_post r (u, (l, w2))) as Hbad.
    { intros r' Hr'. apply v3_post_broken; [done| |destruct Hon, Hw; lia].
      eapply only_trans; [done|]. by apply only_becomes, fails_becomes. }
    destruct r; try done; by apply Hbad.
  - intros ks k rec u w1 Hrec Hsto Hk HI. eapply wp_mono; [by apply (v3_record_ok ks k rec)|].
    by intros [] ?.
  - intros ks b' w1 Hnd Hks Hlen (gs & Hall & Hb).
    apply wp_bind, wp_on_out. eapply wp_mono; [by apply wp_bw_Flush|].
    intros [[]|e| |] [b2 w2] [Hon Hr]; cbn [fst snd] in *; try done; [|by apply v3_post_broken..].
    apply wp_zoom, wp_zoom, wp_sys_const; cbn [fst snd].
    + intros w3 Hw3. split; [done|]. split; [eapply only_trans; [done|by apply only_becomes]|].
      eexists. split; [by exists ks, gs|]. cbn [fst snd]. by rewrite (proj1 Hw3).
    + intros w3 Hw3. assert (∀ r, broken r → v3_post r (b2, (l, w3))) as Hbad.
      { intros r' Hr'. apply v3_post_broken; [done| |destruct Hon, Hw3; lia].
        eapply only_trans; [done|]. by apply only_becomes, fails_becomes. }
      by split; apply Hbad.
Qed.

(** Closing the file behind the body. *)
Lemma wp_v3_close (r : res unit) w :
  only tmp w0 w →
  match r with
  | Ok _ => ∃ c, v3_content c ∧ files w !! tmp = Some c
  | Err _ => failed w0 w ∨ v3_bad
  | _ => False
  end →
  wp (match r with
      | Err err => on_snd (ignore (f_Close tmp));; throw err
      | _ => on_snd (f_Close tmp)
      end) (output tmp v3_content v3_bad l w0) (l, w).
Proof.
  intros Hon Hr.
  assert (∀ w1, becomes w (files w) w1 → only tmp w0 w1) as Hon1.
  { intros w1 Hw1. eapply only_trans; [done|by apply only_becomes]. }
  assert (∀ r' w1, broken r' → fails w (files w) w1 →
    output tmp v3_content v3_bad l w0 r' (l, w1)) as Hbad.
  { intros r' w1 Hr' Hw1. apply output_broken; [done|by apply Hon1, fails_becomes|].
    destruct Hon, Hw1. lia. }
  destruct r as [[]|e| |]; try done.
  - apply wp_zoom, wp_sys_const; cbn [fst snd]; [|by intros; split; apply Hbad].
    intros w1 Hw1. split; [done|]. split; [by apply Hon1|]. cbn [fst snd]. by rewrite (proj1 Hw1).
  - apply wp_bind, wp_zoom, wp_ignore, wp_sys_const; cbn [fst snd].
    + intros w1 Hw1. apply wp_throw. split; [done|]. split; [by apply Hon1|].
      destruct Hw1, Hr; [left; simpl; lia|by right].
    + intros w1 Hw1. split; [apply wp_throw|]; by apply Hbad.
Qed.

Lemma wp_writeV3Log : wp (writeV3Log idx tmp) (output tmp v3_content v3_bad l w0) (l, w0).
Proof.
  unfold writeV3Log. apply wp_bind, wp_zoom, wp_sys_atomic; cbn [fst snd].
  2:{ intros w1 Hw1. pose proof (only_becomes tmp _ _ (fails_becomes _ _ _ Hw1)).
      destruct Hw1. by split; apply output_broken. }
  intros w1 Hw1. unfold wp at 1. cbn [fst snd]. set (w2 := set_file tmp [] w1).
  assert (bw_holds tmp [] w0 NewWriter w2) as Hb0.
  { split; [|exists []; by split_and!; [apply lookup_insert_eq| | |]].
    eapply only_trans; [by apply (only_becomes tmp)|]. split; [|done].
    intros q Hq. simpl. by rewrite lookup_insert_ne. }
  apply wp_bind, wp_with_out, wp_attempt, wp_bind, wp_ignore, wp_on_out.
  eapply wp_mono; [by apply wp_bw_Write|]. rewrite app_nil_l, v3_header_bytes.
  intros r [b3 w3] Hr. cbn [fst snd] in *.
  assert (returns r → v3_state [] b3 w3) as Hinit.
  { intros Hret. exists []. split; [constructor|]. rewrite app_nil_r. by destruct r. }
  destruct r as [[]|e| |]; try done;
    (eapply wp_mono; [by apply wp_v3_body, Hinit|]);
    intros [[]|e'| |] [b4 [l' w4]] (Hl' & Hon & Hr'); cbn [fst snd] in *; subst l'; try done;
    first [by apply (wp_v3_close (Ok ()))|by apply (wp_v3_close (Err e'))].
Qed.
End v3.

(** ** Both formats *)

(** The map as format [t] holds it. *)
Definition downgraded (t : Z) (V : view) : view :=
  if t =? 4 then V else (λ va, (va.1, v3_attrs va.2)) <$> V.

(** A complete log of format [t] for the live records of [rs]. *)
Definition complete (t : Z) (rs : list raw) (c : bytes) : Prop :=
  ∃ rs', log_file t rs' c ∧ view_of rs' = downgraded t (view_of rs).

(** [rec] can be written in format [t]. *)
Definition expressible (t : Z) (rec : raw) : Prop :=
  if t =? 4 then raw_extensions rec = [] else fits_v3 (raw_extensions rec) (raw_attrs rec).

Definition all_expressible (t : Z) (rs : list raw) : Prop :=
  ∀ k rec, live rs !! k = Some rec → expressible t rec.

Section both.
Context `{!MapRange}.

Lemma v4_content_complete rs c :
  Forall stored rs → v4_content (live rs) c → complete 4 rs c ∧ all_expressible 4 rs.
Proof using Type.
  intros Hst (rs' & Hre & -> & Hext). split; [|done]. exists rs'. split.
  - apply log_file_complete; [by left|apply Hre].
  - by apply view_compacted.
Qed.

Lemma v3_content_complete rs c :
  v3_content (live rs) c → complete 3 rs c ∧ all_expressible 3 rs.
Proof using Type.
  intros (ks & gs & Hks & Hall & ->). split.
  - exists (lg_raw 3 <$> gs). split.
    + rewrite <- (app_nil_r (lg_records 3 gs)). apply file_legacy; [lia| |by left].
      eapply Forall2_Forall_r; [exact Hall|]. apply Forall_forall.
      intros k _ g (rec & _ & (Hok & _) & _). done.
    + apply map_eq. intros k. rewrite (v3_log_view (live rs) ks gs).
      * unfold downgraded. change (3 =? 4) with false. cbv iota.
        rewrite lookup_fmap, view_lookup. case_decide as Hk; [by destruct (live rs !! k)|].
        rewrite Hks in Hk. destruct (live rs !! k); [|done]. destruct Hk. eauto.
      * apply live_keys_ok.
      * eapply Forall2_impl; [exact Hall|]. intros k' g (rec & ? & ? & _). eauto.
  - intros k rec Hrec. assert (k ∈ ks) as Hk by (apply Hks; eauto).
    apply list_elem_of_lookup in Hk as [i Hi].
    destruct (Forall2_lookup_l _ _ _ _ _ Hall Hi) as (g & _ & rec' & Hrec' & _ & Henc).
    assert (rec' = rec) as -> by congruence.
    apply (encodeV3Record_accepts k (raw_value rec)). by exists (lg_record 3 g).
Qed.

Lemma wp_write_output src tmp pre rs idx t l w :
  t = 3 ∨ t = 4 → Forall stored rs → idx_inv idx → index_agrees pre (entries idx) (live rs) →
  src ≠ tmp → log_ok src pre [] l w →
  wp (if t =? 4 then writeV4Log idx tmp else writeV3Log idx tmp)
    (output tmp (λ c, complete t rs c ∧ all_expressible t rs) (¬ all_expressible t rs) l w) (l, w).
Proof.
  intros Ht Hst Hinv Hag Hne Hlog.
  destruct Ht as [-> | ->]; [change (3 =? 4) with false|change (4 =? 4) with true]; cbv iota.
  - eapply wp_mono; [by apply (wp_writeV3Log src tmp pre (live rs))|].
    intros r s' (Hl & Ho & Hr). split; [done|]. split; [done|]. destruct r; try done.
    + destruct Hr as (c & Hc & Hf). exists c. split; [by apply v3_content_complete|done].
    + destruct Hr as [Hd|(k & rec & Hrec & Hb)]; [by left|]. right. intros Hall.
      destruct (proj2 (encodeV3Record_accepts k (raw_value rec) _ _) (Hall k rec Hrec)) as [b Hb'].
      by apply (Hb b).
  - eapply wp_mono; [by apply (wp_writeV4Log src tmp pre (live rs))|].
    intros r s' (Hl & Ho & Hr). split; [done|]. split; [done|]. destruct r; try done.
    + destruct Hr as (c & Hc & Hf). exists c. split; [by apply v4_content_complete|done].
    + destruct Hr as [Hd|(k & rec & Hrec & Hb)]; [by left|]. right. intros Hall.
      by apply Hb, (Hall k rec Hrec).
Qed.

(** The scan of [Downgrade] builds the index [recover] would build. *)
Lemma replay_downgrade recs idx c :
  replay downgrade_record recs idx = (replay recover_record recs (idx, c)).1.
Proof.
  revert idx c. induction recs as [|rec recs IH]; intros idx c; [done|].
  unfold replay in *. simpl. unfold downgrade_record, recover_record.
  destruct (rDeleted rec); apply IH.
Qed.
End both.

(** ** From the open log on *)

Lemma torn_v45 v tl : v45 v → torn_tail tl → torn (version:=v) tl.
Proof. by intros [-> | ->]. Qed.

Section downgrading.
Context `{!MapRange} (src dst : bytes) (t v : Z) (rs : list raw) (tl : bytes).
Let tmp := dst ++ downgradeTempSuffix.
Let log_bytes := header_bytes v 0 0 ++ log_records rs.
Context (Ht : t = 3 ∨ t = 4) (Hv : v45 v) (Hst : Forall stored rs) (Htl : torn_tail tl).
Context (Hsd : src ≠ dst) (Hstmp : src ≠ tmp).

(** No file but these is touched; the source keeps its records; the
    destination is as it was or complete. *)
Record downgrading (w w' : world) : Prop := {
  dg_others q : q ≠ src → q ≠ dst → q ≠ tmp → files w' !! q = files w !! q;
  dg_source : files w' !! src = Some (log_bytes ++ tl) ∨ files w' !! src = Some log_bytes;
  dg_dest : files w' !! dst = files w !! dst ∨
            all_expressible t rs ∧ ∃ c, files w' !! dst = Some c ∧ complete t rs c;
  dg_later : later w w'
}.

Definition downgrades (w : world) (r : res unit) (w' : world) : Prop :=
  downgrading w w' ∧
  match r with
  | Ok _ => all_expressible t rs ∧ ∃ c, files w' !! dst = Some c ∧ complete t rs c
  | Err _ => failed w w' ∨ ¬ all_expressible t rs
  | Crash => failed w w'
  | Panic => False
  end.

Lemma downgrades_broken w r w' :
  broken r → downgrading w w' → failed w w' → downgrades w r w'.
Proof using Type. intros Hr Hw Hd. split; [done|]. destruct r; try done. by left. Qed.

Lemma tmp_ne_dst : tmp ≠ dst.
Proof using Type. by apply suffix_ne_nil. Qed.

(** Steps that touch only the temporary file, or nothing. *)
Lemma downgrading_only w w1 w2 : downgrading w w1 → only tmp w1 w2 → downgrading w w2.
Proof using Hstmp.
  intros [Ho Hs Hd Hl] [Ho2 Hl2]. pose proof tmp_ne_dst. split; [|rewrite Ho2; done..|lia].
  intros q Hq Hqd Hqt. rewrite Ho2 by done. by apply Ho.
Qed.
Lemma downgrading_becomes w w1 w2 :
  downgrading w w1 → becomes w1 (files w1) w2 → downgrading w w2.
Proof using Hstmp. intros Hw Hb. eapply downgrading_only; [done|by apply only_becomes]. Qed.

(** Putting the finished output in place. *)
Lemma wp_install_output c (l : appendLog) w0 w :
  downgrading w0 w → files w !! tmp = Some c → complete t rs c → all_expressible t rs →
  wp (on_snd (or_remove tmp (os_Rename tmp dst));; on_snd (syncParentDirectory dst))
    (λ r s', s'.1 = l ∧ downgrades w0 r s'.2) (l, w).
Proof using Hsd Hstmp.
  intros Hw Htmp Hc Hall. pose proof tmp_ne_dst as Hne. pose proof (dg_later _ _ Hw) as Hl.
  apply wp_bind, wp_zoom, wp_or_remove_w, (wp_os_Rename _ _ _ c); [done|..]; cbn [fst snd].
  2:{ intros w1 Hw1. pose proof (downgrading_becomes _ _ _ Hw (fails_becomes _ _ _ Hw1)) as Hd1.
      destruct Hw1 as [_ Hl1].
      split; [split; intros w2 Ho2; [|intros _]; pose proof (downgrading_only _ _ _ Hd1 Ho2);
        destruct Ho2|]; (split; [done|]); apply downgrades_broken; try done; simpl; lia. }
  intros w1 [Hf1 Hl1]. assert (downgrading w0 w1) as Hd1.
  { destruct Hw as [Ho Hs Hd _]. split; [|..|lia].
    - intros q Hq Hqd Hqt. rewrite Hf1, lookup_insert_ne, lookup_delete_ne by done. by apply Ho.
    - by rewrite Hf1, lookup_insert_ne, lookup_delete_ne by done.
    - right. split; [done|]. exists c. by rewrite Hf1, lookup_insert_eq. }
  apply wp_zoom, wp_sys_const; cbn [fst snd].
  - intros w2 Hw2. split; [done|]. split; [by eapply downgrading_becomes|]. split; [done|].
    exists c. cbn [snd]. by rewrite (proj1 Hw2), Hf1, lookup_insert_eq.
  - intros w2 Hw2. pose proof (downgrading_becomes _ _ _ Hd1 (fails_becomes _ _ _ Hw2)).
    destruct Hw2. split; (split; [done|]); apply downgrades_broken; try done; simpl; lia.
Qed.

(** The part of [downgrade_log] after the scan. *)
Lemma wp_downgrade_write idx (l : appendLog) w0 w :
  downgrading w0 w → idx_inv idx → index_agrees log_bytes (entries idx) (live rs) →
  log_ok src log_bytes [] l w →
  wp (on_snd (removeIfExists tmp);;
      on_err (if t =? 4 then writeV4Log idx tmp else writeV3Log idx tmp)
        (on_snd (ignore (os_Remove tmp)));;
      on_snd (or_remove tmp (os_Rename tmp dst));;
      on_snd (syncParentDirectory dst))
    (λ r s', s'.1 = l ∧ downgrades w0 r s'.2) (l, w).
Proof using Ht Hst Hsd Hstmp.
  intros Hw Hinv Hag Hlog. pose proof (dg_later _ _ Hw) as Hl.
  apply wp_bind, wp_zoom, wp_removeIfExists; cbn [fst snd].
  2:{ intros w1 e Hw1. pose proof (downgrading_becomes _ _ _ Hw (fails_becomes _ _ _ Hw1)).
      destruct Hw1. split; (split; [done|]); apply downgrades_broken; try done; simpl; lia. }
  intros w1 Hw1. pose proof (downgrading_only _ _ _ Hw (only_delete _ _ _ Hw1)) as Hd1.
  assert (log_ok src log_bytes [] l w1) as Hlog1.
  { eapply log_ok_world; [done|]. rewrite (proj1 Hw1), lookup_delete_ne by done. apply Hlog. }
  apply wp_bind, wp_bind, wp_attempt. eapply wp_mono.
  { by apply (wp_write_output src tmp log_bytes rs idx t l w1). }
  intros r [l' w2] (Hl' & Ho2 & Hr). cbn [fst snd] in *. subst l'.
  pose proof (downgrading_only _ _ _ Hd1 Ho2) as Hd2. destruct Ho2 as [_ Hl2].
  pose proof (dg_later _ _ Hd1) as Hl1.
  destruct r as [[]|e| |]; try done.
  - destruct Hr as (c & [Hc Hall] & Hf). apply wp_ret. by apply (wp_install_output c).
  - apply wp_bind, wp_zoom, wp_remove_ignored; cbn [fst snd].
    + intros w3 Ho3. apply wp_throw. split; [done|]. pose proof (downgrading_only _ _ _ Hd2 Ho3).
      split; [done|]. destruct Ho3, Hr; [left; simpl; lia|by right].
    + intros w3 Ho3 Hl3. split; [done|]. pose proof (downgrading_only _ _ _ Hd2 Ho3).
      apply downgrades_broken; try done. simpl. lia.
  - split; [done|]. apply downgrades_broken; try done. simpl. lia.
Qed.

Lemma wp_downgrade_log l w :
  reopened src v (log_bytes ++ tl) l w →
  wp (downgrade_log dst t) (λ r s', downgrades w r s'.2) (l, w).
Proof using All.
  intros (Hlog & Hver & Hi & Hro).
  pose proof (lo_file _ _ _ _ _ Hlog) as Hf. rewrite app_nil_r in Hf.
  assert (∀ w', becomes w (files w) w' → downgrading w w') as Hsame.
  { intros w' [Hw Hl]. split; rewrite ?Hw; auto. }
  assert (4 ≤ v) as Hv4 by (destruct Hv; lia).
  unfold downgrade_log. apply wp_the_log. cbn [fst]. rewrite Hver, Hi, Hro.
  rewrite (proj2 (Z.ltb_ge v 4)) by lia. change (negb (Z.lor 0 0 =? 0)) with false. cbv iota.
  apply wp_bind, wp_with_out. eapply wp_mono.
  { apply (wp_Iterate (F:=format_v5 v Hv4) downgrade_record src (header_bytes v 0 0) rs tl);
      [done|apply length_header|done| |].
    - by apply torn_v45.
    - change (log_ok src (header_bytes v 0 0 ++ log_records rs ++ tl) [] l w).
      rewrite (app_assoc (header_bytes v 0 0)). exact Hlog. }
  intros r [idx [l1 w1]] Hsc. destruct r as [[]|e| |]; cbn [fst snd] in *; try done.
  - destruct Hsc as (Hidx & Hfmt & Hw1 & Hlog1). cbn [fst snd] in *.
    rewrite unknown_is_mask, Hro in Hw1, Hlog1. change (0 =? 0) with true in *. cbv iota in *.
    change (records (F:=format_v5 v Hv4) rs) with (log_records rs) in *.
    change (header_bytes v 0 0 ++ log_records rs) with log_bytes in Hw1, Hlog1.
    assert (downgrading w w1) as Hd1.
    { destruct Hw1 as [Hw1 Hl1]. split; [|..|done].
      - intros q Hq _ _. by rewrite Hw1, lookup_insert_ne.
      - right. by rewrite Hw1, lookup_insert_eq.
      - left. by rewrite Hw1, lookup_insert_ne. }
    destruct (replay_agrees v Hv4 (header_bytes v 0 0) rs (newIndex []) (newLRUCache 1))
      as (Hinv & _ & _ & _ & Hag); [apply length_header|done|apply newIndex_inv|
        apply newLRUCache_inv|apply newIndex_spec|done|].
    rewrite <- replay_downgrade, <- Hidx in Hinv, Hag.
    eapply wp_mono; [by apply (wp_downgrade_write idx l1 w w1 Hd1)|by intros r s' [_ ?]].
  - destruct Hsc as [Hw1 _]. apply downgrades_broken; [done|by apply Hsame, fails_becomes|apply Hw1].
  - apply downgrades_broken; [done|by apply Hsame, fails_becomes|apply Hsc].
Qed.
End downgrading.

(** ** Around the log: opening, closing, locking *)

(** [q] is not a name that opening or locking [src] uses. *)
Definition clear_of (src q : bytes) : Prop :=
  (q ∉ src :: artifacts src) ∧ q ≠ src ++ lockFileSuffix.

(** Results that are not affected by a call that changes no file, and which
    the death of the process in such a call turns into a crash. *)
Record settled (E : res unit → world → Prop) : Prop := {
  settled_then r w1 w2 : E r w1 → becomes w1 (files w1) w2 → E r w2;
  settled_dies r w1 w2 : returns r → E r w1 → fails w1 (files w1) w2 → E Crash w2
}.

(** [body] with a cleanup whose error is dropped. *)
Lemma wp_deferred_by {S} (body cleanup : M S unit) Q s :
  wp body (λ r s', (returns r → wp (ignore cleanup) (λ c s'', match c with
                      | Ok _ | Err _ => Q r s''
                      | Panic => Q Panic s''
                      | Crash => Q Crash s''
                      end) s') ∧ (¬ returns r → Q r s')) s →
  wp (deferred body cleanup) Q s.
Proof.
  intros Hb. apply wp_deferred. eapply wp_mono; [exact Hb|].
  intros [a|e| |] s' [Hr Hn]; simpl in *; auto.
Qed.

Section around.
Context `{!MapRange} (src dst : bytes) (t : Z) (E : res unit → world → Prop) (HE : settled E).

(** The log is closed behind [downgrade_log], whatever came of it. *)
Lemma wp_downgrade_locked_by v i ro body w :
  header_ok v i ro → survivor src (files w) = Some (header_bytes v i ro ++ body) →
  (∀ r w1, broken r → keeps src w w1 →
    failed w w1 ∨ (∃ e, r = Err e) ∧ (header_masks v i ro).1 ≠ 0 → E r w1) →
  (∀ l w1, keeps src w w1 → log_ok src (header_bytes v i ro ++ body) [] l w1 → version l = v →
    (incompatibleFeatures l, readOnlyFeatures l) = header_masks v i ro →
    (header_masks v i ro).1 = 0 →
    wp (downgrade_log dst t) (λ r s', E r s'.2) (l, w1)) →
  wp (downgrade_locked src dst t) E w.
Proof using HE.
  intros Hh Hdisk Hbroken Hbody. unfold downgrade_locked. apply wp_bind.
  eapply wp_mono; [by apply (wp_openAppendLog src v i ro)|].
  intros r w1 [Hk Hr]. destruct r as [log|e| |]; try done; [|by apply Hbroken; naive_solver..].
  destruct Hr as (Hlog & Hver & Hm & Hm0 & _).
  apply wp_bind, wp_with_log, wp_deferred_by.
  eapply wp_mono; [by apply (Hbody log w1)|]. intros r [l2 w2] Hres. cbn [snd] in *.
  split; [|by destruct r; try (intros []; exact I)]. intros Hret.
  apply wp_ignore. unfold log_Close. apply wp_the_log, wp_modify_log, wp_bind, wp_attempt.
  destruct HE as [Hthen Hdies]. destruct (file_open l2) eqn:Ho.
  - apply wp_on_file; [done|]. apply wp_sys_const; cbn [fst snd].
    + intros w3 Hw3. specialize (Hthen _ _ _ Hres Hw3). by destruct r as [[]| | |].
    + intros w3 Hw3. pose proof (Hthen _ _ _ Hres (fails_becomes _ _ _ Hw3)).
      split; [by destruct r as [[]| | |]|exact (Hdies r w2 w3 Hret Hres Hw3)].
  - unfold wp, on_file. simpl. rewrite Ho. by destruct r as [[]| | |].
Qed.

(** The lock of the source is held for the whole of it, and given back. *)
Lemma wp_Downgrade_by (overwrite : bool) (locks : gset bytes) (w : world) :
  t = 3 ∨ t = 4 → src ≠ dst → src ++ lockFileSuffix ∉ locks →
  (∀ r w', broken r → locking src w w' → failed w w' → E r w') →
  (∀ w', locking src w w' → wp (downgrade_locked src dst t) E w') →
  wp (Downgrade src dst {| Version := t; Overwrite := overwrite |})
    (λ r st, (returns r → st.1 = locks) ∧
      (E r st.2 ∨ overwrite = false ∧ is_Some (files w !! dst) ∧ (∃ e, r = Err e) ∧
                  becomes w (files w) st.2)) (locks, w).
Proof using HE.
  intros Ht Hsd Hfree Hbroken Hbody. set (f := src ++ lockFileSuffix) in *.
  assert (∀ w1, becomes w (files w) w1 →
    wp (lock ← acquireFileLock src;
        deferred (on_snd (downgrade_locked src dst t)) (release lock))
      (λ r st, (returns r → st.1 = locks) ∧ E r st.2) (locks, w1)) as Hmain.
  { intros w1 Hw1. apply wp_bind, wp_acquireFileLock; [|done|].
    - intros _ w2 Hlk. apply wp_deferred_by, wp_zoom. cbn [fst snd].
      eapply wp_mono; [apply (Hbody w2)|].
      { eapply only_trans; [by apply only_becomes|done]. }
      intros r w3 He. split; [|by intros Hr; split]. intros Hret. apply wp_release_ignored.
      + intros w4 Hw4. split; [intros _; set_solver|]. by eapply (settled_then E).
      + intros L w4 Hw4. split; [done|]. by eapply (settled_dies E).
    - intros e w2 Hlk Hl2. assert (locking src w w2) as Hlk'.
      { eapply only_trans; [by apply only_becomes|done]. }
      assert (failed w w2) by (destruct Hw1; lia). split; (split; [done|by apply Hbroken]). }
  unfold Downgrade. cbn [Version Overwrite].
  assert (negb (t =? 3) && negb (t =? 4) = false) as -> by (by destruct Ht as [-> | ->]).
  rewrite bool_decide_eq_false_2 by done. apply wp_bind. destruct overwrite.
  { apply wp_ret. eapply wp_mono; [by apply Hmain|]. naive_solver. }
  apply wp_bind, wp_attempt, wp_zoom, wp_os_Stat; cbn [fst snd].
  - intros w1 Hw1. destruct (files w !! dst) as [d|] eqn:Hd.
    + apply wp_throw. split; [done|]. right. split_and!; [done|done|by eexists|done].
    + apply wp_ret. eapply wp_mono; [by apply Hmain|]. naive_solver.
  - intros w1 Hw1. assert (locking src w w1) as Hlk by (by apply only_becomes, fails_becomes).
    destruct Hw1 as [_ Hl1]. split; [apply wp_throw|]; (split; [done|]; left; by apply Hbroken).
Qed.
End around.

(** ** The whole of Downgrade *)

Section whole.
Context `{!MapRange} (src dst : bytes) (t v : Z) (rs : list raw) (tl : bytes).
Let tmp := dst ++ downgradeTempSuffix.
Let log_bytes := header_bytes v 0 0 ++ log_records rs.
Context (Ht : t = 3 ∨ t = 4) (Hv : v45 v) (Hst : Forall stored rs) (Htl : torn_tail tl).
Context (Hdst : clear_of src dst) (Htmp : clear_of src tmp).

(** What a downgrade may have done to the disk, wherever it stops: the source
    keeps its records, and the destination is as it was or holds all of them. *)
Record effect (w w' : world) : Prop := {
  ef_others q : clear_of src q → q ≠ dst → q ≠ tmp → files w' !! q = files w !! q;
  ef_source : survivor src (files w') = Some (log_bytes ++ tl) ∨
              survivor src (files w') = Some log_bytes;
  ef_dest : files w' !! dst = files w !! dst ∨
            all_expressible t rs ∧ ∃ c, files w' !! dst = Some c ∧ complete t rs c;
  ef_later : later w w'
}.

Definition results (w : world) (r : res unit) (w' : world) : Prop :=
  effect w w' ∧
  match r with
  | Ok _ => all_expressible t rs ∧ ∃ c, files w' !! dst = Some c ∧ complete t rs c
  | Err _ => failed w w' ∨ ¬ all_expressible t rs
  | Crash => failed w w'
  | Panic => False
  end.

Lemma results_broken w r w' : broken r → effect w w' → failed w w' → results w r w'.
Proof using Type. intros Hr Hw Hd. split; [done|]. destruct r; try done. by left. Qed.

Lemma effect_becomes w w1 w2 : effect w w1 → becomes w1 (files w1) w2 → effect w w2.
Proof using Type. intros [] [Hf Hl]. split; rewrite ?Hf; try done. lia. Qed.

Lemma results_settled w : settled (results w).
Proof using Type.
  split.
  - intros r w1 w2 [He Hr] Hw. split; [by eapply effect_becomes|]. destruct Hw as [Hf Hl].
    destruct r; rewrite ?Hf; try done; [|lia]. destruct Hr; [left; lia|by right].
  - intros r w1 w2 _ [He _] Hw. pose proof (ef_later _ _ He). apply results_broken; [done| |].
    + eapply effect_becomes; [done|by apply fails_becomes].
    + destruct Hw. lia.
Qed.

Lemma effect_locking w w' :
  survivor src (files w) = Some (log_bytes ++ tl) → locking src w w' → effect w w'.
Proof using Hdst.
  intros Hdisk Hlk. split; [| |left; by apply Hlk, Hdst|apply Hlk].
  - intros q [_ Hq] _ _. by apply Hlk.
  - left. by rewrite (locking_survivor _ _ _ Hlk).
Qed.

Lemma effect_keeps w w' :
  survivor src (files w) = Some (log_bytes ++ tl) → keeps src w w' → effect w w'.
Proof using Hdst.
  intros Hdisk Hk. split; [| |left|by apply (keeps_later _ _ _ Hk)].
  - intros q [Hq _] _ _. by apply (keeps_others _ _ _ Hk).
  - left. by rewrite (keeps_survivor _ _ _ Hk).
  - apply (keeps_others _ _ _ Hk), Hdst.
Qed.

Lemma effect_downgrading w0 w w' :
  effect w0 w → downgrading src dst t v rs tl w w' →
  (files w !! dst = files w0 !! dst) → effect w0 w'.
Proof using Hdst.
  intros [Ho _ _ Hl] [Ho' Hs' Hd' Hl'] Hsame. split; [|..|lia].
  - intros q Hq Hqd Hqt. rewrite Ho'; [by apply Ho| |done|done]. intros ->. apply (proj1 Hq). by left.
  - destruct Hs' as [Hs'|Hs']; [left|right]; by apply survivor_main.
  - by rewrite <- Hsame.
Qed.

Lemma wp_downgrade_locked w0 w :
  survivor src (files w0) = Some (log_bytes ++ tl) → locking src w0 w →
  wp (downgrade_locked src dst t) (results w0) w.
Proof using All.
  intros Hdisk Hlk. pose proof (effect_locking _ _ Hdisk Hlk) as He0.
  rewrite <- (locking_survivor _ _ _ Hlk) in Hdisk.
  assert (header_ok v 0 0) as Hh by (destruct Hv; unfold header_ok, logVersion; lia).
  assert (header_masks v 0 0 = (0, 0)) as Hm0 by (unfold header_masks; by case_match).
  assert (dst ≠ src ∧ tmp ≠ src) as [Hds Hts] by (destruct Hdst, Htmp; set_solver).
  assert (∀ w1, keeps src w w1 → effect w0 w1 ∧ files w1 !! dst = files w0 !! dst ∧ later w0 w1)
    as Hkeep.
  { intros w1 Hk. pose proof (keeps_others _ _ _ Hk) as Ho. destruct He0 as [Ho0 _ _ Hl0].
    pose proof (keeps_later _ _ _ Hk).
    assert (files w1 !! dst = files w0 !! dst) as Hd.
    { rewrite Ho by apply Hdst. apply Hlk, Hdst. }
    split; [|split; [done|lia]]. destruct (effect_keeps _ _ Hdisk Hk) as [_ Hs _ _].
    split; [|done|by left|lia].
    intros q Hq Hqd Hqt. rewrite Ho by apply Hq. by apply Ho0. }
  unfold log_bytes in Hdisk. rewrite <- app_assoc in Hdisk.
  apply (wp_downgrade_locked_by _ _ _ _ (results_settled w0) v 0 0 (log_records rs ++ tl)); try done.
  - intros r w1 Hr Hk Hd. destruct (Hkeep w1 Hk) as (He & _ & _). apply results_broken; try done.
    destruct Hd as [Hd|[_ Hd]]; [|by rewrite Hm0 in Hd]. pose proof (proj2 Hlk). lia.
  - intros l w1 Hk Hlog Hver Hm _. destruct (Hkeep w1 Hk) as (He & Hsame & Hl).
    rewrite Hm0 in Hm. injection Hm as Hi Hro. rewrite app_assoc in Hlog.
    eapply wp_mono; [by apply (wp_downgrade_log src dst t v rs tl)|].
    intros r s' [Hd Hr]. split; [by eapply effect_downgrading|].
    destruct r; try done; [|lia]. destruct Hr; [left; lia|by right].
Qed.

Definition outcome (overwrite : bool) (locks : gset bytes) (w : world) (r : res unit) (st : OS)
    : Prop :=
  effect w st.2 ∧ (returns r → st.1 = locks) ∧
  match r with
  | Ok _ => all_expressible t rs ∧ ∃ c, files st.2 !! dst = Some c ∧ complete t rs c
  | Err _ => failed w st.2 ∨ ¬ all_expressible t rs ∨ overwrite = false ∧ is_Some (files w !! dst)
  | Crash => failed w st.2
  | Panic => False
  end.

Lemma wp_Downgrade (overwrite : bool) (locks : gset bytes) (w : world) :
  src ++ lockFileSuffix ∉ locks → survivor src (files w) = Some (log_bytes ++ tl) →
  wp (Downgrade src dst {| Version := t; Overwrite := overwrite |})
    (outcome overwrite locks w) (locks, w).
Proof using All.
  intros Hfree Hdisk. assert (src ≠ dst) as Hsd by (destruct Hdst; set_solver).
  eapply wp_mono.
  - apply (wp_Downgrade_by src dst t (results w) (results_settled w)); try done.
    + intros r w' Hr Hlk Hd. apply results_broken; [done|by apply effect_locking|done].
    + intros w' Hlk. by apply wp_downgrade_locked.
  - intros r st [Hlk [[He Hr]|(Hov & Hd & [e ->] & Hb)]].
    + split; [done|]. split; [done|]. destruct r; try done. destruct Hr; auto.
    + split; [|by auto]. apply effect_locking; [done|by apply only_becomes].
Qed.
End whole.

(** ** Sources that are refused *)

Section refusal.
Context `{!MapRange} (src dst : bytes) (t v i ro : Z) (body : bytes).
Context (Ht : t = 3 ∨ t = 4) (Hsd : src ≠ dst) (Hh : header_ok v i ro).
Context (Hbad : v < 4 ∨ header_masks v i ro ≠ (0, 0)).

(** An error, or a crash, and nothing has changed but the lock file and what
    an interrupted compaction of the source left. *)
Definition refuses (w : world) (r : res unit) (w' : world) : Prop :=
  (∀ q, clear_of src q → files w' !! q = files w !! q) ∧
  survivor src (files w') = survivor src (files w) ∧ later w w' ∧
  match r with
  | Err _ => True
  | Crash => failed w w'
  | Ok _ | Panic => False
  end.

Lemma refuses_settled w : settled (refuses w).
Proof using Type.
  split.
  - intros r w1 w2 (Ho & Hs & Hl & Hr) [Hf Hl2]. unfold refuses. rewrite Hf.
    split_and!; try done; [lia|]. destruct r; try done; lia.
  - intros r w1 w2 _ (Ho & Hs & Hl & _) [Hf Hl2]. unfold refuses. rewrite Hf.
    split_and!; try done; lia.
Qed.

Lemma refuses_broken w r w' :
  broken r → locking src w w' ∨ (∃ w1, locking src w w1 ∧ keeps src w1 w') →
  failed w w' ∨ (∃ e, r = Err e) → refuses w r w'.
Proof using Type.
  intros Hr Hw Hd. assert ((∀ q, clear_of src q → files w' !! q = files w !! q) ∧
    survivor src (files w') = survivor src (files w) ∧ later w w') as (Ho & Hs & Hl).
  { destruct Hw as [Hlk|(w1 & Hlk & Hk)].
    - split; [by intros q [_ Hq]; apply Hlk|]. split; [|apply Hlk].
      by rewrite (locking_survivor _ _ _ Hlk).
    - pose proof (keeps_later _ _ _ Hk). pose proof (proj2 Hlk). split_and!; [| |lia].
      + intros q [Hq Hq']. rewrite (keeps_others _ _ _ Hk) by done. by apply Hlk.
      + by rewrite (keeps_survivor _ _ _ Hk), (locking_survivor _ _ _ Hlk). }
  split_and!; try done. destruct r; try done. by destruct Hd as [Hd|[e Hd]].
Qed.

Lemma wp_Downgrade_refused (overwrite : bool) (locks : gset bytes) (w : world) :
  src ++ lockFileSuffix ∉ locks → survivor src (files w) = Some (header_bytes v i ro ++ body) →
  wp (Downgrade src dst {| Version := t; Overwrite := overwrite |})
    (λ r st, (returns r → st.1 = locks) ∧ refuses w r st.2) (locks, w).
Proof using All.
  intros Hfree Hdisk. eapply wp_mono.
  - apply (wp_Downgrade_by src dst t (refuses w) (refuses_settled w)); try done.
    + intros r w' Hr Hlk Hd. apply refuses_broken; auto.
    + intros w' Hlk. rewrite <- (locking_survivor _ _ _ Hlk) in Hdisk.
      apply (wp_downgrade_locked_by _ _ _ _ (refuses_settled w) v i ro body); try done.
      * intros r w1 Hr Hk Hd. apply refuses_broken; [done|by eauto|].
        destruct Hd as [Hd|[He _]]; [|by right]. left. pose proof (proj2 Hlk). lia.
      * intros l w1 Hk _ Hver Hm _. unfold downgrade_log. apply wp_the_log. cbn [fst].
        assert (∀ e, wp (throw e) (λ r (s' : LS), refuses w r s'.2) (l, w1)) as Hthrow.
        { intros e. apply wp_throw, refuses_broken; [done|right; by exists w'|right; by exists e]. }
        rewrite Hver. destruct (Z.ltb_spec v 4); [apply Hthrow|].
        case_match eqn:Hb; [apply Hthrow|]. exfalso. apply negb_false_iff, Z.eqb_eq in Hb.
        apply Z.lor_eq_0_iff in Hb as [Hi Hr]. destruct Hbad as [|Hne]; [lia|].
        apply Hne. by rewrite <- Hm, Hi, Hr.
  - intros r st [Hlk [Hr|(_ & _ & He & Hb)]]; (split; [done|]); [done|].
    apply refuses_broken; [by destruct He as [e ->]|left; by apply only_becomes|by right].
Qed.
End refusal.
