(* ===== verification/Sizes.v ===== *)
(** * Offsets, sizes and the compaction ratio

    Where the entries of the index lie in the file, in 32 and 64 bit fields
    that never wrap; that distinct keys have distinct records, so the order on
    disk is determined; and that a log that has just been compacted does not
    ask to be compacted again. *)

From S2P Require Import Prelude Go Crc32c Attributes Reader Record Index Cache Legacy FileSystem.
From S2P Require Import Log LogSpec Scan Opening Store StoreSpec Compact CompactSpec.
From S2P Require Import Lock Lifecycle.
From Stdlib Require Import Floats.SpecFloat.
#[local] Open Scope Z_scope.

(** ** Bounds of an index entry *)

(** [e] locates a record inside the first [size] bytes of a log, and the value
    inside the record; the fields fit their Go types. *)
Definition entry_bounds (size : Z) (e : indexEntry) : Prop :=
  logHeaderSize ≤ RecordOffset e ∧ 24 ≤ StoredSize e < 2 ^ 32 ∧
  RecordOffset e + StoredSize e ≤ size ∧
  0 ≤ Index.Size e < 2 ^ 31 ∧ RecordOffset e + 20 ≤ Offset e ∧
  Offset e + Index.Size e + 4 ≤ RecordOffset e + StoredSize e.

Lemma located_bounds pre k e r : located pre k e r → entry_bounds (len pre) e.
Proof.
  intros (_ & Hst & a & c & -> & -> & Ha). pose proof (stored_fits r Hst) as Hfits.
  destruct Hst as (_ & (Hk & Hat & Hv & He) & _). unfold entry_bounds. simpl.
  rewrite !length_app. pose proof (length_raw_record r (proj1 Hfits)). unfold raw_size in *.
  autounfold with consts in *. split_and!; lia.
Qed.

(** ** Distinct keys have distinct records *)

Lemma record_prefix_key r r' c c' :
  stored r → stored r' → raw_record r ++ c = raw_record r' ++ c' → raw_key r = raw_key r'.
Proof.
  intros Hr Hr' Heq.
  pose proof (fmt_read (LogFormat:=fmt5) 0 r c (Sentinel EOF) Hr) as H1.
  pose proof (fmt_read (LogFormat:=fmt5) 0 r' c' (Sentinel EOF) Hr') as H2.
  change (fmt_bytes r) with (raw_record r) in H1. change (fmt_bytes r') with (raw_record r') in H2.
  rewrite Heq, H2 in H1. by injection H1.
Qed.

Lemma offsets_distinct pre es m k k' e e' :
  index_agrees pre es m → es !! k = Some e → es !! k' = Some e' →
  RecordOffset e = RecordOffset e' → k = k'.
Proof.
  intros Hag He He' Hoff.
  destruct (index_agrees_lookup _ _ _ k Hag)
    as [[? _]|(e1 & r & He1 & _ & (Hk & Hst & a & z & Hpre & -> & _))]; [congruence|].
  destruct (index_agrees_lookup _ _ _ k' Hag)
    as [[? _]|(e2 & r' & He2 & _ & (Hk' & Hst' & a' & z' & Hpre' & -> & _))]; [congruence|].
  assert (e = entry_at (len a) r ∧ e' = entry_at (len a') r') as [-> ->] by (split; congruence).
  simpl in Hoff. rewrite Hpre in Hpre'. apply app_inj_1 in Hpre' as [_ Heq]; [|lia].
  rewrite <- Hk, <- Hk'. by eapply record_prefix_key.
Qed.

(** ** A log whose records are all live *)

Definition total_size (rs : list raw) : Z := foldr (λ r n, raw_size r + n) 0 rs.

Lemma total_size_perm rs rs' : rs ≡ₚ rs' → total_size rs = total_size rs'.
Proof. induction 1; simpl; lia. Qed.

Lemma total_size_app rs rs' : total_size (rs ++ rs') = total_size rs + total_size rs'.
Proof. induction rs; simpl; lia. Qed.

Lemma total_size_records rs : Forall stored rs → len (log_records rs) = total_size rs.
Proof.
  induction 1 as [|r rs Hr Hrs IH]; [done|]. unfold log_records in *. csimpl.
  rewrite length_app, Nat2Z.inj_add, IH, length_raw_record by apply Hr. done.
Qed.

Lemma size_live_le rs : (size (live rs) ≤ length rs)%nat.
Proof.
  induction rs as [|r rs IH] using rev_ind; [done|]. rewrite live_snoc, length_app. simpl.
  unfold apply_record. destruct (raw_deleted r).
  - rewrite map_size_delete. case_match; unfold id; lia.
  - rewrite map_size_insert. case_match; unfold id; lia.
Qed.

(** As many live keys as records: every record is the live one of its key. *)
Lemma live_all rs : size (live rs) = length rs → (map_to_list (live rs)).*2 ≡ₚ rs.
Proof.
  induction rs as [|r rs IH] using rev_ind; [done|].
  rewrite live_snoc, length_app. simpl. pose proof (size_live_le rs).
  unfold apply_record. destruct (raw_deleted r).
  - rewrite map_size_delete. case_match; unfold id; lia.
  - rewrite map_size_insert. destruct (live rs !! raw_key r) eqn:Hk; unfold id; intros Hs; [lia|].
    rewrite map_to_list_insert by done. csimpl. rewrite IH by lia.
    by rewrite Permutation_app_comm.
Qed.

Section ratio.
Context `{!MapRange}.

Lemma int64_add a b : int64 (int64 a + b) = int64 (a + b).
Proof using Type.
  unfold int64. f_equal.
  replace ((a + 2 ^ 63) mod 2 ^ 64 - 2 ^ 63 + b + 2 ^ 63) with ((a + 2 ^ 63) mod 2 ^ 64 + b) by lia.
  rewrite Zplus_mod_idemp_l. f_equal. lia.
Qed.

Lemma total_fold (pairs : list (bytes * indexEntry)) z :
  foldl (λ total ke, int64 (total + StoredSize ke.2)) (int64 z) pairs =
  int64 (z + foldr (λ ke n, StoredSize ke.2 + n) 0 pairs).
Proof using Type.
  revert z. induction pairs as [|ke pairs IH]; intros z; simpl; [by rewrite Z.add_0_r|].
  rewrite int64_add, IH. f_equal. lia.
Qed.

Lemma stored_sizes_perm (l l' : list (bytes * indexEntry)) :
  l ≡ₚ l' →
  foldr (λ ke n, StoredSize ke.2 + n) 0 l = foldr (λ ke n, StoredSize ke.2 + n) 0 l'.
Proof using Type. induction 1; simpl; lia. Qed.

(** The sizes in the index are the sizes of the live records. *)
Lemma idx_TotalSize_live pre idx m :
  index_agrees pre (entries idx) m →
  idx_TotalSize idx = int64 (total_size (map_to_list m).*2).
Proof.
  intros Hag. unfold idx_TotalSize. change 0 with (int64 0) at 1. rewrite total_fold. f_equal.
  rewrite Z.add_0_l, (stored_sizes_perm _ _ (range_perm _)). revert Hag. generalize (entries idx).
  clear idx. intros es. revert m. induction es as [|k e es Hk IH] using map_ind; intros m Hag.
  - assert (m = ∅) as ->.
    { apply map_eq. intros k. destruct (index_agrees_lookup _ _ _ k Hag)
        as [[_ ->]|(e & r & He & _)]; [by rewrite lookup_empty|by rewrite lookup_empty in He]. }
    by rewrite !map_to_list_empty.
  - destruct (index_agrees_lookup _ _ _ k Hag) as [[He _]|(e' & r & He & Hr & Hloc)];
      rewrite lookup_insert_eq in He; [done|]. injection He as <-.
    rewrite (stored_sizes_perm _ _ (map_to_list_insert _ _ e Hk)).
    rewrite (total_size_perm _ (r :: (map_to_list (delete k m)).*2))
      by (by rewrite <- (map_to_list_delete m k r Hr)).
    simpl. destruct Hloc as (_ & _ & a & c & _ & -> & _). simpl. f_equal. apply IH.
    apply (index_agrees_delete _ _ _ k) in Hag. by rewrite delete_insert_id in Hag.
Qed.

(** A ratio of equals is one, and leaves nothing to collect; where the
    division has no result, no comparison with it holds. *)
Lemma nothing_dead f thr :
  float64_lt thr (float64_of_int 0) = false →
  float64_lt thr (float64_sub (float64_of_int 1) (float64_div f f)) = false.
Proof using Type.
  intros Hthr. assert (∀ x, x = S754_nan → float64_lt thr x = false) as Hnan.
  { intros x ->. by destruct thr as [[]|[]| |[]]. }
  assert (float64_sub (float64_of_int 1) S754_nan = S754_nan) as Hsub by done.
  destruct f as [s|s| |s m e]; [by apply Hnan..|].
  assert (SFdiv_core_binary 53 1024 (Zpos m) e (Zpos m) e = (2 ^ 53, -53, loc_Exact)) as Hcore.
  { unfold SFdiv_core_binary. rewrite !Z.sub_diag.
    change (Z.min (fexp 53 1024 0) 0) with (-53). change (0 - -53) with 53. cbv iota.
    rewrite Z.shiftl_mul_pow2 by lia.
    pose proof (Z_div_mod_full (Zpos m * 2 ^ 53) (Zpos m)) as Hdm.
    pose proof (Z.div_mul (2 ^ 53) (Zpos m) ltac:(done)) as Hd.
    pose proof (Z_mod_mult (2 ^ 53) (Zpos m)) as Hm.
    unfold Z.div in Hd. unfold Z.modulo in Hm. rewrite (Z.mul_comm (2 ^ 53)) in Hd, Hm.
    destruct (Z.div_eucl (Zpos m * 2 ^ 53) (Zpos m)) as [q r]. subst q r. unfold new_location. by destruct (Z.even _). }
  unfold float64_div, SFdiv. rewrite Hcore, xorb_nilpotent.
  change (float64_lt thr (float64_of_int 0) = false). done.
Qed.

(** The threshold [Open] settles on is not negative. *)
Lemma threshold_ok o o' :
  apply_defaults o = Some o' → float64_lt (CompactionThreshold o') (float64_of_int 0) = false.
Proof using Type.
  unfold apply_defaults. set (thr := if SFleb _ _ then _ else _).
  assert (float64_lt thr (float64_of_int 0) = false) as Hthr.
  { subst thr. destruct (SFleb (CompactionThreshold o) (float64_of_int 0)) eqn:Hle; [done|].
    unfold SFleb, float64_lt, SFltb in *. by destruct (SFcompare _ _) as [[]|]. }
  destruct (float64_lt (float64_of_int 1) thr); [done|]. by intros [= <-].
Qed.

Lemma NeedsCompaction_all_live p rs s w o :
  store_ok p 0 rs [] s w → length rs = size (live rs) → apply_defaults o = Some (options s) →
  NeedsCompaction s = false.
Proof.
  intros Hs Hall Ho. unfold NeedsCompaction.
  rewrite (idx_TotalSize_live _ _ _ (so_agrees _ _ _ _ _ _ Hs)).
  rewrite (total_size_perm _ rs) by (by apply live_all).
  assert (log_Size (s_log s) - logHeaderSize = total_size rs) as ->.
  { unfold log_Size. rewrite (lo_pos _ _ _ _ _ (so_log _ _ _ _ _ _ Hs)), length_app.
    rewrite <- total_size_records by apply Hs. pose proof (length_header logVersion 0 0). lia. }
  destruct (int64 (total_size rs) <=? 0); [done|]. eapply nothing_dead, threshold_ok, Ho.
Qed.
End ratio.
