(* ===== verification/Background.v ===== *)
(** * Background tasks

    store.go: the goroutines [Open] starts ([startSyncTask] and
    [startCompactionTask]) and the goroutines of the application, interleaved.
    What runs under the store's mutex is one step.  [Compact] is three: the
    compare-and-swap on [compacting] comes before the mutex, and the deferred
    [compacting.Store(false)] after it is free, so other steps run in between
    and a second [Compact] is turned away.  A task looks at the dead ratio,
    compacts and reports in separate steps too.

    An execution follows an abstract machine on the map of the store and the
    compaction in progress ([spec_event]); whatever fails, at most one
    compaction is on its way, every error of a task reaches [OnError] exactly
    once, and no task compacts without having found the ratio exceeded.
    [Close] is not among the steps: it waits for both tasks. *)

From S2P Require Import Prelude Go Crc32c Attributes Reader Record Index Cache Legacy FileSystem.
From S2P Require Import Log LogSpec Scan Opening Lock Store StoreSpec Compact CompactSpec.
From S2P Require Import Lifecycle LifecycleSpec Contract Durability Runs.
#[local] Open Scope Z_scope.

(** ** Who is where *)

(** A call of [Compact] comes from the application or from the task. *)
Inductive caller := App | Task.

#[export] Instance caller_eq_dec : EqDecision caller.
Proof. solve_decision. Defined.

(** Past the compare-and-swap: still before the mutex, or done with it. *)
Inductive phase := Entered | Ran (err : option error).

(** The goroutine of [startCompactionTask]: waiting for a tick, about to call
    [Compact], inside it, or about to report. *)
Inductive task_state := Waiting | Due | Compacting | Failing (err : error).

Definition sync_error (e : error) : error := Errorf "periodic sync" [e].
Definition compaction_error (e : error) : error := Errorf "automatic compaction" [e].

(** The task calls [Compact] only when it is due; the application at any time. *)
Definition task_calls (c : caller) (t : task_state) : option task_state :=
  match c, t with
  | App, _ => Some t
  | Task, Due => Some Compacting
  | Task, _ => None
  end.

(** [if err := s.Compact(); err != nil { s.reportError(...) }] *)
Definition task_returns (c : caller) (r : option error) (t : task_state) : task_state :=
  match c, r with
  | App, _ => t
  | Task, None => Waiting
  | Task, Some e => Failing (compaction_error e)
  end.

(** The tasks [Open] starts; both end when [Close] cancels the context. *)
Definition sync_task (s : Store) : bool := (0 <? SyncInterval (options s)) && negb (closed s).
Definition compaction_task (s : Store) : bool :=
  AutoCompact (options s) && negb (ReadOnly s) && negb (closed s).

(** What an observer sees of a step. *)
Inductive event :=
| Call (o : op) (a : answer)
| CompactEnters (c : caller)
| CompactRefused (c : caller) (e : error)
| CompactRuns (c : caller) (r : option error)
| CompactReturns (c : caller) (r : option error)
| SyncTick (r : option error)
| CompactionCheck (due : bool)
| Report (e : error).

Section tasks.
Context `{!MapRange} {U : Type}.

(** [Options.OnError], as what it does to the application's own state. *)
Context (OnError : option (error → U → U)).

Definition reportError (err : option error) (u : U) : U :=
  match err, OnError with
  | Some e, Some f => f e u
  | _, _ => u
  end.

(** The parts under the mutex, with the error they return. *)
Definition sync_locked : M SS (option error) := error_of (on_log log_Sync).
Definition compact_locked : M SS (option error) := error_of compact_body.

(** ** Executions *)

(** [inside]: the calls of [Compact] past the compare-and-swap;
    [sync_failure]: what the sync task is about to report. *)
Record config := Config {
  inside : list (caller * phase);
  task : task_state;
  sync_failure : option error;
  user : U;
  run_state : SS
}.

Inductive step : config → event → config → Prop :=
| step_call ins t sf u st o a st' :
    o ≠ OCompact → run_op o st = (Some a, st') →
    step (Config ins t sf u st) (Call o a) (Config ins t sf u st')
| step_enters ins t sf u st c t' st' :
    task_calls c t = Some t' → compact_enter st = (Ok tt, st') →
    step (Config ins t sf u st) (CompactEnters c) (Config (ins ++ [(c, Entered)]) t' sf u st')
| step_refused ins t sf u st c t' e st' :
    task_calls c t = Some t' → compact_enter st = (Err e, st') →
    step (Config ins t sf u st) (CompactRefused c e)
      (Config ins (task_returns c (Some e) t') sf u st')
| step_runs l l' t sf u st c r st' :
    compact_locked st = (Ok r, st') →
    step (Config (l ++ (c, Entered) :: l') t sf u st) (CompactRuns c r)
      (Config (l ++ (c, Ran r) :: l') t sf u st')
| step_returns l l' t sf u st c r st' :
    compact_leave st = (Ok tt, st') →
    step (Config (l ++ (c, Ran r) :: l') t sf u st) (CompactReturns c r)
      (Config (l ++ l') (task_returns c r t) sf u st')
| step_sync ins t u st r st' :
    sync_task st.1 = true → sync_locked st = (Ok r, st') →
    step (Config ins t None u st) (SyncTick r) (Config ins t (sync_error <$> r) u st')
| step_check ins sf u st :
    compaction_task st.1 = true →
    step (Config ins Waiting sf u st) (CompactionCheck (NeedsCompaction st.1))
      (Config ins (if NeedsCompaction st.1 then Due else Waiting) sf u st)
| step_report_sync ins t e u st :
    step (Config ins t (Some e) u st) (Report e)
      (Config ins t None (reportError (Some e) u) st)
| step_report_compaction ins e sf u st :
    step (Config ins (Failing e) sf u st) (Report e)
      (Config ins Waiting sf (reportError (Some e) u) st).

Inductive steps : config → list event → config → Prop :=
| steps_nil c : steps c [] c
| steps_cons c e c' es c'' : step c e c' → steps c' es c'' → steps c (e :: es) c''.

(** The process dies under the mutex, in the call [o]. *)
Inductive dies : config → op → SS → Prop :=
| dies_call ins t sf u st o st' :
    o ≠ OCompact → run_op o st = (None, st') → dies (Config ins t sf u st) o st'
| dies_sync ins t u st st' :
    sync_task st.1 = true → sync_locked st = (Crash, st') →
    dies (Config ins t None u st) OSync st'
| dies_runs l l' t sf u st c st' :
    compact_locked st = (Crash, st') →
    dies (Config (l ++ (c, Entered) :: l') t sf u st) OCompact st'.

(** ** The abstract machine *)

(** The map, and the compaction in progress: whose it is, and whether it has
    taken effect. *)
Definition spec_state : Type := view * option (caller * bool).

Inductive spec_event : spec_state → event → spec_state → Prop :=
| spec_call m k o a m' :
    spec_step m o a m' → spec_event (m, k) (Call o a) (m', k)
| spec_enters m c : spec_event (m, None) (CompactEnters c) (m, Some (c, false))
| spec_refused m k c :
    spec_event (m, Some k) (CompactRefused c (Sentinel ErrCompactionInProgress)) (m, Some k)
| spec_runs m c m' :
    spec_step m OCompact Done m' →
    spec_event (m, Some (c, false)) (CompactRuns c None) (m', Some (c, true))
| spec_returns m c : spec_event (m, Some (c, true)) (CompactReturns c None) (m, None)
| spec_tick m k m' : spec_step m OSync Done m' → spec_event (m, k) (SyncTick None) (m', k)
| spec_check m k b : spec_event (m, k) (CompactionCheck b) (m, k)
| spec_report m k e : spec_event (m, k) (Report e) (m, k).

Inductive spec_events : spec_state → list event → spec_state → Prop :=
| spec_events_nil k : spec_events k [] k
| spec_events_cons k e k' es k'' :
    spec_event k e k' → spec_events k' es k'' → spec_events k (e :: es) k''.

(** How the machine's compaction shows in [inside]. *)
Definition inside_of (k : option (caller * bool)) : list (caller * phase) :=
  match k with
  | None => []
  | Some (c, ran) => [(c, if ran : bool then Ran None else Entered)]
  end.

(** ** One compaction at a time *)

(** The flag says whether a compaction is on its way, and there is one at most. *)
Definition exclusive (c : config) : Prop :=
  compacting (run_state c).1 = match inside c with [] => false | _ => true end ∧
  (length (inside c) ≤ 1)%nat.

Lemma error_of_run {A} (m : M A unit) st r st' :
  error_of m st = (r, st') → st' = (m st).2 ∧
  r = match (m st).1 with Ok _ => Ok None | Err e => Ok (Some e) | Panic => Panic | Crash => Crash end.
Proof using Type.
  unfold error_of, attempt, mbind, M_bind. by destruct (m st) as [[[]|e| |] st1]; simpl; intros [= <- <-].
Qed.

Lemma compact_enter_run st r st' :
  compact_enter st = (r, st') →
  (r = Ok tt ∧ compacting st.1 = false ∧ st' = (set_compacting true st.1, st.2)) ∨
  (∃ e, r = Err e ∧ st' = st ∧
    (closed st.1 = false → readOnlyReason st.1 = None →
     compacting st.1 = true ∧ e = Sentinel ErrCompactionInProgress)).
Proof using Type.
  destruct st as [s w]. unfold compact_enter, check_open, check_writable, mbind, M_bind. simpl.
  destruct (closed s); simpl; [intros [= <- <-]; right; eexists; split_and!; done|].
  destruct (readOnlyReason s); simpl; [intros [= <- <-]; right; eexists; split_and!; done|].
  destruct (compacting s) eqn:Hco; simpl; intros [= <- <-]; [right|left; done].
  eexists; split_and!; done.
Qed.

Lemma flags_run_op o st st' a :
  o ≠ OCompact → run_op o st = (a, st') → flags st'.1 = flags st.1.
Proof using Type.
  intros Ho. destruct o; try done; unfold run_op; intros Hrun;
    match type of Hrun with
    | (let '(_, _) := ?m st in _) = _ =>
        assert (keeps_flags m) as Hfl;
        [|specialize (Hfl st); destruct (m st) as [r1 st1]; by injection Hrun as <- <-]
    end.
  - apply flags_Put.
  - apply flags_Delete.
  - apply flags_Get.
  - unfold GetMetadata, check_open. flags.
  - unfold store_Sync, check_open. flags.
Qed.

Lemma flags_locked (m : M SS unit) st r st' :
  keeps_flags m → error_of m st = (r, st') → flags st'.1 = flags st.1.
Proof using Type. intros Hfl [-> _]%error_of_run. apply Hfl. Qed.

Lemma flags_compacting s s' : flags s' = flags s → compacting s' = compacting s.
Proof using Type. by intros [= _ -> _ _]. Qed.

Lemma step_exclusive c e c' : step c e c' → exclusive c → exclusive c'.
Proof using Type.
  unfold exclusive.
  destruct 1 as [ins t sf u st o a st' Ho Hr|ins t sf u st c t' st' Ht Hr|
    ins t sf u st c t' e st' Ht Hr|l l' t sf u st c r st' Hr|l l' t sf u st c r st' Hr|
    ins t u st r st' Ht Hr|ins sf u st Ht|ins t e u st|ins e sf u st];
    cbn [inside run_state]; intros [Hf Hn]; try done.
  - split; [|done]. rewrite <- Hf. by eapply flags_compacting, flags_run_op.
  - apply compact_enter_run in Hr as [(_ & Hco & ->)|(? & ? & _)]; [|done].
    rewrite Hco in Hf. by destruct ins.
  - by apply compact_enter_run in Hr as [(? & _)|(? & _ & -> & _)].
  - rewrite length_app in *. simpl in *. split; [|lia].
    assert (flags st'.1 = flags st.1) as Hfl by (eapply flags_locked, Hr; apply flags_compact_body).
    rewrite (flags_compacting _ _ Hfl), Hf. by destruct l.
  - rewrite !length_app in *. injection Hr as <-.
    destruct l, l'; simpl in *; lia.
  - split; [|done]. rewrite <- Hf. eapply flags_compacting, flags_locked, Hr.
    apply flags_on_log.
Qed.

Lemma steps_exclusive c es c' : steps c es c' → exclusive c → exclusive c'.
Proof using Type. induction 1; eauto using step_exclusive. Qed.

Lemma steps_app c es es' c' :
  steps c (es ++ es') c' ↔ ∃ c1, steps c es c1 ∧ steps c1 es' c'.
Proof using Type.
  revert c. induction es as [|e es IH]; intros c; simpl.
  { split; [intros Hs; exists c; split; [constructor|done]|]. intros (c1 & Hs & Hs'). by inversion Hs; subst. }
  split.
  - intros Hs. inversion Hs; subst. destruct (proj1 (IH _) ltac:(done)) as (c1 & Hs1 & Hs2).
    exists c1. split; [by econstructor|done].
  - intros (c1 & Hs & Hs'). inversion Hs; subst. econstructor; [done|]. apply IH. by exists c1.
Qed.

Lemma steps_one c e c' : steps c [e] c' ↔ step c e c'.
Proof using Type.
  split; [|intros Hs; econstructor; [done|constructor]].
  intros Hs. inversion Hs as [|? ? ? ? ? Hstep Hnil]; subst. by inversion Hnil; subst.
Qed.

(** ** What the tasks report *)

(** The error a step of a task ends with, and the one it reports. *)
Definition failure (e : event) : option error :=
  match e with
  | SyncTick r => sync_error <$> r
  | CompactRefused Task e => Some (compaction_error e)
  | CompactReturns Task r => compaction_error <$> r
  | _ => None
  end.
Definition report (e : event) : option error :=
  match e with Report e => Some e | _ => None end.

Definition to_report (c : config) : list error :=
  match sync_failure c with Some e => [e] | None => [] end ++
  match task c with Failing e => [e] | _ => [] end.

(** The task is in [Compact] exactly when [inside] says so. *)
Definition task_inside (c : config) : Prop :=
  length (filter (λ x, x.1 = Task) (inside c)) =
  match task c with Compacting => 1%nat | _ => 0%nat end.

Lemma step_reports c e c' :
  step c e c' → task_inside c →
  task_inside c' ∧ user c' = reportError (report e) (user c) ∧
  omap report [e] ++ to_report c' ≡ₚ omap failure [e] ++ to_report c.
Proof using Type.
  unfold task_inside, to_report.
  destruct 1 as [ins t sf u st o a st' Ho Hr|ins t sf u st c t' st' Ht Hr|
    ins t sf u st c t' e st' Ht Hr|l l' t sf u st c r st' Hr|l l' t sf u st c r st' Hr|
    ins t u st r st' Ht Hr|ins sf u st Ht|ins t e u st|ins e sf u st];
    cbn [inside task sync_failure user]; rewrite ?filter_app, ?length_app; intros Hin.
  - done.
  - destruct c, t; try done; injection Ht as <-; simpl in *; split_and!; try done; lia.
  - destruct c, t; try done; injection Ht as <-; simpl in *; split_and!; try done.
    destruct sf; simpl; [by rewrite Permutation_swap|done].
  - split_and!; try done. by destruct c.
  - rewrite filter_cons in Hin. destruct c; simpl in *.
    { by split_and!. }
    destruct t; simpl in *; try lia. split_and!; [|done|]; destruct r; simpl; try lia; try done.
    destruct sf; simpl; [by rewrite Permutation_swap|done].
  - split_and!; [done|done|]. by destruct r.
  - destruct (NeedsCompaction st.1); by split_and!.
  - done.
  - split_and!; try done. destruct sf; simpl; [by rewrite Permutation_swap|done].
Qed.

Lemma steps_report c es c' :
  steps c es c' → task_inside c →
  user c' = foldl (λ u e, reportError (Some e) u) (user c) (omap report es) ∧
  omap report es ++ to_report c' ≡ₚ omap failure es ++ to_report c.
Proof using Type.
  induction 1 as [c|c e c' es c'' Hstep Hsteps IH]; intros Hin; [done|].
  destruct (step_reports _ _ _ Hstep Hin) as (Hin' & Hu & Hp). destruct (IH Hin') as [Hu' Hp'].
  change (e :: es) with ([e] ++ es). rewrite !omap_app. split.
  - rewrite foldl_app, Hu', Hu. by destruct e.
  - rewrite <- !app_assoc, Hp'. rewrite (Permutation_app_comm (omap failure es) (to_report c')).
    rewrite (app_assoc (omap report [e])), Hp, <- app_assoc.
    by rewrite (Permutation_app_comm (to_report c)).
Qed.

(** ** When the task compacts *)

Definition task_attempt (e : event) : bool :=
  match e with CompactEnters Task | CompactRefused Task _ => true | _ => false end.

Lemma attempt_due c e c' : step c e c' → task_attempt e = true → task c = Due.
Proof using Type.
  destruct 1 as [|ins t sf u st c t' st' Ht|ins t sf u st c t' e st' Ht| | | | | |]; try done;
    destruct c; try done; by destruct t.
Qed.

Lemma becomes_due c e c' :
  step c e c' → task c' = Due →
  task c = Due ∧ task_attempt e = false ∨
  e = CompactionCheck true ∧ compaction_task (run_state c).1 = true ∧
  NeedsCompaction (run_state c).1 = true.
Proof using Type.
  destruct 1 as [|ins t sf u st c t' st' Ht|ins t sf u st c t' e st' Ht|
    |l l' t sf u st c r st'| |ins sf u st Ht| |];
    cbn [task run_state]; try (by auto); try done.
  - destruct c, t; simplify_eq/=; auto; done.
  - destruct c, t; simplify_eq/=; auto; done.
  - destruct c, r; simplify_eq/=; auto; done.
  - destruct (NeedsCompaction st.1) eqn:Hn; [|done]. by auto.
Qed.

Lemma due_checked c es c' :
  steps c es c' → task c = Waiting → task c' = Due →
  ∃ es1 es2 ck, es = es1 ++ CompactionCheck true :: es2 ∧ steps c es1 ck ∧
    compaction_task (run_state ck).1 = true ∧ NeedsCompaction (run_state ck).1 = true ∧
    Forall (λ e, task_attempt e = false) es2.
Proof using Type.
  revert c'. induction es as [|e es IH] using rev_ind; intros c' Hs Hw Hd.
  { inversion Hs; subst. congruence. }
  apply steps_app in Hs as (c1 & Hs & Hstep%steps_one).
  destruct (becomes_due _ _ _ Hstep Hd) as [[Hd1 He]|(-> & Ht & Hn)].
  - destruct (IH c1 Hs Hw Hd1) as (es1 & es2 & ck & -> & Hs1 & Ht & Hn & Hf).
    exists es1, (es2 ++ [e]), ck. rewrite <- app_assoc. split_and!; try done.
    apply Forall_app_2; [done|]. by constructor.
  - by exists es, [], c1.
Qed.

(** ** Executions follow the machine *)

Record sound (p : bytes) (rs : list raw) (junk : bytes) (c : config) : Prop := {
  sn_ok : store_ok p 0 rs junk (run_state c).1 (run_state c).2;
  sn_open : closed (run_state c).1 = false;
  sn_exclusive : exclusive c
}.

(** The step is one of the machine, or the failure in the schedule. *)
Definition follows (p : bytes) (rs : list raw) (junk : bytes) (c : config) (e : event)
    (c' : config) : Prop :=
  later (run_state c).2 (run_state c').2 ∧
  ((∃ rs' junk', sound p rs' junk' c' ∧ (junk = [] → junk' = []) ∧
     ∀ k, inside c = inside_of k → ∃ k', inside c' = inside_of k' ∧
       spec_event (view_of rs, k) e (view_of rs', k')) ∨
   failed (run_state c).2 (run_state c').2 ∧
   (junk = [] → ∃ rs' junk', sound p rs' junk' c')).

Lemma inside_of_split l x l' k :
  l ++ x :: l' = inside_of k →
  l = [] ∧ l' = [] ∧ ∃ ran, k = Some (x.1, ran) ∧ x.2 = if ran : bool then Ran None else Entered.
Proof using Type.
  destruct k as [[c ran]|]; [|by destruct l]. destruct l as [|y l]; simpl.
  - intros [= -> ->]. split_and!; [done|done|]. by exists ran.
  - intros [= -> Hl]. by destruct l.
Qed.

(** What leaves the store alone, or only sets [compacting], follows at once. *)
Lemma follows_quiet p rs junk c e c' s :
  store_ok p 0 rs junk s (run_state c).2 → closed s = false → exclusive c' →
  run_state c' = (s, (run_state c).2) →
  (∀ k, inside c = inside_of k → ∃ k', inside c' = inside_of k' ∧
    spec_event (view_of rs, k) e (view_of rs, k')) →
  follows p rs junk c e c'.
Proof using Type.
  intros Hs Hcl Hex Hrun Hspec. unfold follows. rewrite Hrun. split; [done|]. left.
  exists rs, junk. split_and!; [|done|done]. split; rewrite ?Hrun; done.
Qed.

Lemma call_follows p rs junk ins t sf u st o a t' sf' st' e :
  sound p rs junk (Config ins t sf u st) → (faults st.2 ≤ 1)%nat → o ≠ OCompact →
  exclusive (Config ins t' sf' u st') → run_op o st = (Some a, st') →
  (∀ m k, spec_step (view_of rs) o a m → spec_event (view_of rs, k) e (m, k)) →
  follows p rs junk (Config ins t sf u st) e (Config ins t' sf' u st').
Proof.
  intros [Hs Hcl Hex] Hone Ho Hex' Hr Hspec. destruct st as [s w]. cbn [run_state fst snd] in *.
  pose proof (run_op_outcome p rs junk s w Hs Hcl Hone o ltac:(done)) as [Hl Hout].
  rewrite Hr in Hl, Hout. cbn [fst snd] in *. destruct Hout as (Hcl' & _ & Hout).
  split; [done|]. destruct Hout as [(rs' & junk' & Hstep & Hok & Hj)|[Hd Hok]].
  - left. exists rs', junk'. split_and!; [by split|done|]. intros k Hk. exists k. auto.
  - right. split; [done|]. intros Hj. destruct (Hok Hj) as (rs' & junk' & Hok').
    exists rs', junk'. by split.
Qed.

(** A tick of the sync task is a call of [Sync]. *)
Lemma run_OSync st :
  closed st.1 = false →
  run_op OSync st = (observe (λ _, Done) (on_log log_Sync st).1, (on_log log_Sync st).2).
Proof using Type.
  destruct st as [s w]. cbn [fst]. intros Hcl. unfold run_op, store_Sync, check_open, mbind, M_bind.
  simpl. rewrite Hcl. simpl. by destruct (on_log log_Sync (s, w)).
Qed.

Lemma runs_follows p rs junk l l' t sf u st c r st' :
  let c0 := Config (l ++ (c, Entered) :: l') t sf u st in
  let c1 := Config (l ++ (c, Ran r) :: l') t sf u st' in
  sound p rs junk c0 → (faults st.2 ≤ 1)%nat → exclusive c1 →
  compact_locked st = (Ok r, st') → follows p rs junk c0 (CompactRuns c r) c1.
Proof.
  intros c0 c1 [Hs Hcl Hex] Hone Hex' Hr. destruct st as [s w].
  cbn [c0 c1 run_state fst snd] in *.
  pose proof (wp_compact_locked p rs junk s w Hs Hone) as [[_ Hl] Hout].
  pose proof (flags_compact_body (s, w)) as Hfl. apply error_of_run in Hr as [-> Hr].
  assert (closed (compact_body (s, w)).2.1 = false) as Hcl'.
  { injection Hfl as E1 _ _ _. by rewrite E1. }
  unfold follows. cbn [c0 c1 run_state snd]. split; [done|].
  destruct (compact_body (s, w)) as [[[]|e| |] [s' w']]; cbn [fst snd] in *; simplify_eq.
  - left. destruct Hout as (rs' & Hcomp & Hok). exists rs', [].
    split_and!; [by split|done|]. intros k (-> & -> & ran & -> & Hran)%inside_of_split.
    destruct ran; [done|]. exists (Some (c, true)). split; [done|].
    rewrite (view_compacted rs rs') by (by try apply Hs). by repeat constructor.
  - right. destruct Hout as [Hd Hout]. split; [done|].
    intros [Hok|(rs' & _ & Hok)]%Hout; [exists rs, []|exists rs', []]; by split.
Qed.

Lemma step_follows p rs junk c e c' :
  sound p rs junk c → (faults (run_state c).2 ≤ 1)%nat → step c e c' → follows p rs junk c e c'.
Proof.
  intros Hsound Hone Hstep.
  pose proof (step_exclusive _ _ _ Hstep (sn_exclusive _ _ _ _ Hsound)) as Hex'.
  destruct Hstep as [ins t sf u st o a st' Ho Hr|ins t sf u st c t' st' Ht Hr|
    ins t sf u st c t' e st' Ht Hr|l l' t sf u st c r st' Hr|l l' t sf u st c r st' Hr|
    ins t u st r st' Ht Hr|ins sf u st Ht|ins t e u st|ins e sf u st];
    pose proof Hsound as [Hs Hcl [Hf Hn]]; cbn [run_state inside] in *.
  - eapply call_follows; try done. by constructor.
  - apply compact_enter_run in Hr as [(_ & Hco & ->)|(? & ? & _)]; [|done].
    eapply follows_quiet; [by apply store_ok_compacting|done|done|done|].
    intros k Hk. cbn [inside] in *. rewrite Hco, Hk in Hf. destruct k as [[]|]; [done|].
    exists (Some (c, false)). rewrite Hk. split; [done|constructor].
  - apply compact_enter_run in Hr as [(? & _)|(e' & [= <-] & -> & He)]; [done|].
    destruct (He Hcl ltac:(by eapply so_writable)) as [Hco ->].
    eapply (follows_quiet _ _ _ _ _ _ st.1); try done; [by destruct st|].
    intros k Hk. cbn [inside] in *. rewrite Hco, Hk in Hf. destruct k as [k|]; [|done].
    exists (Some k). split; [done|constructor].
  - by apply runs_follows.
  - injection Hr as <-. eapply follows_quiet; [by apply store_ok_compacting|done|done|done|].
    intros k (-> & -> & ran & -> & Hran)%inside_of_split. destruct ran; [|done].
    injection Hran as ->. exists None. split; [done|constructor].
  - apply error_of_run in Hr as [-> Hr].
    pose proof (run_OSync st Hcl) as Hrun. destruct (on_log log_Sync st) as [r0 st'].
    cbn [fst snd observe] in *. destruct r0 as [[]|e| |]; simplify_eq;
      apply (call_follows _ _ _ _ _ _ _ _ OSync _ _ _ _ _ Hsound Hone ltac:(done) Hex' Hrun);
      intros m k Hspec; [by apply spec_tick|]; destruct errors_Is; by inversion Hspec.
  - eapply (follows_quiet _ _ _ _ _ _ st.1); try done; [by destruct st|].
    intros k Hk. exists k. split; [done|constructor].
  - eapply (follows_quiet _ _ _ _ _ _ st.1); try done; [by destruct st|].
    intros k Hk. exists k. split; [done|constructor].
  - eapply (follows_quiet _ _ _ _ _ _ st.1); try done; [by destruct st|].
    intros k Hk. exists k. split; [done|constructor].
Qed.

(** Once the failure has happened the store stays usable. *)
Lemma steps_spent p rs junk c es c' :
  steps c es c' → sound p rs junk c → clean (run_state c).2 →
  clean (run_state c').2 ∧ ∃ rs' junk', sound p rs' junk' c'.
Proof.
  intros Hsteps. revert rs junk. unfold clean.
  induction Hsteps as [c|c e c' es c'' Hstep Hsteps IH]; intros rs junk Hs Hc; [by eauto|].
  destruct (step_follows _ _ _ _ _ _ Hs ltac:(lia) Hstep)
    as [Hl [(rs' & junk' & Hs' & _)|[Hd _]]]; [|lia].
  eapply IH; [done|lia].
Qed.

Lemma steps_follow p rs c es c' k :
  steps c es c' → sound p rs [] c → inside c = inside_of k → (faults (run_state c).2 ≤ 1)%nat →
  later (run_state c).2 (run_state c').2 ∧
  ((∃ rs' k', spec_events (view_of rs, k) es (view_of rs', k') ∧ sound p rs' [] c' ∧
     inside c' = inside_of k') ∨
   failed (run_state c).2 (run_state c').2 ∧ clean (run_state c').2 ∧
   ∃ rs' junk', sound p rs' junk' c').
Proof.
  intros Hsteps. revert rs k.
  induction Hsteps as [c|c e c' es c'' Hstep Hsteps IH]; intros rs k Hs Hk Hone.
  { split; [done|]. left. exists rs, k. split_and!; [constructor|done|done]. }
  destruct (step_follows _ _ _ _ _ _ Hs Hone Hstep)
    as [Hl [(rs' & junk' & Hs' & Hj & Hspec)|[Hd Hs']]].
  - rewrite (Hj eq_refl) in Hs'. destruct (Hspec k Hk) as (k' & Hk' & Hev).
    destruct (IH rs' k' Hs' Hk' ltac:(lia)) as [Hl' [(rs2 & k2 & Hevs & Hs2)|Hspent]].
    + split; [lia|]. left. exists rs2, k2. split; [by econstructor|done].
    + split; [lia|]. right. destruct Hspent as [Hd' Hspent]. split; [lia|done].
  - destruct (Hs' eq_refl) as (rs' & junk' & Hsound).
    destruct (steps_spent _ _ _ _ _ _ Hsteps Hsound ltac:(unfold clean; lia)) as [Hc Hok].
    unfold clean in Hc. split; [lia|]. right. split; [lia|done].
Qed.

(** What the process leaves when it dies. *)
Lemma dies_holds p rs junk c o st :
  sound p rs junk c → (faults (run_state c).2 ≤ 1)%nat → dies c o st →
  failed (run_state c).2 st.2 ∧
  (junk = [] → holds p (λ m, m = view_of rs ∨ ∃ a, spec_step (view_of rs) o a m) (files st.2)) ∧
  (∀ k, inside c = inside_of k → o = OCompact → ∃ cl, k = Some (cl, false)).
Proof.
  intros [Hs Hcl _] Hone.
  assert (∀ o r st', o ≠ OCompact → run_op o (run_state c) = (r, st') → r = None →
    failed (run_state c).2 st'.2 ∧
    (junk = [] → holds p (λ m, m = view_of rs ∨ ∃ a, spec_step (view_of rs) o a m) (files st'.2)))
    as Hcall.
  { intros o' r st' Ho Hr ->. destruct (run_state c) as [s w]. cbn [fst snd] in *.
    pose proof (run_op_outcome p rs junk s w Hs Hcl Hone o' ltac:(done)) as [_ Hout].
    rewrite Hr in Hout. exact Hout. }
  destruct 1 as [ins t sf u st o st' Ho Hr|ins t u st st' Ht Hr|l l' t sf u st c st' Hr];
    cbn [run_state inside] in *.
  - by destruct (Hcall o None st' Ho Hr eq_refl).
  - apply error_of_run in Hr as [-> Hr]. pose proof (run_OSync st Hcl) as Hrun.
    destruct (on_log log_Sync st) as [[[]|e| |] st']; try done.
    by destruct (Hcall OSync None st' ltac:(done) Hrun eq_refl).
  - destruct st as [s w]. cbn [fst snd] in *.
    pose proof (wp_compact_locked p rs junk s w Hs Hone) as [_ Hout].
    apply error_of_run in Hr as [-> Hr].
    destruct (compact_body (s, w)) as [[[]|e| |] [s' w']]; try done. cbn [fst snd] in *.
    destruct Hout as [Hd Hsv]. split_and!; [done| |].
    + intros ->. eapply survives_holds; [apply Hs|done|by left].
    + intros k (-> & -> & ran & -> & Hran)%inside_of_split _. destruct ran; [done|]. by exists c.
Qed.
End tasks.
Arguments config : clear implicits.
