(* ===== verification/StoreTheorems.v ===== *)
(** * Theorems on the store

    Durability, refinement of the map, and the behaviour of each public
    operation on every outcome.  Each theorem that has hypotheses is followed
    by its instance on the database of Demo.v. *)

From S2P Require Import Prelude Go Crc32c Attributes Reader Record Index Cache Legacy FileSystem.
From S2P Require Import Log LogSpec Scan Opening Lock Store StoreSpec Compact CompactSpec.
From S2P Require Import Lifecycle LifecycleSpec Contract Durability Runs Demo.
#[local] Open Scope Z_scope.

(** ** Concrete runs the instances use *)

Section demo_runs.
#[local] Existing Instance canonical_range.

Definition demo_ops : list op :=
  [OGet demo_key; OPut demo_key (str "v2") (Some demo_attrs); OCompact].

(** The process dies after 11 bytes of the record of the [Put]. *)
Definition demo_crash : option (list answer) * SS :=
  run_ops demo_ops (demo_store 0, demo_world 0 [] [DieIO 11]).

(** The process dies between the two renames of a compaction. *)
Definition demo_compact_crash : res unit * SS :=
  Compact (demo_store 0, demo_world 0 [] (replicate 14 Pass ++ [DieIO 0])).

(** The second rename of a compaction fails. *)
Definition demo_compact_error : res unit * SS :=
  Compact (demo_store 0, demo_world 0 [] (replicate 14 Pass ++ [FailIO 0])).
End demo_runs.

Lemma demo_compact_error_returns : ∃ e, demo_compact_error.1 = Err e.
Proof. vm_compute. by eexists. Qed.

(** ** Durability *)

(** C1. Crash consistency.  Let a store with the records [rs] run any sequence
    of Put, Delete, Get, GetMetadata, Compact and Sync calls, and let the
    process die at any system call of any of them, with any number of bytes
    of a write on disk.  Then the calls before the fatal one gave answers the
    contract allows, and whoever opens the database next finds the map those calls
    left, or the map after the fatal call: never anything else.  This stays
    true when the recovery itself fails or dies, any number of times. *)
Theorem crash_consistency `{!MapRange} p os rs s w st n :
  p ≠ [] → store_ok p 0 rs [] s w → closed s = false → compacting s = false →
  (faults w ≤ 1)%nat → run_ops os (s, w) = (None, st) →
  ∃ before o after answers st' m, os = before ++ o :: after ∧
    run_ops before (s, w) = (Some answers, st') ∧ run_op o st' = (None, st) ∧
    spec_run (view_of rs) before answers m ∧
    reopens n p (λ m', m' = m ∨ ∃ a, spec_step m o a m') (files st.2).
Proof.
  intros Hp Hs Hcl Hco Hone Hrun.
  destruct (run_ops_crash p os rs s w st Hs Hcl Hco Hone Hrun)
    as (before & o & after & answers & st' & m & Hos & Hrun' & Hdie & Hspec & Hholds).
  exists before, o, after, answers, st', m. split_and!; try done. by apply holds_reopens.
Qed.

Lemma crash_consistency_witness :
  ∃ before o after answers st' m, demo_ops = before ++ o :: after ∧
    run_ops (H:=canonical_range) before (demo_store 0, demo_world 0 [] [DieIO 11]) =
      (Some answers, st') ∧
    run_op (H:=canonical_range) o st' = (None, demo_crash.2) ∧
    spec_run (view_of demo_rs) before answers m ∧
    reopens (H:=canonical_range) 3 demo_path
      (λ m', m' = m ∨ ∃ a, spec_step m o a m') (files demo_crash.2.2).
Proof.
  apply (crash_consistency (H:=canonical_range) demo_path demo_ops demo_rs (demo_store 0)
    (demo_world 0 [] [DieIO 11]) demo_crash.2 3); [done|apply demo_ok|done|done| |].
  - vm_compute. lia.
  - apply pair_run. vm_compute. reflexivity.
Defined.

(** C2. Refinement.  Without failures, any sequence of calls on an open store
    answers exactly as the contract allows on the finite map the store holds,
    and leaves a store that holds the contract's resulting map. *)
Theorem store_refines_map `{!MapRange} p rs os s w :
  ready p rs s w →
  ∃ answers rs', (run_ops os (s, w)).1 = Some answers ∧
    spec_run (view_of rs) os answers (view_of rs') ∧
    ready p rs' (run_ops os (s, w)).2.1 (run_ops os (s, w)).2.2.
Proof. apply run_ops_refine. Qed.

Lemma store_refines_map_witness :
  let '(r, (s, w)) := run_ops (H:=canonical_range) demo_ops (demo_store 0, demo_world 0 [] []) in
  ∃ answers rs', r = Some answers ∧
    spec_run (view_of demo_rs) demo_ops answers (view_of rs') ∧ ready demo_path rs' s w.
Proof.
  pose proof (store_refines_map (H:=canonical_range) demo_path demo_rs demo_ops (demo_store 0)
    (demo_world 0 [] []) demo_ready) as Hr.
  destruct (run_ops _ _) as [r [s w]]. exact Hr.
Defined.

(** C3. Opening a database.  Whatever the schedule of failures: a successful
    [Open] holds the lock and a store with exactly the records of the log, a
    torn tail dropped (or left in place, when the log has read-only features
    this build does not know); an [Open] that fails or dies had a failure of
    the system to blame and leaves the same records on disk; it never panics. *)
Theorem open_recovers `{!MapRange} p ro rs tl o o' locks w :
  p ≠ [] → apply_defaults o = Some o' → [] ∉ IndexedFields o' →
  p ++ lockFileSuffix ∉ locks → 0 ≤ ro < 2 ^ 32 → Forall stored rs → torn_tail tl →
  on_disk p ro rs tl (files w) →
  wp (Open p o) (opens_store p ro rs tl o' locks w) (locks, w).
Proof. apply wp_Open. Qed.

Lemma open_recovers_witness :
  wp (Open (H:=canonical_range) demo_path demo_options)
    (opens_store demo_path 4 demo_rs demo_torn demo_options ∅ (demo_world 4 demo_torn []))
    (∅, demo_world 4 demo_torn []).
Proof.
  apply (open_recovers (H:=canonical_range));
    [done|reflexivity|by apply (bool_decide_unpack _)|done|done|apply demo_all_stored|
     apply demo_torn_tail|apply demo_on_disk].
Defined.

(** C4. Close and reopen.  [Close] of an open store succeeds when the system
    does not fail, releases the lock, and every later [Open] finds the same
    map. *)
Theorem close_then_open `{!MapRange} p rs s locks w f n :
  p ≠ [] → store_ok p 0 rs [] s w → closed s = false → clean w →
  ∃ s' w', Close (Some f) (s, (locks, w)) = (Ok tt, (s', (locks ∖ {[f]}, w'))) ∧
    closed s' = true ∧ reopens n p (λ m, m = view_of rs) (files w').
Proof.
  intros Hp Hs Hcl Hc.
  destruct (Close_clean p 0 rs [] s locks w f Hs Hcl Hc) as (s' & w' & Hrun & Hcl' & [Hf _]).
  exists s', w'. split; [done|]. split; [done|]. apply holds_reopens; [done|]. rewrite Hf.
  by apply (holds_store p rs s w).
Qed.

Lemma close_then_open_witness :
  let lock := demo_path ++ lockFileSuffix in
  ∃ s' w', Close (Some lock) (demo_store 0, ({[lock]}, demo_world 0 [] [])) =
      (Ok tt, (s', ({[lock]} ∖ {[lock]}, w'))) ∧
    closed s' = true ∧
    reopens (H:=canonical_range) 2 demo_path (λ m, m = view_of demo_rs) (files w').
Proof.
  apply (close_then_open (H:=canonical_range)); [done|apply demo_ok|done|done].
Defined.

(** C5. A new database.  [Open] of a path with no log and no remains of a
    compaction creates an empty store; only a failure of the system makes it
    fail. *)
Theorem open_new_database `{!MapRange} p o o' locks w :
  p ≠ [] → apply_defaults o = Some o' → [] ∉ IndexedFields o' →
  p ++ lockFileSuffix ∉ locks → survivor p (files w) = None →
  wp (Open p o) (opens_new p o' locks w) (locks, w).
Proof. apply wp_Open_new. Qed.

Lemma open_new_database_witness :
  wp (Open (H:=canonical_range) demo_path demo_options)
    (opens_new demo_path demo_options ∅ (World ∅ [Pass; Pass; FailIO 3]))
    (∅, World ∅ [Pass; Pass; FailIO 3]).
Proof.
  apply (open_new_database (H:=canonical_range));
    [done|reflexivity|by apply (bool_decide_unpack _)|done|reflexivity].
Defined.

(** ** Compaction *)

(** C6. A compaction keeps everything.  Without failures [Compact] succeeds,
    and afterwards the log has one record per live key, with the key's value,
    attributes and extension area unchanged. *)
Theorem compaction_keeps_everything `{!MapRange} p rs junk s w :
  store_ok p 0 rs junk s w → closed s = false → compacting s = false → clean w →
  wp Compact (λ r st, r = Ok tt ∧ ∃ rs',
    store_ok p 0 rs' [] st.1 st.2 ∧ length rs' = size (live rs) ∧
    dom (live rs') = dom (live rs) ∧
    ∀ k r, live rs !! k = Some r → ∃ r', live rs' !! k = Some r' ∧
      raw_value r' = raw_value r ∧ raw_attrs r' = raw_attrs r ∧
      raw_extensions r' = raw_extensions r) (s, w).
Proof.
  intros Hs Hcl Hco Hc. unfold clean in Hc.
  eapply wp_mono; [apply (wp_Compact p rs junk s w); try done; lia|].
  intros [[]|e| |] st [_ Hr]; try lia.
  destruct Hr as (rs' & (Hst' & Hl & Hlen) & Hok). split; [done|]. exists rs'.
  split; [done|]. split; [done|]. rewrite Hl. split; [by rewrite dom_fmap_L|].
  intros k r Hk. rewrite lookup_fmap, Hk. exists (rewritten r). split; [done|]. split; [done|].
  split; [|done]. apply rewritten_stored. apply live_key in Hk as [Hin _].
  eapply Forall_forall; [apply Hs|done].
Qed.

Lemma compaction_keeps_everything_witness :
  wp (Compact (H:=canonical_range)) (λ r st, r = Ok tt ∧ ∃ rs',
    store_ok demo_path 0 rs' [] st.1 st.2 ∧ length rs' = size (live demo_rs) ∧
    dom (live rs') = dom (live demo_rs) ∧
    ∀ k r, live demo_rs !! k = Some r → ∃ r', live rs' !! k = Some r' ∧
      raw_value r' = raw_value r ∧ raw_attrs r' = raw_attrs r ∧
      raw_extensions r' = raw_extensions r) (demo_store 0, demo_world 0 demo_torn []).
Proof.
  apply (compaction_keeps_everything (H:=canonical_range) demo_path demo_rs demo_torn);
    [apply demo_ok|done|done|done].
Defined.

(** C7. A compaction that stops half way, after one failure of the system.  If
    the process dies at any system call of [Compact], every later [Open] finds
    the map the store held.  If [Compact] returns an error, the store goes on:
    it is open on the old log or on the compacted one, with the same map either
    way. *)
Theorem compaction_failure_safe `{!MapRange} p rs s w r st n :
  p ≠ [] → store_ok p 0 rs [] s w → closed s = false → compacting s = false →
  (faults w ≤ 1)%nat → Compact (s, w) = (r, st) →
  match r with
  | Ok _ => True
  | Err _ => closed st.1 = false ∧ compacting st.1 = false ∧ clean st.2 ∧
             ∃ rs', store_ok p 0 rs' [] st.1 st.2 ∧ view_of rs' = view_of rs
  | Crash => reopens n p (λ m, m = view_of rs) (files st.2)
  | Panic => False
  end.
Proof.
  intros Hp Hs Hcl Hco Hone Hrun.
  pose proof (wp_Compact p rs [] s w Hs Hcl Hco Hone) as [_ Hr].
  pose proof (idle_Compact s w Hcl Hco) as Hfl. rewrite Hrun, Hco in Hfl. rewrite Hrun in Hr.
  destruct st as [s' w']. destruct r as [[]|e| |]; try done.
  - destruct (Hfl I) as [Hcl' Hco']. destruct Hr as [Hd Hsv]. cbn [fst snd] in *.
    split; [done|]. split; [done|]. split; [unfold clean; lia|].
    destruct (Hsv eq_refl) as [Hok|(rs' & Hcomp & Hok)]; [by exists rs|].
    exists rs'. split; [done|]. by apply view_compacted; [apply Hs|].
  - apply holds_reopens; [done|]. by eapply (Compact_crash_holds p rs s w).
Qed.

Lemma compaction_failure_safe_witness :
  reopens (H:=canonical_range) 2 demo_path (λ m, m = view_of demo_rs)
    (files demo_compact_crash.2.2) ∧
  ∃ rs', store_ok demo_path 0 rs' [] demo_compact_error.2.1 demo_compact_error.2.2 ∧
    view_of rs' = view_of demo_rs.
Proof.
  split.
  - apply (compaction_failure_safe (H:=canonical_range) demo_path demo_rs (demo_store 0)
      (demo_world 0 [] (replicate 14 Pass ++ [DieIO 0])) Crash demo_compact_crash.2 2);
      [done|apply demo_ok|done|done|vm_compute; lia|].
    apply pair_run. vm_compute. reflexivity.
  - destruct demo_compact_error_returns as [e He].
    refine (proj2 (proj2 (proj2 (compaction_failure_safe (H:=canonical_range) demo_path demo_rs
      (demo_store 0) (demo_world 0 [] (replicate 14 Pass ++ [FailIO 0])) (Err e)
      demo_compact_error.2 2 _ _ _ _ _ _)))); [done|apply demo_ok|done|done|vm_compute; lia|].
    exact (pair_run _ _ He).
Defined.

(** ** Writes *)

(** C12. [Put], and [Delete] of a stored key, on every outcome.  Success: the
    record (a tombstone for [Delete]) is appended and index and cache follow.
    An error of the system: the store still works, on the old records or, when
    only the sync failed, on the new ones.  A crash: the log ends in some
    prefix of the record.  No other file is touched. *)
Theorem write_outcomes `{!MapRange} p rs junk s w key value opts :
  store_ok p 0 rs junk s w → closed s = false →
  (append_ok key value (default ∅ opts) [] →
   wp (Put key value opts)
     (writes (entry false key value (default ∅ opts) []) p rs junk s w) (s, w)) ∧
  (is_Some (live rs !! key) →
   wp (Delete key) (writes (entry true key [] ∅ []) p rs junk s w) (s, w)).
Proof. intros Hs Hcl. split; intros Hk; [by apply wp_Put|by apply wp_Delete]. Qed.

Lemma write_outcomes_witness :
  let w := demo_world 0 demo_torn [FailIO 7] in
  wp (Put (H:=canonical_range) demo_key (str "v2") (Some demo_attrs))
    (writes (entry false demo_key (str "v2") demo_attrs []) demo_path demo_rs demo_torn
      (demo_store 0) w) (demo_store 0, w) ∧
  wp (Delete (H:=canonical_range) demo_key)
    (writes (entry true demo_key [] ∅ []) demo_path demo_rs demo_torn (demo_store 0) w)
    (demo_store 0, w).
Proof.
  destruct (write_outcomes (H:=canonical_range) demo_path demo_rs demo_torn (demo_store 0)
    (demo_world 0 demo_torn [FailIO 7]) demo_key (str "v2") (Some demo_attrs)
    (demo_ok _ _) eq_refl) as [Hput Hdel].
  split; [apply Hput; by apply demo_append_ok; [|left]|apply Hdel; by exists demo_rec].
Defined.

(** C13. Refused writes change nothing.  A [Put] with a key, value or attribute
    set beyond the limits, and a [Delete] of a missing key, return an error
    that tells which it was and leave store and disk exactly as they were. *)
Theorem refused_writes_change_nothing `{!MapRange} p rs junk s w key value opts :
  store_ok p 0 rs junk s w → closed s = false →
  (¬ append_ok key value (default ∅ opts) [] →
   ∃ e, input_error e ∧ Put key value opts (s, w) = (Err e, (s, w))) ∧
  (live rs !! key = None →
   Delete key (s, w) = (Err (Errorf "key" [Sentinel ErrKeyNotFound]), (s, w))).
Proof.
  intros Hs Hcl. split.
  - by apply (Put_refused p rs junk).
  - apply (Delete_missing p 0 rs junk); [done|done|]. by eapply so_writable.
Qed.

(** An attribute with an empty name. *)
Lemma empty_name_refused :
  ¬ append_ok (str "x") [] (default ∅ (Some {[ [] := str "1" ]})) [].
Proof.
  intros (_ & _ & _ & _ & _ & Hempty & _).
  destruct (Hempty [] (str "1")) as [Hne _]; [apply lookup_singleton_eq|by apply Hne].
Qed.

Lemma refused_writes_change_nothing_witness :
  let st := (demo_store 0, demo_world 0 [] []) in
  (∃ e, input_error e ∧
     Put (H:=canonical_range) (str "x") [] (Some {[ [] := str "1" ]}) st = (Err e, st)) ∧
  Delete (H:=canonical_range) (str "x") st = (Err (Errorf "key" [Sentinel ErrKeyNotFound]), st).
Proof.
  destruct (refused_writes_change_nothing (H:=canonical_range) demo_path demo_rs []
    (demo_store 0) (demo_world 0 [] []) (str "x") [] (Some {[ [] := str "1" ]})
    (demo_ok _ _) eq_refl) as [Hput Hdelete].
  split; [exact (Hput empty_name_refused)|exact (Hdelete eq_refl)].
Defined.

(** C14. After [Close], whatever it returned, the store is closed: [Put],
    [Delete], [Get], [GetMetadata], [ForEach], [ForEachMetadata], [Compact] and
    [Sync] return [ErrStoreClosed], [Exists] says false, a second [Close]
    returns nil, and none of them changes anything.  (The other queries answer
    from memory and have no error to return.)  A store whose log has read-only
    features this build does not know refuses [Put], [Delete] and [Compact]
    with an error that wraps [ErrReadOnly]; nothing changes. *)
Theorem closed_and_read_only_refuse `{!MapRange} {U : Type} (p : bytes) (ro : Z) (rs : list raw)
    (junk : bytes) (s : Store) (w : world) (lock : fileLock) (locks : gset bytes)
    (key value : bytes) (opts : option attrs) (pooled : bytes)
    (fn : bytes → bytes → M (U * SS) unit) (fm : bytes → attrs → M (U * SS) unit) :
  (let s' := (Close lock (s, (locks, w))).2.1 in
   closed s' = true ∧ Exists s' key = false ∧
   ∀ (w' : world) (u : U),
     Put key value opts (s', w') = (Err (Sentinel ErrStoreClosed), (s', w')) ∧
     Delete key (s', w') = (Err (Sentinel ErrStoreClosed), (s', w')) ∧
     Get pooled key (s', w') = (Err (Sentinel ErrStoreClosed), (s', w')) ∧
     GetMetadata key (s', w') = (Err (Sentinel ErrStoreClosed), (s', w')) ∧
     ForEach fn (u, (s', w')) = (Err (Sentinel ErrStoreClosed), (u, (s', w'))) ∧
     ForEachMetadata fm (u, (s', w')) = (Err (Sentinel ErrStoreClosed), (u, (s', w'))) ∧
     Compact (s', w') = (Err (Sentinel ErrStoreClosed), (s', w')) ∧
     store_Sync (s', w') = (Err (Sentinel ErrStoreClosed), (s', w')) ∧
     ∀ (lock' : fileLock) (locks' : gset bytes), Close lock' (s', (locks', w')) = (Ok tt, (s', (locks', w')))) ∧
  (store_ok p ro rs junk s w → closed s = false → ro ≠ 0 →
   ∃ e, errors_Is e ErrReadOnly = true ∧
     Put key value opts (s, w) = (Err e, (s, w)) ∧
     Delete key (s, w) = (Err e, (s, w)) ∧
     Compact (s, w) = (Err e, (s, w))).
Proof.
  split.
  - pose proof (Close_closes lock (s, (locks, w))) as Hcl. intros s'. fold s' in Hcl.
    split; [done|]. unfold Exists, Put, Delete, Get, GetMetadata, ForEach, ForEachMetadata, Compact,
      compact_enter, store_Sync, Close, on_snd, zoom, check_open, mbind, M_bind.
    clearbody s'. simpl. by rewrite Hcl.
  - intros Hs Hcl Hro. pose proof (so_reason _ _ _ _ _ _ Hs) as Hr.
    destruct (readOnlyReason s) as [e|] eqn:He; [|done]. exists e. split; [apply Hr|].
    unfold Put, Delete, Compact, compact_enter, check_open, check_writable, mbind, M_bind. simpl.
    rewrite Hcl. simpl. by rewrite He.
Qed.

(** A store that has been closed, and one that is read-only. *)
Lemma closed_and_read_only_refuse_witness :
  let w := demo_world 4 [] [] in
  let lock := Some demo_path in
  let s' := (Close lock (demo_store 4, ({[demo_path]}, w))).2.1 in
  (closed s' = true ∧
   Put (H:=canonical_range) demo_key [] None (s', w) = (Err (Sentinel ErrStoreClosed), (s', w))) ∧
  ∃ e, errors_Is e ErrReadOnly = true ∧
   Put (H:=canonical_range) demo_key [] None (demo_store 4, w) = (Err e, (demo_store 4, w)) ∧
   Delete (H:=canonical_range) demo_key (demo_store 4, w) = (Err e, (demo_store 4, w)) ∧
   Compact (H:=canonical_range) (demo_store 4, w) = (Err e, (demo_store 4, w)).
Proof.
  destruct (closed_and_read_only_refuse (H:=canonical_range) (U:=unit) demo_path 4 demo_rs []
    (demo_store 4) (demo_world 4 [] []) (Some demo_path) {[demo_path]} demo_key [] None []
    (λ _ _, mret tt) (λ _ _, mret tt)) as [(Hcl & _ & Hall) Hro].
  split; [split; [exact Hcl|exact (proj1 (Hall _ tt))]|].
  apply Hro; [by apply demo_store_ok|done|done].
Defined.

(** ** Reads *)

(** C15. [Get] returns the value of the live record, from the cache, the
    memory map or the file, whatever the pooled buffer held; only a failure of
    the system makes it fail, and a failed read leaves the store as it was. A
    missing key is reported as [ErrKeyNotFound]. *)
Theorem get_returns_live_value `{!MapRange} p ro rs junk s w pooled key :
  store_ok p ro rs junk s w → closed s = false →
  match live rs !! key with
  | Some rec => wp (Get pooled key) (gets p ro rs junk rec w) (s, w)
  | None => ∃ c, Get pooled key (s, w) =
                   (Err (Errorf "key" [Sentinel ErrKeyNotFound]), (set_cache c s, w)) ∧
                 store_ok p ro rs junk (set_cache c s) w
  end.
Proof.
  intros Hs Hcl. destruct (live rs !! key) eqn:Hlive; [by apply wp_Get|by apply Get_missing].
Qed.

Lemma get_returns_live_value_witness :
  wp (Get (str "stale") demo_key)
    (gets demo_path 0 demo_rs demo_torn demo_rec (demo_world 0 demo_torn [FailIO 0]))
    (demo_store 0, demo_world 0 demo_torn [FailIO 0]).
Proof.
  pose proof (get_returns_live_value (H:=canonical_range) demo_path 0 demo_rs demo_torn
    (demo_store 0) (demo_world 0 demo_torn [FailIO 0]) (str "stale") demo_key
    (demo_ok _ _) eq_refl) as Hget.
  rewrite demo_live in Hget. exact Hget.
Defined.

(** C16. The in-memory queries agree with the map: [Exists], [Len], [Keys]
    (each live key once) and [GetMetadata] (the attributes of the live
    record).  So do the secondary indexes: for an indexed field [KeysBy] lists,
    once each, exactly the keys whose live record has the value, [CountBy]
    counts them, and [AttributeValues] lists exactly the values in use. *)
Theorem queries_agree_with_map `{!MapRange} p ro rs junk s w key :
  store_ok p ro rs junk s w → closed s = false →
  Exists s key = bool_decide (is_Some (live rs !! key)) ∧
  Len s = Z.of_nat (size (live rs)) ∧
  NoDup (Keys s) ∧ (∀ k, k ∈ Keys s ↔ is_Some (live rs !! k)) ∧
  GetMetadata key (s, w) =
    (match live rs !! key with
     | Some r => Ok (raw_attrs r)
     | None => Err (Errorf "key" [Sentinel ErrKeyNotFound])
     end, (s, w)) ∧
  ∀ field, field ∈ indexedFields (s_index s) →
    (∀ value, NoDup (KeysBy s field value) ∧
      CountBy s field value = len (KeysBy s field value) ∧
      ∀ k, k ∈ KeysBy s field value ↔ live_attr (live rs) field value k) ∧
    NoDup (AttributeValues s field) ∧
    (∀ v, v ∈ AttributeValues s field ↔ ∃ k, live_attr (live rs) field v k).
Proof.
  intros Hs Hcl. destruct (Keys_spec p ro rs junk s w Hs) as [Hnd Hin].
  split_and!; [by eapply Exists_spec|by eapply Len_spec|done|done|by eapply GetMetadata_spec|].
  intros field Hf. split; [|by apply (AttributeValues_spec p ro rs junk s w)].
  intros value. by apply (KeysBy_spec p ro rs junk s w).
Qed.

Lemma queries_agree_with_map_witness :
  let s := demo_store 4 in
  Len s = Z.of_nat (size (live demo_rs)) ∧
  (∀ k, k ∈ KeysBy (H:=canonical_range) s demo_field (str "note") ↔
        live_attr (live demo_rs) demo_field (str "note") k).
Proof.
  destruct (queries_agree_with_map (H:=canonical_range) demo_path 4 demo_rs [] (demo_store 4)
    (demo_world 4 [] []) demo_key) as (_ & Hlen & _ & _ & _ & Hidx);
    [by apply demo_store_ok|done|].
  split; [exact Hlen|]. destruct (Hidx demo_field) as [Hkeys _].
  - by apply (bool_decide_unpack _).
  - exact (proj2 (proj2 (Hkeys (str "note")))).
Defined.

(** C17. [ForEach] visits every live key once, in the order of the records on
    disk, with the value of its live record, for a callback that leaves the
    store alone; a failed read stops it with an error and the store as it
    was. *)
Theorem foreach_visits_in_disk_order `{!MapRange} {U} (visit : bytes → bytes → U → U)
    p ro rs junk u s w :
  store_ok p ro rs junk s w → closed s = false →
  ∃ ks, in_disk_order (entries (s_index s)) ks ∧
    NoDup ks ∧ (∀ k, k ∈ ks ↔ is_Some (live rs !! k)) ∧
    wp (ForEach (λ k v, on_fst (modify (visit k v))))
      (visits visit p ro rs junk ks u w) (u, (s, w)).
Proof.
  intros Hs Hcl. destruct (wp_ForEach visit p ro rs junk u s w Hs Hcl) as (ks & Hord & Hwp).
  exists ks. destruct (Keys_spec p ro rs junk s w Hs) as [_ Hin]. split; [done|].
  destruct Hord as [Hperm _]. split; [|split; [|done]].
  - rewrite Hperm. apply NoDup_fst_map_to_list.
  - intros k. rewrite <- Hin. unfold Keys, idx_Keys. by rewrite Hperm, range_perm.
Qed.

Lemma foreach_visits_in_disk_order_witness :
  let visit k v (u : list (bytes * bytes)) := u ++ [(k, v)] in
  ∃ ks, in_disk_order (entries (s_index (demo_store 0))) ks ∧
    NoDup ks ∧ (∀ k, k ∈ ks ↔ is_Some (live demo_rs !! k)) ∧
    wp (ForEach (H:=canonical_range) (λ k v, on_fst (modify (visit k v))))
      (visits visit demo_path 0 demo_rs [] ks [] (demo_world 0 [] []))
      ([], (demo_store 0, demo_world 0 [] [])).
Proof.
  apply (foreach_visits_in_disk_order (H:=canonical_range)); [apply demo_ok|done].
Defined.

(** C18. The process lock.  While another store holds the lock of [p], [Open]
    never succeeds: it returns an error that wraps [ErrStoreLocked], unless
    the system failed first, and touches neither the database nor the lock. *)
Theorem open_excludes_second_store `{!MapRange} p o o' locks w :
  p ≠ [] → apply_defaults o = Some o' → [] ∉ IndexedFields o' →
  p ++ lockFileSuffix ∈ locks →
  wp (Open p o) (λ r s', locking p w s'.2 ∧ s'.1 = locks ∧
    match r with
    | Ok _ | Panic => False
    | Err e => errors_Is e ErrStoreLocked = true ∨ failed w s'.2
    | Crash => failed w s'.2
    end) (locks, w).
Proof. apply Open_held. Qed.

Lemma open_excludes_second_store_witness :
  let w := demo_world 0 [] [] in
  wp (Open (H:=canonical_range) demo_path demo_options)
    (λ r s', locking demo_path w s'.2 ∧ s'.1 = {[demo_path ++ lockFileSuffix]} ∧
    match r with
    | Ok _ | Panic => False
    | Err e => errors_Is e ErrStoreLocked = true ∨ failed w s'.2
    | Crash => failed w s'.2
    end) ({[demo_path ++ lockFileSuffix]}, w).
Proof.
  apply (open_excludes_second_store (H:=canonical_range) demo_path demo_options demo_options);
    [done|reflexivity|by apply (bool_decide_unpack _)|by apply (bool_decide_unpack _)].
Defined.
