(* ===== verification/VersionTheorems.v ===== *)
(** * Theorems on older formats

    Opening a database of any format this build reads, and writing one of an
    older format from the command line.  Each theorem with hypotheses is
    followed by its instance on a concrete database. *)

From S2P Require Import Prelude Go Crc32c Attributes Reader Record Index Cache Strconv Legacy.
From S2P Require Import FileSystem Log LogSpec Scan Opening Lock Store StoreSpec Compact CompactSpec.
From S2P Require Import Lifecycle LifecycleSpec Contract Durability Runs Demo Migration.
From S2P Require Import Downgrade DowngradeSpec.
#[local] Open Scope Z_scope.

(** ** Concrete databases the instances use *)

Lemma demo_legacy_log_file : log_file 3 (lg_raw 3 <$> [demo_legacy]) demo_legacy_file.
Proof.
  apply (file_legacy 3 [demo_legacy] [Byte.x01]); [done| |apply demo_legacy_torn].
  constructor; [apply demo_legacy_ok|constructor].
Qed.

(** A database that every format can hold. *)
Definition plain_rec : raw :=
  entry false demo_key demo_value {[legacyCategoryAttribute := str "tv"]} [].
Definition plain_rs : list raw := [plain_rec].

Definition plain_world (schedule : list fault) : world :=
  World {[demo_path := (header_bytes logVersion 0 0 ++ log_records plain_rs) ++ []]} schedule.

Lemma plain_stored : Forall stored plain_rs.
Proof.
  constructor; [|constructor]. eapply proj1, stored_valid, entry_valid.
  split; [by vm_compute|]. split; [done|]. split; [by vm_compute|]. split; [constructor|].
  split; [by vm_compute|]. split; [|by vm_compute].
  intros k v [<- <-]%lookup_singleton_Some. split_and!; [done|by vm_compute|by vm_compute].
Qed.

Definition old_path : bytes := str "db.v3".

Lemma old_path_clear : clear_of demo_path old_path.
Proof. by split; apply (bool_decide_unpack _). Qed.
Lemma old_temp_clear : clear_of demo_path (old_path ++ downgradeTempSuffix).
Proof. by split; apply (bool_decide_unpack _). Qed.

(** ** Migration *)

(** C9. Migration keeps the map.  [Open] of a database of any format from 1 to
    5, with at most one failure of the system: success gives a store of the
    current format with the map of the old log, and a copy of the old log next
    to it unless the options say otherwise (an earlier copy is kept); an error
    means that the system failed or the application's [OnMigrate] refused; and
    whatever went wrong, and however often, every later [Open] finds the same
    map. *)
Theorem migration_keeps_the_map `{!MapRange} (p : bytes) (v : Z) (rs : list raw) (c : bytes) (o o' : Options)
    (locks : gset bytes) (w : world) (n : nat) :
  p ≠ [] → apply_defaults o = Some o' → [] ∉ IndexedFields o' → p ++ lockFileSuffix ∉ locks →
  log_file v rs c → survivor p (files w) = Some c → (faults w ≤ 1)%nat →
  wp (Open p o) (λ r st, opens_any p v rs o' locks w r st ∧
    (broken r → reopens_any n p (λ m, m = view_of rs) (files st.2))) (locks, w).
Proof.
  intros Hp Ho Hf Hfree Hlog Hdisk Hone. eapply wp_mono; [by apply (wp_Open_any p v rs c)|].
  intros r st Hr. split; [done|]. intros Hb. apply holds_any_reopens; [done|].
  destruct Hr as [_ Hr]. by destruct r; try done; destruct Hr.
Qed.

Lemma migration_keeps_the_map_witness :
  let w := World {[demo_path := demo_legacy_file]} (replicate 20 Pass ++ [DieIO 3]) in
  wp (Open (H:=canonical_range) demo_path demo_options)
    (λ r st, opens_any demo_path 3 (lg_raw 3 <$> [demo_legacy]) demo_options ∅ w r st ∧
      (broken r → reopens_any (H:=canonical_range) 2 demo_path
        (λ m, m = view_of (lg_raw 3 <$> [demo_legacy])) (files st.2))) (∅, w).
Proof.
  apply (migration_keeps_the_map (H:=canonical_range) demo_path 3 _ demo_legacy_file);
    [done|reflexivity|by apply (bool_decide_unpack _)|done|apply demo_legacy_log_file|reflexivity|].
  vm_compute. lia.
Defined.

(** ** Downgrade *)

(** C10. [Downgrade] on every outcome, for every schedule of failures, with a
    source of format 4 or 5 (possibly behind an interrupted compaction or with
    a torn tail).  Wherever it stops, the source still holds its records, no
    file but the source's own, the destination and its temporary name has
    changed, and the destination is untouched or complete, the latter only
    when every live record can be written in the target format.  Success means
    a complete destination; an error means a failure of the system, a record
    the target format cannot express, or a destination that exists; the lock
    is given back. *)
Theorem downgrade_outcomes `{!MapRange} (src dst : bytes) (t v : Z) (rs : list raw) (tl : bytes) (overwrite : bool)
    (locks : gset bytes) (w : world) :
  t = 3 ∨ t = 4 → v45 v → Forall stored rs → torn_tail tl →
  clear_of src dst → clear_of src (dst ++ downgradeTempSuffix) →
  src ++ lockFileSuffix ∉ locks →
  survivor src (files w) = Some ((header_bytes v 0 0 ++ log_records rs) ++ tl) →
  wp (Downgrade src dst {| Version := t; Overwrite := overwrite |})
    (outcome src dst t v rs tl overwrite locks w) (locks, w).
Proof. intros. by apply wp_Downgrade. Qed.

(** The process dies after 30 bytes of the new log have been written. *)
Lemma downgrade_outcomes_witness :
  let w := plain_world (replicate 12 Pass ++ [DieIO 30]) in
  wp (Downgrade (H:=canonical_range) demo_path old_path {| Version := 4; Overwrite := true |})
    (outcome demo_path old_path 4 logVersion plain_rs [] true ∅ w) (∅, w).
Proof.
  apply (downgrade_outcomes (H:=canonical_range)); [by right|by right|apply plain_stored|
    apply torn_nil|apply old_path_clear|apply old_temp_clear|done|reflexivity].
Defined.

(** C11. Downgrade and open.  When the system does not fail, [Downgrade] to an
    unused path (or with the option to overwrite) succeeds exactly when every
    live record can be written in the target format; then opening the
    destination, by this build or after attempts that fail, finds the map of
    the source, with the eight version 3 fields in canonical form when the
    target is 3.  Otherwise it returns an error and leaves the destination as
    it was.  The source holds its map either way. *)
Theorem downgrade_then_open `{!MapRange} (src dst : bytes) (t v : Z) (rs : list raw) (tl : bytes)
    (overwrite : bool) (locks : gset bytes) (w : world) (n : nat) :
  t = 3 ∨ t = 4 → v45 v → Forall stored rs → torn_tail tl →
  clear_of src dst → clear_of src (dst ++ downgradeTempSuffix) → src ≠ [] → dst ≠ [] →
  src ++ lockFileSuffix ∉ locks →
  survivor src (files w) = Some ((header_bytes v 0 0 ++ log_records rs) ++ tl) →
  clean w → overwrite = true ∨ files w !! dst = None →
  wp (Downgrade src dst {| Version := t; Overwrite := overwrite |})
    (λ r st, st.1 = locks ∧ reopens_any n src (λ m, m = view_of rs) (files st.2) ∧
      (all_expressible t rs →
       r = Ok tt ∧ reopens_any n dst (λ m, m = downgraded t (view_of rs)) (files st.2)) ∧
      (¬ all_expressible t rs → (∃ e, r = Err e) ∧ files st.2 !! dst = files w !! dst))
    (locks, w).
Proof.
  intros Ht Hv Hst Htl Hdst Htmp Hsrc0 Hdst0 Hfree Hdisk Hc Hnew. unfold clean in Hc.
  eapply wp_mono; [by apply (wp_Downgrade src dst t v rs tl)|].
  intros r st (He & Hlk & Hr).
  assert (returns r) as Hret by (destruct r; try done; lia).
  split; [by apply Hlk|]. split.
  { apply holds_any_reopens; [done|]. exists v, rs.
    destruct (ef_source _ _ _ _ _ _ _ _ He) as [Hs|Hs]; eexists; (split; [exact Hs|]);
      (split; [|done]); [rewrite <- app_assoc; by apply file_v45|by apply log_file_complete]. }
  split.
  - intros Hall. destruct r as [[]|e| |]; try done.
    + split; [done|]. destruct Hr as (_ & c & Hf & rs' & Hlog & Hview).
      apply holds_any_reopens; [done|]. exists t, rs', c. split; [by apply survivor_main|done].
    + destruct Hr as [?|[Hno|[-> [d Hd]]]]; [lia|by destruct Hno|].
      destruct Hnew as [|Hnew]; [done|]. by rewrite Hnew in Hd.
  - intros Hno. destruct r as [[]|e| |]; try done; [by destruct Hr|]. split; [by exists e|].
    destruct (ef_dest _ _ _ _ _ _ _ _ He) as [|[Hall _]]; [done|]. by destruct Hno.
Qed.

Lemma plain_expressible : all_expressible 3 plain_rs.
Proof.
  intros k rec Hk. assert (rec = plain_rec) as ->.
  { apply live_key in Hk as [Hin _]. by apply list_elem_of_singleton in Hin. }
  apply (encodeV3Record_accepts (H:=canonical_range) demo_key demo_value).
  eexists. vm_compute. reflexivity.
Qed.

Lemma downgrade_then_open_witness :
  let w := plain_world [] in
  wp (Downgrade (H:=canonical_range) demo_path old_path {| Version := 3; Overwrite := false |})
    (λ r st, r = Ok tt ∧ reopens_any (H:=canonical_range) 1 old_path
       (λ m, m = downgraded 3 (view_of plain_rs)) (files st.2)) (∅, w).
Proof.
  eapply wp_mono.
  - apply (downgrade_then_open (H:=canonical_range) demo_path old_path 3 logVersion plain_rs []
      false ∅ (plain_world []) 1); [by left|by right|apply plain_stored|apply torn_nil|
      apply old_path_clear|apply old_temp_clear|done|done|done|reflexivity|done|by right].
  - intros r st (_ & _ & Hall & _). apply Hall, plain_expressible.
Defined.

(** C22. Refusals.  A target version other than 3 and 4, and a destination that
    is the source, are refused before anything is read.  A source that is
    older than format 4, or whose header has feature bits, is refused for
    every schedule of failures: no file but the lock file and the remains of
    an interrupted compaction is touched, not the destination either.  The
    program exits with 2 when it is not given two paths, and otherwise with 0
    if and only if the downgrade succeeded, 1 if it failed; its version number
    is taken modulo 2^32. *)
Theorem downgrade_refuses `{!MapRange} (src dst : bytes) (t v i ro to : Z) (overwrite : bool)
    (args : list bytes) (body : bytes) (locks : gset bytes) (w : world) :
  (t ≠ 3 → t ≠ 4 → ∃ e, Downgrade src dst {| Version := t; Overwrite := overwrite |} (locks, w) =
     (Err e, (locks, w))) ∧
  (t = 3 ∨ t = 4 → ∃ e, Downgrade src src {| Version := t; Overwrite := overwrite |} (locks, w) =
     (Err e, (locks, w))) ∧
  (t = 3 ∨ t = 4 → src ≠ dst → header_ok v i ro → v < 4 ∨ header_masks v i ro ≠ (0, 0) →
   src ++ lockFileSuffix ∉ locks → survivor src (files w) = Some (header_bytes v i ro ++ body) →
   wp (Downgrade src dst {| Version := t; Overwrite := overwrite |})
     (λ r st, (returns r → st.1 = locks) ∧ refuses src w r st.2) (locks, w)) ∧
  (length args ≠ 2%nat → main to overwrite args (locks, w) = (Ok 2, (locks, w))) ∧
  (let '(r, st) := Downgrade src dst {| Version := to mod 2 ^ 32; Overwrite := overwrite |} (locks, w) in
   main to overwrite [src; dst] (locks, w) =
     (match r with Ok _ => Ok 0 | Err _ => Ok 1 | Panic => Panic | Crash => Crash end, st)).
Proof.
  split; [|split; [|split; [|split]]].
  - intros H3 H4. eexists. unfold Downgrade. cbn [Version].
    by rewrite (proj2 (Z.eqb_neq _ _) H3), (proj2 (Z.eqb_neq _ _) H4).
  - intros Ht. eexists. unfold Downgrade. cbn [Version].
    assert (negb (t =? 3) && negb (t =? 4) = false) as -> by (by destruct Ht as [-> | ->]).
    by rewrite bool_decide_eq_true_2.
  - intros. by apply (wp_Downgrade_refused src dst t v i ro body).
  - intros Hargs. unfold main. by destruct args as [|a [|b [|]]].
  - unfold main, uint32, mbind, M_bind, attempt.
    by destruct (Downgrade _ _ _ _) as [[[]| | |] st].
Qed.

(** A log of format 3 is not downgraded. *)
Lemma downgrade_refuses_witness :
  let w := World {[demo_path := demo_legacy_file]} [] in
  wp (Downgrade (H:=canonical_range) demo_path old_path {| Version := 4; Overwrite := true |})
    (λ r st, (returns r → st.1 = ∅) ∧ refuses demo_path w r st.2) (∅, w).
Proof.
  apply (downgrade_refuses (H:=canonical_range) demo_path old_path 4 3 0 0 4 true []
    (lg_record 3 demo_legacy ++ [Byte.x01]) ∅ (World {[demo_path := demo_legacy_file]} []));
    [by right|done|by vm_compute|by left|done|reflexivity].
Defined.
