(* ===== verification/UpkeepTheorems.v ===== *)
(** * Theorems on sizes and background work

    Where the index points, when a compaction has nothing left to do, and the
    goroutines that sync and compact while the application calls the store.
    Each theorem with hypotheses is followed by its instance. *)

From S2P Require Import Prelude Go Crc32c Attributes Reader Record Index Cache Legacy FileSystem.
From S2P Require Import Log LogSpec Scan Opening Lock Store StoreSpec Compact CompactSpec.
From S2P Require Import Lifecycle LifecycleSpec Contract Durability Runs Sizes Background Demo.
#[local] Open Scope Z_scope.

(** ** Offsets and sizes *)

(** C19. Index entries stay in bounds.  Every entry of an open store points at
    a record inside the part of the file that has been written, with the value
    inside the record; record size and value size fit the 32-bit fields that
    hold them, so the conversions of [Append] and of the scan never wrap.  Two
    keys never share a record, and so the order on disk is determined by the
    records, not by the sort. *)
Theorem index_entries_in_bounds `{!MapRange} p ro rs junk s w :
  store_ok p ro rs junk s w →
  (∀ k e, entries (s_index s) !! k = Some e → entry_bounds (writePos (s_log s)) e) ∧
  writePos (s_log s) ≤ len (content p w) ∧
  (∀ k k' e e', entries (s_index s) !! k = Some e → entries (s_index s) !! k' = Some e' →
    RecordOffset e = RecordOffset e' → k = k') ∧
  (∀ ks, in_disk_order (entries (s_index s)) ks → ks = (KeysSortedByOffset (s_index s)).1).
Proof.
  intros Hs. pose proof (so_agrees _ _ _ _ _ _ Hs) as Hag.
  assert (∀ k k' e e', entries (s_index s) !! k = Some e → entries (s_index s) !! k' = Some e' →
    RecordOffset e = RecordOffset e' → k = k') as Hdist.
  { intros k k' e e' He He'. by apply (offsets_distinct _ _ _ _ _ _ _ Hag He He'). }
  destruct (so_log _ _ _ _ _ _ Hs) as [Hp Ho Hw Hf]. split_and!; [| |done|].
  - intros k e He. rewrite Hw. specialize (Hag k). rewrite He in Hag.
    destruct (live rs !! k); [|done]. by eapply located_bounds.
  - rewrite Hw. unfold content. rewrite Hf. unfold default, from_option, id. rewrite (length_app _ junk). lia.
  - intros ks Hks. eapply in_disk_order_unique; [done..|].
    apply KeysSortedByOffset_ok, Hs.
Qed.

Lemma index_entries_in_bounds_witness :
  let s := demo_store 0 in
  ∃ e, entries (s_index s) !! demo_key = Some e ∧ entry_bounds (writePos (s_log s)) e.
Proof.
  destruct (index_entries_in_bounds (H:=canonical_range) demo_path 0 demo_rs [] (demo_store 0)
    (demo_world 0 [] []) (demo_ok _ _)) as [Hb _].
  eexists. split; [reflexivity|]. by apply (Hb demo_key).
Defined.

(** ** The compaction ratio *)

(** C20. Compaction settles.  After a compaction without failures nothing in
    the log is dead, and [NeedsCompaction] is false for every threshold that
    [Open] accepts: the compaction task does not run again until something has
    been written. *)
Theorem compaction_settles `{!MapRange} p rs junk s w o :
  store_ok p 0 rs junk s w → closed s = false → compacting s = false → clean w →
  apply_defaults o = Some (options s) →
  wp Compact (λ r st, r = Ok tt ∧ NeedsCompaction st.1 = false) (s, w).
Proof.
  intros Hs Hcl Hco Hc Ho.
  pose proof (wp_Compact p rs junk s w Hs Hcl Hco) as Hwp.
  pose proof (flags_Compact s w Hcl Hco) as Hfl. unfold wp, clean in *.
  specialize (Hwp ltac:(lia)). destruct Hwp as [_ Hr].
  destruct (Compact (s, w)) as [[[]|e| |] [s' w']]; cbn [fst snd] in *; try lia.
  split; [done|]. specialize (Hfl I). injection Hfl as _ _ Hopt _.
  destruct Hr as (rs' & (Hst' & Hl & Hlen) & Hok).
  apply (NeedsCompaction_all_live p rs' s' w' o); [done| |by rewrite Hopt].
  rewrite Hlen, Hl. by rewrite map_size_fmap.
Qed.

Lemma compaction_settles_witness :
  wp (Compact (H:=canonical_range))
    (λ r st, r = Ok tt ∧ NeedsCompaction (H:=canonical_range) st.1 = false)
    (demo_store 0, demo_world 0 demo_torn []).
Proof.
  apply (compaction_settles (H:=canonical_range) demo_path demo_rs demo_torn (demo_store 0)
    (demo_world 0 demo_torn []) demo_options);
    [apply demo_ok|done|done|done|reflexivity].
Defined.

(** ** Background tasks *)

(** C8. Concurrent use follows the contract.  Let the goroutines of the
    application and those [Open] started run in any interleaving, one step
    under the mutex at a time, with the compare-and-swap of [Compact] before
    the mutex and the reset of the flag after it.  Without failures the calls
    answer, and the map changes, as the contract says; [Compact] takes effect
    once, between its compare-and-swap and its return, and is refused, with
    [ErrCompactionInProgress], exactly while another one is on its way.  If the
    process dies in a call, a sync or a compaction, and nothing else failed,
    everything before it followed the contract and the next [Open] finds the
    map before or after the fatal call. *)
Theorem concurrent_use_follows_contract `{!MapRange} {U} (OnError : option (error → U → U))
    p rs (c c' : config U) es n :
  p ≠ [] → inside c = [] →
  store_ok p 0 rs [] (run_state c).1 (run_state c).2 →
  closed (run_state c).1 = false → compacting (run_state c).1 = false →
  (faults (run_state c).2 ≤ 1)%nat → steps OnError c es c' →
  (clean (run_state c).2 →
   ∃ rs' k, spec_events (view_of rs, None) es (view_of rs', k) ∧ inside c' = inside_of k ∧
     store_ok p 0 rs' [] (run_state c').1 (run_state c').2) ∧
  (∀ o st, dies c' o st →
   ∃ m k, spec_events (view_of rs, None) es (m, k) ∧
     (o = OCompact → ∃ cl, k = Some (cl, false)) ∧
     reopens n p (λ m', m' = m ∨ ∃ a, spec_step m o a m') (files st.2)).
Proof.
  intros Hp Hin Hs Hcl Hco Hone Hsteps.
  assert (sound p rs [] c) as Hsound.
  { split; [done|done|]. unfold exclusive. rewrite Hin. split; [done|simpl; lia]. }
  destruct (steps_follow OnError p rs c es c' None Hsteps Hsound Hin Hone) as [Hl Hr].
  split.
  - intros Hc. unfold clean in Hc. destruct Hr as [(rs' & k & Hev & Hs' & Hk)|[Hd _]]; [|lia].
    exists rs', k. split_and!; [done|done|apply Hs'].
  - intros o st Hdies. destruct Hr as [(rs' & k & Hev & Hs' & Hk)|(_ & Hc & rs' & junk & Hs')];
      destruct (dies_holds p rs' _ c' o st Hs' ltac:(unfold clean in *; lia) Hdies) as (Hd & Hh & Hk').
    + exists (view_of rs'), k. split_and!; [done|by apply Hk'|]. by apply holds_reopens, Hh.
    + unfold clean in Hc. lia.
Qed.

(** A store with both tasks running, and an application that counts errors. *)
Definition busy_options : Options :=
  {| CacheSize := 2; SyncInterval := 5; CompactionThreshold := float64_point2;
     AutoCompact := true; IndexedFields := [demo_field]; OnMigrate := None;
     NoMigrationBackup := false |}.
Definition busy_start (schedule : list fault) : SS :=
  (demo_store_with busy_options 0, demo_world 0 [] schedule).
Definition count_errors : option (error → nat → nat) := Some (λ _, S).
Definition busy_put : op := OPut demo_key demo_key None.
Definition in_progress : error := Sentinel ErrCompactionInProgress.

Section busy.
#[local] Existing Instance canonical_range.

(** A Put overwrites the record; the task finds a compaction due; the
    application enters [Compact] first and the task is turned away; the sync
    task ticks; then the application's compaction takes the mutex. *)
Section states.
Context (schedule : list fault).
Definition busy_written : SS := (run_op busy_put (busy_start schedule)).2.
Definition busy_entered : SS := (compact_enter busy_written).2.
Definition busy_synced : SS := (sync_locked busy_entered).2.
Definition busy_compacted : SS := (compact_locked busy_synced).2.
Definition busy_left : SS := (compact_leave busy_compacted).2.
End states.

Lemma busy_steps schedule r :
  (run_op busy_put (busy_start schedule)).1 = Some Done →
  compaction_task (busy_written schedule).1 && NeedsCompaction (busy_written schedule).1 = true →
  (compact_enter (busy_written schedule)).1 = Ok tt →
  compact_enter (busy_entered schedule) = (Err in_progress, busy_entered schedule) →
  sync_task (busy_entered schedule).1 = true →
  (sync_locked (busy_entered schedule)).1 = Ok r →
  steps count_errors (Config [] Waiting None 0%nat (busy_start schedule))
    [Call busy_put Done; CompactionCheck true; CompactEnters App; CompactRefused Task in_progress;
     SyncTick r]
    (Config [(App, Entered)] (Failing (compaction_error in_progress)) (sync_error <$> r) 0%nat
       (busy_synced schedule)).
Proof.
  intros Hput [Htask Hdue]%andb_true_iff Henter Hrefused Hsync Htick.
  eapply steps_cons; [apply step_call; [done|by apply pair_run]|].
  eapply steps_cons.
  { pose proof (step_check count_errors [] None 0%nat (busy_written schedule) Htask) as Hck.
    rewrite Hdue in Hck. exact Hck. }
  eapply steps_cons; [apply (step_enters _ _ _ _ _ _ App); [done|by apply pair_run]|].
  eapply steps_cons; [by eapply (step_refused _ _ _ _ _ _ Task)|].
  eapply steps_cons; [apply step_sync; [done|by apply pair_run]|]. apply steps_nil.
Qed.

(** The process dies while the compacted log is written. *)
Definition busy_death : list fault := replicate 8 Pass ++ [DieIO 0].
Definition busy_end : config nat :=
  Config [(App, Entered)] (Failing (compaction_error in_progress)) None 0%nat
    (busy_synced busy_death).

Lemma busy_death_steps :
  steps count_errors (Config [] Waiting None 0%nat (busy_start busy_death))
    [Call busy_put Done; CompactionCheck true; CompactEnters App; CompactRefused Task in_progress;
     SyncTick None] busy_end.
Proof. apply (busy_steps busy_death None); vm_compute; reflexivity. Qed.

Lemma busy_dies : dies busy_end OCompact (busy_compacted busy_death).
Proof.
  apply (dies_runs [] [] _ _ _ (busy_synced busy_death) App (busy_compacted busy_death)).
  unfold busy_compacted. apply pair_run. vm_compute. reflexivity.
Qed.

(** The tick of the sync task fails; both tasks report, the compaction ends. *)
Definition busy_failure : list fault := [Pass; FailIO 0].
Definition busy_sync_error : option error :=
  match (sync_locked (busy_entered busy_failure)).1 with Ok r => r | _ => None end.
Definition busy_events : list event :=
  [Call busy_put Done; CompactionCheck true; CompactEnters App; CompactRefused Task in_progress;
   SyncTick busy_sync_error] ++
  [Report (compaction_error in_progress); CompactRuns App None;
   Report (default in_progress (sync_error <$> busy_sync_error)); CompactReturns App None].
Definition busy_rest : config nat := Config [] Waiting None 2%nat (busy_left busy_failure).

Lemma busy_failure_steps :
  steps count_errors (Config [] Waiting None 0%nat (busy_start busy_failure))
    busy_events busy_rest.
Proof.
  apply steps_app. eexists. split; [apply (busy_steps busy_failure); vm_compute; reflexivity|].
  assert (∃ e, busy_sync_error = Some e) as [e ->] by (eexists; vm_compute; reflexivity).
  eapply steps_cons; [apply step_report_compaction|].
  eapply steps_cons.
  { apply (step_runs _ [] [] _ _ _ (busy_synced busy_failure) App None
      (busy_compacted busy_failure)).
    unfold busy_compacted. apply pair_run. vm_compute. reflexivity. }
  eapply steps_cons; [apply step_report_sync|].
  eapply steps_cons; [|apply steps_nil].
  by apply (step_returns _ [] [] _ _ _ (busy_compacted busy_failure) App None
    (busy_left busy_failure)).
Qed.
End busy.

Lemma concurrent_use_follows_contract_witness :
  ∃ m k, spec_events (view_of demo_rs, None)
      [Call busy_put Done; CompactionCheck true; CompactEnters App;
       CompactRefused Task in_progress; SyncTick None] (m, k) ∧
    (OCompact = OCompact → ∃ cl, k = Some (cl, false)) ∧
    reopens (H:=canonical_range) 2 demo_path (λ m', m' = m ∨ ∃ a, spec_step m OCompact a m')
      (files (busy_compacted busy_death).2).
Proof.
  apply (proj2 (concurrent_use_follows_contract (H:=canonical_range) count_errors demo_path demo_rs
    (Config [] Waiting None 0%nat (busy_start busy_death)) busy_end
    [Call busy_put Done; CompactionCheck true; CompactEnters App;
     CompactRefused Task in_progress; SyncTick None] 2
    ltac:(done) eq_refl ltac:(by apply demo_store_with_ok) eq_refl eq_refl
    ltac:(vm_compute; lia) busy_death_steps) OCompact (busy_compacted busy_death) busy_dies).
Defined.

(** C21. The background tasks are accounted for, whatever fails.  At most one
    call of [Compact] is past its compare-and-swap, and the flag says so.
    Every error a task meets, also that its [Compact] was refused, reaches
    [OnError] exactly once, or is the one the task is about to report; nothing
    else is reported, and [OnError] is all that touches the application's
    state.  And the compaction task calls [Compact] only after it has found,
    since its last call, that the dead part of the log exceeds the threshold. *)
Theorem background_tasks_are_accounted_for `{!MapRange} {U} (OnError : option (error → U → U))
    (c c' : config U) es :
  inside c = [] → task c = Waiting → sync_failure c = None →
  compacting (run_state c).1 = false → steps OnError c es c' →
  ((length (inside c') ≤ 1)%nat ∧
   compacting (run_state c').1 = match inside c' with [] => false | _ => true end) ∧
  (user c' = foldl (λ u e, reportError OnError (Some e) u) (user c) (omap report es) ∧
   omap report es ++ to_report c' ≡ₚ omap failure es) ∧
  (∀ es1 e es2, es = es1 ++ e :: es2 → task_attempt e = true →
   ∃ es3 es4 ck, es1 = es3 ++ CompactionCheck true :: es4 ∧ steps OnError c es3 ck ∧
     compaction_task (run_state ck).1 = true ∧ NeedsCompaction (run_state ck).1 = true ∧
     Forall (λ e, task_attempt e = false) es4).
Proof.
  intros Hin Htask Hsf Hco Hsteps. split_and!.
  1, 2: destruct (steps_exclusive OnError c es c' Hsteps) as [Hf Hn];
    [unfold exclusive; rewrite Hin; split; [done|simpl; lia]|done].
  1, 2: destruct (steps_report OnError c es c' Hsteps) as [Hu Hp];
    [by unfold task_inside; rewrite Hin, Htask|].
  - done.
  - rewrite Hp. unfold to_report. by rewrite Hsf, Htask, app_nil_r.
  - intros es1 e es2 -> He. apply steps_app in Hsteps as (c1 & Hs1 & Hs2).
    inversion Hs2 as [|? ? ? ? ? Hstep _]; subst.
    by apply (due_checked OnError c es1 c1 Hs1), (attempt_due OnError c1 e c'0).
Qed.

Lemma background_tasks_are_accounted_for_witness :
  omap report busy_events ++ [] ≡ₚ omap failure busy_events ∧
  length (omap report busy_events) = 2%nat.
Proof.
  split; [|reflexivity].
  apply (proj2 (proj1 (proj2 (background_tasks_are_accounted_for (H:=canonical_range) count_errors
    (Config [] Waiting None 0%nat (busy_start busy_failure)) busy_rest busy_events
    eq_refl eq_refl eq_refl eq_refl busy_failure_steps)))).
Defined.
