(* ===== verification/LogTheorems.v ===== *)
(** * Theorems on the log file

    Appending, point reads, the recovery scan, opening, and the recovery of
    interrupted compactions, for every schedule of failures. *)

From S2P Require Import Prelude Go Crc32c Attributes Reader Record Index Cache Legacy FileSystem.
From S2P Require Import Log LogSpec Scan Opening Lock Store StoreSpec Compact CompactSpec.
From S2P Require Import Lifecycle LifecycleSpec Contract Durability Runs Demo.
#[local] Open Scope Z_scope.

(** ** Writing *)

(** C23. [Append] on every outcome.  Accepted arguments: the encoded record is
    written at the end of the log, whatever the reused buffer held, and the
    offsets returned locate it; an error leaves the log usable with the write
    position unchanged; a crash leaves a prefix of the record behind the old
    contents.  Refused arguments: an error before anything is touched. *)
Theorem append_outcomes `{!MapRange} key value deleted m ext p pre junk l w :
  version l = logVersion → unknownReadOnly l = 0 → log_ok p pre junk l w →
  (append_ok key value m ext ∧
   wp (Append key value deleted m ext)
     (appends (entry deleted key value m ext) p pre junk l w) (l, w)) ∨
  (¬ append_ok key value m ext ∧
   ∃ e, input_error e ∧ Append key value deleted m ext (l, w) = (Err e, (l, w))).
Proof.
  intros Hv Hro Hlog. destruct (Append_cases key value deleted m ext l w Hv Hro) as [[Hok _]|Hno].
  - left. split; [done|]. by apply wp_Append.
  - by right.
Qed.

Lemma append_outcomes_witness :
  let w := demo_world 0 demo_torn [FailIO 5] in
  (append_ok demo_key [] demo_attrs demo_extensions ∧
   wp (Append (H:=canonical_range) demo_key [] true demo_attrs demo_extensions)
     (appends (entry true demo_key [] demo_attrs demo_extensions) demo_path (demo_file 0 [])
        demo_torn (demo_log 0) w) (demo_log 0, w)) ∨
  (¬ append_ok demo_key [] demo_attrs demo_extensions ∧
   ∃ e, input_error e ∧
     Append (H:=canonical_range) demo_key [] true demo_attrs demo_extensions (demo_log 0, w) =
     (Err e, (demo_log 0, w))).
Proof.
  apply (append_outcomes (H:=canonical_range)); [done|done|apply demo_log_ok].
Defined.

(** ** Reading *)

(** C24. Point reads.  A record that is stored in the file, at the offset and
    with the size its writer reported, is read back by all three readers, from
    the memory map or from the file, whatever the pooled and scratch buffers
    held: its value, and its extension area where asked for.  Only a failure
    of the system prevents it. *)
Theorem point_reads_return_the_record p pre junk l w a c r pooled scratch :
  log_ok p pre junk l w → pre = a ++ raw_record r ++ c → raw_fits r →
  wp (ReadRecordAt pooled (len a) (raw_size r)) (reads l w (raw_value r)) (l, w) ∧
  wp (ReadRecordAndExtensionsAt (len a) (raw_size r))
    (reads l w (raw_value r, raw_extensions r)) (l, w) ∧
  wp (ReadRecordAtInto (len a) (raw_size r) scratch) (λ res s',
    s'.1 = l ∧ becomes w (files w) s'.2 ∧
    match res with
    | Ok (v, _) => v = inr (raw_value r) ∨ v = inl EIO ∧ failed w s'.2
    | Crash => failed w s'.2
    | _ => False
    end) (l, w).
Proof.
  intros Hlog Hpre Hfit. split_and!.
  - by eapply (wp_ReadRecordAt p pre junk a c r).
  - by eapply (wp_ReadRecordAndExtensionsAt p pre junk a c r).
  - eapply (wp_ReadRecordAtInto p pre junk a c r); [done|done|done|..].
    + intros w' sc Hw. split; [done|]. split; [done|by left].
    + intros w' sc Hw. pose proof (fails_becomes _ _ _ Hw). destruct Hw as [_ Hl].
      split; (split; [done|]); (split; [done|]); [by right|done].
Qed.

Lemma point_reads_return_the_record_witness :
  let w := demo_world 0 [] [] in
  let l := demo_log 0 in
  wp (ReadRecordAt (str "stale") (len (header_bytes logVersion 0 0)) (raw_size demo_rec))
    (reads l w (raw_value demo_rec)) (l, w).
Proof.
  refine (proj1 (point_reads_return_the_record demo_path (demo_file 0 []) [] (demo_log 0)
    (demo_world 0 [] []) (header_bytes logVersion 0 0) [] demo_rec (str "stale") [] _ _ _));
    [apply demo_log_ok| |apply stored_fits, demo_stored].
  unfold demo_file, log_records. cbn [concat fmap list_fmap demo_rs]. by rewrite !app_nil_r.
Defined.

(** ** Scanning *)

(** C25. The recovery scan, of a log of format 4 or 5 and of a log of format
    1, 2 or 3.  On a file that holds the given records and a torn tail the
    callback sees every record once, in order, with its position; the tail is
    cut off (kept, when the log is read-only for this build) and the next
    append continues behind the last record.  A scan that fails or dies leaves
    the file as it was. *)
Theorem scan_finds_records {T} (v : Z) (g : logRecord → T → T) p hdr tl st l w :
  version l = v → len hdr = logHeaderSize → torn (version:=v) tl →
  (∀ (Hv : 4 ≤ v) rs, Forall stored rs → log_ok p (hdr ++ log_records rs ++ tl) [] l w →
   wp (Iterate (λ rec, modify (g rec)))
     (scans (F:=format_v5 v Hv) g p hdr rs tl st l w) (st, (l, w))) ∧
  (∀ (Hv : v < 4) gs, Forall lg_ok gs →
   log_ok p (hdr ++ records (F:=format_legacy v Hv) gs ++ tl) [] l w →
   wp (Iterate (λ rec, modify (g rec)))
     (scans (F:=format_legacy v Hv) g p hdr gs tl st l w) (st, (l, w))).
Proof.
  intros Hver Hhdr Htl. split; intros Hv rs Hrs Hlog.
  - by apply (wp_Iterate (F:=format_v5 v Hv)).
  - by apply (wp_Iterate (F:=format_legacy v Hv)).
Qed.

Definition demo_torn_log : appendLog :=
  set_writePos (len (demo_file 0 demo_torn)) (demo_log 0).

Definition demo_legacy_log : appendLog :=
  set_writePos (len demo_legacy_file) (set_version 3 (new_log demo_path)).

Lemma scan_finds_records_witness :
  let keys rec (ks : list bytes) := ks ++ [rKey rec] in
  (let w := demo_world 0 demo_torn [] in
   wp (Iterate (λ rec, modify (keys rec)))
     (scans (F:=format_v5 logVersion ltac:(done)) keys demo_path
       (header_bytes logVersion 0 0) demo_rs demo_torn [] demo_torn_log w)
     ([], (demo_torn_log, w))) ∧
  (let w := World {[demo_path := demo_legacy_file]} [] in
   wp (Iterate (λ rec, modify (keys rec)))
     (scans (F:=format_legacy 3 ltac:(done)) keys demo_path
       (header_bytes 3 0 0) [demo_legacy] [Byte.x01] [] demo_legacy_log w)
     ([], (demo_legacy_log, w))).
Proof.
  split.
  - apply (proj1 (scan_finds_records logVersion (λ rec ks, ks ++ [rKey rec]) demo_path
      (header_bytes logVersion 0 0) demo_torn [] demo_torn_log (demo_world 0 demo_torn [])
      eq_refl (length_header _ _ _) demo_torn_tail) ltac:(done) demo_rs); [apply demo_all_stored|].
    split; [done|done|done|]. simpl. by rewrite lookup_singleton_eq, app_nil_r.
  - apply (proj2 (scan_finds_records 3 (λ rec ks, ks ++ [rKey rec]) demo_path
      (header_bytes 3 0 0) [Byte.x01] [] demo_legacy_log (World {[demo_path := demo_legacy_file]} [])
      eq_refl (length_header _ _ _) demo_legacy_torn) ltac:(done) [demo_legacy]).
    + constructor; [apply demo_legacy_ok|constructor].
    + split; [done|done|done|]. simpl. by rewrite lookup_singleton_eq, app_nil_r.
Defined.

(** C26. The scan ends on every file.  Whatever bytes the file holds, in
    whatever format the header claims, the scan stops with a result or an
    error: it cannot panic, and it never uses up the passes its loop is
    allowed, because every record it accepts moves it forward. *)
Theorem scan_terminates {T} (fn : logRecord → M T unit) s :
  (∀ rec st, (fn rec st).1 ≠ Panic) → wp (Iterate fn) (λ r _, r ≠ Panic) s.
Proof. apply Iterate_total. Qed.

Lemma scan_terminates_witness :
  wp (Iterate (λ rec, modify (λ keys : list bytes, keys ++ [rKey rec]))) (λ r _, r ≠ Panic)
    ([], (demo_torn_log, World {[demo_path := str "garbage, not a log file at all"]} [])).
Proof. apply scan_terminates. intros rec st. done. Defined.

(** ** Opening *)

(** C27. Recovery of an interrupted compaction.  Whichever of the log and its
    four companions exist, and wherever the recovery is stopped, the same
    contents survive; when it finishes they are the log and no companion is
    left.  Other files are not touched. *)
Theorem compaction_recovery_keeps_the_log p w :
  wp (recoverCompactionArtifacts p) (recovers p w) w.
Proof. apply wp_recoverCompactionArtifacts. Qed.

(** C28. Opening a log file.  A file with a valid header of version 1 to 5 is
    opened with the version and the feature masks of its header (none before
    version 5) and is not changed by it; an incompatible feature bit this
    build does not know refuses the file with [ErrUnsupportedFeature]. *)
Theorem open_reads_the_header p v i ro body w :
  header_ok v i ro → files w !! p = Some (header_bytes v i ro ++ body) →
  wp (openAppendLogFile p) (opens p v i ro (header_bytes v i ro ++ body) w) w.
Proof. apply wp_openAppendLogFile. Qed.

Lemma open_reads_the_header_witness :
  let w := World {[demo_path := header_bytes 5 2 0 ++ str "x"]} [] in
  wp (openAppendLogFile demo_path) (opens demo_path 5 2 0 (header_bytes 5 2 0 ++ str "x") w) w.
Proof.
  apply (open_reads_the_header demo_path 5 2 0 (str "x")); [|reflexivity].
  unfold header_ok. by vm_compute.
Defined.
