(* ===== verification/FormatTheorems.v ===== *)
(** * Theorems on the encodings and the in-memory structures

    The record format, its attribute block and extension area, damage and
    torn records, the legacy format and the downgrade to it, the cache and
    the index. *)

From S2P Require Import Prelude Go Crc32c Attributes Reader Record Index Cache Strconv Legacy.
From S2P Require Import FileSystem Log LogSpec Scan Store StoreSpec Lifecycle LifecycleSpec Demo.
#[local] Open Scope Z_scope.

(** ** Records *)

(** C29. What is written is read back.  Whatever the reused buffer held, the
    bytes [Append] encodes for accepted arguments are read by the scanner as
    exactly that record, with everything behind them left unread. *)
Theorem record_roundtrip buf key value deleted m ext pos rest tail :
  append_ok key value m ext →
  len buf = raw_size (entry deleted key value m ext) →
  ∃ b, encodeRecord buf key value deleted (encode_spec m) ext = Ok b ∧
    readRecordFrom pos (Reader (b ++ rest) tail) =
    (Ok ({| rKey := key; rOffset := pos + 20 + len key + len (encode_spec m);
            rSize := len value; rRecordOffset := pos; rStoredSize := len b;
            rDeleted := deleted; rAttributes := m |}, pos + len b), Reader rest tail).
Proof.
  intros Hok Hbuf. pose proof (entry_valid deleted key value m ext Hok) as Hv.
  exists (raw_record (entry deleted key value m ext)). split.
  - apply encodeRecord_ok; [|done]. by apply entry_fits.
  - rewrite (readRecordFrom_ok pos _ m) by done. rewrite length_raw_record by apply Hv.
    unfold scanned. fold (raw_deleted (entry deleted key value m ext)).
    by rewrite raw_deleted_entry.
Qed.

Lemma record_roundtrip_witness :
  let buf := replicate (Z.to_nat (raw_size demo_rec)) Byte.xff in
  ∃ b, encodeRecord buf demo_key demo_value false (encode_spec demo_attrs) demo_extensions = Ok b ∧
    readRecordFrom 16 (Reader (b ++ str "more") (Sentinel EOF)) =
    (Ok ({| rKey := demo_key; rOffset := 16 + 20 + len demo_key + len (encode_spec demo_attrs);
            rSize := len demo_value; rRecordOffset := 16; rStoredSize := len b;
            rDeleted := false; rAttributes := demo_attrs |}, 16 + len b),
     Reader (str "more") (Sentinel EOF)).
Proof.
  apply (record_roundtrip _ demo_key demo_value false demo_attrs demo_extensions 16).
  - apply demo_append_ok; [by vm_compute|by right].
  - rewrite length_replicate. fold demo_rec. pose proof (raw_size_bound demo_rec). lia.
Defined.

(** C30. The scanner accepts exactly the well-formed records.  It succeeds if
    and only if the data begins with a record whose lengths are within the
    limits, whose checksum matches, whose extension area is framed and whose
    attribute block decodes; the result is determined by that record. *)
Theorem scanner_accepts_exactly_records pos d t rec pos' rd' :
  readRecordFrom pos (Reader d t) = (Ok (rec, pos'), rd') ↔
  ∃ r m d', d = raw_record r ++ d' ∧ raw_valid r m ∧
    rec = scanned pos r m ∧ pos' = pos + raw_size r ∧ rd' = Reader d' t.
Proof. apply readRecordFrom_spec. Qed.

(** C31. Damage is noticed.  If one byte of the checksummed part of a stored
    record is changed, to anything, a point read of it fails with
    [ErrCorruptedData]. *)
Theorem one_damaged_byte_is_detected r p x y q :
  raw_fits r → raw_body r = p ++ x :: q → x ≠ y →
  validateStoredRecord (put32 (raw_size r - 4) ++ (p ++ y :: q) ++
    put32 (Checksum (raw_body r))) =
  Err (Errorf "checksum mismatch" [Sentinel ErrCorruptedData]).
Proof. apply raw_record_one_byte. Qed.

Lemma one_damaged_byte_is_detected_witness :
  let r := Raw Byte.x00 [Byte.x00; Byte.x00; Byte.x00] (str "k") emptyAttributes [] [] in
  validateStoredRecord (put32 (raw_size r - 4) ++ ([] ++ Byte.x01 :: drop 1 (raw_body r)) ++
    put32 (Checksum (raw_body r))) =
  Err (Errorf "checksum mismatch" [Sentinel ErrCorruptedData]).
Proof.
  apply (one_damaged_byte_is_detected _ [] Byte.x00 Byte.x01); [|reflexivity|done].
  split; [done|]. by vm_compute.
Defined.

(** C32. A torn record is recognised as such.  On every strict prefix of a
    valid record, followed by the end of the file, the scanner reports an end
    of file, never a damaged record; a prefix that ends in a read error is
    reported as that error, so that a failing disk does not look like a torn
    record. *)
Theorem torn_record_is_recognised pos r m d x t :
  raw_valid r m → raw_record r = d ++ x → x ≠ [] →
  ∃ e rd, readRecordFrom pos (Reader d t) = (Err e, rd) ∧ is_eof e = is_eof t.
Proof. apply readRecordFrom_torn. Qed.

Lemma torn_record_is_recognised_witness :
  ∃ e rd, readRecordFrom 16 (Reader demo_torn (Sentinel EOF)) = (Err e, rd) ∧ is_eof e = true.
Proof.
  apply (torn_record_is_recognised 16 demo_rec demo_attrs demo_torn
    (drop 9 (raw_record demo_rec)) (Sentinel EOF)).
  - apply entry_valid, demo_append_ok; [by vm_compute|by right].
  - symmetry. apply take_drop.
  - intros Hnil%(f_equal length). rewrite length_drop in Hnil.
    pose proof (length_raw_record demo_rec eq_refl). pose proof (raw_size_bound demo_rec). simpl in Hnil. lia.
Defined.

(** ** Attributes *)

(** C33. The decoders accept exactly what is well formed.  The attribute
    decoder accepts the blocks of at most 4096 framed entries with distinct
    non-empty names, and returns the map they list; the extension check accepts
    the areas that are a sequence of tagged, length-prefixed entries.  On any
    other input both return an error, never a panic, and both end on every
    input. *)
Theorem decoders_accept_exactly b :
  returns (decodeAttributes b) ∧
  (∀ m, decodeAttributes b = Ok m ↔
    ∃ kvs, b = attr_block kvs ∧ Forall attr_ok kvs ∧ NoDup kvs.*1 ∧
      len kvs ≤ maxAttributeCount ∧ m = list_to_map kvs) ∧
  returns (validateExtensions b) ∧ (validateExtensions b = Ok tt ↔ ext_framed b).
Proof.
  split_and!; [apply decodeAttributes_returns| |apply validateExtensions_returns|
    apply validateExtensions_spec]. intros m. apply decodeAttributes_spec.
Qed.

(** C34. The attribute encoder is canonical and decodes back.  Two runs that
    iterate the Go map in different orders produce the same bytes, and those
    bytes decode to the map; a map beyond the limits is refused in any
    order. *)
Theorem attribute_encoding_is_canonical (order1 order2 : MapRange) m :
  match encodeAttributes (H:=order1) m with
  | Ok b => encodeAttributes (H:=order2) m = Ok b ∧ decodeAttributes b = Ok m
  | Err e => input_error e ∧ ¬ attrs_ok m ∧ ∃ e', encodeAttributes (H:=order2) m = Err e'
  | Panic | Crash => False
  end.
Proof.
  pose proof (encodeAttributes_returns (H:=order1) m) as Hret.
  destruct (encodeAttributes (H:=order1) m) as [b|e| |] eqn:H1; try done.
  - apply (encodeAttributes_inv (H:=order1)) in H1 as [Hok ->].
    split; [by apply (encodeAttributes_ok (H:=order2))|by apply decode_encode_spec].
  - split; [by eapply (encodeAttributes_err (H:=order1))|].
    assert (¬ attrs_ok m) as Hno.
    { intros Hok. by rewrite (encodeAttributes_ok (H:=order1) m Hok) in H1. }
    split; [done|].
    by destruct (encodeAttributes_cases (H:=order2) m) as [[? _]|?].
Qed.

(** ** The legacy format *)

(** C35. A version 3 record and the map entry it stands for.  A record can be
    written in format 3 exactly when it fits; reading it back gives its key,
    every attribute that is not a number or a flag as it was, and the numbers
    and the flag in canonical form.  In the other direction, the attributes
    migration reads from a version 3 record encode to the record they came
    from, byte for byte, in any map order. *)
Theorem v3_record_roundtrip `{!MapRange} key value ext m pos rest tail :
  len key ≤ maxKeySize → len value ≤ maxValueSize →
  ((∃ b, encodeV3Record key value ext m = Ok b) ↔ fits_v3 ext m) ∧
  (∀ b, encodeV3Record key value ext m = Ok b →
   ∃ total added bad rec,
    v3Number m legacyTotalSizeAttribute = Ok total ∧
    v3Number m legacyAddedOnAttribute = Ok added ∧ v3Flag m = Ok bad ∧
    readLegacyRecordFrom pos 3 (Reader (b ++ rest) tail) =
      (Ok (rec, pos + len b), Reader rest tail) ∧
    rKey rec = key ∧ rSize rec = len value ∧ rDeleted rec = false ∧
    ∀ name, name ∈ v3Fields → rAttributes rec !! name = Some
      (if decide (name = legacyTotalSizeAttribute) then FormatInt total
       else if decide (name = legacyAddedOnAttribute) then FormatInt added
       else if decide (name = legacyBadAttribute) then FormatBool bad
       else attribute m name)) ∧
  (∀ g, lg_ok g → lg_flags g = Byte.x00 ∨ lg_flags g = Byte.x02 →
   ∃ rec rd, readLegacyRecordFrom pos 3 (Reader (lg_record 3 g ++ rest) tail) =
      (Ok (rec, pos + len (lg_record 3 g)), rd) ∧
    encodeV3Record (rKey rec) (lg_value g) [] (rAttributes rec) = Ok (lg_record 3 g)).
Proof.
  intros Hk Hv. split; [apply encodeV3Record_accepts|]. split.
  - intros b Henc. destruct (encodeV3Record_inv key value ext m b Henc Hk Hv)
      as (total & added & bad & Htot & Hadd & Hbad & _ & _ & Hok & ->).
    set (g := Legacy _ _ _ _ _ _ _ _ _ _) in *.
    exists total, added, bad, (lg_scanned pos 3 g). split_and!; try done.
    + by apply readLegacyRecordFrom_ok.
    + unfold lg_scanned. simpl. by destruct bad.
    + intros name Hin. change (rAttributes (lg_scanned pos 3 g)) with (lg_attributes 3 g).
      rewrite lg_attribute_lookup. unfold v3Fields in Hin.
      rewrite !elem_of_cons, elem_of_nil in Hin.
      destruct Hin as [->|[->|[->|[->|[->|[->|[->|[->|[]]]]]]]]]; simpl; try done.
      by destruct bad.
  - intros g Hok Hfl. exists (lg_scanned pos 3 g), (Reader rest tail).
    split; [by apply readLegacyRecordFrom_ok|]. by apply encodeV3Record_legacy.
Qed.

Lemma v3_record_roundtrip_witness :
  let m : attrs := {[legacyNameAttribute := str "film"; legacyTotalSizeAttribute := str "+12"]} in
  ∃ b, encodeV3Record (H:=canonical_range) demo_key demo_value [] m = Ok b ∧
  ∃ total added bad rec,
    v3Number m legacyTotalSizeAttribute = Ok total ∧
    v3Number m legacyAddedOnAttribute = Ok added ∧ v3Flag m = Ok bad ∧
    readLegacyRecordFrom 16 3 (Reader (b ++ []) (Sentinel EOF)) =
      (Ok (rec, 16 + len b), Reader [] (Sentinel EOF)) ∧
    rKey rec = demo_key ∧ rSize rec = len demo_value ∧ rDeleted rec = false ∧
    ∀ name, name ∈ v3Fields → rAttributes rec !! name = Some
      (if decide (name = legacyTotalSizeAttribute) then FormatInt total
       else if decide (name = legacyAddedOnAttribute) then FormatInt added
       else if decide (name = legacyBadAttribute) then FormatBool bad
       else attribute m name).
Proof.
  intros m. eexists. split; [vm_compute; reflexivity|].
  apply (v3_record_roundtrip (H:=canonical_range) demo_key demo_value [] m 16 [] (Sentinel EOF));
    [by vm_compute|by vm_compute|vm_compute; reflexivity].
Defined.

(** ** The cache *)

(** C36. The cache is a bounded LRU list, for positive capacities.  Any
    sequence of Get, Put, Remove, Clear and SetCapacity calls in which every
    capacity is at least 1 answers as the recency list of the specification
    does, every eviction loop ends, and the cache never holds more entries than
    its capacity.  [Open] gives its cache such a capacity, whatever the
    options. *)
Theorem cache_is_bounded_lru os cap :
  1 ≤ cap → Forall cache_op_ok os →
  (∃ c, cache_run os (newLRUCache cap) = Some ((lru_run os (cap, [])).1, c) ∧
    cache_view c = (lru_run os (cap, [])).2 ∧ cache_Len c ≤ capacity c) ∧
  (∀ o o', apply_defaults o = Some o' → 1 ≤ CacheSize o').
Proof.
  intros Hcap Hos. split.
  - destruct (cache_run_refines os (newLRUCache cap)) as (c & Hrun & Hc & Hv & [_ Hlen]);
      [apply newLRUCache_inv|by split; simpl; [done|lia]|done|].
    exists c. split; [done|]. split; [done|]. unfold cache_Len. simpl in Hlen.
    unfold cache_list in Hlen. by rewrite length_fmap in Hlen.
  - intros o o'. unfold apply_defaults. repeat case_match; intros; simplify_eq/=; lia.
Qed.

Lemma cache_is_bounded_lru_witness :
  let os := [CPut (str "a") (str "1"); CPut (str "b") (str "2"); CGet (str "a");
             CPut (str "c") (str "3"); CGet (str "b"); CSetCapacity 1; CGet (str "a")] in
  ∃ c, cache_run os (newLRUCache 2) = Some ((lru_run os (2, [])).1, c) ∧
    cache_view c = (lru_run os (2, [])).2 ∧ cache_Len c ≤ capacity c.
Proof.
  intros os. apply (proj1 (cache_is_bounded_lru os 2 ltac:(done) ltac:(by repeat constructor))).
Defined.

(** ** The index *)

(** The entries after a sequence of index updates. *)
Inductive idx_op := IPut (key : bytes) (entry : indexEntry) | IDelete (key : bytes) | ISort.

Definition idx_step `{!MapRange} (idx : index) (o : idx_op) : index :=
  match o with
  | IPut key entry => idx_Put key entry idx
  | IDelete key => idx_Delete key idx
  | ISort => (KeysSortedByOffset idx).2
  end.

Definition entries_step (es : gmap bytes indexEntry) (o : idx_op) : gmap bytes indexEntry :=
  match o with
  | IPut key entry => <[key := entry]> es
  | IDelete key => delete key es
  | ISort => es
  end.

Lemma idx_run_inv `{!MapRange} os idx :
  idx_inv idx →
  idx_inv (foldl idx_step idx os) ∧
  entries (foldl idx_step idx os) = foldl entries_step (entries idx) os ∧
  indexedFields (foldl idx_step idx os) = indexedFields idx.
Proof.
  revert idx. induction os as [|o os IH]; intros idx Hinv; [done|]. simpl.
  assert (idx_inv (idx_step idx o) ∧ entries (idx_step idx o) = entries_step (entries idx) o ∧
    indexedFields (idx_step idx o) = indexedFields idx) as (H1 & H2 & H3).
  { destruct o as [key e|key|]; cbn [idx_step entries_step].
    - split; [by apply idx_Put_inv|]. rewrite idx_Put_entries, idx_Put_fields.
      by destruct e.
    - split; [by apply idx_Delete_inv|]. by rewrite idx_Delete_entries, idx_Delete_fields.
    - destruct (KeysSortedByOffset_ok idx Hinv) as (_ & ? & ? & ?). done. }
  destruct (IH _ H1) as (IH1 & IH2 & IH3). split; [done|].
  by rewrite IH2, IH3, H2, H3.
Qed.

(** C37. The index stays consistent.  After any sequence of Put and Delete
    calls, with disk-order listings in between, the primary map holds the last
    entry of each key, every secondary index lists exactly the keys that have
    each value (an unindexed field lists none), and the disk-order listing
    orders exactly the keys of the map by record offset. *)
Theorem index_stays_consistent `{!MapRange} fields os :
  let idx := foldl idx_step (newIndex fields) os in
  let es := foldl entries_step ∅ os in
  entries idx = es ∧ in_disk_order es (KeysSortedByOffset idx).1 ∧
  ∀ f v k, k ∈ idx_KeysBy f v idx ↔ f ∈ fields ∧ f ≠ [] ∧ has_attr es f v k.
Proof.
  intros idx es. destruct (newIndex_spec fields) as (He & _ & _ & Hf & _).
  destruct (idx_run_inv os (newIndex fields) (newIndex_inv fields)) as (Hinv & Hes & Hfs).
  fold idx in Hinv, Hes, Hfs. rewrite He in Hes. fold es in Hes. split; [done|]. split.
  - rewrite <- Hes. by apply KeysSortedByOffset_ok.
  - intros f v k. rewrite <- Hes. destruct (decide (f ∈ indexedFields idx)) as [Hin|Hout].
    + rewrite idx_KeysBy_spec by done. rewrite Hfs in Hin. apply Hf in Hin. naive_solver.
    + rewrite idx_KeysBy_unindexed by done. rewrite Hfs, Hf in Hout. set_solver.
Qed.
