(* ===== verification/Limits.v ===== *)
(** * Where the guarantees end

    What the program does outside the conditions of the other theorems: damage
    the scan takes for a torn record, bytes a failed write leaves behind the
    log, and single executions, evaluated on a concrete disk and a concrete
    schedule of failures. *)

From S2P Require Import Prelude Go Crc32c Attributes Reader Record Index Cache Legacy FileSystem.
From S2P Require Import Log LogSpec Scan Opening Lock Store StoreSpec Compact CompactSpec.
From S2P Require Import Lifecycle LifecycleSpec Contract Demo Downgrade.
#[local] Open Scope Z_scope.

(** ** Damage the scan takes for a torn record *)








(** ** Writes that fail half way *)

(** [Open] of a log that goes on with something that is no record. *)
Lemma wp_Open_unreadable `{!MapRange} (p : bytes) (rs : list raw) (d : bytes) (o o' : Options)
    (locks : gset bytes) (w : world) :
  p ≠ [] → apply_defaults o = Some o' → [] ∉ IndexedFields o' → p ++ lockFileSuffix ∉ locks →
  Forall stored rs → d ≠ [] → unreadable (version:=logVersion) d →
  on_disk p 0 rs d (files w) → clean w →
  wp (Open p o) (λ r st, ∃ e, r = Err e ∧ errors_Is e ErrCorruptedData = true) (locks, w).
Proof.
  intros Hp Ho Hfields Hfree Hst Hne Hbad Hdisk Hc. unfold clean in Hc.
  apply (wp_Open_free p o o'); try done; [intros; lia|].
  intros w1 Hlk. pose proof (proj2 Hlk) as Hl1. unfold open_locked. apply wp_bind, wp_wrap.
  eapply wp_mono.
  { apply (wp_openAppendLog p logVersion 0 0 (log_records rs ++ d)); [split; [done|split; [lia|done]]|].
    by rewrite (locking_survivor _ _ _ Hlk). }
  intros [log|e| |] w2 [Hk Hr2]; try done.
  2:{ destruct Hr2 as [Hl|[Hm _]]; [|done]. destruct Hk. lia. }
  2:{ destruct Hk. lia. }
  destruct Hr2 as (Hlog & Hv & _). pose proof (within_keeps _ _ _ Hk) as [_ Hl2].
  apply wp_bind, wp_try_store, wp_recover. eapply wp_mono.
  { apply (Iterate_unreadable (F:=fmt5) recover_record p (header_bytes logVersion 0 0) rs d);
      [done|apply length_header|done|done|done|done|unfold clean; lia]. }
  intros r [ic [l w3]] (-> & -> & Hw3). cbn [fst snd] in *.
  apply wp_bind, wp_close_ignored; [apply Hlog|..]; [|intros w4 [_ Hl4]; destruct Hw3; lia].
  intros w4 Hw4. apply wp_throw. split; [|intros L w5 [_ Hl5]; destruct Hw3, Hw4; lia].
  intros L w5 Hw5. by eexists.
Qed.

Lemma unreadable_short_length L d :
  0 ≤ L < recordMinimumLength → unreadable (version:=logVersion) (put32 L ++ d).
Proof.
  intros HL pos. unfold read_next. cbn [logVersion Z.leb Z.compare Pos.compare Pos.compare_cont].
  rewrite readRecordFrom_short_length by done. by eexists _, _.
Qed.

(** C40. A failed write can corrupt the log.  When a [Put] fails half way, the
    bytes it wrote stay behind the end of the log.  The next [Put] that
    succeeds is acknowledged and writes over the beginning of them; what is
    left of them then follows its record in the file.  If that looks like a
    record with a length below the minimum (four zero bytes of the lost value
    are enough), every later [Open] refuses the database with
    [ErrCorruptedData], on a system that works. *)
Theorem failed_write_can_corrupt_log `{!MapRange} (p : bytes) (rs : list raw) (s s1 : Store)
    (w w1 : world) (key1 value1 key2 value2 : bytes) (opts1 opts2 : option attrs) (e1 : error)
    (left rest : bytes) (L : Z) :
  let rec1 := entry false key1 value1 (default ∅ opts1) [] in
  let rec2 := entry false key2 value2 (default ∅ opts2) [] in
  store_ok p 0 rs [] s w → closed s = false → p ≠ [] →
  append_ok key1 value1 (default ∅ opts1) [] → append_ok key2 value2 (default ∅ opts2) [] →
  Put key1 value1 opts1 (s, w) = (Err e1, (s1, w1)) → clean w1 →
  files w1 !! p = Some ((header_bytes logVersion 0 0 ++ log_records rs) ++ left) →
  left ≠ raw_record rec1 →
  drop (length (raw_record rec2)) left = put32 L ++ rest → 0 ≤ L < recordMinimumLength →
  wp (Put key2 value2 opts2) (λ r st, r = Ok tt ∧
    store_ok p 0 (rs ++ [rec2]) (put32 L ++ rest) st.1 st.2 ∧
    ∀ (o o' : Options) (locks : gset bytes), apply_defaults o = Some o' →
      [] ∉ IndexedFields o' → p ++ lockFileSuffix ∉ locks →
      wp (Open p o) (λ r st, ∃ e, r = Err e ∧ errors_Is e ErrCorruptedData = true)
        (locks, World (files st.2) [])) (s1, w1).
Proof.
  intros rec1 rec2 Hs Hcl Hp Hok1 Hok2 Hrun Hc Hfile Hne Hleft HL. unfold clean in Hc.
  assert (closed s1 = false) as Hcl1.
  { pose proof (flags_Put key1 value1 opts1 (s, w)) as Hfl. rewrite Hrun in Hfl.
    injection Hfl as -> _ _ _. done. }
  assert (store_ok p 0 rs left s1 w1) as Hs1.
  { pose proof (wp_Put p rs [] s w key1 value1 opts1 Hs Hcl Hok1) as (_ & _ & Hr).
    rewrite Hrun in Hr. destruct Hr as [_ [[n Hr]|Hr]]; cbn [fst snd] in Hr;
      pose proof (lo_file _ _ _ _ _ (so_log _ _ _ _ _ _ Hr)) as Hf; rewrite Hfile in Hf.
    - injection Hf as Hf%app_inv_head. by rewrite Hf.
    - destruct Hne. rewrite log_records_snoc, drop_nil, app_nil_r, app_assoc in Hf.
      injection Hf as Hf%app_inv_head. done. }
  eapply wp_mono; [by apply (wp_Put p rs left s1 w1 key2 value2 opts2)|].
  intros [[]|e| |] [s2 w2] (_ & Hl & Hr); cbn [fst snd] in *; try done; [|lia..].
  fold rec2 in Hr. rewrite Hleft in Hr. split; [done|]. split; [done|].
  intros o o' locks Ho Hfields Hfree.
  apply (wp_Open_unreadable p (rs ++ [rec2]) (put32 L ++ rest) o o'); try done.
  - apply Hr.
  - by apply unreadable_short_length.
  - apply survivor_main. pose proof (lo_file _ _ _ _ _ (so_log _ _ _ _ _ _ Hr)) as Hf.
    by rewrite <- app_assoc in Hf.
Qed.

(** A [Put] of zeros whose write fails after 100 bytes, and a shorter one. *)
Definition zeros : bytes := replicate 200 Byte.x00.
Definition failed_put : res unit * SS :=
  Put (H:=canonical_range) (str "big") zeros None (demo_store 0, demo_world 0 [] [FailIO 100]).
Definition failed_left : bytes :=
  take 100 (raw_record (entry false (str "big") zeros ∅ [])).
Definition short_rec : raw := entry false (str "s") [] ∅ [].

Lemma failed_put_returns : failed_put.1 = Err (Errorf "failed to append to log" [EIO]).
Proof. vm_compute. reflexivity. Qed.

Lemma failed_put_file :
  files failed_put.2.2 !! demo_path =
  Some ((header_bytes logVersion 0 0 ++ log_records demo_rs) ++ failed_left).
Proof. vm_compute. reflexivity. Qed.

Lemma failed_put_left : drop (length (raw_record short_rec)) failed_left =
  put32 0 ++ drop 4 (drop (length (raw_record short_rec)) failed_left).
Proof. vm_compute. reflexivity. Qed.

Lemma small_append_ok key value :
  len key ≤ maxKeySize → len value ≤ maxValueSize → append_ok key value ∅ [].
Proof.
  intros Hk Hv. split; [done|]. split; [done|]. split; [by vm_compute|].
  split; [constructor|]. split; [by vm_compute|]. split; [done|by vm_compute].
Qed.

Lemma failed_write_can_corrupt_log_witness :
  wp (Put (H:=canonical_range) (str "s") [] None) (λ r st, r = Ok tt ∧
    store_ok demo_path 0 (demo_rs ++ [short_rec])
      (put32 0 ++ drop 4 (drop (length (raw_record short_rec)) failed_left)) st.1 st.2 ∧
    ∀ (o o' : Options) (locks : gset bytes), apply_defaults o = Some o' →
      [] ∉ IndexedFields o' → demo_path ++ lockFileSuffix ∉ locks →
      wp (Open (H:=canonical_range) demo_path o)
        (λ r st, ∃ e, r = Err e ∧ errors_Is e ErrCorruptedData = true)
        (locks, World (files st.2) [])) (failed_put.2.1, failed_put.2.2).
Proof.
  apply (failed_write_can_corrupt_log (H:=canonical_range) demo_path demo_rs (demo_store 0)
    failed_put.2.1 (demo_world 0 [] [FailIO 100]) failed_put.2.2 (str "big") zeros (str "s") []
    None None (Errorf "failed to append to log" [EIO]) failed_left
    (drop 4 (drop (length (raw_record short_rec)) failed_left)) 0).
  - apply demo_ok.
  - done.
  - done.
  - by apply small_append_ok; vm_compute.
  - by apply small_append_ok; vm_compute.
  - rewrite <- surjective_pairing. exact (pair_run failed_put _ failed_put_returns).
  - vm_compute. reflexivity.
  - exact failed_put_file.
  - intros Heq%(f_equal length). vm_compute in Heq. lia.
  - exact failed_put_left.
  - done.
Defined.

(** ** Single executions *)

#[local] Existing Instance canonical_range.

(** What [Open] reported, the keys of the store and the file it left. *)
Definition opened_as (r : res (Store * fileLock) * OS) : option (list bytes * option bytes) :=
  match r with
  | (Ok (s, _), (_, w)) => Some (Keys s, files w !! demo_path)
  | _ => None
  end.

(** Installing the compacted log fails, and so does putting the old one back. *)
Definition twice_failed_compaction : res unit * SS :=
  Compact (demo_store 0, demo_world 0 [] (replicate 14 Pass ++ [FailIO 0; FailIO 0])).
Definition open_after_failures : res (Store * fileLock) * OS :=
  Open demo_path demo_options (∅, World (files twice_failed_compaction.2.2) []).

(** [Compact] then reopens the missing log, which creates an empty one; the
    next [Open] takes it for the database and deletes both complete copies. *)
Example double_failure_loses_database :
  (∃ e, twice_failed_compaction.1 = Err e) ∧
  files twice_failed_compaction.2.2 !! (demo_path ++ compactionBackupSuffix) =
    Some (demo_file 0 []) ∧
  opened_as open_after_failures = Some ([], Some (header_bytes logVersion 0 0)) ∧
  files open_after_failures.2.2 !! (demo_path ++ compactionReadySuffix) = None ∧
  files open_after_failures.2.2 !! (demo_path ++ compactionBackupSuffix) = None.
Proof. vm_compute. split; [by eexists|done]. Qed.

(** ** A crash while a database is created *)

(** The process dies in the first [Open] of a path, after five bytes of the
    header. *)
Definition crashed_creation : res (Store * fileLock) * OS :=
  Open demo_path demo_options (∅, World ∅ (replicate 13 Pass ++ [DieIO 5])).

(** A partly written header is not recovered: every later [Open] refuses the
    path as corrupted, although nothing was ever stored there. *)
Example torn_header_is_refused :
  let w := crashed_creation.2.2 in
  crashed_creation.1 = Crash ∧ length <$> files w !! demo_path = Some 5%nat ∧
  match Open demo_path demo_options (∅, World (files w) []) with
  | (Err e, _) => errors_Is e ErrCorruptedData = true
  | _ => False
  end.
Proof. vm_compute. by split_and!. Qed.

(** ** Downgrade and its source *)

(** What [Downgrade] reported and the files it left, lock files aside. *)
Definition downgrade_run (src dst : bytes) (fs : gmap bytes bytes) : bool * option bytes * option bytes :=
  match Downgrade src dst {| Version := 4; Overwrite := false |} (∅, World fs []) with
  | (r, (_, w)) => (match r with Ok _ => true | _ => false end, files w !! src, files w !! dst)
  end.

(** A source that does not exist is created, as an empty log, and so is its
    downgrade: [Downgrade] reports success. *)
Example downgrade_creates_missing_source :
  downgrade_run demo_path (str "old") ∅ =
    (true, Some (header_bytes logVersion 0 0), Some (header_bytes 4 0 0)).
Proof. vm_compute. reflexivity. Qed.

(** ** The cache *)

(** [SetCapacity] with a negative capacity never ends: the eviction loop
    runs while the list is longer than the capacity, and evicting from an
    empty list does nothing. *)
Theorem negative_capacity_never_ends fuel cap os c vs :
  Forall cache_op_ok os → cache_run os (newLRUCache 1) = Some (vs, c) → cap < 0 →
  cache_SetCapacity fuel cap c = None.
Proof.
  intros Hos Hrun Hcap.
  destruct (cache_run_refines os (newLRUCache 1)) as (c' & Hrun' & Hc' & _);
    [apply newLRUCache_inv|by split; simpl; lia|done|].
  rewrite Hrun in Hrun'. injection Hrun' as _ ->. apply evict_over_negative; [|done].
  by destruct Hc'.
Qed.

Lemma negative_capacity_never_ends_witness :
  cache_SetCapacity 1000 (-1) (cache_Put (str "a") (str "1") (newLRUCache 1)) = None.
Proof.
  by apply (negative_capacity_never_ends 1000 (-1) [CPut (str "a") (str "1")] _ [None]);
    [repeat constructor|reflexivity|].
Defined.
